(* ===== verification/_CoqProject ===== *)
-Q . S2P
Prelude.v
ReturnCodes.v
Endian.v
OS.v
Murmur.v
HashAlg.v
Vlq.v
LogHeader.v
HashHeader.v
Buf.v
Compress.v
LogFormat.v
LogWriter.v
Cooperation.v
HeaderTypes.v
Printing.v
LogReader.v
LogCursor.v
PlainLog.v
BlockFormat.v
BlockReader.v
BlockCursor.v
BlockWriter.v
RobinHood.v
HashTable.v
TableBytes.v
TableRefine.v
TableStats.v
HashWriter.v
IndexFile.v
IndexCopy.v
Faults.v
StoredLog.v
LogProps.v
Readers.v
Crash.v
HashReader.v
Store.v
TableProps.v
StoreProps.v
Rebuild.v
IndexCrash.v
Cli.v
CliLines.v
CliProps.v
SystemTest.v
SystemRuns.v
Bench.v
TestHash.v
TestUtil.v
TestVlq.v
UnitTests.v
