(* ===== verification/Prelude.v ===== *)
(** * Sparkey: a verification of the C library

    Sparkey is a constant key-value store of two files.  The log (<name>.spl) is
    a header and a sequence of puts and deletes, optionally in compressed blocks;
    the index (<name>.spi) is a header and a hash table from keys to places in the
    log.  A client writes a log (logwriter.c), has its index written or brought up
    to date (hashwriter.c), opens both (logreader.c, hashreader.c), looks keys up
    and iterates.  This library models the C code under src/src/ function by
    function and proves what its operations do.

    ** How the code is modelled

    - Integers are [Z]; every place where a C type wraps applies [u8], [u32],
      [u64], [s32] or [s64].  Bytes are [Z] between 0 and 255, a buffer is a
      [list Z], and a struct is a record with the fields of the struct.
    - A function that can fail runs in the monad [M] of this file: [Ok] is a
      normal return, [Err rc] an early return with the code [rc], [UB] an access
      outside an object or another undefined behaviour, [NoFuel] a loop bound of
      the model that was too small.  The state survives all four, as in C.
      [RETHROW] is the bind of the monad; [TRY] with its labels is written with
      combinators that run the cleanup ([closing], [finally], [closing_log]).
    - The environment is the record [os] of OS.v: inodes, names, descriptors with
      offsets, a supply of random bytes, and a schedule that decides call by call
      whether a system call succeeds, fails or is short.  An empty schedule is an
      environment in which every call succeeds.  A run of the program adds standard
      input and what was printed ([process] of Cli.v); [exit] is an [Err] with the
      status.
    - Snappy and Zstandard are the fields of the class [Codec] of Compress.v, and
      [CodecLaws] is their documented contract; [identity_codec] is an instance.  getopt is the
      class [Getopt] of Cli.v.

    ** The files

    Prelude.v          integers, bytes, the monad and its lemmas (this file)
    ReturnCodes.v      sparkey_returncode of sparkey.h, returncodes.c, util.c
    Endian.v           the codecs of endiantools.c
    OS.v               the environment; write_full, fread_ and fwrite_ helpers,
                       rand32 (util.h), read_fully (hashwriter.c)
    Murmur.v           MurmurHash3.c
    HashAlg.v          hashalgorithms.c and the address helpers of hashheader.h
    Vlq.v              write_vlq, read_vlq, unsigned_vlq_size
    LogHeader.v        logheader.c: loading, checking and writing
    HashHeader.v       hashheader.c: loading, checking and writing
    Buf.v              buf.c
    Compress.v         compress.c
    LogFormat.v        the abstract log: entries, their encoding, the map they make
    LogWriter.v        logwriter.c
    Cooperation.v      computations that keep a property of the state, with a rule
                       for each part of the writer; an environment that never
                       fails, never starts to
    HeaderTypes.v      what loads is well typed, whatever the files hold
    Printing.v         print_logheader, print_hashheader and their conversions
    LogReader.v        logreader.c
    LogCursor.v        the class [LogCursor]: what a log iterator promises to the
                       table writer and the hash reader; keys and their comparison
    PlainLog.v         the iterator over an uncompressed log is a [LogCursor]
    BlockFormat.v      the layout of compressed logs: blocks, groups, the file
    BlockReader.v      moving through the blocks of a compressed log
    BlockCursor.v      the iterator over a compressed log is a [LogCursor]
    BlockWriter.v      the writer of a compressed log leaves that layout
    RobinHood.v        Robin Hood hashing on abstract tables
    HashTable.v        hash_put, hash_delete, hash_copy, calculate_max_displacement
                       (hashwriter.c), sparkey_iter_hash (hashiter.c)
    TableBytes.v       the table of bytes is a table of slots
    TableRefine.v      hash_put and hash_delete refine a finite map
    TableStats.v       what calculate_max_displacement computes: the largest and the
                       total displacement, the collisions
    HashWriter.v       sparkey_hash_write and its parts, and its loop over the log
    IndexFile.v        the index file that a fresh run leaves
    IndexCopy.v        fill_hash: an index brought up to date
    Faults.v           calls that fail or are short: the class [Env] and what it means to
                       survive them, for the functions that read
    StoredLog.v        the record [stored]: a log in its file, whatever its layout
    LogProps.v         the properties of logs
    Readers.v          a writer and readers interleaved call by call: the class
                       [WriterSession] and a step relation
    Crash.v            a flush that dies between its writes, and what a write cut
                       short can do
    HashReader.v       hashreader.c
    Store.v            the functions composed over one file system
    TableProps.v       the properties of the table
    StoreProps.v       the properties of a log with its index
    Rebuild.v          an index rebuilt with another hash size, and when that hangs
    IndexCrash.v       sparkey_hash_write while calls fail, and what is seen after it
    Cli.v              main.c: the commands as runs of a process
    CliLines.v         read_line, strtok and the loop of appendlog on a text
    CliProps.v         the properties of the commands
    SystemTest.v       testsystem.c, and what its two test functions do
    SystemRuns.v       main of testsystem.c: all runs over one file system
    Bench.v            the creation and the lookups of bench.c
    TestHash.v         testhash.c with its vectors
    TestUtil.v         testutil.c
    TestVlq.v          testvlq.c
    UnitTests.v        the three unit tests, run
    Each file has its definitions first, in the order and under the names of the
    code, then what is proved of them.

    ** How the parts fit together

    A log is a list of entries.  Without compression its file is
    [LogFormat.log_file fid es], the header and the entries one after the other.
    With compression the file is [BlockFormat.comp_file P fid gs]: the entries form
    groups, a group starts with a block, every entry of it starts in its first
    block, and only the last one may go on in further blocks; [groups_of] says
    which groups the writer makes.  LogWriter.v and BlockWriter.v prove that
    creating, adding, flushing and closing leave these files; PlainLog.v and
    BlockCursor.v that the reader and iterator over them satisfy [LogCursor log
    es]: a place in [es] for every state of the iterator, and the effect of next,
    seek, skip, reset and the chunk functions on it.  Everything that uses an
    iterator (the comparison of keys, hashing, insertion, deletion, lookups, the
    scan) is proved against that class alone.

    StoredLog.v puts the two layouts behind one interface: a [stored] log has
    entries, a header that loads, and for every reader on its file a [LogCursor];
    [written] and [appended] are the logs that sessions leave, [grows] is what an
    index needs of a log that was appended to.  The theorems about indexes, clients
    and commands are about [stored] logs, so they hold with and without compression.
    Readers.v does the same for writers: [WriterSession] is what a writer at work
    promises to those who open the log meanwhile, with an instance for each layout.

    RobinHood.v keeps the invariant that makes lookups right ([ordered]: along a
    run of slots the displacement grows by at most one; [anchored]: no empty slot
    before an entry's place) and what carrying an entry and shifting back do to it.
    TableRefine.v carries this to bytes: [table_inv st m] says that the table in
    the state [st] is well formed and holds exactly the map [m] from keys to
    addresses, and [hash_put] and [hash_delete] act on it as insertion and
    deletion.  HashWriter.v shows that the loop over the log leaves the map
    [address_map] of the whole log; IndexFile.v and IndexCopy.v that the file is
    then an [index_ok], from nothing or from an older index; HashReader.v that
    lookups and scans through an index of the first [n0] entries ([reader_upto],
    or [reader_on] for all) answer as [replay (take n0 es)], the map that
    the entries make.  Store.v puts the pieces together.

    ** What the theorems show

    - The store: a written and indexed log answers every lookup as [replay]
      (store_roundtrip), also after it grew and the index was brought up to date
      (store_grows); what sparkey_hash_write leaves where there was no
      index, another file or an older index with hashes of the same size
      (hash_write_indexes), that it does nothing on a current index
      (hash_write_idempotent); the scan delivers exactly the live entries, in the order of
      the log (scan_live_entries); an index older than its log answers for the log as
      it was (older_index_answers); which indexes are refused (hash_open_refuses).
      When calls of sparkey_hash_write fail (or, where no file has the name of the
      index, are short), the next client sees what was there before, an error, or the
      answers of the whole log (hash_write_crash_safe).
    - The log: written entries are read back (write_read_roundtrip), appending
      continues the file (append_log_file), the invariants of the two writers
      (writer_put_delete, compressed_put_delete), a flush makes everything before it durable
      (writer_flush_durable) and what follows is invisible until the next one
      (unflushed_tail_ignored), a cut log is refused (truncated_log_refused); the
      iterator's reset, comparisons and guards.  However calls of a writer and
      openings and closings of readers interleave, every reader reads exactly the
      entries of the last flush before it opened (readers_see_last_flush).  A flush
      of an uncompressed log that dies between two writes leaves the old log, the new
      one, or a header that is refused (flush_crash_safe).
    - The table: hash_put_refines, hash_delete_refines, capacity_enough (with the
      rounded product of doubles), statistics_exact.
    - The program: a session of createlog, appendlog, writehash and get prints the
      last value of a key (session_answers); what get writes and answers (get_prints),
      what appendlog adds (appendlog_adds_lines), what rewrite copies
      (rewrite_copies), what info shows (info_shows).
    - The tests as clients of the library: the system test passes for all numbers
      of entries and all options with which the log can be opened (verify_passes) and
      as a whole (main_passes), when the identifiers that it draws are distinct; the
      benchmark finds all its values (bench_finds_values); testhash and testutil
      return 0, and testvlq ends in a shift of 1 by 31, which is undefined
      (unit_tests_run).
    - Codecs and headers: the variable length quantities, both headers (the loader
      accepts a log header exactly when it is consistent, what it returns is well typed
      for any file: load_logheader_iff, loaded_headers_typed), MurmurHash3 against
      a reference over words, the compressors' wrappers, endianness, file names.
    - Where the code does not do what it should, a theorem shows the behaviour:
      rebuild_hangs and rebuild_counts_garbage_twice (an index rebuilt with another
      hash size), hash_put_full_diverges, lone_entry_collides,
      zero_hash_collides, hash_open_leaks, load_logheader_leaks, skip_past_end_diverges, read_fully_short_read_corrupts,
      rewrite_copies (deleted keys come back), rewrite_overflows,
      appendlog_reads_garbage, compressed_log_refused (a log that was written and
      cannot be opened), verify_files_closed_checks (equal identifiers go unnoticed), wide_bits_undefined and no_slots_undefined (index headers
      that are not checked enough), flush_crash_refused, flush_crash_maxima and
      flush_cut_loses (the header of a log is replaced in place, one field per write), torn_index_stays (an index that
      was cut is never replaced).

    ** Fuel

    A loop of the code whose end is not structural takes a bound.  write_full,
    the buffer loops, the chunk loops and the walks over the table get theirs
    inside the definitions from the data they run on (the length, the capacity plus
    two); the rounds of hash_put are a class of their own, [PutRounds], whose
    instance [enough_rounds] is the capacity plus two, so that rebuild_hangs can
    quantify over every bound; the loops over a log (sparkey_hash_write, hashnext, the scan) take the
    fuel as an argument, and the theorems ask for more fuel than the log has
    entries.  The theorems state results, not only partial correctness: with that
    fuel the answer is [Ok].  Where the code can run forever the model answers
    [NoFuel] for every fuel, and the theorems on divergence say so.

    ** Not modelled

    The rest of bench.c: the clock, the times and sizes that it prints, and the removal of
    files and directories.  Memory that malloc returns is not tracked; a failing malloc
    is part of the schedule, except those of sparkey_iter_hash (whose result the code
    does not look at) and _create_filename, which succeed; a leak of memory is not
    visible (a leak of a descriptor is).  Of the value of memcmp the model keeps the
    sign.  A writer and readers interleave by whole calls (Readers.v), a flush
    of an uncompressed log also between its writes (Crash.v), and sparkey_hash_write may
    end at any of its calls (IndexCrash.v); the parts of other calls do not interleave, a page cache that reorders writes is not modelled, and
    neither are threads within a process: the library has no locks. *)

From stdpp Require Import base gmap list strings numbers.
From Stdlib Require Import ZArith Lia.

Local Open Scope Z_scope.

(** ** Machine integers

    A C integer is a [Z]; every place where the code's type makes the value
    wrap applies one of these. *)

Definition u8 (z : Z) : Z := z mod 2 ^ 8.
Definition u32 (z : Z) : Z := z mod 2 ^ 32.
Definition u64 (z : Z) : Z := z mod 2 ^ 64.

(** Conversion to a signed 32 bit [int], as every supported compiler does it. *)
Definition s32 (z : Z) : Z := (z + 2 ^ 31) mod 2 ^ 32 - 2 ^ 31.

(** Conversion to a signed 64 bit [ptrdiff_t]. *)
Definition s64 (z : Z) : Z := (z + 2 ^ 63) mod 2 ^ 64 - 2 ^ 63.

(** The length of a byte sequence as an integer of the model. *)
Abbreviation zlen l := (Z.of_nat (length l)).

(** A list of [uint8_t] values. *)
Definition byte_ok (b : Z) : Prop := 0 <= b < 256.
Definition bytes_ok (bs : list Z) : Prop := Forall byte_ok bs.

(** ** Results and the state-and-error monad

    [Ok] is a normal return, [Err rc] an early return with a code that is not
    SPARKEY_SUCCESS, [UB] a read or write outside an object or another
    undefined behaviour of C, and [NoFuel] that the loop bound given to the
    model was too small.  The state survives every outcome, because C keeps
    what was assigned before the early return. *)

Inductive res (E A : Type) : Type :=
| Ok (a : A)
| Err (e : E)
| UB
| NoFuel.

Arguments Ok {E A} a.
Arguments Err {E A} e.
Arguments UB {E A}.
Arguments NoFuel {E A}.

Definition M (E S A : Type) : Type := S → res E A * S.

#[export] Instance M_ret E S : MRet (M E S) := λ A (a : A) s, (Ok a, s).

#[export] Instance M_bind E S : MBind (M E S) := λ A B (k : A → M E S B) m s,
  match m s with
  | (Ok a, s') => k a s'
  | (Err e, s') => (Err e, s')
  | (UB, s') => (UB, s')
  | (NoFuel, s') => (NoFuel, s')
  end.

Definition fail {E S A} (e : E) : M E S A := λ s, (Err e, s).
Definition undefined {E S A} : M E S A := λ s, (UB, s).
Definition out_of_fuel {E S A} : M E S A := λ s, (NoFuel, s).
Definition getS {E S} : M E S S := λ s, (Ok s, s).
Definition putS {E S} (s' : S) : M E S unit := λ _, (Ok tt, s').
Definition modS {E S} (f : S → S) : M E S unit := λ s, (Ok tt, f s).

(** Run a computation on a part of the state. *)
Definition zoom {E S T A} (get : S → T) (set : T → S → S) (m : M E T A) : M E S A :=
  λ s, let '(r, t) := m (get s) in (r, set t s).

(** A value that is undefined behaviour when absent. *)
Definition of_opt {E S A} (o : option A) : M E S A :=
  match o with Some a => mret a | None => undefined end.

(** A pure result lifted to the monad. *)
Definition of_res {E S A} (r : res E A) : M E S A := λ s, (r, s).

(** ** Memory: a byte array with checked accesses *)

Definition mem_read (m : list Z) (pos len : Z) : option (list Z) :=
  if decide (0 ≤ pos ∧ 0 ≤ len ∧ pos + len ≤ zlen m)
  then Some (take (Z.to_nat len) (drop (Z.to_nat pos) m))
  else None.

Definition mem_write (m : list Z) (pos : Z) (bs : list Z) : option (list Z) :=
  if decide (0 ≤ pos ∧ pos + zlen bs ≤ zlen m)
  then Some (take (Z.to_nat pos) m ++ bs ++ drop (Z.to_nat pos + length bs) m)
  else None.

Definition mem_get (m : list Z) (pos : Z) : option Z :=
  if decide (0 ≤ pos) then m !! Z.to_nat pos else None.

(** ** Automation *)

Create HintDb sparkey discriminated.
Create Rewrite HintDb wrap.

(** Split the conjunctions of the goal and close the arithmetic ones. *)
Ltac split_lia := repeat split; try lia.

(** Name the result of a computation under a bind. *)
Ltac mcase m := destruct m as [[?|?| |] ?] eqn:?.

(** Unfold one monadic layer of the goal. *)
Ltac munfold := unfold mbind, M_bind, mret, M_ret, fail, undefined, out_of_fuel, getS,
  putS, modS, of_opt, of_res in *.

(** ** Lemmas on machine integers *)

Lemma u8_range z : 0 ≤ u8 z < 256.
Proof. apply (Z.mod_pos_bound z (2 ^ 8)); lia. Qed.

Lemma u32_range z : 0 ≤ u32 z < 2 ^ 32.
Proof. apply Z.mod_pos_bound; lia. Qed.

Lemma u64_range z : 0 ≤ u64 z < 2 ^ 64.
Proof. apply Z.mod_pos_bound; lia. Qed.

Lemma s32_range z : - 2 ^ 31 ≤ s32 z < 2 ^ 31.
Proof. unfold s32. pose proof (Z.mod_pos_bound (z + 2 ^ 31) (2 ^ 32)). lia. Qed.

Lemma u8_id z : 0 ≤ z < 256 → u8 z = z.
Proof. intros. apply Z.mod_small. lia. Qed.

Lemma u32_id z : 0 ≤ z < 2 ^ 32 → u32 z = z.
Proof. intros. apply Z.mod_small. lia. Qed.

Lemma u64_id z : 0 ≤ z < 2 ^ 64 → u64 z = z.
Proof. intros. apply Z.mod_small. lia. Qed.

Lemma s32_id z : - 2 ^ 31 ≤ z < 2 ^ 31 → s32 z = z.
Proof. intros. unfold s32. rewrite Z.mod_small; lia. Qed.

Lemma s64_id z : - 2 ^ 63 ≤ z < 2 ^ 63 → s64 z = z.
Proof. intros. unfold s64. rewrite Z.mod_small; lia. Qed.

Lemma u32_land z : u32 z = Z.land z (Z.ones 32).
Proof. unfold u32. by rewrite Z.land_ones by lia. Qed.

Lemma u64_land z : u64 z = Z.land z (Z.ones 64).
Proof. unfold u64. by rewrite Z.land_ones by lia. Qed.

(** Setting bits above a number that has none there is an addition. *)
Lemma land_shiftl_0 a b k : 0 ≤ k → 0 ≤ b < 2 ^ k → Z.land b (Z.shiftl a k) = 0.
Proof.
  intros Hk Hb. apply Z.bits_inj'. intros n Hn. rewrite Z.land_spec, Z.bits_0.
  destruct (decide (n < k)).
  { rewrite Z.shiftl_spec_low by lia. apply andb_false_r. }
  rewrite <- (Z.mod_small b (2 ^ k)) by lia. by rewrite Z.mod_pow2_bits_high by lia.
Qed.

Lemma lor_shiftl_add a b k : 0 ≤ k → 0 ≤ b < 2 ^ k → Z.lor b (Z.shiftl a k) = b + a * 2 ^ k.
Proof.
  intros. rewrite <- Z.shiftl_mul_pow2 by lia. symmetry.
  by apply Z.add_nocarry_lor, land_shiftl_0.
Qed.

Lemma lxor_shiftl_add a b k : 0 ≤ k → 0 ≤ b < 2 ^ k → Z.lxor b (Z.shiftl a k) = b + a * 2 ^ k.
Proof.
  intros. rewrite <- Z.shiftl_mul_pow2 by lia. symmetry.
  by apply Z.add_nocarry_lxor, land_shiftl_0.
Qed.

(** Bitwise operations stay inside a power of two. *)
Lemma lxor_range a b n : 0 ≤ n → 0 ≤ a < 2 ^ n → 0 ≤ b < 2 ^ n → 0 ≤ Z.lxor a b < 2 ^ n.
Proof.
  intros Hn Ha Hb.
  replace (Z.lxor a b) with (Z.lxor a b mod 2 ^ n); [apply Z.mod_pos_bound; lia|].
  apply Z.bits_inj'. intros i Hi. destruct (decide (i < n)).
  - by rewrite Z.mod_pow2_bits_low by lia.
  - rewrite Z.mod_pow2_bits_high, Z.lxor_spec by lia.
    rewrite <- (Z.mod_small a (2 ^ n)), <- (Z.mod_small b (2 ^ n)) by lia.
    by rewrite !Z.mod_pow2_bits_high by lia.
Qed.

Lemma shiftr_range a k n : 0 ≤ k → 0 ≤ a < n → 0 ≤ Z.shiftr a k < n.
Proof.
  intros Hk Ha. rewrite Z.shiftr_div_pow2 by lia.
  pose proof (Z.pow_pos_nonneg 2 k). split; [apply Z.div_pos; lia|].
  apply Z.le_lt_trans with a; [|lia]. apply Z.div_le_upper_bound; nia.
Qed.

#[export] Hint Resolve u8_range u32_range u64_range : sparkey.
#[export] Hint Rewrite u8_id u32_id u64_id s32_id s64_id using lia : wrap.

(** Remove every wrap-around whose argument is in range. *)
Ltac unwrap := autorewrite with wrap in *.

(** ** Lemmas on the monad *)

Section Monad.
Context {E S : Type}.

Lemma bind_Ok {A B} (m : M E S A) (k : A → M E S B) s a s' :
  m s = (Ok a, s') → (m ≫= k) s = k a s'.
Proof. intros H. unfold mbind, M_bind. by rewrite H. Qed.

Lemma bind_Err {A B} (m : M E S A) (k : A → M E S B) s e s' :
  m s = (Err e, s') → (m ≫= k) s = (Err e, s').
Proof. intros H. unfold mbind, M_bind. by rewrite H. Qed.

Lemma bind_UB {A B} (m : M E S A) (k : A → M E S B) s : (m s).1 = UB → ((m ≫= k) s).1 = UB.
Proof. unfold mbind, M_bind. destruct (m s) as [[] ?]; cbn; congruence. Qed.

Lemma bind_NoFuel {A B} (m : M E S A) (k : A → M E S B) s : (m s).1 = NoFuel → ((m ≫= k) s).1 = NoFuel.
Proof. unfold mbind, M_bind. destruct (m s) as [[] ?]; cbn; congruence. Qed.

Lemma bind_ret {A B} (a : A) (k : A → M E S B) s : (mret a ≫= k) s = k a s.
Proof. done. Qed.

Lemma bind_getS {B} (k : S → M E S B) s : (getS ≫= k) s = k s s.
Proof. done. Qed.

Lemma bind_modS {B} (f : S → S) (k : unit → M E S B) s : (modS f ≫= k) s = k tt (f s).
Proof. done. Qed.

Lemma bind_of_opt {A B} (a : A) (k : A → M E S B) s : (of_opt (Some a) ≫= k) s = k a s.
Proof. done. Qed.

Lemma bind_assoc {A B C} (m : M E S A) (f : A → M E S B) (g : B → M E S C) s :
  ((m ≫= f) ≫= g) s = (m ≫= (λ a, f a ≫= g)) s.
Proof. unfold mbind, M_bind. by destruct (m s) as [[] ?]. Qed.

Lemma zoom_run {T A} (get : S → T) (set : T → S → S) (m : M E T A) s r t :
  m (get s) = (r, t) → zoom get set m s = (r, set t s).
Proof. intros H. unfold zoom. by rewrite H. Qed.

Lemma of_opt_Some {A} (a : A) (s : S) : @of_opt E S A (Some a) s = (Ok a, s).
Proof. done. Qed.

End Monad.

(** Run the first action of a bind, given the equation of the action. *)
Tactic Notation "mrun" uconstr(H) := erewrite bind_Ok; [|eapply H].

(** ** Lemmas on lists and memory *)

Lemma take_drop_cons {A} (l : list A) n x :
  l !! n = Some x → drop n l = x :: drop (S n) l.
Proof. intros. by apply drop_S. Qed.

Lemma filter_all {A} (P : A → Prop) `{∀ x, Decision (P x)} l : Forall P l → base.filter P l = l.
Proof. induction 1 as [|x l Hx _ IH]; [done|]. rewrite filter_cons_True by done. by rewrite IH. Qed.

Lemma filter_none {A} (P : A → Prop) `{∀ x, Decision (P x)} l : Forall (λ x, ¬ P x) l → base.filter P l = [].
Proof. induction 1 as [|x l Hx _ IH]; [done|]. by rewrite filter_cons, decide_False. Qed.

Lemma bytes_ok_app a b : bytes_ok (a ++ b) ↔ bytes_ok a ∧ bytes_ok b.
Proof. apply Forall_app. Qed.

Lemma bytes_ok_cons b bs : bytes_ok (b :: bs) ↔ byte_ok b ∧ bytes_ok bs.
Proof. apply Forall_cons_iff. Qed.

Lemma bytes_ok_take n l : bytes_ok l → bytes_ok (take n l).
Proof. apply Forall_take. Qed.

Lemma bytes_ok_drop n l : bytes_ok l → bytes_ok (drop n l).
Proof. apply Forall_drop. Qed.

#[export] Hint Resolve bytes_ok_take bytes_ok_drop : sparkey.

Lemma mem_read_length m pos len bs : mem_read m pos len = Some bs → zlen bs = len.
Proof.
  unfold mem_read. case_decide as H; [|done]. intros [= <-].
  rewrite length_take, length_drop. lia.
Qed.

Lemma mem_read_app_l a b len : len = zlen a → mem_read (a ++ b) 0 len = Some a.
Proof.
  intros ->. unfold mem_read. rewrite decide_True by (rewrite length_app; lia).
  rewrite Nat2Z.id, drop_0. by rewrite take_app_length.
Qed.

Lemma mem_read_bytes_ok m pos len bs : mem_read m pos len = Some bs → bytes_ok m → bytes_ok bs.
Proof.
  unfold mem_read. case_decide as H; [|done]. intros [= <-] ?. eauto with sparkey.
Qed.

(** Reading the middle of three consecutive pieces. *)
Lemma mem_read_mid a b c pos len :
  pos = zlen a → len = zlen b → mem_read (a ++ b ++ c) pos len = Some b.
Proof.
  intros -> ->. unfold mem_read. rewrite decide_True by (rewrite !length_app; lia).
  by rewrite !Nat2Z.id, drop_app_length, take_app_length.
Qed.

Lemma mem_read_some m pos len :
  0 ≤ pos → 0 ≤ len → pos + len ≤ zlen m →
  mem_read m pos len = Some (take (Z.to_nat len) (drop (Z.to_nat pos) m)).
Proof. intros. unfold mem_read. by rewrite decide_True. Qed.

Lemma mem_write_some m pos bs :
  0 ≤ pos → pos + zlen bs ≤ zlen m →
  mem_write m pos bs = Some (take (Z.to_nat pos) m ++ bs ++ drop (Z.to_nat pos + length bs) m).
Proof. intros. unfold mem_write. by rewrite decide_True. Qed.

Lemma mem_write_length m pos bs m' : mem_write m pos bs = Some m' → length m' = length m.
Proof.
  unfold mem_write. case_decide; [|done]. intros [= <-].
  rewrite !length_app, length_take, length_drop. lia.
Qed.

Lemma mem_write_ok m pos bs m' :
  mem_write m pos bs = Some m' → bytes_ok m → bytes_ok bs → bytes_ok m'.
Proof.
  unfold mem_write. case_decide; [|done]. intros [= <-] ??.
  rewrite !bytes_ok_app. eauto with sparkey.
Qed.

Lemma mem_write_lookup m pos bs m' i :
  mem_write m pos bs = Some m' →
  m' !! i = if decide (pos ≤ Z.of_nat i < pos + zlen bs)
            then bs !! (i - Z.to_nat pos)%nat else m !! i.
Proof.
  unfold mem_write. case_decide as H; [|done]. intros [= <-].
  case_decide.
  - rewrite lookup_app_r by (rewrite length_take; lia).
    rewrite lookup_app_l by (rewrite length_take; lia).
    f_equal. rewrite length_take. lia.
  - destruct (decide (Z.of_nat i < pos)).
    + rewrite lookup_app_l by (rewrite length_take; lia).
      apply lookup_take_lt. lia.
    + rewrite !lookup_app_r by (rewrite ?length_app, length_take; lia).
      rewrite lookup_drop. f_equal. rewrite length_take. lia.
Qed.

Lemma mem_read_lookup m pos len bs i :
  mem_read m pos len = Some bs → (i < length bs)%nat →
  bs !! i = m !! (Z.to_nat pos + i)%nat.
Proof.
  unfold mem_read. case_decide; [|done]. intros [= <-] Hi.
  rewrite length_take in Hi. rewrite lookup_take_lt by lia. by rewrite lookup_drop.
Qed.

(** A read of the bytes just written gives them back. *)
Lemma mem_read_write_same m pos bs m' len :
  mem_write m pos bs = Some m' → len = zlen bs → mem_read m' pos len = Some bs.
Proof.
  unfold mem_write. case_decide as H; [|done]. intros [= <-] ->.
  apply mem_read_mid; [rewrite length_take; lia | done].
Qed.

(** A read that does not overlap a write is not affected by it. *)
Lemma mem_read_write_other m pos bs m' pos2 len :
  mem_write m pos bs = Some m' →
  (pos2 + len ≤ pos ∨ pos + zlen bs ≤ pos2) →
  mem_read m' pos2 len = mem_read m pos2 len.
Proof.
  intros Hw Hdis. pose proof (mem_write_length _ _ _ _ Hw) as Hl.
  unfold mem_read. rewrite Hl. case_decide as H; [|done]. f_equal.
  apply list_eq. intros i.
  destruct (decide (i < Z.to_nat len)%nat).
  - rewrite !lookup_take_lt, !lookup_drop by lia.
    rewrite (mem_write_lookup _ _ _ _ _ Hw). rewrite decide_False; [done|lia].
  - by rewrite !lookup_take_ge by lia.
Qed.
