(* ===== verification/ReturnCodes.v ===== *)
(** * Return codes, errno translation and file names

    [returncode] is the enum of sparkey.h, [sparkey_errstring] is returncodes.c,
    and the remaining definitions are util.c. *)

From stdpp Require Import base gmap list strings numbers.
From Stdlib Require Import ZArith Lia Ascii.
From S2P Require Import Prelude.

Local Open Scope Z_scope.

(** ** Definitions *)

Inductive returncode : Set :=
| SPARKEY_SUCCESS
| SPARKEY_INTERNAL_ERROR
| SPARKEY_FILE_NOT_FOUND
| SPARKEY_PERMISSION_DENIED
| SPARKEY_TOO_MANY_OPEN_FILES
| SPARKEY_FILE_TOO_LARGE
| SPARKEY_FILE_ALREADY_EXISTS
| SPARKEY_FILE_BUSY
| SPARKEY_FILE_IS_DIRECTORY
| SPARKEY_FILE_SIZE_EXCEEDED
| SPARKEY_FILE_CLOSED
| SPARKEY_OUT_OF_DISK
| SPARKEY_UNEXPECTED_EOF
| SPARKEY_MMAP_FAILED
| SPARKEY_WRONG_LOG_MAGIC_NUMBER
| SPARKEY_WRONG_LOG_MAJOR_VERSION
| SPARKEY_UNSUPPORTED_LOG_MINOR_VERSION
| SPARKEY_LOG_TOO_SMALL
| SPARKEY_LOG_CLOSED
| SPARKEY_LOG_ITERATOR_INACTIVE
| SPARKEY_LOG_ITERATOR_MISMATCH
| SPARKEY_LOG_ITERATOR_CLOSED
| SPARKEY_LOG_HEADER_CORRUPT
| SPARKEY_INVALID_COMPRESSION_BLOCK_SIZE
| SPARKEY_INVALID_COMPRESSION_TYPE
| SPARKEY_WRONG_HASH_MAGIC_NUMBER
| SPARKEY_WRONG_HASH_MAJOR_VERSION
| SPARKEY_UNSUPPORTED_HASH_MINOR_VERSION
| SPARKEY_HASH_TOO_SMALL
| SPARKEY_HASH_CLOSED
| SPARKEY_FILE_IDENTIFIER_MISMATCH
| SPARKEY_HASH_HEADER_CORRUPT
| SPARKEY_HASH_SIZE_INVALID.

#[export] Instance returncode_eq_dec : EqDecision returncode.
Proof. solve_decision. Defined.

(** The numeric values of the enum. *)
Definition returncode_value (c : returncode) : Z :=
  match c with
  | SPARKEY_SUCCESS => 0
  | SPARKEY_INTERNAL_ERROR => -1
  | SPARKEY_FILE_NOT_FOUND => -100
  | SPARKEY_PERMISSION_DENIED => -101
  | SPARKEY_TOO_MANY_OPEN_FILES => -102
  | SPARKEY_FILE_TOO_LARGE => -103
  | SPARKEY_FILE_ALREADY_EXISTS => -104
  | SPARKEY_FILE_BUSY => -105
  | SPARKEY_FILE_IS_DIRECTORY => -106
  | SPARKEY_FILE_SIZE_EXCEEDED => -107
  | SPARKEY_FILE_CLOSED => -108
  | SPARKEY_OUT_OF_DISK => -109
  | SPARKEY_UNEXPECTED_EOF => -110
  | SPARKEY_MMAP_FAILED => -111
  | SPARKEY_WRONG_LOG_MAGIC_NUMBER => -200
  | SPARKEY_WRONG_LOG_MAJOR_VERSION => -201
  | SPARKEY_UNSUPPORTED_LOG_MINOR_VERSION => -202
  | SPARKEY_LOG_TOO_SMALL => -203
  | SPARKEY_LOG_CLOSED => -204
  | SPARKEY_LOG_ITERATOR_INACTIVE => -205
  | SPARKEY_LOG_ITERATOR_MISMATCH => -206
  | SPARKEY_LOG_ITERATOR_CLOSED => -207
  | SPARKEY_LOG_HEADER_CORRUPT => -208
  | SPARKEY_INVALID_COMPRESSION_BLOCK_SIZE => -209
  | SPARKEY_INVALID_COMPRESSION_TYPE => -210
  | SPARKEY_WRONG_HASH_MAGIC_NUMBER => -300
  | SPARKEY_WRONG_HASH_MAJOR_VERSION => -301
  | SPARKEY_UNSUPPORTED_HASH_MINOR_VERSION => -302
  | SPARKEY_HASH_TOO_SMALL => -303
  | SPARKEY_HASH_CLOSED => -304
  | SPARKEY_FILE_IDENTIFIER_MISMATCH => -305
  | SPARKEY_HASH_HEADER_CORRUPT => -306
  | SPARKEY_HASH_SIZE_INVALID => -307
  end.

Definition sparkey_errstring (c : returncode) : string :=
  match c with
  | SPARKEY_SUCCESS => "Success"
  | SPARKEY_INTERNAL_ERROR => "Internal error"
  | SPARKEY_FILE_NOT_FOUND => "File not found"
  | SPARKEY_PERMISSION_DENIED => "Permission denied"
  | SPARKEY_TOO_MANY_OPEN_FILES => "Too many open files"
  | SPARKEY_FILE_TOO_LARGE => "File is too large"
  | SPARKEY_FILE_ALREADY_EXISTS => "File already exists"
  | SPARKEY_FILE_BUSY => "File is busy"
  | SPARKEY_FILE_IS_DIRECTORY => "File is a directory"
  | SPARKEY_FILE_SIZE_EXCEEDED => "Maximum file size exceeded"
  | SPARKEY_FILE_CLOSED => "File is closed"
  | SPARKEY_OUT_OF_DISK => "Out of free disk space"
  | SPARKEY_UNEXPECTED_EOF => "Encountered unexpected end of file"
  | SPARKEY_MMAP_FAILED => "mmap failed - running on 32 bit system?"
  | SPARKEY_WRONG_LOG_MAGIC_NUMBER => "Wrong magic number of log file"
  | SPARKEY_WRONG_LOG_MAJOR_VERSION => "Wrong major version of log file"
  | SPARKEY_UNSUPPORTED_LOG_MINOR_VERSION => "Unsupported minor version of log file"
  | SPARKEY_LOG_TOO_SMALL => "Corrupt log file - smaller than the header indicates"
  | SPARKEY_LOG_CLOSED => "Log file is closed"
  | SPARKEY_LOG_ITERATOR_INACTIVE => "Log iterator is inactive"
  | SPARKEY_LOG_ITERATOR_MISMATCH => "The iterator is not associated with the log"
  | SPARKEY_LOG_ITERATOR_CLOSED => "Log iterator is closed"
  | SPARKEY_LOG_HEADER_CORRUPT => "Log header is corrupt"
  | SPARKEY_INVALID_COMPRESSION_BLOCK_SIZE => "Invalid compression block size"
  | SPARKEY_INVALID_COMPRESSION_TYPE => "Invalid compression type"
  | SPARKEY_WRONG_HASH_MAGIC_NUMBER => "Wrong magic number of hash file"
  | SPARKEY_WRONG_HASH_MAJOR_VERSION => "Wrong major version of hash file"
  | SPARKEY_UNSUPPORTED_HASH_MINOR_VERSION => "Unsupported minor version of hash file"
  | SPARKEY_HASH_TOO_SMALL => "Corrupt hash file - smaller than the header indicates"
  | SPARKEY_HASH_CLOSED => "Hash file is closed"
  | SPARKEY_FILE_IDENTIFIER_MISMATCH => "File identifier differs between hash file and log file"
  | SPARKEY_HASH_HEADER_CORRUPT => "Hash header is corrupt"
  | SPARKEY_HASH_SIZE_INVALID => "Hash size is invalid"
  end%string.

(** The error numbers the code tests for; [EOTHER] is any other value. *)
Inductive errno : Set :=
| EPERM | ENOENT | EINTR | EBADF | EAGAIN | EACCES | EBUSY | EEXIST | EISDIR
| ENFILE | EMFILE | EFBIG | ENOSPC | EROFS | EOVERFLOW | EOTHER (n : Z).

#[export] Instance errno_eq_dec : EqDecision errno.
Proof. solve_decision. Defined.

Definition sparkey_open_returncode (e : errno) : returncode :=
  match e with
  | EPERM | EACCES => SPARKEY_PERMISSION_DENIED
  | ENFILE => SPARKEY_TOO_MANY_OPEN_FILES
  | ENOENT => SPARKEY_FILE_NOT_FOUND
  | EOVERFLOW => SPARKEY_FILE_TOO_LARGE
  | _ => SPARKEY_INTERNAL_ERROR
  end.

Definition sparkey_create_returncode (e : errno) : returncode :=
  match e with
  | EPERM | EROFS | EACCES => SPARKEY_PERMISSION_DENIED
  | EEXIST => SPARKEY_FILE_ALREADY_EXISTS
  | EISDIR => SPARKEY_FILE_IS_DIRECTORY
  | ENFILE | EMFILE => SPARKEY_TOO_MANY_OPEN_FILES
  | _ => SPARKEY_INTERNAL_ERROR
  end.

Definition sparkey_remove_returncode (e : errno) : returncode :=
  match e with
  | EPERM | EROFS | EACCES => SPARKEY_PERMISSION_DENIED
  | EBUSY => SPARKEY_FILE_BUSY
  | EISDIR => SPARKEY_FILE_IS_DIRECTORY
  | EOVERFLOW => SPARKEY_FILE_TOO_LARGE
  | _ => SPARKEY_INTERNAL_ERROR
  end.

(** [_create_filename]: [None] is the NULL pointer, for the argument and for
    the result.  That its malloc fails, which also gives NULL, is left out. *)
Definition _create_filename (input : option string) (from : string) (to : ascii)
    : option string :=
  match input with
  | None => None
  | Some input =>
      let cs := String.list_ascii_of_string input in
      let fs := String.list_ascii_of_string from in
      let l := length cs in
      if decide (10000 < Z.of_nat l) then None
      else if decide (l < length fs)%nat then None
      else if decide (take (length fs) (drop (l - length fs) cs) = fs)
      then Some (String.string_of_list_ascii (<[(l - 1)%nat := to]> cs))
      else None
  end.

Definition sparkey_create_log_filename (index_filename : option string) : option string :=
  _create_filename index_filename ".spi" "l".

Definition sparkey_create_index_filename (log_filename : option string) : option string :=
  _create_filename log_filename ".spl" "i".

(** The monad of the library: a [returncode] other than SPARKEY_SUCCESS is the
    [Err] outcome, so the code's RETHROW and TRY are the monadic bind. *)
Abbreviation MC S A := (M returncode S A).

(** ** Lemmas *)

Lemma list_ascii_app (a b : string) :
  String.list_ascii_of_string (a +:+ b) = String.list_ascii_of_string a ++ String.list_ascii_of_string b.
Proof. induction a as [|c a IH]; simpl; [done|]. by rewrite IH. Qed.

Lemma string_of_list_app (a b : list ascii) :
  String.string_of_list_ascii (a ++ b) = (String.string_of_list_ascii a +:+ String.string_of_list_ascii b)%string.
Proof. induction a as [|c a IH]; simpl; [done|]. by rewrite IH. Qed.

Lemma insert_last_suffix {A} (base : list A) (x y z w v : A) :
  <[(length (base ++ [x; y; z; w]) - 1)%nat := v]> (base ++ [x; y; z; w])
  = base ++ [x; y; z; v].
Proof.
  rewrite length_app. cbn [length].
  replace (length base + 4 - 1)%nat with (length base + 3)%nat by lia.
  by rewrite insert_app_r.
Qed.

(** Both file name functions succeed exactly on names with the suffix. *)
Lemma create_filename_iff s t p w w' :
  let suffix c := String "." (String "s" (String "p" (String c EmptyString))) in
  p = suffix w →
  _create_filename (Some s) p w' = Some t ↔
  Z.of_nat (String.length s) ≤ 10000 ∧
  ∃ base, s = (base +:+ suffix w)%string ∧ t = (base +:+ suffix w')%string.
Proof.
  intros suffix ->. unfold _create_filename.
  assert (Hlen : length (String.list_ascii_of_string s) = String.length s).
  { induction s; cbn; congruence. }
  rewrite Hlen. cbn [length String.list_ascii_of_string suffix].
  split.
  - case_decide; [done|]. case_decide; [done|]. case_decide as Hsuf; [|done].
    intros [= <-]. split; [lia|].
    set (cs := String.list_ascii_of_string s) in *.
    exists (String.string_of_list_ascii (take (String.length s - 4) cs)).
    assert (Hcs : cs = take (String.length s - 4) cs ++ ["."; "s"; "p"; w]%char).
    { rewrite <- Hsuf, (take_ge (drop _ _)) by (rewrite length_drop; lia).
      by rewrite take_drop. }
    assert (Hs : s = String.string_of_list_ascii cs).
    { unfold cs. by rewrite String.string_of_list_ascii_of_string. }
    split.
    + rewrite Hs at 1. rewrite Hcs at 1. by rewrite string_of_list_app.
    + rewrite <- Hlen. rewrite Hcs at 1 2. rewrite insert_last_suffix.
      rewrite string_of_list_app. rewrite Hlen. done.
  - intros [Hle (base & Hs & ->)]. rewrite Hs in *.
    rewrite list_ascii_app in *. cbn [String.list_ascii_of_string suffix] in *.
    rewrite <- Hlen in *. rewrite length_app in *. cbn [length] in *.
    rewrite decide_False by lia. rewrite decide_False by lia.
    replace (length (String.list_ascii_of_string base) + 4 - 4)%nat
      with (length (String.list_ascii_of_string base)) by lia.
    rewrite drop_app_length. cbn [take]. rewrite decide_True by done. f_equal.
    replace (length (String.list_ascii_of_string base) + 4 - 1)%nat
      with (length (String.list_ascii_of_string base) + 3)%nat by lia.
    rewrite insert_app_r. rewrite string_of_list_app, String.string_of_list_ascii_of_string. done.
Qed.

Lemma string_app_length (a b : string) :
  String.length (a +:+ b) = (String.length a + String.length b)%nat.
Proof. induction a as [|c a IH]; simpl; [done|]. by rewrite IH. Qed.

(** ** Properties *)

(** The log file name of an index file name that ends in [.spi] is
    the same name with [.spl], and its index file name is the original again. *)
Theorem log_filename_roundtrip s :
  (∃ base, s = (base +:+ ".spi")%string) → Z.of_nat (String.length s) ≤ 10000 →
  ∃ t, sparkey_create_log_filename (Some s) = Some t ∧
       String.length t = String.length s ∧
       sparkey_create_index_filename (Some t) = Some s.
Proof.
  intros [base ->] Hl. exists (base +:+ ".spl")%string.
  rewrite string_app_length in *. cbn [String.length] in *.
  split_and!.
  - apply (create_filename_iff _ _ _ "i" "l" eq_refl).
    split; [rewrite string_app_length; cbn; lia|]. by exists base.
  - by rewrite !string_app_length.
  - apply (create_filename_iff _ _ _ "l" "i" eq_refl).
    split; [rewrite string_app_length; cbn; lia|]. by exists base.
Qed.

Lemma log_filename_roundtrip_witness :
  ∃ t, sparkey_create_log_filename (Some "foo.spi"%string) = Some t ∧
       String.length t = String.length "foo.spi"%string ∧
       sparkey_create_index_filename (Some t) = Some "foo.spi"%string.
Proof.
  apply (log_filename_roundtrip "foo.spi"); [by exists "foo"%string | cbn; lia].
Defined.

(** Distinct return codes have distinct numeric values and distinct messages. *)
Theorem errstring_injective c1 c2 :
  (returncode_value c1 = returncode_value c2 ↔ c1 = c2) ∧
  (sparkey_errstring c1 = sparkey_errstring c2 ↔ c1 = c2).
Proof. split; (split; [|by intros ->]); destruct c1, c2; by vm_compute. Qed.
