(* ===== verification/Endian.v ===== *)
(** * Little endian byte codecs (endiantools.c, the part without files)

    The 32 and 64 bit writers store one byte per assignment; the readers load a
    native word, byte-swapped on big endian platforms.  Both platform variants
    of the readers are given and shown to agree. *)

From stdpp Require Import base gmap list strings numbers.
From Stdlib Require Import ZArith Lia.
From S2P Require Import Prelude.

Local Open Scope Z_scope.

(** ** Definitions *)

(** The value of a byte sequence, least significant byte first. *)
Fixpoint le_value (bs : list Z) : Z :=
  match bs with
  | [] => 0
  | b :: bs' => b + 256 * le_value bs'
  end.

(** The value of a byte sequence, most significant byte first. *)
Definition be_value (bs : list Z) : Z := le_value (rev bs).

(** The low [n] bytes of a value, least significant first. *)
Fixpoint le_bytes (n : nat) (v : Z) : list Z :=
  match n with
  | O => []
  | S n' => v mod 256 :: le_bytes n' (v / 256)
  end.

Definition write_little_endian32 (value : Z) : list Z :=
  [Z.land (Z.shiftr value 0) 0xFF; Z.land (Z.shiftr value 8) 0xFF;
   Z.land (Z.shiftr value 16) 0xFF; Z.land (Z.shiftr value 24) 0xFF].

Definition write_little_endian64 (value : Z) : list Z :=
  [Z.land (Z.shiftr value 0) 0xFF; Z.land (Z.shiftr value 8) 0xFF;
   Z.land (Z.shiftr value 16) 0xFF; Z.land (Z.shiftr value 24) 0xFF;
   Z.land (Z.shiftr value 32) 0xFF; Z.land (Z.shiftr value 40) 0xFF;
   Z.land (Z.shiftr value 48) 0xFF; Z.land (Z.shiftr value 56) 0xFF].

(** The readers on a little endian platform: a plain load of the word. *)
Definition read_little_endian32 (array : list Z) (pos : Z) : option Z :=
  le_value <$> mem_read array pos 4.

Definition read_little_endian64 (array : list Z) (pos : Z) : option Z :=
  le_value <$> mem_read array pos 8.

(** byteswap.h *)
Definition bswap_32 (x : Z) : Z :=
  Z.lor (Z.lor (Z.shiftl (Z.land x 0xFF) 24) (Z.shiftl (Z.land (Z.shiftr x 8) 0xFF) 16))
        (Z.lor (Z.shiftl (Z.land (Z.shiftr x 16) 0xFF) 8) (Z.land (Z.shiftr x 24) 0xFF)).

Definition bswap_64 (x : Z) : Z :=
  Z.lor (Z.shiftl (bswap_32 (Z.land x 0xFFFFFFFF)) 32) (bswap_32 (Z.shiftr x 32)).

(** The readers on a big endian platform: a load in native order, swapped. *)
Definition read_little_endian32_be (array : list Z) (pos : Z) : option Z :=
  (λ bs, bswap_32 (be_value bs)) <$> mem_read array pos 4.

Definition read_little_endian64_be (array : list Z) (pos : Z) : option Z :=
  (λ bs, bswap_64 (be_value bs)) <$> mem_read array pos 8.

(** ** Lemmas *)

Lemma length_le_bytes n v : length (le_bytes n v) = n.
Proof. revert v. induction n; intros; cbn; [done|by rewrite IHn]. Qed.

Lemma le_bytes_ok n v : bytes_ok (le_bytes n v).
Proof.
  revert v. induction n as [|n IH]; intros v; cbn; [by constructor|]. constructor; [|apply IH].
  apply (Z.mod_pos_bound v 256). lia.
Qed.

Lemma le_value_bytes n v : le_value (le_bytes n v) = v mod 256 ^ Z.of_nat n.
Proof.
  revert v. induction n as [|n IH]; intros v; cbn [le_value le_bytes].
  - by rewrite Z.mod_1_r.
  - rewrite IH, Nat2Z.inj_succ, Z.pow_succ_r by lia.
    rewrite Z.rem_mul_r; lia.
Qed.

Lemma le_value_bound bs : bytes_ok bs → 0 ≤ le_value bs < 256 ^ zlen bs.
Proof.
  induction 1 as [|b bs Hb _ IH]; cbn [le_value length]; [done|].
  rewrite Nat2Z.inj_succ, Z.pow_succ_r by lia. unfold byte_ok in Hb. lia.
Qed.

Lemma le_bytes_value bs : bytes_ok bs → le_bytes (length bs) (le_value bs) = bs.
Proof.
  induction 1 as [|b bs Hb _ IH]; cbn [le_value le_bytes length]; [done|].
  unfold byte_ok in Hb. rewrite (Z.mul_comm 256), Z_mod_plus_full, Z.mod_small by lia.
  rewrite Z.div_add, Z.div_small, Z.add_0_l by lia. by rewrite IH.
Qed.

Lemma le_value_app a b : le_value (a ++ b) = le_value a + 256 ^ zlen a * le_value b.
Proof.
  induction a as [|x a IH]; cbn [le_value app length].
  - by rewrite Z.pow_0_r, Z.mul_1_l.
  - rewrite IH, Nat2Z.inj_succ, Z.pow_succ_r by lia. lia.
Qed.

Lemma byte_of_shift v k : 0 ≤ k → Z.land (Z.shiftr v k) 0xFF = (v / 2 ^ k) mod 256.
Proof.
  intros. change 0xFF with (Z.ones 8). rewrite Z.land_ones, Z.shiftr_div_pow2 by lia. done.
Qed.

Lemma write32_le_bytes v : write_little_endian32 v = le_bytes 4 v.
Proof.
  unfold write_little_endian32. rewrite !byte_of_shift by lia. cbn [le_bytes].
  rewrite !Z.div_div by lia. by rewrite Z.div_1_r.
Qed.

Lemma write64_le_bytes v : write_little_endian64 v = le_bytes 8 v.
Proof.
  unfold write_little_endian64. rewrite !byte_of_shift by lia. cbn [le_bytes].
  rewrite !Z.div_div by lia. by rewrite Z.div_1_r.
Qed.

Lemma length_write32 v : length (write_little_endian32 v) = 4%nat.
Proof. done. Qed.

Lemma length_write64 v : length (write_little_endian64 v) = 8%nat.
Proof. done. Qed.

Lemma write32_ok v : bytes_ok (write_little_endian32 v).
Proof. rewrite write32_le_bytes. apply le_bytes_ok. Qed.

Lemma write64_ok v : bytes_ok (write_little_endian64 v).
Proof. rewrite write64_le_bytes. apply le_bytes_ok. Qed.

#[export] Hint Resolve le_bytes_ok write32_ok write64_ok : sparkey.

Lemma le_value_write32 v : le_value (write_little_endian32 v) = u32 v.
Proof. by rewrite write32_le_bytes, le_value_bytes. Qed.

Lemma le_value_write64 v : le_value (write_little_endian64 v) = u64 v.
Proof. by rewrite write64_le_bytes, le_value_bytes. Qed.

(** The stored word depends on the low bits of the value only. *)
Lemma write32_u32 v : write_little_endian32 (u32 v) = write_little_endian32 v.
Proof.
  rewrite <- le_value_write32, !write32_le_bytes.
  rewrite <- (length_le_bytes 4 v) at 1. by apply le_bytes_value, le_bytes_ok.
Qed.

Lemma read32_mid a v c pos :
  pos = zlen a → read_little_endian32 (a ++ write_little_endian32 v ++ c) pos = Some (u32 v).
Proof.
  intros. unfold read_little_endian32.
  rewrite (mem_read_mid a (write_little_endian32 v) c) by done.
  cbn [fmap option_fmap option_map]. by rewrite le_value_write32.
Qed.

Lemma read64_mid a v c pos :
  pos = zlen a → read_little_endian64 (a ++ write_little_endian64 v ++ c) pos = Some (u64 v).
Proof.
  intros. unfold read_little_endian64.
  rewrite (mem_read_mid a (write_little_endian64 v) c) by done.
  cbn [fmap option_fmap option_map]. by rewrite le_value_write64.
Qed.

Lemma bswap_32_sum x :
  bswap_32 x = (x mod 256) * 2 ^ 24 + (x / 2 ^ 8) mod 256 * 2 ^ 16
               + (x / 2 ^ 16) mod 256 * 2 ^ 8 + (x / 2 ^ 24) mod 256.
Proof.
  unfold bswap_32. rewrite <- (Z.shiftr_0_r x) at 1. rewrite !byte_of_shift by lia.
  change (2 ^ 0) with 1. rewrite Z.div_1_r.
  pose proof (Z.mod_pos_bound x 256). pose proof (Z.mod_pos_bound (x / 2 ^ 8) 256).
  pose proof (Z.mod_pos_bound (x / 2 ^ 16) 256). pose proof (Z.mod_pos_bound (x / 2 ^ 24) 256).
  set (b0 := x mod 256) in *. set (b1 := (x / 2 ^ 8) mod 256) in *.
  set (b2 := (x / 2 ^ 16) mod 256) in *. set (b3 := (x / 2 ^ 24) mod 256) in *.
  rewrite (Z.lor_comm (Z.shiftl b2 8)), (lor_shiftl_add b2 b3 8) by lia.
  rewrite (Z.lor_comm (Z.shiftl b0 24)), (lor_shiftl_add b0 (Z.shiftl b1 16) 24)
    by (rewrite ?Z.shiftl_mul_pow2 by lia; lia).
  replace (Z.shiftl b1 16 + b0 * 2 ^ 24) with (Z.shiftl (b1 + b0 * 2 ^ 8) 16)
    by (rewrite !Z.shiftl_mul_pow2; lia).
  rewrite Z.lor_comm, (lor_shiftl_add (b1 + b0 * 2 ^ 8) (b3 + b2 * 2 ^ 8) 16) by lia. lia.
Qed.

(** The last digit and the others of a number in base [m]. *)
Lemma digit_mod m d y : 0 ≤ d < m → (d + m * y) mod m = d.
Proof. intros. rewrite Z.mul_comm, Z_mod_plus_full. by apply Z.mod_small. Qed.

Lemma digit_div m d y : 0 ≤ d < m → (d + m * y) / m = y.
Proof. intros. rewrite Z.mul_comm, Z.div_add, Z.div_small by lia. lia. Qed.

Lemma bswap_32_bytes a b c d :
  byte_ok a → byte_ok b → byte_ok c → byte_ok d →
  bswap_32 (be_value [a; b; c; d]) = le_value [a; b; c; d].
Proof.
  intros Ha Hb Hc Hd. rewrite bswap_32_sum. unfold be_value. cbn [rev app le_value].
  unfold byte_ok in *.
  change (2 ^ 24) with (2 ^ 8 * 2 ^ 8 * 2 ^ 8). change (2 ^ 16) with (2 ^ 8 * 2 ^ 8).
  rewrite <- !Z.div_div by lia. change (2 ^ 8) with 256.
  repeat rewrite digit_div by lia. repeat rewrite digit_mod by lia. lia.
Qed.

Lemma be_value_app a b : be_value (a ++ b) = be_value b + 256 ^ zlen b * be_value a.
Proof. unfold be_value. by rewrite rev_app_distr, le_value_app, length_rev. Qed.

Lemma be_value_bound bs : bytes_ok bs → 0 ≤ be_value bs < 256 ^ zlen bs.
Proof.
  intros H. unfold be_value. rewrite <- length_rev. apply le_value_bound.
  by apply Forall_rev.
Qed.

(** The platform does not change what the readers return: the big endian
    variants give the same value as the little endian ones. *)
Theorem read_endian_platform_independent array pos :
  bytes_ok array →
  read_little_endian32_be array pos = read_little_endian32 array pos ∧
  read_little_endian64_be array pos = read_little_endian64 array pos.
Proof.
  intros Hok.
  unfold read_little_endian32_be, read_little_endian32,
    read_little_endian64_be, read_little_endian64.
  split.
  - destruct (mem_read array pos 4) as [bs|] eqn:E; [|done]. cbn. f_equal.
    pose proof (mem_read_bytes_ok _ _ _ _ E Hok) as Hbs.
    apply mem_read_length in E.
    destruct bs as [|a [|b [|c [|d [|]]]]]; cbn in E; try lia.
    rewrite !bytes_ok_cons in Hbs. destruct Hbs as (?&?&?&?&?). by apply bswap_32_bytes.
  - destruct (mem_read array pos 8) as [bs|] eqn:E; [|done]. cbn. f_equal.
    pose proof (mem_read_bytes_ok _ _ _ _ E Hok) as Hbs.
    apply mem_read_length in E.
    destruct bs as [|a [|b [|c [|d [|e [|f [|g [|h [|]]]]]]]]]; cbn in E; try lia.
    rewrite !bytes_ok_cons in Hbs. destruct Hbs as (?&?&?&?&?&?&?&?&?).
    change [a; b; c; d; e; f; g; h] with ([a; b; c; d] ++ [e; f; g; h]).
    assert (Hlo : 0 ≤ be_value [e; f; g; h] < 256 ^ zlen [e; f; g; h])
      by (apply be_value_bound; rewrite !bytes_ok_cons; unfold bytes_ok; auto).
    rewrite be_value_app, le_value_app. cbn [length] in *.
    set (lo := be_value [e; f; g; h]) in *.
    set (hi := be_value [a; b; c; d]).
    unfold bswap_64. change 0xFFFFFFFF with (Z.ones 32).
    rewrite Z.land_ones, Z.shiftr_div_pow2 by lia.
    change (256 ^ Z.of_nat 4) with (2 ^ 32) in *. rewrite digit_mod, digit_div by lia.
    subst lo hi. rewrite (bswap_32_bytes a b c d), (bswap_32_bytes e f g h) by done.
    assert (Hhi : 0 ≤ le_value [a; b; c; d] < 256 ^ zlen [a; b; c; d])
      by (apply le_value_bound; rewrite !bytes_ok_cons; unfold bytes_ok; auto).
    rewrite Z.lor_comm, lor_shiftl_add by (cbn [length] in Hhi; lia). lia.
Qed.

Lemma read_endian_platform_independent_witness :
  read_little_endian32_be [1; 2; 3; 4; 5; 6; 7; 8] 1 = Some 0x05040302 ∧
  read_little_endian64_be [1; 2; 3; 4; 5; 6; 7; 8] 0 = Some 0x0807060504030201.
Proof.
  assert (bytes_ok [1; 2; 3; 4; 5; 6; 7; 8]) as H
    by (repeat constructor; unfold byte_ok; lia).
  split.
  - rewrite (proj1 (read_endian_platform_independent _ 1 H)). by vm_compute.
  - rewrite (proj2 (read_endian_platform_independent _ 0 H)). by vm_compute.
Defined.
