(* ===== verification/OS.v ===== *)
(** * The operating system as the library uses it, and the file helpers

    A small POSIX model: inodes, a directory, open file descriptors with their
    offsets, and a schedule that decides, call by call, whether the environment
    lets a system call succeed, fail with an errno, or transfer fewer bytes.
    The library's own helpers follow: write_full, fwrite_little_endian32/64,
    fread_little_endian32/64 (endiantools.c), rand32 (util.h) and read_fully
    (hashwriter.c). *)

From stdpp Require Import base gmap list strings numbers.
From Stdlib Require Import ZArith Lia.
From S2P Require Import Prelude ReturnCodes Endian.

Local Open Scope Z_scope.

(** ** The environment *)

(** What the environment does with one system call. *)
Inductive outcome : Set :=
| Normal
| Fails (e : errno)
| Short (n : Z).

Record os : Type := OS {
  os_inodes : gmap nat (list Z);      (* contents of every inode *)
  os_names : gmap string nat;         (* the directory *)
  os_fds : gmap Z (nat * Z);          (* open descriptors: inode and offset *)
  os_next_inode : nat;
  os_next_fd : Z;
  os_sched : list outcome;            (* [] is a cooperative environment *)
  os_entropy : list Z                 (* what /dev/urandom will return *)
}.

Definition set_inodes (f : gmap nat (list Z)) (o : os) : os :=
  OS f (os_names o) (os_fds o) (os_next_inode o) (os_next_fd o) (os_sched o) (os_entropy o).
Definition set_names (f : gmap string nat) (o : os) : os :=
  OS (os_inodes o) f (os_fds o) (os_next_inode o) (os_next_fd o) (os_sched o) (os_entropy o).
Definition set_fds (f : gmap Z (nat * Z)) (o : os) : os :=
  OS (os_inodes o) (os_names o) f (os_next_inode o) (os_next_fd o) (os_sched o) (os_entropy o).
Definition set_sched (f : list outcome) (o : os) : os :=
  OS (os_inodes o) (os_names o) (os_fds o) (os_next_inode o) (os_next_fd o) f (os_entropy o).
Definition set_entropy (f : list Z) (o : os) : os :=
  OS (os_inodes o) (os_names o) (os_fds o) (os_next_inode o) (os_next_fd o) (os_sched o) f.

(** The next decision of the environment. *)
Definition pop (o : os) : outcome * os :=
  match os_sched o with
  | [] => (Normal, o)
  | e :: r => (e, set_sched r o)
  end.

(** A fresh descriptor on an inode, at offset 0. *)
Definition new_fd (ino : nat) (o : os) : Z * os :=
  (os_next_fd o,
   OS (os_inodes o) (os_names o) (<[os_next_fd o := (ino, 0)]> (os_fds o))
      (os_next_inode o) (os_next_fd o + 1) (os_sched o) (os_entropy o)).

(** [open(name, O_RDONLY)], [open(name, O_WRONLY)] and [fopen(name, "r")]. *)
Definition sys_open (name : string) : MC os (errno + Z) := λ o,
  match pop o with
  | (Fails e, o) => (Ok (inl e), o)
  | (_, o) =>
      match os_names o !! name with
      | None => (Ok (inl ENOENT), o)
      | Some ino => let '(fd, o) := new_fd ino o in (Ok (inr fd), o)
      end
  end.

(** [open(name, O_WRONLY | O_TRUNC | O_CREAT)] and [creat(name)]. *)
Definition sys_create (name : string) : MC os (errno + Z) := λ o,
  match pop o with
  | (Fails e, o) => (Ok (inl e), o)
  | (_, o) =>
      match os_names o !! name with
      | Some ino =>
          let '(fd, o) := new_fd ino (set_inodes (<[ino := []]> (os_inodes o)) o) in
          (Ok (inr fd), o)
      | None =>
          let ino := os_next_inode o in
          let o := OS (<[ino := []]> (os_inodes o)) (<[name := ino]> (os_names o)) (os_fds o)
                      (S ino) (os_next_fd o) (os_sched o) (os_entropy o) in
          let '(fd, o) := new_fd ino o in (Ok (inr fd), o)
      end
  end.

(** [remove(name)]: the name goes away, the inode stays for those who have it open. *)
Definition sys_remove (name : string) : MC os (errno + unit) := λ o,
  match pop o with
  | (Fails e, o) => (Ok (inl e), o)
  | (_, o) =>
      match os_names o !! name with
      | None => (Ok (inl ENOENT), o)
      | Some _ => (Ok (inr tt), set_names (delete name (os_names o)) o)
      end
  end.

Definition sys_close (fd : Z) : MC os (errno + unit) := λ o,
  match os_fds o !! fd with
  | None => (Ok (inl EBADF), o)
  | Some _ => (Ok (inr tt), set_fds (delete fd (os_fds o)) o)
  end.

(** [lseek(fd, off, SEEK_SET)] and [lseek(fd, 0, SEEK_CUR)]; -1 for a bad descriptor. *)
Definition sys_lseek_set (fd off : Z) : MC os Z := λ o,
  match os_fds o !! fd with
  | None => (Ok (-1), o)
  | Some (ino, _) => (Ok off, set_fds (<[fd := (ino, off)]> (os_fds o)) o)
  end.

Definition sys_lseek_cur (fd : Z) : MC os Z := λ o,
  match os_fds o !! fd with
  | None => (Ok (-1), o)
  | Some (_, off) => (Ok off, o)
  end.

(** File contents after writing [bs] at offset [off]; a hole reads as zeros. *)
Definition splice (content : list Z) (off : Z) (bs : list Z) : list Z :=
  let n := Z.to_nat off in
  match bs with
  | [] => content
  | _ => take n (content ++ replicate (n - length content) 0) ++ bs ++ drop (n + length bs) content
  end.

Definition put_bytes (fd : Z) (ino : nat) (off : Z) (bs : list Z) (o : os) : os :=
  let content := default [] (os_inodes o !! ino) in
  set_fds (<[fd := (ino, off + zlen bs)]> (os_fds o))
    (set_inodes (<[ino := splice content off bs]> (os_inodes o)) o).

(** [write(fd, buf, count)]: an errno, or the number of bytes written. *)
Definition sys_write (fd : Z) (bs : list Z) : MC os (errno + Z) := λ o,
  match os_fds o !! fd with
  | None => (Ok (inl EBADF), o)
  | Some (ino, off) =>
      match pop o with
      | (Fails e, o) => (Ok (inl e), o)
      | (Short n, o) =>
          let w := take (Z.to_nat n) bs in (Ok (inr (zlen w)), put_bytes fd ino off w o)
      | (Normal, o) => (Ok (inr (zlen bs)), put_bytes fd ino off bs o)
      end
  end.

(** [read(fd, buf, count)]: an errno, or the bytes read. *)
Definition sys_read (fd count : Z) : MC os (errno + list Z) := λ o,
  match os_fds o !! fd with
  | None => (Ok (inl EBADF), o)
  | Some (ino, off) =>
      let content := default [] (os_inodes o !! ino) in
      let avail := take (Z.to_nat count) (drop (Z.to_nat off) content) in
      let deliver bs o := (Ok (inr bs), set_fds (<[fd := (ino, off + zlen bs)]> (os_fds o)) o) in
      match pop o with
      | (Fails e, o) => (Ok (inl e), o)
      | (Short n, o) => deliver (take (Z.to_nat n) avail) o
      | (Normal, o) => deliver avail o
      end
  end.

(** [stat(name).st_size]; the code ignores the result, so a missing file leaves
    the size uninitialised. *)
Definition sys_stat_size (name : string) : MC os (option Z) := λ o,
  (Ok (match os_names o !! name with
       | None => None
       | Some ino => Some (zlen (default [] (os_inodes o !! ino)))
       end), o).

(** [mmap(NULL, len, PROT_READ, MAP_SHARED, fd, 0)]: MAP_FAILED is [None]. *)
Definition sys_mmap (fd len : Z) : MC os (option (list Z)) := λ o,
  match pop o with
  | (Fails _, o) => (Ok None, o)
  | (_, o) =>
      match os_fds o !! fd with
      | None => (Ok None, o)
      | Some (ino, _) => (Ok (Some (take (Z.to_nat len) (default [] (os_inodes o !! ino)))), o)
      end
  end.

(** [malloc]: false is NULL. *)
Definition sys_malloc : MC os bool := λ o,
  match pop o with
  | (Fails _, o) => (Ok false, o)
  | (_, o) => (Ok true, o)
  end.

(** ** The library's file helpers *)

(** The write loop; every iteration but the last uses up one decision of the
    schedule, so its length bounds the iterations. *)
Fixpoint _write_full_loop (fuel : nat) (fd : Z) (buf : list Z) : MC os unit :=
  match fuel with
  | O => out_of_fuel
  | S fuel =>
      if decide (0 < zlen buf) then
        actual ← sys_write fd buf;
        match actual with
        | inl EINTR | inl EAGAIN => _write_full_loop fuel fd buf
        | inl ENOSPC => fail SPARKEY_OUT_OF_DISK
        | inl EFBIG => fail SPARKEY_FILE_SIZE_EXCEEDED
        | inl EBADF => fail SPARKEY_FILE_CLOSED
        | inl _ => fail SPARKEY_INTERNAL_ERROR
        | inr n => _write_full_loop fuel fd (drop (Z.to_nat n) buf)
        end
      else mret tt
  end.

Definition _write_full (fd : Z) (buf : list Z) : MC os unit := λ o,
  _write_full_loop (S (S (length (os_sched o)))) fd buf o.

Definition block_size : Z := 256 * 1024 * 1024.

Fixpoint write_full_blocks (fullruns : nat) (fd : Z) (buf : list Z) : MC os unit :=
  match fullruns with
  | O => _write_full fd (take (Z.to_nat (zlen buf mod block_size)) buf)
  | S fullruns =>
      _ ← _write_full fd (take (Z.to_nat block_size) buf);
      write_full_blocks fullruns fd (drop (Z.to_nat block_size) buf)
  end.

Definition write_full (fd : Z) (buf : list Z) : MC os unit :=
  write_full_blocks (Z.to_nat (zlen buf / block_size)) fd buf.

Definition fwrite_little_endian32 (fd value : Z) : MC os unit :=
  write_full fd (write_little_endian32 value).

Definition fwrite_little_endian64 (fd value : Z) : MC os unit :=
  write_full fd (write_little_endian64 value).

(** [fread(data, n, 1, fp)] returns 1 when all [n] bytes were there. *)
Definition fread (n fp : Z) : MC os (option (list Z)) :=
  r ← sys_read fp n;
  match r with
  | inr bs => if decide (zlen bs = n) then mret (Some bs) else mret None
  | inl _ => mret None
  end.

Definition fread_little_endian32 (fp : Z) : MC os Z :=
  data ← fread 4 fp;
  match data with
  | None => fail SPARKEY_UNEXPECTED_EOF
  | Some data => of_opt (read_little_endian32 data 0)
  end.

Definition fread_little_endian64 (fp : Z) : MC os Z :=
  data ← fread 8 fp;
  match data with
  | None => fail SPARKEY_UNEXPECTED_EOF
  | Some data => of_opt (read_little_endian64 data 0)
  end.

(** [fclose(fp); return x;] *)
Definition closing {A} (fp : Z) (m : MC os A) : MC os A := λ o,
  let '(x, o) := m o in let '(_, o) := sys_close fp o in (x, o).

(** [correct_endian_platform] always succeeds. *)
Definition correct_endian_platform : returncode := SPARKEY_SUCCESS.

(** A seed from /dev/urandom. *)
Definition rand32 : MC os Z := λ o,
  match pop o with
  | (Fails _, o) => (Err SPARKEY_INTERNAL_ERROR, o)
  | (_, o) =>
      let deliver bs o :=
        let o := set_entropy (drop (length bs) (os_entropy o)) o in
        if decide (zlen bs < 4) then (Err SPARKEY_INTERNAL_ERROR, o)
        else (Ok (le_value bs), o) in
      match pop o with
      | (Fails _, o) => (Err SPARKEY_INTERNAL_ERROR, o)
      | (Short n, o) => deliver (take (Z.to_nat n) (take 4 (os_entropy o))) o
      | (Normal, o) => deliver (take 4 (os_entropy o)) o
      end
  end.

(** [read_fully]: the buffer is not advanced between reads, each read starts at
    its beginning again; a read of 0 bytes (end of file) repeats for ever. *)
Fixpoint read_fully (fuel : nat) (fd : Z) (buf : list Z) (count : Z) : MC os (list Z) :=
  match fuel with
  | O => out_of_fuel
  | S fuel =>
      if decide (0 < count) then
        r ← sys_read fd count;
        match r with
        | inl _ => fail SPARKEY_INTERNAL_ERROR
        | inr bs =>
            buf ← of_opt (mem_write buf 0 bs);
            read_fully fuel fd buf (count - zlen bs)
        end
      else mret buf
  end.

(** ** Lemmas on writing *)

Definition fd_open (o : os) (fd : Z) (ino : nat) (off : Z) : Prop :=
  os_fds o !! fd = Some (ino, off) ∧ is_Some (os_inodes o !! ino) ∧ 0 ≤ off.

Lemma splice_app c off a b :
  0 ≤ off → splice (splice c off a) (off + zlen a) b = splice c off (a ++ b).
Proof.
  intros Hoff. destruct a as [|x a]; [cbn; by rewrite Z.add_0_r|].
  destruct b as [|y b]; [by rewrite app_nil_r|].
  unfold splice. rewrite <- app_comm_cons. rewrite Z2Nat.inj_add, Nat2Z.id by lia.
  set (n := Z.to_nat off). set (c1 := c ++ replicate (n - length c) 0).
  assert (Hn : (n ≤ length c1)%nat) by (unfold c1; rewrite length_app, length_replicate; lia).
  rewrite app_comm_cons, <- (app_assoc (x :: a)).
  set (xa := x :: a) in *. set (yb := y :: b).
  assert (Hlen : length (take n c1) = n) by (rewrite length_take; lia).
  set (pre := take n c1) in *.
  replace (n + length xa - length (pre ++ xa ++ drop (n + length xa) c))%nat with 0%nat
    by (rewrite !length_app, length_drop; lia).
  cbn [replicate]. rewrite app_nil_r.
  rewrite (app_assoc pre), take_app_length' by (rewrite length_app; lia).
  rewrite <- !app_assoc. f_equal. f_equal. f_equal.
  rewrite !length_app. rewrite (app_assoc pre), drop_app_ge by (rewrite length_app; lia).
  rewrite length_app, drop_drop. f_equal. lia.
Qed.

Lemma put_bytes_app fd ino off a b o :
  0 ≤ off →
  put_bytes fd ino (off + zlen a) b (put_bytes fd ino off a o) = put_bytes fd ino off (a ++ b) o.
Proof.
  intros Hoff. unfold put_bytes, set_fds, set_inodes. cbn [os_fds os_inodes os_names
    os_next_inode os_next_fd os_sched os_entropy].
  rewrite !insert_insert_eq, lookup_insert_eq. cbn [from_option id].
  rewrite splice_app by done. rewrite length_app. do 2 f_equal. f_equal. lia.
Qed.

Lemma put_bytes_nil fd ino off o : fd_open o fd ino off → put_bytes fd ino off [] o = o.
Proof.
  intros (Hfd & [c Hc] & _). destruct o. unfold put_bytes, set_fds, set_inodes. cbn in *.
  rewrite Hc. cbn. rewrite Z.add_0_r. by rewrite !insert_id.
Qed.

Lemma put_bytes_open fd ino off bs o :
  fd_open o fd ino off → fd_open (put_bytes fd ino off bs o) fd ino (off + zlen bs).
Proof.
  intros (Hfd & [c Hc] & ?). split; [|split]; cbn; [apply lookup_insert_eq| |lia].
  rewrite lookup_insert_eq. by eexists.
Qed.

Lemma set_sched_open s o fd ino off : fd_open o fd ino off → fd_open (set_sched s o) fd ino off.
Proof. done. Qed.

Lemma set_sched_same o : set_sched (os_sched o) o = o.
Proof. by destruct o. Qed.

(** The codes a failed write can be reported with. *)
Definition write_error (e : returncode) : Prop :=
  e ∈ [SPARKEY_OUT_OF_DISK; SPARKEY_FILE_SIZE_EXCEEDED; SPARKEY_FILE_CLOSED;
       SPARKEY_INTERNAL_ERROR].

(** An errno that makes a write give up: anything but EINTR and EAGAIN. *)
Definition fatal (e : outcome) : Prop :=
  match e with
  | Fails EINTR | Fails EAGAIN => False
  | Fails _ => True
  | _ => False
  end.

(** Outcome of writing [buf]: everything, or a prefix of it and an error. *)
Definition wrote (fd : Z) (ino : nat) (off : Z) (buf : list Z) (o : os)
    (r : res returncode unit) (o' : os) : Prop :=
  ∃ n s, suffix s (os_sched o) ∧
    o' = set_sched s (put_bytes fd ino off (take n buf) o) ∧
    ((r = Ok tt ∧ take n buf = buf) ∨ ∃ e, r = Err e ∧ write_error e ∧ Exists fatal (os_sched o)).

Lemma _write_full_loop_spec fuel fd ino off buf o :
  fd_open o fd ino off →
  (S (length (os_sched o)) < fuel)%nat →
  let '(r, o') := _write_full_loop fuel fd buf o in wrote fd ino off buf o r o'.
Proof.
  revert off buf o. induction fuel as [|fuel IH]; intros off buf o Hopen Hfuel; [lia|].
  cbn [_write_full_loop]. case_decide as Hpos.
  2:{ destruct buf; [|cbn in Hpos; lia]. exists 0%nat, (os_sched o).
      cbn [take]. rewrite put_bytes_nil, set_sched_same by done. by eauto. }
  unfold mbind, M_bind. unfold sys_write. destruct Hopen as (Hfd & Hino & Hoff). rewrite Hfd.
  assert (Hopen : fd_open o fd ino off) by done.
  unfold pop. destruct (os_sched o) as [|e sch] eqn:Hs.
  - (* cooperative: one write of everything, then the loop ends *)
    destruct fuel as [|fuel]; [cbn in Hfuel; lia|].
    rewrite Nat2Z.id, drop_ge by lia. cbn.
    exists (length buf), []. rewrite take_ge by lia. split; [apply suffix_nil|].
    split; [by destruct o; cbn in *; subst|]. by left.
  - assert (Hrest : ∀ n, let '(r, o') := _write_full_loop fuel fd (drop n buf)
              (set_sched sch (put_bytes fd ino off (take n buf) o)) in
              wrote fd ino off buf o r o').
    { intros n.
      specialize (IH (off + zlen (take n buf)) (drop n buf)
        (set_sched sch (put_bytes fd ino off (take n buf) o))).
      destruct (_write_full_loop fuel fd (drop n buf) _) as [r o'].
      destruct IH as (m & s & Hsuf & -> & Hr).
      { apply set_sched_open. by apply put_bytes_open. }
      { cbn in *. lia. }
      exists (n + m)%nat, s. rewrite <- take_take_drop. split_and!.
      - rewrite Hs. by apply suffix_cons_r.
      - rewrite <- put_bytes_app by lia. done.
      - destruct Hr as [[-> Hm]|(c & -> & ? & ?)]; [left|right].
        + split; [done|]. by rewrite Hm, take_drop.
        + exists c. rewrite Hs. split_and!; [done..|]. by apply Exists_cons_tl. }
    destruct e as [|e|n].
    + specialize (Hrest (length buf)). rewrite take_ge in Hrest by lia.
      rewrite Nat2Z.id. done.
    + assert (Herr : ∀ c, write_error c → fatal (Fails e) →
        wrote fd ino off buf o (Err c) (set_sched sch o)).
      { intros c Hc Hfatal. exists 0%nat, sch. cbn [take]. rewrite put_bytes_nil by done.
        split; [rewrite Hs; by apply suffix_cons_r|]. split; [done|]. right. exists c.
        rewrite Hs. split_and!; [done..|]. by apply Exists_cons_hd. }
      specialize (Hrest 0%nat). cbn [take] in Hrest. rewrite put_bytes_nil, drop_0 in Hrest by done.
      destruct e; try exact Hrest; cbn; apply Herr; unfold write_error; (done || set_solver).
    + specialize (Hrest (Z.to_nat n)).
      replace (drop (Z.to_nat (zlen (take (Z.to_nat n) buf))) buf) with (drop (Z.to_nat n) buf);
        [done|].
      rewrite Nat2Z.id, length_take.
      destruct (decide (Z.to_nat n ≤ length buf)%nat); [by rewrite Nat.min_l by lia|].
      rewrite Nat.min_r by lia. by rewrite !drop_ge by lia.
Qed.

Lemma _write_full_spec fd ino off buf o :
  fd_open o fd ino off →
  let '(r, o') := _write_full fd buf o in wrote fd ino off buf o r o'.
Proof. intros. unfold _write_full. apply _write_full_loop_spec; [done|lia]. Qed.

(** Two writes one after the other are a write of both pieces. *)
Lemma wrote_app fd ino off a b o o1 r2 o2 :
  0 ≤ off →
  wrote fd ino off a o (Ok tt) o1 →
  wrote fd ino (off + zlen a) b o1 r2 o2 →
  wrote fd ino off (a ++ b) o r2 o2.
Proof.
  intros Hoff (n & s & Hs & -> & Hr) (m & s2 & Hs2 & -> & Hr2).
  destruct Hr as [[_ Ha]|(? & ? & _)]; [|done]. rewrite Ha in *.
  cbn [os_sched set_sched] in Hs2.
  exists (length a + m)%nat, s2.
  replace (take (length a + m) (a ++ b)) with (a ++ take m b) by (by rewrite take_app_add).
  split; [by etrans|]. split; [by rewrite <- put_bytes_app by lia|].
  destruct Hr2 as [[-> ->]|(e & -> & ? & Hex)]; [by left|right]. exists e.
  split_and!; [done..|]. destruct Hs as [pre ->]. apply Exists_app. by right.
Qed.

Lemma wrote_err_app fd ino off a b o e o1 :
  wrote fd ino off a o (Err e) o1 → wrote fd ino off (a ++ b) o (Err e) o1.
Proof.
  intros (n & s & Hs & -> & Hr). destruct Hr as [[? _]|Hr]; [done|].
  exists (n `min` length a)%nat, s. split; [done|]. split; [|by right].
  rewrite take_app_le by lia. by rewrite <- take_take, (take_ge a (length a)) by lia.
Qed.

Lemma wrote_open fd ino off a o r o1 :
  fd_open o fd ino off → wrote fd ino off a o r o1 →
  r = Ok tt → fd_open o1 fd ino (off + zlen a).
Proof.
  intros Hopen (n & s & Hs & -> & Hr) ->. destruct Hr as [[_ Ha]|(? & ? & _)]; [|done].
  rewrite Ha. by apply set_sched_open, put_bytes_open.
Qed.

Lemma write_full_blocks_spec k fd ino off buf o :
  fd_open o fd ino off → zlen buf / block_size = Z.of_nat k →
  let '(r, o') := write_full_blocks k fd buf o in wrote fd ino off buf o r o'.
Proof.
  assert (Hb : block_size = 2 ^ 28) by done.
  revert off buf o. induction k as [|k IH]; intros off buf o Hopen Hk; cbn [write_full_blocks].
  - assert (take (Z.to_nat (zlen buf mod block_size)) buf = buf) as ->.
    { apply take_ge. apply Z.div_small_iff in Hk; [|lia]. rewrite Z.mod_small; lia. }
    by apply _write_full_spec.
  - pose proof (_write_full_spec fd ino off (take (Z.to_nat block_size) buf) o Hopen) as Hw.
    assert (block_size ≤ zlen buf) by (apply Z.nlt_ge; intros ?; rewrite Z.div_small in Hk; lia).
    assert (Hlen : zlen (take (Z.to_nat block_size) buf) = block_size)
      by (rewrite length_take; lia).
    unfold mbind, M_bind.
    destruct (_write_full fd (take (Z.to_nat block_size) buf) o) as [r o1].
    assert (Hr : (r = Ok tt) ∨ ∃ e, r = Err e).
    { destruct Hw as (n & s & _ & _ & [[-> _]|(e & -> & _)]); [by left|right; by exists e]. }
    destruct Hr as [->|[e ->]].
    + pose proof (wrote_open _ _ _ _ _ _ _ Hopen Hw eq_refl) as Hopen1.
      specialize (IH (off + block_size) (drop (Z.to_nat block_size) buf) o1).
      rewrite Hlen in Hopen1.
      destruct (write_full_blocks k fd (drop (Z.to_nat block_size) buf) o1) as [r2 o2].
      rewrite <- (take_drop (Z.to_nat block_size) buf) at 1.
      destruct Hopen as (? & ? & ?).
      eapply wrote_app; [lia|done|]. rewrite Hlen. apply IH; [done|].
      rewrite length_drop. replace (Z.of_nat (length buf - Z.to_nat block_size))
        with (zlen buf + (-1) * block_size) by lia.
      rewrite Z.div_add by lia. lia.
    + rewrite <- (take_drop (Z.to_nat block_size) buf) at 1. by apply wrote_err_app.
Qed.

Lemma write_full_wrote fd ino off buf o :
  fd_open o fd ino off →
  let '(r, o') := write_full fd buf o in wrote fd ino off buf o r o'.
Proof.
  intros. unfold write_full. apply write_full_blocks_spec; [done|].
  assert (0 ≤ zlen buf / block_size) by (apply Z.div_pos; [lia|done]). lia.
Qed.

(** A computation whose effect is to write [bs] at the current offset. *)
Definition writes (fd : Z) (m : MC os unit) (bs : list Z) : Prop :=
  ∀ o ino off, fd_open o fd ino off → let '(r, o') := m o in wrote fd ino off bs o r o'.

Lemma writes_bind fd (m : MC os unit) (k : unit → MC os unit) a b :
  writes fd m a → writes fd (k tt) b → writes fd (m ≫= k) (a ++ b).
Proof.
  intros Hm Hk o ino off Hopen. specialize (Hm o ino off Hopen).
  unfold mbind, M_bind. destruct (m o) as [r o1].
  assert (Hr : r = Ok tt ∨ ∃ e, r = Err e).
  { destruct Hm as (? & ? & _ & _ & [[-> _]|(e & -> & _)]); [by left|right; by exists e]. }
  destruct Hr as [->|[e ->]]; [|by apply wrote_err_app].
  pose proof (wrote_open _ _ _ _ _ _ _ Hopen Hm eq_refl) as Hopen1.
  specialize (Hk o1 ino _ Hopen1). destruct (k tt o1) as [r2 o2].
  destruct Hopen as (_ & _ & ?). by eapply wrote_app.
Qed.

Lemma writes_ret fd : writes fd (mret tt) [].
Proof.
  intros o ino off Hopen. exists 0%nat, (os_sched o). cbn [take].
  rewrite put_bytes_nil, set_sched_same by done. eauto.
Qed.

Lemma writes_full fd bs : writes fd (write_full fd bs) bs.
Proof. intros o ino off. apply write_full_wrote. Qed.

Lemma writes_le32 fd v : writes fd (fwrite_little_endian32 fd v) (write_little_endian32 v).
Proof. apply writes_full. Qed.

Lemma writes_le64 fd v : writes fd (fwrite_little_endian64 fd v) (write_little_endian64 v).
Proof. apply writes_full. Qed.

#[export] Hint Resolve writes_ret writes_full writes_le32 writes_le64 : sparkey.

(** Follow a sequence of writes. *)
Ltac solve_writes :=
  lazymatch goal with
  | |- writes _ (_ ≫= _) (_ ++ _) => apply writes_bind; solve_writes
  | |- _ => eauto with sparkey
  end.

(** With a cooperative environment a write succeeds and puts the bytes. *)
Lemma writes_ok fd m bs o ino off :
  writes fd m bs → fd_open o fd ino off → os_sched o = [] →
  m o = (Ok tt, put_bytes fd ino off bs o).
Proof.
  intros Hm Hopen Hs. specialize (Hm o ino off Hopen). rename Hm into Hw.
  destruct (m o) as [r o'].
  destruct Hw as (n & s & Hsuf & -> & Hr). rewrite Hs in Hsuf, Hr.
  apply suffix_nil_inv in Hsuf as ->.
  destruct Hr as [[-> ->]|(e & -> & ? & Hex)]; [|by apply Exists_nil in Hex].
  f_equal. rewrite <- Hs. by destruct o.
Qed.

(** ** Lemmas on reading *)

(** The descriptor [fd] moved to offset [off] of inode [ino]. *)
Definition at_off (fd : Z) (ino : nat) (off : Z) (o : os) : os :=
  set_fds (<[fd := (ino, off)]> (os_fds o)) o.

Lemma at_off_at_off fd ino off off' o : at_off fd ino off' (at_off fd ino off o) = at_off fd ino off' o.
Proof. unfold at_off, set_fds. cbn. by rewrite insert_insert_eq. Qed.

Lemma at_off_open fd ino off o c :
  os_inodes o !! ino = Some c → 0 ≤ off → fd_open (at_off fd ino off o) fd ino off.
Proof. intros Hc Hoff. split; [apply lookup_insert_eq|]. split; [by eexists|done]. Qed.

(** A descriptor on a file whose content is [c], in a cooperative environment. *)
Definition readable (o : os) (ino : nat) (c : list Z) : Prop :=
  os_inodes o !! ino = Some c ∧ os_sched o = [].

(** A computation that consumes the bytes [bs] and gives the result [r]. *)
Definition parses {A} (fd : Z) (m : MC os A) (bs : list Z) (r : res returncode A) : Prop :=
  ∀ o ino off c, readable o ino c → 0 ≤ off → bs `prefix_of` drop (Z.to_nat off) c →
    m (at_off fd ino off o) = (r, at_off fd ino (off + zlen bs) o).

(** A computation that consumes [n] bytes when it succeeds. *)
Definition consumes {A} (fd : Z) (m : MC os A) (n : Z) : Prop :=
  ∀ o ino off c a o', readable o ino c → 0 ≤ off →
    m (at_off fd ino off o) = (Ok a, o') → o' = at_off fd ino (off + n) o ∧ (0 < n → off + n ≤ zlen c).

(** A read in a cooperative environment delivers what the file has there. *)
Lemma fread_step fd ino off c n o :
  os_inodes o !! ino = Some c → os_sched o = [] → 0 ≤ off → 0 ≤ n →
  fread n fd (at_off fd ino off o) =
    if decide (off + n ≤ zlen c) then
      (Ok (Some (take (Z.to_nat n) (drop (Z.to_nat off) c))), at_off fd ino (off + n) o)
    else (Ok (if decide (n = 0) then Some [] else None),
          at_off fd ino (off + zlen (take (Z.to_nat n) (drop (Z.to_nat off) c))) o).
Proof.
  intros Hc Hs Hoff Hn. unfold fread, mbind, M_bind, sys_read. unfold at_off at 1.
  cbn [os_fds set_fds]. rewrite lookup_insert_eq. unfold pop.
  cbn [os_sched at_off set_fds os_inodes]. rewrite Hs, Hc. cbn [from_option id].
  set (bs := take _ _). cbn. rewrite insert_insert_eq.
  assert (Hbs : zlen bs = Z.min n (Z.max 0 (zlen c - off)))
    by (unfold bs; rewrite length_take, length_drop; lia).
  destruct (decide (off + n ≤ zlen c)).
  - rewrite decide_True by lia. cbn. do 2 f_equal. unfold at_off, set_fds. cbn.
    by replace (off + zlen bs) with (off + n) by lia.
  - destruct (decide (n = 0)) as [->|].
    + rewrite decide_True by lia. cbn.
      assert (bs = []) as -> by done. done.
    + rewrite decide_False by lia. done.
Qed.

Lemma prefix_take {A} (a l : list A) : a `prefix_of` l → take (length a) l = a.
Proof. intros [k ->]. by rewrite take_app_length. Qed.

Lemma prefix_drop_len {A} (a c : list A) n :
  a `prefix_of` drop n c → (length a + n ≤ length c ∨ a = [])%nat.
Proof.
  intros Hp. apply prefix_length in Hp. rewrite length_drop in Hp.
  destruct a; [by right|left]. cbn in *. lia.
Qed.

Lemma parses_le32 fd bs :
  length bs = 4%nat → parses fd (fread_little_endian32 fd) bs (Ok (le_value bs)).
Proof.
  intros Hl o ino off c [Hc Hs] Hoff Hp. unfold fread_little_endian32.
  pose proof (prefix_drop_len _ _ _ Hp) as [Hlen| ->]; [|done].
  erewrite bind_Ok; [|rewrite (fread_step _ _ _ c) by (done || lia); by rewrite decide_True by lia].
  cbn beta iota. change (Z.to_nat 4) with 4%nat. rewrite <- Hl, prefix_take by done.
  unfold read_little_endian32. rewrite (mem_read_some bs) by lia.
  rewrite drop_0, take_ge by lia. by rewrite Hl.
Qed.

Lemma parses_le64 fd bs :
  length bs = 8%nat → parses fd (fread_little_endian64 fd) bs (Ok (le_value bs)).
Proof.
  intros Hl o ino off c [Hc Hs] Hoff Hp. unfold fread_little_endian64.
  pose proof (prefix_drop_len _ _ _ Hp) as [Hlen| ->]; [|done].
  erewrite bind_Ok; [|rewrite (fread_step _ _ _ c) by (done || lia); by rewrite decide_True by lia].
  cbn beta iota. change (Z.to_nat 8) with 8%nat. rewrite <- Hl, prefix_take by done.
  unfold read_little_endian64. rewrite (mem_read_some bs) by lia.
  rewrite drop_0, take_ge by lia. by rewrite Hl.
Qed.

Lemma parses_bind {A B} fd (m : MC os A) (k : A → MC os B) x y a r :
  parses fd m x (Ok a) → parses fd (k a) y r → parses fd (m ≫= k) (x ++ y) r.
Proof.
  intros Hm Hk o ino off c Hr Hoff Hp.
  erewrite bind_Ok; [|apply (Hm o ino off c); [done..|]].
  - rewrite (Hk o ino (off + zlen x) c); [|done|lia|].
    + do 2 f_equal. rewrite length_app. lia.
    + destruct Hp as [l Hl]. exists l.
      rewrite Z2Nat.inj_add, Nat2Z.id, <- drop_drop, Hl by lia.
      by rewrite <- app_assoc, drop_app_length.
  - etrans; [|done]. by exists y.
Qed.

Lemma parses_ret {A} fd (a : A) : parses fd (mret a) [] (Ok a).
Proof. intros o ino off c _ _ _. cbn [length]. by rewrite Z.add_0_r. Qed.

Lemma parses_fail {A} fd e : parses (A := A) fd (fail e) [] (Err e).
Proof. intros o ino off c _ _ _. cbn [length]. by rewrite Z.add_0_r. Qed.

(** One field of a parse. *)
Lemma parses_u32 {B} fd v (k : Z → MC os B) y r :
  0 ≤ v < 2 ^ 32 → parses fd (k v) y r →
  parses fd (fread_little_endian32 fd ≫= k) (write_little_endian32 v ++ y) r.
Proof.
  intros Hv Hk. eapply parses_bind; [by apply parses_le32|].
  rewrite le_value_write32, u32_id by lia. done.
Qed.

Lemma parses_u64 {B} fd v (k : Z → MC os B) y r :
  0 ≤ v < 2 ^ 64 → parses fd (k v) y r →
  parses fd (fread_little_endian64 fd ≫= k) (write_little_endian64 v ++ y) r.
Proof.
  intros Hv Hk. eapply parses_bind; [by apply parses_le64|].
  rewrite le_value_write64, u64_id by lia. done.
Qed.

(** A word in the middle of the file. *)
Lemma read_word_run fp o ino c :
  readable o ino c → ∀ pre v post, 0 ≤ v < 2 ^ 32 →
  c = pre ++ write_little_endian32 v ++ post →
  fread_little_endian32 fp (at_off fp ino (zlen pre) o) = (Ok v, at_off fp ino (zlen pre + 4) o).
Proof.
  intros Hr pre v post Hv Heq.
  rewrite (parses_le32 fp (write_little_endian32 v) eq_refl _ ino _ _ Hr); [|lia|].
  - by rewrite le_value_write32, u32_id.
  - rewrite Heq, Nat2Z.id, drop_app_length. by eexists.
Qed.

(** Follow a sequence of field reads. *)
Ltac solve_parses :=
  lazymatch goal with
  | |- parses _ (fread_little_endian32 _ ≫= _) _ _ => apply parses_u32; [done|solve_parses]
  | |- parses _ (fread_little_endian64 _ ≫= _) _ _ => apply parses_u64; [done|solve_parses]
  | |- _ => idtac
  end.

Lemma consumes_le32 fd : consumes fd (fread_little_endian32 fd) 4.
Proof.
  intros o ino off c a o' [Hc Hs] Hoff. unfold fread_little_endian32, mbind, M_bind.
  rewrite (fread_step _ _ _ c) by (done || lia). case_decide; [|done].
  unfold of_opt. case_match; [|done]. unfold mret, M_ret. intros [= _ <-]. done.
Qed.

Lemma consumes_le64 fd : consumes fd (fread_little_endian64 fd) 8.
Proof.
  intros o ino off c a o' [Hc Hs] Hoff. unfold fread_little_endian64, mbind, M_bind.
  rewrite (fread_step _ _ _ c) by (done || lia). case_decide; [|done].
  unfold of_opt. case_match; [|done]. unfold mret, M_ret. intros [= _ <-]. done.
Qed.

Lemma consumes_bind {A B} fd (m : MC os A) (k : A → MC os B) n1 n :
  0 ≤ n1 →
  consumes fd m n1 → (∀ a, consumes fd (k a) (n - n1)) → consumes fd (m ≫= k) n.
Proof.
  intros Hn Hm Hk o ino off c b o' Hr Hoff. unfold mbind, M_bind.
  destruct (m (at_off fd ino off o)) as [[a| | |] o1] eqn:E; try done.
  destruct (Hm _ _ _ _ _ _ Hr Hoff E) as [-> Hle]. intros Hb.
  eapply Hk in Hb as [-> ?]; [|done|lia]. split; [f_equal; lia|lia].
Qed.

Lemma consumes_check {A} fd n (e : option returncode) (a : A) :
  n = 0 → consumes fd (match e with Some e => fail e | None => mret a end) n.
Proof.
  intros -> o ino off c b o' [Hc Hs] Hoff. case_match; [done|].
  unfold mret, M_ret. intros [= _ <-]. split; [f_equal; lia|lia].
Qed.

(** Follow a sequence of field reads to the length they need. *)
Ltac solve_consumes :=
  lazymatch goal with
  | |- consumes _ (fread_little_endian32 _ ≫= _) _ =>
      apply (consumes_bind _ _ _ 4); [lia|apply consumes_le32|intros ?; solve_consumes]
  | |- consumes _ (fread_little_endian64 _ ≫= _) _ =>
      apply (consumes_bind _ _ _ 8); [lia|apply consumes_le64|intros ?; solve_consumes]
  | |- _ => idtac
  end.

(** A computation that moves the offset of one descriptor, whatever its result. *)
Definition roams {A} (fd : Z) (m : MC os A) : Prop :=
  ∀ o ino off c, readable o ino c → 0 ≤ off →
    ∃ off', 0 ≤ off' ∧ (m (at_off fd ino off o)).2 = at_off fd ino off' o.

Lemma roams_same {A} fd (m : MC os A) : (∀ o, (m o).2 = o) → roams fd m.
Proof. intros Hm o ino off c _ Hoff. rewrite Hm. by exists off. Qed.

Lemma roams_of_opt {A} fd (x : option A) : roams fd (of_opt x).
Proof. apply roams_same. by destruct x. Qed.

Lemma roams_bind {A B} fd (m : MC os A) (k : A → MC os B) :
  roams fd m → (∀ a, roams fd (k a)) → roams fd (m ≫= k).
Proof.
  intros Hm Hk o ino off c Hr Hoff. destruct (Hm o ino off c Hr Hoff) as (off1 & Hoff1 & E).
  unfold mbind, M_bind. destruct (m (at_off fd ino off o)) as [r o1]. cbn [snd] in E. subst o1.
  destruct r as [a|e| |]; try by exists off1. by apply (Hk a o ino off1 c).
Qed.

Lemma roams_fread fd n : 0 ≤ n → roams fd (fread n fd).
Proof.
  intros Hn o ino off c [Hc Hs] Hoff. rewrite (fread_step _ _ _ c) by done.
  case_decide; (eexists; split; [|reflexivity]); lia.
Qed.

Lemma roams_le32 fd : roams fd (fread_little_endian32 fd).
Proof. apply roams_bind; [by apply roams_fread|]. intros [bs|]; [apply roams_of_opt|by apply roams_same]. Qed.

Lemma roams_le64 fd : roams fd (fread_little_endian64 fd).
Proof. apply roams_bind; [by apply roams_fread|]. intros [bs|]; [apply roams_of_opt|by apply roams_same]. Qed.

Ltac solve_roams :=
  lazymatch goal with
  | |- roams _ (fread_little_endian32 _ ≫= _) => apply roams_bind; [apply roams_le32|intros ?; solve_roams]
  | |- roams _ (fread_little_endian64 _ ≫= _) => apply roams_bind; [apply roams_le64|intros ?; solve_roams]
  | |- roams _ (of_opt _ ≫= _) => apply roams_bind; [apply roams_of_opt|intros ?; solve_roams]
  | |- roams _ (match ?x with _ => _ end) => destruct x; solve_roams
  | |- _ => try (by apply roams_same)
  end.

Lemma fread32_eof fd ino off c o :
  os_inodes o !! ino = Some c → os_sched o = [] → 0 ≤ off → zlen c < off + 4 →
  ∃ off', fread_little_endian32 fd (at_off fd ino off o) =
    (Err SPARKEY_UNEXPECTED_EOF, at_off fd ino off' o).
Proof.
  intros Hc Hs Hoff Hlen. unfold fread_little_endian32. eexists.
  erewrite bind_Ok; [|rewrite (fread_step _ _ _ c) by (done || lia); by rewrite decide_False by lia].
  done.
Qed.

(** The first little endian word of a long enough byte sequence. *)
Lemma split_le32 c :
  bytes_ok c → 4 ≤ zlen c →
  ∃ v r, c = write_little_endian32 v ++ r ∧ 0 ≤ v < 2 ^ 32 ∧ bytes_ok r ∧ zlen r = zlen c - 4.
Proof.
  intros Hok Hlen. exists (le_value (take 4 c)), (drop 4 c).
  assert (H4 : length (take 4 c) = 4%nat) by (rewrite length_take; lia).
  pose proof (bytes_ok_take 4 c Hok) as Ht. pose proof (le_value_bound _ Ht) as Hb.
  rewrite H4 in Hb. split_and!; try lia; [|by eauto with sparkey|rewrite length_drop; lia].
  rewrite write32_le_bytes. rewrite <- H4 at 1. rewrite le_bytes_value by done.
  by rewrite take_drop.
Qed.

Lemma split_le64 c :
  bytes_ok c → 8 ≤ zlen c →
  ∃ v r, c = write_little_endian64 v ++ r ∧ 0 ≤ v < 2 ^ 64 ∧ bytes_ok r ∧ zlen r = zlen c - 8.
Proof.
  intros Hok Hlen. exists (le_value (take 8 c)), (drop 8 c).
  assert (H8 : length (take 8 c) = 8%nat) by (rewrite length_take; lia).
  pose proof (bytes_ok_take 8 c Hok) as Ht. pose proof (le_value_bound _ Ht) as Hb.
  rewrite H8 in Hb. split_and!; try lia; [|by eauto with sparkey|rewrite length_drop; lia].
  rewrite write64_le_bytes. rewrite <- H8 at 1. rewrite le_bytes_value by done.
  by rewrite take_drop.
Qed.

Lemma closing_run {A} fp (m : MC os A) o ino off off' (r : res returncode A) :
  m (at_off fp ino off o) = (r, at_off fp ino off' o) → os_fds o !! fp = None →
  closing fp m (at_off fp ino off o) = (r, o).
Proof.
  intros Hm Hfd. unfold closing. rewrite Hm. unfold sys_close, at_off. cbn.
  rewrite lookup_insert_eq. unfold set_fds. cbn.
  rewrite delete_insert_id by done. by destruct o.
Qed.

(** The file is closed on every way out. *)
Lemma closing_left {A} fp (m : MC os A) o ino off c :
  roams fp m → readable o ino c → 0 ≤ off → os_fds o !! fp = None →
  (closing fp m (at_off fp ino off o)).2 = o.
Proof.
  intros Hm Hr Hoff Hfd. destruct (Hm o ino off c Hr Hoff) as (off' & _ & E).
  destruct (m (at_off fp ino off o)) as [r o1] eqn:Hrun. cbn [snd] in E. subst o1.
  by rewrite (closing_run fp m o ino off off' r Hrun Hfd).
Qed.

(** The environment after opening and closing one file. *)
Definition opened (o : os) : os :=
  OS (os_inodes o) (os_names o) (os_fds o) (os_next_inode o) (os_next_fd o + 1)
     (os_sched o) (os_entropy o).

(** A file of that name with that content, in a cooperative environment whose
    descriptor numbers are fresh. *)
Definition has_file (o : os) (name : string) (c : list Z) : Prop :=
  ∃ ino, os_names o !! name = Some ino ∧ os_inodes o !! ino = Some c ∧
    os_sched o = [] ∧ os_fds o !! os_next_fd o = None.

Lemma sys_open_run o name c :
  has_file o name c →
  ∃ ino, os_names o !! name = Some ino ∧ readable (opened o) ino c ∧
    os_fds (opened o) !! os_next_fd o = None ∧
    sys_open name o = (Ok (inr (os_next_fd o)), at_off (os_next_fd o) ino 0 (opened o)).
Proof.
  intros (ino & Hn & Hc & Hs & Hfd). exists ino. split; [done|]. split; [by split|].
  split; [done|]. unfold sys_open, pop. rewrite Hs. by rewrite Hn.
Qed.

(** ** Replacing a file *)

(** Names lead to inodes, and the numbers to be handed out are fresh. *)
Definition os_wf (o : os) : Prop :=
  (∀ n i, os_names o !! n = Some i → is_Some (os_inodes o !! i)) ∧
  (∀ i, is_Some (os_inodes o !! i) → (i < os_next_inode o)%nat) ∧
  (∀ fd, is_Some (os_fds o !! fd) → fd < os_next_fd o) ∧ 0 < os_next_fd o.

(** The environment after removing a file, and after creating one that is not there. *)
Definition removed (name : string) (o : os) : os := set_names (delete name (os_names o)) o.
Definition created (name : string) (o : os) : os :=
  OS (<[os_next_inode o := []]> (os_inodes o)) (<[name := os_next_inode o]> (os_names o))
     (<[os_next_fd o := (os_next_inode o, 0)]> (os_fds o)) (S (os_next_inode o))
     (os_next_fd o + 1) (os_sched o) (os_entropy o).

Lemma sys_remove_run name o :
  os_sched o = [] →
  sys_remove name o =
    (Ok (if decide (is_Some (os_names o !! name)) then inr tt else inl ENOENT), removed name o).
Proof.
  intros Hs. unfold sys_remove, pop. rewrite Hs. destruct (os_names o !! name) eqn:E.
  - rewrite decide_True by by eexists. done.
  - rewrite decide_False by (intros [? ?]; congruence). unfold removed, set_names.
    rewrite delete_id by done. by destruct o; cbn in *; subst.
Qed.

Lemma sys_create_run name o :
  os_sched o = [] → os_names o !! name = None →
  sys_create name o = (Ok (inr (os_next_fd o)), created name o).
Proof. intros Hs Hn. unfold sys_create, pop. by rewrite Hs, Hn. Qed.

Lemma removed_wf name o : os_wf o → os_wf (removed name o).
Proof.
  intros (Hn & Hi & Hf). split_and!; cbn; try tauto.
  intros n i (_ & Hi')%lookup_delete_Some. eauto.
Qed.

Lemma created_wf name o : os_wf o → os_wf (created name o).
Proof.
  intros (Hn & Hi & Hf & H0). split_and!; cbn; [| | |lia].
  - intros n i [[_ <-]|[_ ?]]%lookup_insert_Some; [rewrite lookup_insert_eq; by eexists|].
    rewrite lookup_insert_ne; [by eapply Hn|]. intros <-.
    destruct (Hn n (os_next_inode o)) as [? ?]; [done|].
    pose proof (Hi (os_next_inode o)) as Hlt. rewrite H1 in Hlt.
    assert (os_next_inode o < os_next_inode o)%nat by (apply Hlt; by eexists). lia.
  - intros i [x [[<- _]|[_ ?]]%lookup_insert_Some]; [lia|].
    assert (i < os_next_inode o)%nat by (apply Hi; by eexists). lia.
  - intros fd [x [[<- _]|[_ ?]]%lookup_insert_Some]; [lia|].
    assert (fd < os_next_fd o) by (apply Hf; by eexists). lia.
Qed.

Lemma created_open name o : fd_open (created name o) (os_next_fd o) (os_next_inode o) 0.
Proof.
  split; [apply lookup_insert_eq|]. split; [|done]. cbn. rewrite lookup_insert_eq. by eexists.
Qed.

(** What writing to one descriptor leaves alone. *)
Definition os_frame (fd : Z) (ino : nat) (o o' : os) : Prop :=
  os_names o' = os_names o ∧ suffix (os_sched o') (os_sched o) ∧
  os_next_inode o' = os_next_inode o ∧ os_next_fd o' = os_next_fd o ∧
  os_entropy o' = os_entropy o ∧
  (∀ i, i ≠ ino → os_inodes o' !! i = os_inodes o !! i) ∧
  (∀ f, f ≠ fd → os_fds o' !! f = os_fds o !! f).

Lemma os_frame_refl fd ino o : os_frame fd ino o o.
Proof. by repeat split. Qed.

Lemma os_frame_trans fd ino o1 o2 o3 :
  os_frame fd ino o1 o2 → os_frame fd ino o2 o3 → os_frame fd ino o1 o3.
Proof.
  intros (?&?&?&?&?&Hi&Hf) (?&?&?&?&?&Hi'&Hf'). unfold os_frame. split_and!; try congruence.
  - by etrans.
  - intros i Hne. rewrite Hi' by done. by apply Hi.
  - intros f Hne. rewrite Hf' by done. by apply Hf.
Qed.

Lemma os_frame_wf fd ino o o' :
  os_frame fd ino o o' → os_wf o → is_Some (os_inodes o' !! ino) →
  (ino < os_next_inode o)%nat → fd < os_next_fd o → os_wf o'.
Proof.
  intros (Hn & _ & Hni & Hnf & _ & Hi & Hf) (Hwn & Hwi & Hwf & H0) Hino Hlti Hltf.
  unfold os_wf. rewrite Hn, Hni, Hnf. split_and!; [| | |done].
  - intros n i Hni'. destruct (decide (i = ino)) as [->|Hne]; [done|].
    rewrite Hi by done. eauto.
  - intros i Hs. destruct (decide (i = ino)) as [->|Hne]; [done|].
    rewrite Hi in Hs by done. auto.
  - intros f Hs. destruct (decide (f = fd)) as [->|Hne]; [done|].
    rewrite Hf in Hs by done. auto.
Qed.

Lemma os_frame_put fd ino off bs sch o :
  suffix sch (os_sched o) → os_frame fd ino o (set_sched sch (put_bytes fd ino off bs o)).
Proof.
  intros Hs. split_and!; cbn; try done; intros ? ?; by rewrite lookup_insert_ne.
Qed.

Lemma os_frame_seek fd ino off o : os_frame fd ino o (at_off fd ino off o).
Proof. split_and!; cbn; try done. intros ? ?. by rewrite lookup_insert_ne. Qed.

Lemma sys_lseek_set_run fd ino off off' o :
  fd_open o fd ino off → sys_lseek_set fd off' o = (Ok off', at_off fd ino off' o).
Proof. intros (Hfd & _). unfold sys_lseek_set. by rewrite Hfd. Qed.

Lemma sys_lseek_cur_run fd ino off o :
  fd_open o fd ino off → sys_lseek_cur fd o = (Ok off, o).
Proof. intros (Hfd & _). unfold sys_lseek_cur. by rewrite Hfd. Qed.

(** Writing at the end of a file appends. *)
Lemma splice_end c bs : splice c (zlen c) bs = c ++ bs.
Proof.
  unfold splice. rewrite Nat2Z.id, Nat.sub_diag. cbn [replicate]. rewrite app_nil_r.
  destruct bs as [|b bs]; [by rewrite app_nil_r|].
  rewrite firstn_all, drop_ge by lia. by rewrite app_nil_r.
Qed.

Lemma splice_start c bs : splice c 0 bs = bs ++ drop (length bs) c.
Proof. unfold splice. by destruct bs. Qed.

(** ** Properties *)

(** C34. [write_full] writes its bytes once each, in order, at the current offset,
    whatever short writes and interruptions the environment makes: it returns
    success exactly when all of them are there, moves no other file, and fails
    only on an errno that is neither EINTR nor EAGAIN, leaving a prefix. *)
Theorem write_full_complete fd ino off buf o :
  fd_open o fd ino off →
  let '(r, o') := write_full fd buf o in
  ∃ n, os_inodes o' = <[ino := splice (default [] (os_inodes o !! ino)) off (take n buf)]>
                        (os_inodes o) ∧
    os_fds o' = <[fd := (ino, off + zlen (take n buf))]> (os_fds o) ∧
    ((r = Ok tt ∧ take n buf = buf) ∨
     ∃ e, r = Err e ∧ write_error e ∧ Exists fatal (os_sched o)).
Proof.
  intros Hopen. pose proof (write_full_wrote fd ino off buf o Hopen) as Hw.
  destruct (write_full fd buf o) as [r o'].
  destruct Hw as (n & s & _ & -> & Hr). by exists n.
Qed.

Example os_one_file : os :=
  OS {[ 0%nat := [9; 9; 9; 9] ]} {[ "f"%string := 0%nat ]} {[ 3 := (0%nat, 1) ]} 1 4
     [Short 1; Fails EINTR; Short 0; Normal] [].

Lemma write_full_complete_witness :
  fd_open os_one_file 3 0 1 ∧
  let '(r, o') := write_full 3 [5; 6; 7; 8] os_one_file in
  r = Ok tt ∧ os_inodes o' !! 0%nat = Some [9; 5; 6; 7; 8].
Proof.
  assert (H : fd_open os_one_file 3 0 1) by (split; [done|split; [by eexists|done]]).
  split; [done|].
  pose proof (write_full_complete 3 0 1 [5; 6; 7; 8] os_one_file H) as Hw.
  destruct (write_full 3 [5; 6; 7; 8] os_one_file) as [r o'].
  destruct Hw as (n & -> & _ & Hr).
  destruct Hr as [[-> ->]|(e & -> & _ & Hex)]; [by split|].
  exfalso. cbn in Hex. rewrite !Exists_cons, Exists_nil in Hex. cbn in Hex. tauto.
Defined.

(** [read_fully] does not advance its buffer between reads: with a short read
    the bytes that were read first are overwritten by the later ones. *)
Theorem read_fully_short_read_corrupts :
  ∃ o, os_inodes o !! 0%nat = Some [1; 2; 3; 4] ∧
    (read_fully 5 3 [0; 0; 0; 0] 4 o).1 = Ok [3; 4; 0; 0].
Proof.
  exists (OS {[ 0%nat := [1; 2; 3; 4] ]} ∅ {[ 3 := (0%nat, 0) ]} 1 4 [Short 2] []).
  by split.
Qed.
