(* ===== verification/Murmur.v ===== *)
(** * MurmurHash3 (MurmurHash3.c)

    The three hash functions with their 32 and 64 bit wrap-around, block loops
    and fall-through tails.  A read outside the key is [None].  The properties
    give the block-and-tail loops a reference definition over little endian
    words, totality on every key, and the bijectivity of the finalizers. *)

From stdpp Require Import base gmap list strings numbers.
From Stdlib Require Import ZArith Lia.
From S2P Require Import Prelude Endian.

Local Open Scope Z_scope.

(** ** Definitions *)

Definition rotl32 (x r : Z) : Z := Z.lor (u32 (Z.shiftl x r)) (Z.shiftr x (32 - r)).
Definition rotl64 (x r : Z) : Z := Z.lor (u64 (Z.shiftl x r)) (Z.shiftr x (64 - r)).

(** [getblock32(p, i)] with [p] at offset [base] of the key. *)
Definition getblock32 (key : list Z) (base i : Z) : option Z :=
  read_little_endian32 key (base + 4 * i).
Definition getblock64 (key : list Z) (base i : Z) : option Z :=
  read_little_endian64 key (base + 8 * i).

Definition fmix32 (h : Z) : Z :=
  let h := Z.lxor h (Z.shiftr h 16) in
  let h := u32 (h * 0x85ebca6b) in
  let h := Z.lxor h (Z.shiftr h 13) in
  let h := u32 (h * 0xc2b2ae35) in
  Z.lxor h (Z.shiftr h 16).

Definition fmix64 (k : Z) : Z :=
  let k := Z.lxor k (Z.shiftr k 33) in
  let k := u64 (k * 0xff51afd7ed558ccd) in
  let k := Z.lxor k (Z.shiftr k 33) in
  let k := u64 (k * 0xc4ceb9fe1a85ec53) in
  Z.lxor k (Z.shiftr k 33).

(** One label [case lim: k ^= tail[i] << sh;] of a switch on [n] that falls
    through: it runs when [n] is at least [lim]. *)
Definition xor_tail (key : list Z) (tail n lim i sh k : Z) : option Z :=
  if decide (lim ≤ n)
  then b ← mem_get key (tail + i); Some (Z.lxor k (Z.shiftl b sh))
  else Some k.

(** The [k *= a; k = ROTL32(k, r); k *= b;] of every block and tail word. *)
Definition scramble32 (k a r b : Z) : Z := u32 (rotl32 (u32 (k * a)) r * b).
Definition scramble64 (k a r b : Z) : Z := u64 (rotl64 (u64 (k * a)) r * b).

(** [MurmurHash3_x86_32]: the body loop, [for (i = -nblocks; i; i++)] with
    [count] iterations left. *)
Fixpoint x86_32_body (count : nat) (i : Z) (key : list Z) (blocks h1 : Z) : option Z :=
  match count with
  | O => Some h1
  | S count =>
      k1 ← getblock32 key blocks i;
      let k1 := scramble32 k1 0xcc9e2d51 15 0x1b873593 in
      let h1 := Z.lxor h1 k1 in
      let h1 := rotl32 h1 13 in
      let h1 := u32 (h1 * 5 + 0xe6546b64) in
      x86_32_body count (i + 1) key blocks h1
  end.

Definition x86_32_tail (key : list Z) (tail n : Z) : option Z :=
  k1 ← xor_tail key tail n 3 2 16 0;
  k1 ← xor_tail key tail n 2 1 8 k1;
  xor_tail key tail n 1 0 0 k1.

Definition MurmurHash3_x86_32 (key : list Z) (len seed : Z) : option Z :=
  let nblocks := len ÷ 4 in
  if decide (nblocks < 0) then None else
  h1 ← x86_32_body (Z.to_nat nblocks) (- nblocks) key (nblocks * 4) seed;
  let tail := nblocks * 4 in
  let n := Z.land len 3 in
  k1 ← x86_32_tail key tail n;
  let h1 := if decide (1 ≤ n)
            then Z.lxor h1 (scramble32 k1 0xcc9e2d51 15 0x1b873593) else h1 in
  let h1 := Z.lxor h1 (u32 len) in
  Some (fmix32 h1).

(** [MurmurHash3_x86_128]: four lanes. *)
Definition x86_128_c1 : Z := 0x239b961b.
Definition x86_128_c2 : Z := 0xab0e9789.
Definition x86_128_c3 : Z := 0x38b34ae5.
Definition x86_128_c4 : Z := 0xa1e38b93.

Fixpoint x86_128_body (count : nat) (i : Z) (key : list Z) (blocks h1 h2 h3 h4 : Z)
    : option (Z * Z * Z * Z) :=
  match count with
  | O => Some (h1, h2, h3, h4)
  | S count =>
      k1 ← getblock32 key blocks (i * 4 + 0);
      k2 ← getblock32 key blocks (i * 4 + 1);
      k3 ← getblock32 key blocks (i * 4 + 2);
      k4 ← getblock32 key blocks (i * 4 + 3);
      let h1 := Z.lxor h1 (scramble32 k1 x86_128_c1 15 x86_128_c2) in
      let h1 := u32 (rotl32 h1 19 + h2) in
      let h1 := u32 (h1 * 5 + 0x561ccd1b) in
      let h2 := Z.lxor h2 (scramble32 k2 x86_128_c2 16 x86_128_c3) in
      let h2 := u32 (rotl32 h2 17 + h3) in
      let h2 := u32 (h2 * 5 + 0x0bcaa747) in
      let h3 := Z.lxor h3 (scramble32 k3 x86_128_c3 17 x86_128_c4) in
      let h3 := u32 (rotl32 h3 15 + h4) in
      let h3 := u32 (h3 * 5 + 0x96cd1c35) in
      let h4 := Z.lxor h4 (scramble32 k4 x86_128_c4 18 x86_128_c1) in
      let h4 := u32 (rotl32 h4 13 + h1) in
      let h4 := u32 (h4 * 5 + 0x32ac3b17) in
      x86_128_body count (i + 1) key blocks h1 h2 h3 h4
  end.

(** The two rounds [h1 += h2; ... h4 += h1;] of its finalization. *)
Definition x86_128_sum (h1 h2 h3 h4 : Z) : Z * Z * Z * Z :=
  let h1 := u32 (h1 + h2) in
  let h1 := u32 (h1 + h3) in
  let h1 := u32 (h1 + h4) in
  (h1, u32 (h2 + h1), u32 (h3 + h1), u32 (h4 + h1)).

Definition MurmurHash3_x86_128 (key : list Z) (len seed : Z) : option (Z * Z * Z * Z) :=
  let nblocks := len ÷ 16 in
  if decide (nblocks < 0) then None else
  '(h1, h2, h3, h4) ← x86_128_body (Z.to_nat nblocks) (- nblocks) key (nblocks * 16)
                        seed seed seed seed;
  let tail := nblocks * 16 in
  let n := Z.land len 15 in
  k4 ← xor_tail key tail n 15 14 16 0;
  k4 ← xor_tail key tail n 14 13 8 k4;
  k4 ← xor_tail key tail n 13 12 0 k4;
  let h4 := if decide (13 ≤ n)
            then Z.lxor h4 (scramble32 k4 x86_128_c4 18 x86_128_c1) else h4 in
  k3 ← xor_tail key tail n 12 11 24 0;
  k3 ← xor_tail key tail n 11 10 16 k3;
  k3 ← xor_tail key tail n 10 9 8 k3;
  k3 ← xor_tail key tail n 9 8 0 k3;
  let h3 := if decide (9 ≤ n)
            then Z.lxor h3 (scramble32 k3 x86_128_c3 17 x86_128_c4) else h3 in
  k2 ← xor_tail key tail n 8 7 24 0;
  k2 ← xor_tail key tail n 7 6 16 k2;
  k2 ← xor_tail key tail n 6 5 8 k2;
  k2 ← xor_tail key tail n 5 4 0 k2;
  let h2 := if decide (5 ≤ n)
            then Z.lxor h2 (scramble32 k2 x86_128_c2 16 x86_128_c3) else h2 in
  k1 ← xor_tail key tail n 4 3 24 0;
  k1 ← xor_tail key tail n 3 2 16 k1;
  k1 ← xor_tail key tail n 2 1 8 k1;
  k1 ← xor_tail key tail n 1 0 0 k1;
  let h1 := if decide (1 ≤ n)
            then Z.lxor h1 (scramble32 k1 x86_128_c1 15 x86_128_c2) else h1 in
  let '(h1, h2, h3, h4) :=
    x86_128_sum (Z.lxor h1 (u32 len)) (Z.lxor h2 (u32 len))
                (Z.lxor h3 (u32 len)) (Z.lxor h4 (u32 len)) in
  let '(h1, h2, h3, h4) := x86_128_sum (fmix32 h1) (fmix32 h2) (fmix32 h3) (fmix32 h4) in
  Some (h1, h2, h3, h4).

(** [MurmurHash3_x64_128]: two 64 bit lanes, blocks counted from the start. *)
Definition x64_c1 : Z := 0x87c37b91114253d5.
Definition x64_c2 : Z := 0x4cf5ad432745937f.

Fixpoint x64_128_body (count : nat) (i : Z) (key : list Z) (h1 h2 : Z) : option (Z * Z) :=
  match count with
  | O => Some (h1, h2)
  | S count =>
      k1 ← getblock64 key 0 (i * 2 + 0);
      k2 ← getblock64 key 0 (i * 2 + 1);
      let h1 := Z.lxor h1 (scramble64 k1 x64_c1 31 x64_c2) in
      let h1 := u64 (rotl64 h1 27 + h2) in
      let h1 := u64 (h1 * 5 + 0x52dce729) in
      let h2 := Z.lxor h2 (scramble64 k2 x64_c2 33 x64_c1) in
      let h2 := u64 (rotl64 h2 31 + h1) in
      let h2 := u64 (h2 * 5 + 0x38495ab5) in
      x64_128_body count (i + 1) key h1 h2
  end.

Definition x64_128_tail_k2 (key : list Z) (tail n : Z) : option Z :=
  k2 ← xor_tail key tail n 15 14 48 0;
  k2 ← xor_tail key tail n 14 13 40 k2;
  k2 ← xor_tail key tail n 13 12 32 k2;
  k2 ← xor_tail key tail n 12 11 24 k2;
  k2 ← xor_tail key tail n 11 10 16 k2;
  k2 ← xor_tail key tail n 10 9 8 k2;
  xor_tail key tail n 9 8 0 k2.

Definition x64_128_tail_k1 (key : list Z) (tail n : Z) : option Z :=
  k1 ← xor_tail key tail n 8 7 56 0;
  k1 ← xor_tail key tail n 7 6 48 k1;
  k1 ← xor_tail key tail n 6 5 40 k1;
  k1 ← xor_tail key tail n 5 4 32 k1;
  k1 ← xor_tail key tail n 4 3 24 k1;
  k1 ← xor_tail key tail n 3 2 16 k1;
  k1 ← xor_tail key tail n 2 1 8 k1;
  xor_tail key tail n 1 0 0 k1.

Definition MurmurHash3_x64_128 (key : list Z) (len seed : Z) : option (Z * Z) :=
  let nblocks := len ÷ 16 in
  '(h1, h2) ← x64_128_body (Z.to_nat nblocks) 0 key seed seed;
  let tail := nblocks * 16 in
  let n := Z.land len 15 in
  k2 ← x64_128_tail_k2 key tail n;
  let h2 := if decide (9 ≤ n) then Z.lxor h2 (scramble64 k2 x64_c2 33 x64_c1) else h2 in
  k1 ← x64_128_tail_k1 key tail n;
  let h1 := if decide (1 ≤ n) then Z.lxor h1 (scramble64 k1 x64_c1 31 x64_c2) else h1 in
  let h1 := Z.lxor h1 (u64 len) in
  let h2 := Z.lxor h2 (u64 len) in
  let h1 := u64 (h1 + h2) in
  let h2 := u64 (h2 + h1) in
  let h1 := fmix64 h1 in
  let h2 := fmix64 h2 in
  let h1 := u64 (h1 + h2) in
  let h2 := u64 (h2 + h1) in
  Some (h1, h2).

(** The two entry points: the 64 bit length is passed as an [int]. *)
Definition murmurhash32_hash (buf : list Z) (len seed : Z) : option Z :=
  MurmurHash3_x86_32 buf (s32 len) seed.

Definition murmurhash64_hash (buf : list Z) (len seed : Z) : option Z :=
  fst <$> MurmurHash3_x64_128 buf (s32 len) seed.

(** *** The reference definition

    A key is its sequence of little endian words and a rest shorter than a
    block, and the hash is a fold over the words followed by the rest. *)

(** The first [n] words of [w] bytes. *)
Fixpoint words (w n : nat) (key : list Z) : list Z :=
  match n with
  | O => []
  | S n => le_value (take w key) :: words w n (drop w key)
  end.

Definition mm32_round (h k : Z) : Z :=
  u32 (rotl32 (Z.lxor h (scramble32 k 0xcc9e2d51 15 0x1b873593)) 13 * 5 + 0xe6546b64).

Definition murmur32_reference (key : list Z) (seed : Z) : Z :=
  let n := (length key / 4)%nat in
  let h := foldl mm32_round seed (words 4 n key) in
  let rest := le_value (drop (4 * n) key) in
  fmix32 (Z.lxor (Z.lxor h (scramble32 rest 0xcc9e2d51 15 0x1b873593)) (zlen key)).

Fixpoint mm64_rounds (ws : list Z) (h1 h2 : Z) : Z * Z :=
  match ws with
  | k1 :: k2 :: ws =>
      let h1 := u64 (u64 (rotl64 (Z.lxor h1 (scramble64 k1 x64_c1 31 x64_c2)) 27 + h2) * 5
                     + 0x52dce729) in
      let h2 := u64 (u64 (rotl64 (Z.lxor h2 (scramble64 k2 x64_c2 33 x64_c1)) 31 + h1) * 5
                     + 0x38495ab5) in
      mm64_rounds ws h1 h2
  | _ => (h1, h2)
  end.

Definition murmur64_reference (key : list Z) (seed : Z) : Z :=
  let n := (length key / 16)%nat in
  let '(h1, h2) := mm64_rounds (words 8 (2 * n) key) seed seed in
  let rest := drop (16 * n) key in
  let h1 := Z.lxor h1 (scramble64 (le_value (take 8 rest)) x64_c1 31 x64_c2) in
  let h2 := Z.lxor h2 (scramble64 (le_value (drop 8 rest)) x64_c2 33 x64_c1) in
  let h1 := Z.lxor h1 (zlen key) in
  let h2 := Z.lxor h2 (zlen key) in
  let h1 := u64 (h1 + h2) in
  let h2 := u64 (h2 + h1) in
  u64 (fmix64 h1 + fmix64 h2).

(** The inverses of the finalizers. *)
Definition fmix32_inverse (h : Z) : Z :=
  let h := Z.lxor h (Z.shiftr h 16) in
  let h := u32 (h * 0x7ed1b41d) in
  let h := Z.lxor h (Z.shiftr h 13) in
  let h := Z.lxor h (Z.shiftr h 26) in
  let h := u32 (h * 0xa5cb9243) in
  Z.lxor h (Z.shiftr h 16).

Definition fmix64_inverse (k : Z) : Z :=
  let k := Z.lxor k (Z.shiftr k 33) in
  let k := u64 (k * 0x9cb4b2f8129337db) in
  let k := Z.lxor k (Z.shiftr k 33) in
  let k := u64 (k * 0x4f74430c22a54005) in
  Z.lxor k (Z.shiftr k 33).

(** *** Test vectors of testhash.c *)

Example murmur32_vectors :
  murmurhash32_hash [122] 1 0x5942ad3d = Some 0x5af6cd1b ∧
  murmurhash32_hash [56; 55] 2 0x500dc5a2 = Some 0x680b80bc ∧
  murmurhash32_hash [82; 76; 72] 3 0x20132ae9 = Some 0x4d7530a2 ∧
  murmurhash32_hash [112; 50; 88; 87; 52; 57; 116; 48; 119; 70; 50; 76; 110; 103; 121] 15
    0x5acc225d = Some 0xc0005f6d.
Proof. by vm_compute. Qed.

Example murmur64_vectors :
  murmurhash64_hash [122] 1 0x5942ad3d = Some 0xa6fca4d63e0eb97e ∧
  murmurhash64_hash [120; 117; 98; 74; 77; 101] 6 0xdc48c98c = Some 0x973f12fcec9bb11d ∧
  murmurhash64_hash [112; 50; 88; 87; 52; 57; 116; 48; 119; 70; 50; 76; 110; 103; 121] 15
    0xdacc225d = Some 0x23ea58fd357bd3dc ∧
  murmurhash64_hash [0xcf; 0x0a; 0x87; 0x5f; 0x17; 0x7d; 0x49; 0x77; 0xb7; 0xb9; 0x11; 0x9d;
                     0x7e; 0x4e; 0xe4; 0xec] 16 88057744 = Some 7646390503503309584.
Proof. by vm_compute. Qed.

(** ** Lemmas on the finalizers *)

Lemma xorshift_cancel x k :
  0 ≤ k → 0 ≤ x < 2 ^ (2 * k) →
  Z.lxor (Z.lxor x (Z.shiftr x k)) (Z.shiftr (Z.lxor x (Z.shiftr x k)) k) = x.
Proof.
  intros Hk Hx. rewrite Z.shiftr_lxor, Z.shiftr_shiftr by lia.
  rewrite (Z.shiftr_div_pow2 x (k + k)), Z.div_small, Z.lxor_0_r by
    (replace (k + k) with (2 * k); lia).
  by rewrite Z.lxor_assoc, Z.lxor_nilpotent, Z.lxor_0_r.
Qed.

(** Undoing a shift that is shorter than half the word takes two steps. *)
Lemma xorshift_cancel2 x k :
  0 ≤ k → 0 ≤ x < 2 ^ (4 * k) →
  let y := Z.lxor x (Z.shiftr x k) in
  let z := Z.lxor y (Z.shiftr y k) in
  Z.lxor z (Z.shiftr z (2 * k)) = x.
Proof.
  intros Hk Hx y z.
  assert (z = Z.lxor x (Z.shiftr x (2 * k))) as ->.
  { unfold z, y. rewrite Z.shiftr_lxor, Z.shiftr_shiftr by lia.
    rewrite Z.lxor_assoc, <- (Z.lxor_assoc (Z.shiftr x k)), Z.lxor_nilpotent, Z.lxor_0_l.
    by replace (k + k) with (2 * k) by lia. }
  apply xorshift_cancel; [lia|]. by replace (2 * (2 * k)) with (4 * k) by lia.
Qed.

(** Order of the two shifts in the second undoing. *)
Lemma xorshift_cancel2_inv x k :
  0 ≤ k → 0 ≤ x < 2 ^ (4 * k) →
  let z := Z.lxor x (Z.shiftr x k) in
  let w := Z.lxor z (Z.shiftr z (2 * k)) in
  Z.lxor w (Z.shiftr w k) = x.
Proof.
  intros Hk Hx z w. unfold w, z.
  rewrite !Z.shiftr_lxor, !Z.shiftr_shiftr by lia.
  rewrite (Z.shiftr_div_pow2 x (k + 2 * k + k)), (Z.div_small x) by
    (replace (k + 2 * k + k) with (4 * k); lia).
  replace (k + 2 * k) with (3 * k) by lia. replace (2 * k + k) with (3 * k) by lia.
  replace (k + k) with (2 * k) by lia. rewrite Z.lxor_0_r.
  set (a := Z.shiftr x k). set (b := Z.shiftr x (2 * k)). set (c := Z.shiftr x (3 * k)).
  apply Z.bits_inj'. intros i _. rewrite !Z.lxor_spec.
  by destruct (Z.testbit x i), (Z.testbit a i), (Z.testbit b i), (Z.testbit c i).
Qed.

Lemma mul_cancel x m mi n : (m * mi) mod n = 1 → 0 ≤ x < n → ((x * m) mod n * mi) mod n = x.
Proof.
  intros Hm Hx. rewrite Z.mul_mod_idemp_l by lia.
  rewrite <- Z.mul_assoc, <- Z.mul_mod_idemp_r, Hm, Z.mul_1_r by lia. by apply Z.mod_small.
Qed.

Lemma xorshift_range x k n : 0 ≤ k → 0 ≤ n → 0 ≤ x < 2 ^ n →
  0 ≤ Z.lxor x (Z.shiftr x k) < 2 ^ n.
Proof. intros. apply lxor_range; [lia|lia|]. by apply shiftr_range. Qed.

Lemma fmix32_range h : 0 ≤ fmix32 h < 2 ^ 32.
Proof. apply (xorshift_range _ 16 32); [lia|lia|]. apply u32_range. Qed.

Lemma fmix64_range k : 0 ≤ fmix64 k < 2 ^ 64.
Proof. apply (xorshift_range _ 33 64); [lia|lia|]. apply u64_range. Qed.

Ltac xrange := repeat first
  [ apply u32_range | apply u64_range | apply xorshift_range; [lia|lia|] | lia ].

Lemma u32_mul_cancel x m mi : (m * mi) mod 2 ^ 32 = 1 → 0 ≤ x < 2 ^ 32 → u32 (u32 (x * m) * mi) = x.
Proof. apply mul_cancel. Qed.

Lemma u64_mul_cancel x m mi : (m * mi) mod 2 ^ 64 = 1 → 0 ≤ x < 2 ^ 64 → u64 (u64 (x * m) * mi) = x.
Proof. apply mul_cancel. Qed.

Lemma fmix32_left h : 0 ≤ h < 2 ^ 32 → fmix32_inverse (fmix32 h) = h.
Proof.
  intros Hh. unfold fmix32, fmix32_inverse. cbv zeta.
  set (a := Z.lxor h (Z.shiftr h 16)).
  assert (Ha : 0 ≤ a < 2 ^ 32) by (unfold a; xrange).
  set (m1 := u32 (a * 0x85ebca6b)). set (b := Z.lxor m1 (Z.shiftr m1 13)).
  assert (Hm1 : 0 ≤ m1 < 2 ^ 32) by apply u32_range.
  assert (Hb : 0 ≤ b < 2 ^ 32) by (unfold b; xrange).
  set (m2 := u32 (b * 0xc2b2ae35)).
  assert (Hm2 : 0 ≤ m2 < 2 ^ 32) by apply u32_range.
  rewrite (xorshift_cancel m2 16) by lia. unfold m2.
  rewrite u32_mul_cancel by (done || lia). unfold b.
  change 26 with (2 * 13). rewrite (xorshift_cancel2 m1 13) by lia. unfold m1.
  rewrite u32_mul_cancel by (done || lia). apply xorshift_cancel; lia.
Qed.

Lemma fmix32_right h : 0 ≤ h < 2 ^ 32 → fmix32 (fmix32_inverse h) = h.
Proof.
  intros Hh. unfold fmix32, fmix32_inverse. cbv zeta.
  set (a := Z.lxor h (Z.shiftr h 16)).
  assert (Ha : 0 ≤ a < 2 ^ 32) by (unfold a; xrange).
  set (m1 := u32 (a * 0x7ed1b41d)). set (b := Z.lxor m1 (Z.shiftr m1 13)).
  assert (Hm1 : 0 ≤ m1 < 2 ^ 32) by apply u32_range.
  set (c := Z.lxor b (Z.shiftr b 26)).
  assert (Hc : 0 ≤ c < 2 ^ 32) by (unfold c, b; xrange).
  set (m2 := u32 (c * 0xa5cb9243)).
  assert (Hm2 : 0 ≤ m2 < 2 ^ 32) by apply u32_range.
  rewrite (xorshift_cancel m2 16) by lia. unfold m2.
  rewrite u32_mul_cancel by (done || lia). unfold c, b.
  change 26 with (2 * 13). rewrite (xorshift_cancel2_inv m1 13) by lia. unfold m1.
  rewrite u32_mul_cancel by (done || lia). apply xorshift_cancel; lia.
Qed.

Lemma fmix64_left k : 0 ≤ k < 2 ^ 64 → fmix64_inverse (fmix64 k) = k.
Proof.
  intros Hh. unfold fmix64, fmix64_inverse. cbv zeta.
  set (a := Z.lxor k (Z.shiftr k 33)).
  assert (Ha : 0 ≤ a < 2 ^ 64) by (unfold a; xrange).
  set (m1 := u64 (a * 0xff51afd7ed558ccd)). set (b := Z.lxor m1 (Z.shiftr m1 33)).
  assert (Hm1 : 0 ≤ m1 < 2 ^ 64) by apply u64_range.
  assert (Hb : 0 ≤ b < 2 ^ 64) by (unfold b; xrange).
  set (m2 := u64 (b * 0xc4ceb9fe1a85ec53)).
  assert (Hm2 : 0 ≤ m2 < 2 ^ 64) by apply u64_range.
  rewrite (xorshift_cancel m2 33) by lia. unfold m2.
  rewrite u64_mul_cancel by (done || lia). unfold b.
  rewrite (xorshift_cancel m1 33) by lia. unfold m1.
  rewrite u64_mul_cancel by (done || lia). apply xorshift_cancel; lia.
Qed.

Lemma fmix64_right k : 0 ≤ k < 2 ^ 64 → fmix64 (fmix64_inverse k) = k.
Proof.
  intros Hh. unfold fmix64, fmix64_inverse. cbv zeta.
  set (a := Z.lxor k (Z.shiftr k 33)).
  assert (Ha : 0 ≤ a < 2 ^ 64) by (unfold a; xrange).
  set (m1 := u64 (a * 0x9cb4b2f8129337db)). set (b := Z.lxor m1 (Z.shiftr m1 33)).
  assert (Hm1 : 0 ≤ m1 < 2 ^ 64) by apply u64_range.
  assert (Hb : 0 ≤ b < 2 ^ 64) by (unfold b; xrange).
  set (m2 := u64 (b * 0x4f74430c22a54005)).
  assert (Hm2 : 0 ≤ m2 < 2 ^ 64) by apply u64_range.
  rewrite (xorshift_cancel m2 33) by lia. unfold m2.
  rewrite u64_mul_cancel by (done || lia). unfold b.
  rewrite (xorshift_cancel m1 33) by lia. unfold m1.
  rewrite u64_mul_cancel by (done || lia). apply xorshift_cancel; lia.
Qed.

(** ** Lemmas on the block and tail loops *)

Lemma read32_take key pos :
  0 ≤ pos → pos + 4 ≤ zlen key →
  read_little_endian32 key pos = Some (le_value (take 4 (drop (Z.to_nat pos) key))).
Proof. intros. unfold read_little_endian32. by rewrite mem_read_some by lia. Qed.

Lemma read64_take key pos :
  0 ≤ pos → pos + 8 ≤ zlen key →
  read_little_endian64 key pos = Some (le_value (take 8 (drop (Z.to_nat pos) key))).
Proof. intros. unfold read_little_endian64. by rewrite mem_read_some by lia. Qed.

Lemma x86_32_body_words count i key blocks h1 :
  0 ≤ blocks + 4 * i → blocks + 4 * i + 4 * Z.of_nat count ≤ zlen key →
  x86_32_body count i key blocks h1 =
    Some (foldl mm32_round h1 (words 4 count (drop (Z.to_nat (blocks + 4 * i)) key))).
Proof.
  revert i h1. induction count as [|count IH]; intros i h1 H1 H2; cbn [x86_32_body words foldl];
    [done|].
  unfold getblock32. rewrite read32_take by lia. cbn [mbind option_bind].
  rewrite IH by lia. rewrite drop_drop. do 4 f_equal. lia.
Qed.

Lemma x64_128_body_words count i key h1 h2 :
  0 ≤ i → 16 * i + 16 * Z.of_nat count ≤ zlen key →
  x64_128_body count i key h1 h2 =
    Some (mm64_rounds (words 8 (2 * count) (drop (Z.to_nat (16 * i)) key)) h1 h2).
Proof.
  revert i h1 h2. induction count as [|count IH]; intros i h1 h2 H1 H2; [done|].
  replace (2 * S count)%nat with (S (S (2 * count))) by lia.
  cbn [x64_128_body words mm64_rounds].
  unfold getblock64. rewrite !read64_take by lia. cbn [mbind option_bind].
  rewrite IH by lia. rewrite !drop_drop.
  replace (0 + 8 * (i * 2 + 0)) with (16 * i) by lia.
  replace (Z.to_nat (0 + 8 * (i * 2 + 1))) with (Z.to_nat (16 * i) + 8)%nat by lia.
  replace (Z.to_nat (16 * (i + 1))) with (Z.to_nat (16 * i) + (8 + 8))%nat by lia.
  done.
Qed.

Lemma xor_acc y b j :
  0 ≤ j → 0 ≤ b < 256 → Z.lxor (Z.shiftl y (j + 8)) (Z.shiftl b j) = Z.shiftl (b + 256 * y) j.
Proof.
  intros Hj Hb. rewrite (Z.add_comm j 8), <- Z.shiftl_shiftl, <- Z.shiftl_lxor by lia. f_equal.
  rewrite Z.lxor_comm, lxor_shiftl_add by lia. lia.
Qed.

Lemma xor_tail_hit pre rest lim i sh k b :
  rest !! Z.to_nat i = Some b → 0 ≤ i → lim ≤ zlen rest →
  xor_tail (pre ++ rest) (zlen pre) (zlen rest) lim i sh k = Some (Z.lxor k (Z.shiftl b sh)).
Proof.
  intros Hb Hi Hlim. unfold xor_tail, mem_get. rewrite !decide_True by lia.
  rewrite lookup_app_r by lia.
  replace (Z.to_nat (zlen pre + i) - length pre)%nat with (Z.to_nat i) by lia.
  by rewrite Hb.
Qed.

Lemma xor_tail_miss pre rest lim i sh k :
  zlen rest < lim → xor_tail (pre ++ rest) (zlen pre) (zlen rest) lim i sh k = Some k.
Proof. intros. unfold xor_tail. by rewrite decide_False by lia. Qed.

(** An empty rest scrambles to nothing. *)
Lemma scramble32_0 c1 r c2 : scramble32 0 c1 r c2 = 0.
Proof. unfold scramble32, rotl32. cbn [Z.mul]. by rewrite Z.shiftl_0_l, Z.shiftr_0_l. Qed.

Lemma scramble64_0 c1 r c2 : scramble64 0 c1 r c2 = 0.
Proof. unfold scramble64, rotl64. cbn [Z.mul]. by rewrite Z.shiftl_0_l, Z.shiftr_0_l. Qed.

(** Evaluate a fall-through tail on a rest of known length. *)
Ltac run_tail :=
  repeat (first [ rewrite xor_tail_miss by (cbn; lia)
                | erewrite xor_tail_hit by first [reflexivity | cbn; lia] ];
          cbn [mbind option_bind]);
  rewrite ?Z.lxor_0_l;
  rewrite ?(xor_acc _ _ 48), ?(xor_acc _ _ 40), ?(xor_acc _ _ 32), ?(xor_acc _ _ 24),
    ?(xor_acc _ _ 16), ?(xor_acc _ _ 8), ?(xor_acc _ _ 0) by lia;
  rewrite ?Z.shiftl_0_r; cbn [le_value take drop]; rewrite ?Z.mul_0_r, ?Z.add_0_r; done.

Ltac bytes_of H := rewrite ?bytes_ok_cons in H; unfold byte_ok in H; destruct_and? H.

Lemma x86_32_tail_rest pre rest :
  bytes_ok rest → zlen rest < 4 →
  x86_32_tail (pre ++ rest) (zlen pre) (zlen rest) = Some (le_value rest).
Proof.
  intros Hok Hlen. unfold x86_32_tail.
  destruct rest as [|a [|b [|c [|? ?]]]]; [| | | |cbn in Hlen; lia];
    bytes_of Hok; run_tail.
Qed.

Ltac split_rest H :=
  match type of H with
  | zlen ?r < _ => destruct r as [|? r]; [|first [exfalso; cbn in H; lia | split_rest H]]
  end.

Lemma x64_128_tail_rest pre rest :
  bytes_ok rest → zlen rest < 16 →
  x64_128_tail_k1 (pre ++ rest) (zlen pre) (zlen rest) = Some (le_value (take 8 rest)) ∧
  x64_128_tail_k2 (pre ++ rest) (zlen pre) (zlen rest) = Some (le_value (drop 8 rest)).
Proof.
  intros Hok Hlen. unfold x64_128_tail_k1, x64_128_tail_k2.
  do 16 (destruct rest as [|? rest]; [bytes_of Hok; split; run_tail|]).
  cbn in Hlen. lia.
Qed.

(** ** Properties *)

Lemma div_quot_nat (key : list Z) d :
  0 < d → zlen key ÷ d = Z.of_nat (length key / Z.to_nat d).
Proof. intros. rewrite Z.quot_div_nonneg, Nat2Z.inj_div, Z2Nat.id by lia. done. Qed.

Lemma rest_split (key : list Z) (d : nat) :
  (0 < d)%nat →
  key = take (d * (length key / d)) key ++ drop (d * (length key / d)) key ∧
  length (take (d * (length key / d)) key) = (d * (length key / d))%nat ∧
  length (drop (d * (length key / d)) key) = (length key mod d)%nat ∧
  (length key mod d < d)%nat ∧ (d * (length key / d) ≤ length key)%nat.
Proof.
  intros Hd. pose proof (Nat.div_mod_eq (length key) d).
  pose proof (Nat.mod_upper_bound (length key) d).
  rewrite length_take, length_drop, take_drop. split_and!; [done|lia..].
Qed.

Lemma murmur32_matches key seed :
  bytes_ok key → zlen key < 2 ^ 31 →
  murmurhash32_hash key (zlen key) seed = Some (murmur32_reference key seed).
Proof.
  intros Hok Hlen. unfold murmurhash32_hash. rewrite s32_id by lia.
  unfold MurmurHash3_x86_32, murmur32_reference. rewrite (div_quot_nat key 4) by lia.
  change (Z.to_nat 4) with 4%nat.
  destruct (rest_split key 4) as (Hkey & Hpre & Hrest & Hlt & Hle); [lia|].
  set (n := (length key / 4)%nat) in *. rewrite decide_False by lia.
  rewrite Nat2Z.id, x86_32_body_words by lia.
  replace (Z.to_nat (Z.of_nat n * 4 + 4 * - Z.of_nat n)) with 0%nat by lia.
  rewrite drop_0. cbn [mbind option_bind].
  assert (Z.land (zlen key) 3 = zlen (drop (4 * n) key)) as Hland.
  { rewrite (Z.land_ones _ 2), Hrest by lia. by rewrite Nat2Z.inj_mod. }
  rewrite Hland. replace (Z.of_nat n * 4) with (zlen (take (4 * n) key)) by lia.
  assert (Ht := x86_32_tail_rest (take (4 * n) key) (drop (4 * n) key)).
  rewrite <- Hkey in Ht. rewrite Ht by (eauto with sparkey; lia).
  cbn [mbind option_bind]. rewrite u32_id by lia. do 3 f_equal.
  case_decide as Hn; [done|].
  destruct (drop (4 * n) key); [|cbn in Hn; lia]. cbn [le_value].
  by rewrite scramble32_0, Z.lxor_0_r.
Qed.

Lemma murmur64_matches key seed :
  bytes_ok key → zlen key < 2 ^ 31 →
  murmurhash64_hash key (zlen key) seed = Some (murmur64_reference key seed).
Proof.
  intros Hok Hlen. unfold murmurhash64_hash. rewrite s32_id by lia.
  unfold MurmurHash3_x64_128, murmur64_reference. rewrite (div_quot_nat key 16) by lia.
  change (Z.to_nat 16) with 16%nat.
  destruct (rest_split key 16) as (Hkey & Hpre & Hrest & Hlt & Hle); [lia|].
  set (n := (length key / 16)%nat) in *.
  rewrite Nat2Z.id, x64_128_body_words by lia.
  change (Z.to_nat (16 * 0)) with 0%nat. rewrite drop_0. cbn [mbind option_bind].
  destruct (mm64_rounds (words 8 (2 * n) key) seed seed) as [h1 h2].
  assert (Z.land (zlen key) 15 = zlen (drop (16 * n) key)) as Hland.
  { rewrite (Z.land_ones _ 4), Hrest by lia. by rewrite Nat2Z.inj_mod. }
  rewrite Hland. replace (Z.of_nat n * 16) with (zlen (take (16 * n) key)) by lia.
  destruct (x64_128_tail_rest (take (16 * n) key) (drop (16 * n) key)) as [Ht1 Ht2];
    [by eauto with sparkey|lia|].
  rewrite <- Hkey in Ht1, Ht2. rewrite Ht1, Ht2. cbn [mbind option_bind fmap option_map option_fmap fst].
  rewrite (u64_id (zlen key)) by lia.

  set (rest := drop (16 * n) key) in *.
  assert ((if decide (9 ≤ zlen rest) then Z.lxor h2 (scramble64 (le_value (drop 8 rest)) x64_c2 33 x64_c1) else h2)
          = Z.lxor h2 (scramble64 (le_value (drop 8 rest)) x64_c2 33 x64_c1)) as ->.
  { case_decide; [done|]. rewrite drop_ge by lia. cbn [le_value]. by rewrite scramble64_0, Z.lxor_0_r. }
  assert ((if decide (1 ≤ zlen rest) then Z.lxor h1 (scramble64 (le_value (take 8 rest)) x64_c1 31 x64_c2) else h1)
          = Z.lxor h1 (scramble64 (le_value (take 8 rest)) x64_c1 31 x64_c2)) as ->.
  { case_decide; [done|]. destruct rest; [|cbn in *; lia]. cbn [take le_value].
    by rewrite scramble64_0, Z.lxor_0_r. }
  done.
Qed.

(** C22. The two hash functions of the library compute, for every key whose length
    fits an int, the reference fold over the key's little endian words. *)
Theorem murmur_matches_reference key seed :
  bytes_ok key → zlen key < 2 ^ 31 →
  murmurhash32_hash key (zlen key) seed = Some (murmur32_reference key seed) ∧
  murmurhash64_hash key (zlen key) seed = Some (murmur64_reference key seed).
Proof. split; [by apply murmur32_matches|by apply murmur64_matches]. Qed.

Lemma murmur_matches_reference_witness :
  let key := [82; 76; 72] in
  murmurhash32_hash key (zlen key) 0x20132ae9 = Some 0x4d7530a2 ∧
  murmurhash64_hash key (zlen key) 0x20132ae9 = Some 0x05a626d6bbab60f1.
Proof.
  intros key.
  destruct (murmur_matches_reference [82; 76; 72] 0x20132ae9) as [H1 H2];
    [repeat constructor; unfold byte_ok; lia|cbn; lia|].
  unfold key. split; [rewrite H1|rewrite H2]; by vm_compute.
Defined.

(** The finalizers are bijections on 32 and 64 bit words, so the final mix
    loses nothing of the state. *)
Theorem fmix_bijective h k :
  0 ≤ h < 2 ^ 32 → 0 ≤ k < 2 ^ 64 →
  fmix32_inverse (fmix32 h) = h ∧ fmix32 (fmix32_inverse h) = h ∧
  fmix64_inverse (fmix64 k) = k ∧ fmix64 (fmix64_inverse k) = k.
Proof.
  intros. split_and!;
    [by apply fmix32_left|by apply fmix32_right|by apply fmix64_left|by apply fmix64_right].
Qed.

Lemma fmix_bijective_witness :
  fmix32_inverse (fmix32 12345) = 12345 ∧ fmix64_inverse (fmix64 12345) = 12345.
Proof.
  destruct (fmix_bijective 12345 12345) as (H1 & _ & H2 & _); [lia|lia|]. by split.
Defined.

Lemma murmur32_range key seed :
  0 ≤ murmur32_reference key seed < 2 ^ 32.
Proof. apply fmix32_range. Qed.

Lemma murmur64_range key seed :
  0 ≤ murmur64_reference key seed < 2 ^ 64.
Proof. unfold murmur64_reference. destruct (mm64_rounds _ _ _). apply u64_range. Qed.
