(* ===== verification/HashAlg.v ===== *)
(** * Hash algorithms and slot addresses (hashalgorithms.c, hashheader.h)

    The table of hash functions selected by the hash size, the encoding of a
    slot's address, and the displacement of a slot. *)

From stdpp Require Import base gmap list strings numbers.
From Stdlib Require Import ZArith Lia.
From S2P Require Import Prelude Endian Murmur.

Local Open Scope Z_scope.

(** ** Definitions *)

(** [hash] is [None] when the pointer is NULL; [read_hash] and [write_hash] are
    [None] on a read outside the table or through a NULL pointer. *)
Record sparkey_hash_algorithm : Type := HashAlgorithm {
  ha_hash : option (list Z → Z → Z → option Z);
  ha_read_hash : list Z → Z → option Z;
  ha_write_hash : Z → option (list Z)
}.

Definition murmurhash32 : sparkey_hash_algorithm :=
  HashAlgorithm (Some murmurhash32_hash) read_little_endian32
    (λ h, Some (write_little_endian32 h)).

Definition murmurhash64 : sparkey_hash_algorithm :=
  HashAlgorithm (Some murmurhash64_hash) read_little_endian64
    (λ h, Some (write_little_endian64 h)).

Definition invalid : sparkey_hash_algorithm :=
  HashAlgorithm None (λ _ _, None) (λ _, None).

Definition sparkey_get_hash_algorithm (hash_size : Z) : sparkey_hash_algorithm :=
  if decide (hash_size = 4) then murmurhash32
  else if decide (hash_size = 8) then murmurhash64
  else invalid.

(** The [%] of C, which is undefined for a table without slots: a header with that
    capacity passes the checks of the loader. *)
Definition c_remainder (a b : Z) : option Z := if decide (b = 0) then None else Some (a mod b).

Lemma c_remainder_pos a b : 0 < b → c_remainder a b = Some (a mod b).
Proof. intros Hb. unfold c_remainder. by rewrite decide_False by lia. Qed.

(** Callers have found a slot, so the capacity is not zero. *)
Definition get_displacement (capacity slot hash : Z) : Z :=
  let wanted_slot := hash mod capacity in
  u64 (capacity + u64 (slot - wanted_slot)) mod capacity.

Definition read_addr (hashtable : list Z) (pos address_size : Z) : option Z :=
  if decide (address_size = 4) then read_little_endian32 hashtable pos
  else if decide (address_size = 8) then read_little_endian64 hashtable pos
  else Some (u64 (-1)).

(** The bytes [write_addr] stores. *)
Definition write_addr (value address_size : Z) : list Z :=
  if decide (address_size = 4) then write_little_endian32 value
  else if decide (address_size = 8) then write_little_endian64 value
  else [].

(** ** Lemmas *)

(** The largest value a field of [size] bytes holds, plus one. *)
Definition field_limit (size : Z) : Z := 2 ^ (8 * size).

Definition valid_size (size : Z) : Prop := size = 4 ∨ size = 8.

Lemma get_displacement_range capacity slot hash :
  0 < capacity → 0 ≤ get_displacement capacity slot hash < capacity.
Proof. intros. apply Z.mod_pos_bound. lia. Qed.

(** Without overflow the displacement is the circular distance from the wanted
    slot to the slot. *)
Lemma get_displacement_eq capacity slot hash :
  0 < capacity ≤ 2 ^ 63 → 0 ≤ slot < capacity →
  get_displacement capacity slot hash = (slot - hash) mod capacity.
Proof.
  intros Hc Hs. unfold get_displacement.
  pose proof (Z.mod_pos_bound hash capacity). set (w := hash mod capacity) in *.
  assert (u64 (capacity + u64 (slot - w)) = capacity + (slot - w)) as ->.
  { unfold u64. rewrite Z.add_mod_idemp_r by lia. apply Z.mod_small. lia. }
  replace (capacity + (slot - w)) with (slot - w + 1 * capacity) by lia.
  rewrite Z_mod_plus_full. unfold w. by rewrite Zminus_mod_idemp_r.
Qed.

Lemma write_addr_length v size : valid_size size → zlen (write_addr v size) = size.
Proof. intros [-> | ->]; done. Qed.

Lemma write_addr_ok v size : bytes_ok (write_addr v size).
Proof. unfold write_addr. repeat case_decide; eauto with sparkey. by constructor. Qed.

Lemma read_write_addr size v arr pos :
  valid_size size → 0 ≤ v < field_limit size →
  mem_read arr pos size = Some (write_addr v size) → read_addr arr pos size = Some v.
Proof.
  unfold read_addr, write_addr, read_little_endian32, read_little_endian64, field_limit.
  intros [-> | ->] Hv Hr.
  - rewrite !decide_True in * by done. rewrite Hr. cbn [fmap option_fmap option_map].
    by rewrite le_value_write32, u32_id by lia.
  - rewrite !(decide_False (P := 8 = 4)), !decide_True in * by done. rewrite Hr.
    cbn [fmap option_fmap option_map]. by rewrite le_value_write64, u64_id by lia.
Qed.

(** The hash field is encoded as the address field is. *)
Lemma write_hash_addr size h :
  valid_size size → ha_write_hash (sparkey_get_hash_algorithm size) h = Some (write_addr h size).
Proof. intros [-> | ->]; done. Qed.

Lemma read_hash_addr size arr pos :
  valid_size size → ha_read_hash (sparkey_get_hash_algorithm size) arr pos = read_addr arr pos size.
Proof. intros [-> | ->]; done. Qed.

Lemma hash_algorithm_null size :
  ha_hash (sparkey_get_hash_algorithm size) = None ↔ ¬ valid_size size.
Proof.
  unfold sparkey_get_hash_algorithm, valid_size. repeat case_decide; split; intros; try done; lia.
Qed.

(** The hash of a key under the algorithm of a size, by the reference. *)
Definition key_hash (size seed : Z) (key : list Z) : Z :=
  if decide (size = 4) then murmur32_reference key seed else murmur64_reference key seed.

Lemma key_hash_range size seed key :
  valid_size size → 0 ≤ key_hash size seed key < field_limit size.
Proof.
  intros [-> | ->]; [apply murmur32_range | apply murmur64_range].
Qed.

Lemma hash_algorithm_hash size seed key :
  valid_size size → bytes_ok key → zlen key < 2 ^ 31 →
  ∃ f, ha_hash (sparkey_get_hash_algorithm size) = Some f ∧
       f key (zlen key) seed = Some (key_hash size seed key).
Proof.
  intros [-> | ->] Hok Hlen; eexists; (split; [done|]);
    [by apply murmur32_matches|by apply murmur64_matches].
Qed.
