(* ===== verification/Vlq.v ===== *)
(** * Variable length quantities (write_vlq of logwriter.c, read_vlq of
      logreader.c, unsigned_vlq_size of hashwriter.c)

    Seven bits to a byte, least significant group first, the high bit set on
    every byte but the last. *)

From stdpp Require Import base gmap list strings numbers.
From Stdlib Require Import ZArith Lia.
From S2P Require Import Prelude.

Local Open Scope Z_scope.

(** ** Definitions *)

(** The bytes [write_vlq] stores, whose number it returns.  A 64 bit value
    takes at most ten groups, so ten rounds of fuel are enough. *)
Fixpoint write_vlq_loop (fuel : nat) (value : Z) : list Z :=
  match fuel with
  | O => []
  | S fuel =>
      if decide (value >= Z.shiftl 1 7)
      then Z.lor (Z.land value 0x7f) 0x80 :: write_vlq_loop fuel (Z.shiftr value 7)
      else [value]
  end.

Definition write_vlq (value : Z) : list Z := write_vlq_loop 10 value.

(** [read_vlq(array, &position)]: the value and the new position.  [None] is a
    read outside the array, or an eleventh group, whose shift by 70 is
    undefined in C. *)
Fixpoint read_vlq_loop (fuel : nat) (array : list Z) (position res shift : Z)
    : option (Z * Z) :=
  match fuel with
  | O => None
  | S fuel =>
      tmp ← mem_get array position;
      let tmp2 := Z.land tmp 0x7f in
      if decide (tmp = tmp2)
      then Some (Z.lor res (u64 (Z.shiftl tmp shift)), position + 1)
      else read_vlq_loop fuel array (position + 1)
             (Z.lor res (u64 (Z.shiftl tmp2 shift))) (shift + 7)
  end.

Definition read_vlq (array : list Z) (position : Z) : option (Z * Z) :=
  read_vlq_loop 10 array position 0 0.

Definition unsigned_vlq_size (value : Z) : Z :=
  if decide (value < Z.shiftl 1 7) then 1
  else if decide (value < Z.shiftl 1 14) then 2
  else if decide (value < Z.shiftl 1 21) then 3
  else if decide (value < Z.shiftl 1 28) then 4
  else if decide (value < Z.shiftl 1 35) then 5
  else if decide (value < Z.shiftl 1 42) then 6
  else if decide (value < Z.shiftl 1 49) then 7
  else if decide (value < Z.shiftl 1 56) then 8
  else if decide (value < Z.shiftl 1 63) then 9
  else 10.

(** The values testvlq.c checks. *)
Example vlq_sizes :
  map (λ v, zlen (write_vlq v)) [0; 127; 128; 16383; 16384; 2097151; 2097152]
  = [1; 1; 2; 2; 3; 3; 4].
Proof. by vm_compute. Qed.

(** ** Lemmas *)

Lemma mem_get_app pre x l : mem_get (pre ++ x :: l) (zlen pre) = Some x.
Proof.
  unfold mem_get. rewrite decide_True by lia.
  rewrite Nat2Z.id, lookup_app_r by lia. by rewrite Nat.sub_diag.
Qed.

Lemma low7 v : Z.land v 0x7f = v mod 128.
Proof. change 0x7f with (Z.ones 7). by rewrite Z.land_ones by lia. Qed.

Lemma group_byte v : 0 ≤ v → Z.lor (Z.land v 0x7f) 0x80 = v mod 128 + 128.
Proof.
  intros. rewrite low7. pose proof (Z.mod_pos_bound v 128).
  apply (lor_shiftl_add 1 (v mod 128) 7); lia.
Qed.

Lemma write_vlq_loop_ok fuel v : 0 ≤ v → bytes_ok (write_vlq_loop fuel v).
Proof.
  revert v. induction fuel as [|fuel IH]; intros v Hv; cbn [write_vlq_loop]; [by constructor|].
  change (Z.shiftl 1 7) with 128. case_decide; (constructor; [|]).
  - rewrite group_byte by lia. pose proof (Z.mod_pos_bound v 128). unfold byte_ok. lia.
  - apply IH. by apply Z.shiftr_nonneg.
  - unfold byte_ok. lia.
  - by constructor.
Qed.

Lemma write_vlq_ok v : 0 ≤ v → bytes_ok (write_vlq v).
Proof. apply write_vlq_loop_ok. Qed.

#[export] Hint Resolve write_vlq_ok : sparkey.

(** Reading resumes at any group: what was read so far is below the shift. *)
Lemma read_write_vlq_loop fuel pre v post res shift :
  (0 < fuel)%nat →
  0 ≤ v → 0 ≤ shift → v * 2 ^ shift < 2 ^ 64 → v < 2 ^ (7 * Z.of_nat fuel) →
  0 ≤ res < 2 ^ shift →
  read_vlq_loop fuel (pre ++ write_vlq_loop fuel v ++ post) (zlen pre) res shift =
    Some (res + v * 2 ^ shift, zlen pre + zlen (write_vlq_loop fuel v)).
Proof.
  revert pre v res shift. induction fuel as [|fuel IH]; intros pre v res shift Hf Hv Hsh Hbound Hfuel Hres;
    [lia|].
  cbn [write_vlq_loop read_vlq_loop]. change (Z.shiftl 1 7) with 128.
  assert (Hlor : ∀ x, 0 ≤ x → x * 2 ^ shift < 2 ^ 64 →
            Z.lor res (u64 (Z.shiftl x shift)) = res + x * 2 ^ shift).
  { intros x Hx Hxb. pose proof (Z.mul_nonneg_nonneg x (2 ^ shift)).
    pose proof (Z.pow_nonneg 2 shift).
    rewrite u64_id by (rewrite Z.shiftl_mul_pow2 by lia; lia). apply lor_shiftl_add; lia. }
  case_decide as Hbig.
  - rewrite <- app_comm_cons, mem_get_app. cbn [mbind option_bind].
    rewrite group_byte by lia. pose proof (Z.mod_pos_bound v 128).
    rewrite low7. replace ((v mod 128 + 128) mod 128) with (v mod 128)
      by (rewrite <- Zplus_mod_idemp_r, Z_mod_same_full, Z.add_0_r, Zmod_mod; done).
    rewrite decide_False by lia.
    pose proof (Z.pow_pos_nonneg 2 shift). pose proof (Z.div_mod v 128).
    assert (v mod 128 * 2 ^ shift ≤ v * 2 ^ shift) by (apply Z.mul_le_mono_nonneg_r; lia).
    rewrite Hlor by lia.
    change (Z.shiftr v 7) with (Z.shiftr v 7). rewrite Z.shiftr_div_pow2 by lia.
    change (2 ^ 7) with 128.
    set (b := v mod 128 + 128).
    replace (pre ++ b :: write_vlq_loop fuel (v / 128) ++ post)
      with ((pre ++ [b]) ++ write_vlq_loop fuel (v / 128) ++ post) by (by rewrite <- app_assoc).
    replace (zlen pre + 1) with (zlen (pre ++ [b])) by (rewrite length_app; cbn; lia).
    rewrite IH; rewrite ?Z.pow_add_r by lia; change (2 ^ 7) with 128.
    + f_equal. f_equal; [lia|]. rewrite length_app. cbn [length]. lia.
    + destruct fuel; [cbn in Hfuel; lia|lia].
    + apply Z.div_pos; lia.
    + lia.
    + nia.
    + apply Z.div_lt_upper_bound; [lia|].
      replace (7 * Z.of_nat (S fuel)) with (7 + 7 * Z.of_nat fuel) in Hfuel by lia.
      rewrite Z.pow_add_r in Hfuel by lia. lia.
    + nia.
  - cbn [app]. rewrite mem_get_app. cbn [mbind option_bind].
    rewrite low7, Z.mod_small by lia. rewrite decide_True by done.
    rewrite Hlor by lia. done.
Qed.

Lemma write_vlq_loop_size fuel v n :
  0 ≤ v < 2 ^ (7 * n) → (n = 1 ∨ 2 ^ (7 * (n - 1)) ≤ v) → 1 ≤ n ≤ Z.of_nat fuel →
  zlen (write_vlq_loop fuel v) = n.
Proof.
  revert v n. induction fuel as [|fuel IH]; intros v n Hv Hlow Hn; [lia|].
  cbn [write_vlq_loop]. change (Z.shiftl 1 7) with 128. case_decide as Hbig.
  - assert (n ≠ 1) by (intros ->; cbn in Hv; lia).
    cbn [length]. rewrite Nat2Z.inj_succ, Z.shiftr_div_pow2 by lia. change (2 ^ 7) with 128.
    rewrite (IH (v / 128) (n - 1)); [lia| | |lia].
    + split; [apply Z.div_pos; lia|]. apply Z.div_lt_upper_bound; [lia|].
      change 128 with (2 ^ 7). rewrite <- Z.pow_add_r by lia.
      replace (7 + 7 * (n - 1)) with (7 * n) by lia. lia.
    + destruct (decide (n = 2)) as [->|]; [by left|right].
      apply Z.div_le_lower_bound; [lia|].
      change 128 with (2 ^ 7). rewrite <- Z.pow_add_r by lia.
      replace (7 + 7 * (n - 1 - 1)) with (7 * (n - 1)) by lia. lia.
  - cbn [length]. destruct Hlow as [->|Hlow]; [done|].
    destruct (decide (n = 1)) as [->|]; [done|].
    assert (2 ^ 7 ≤ 2 ^ (7 * (n - 1))) by (apply Z.pow_le_mono_r; lia). lia.
Qed.

(** The size function gives the number of bytes written. *)
Lemma unsigned_vlq_size_spec v :
  0 ≤ v < 2 ^ 64 → zlen (write_vlq v) = unsigned_vlq_size v.
Proof.
  intros Hv. unfold write_vlq, unsigned_vlq_size.
  rewrite !Z.shiftl_1_l.
  repeat (case_decide; [apply write_vlq_loop_size; lia|]).
  apply write_vlq_loop_size; lia.
Qed.

Lemma write_vlq_bounds v : 0 ≤ v < 2 ^ 64 → 1 ≤ zlen (write_vlq v) ≤ 10.
Proof.
  intros Hv. rewrite unsigned_vlq_size_spec by done. unfold unsigned_vlq_size.
  repeat case_decide; lia.
Qed.

Lemma read_vlq_app pre v post :
  0 ≤ v < 2 ^ 64 →
  read_vlq (pre ++ write_vlq v ++ post) (zlen pre) = Some (v, zlen pre + zlen (write_vlq v)).
Proof.
  intros Hv. unfold read_vlq, write_vlq. rewrite read_write_vlq_loop by lia.
  by rewrite Z.mul_1_r, Z.add_0_l.
Qed.

(** ** Properties *)

(** C27. Reading back a written quantity, wherever it stands in the data, gives the
    value and moves past exactly the bytes written, whose number is what
    [unsigned_vlq_size] predicts and never more than the ten byte buffers of
    the writer hold. *)
Theorem vlq_roundtrip pre v post :
  0 ≤ v < 2 ^ 64 →
  read_vlq (pre ++ write_vlq v ++ post) (zlen pre) = Some (v, zlen pre + unsigned_vlq_size v) ∧
  zlen (write_vlq v) = unsigned_vlq_size v ∧ 1 ≤ unsigned_vlq_size v ≤ 10.
Proof.
  intros Hv. rewrite <- unsigned_vlq_size_spec by done.
  split; [by apply read_vlq_app|]. split; [done|]. by apply write_vlq_bounds.
Qed.

Lemma vlq_roundtrip_witness :
  read_vlq ([7] ++ write_vlq (2 ^ 64 - 1) ++ [1; 2]) (zlen [7]) =
    Some (2 ^ 64 - 1, zlen [7] + unsigned_vlq_size (2 ^ 64 - 1)).
Proof. apply (vlq_roundtrip [7] (2 ^ 64 - 1) [1; 2]). lia. Defined.
