(* ===== verification/LogHeader.v ===== *)
(** * The log header (logheader.h, logheader.c)

    The header record, its writer and its loader with the magic, version and
    consistency checks.  The loader and the writer are inverse to each other on
    consistent headers, and the loader accepts nothing else. *)

From stdpp Require Import base gmap list strings numbers.
From Stdlib Require Import ZArith Lia.
From S2P Require Import Prelude ReturnCodes Endian OS.

Local Open Scope Z_scope.

(** ** Definitions *)

Definition LOG_MAGIC_NUMBER : Z := 0x49b39c95.
Definition LOG_MAJOR_VERSION : Z := 1.
Definition LOG_MINOR_VERSION : Z := 0.
Definition LOG_HEADER_SIZE : Z := 84.

(** [sparkey_compression_type] is read from the file as a 32 bit value. *)
Definition SPARKEY_COMPRESSION_NONE : Z := 0.
Definition SPARKEY_COMPRESSION_SNAPPY : Z := 1.
Definition SPARKEY_COMPRESSION_ZSTD : Z := 2.

Record sparkey_logheader : Type := LogHeader {
  lh_major_version : Z;
  lh_minor_version : Z;
  lh_file_identifier : Z;
  lh_num_puts : Z;
  lh_num_deletes : Z;
  lh_data_end : Z;
  lh_max_key_len : Z;
  lh_max_value_len : Z;
  lh_delete_size : Z;
  lh_compression_type : Z;
  lh_compression_block_size : Z;
  lh_put_size : Z;
  lh_header_size : Z;
  lh_max_entries_per_block : Z
}.

(** The consistency checks at the end of [logheader_version0]. *)
Definition logheader_checks (header : sparkey_logheader) : option returncode :=
  if decide (lh_data_end header < lh_header_size header) then Some SPARKEY_LOG_HEADER_CORRUPT
  else if decide (lh_num_puts header > lh_data_end header) then Some SPARKEY_LOG_HEADER_CORRUPT
  else if decide (lh_num_deletes header > lh_data_end header)
  then Some SPARKEY_LOG_HEADER_CORRUPT
  else if decide (lh_compression_type header > SPARKEY_COMPRESSION_ZSTD)
  then Some SPARKEY_LOG_HEADER_CORRUPT
  else None.

Definition logheader_version0 (major minor fp : Z) : MC os sparkey_logheader :=
  file_identifier ← fread_little_endian32 fp;
  num_puts ← fread_little_endian64 fp;
  num_deletes ← fread_little_endian64 fp;
  data_end ← fread_little_endian64 fp;
  max_key_len ← fread_little_endian64 fp;
  max_value_len ← fread_little_endian64 fp;
  delete_size ← fread_little_endian64 fp;
  compression_type ← fread_little_endian32 fp;
  compression_block_size ← fread_little_endian32 fp;
  put_size ← fread_little_endian64 fp;
  max_entries_per_block ← fread_little_endian32 fp;
  let header := LogHeader major minor file_identifier num_puts num_deletes data_end
    max_key_len max_value_len delete_size compression_type compression_block_size
    put_size LOG_HEADER_SIZE max_entries_per_block in
  match logheader_checks header with
  | Some e => fail e
  | None => mret header
  end.

(** The early returns of the three reads before the loader do not close the
    file; every other path does. *)
Definition sparkey_load_logheader (filename : string) : MC os sparkey_logheader :=
  r ← sys_open filename;
  match r with
  | inl e => fail (sparkey_open_returncode e)
  | inr fp =>
      tmp ← fread_little_endian32 fp;
      if decide (tmp ≠ LOG_MAGIC_NUMBER)
      then closing fp (fail SPARKEY_WRONG_LOG_MAGIC_NUMBER) else
      major_version ← fread_little_endian32 fp;
      if decide (major_version ≠ LOG_MAJOR_VERSION)
      then closing fp (fail SPARKEY_WRONG_LOG_MAJOR_VERSION) else
      minor_version ← fread_little_endian32 fp;
      if decide (minor_version > LOG_MINOR_VERSION)
      then closing fp (fail SPARKEY_UNSUPPORTED_LOG_MINOR_VERSION) else
      closing fp (logheader_version0 major_version minor_version fp)
  end.

Definition write_logheader (fd : Z) (header : sparkey_logheader) : MC os unit :=
  _ ← fwrite_little_endian32 fd LOG_MAGIC_NUMBER;
  _ ← fwrite_little_endian32 fd LOG_MAJOR_VERSION;
  _ ← fwrite_little_endian32 fd LOG_MINOR_VERSION;
  _ ← fwrite_little_endian32 fd (lh_file_identifier header);
  _ ← fwrite_little_endian64 fd (lh_num_puts header);
  _ ← fwrite_little_endian64 fd (lh_num_deletes header);
  _ ← fwrite_little_endian64 fd (lh_data_end header);
  _ ← fwrite_little_endian64 fd (lh_max_key_len header);
  _ ← fwrite_little_endian64 fd (lh_max_value_len header);
  _ ← fwrite_little_endian64 fd (lh_delete_size header);
  _ ← fwrite_little_endian32 fd (lh_compression_type header);
  _ ← fwrite_little_endian32 fd (lh_compression_block_size header);
  _ ← fwrite_little_endian64 fd (lh_put_size header);
  _ ← fwrite_little_endian32 fd (lh_max_entries_per_block header);
  mret tt.

(** *** The header as bytes *)

Definition logheader_body (h : sparkey_logheader) : list Z :=
  write_little_endian32 (lh_file_identifier h) ++
  write_little_endian64 (lh_num_puts h) ++
  write_little_endian64 (lh_num_deletes h) ++
  write_little_endian64 (lh_data_end h) ++
  write_little_endian64 (lh_max_key_len h) ++
  write_little_endian64 (lh_max_value_len h) ++
  write_little_endian64 (lh_delete_size h) ++
  write_little_endian32 (lh_compression_type h) ++
  write_little_endian32 (lh_compression_block_size h) ++
  write_little_endian64 (lh_put_size h) ++
  write_little_endian32 (lh_max_entries_per_block h) ++ [].

Definition logheader_bytes (h : sparkey_logheader) : list Z :=
  write_little_endian32 LOG_MAGIC_NUMBER ++ write_little_endian32 LOG_MAJOR_VERSION ++
  write_little_endian32 LOG_MINOR_VERSION ++ logheader_body h.

(** Every field fits its C type. *)
Definition logheader_typed (h : sparkey_logheader) : Prop :=
  0 ≤ lh_file_identifier h < 2 ^ 32 ∧ 0 ≤ lh_num_puts h < 2 ^ 64 ∧
  0 ≤ lh_num_deletes h < 2 ^ 64 ∧ 0 ≤ lh_data_end h < 2 ^ 64 ∧
  0 ≤ lh_max_key_len h < 2 ^ 64 ∧ 0 ≤ lh_max_value_len h < 2 ^ 64 ∧
  0 ≤ lh_delete_size h < 2 ^ 64 ∧ 0 ≤ lh_compression_type h < 2 ^ 32 ∧
  0 ≤ lh_compression_block_size h < 2 ^ 32 ∧ 0 ≤ lh_put_size h < 2 ^ 64 ∧
  0 ≤ lh_max_entries_per_block h < 2 ^ 32.

(** What the loader accepts. *)
Definition logheader_valid (h : sparkey_logheader) : Prop :=
  lh_major_version h = LOG_MAJOR_VERSION ∧ lh_minor_version h = LOG_MINOR_VERSION ∧
  lh_header_size h = LOG_HEADER_SIZE ∧
  LOG_HEADER_SIZE ≤ lh_data_end h ∧ lh_num_puts h ≤ lh_data_end h ∧
  lh_num_deletes h ≤ lh_data_end h ∧ lh_compression_type h ≤ SPARKEY_COMPRESSION_ZSTD.

(** ** Lemmas *)

Lemma logheader_bytes_length h : zlen (logheader_bytes h) = LOG_HEADER_SIZE.
Proof. done. Qed.

Lemma logheader_bytes_ok h : bytes_ok (logheader_bytes h).
Proof.
  unfold logheader_bytes, logheader_body. rewrite !bytes_ok_app.
  split_and!; eauto with sparkey. by constructor.
Qed.

Lemma logheader_checks_valid h :
  lh_major_version h = LOG_MAJOR_VERSION → lh_minor_version h = LOG_MINOR_VERSION →
  lh_header_size h = LOG_HEADER_SIZE →
  (logheader_checks h = None ↔ logheader_valid h) ∧
  (¬ logheader_valid h → logheader_checks h = Some SPARKEY_LOG_HEADER_CORRUPT).
Proof.
  intros ? ? Hs. unfold logheader_checks. rewrite Hs.
  assert (Hv : logheader_valid h ↔ LOG_HEADER_SIZE ≤ lh_data_end h ∧
    lh_num_puts h ≤ lh_data_end h ∧ lh_num_deletes h ≤ lh_data_end h ∧
    lh_compression_type h ≤ SPARKEY_COMPRESSION_ZSTD).
  { unfold logheader_valid. tauto. }
  rewrite Hv. repeat case_decide; (split; [split|]); intros; try done; try lia.
Qed.

Lemma writes_logheader fd h : writes fd (write_logheader fd h) (logheader_bytes h).
Proof.
  unfold write_logheader, logheader_bytes, logheader_body.
  solve_writes.
Qed.

(** The body of the header is read back field by field, then checked. *)
Lemma parses_logheader_version0 fp h :
  logheader_typed h → lh_header_size h = LOG_HEADER_SIZE →
  parses fp (logheader_version0 (lh_major_version h) (lh_minor_version h) fp)
    (logheader_body h)
    match logheader_checks h with Some e => Err e | None => Ok h end.
Proof.
  destruct h as [maj min fid np nd de mk mv ds ct cbs ps hs me]. unfold logheader_typed. cbn.
  intros (?&?&?&?&?&?&?&?&?&?&?) ->.
  unfold logheader_version0, logheader_body.
  cbn [lh_file_identifier lh_num_puts lh_num_deletes lh_data_end lh_max_key_len
    lh_max_value_len lh_delete_size lh_compression_type lh_compression_block_size
    lh_put_size lh_max_entries_per_block lh_major_version lh_minor_version].
  solve_parses.
  case_match; [apply parses_fail | apply parses_ret].
Qed.

(** What the loader returns on a file that is long enough. *)
Definition load_logheader_result (magic : Z) (h : sparkey_logheader) : res returncode sparkey_logheader :=
  if decide (magic ≠ LOG_MAGIC_NUMBER) then Err SPARKEY_WRONG_LOG_MAGIC_NUMBER
  else if decide (lh_major_version h ≠ LOG_MAJOR_VERSION)
  then Err SPARKEY_WRONG_LOG_MAJOR_VERSION
  else if decide (lh_minor_version h > LOG_MINOR_VERSION)
  then Err SPARKEY_UNSUPPORTED_LOG_MINOR_VERSION
  else match logheader_checks h with Some e => Err e | None => Ok h end.

Lemma load_logheader_run o name magic h rest :
  has_file o name (write_little_endian32 magic ++ write_little_endian32 (lh_major_version h) ++
                   write_little_endian32 (lh_minor_version h) ++ logheader_body h ++ rest) →
  0 ≤ magic < 2 ^ 32 → 0 ≤ lh_major_version h < 2 ^ 32 → 0 ≤ lh_minor_version h < 2 ^ 32 →
  logheader_typed h → lh_header_size h = LOG_HEADER_SIZE →
  sparkey_load_logheader name o = (load_logheader_result magic h, opened o).
Proof.
  intros Hf Hmg Hmaj Hmin Ht Hs.
  destruct (sys_open_run _ _ _ Hf) as (ino & _ & Hr & Hfd & Hopen).
  unfold sparkey_load_logheader. rewrite (bind_Ok _ _ _ _ _ Hopen). cbn beta iota.
  set (fp := os_next_fd o) in *.
  set (c := write_little_endian32 magic ++ _) in *.
  pose proof (read_word_run fp _ ino c Hr) as H32.
  unfold load_logheader_result.
  erewrite bind_Ok; [|eapply (H32 [] magic); [done|reflexivity]]. cbn beta iota.
  case_decide; [by eapply closing_run|].
  erewrite bind_Ok; [|eapply (H32 (write_little_endian32 magic)); [exact Hmaj|reflexivity]].
  case_decide; [by eapply closing_run|].
  erewrite bind_Ok; [|eapply (H32 (write_little_endian32 magic ++ write_little_endian32 _));
    [exact Hmin|by rewrite <- app_assoc]].
  case_decide; [by eapply closing_run|].
  eapply closing_run; [|done].
  eapply (parses_logheader_version0 fp h Ht Hs); [done|lia|].
  change (Z.to_nat _) with (length (write_little_endian32 magic ++
    write_little_endian32 (lh_major_version h) ++ write_little_endian32 (lh_minor_version h))).
  unfold c. rewrite !app_assoc, <- (app_assoc _ (logheader_body h)), drop_app_length. by eexists.
Qed.

Lemma consumes_logheader_version0 maj min fp : consumes fp (logheader_version0 maj min fp) 72.
Proof. unfold logheader_version0. solve_consumes. by apply consumes_check. Qed.

(** A header is read only from a file that has room for one. *)
Lemma load_logheader_length o name c h o' :
  has_file o name c → sparkey_load_logheader name o = (Ok h, o') → LOG_HEADER_SIZE ≤ zlen c.
Proof.
  intros Hf. destruct (sys_open_run _ _ _ Hf) as (ino & _ & Hr & Hfd & Hopen).
  unfold sparkey_load_logheader. rewrite (bind_Ok _ _ _ _ _ Hopen). cbn beta iota.
  set (fp := os_next_fd o) in *.
  assert (Hstep : ∀ off (k : Z → MC os sparkey_logheader), 0 ≤ off →
    (fread_little_endian32 fp ≫= k) (at_off fp ino off (opened o)) = (Ok h, o') →
    ∃ v, off + 4 ≤ zlen c ∧ k v (at_off fp ino (off + 4) (opened o)) = (Ok h, o')).
  { intros off k Hoff. unfold mbind, M_bind.
    destruct (fread_little_endian32 fp _) as [[v| | |] o1] eqn:E; try done.
    apply (consumes_le32 _ _ _ _ _ _ _ Hr Hoff) in E as [-> ?]. intros Hk.
    exists v. split; [lia|done]. }
  intros H. apply Hstep in H as (v1 & _ & H); [|done].
  case_decide; [unfold closing, fail in H; by destruct (sys_close _ _)|].
  apply Hstep in H as (v2 & _ & H); [|done].
  case_decide; [unfold closing, fail in H; by destruct (sys_close _ _)|].
  apply Hstep in H as (v3 & _ & H); [|done].
  case_decide; [unfold closing, fail in H; by destruct (sys_close _ _)|].
  unfold closing in H.
  destruct (logheader_version0 _ _ _ _) as [r o1] eqn:E. destruct (sys_close _ _) as [? ?].
  injection H as -> _.
  apply (consumes_logheader_version0 _ _ _ _ _ _ _ _ _ Hr) in E as [_ Hle]; [|lia].
  unfold LOG_HEADER_SIZE. lia.
Qed.

(** Any 84 bytes are the encoding of some header fields. *)
Lemma split_logheader c :
  bytes_ok c → LOG_HEADER_SIZE ≤ zlen c →
  ∃ magic h rest,
    c = write_little_endian32 magic ++ write_little_endian32 (lh_major_version h) ++
        write_little_endian32 (lh_minor_version h) ++ logheader_body h ++ rest ∧
    0 ≤ magic < 2 ^ 32 ∧ 0 ≤ lh_major_version h < 2 ^ 32 ∧ 0 ≤ lh_minor_version h < 2 ^ 32 ∧
    logheader_typed h ∧ lh_header_size h = LOG_HEADER_SIZE.
Proof.
  unfold LOG_HEADER_SIZE at 1. intros Hok Hlen.
  destruct (split_le32 c) as (mg & c1 & -> & ? & ? & ?); [done|lia|].
  destruct (split_le32 c1) as (maj & c2 & -> & ? & ? & ?); [done|lia|].
  destruct (split_le32 c2) as (min & c3 & -> & ? & ? & ?); [done|lia|].
  destruct (split_le32 c3) as (fid & c4 & -> & ? & ? & ?); [done|lia|].
  destruct (split_le64 c4) as (np & c5 & -> & ? & ? & ?); [done|lia|].
  destruct (split_le64 c5) as (nd & c6 & -> & ? & ? & ?); [done|lia|].
  destruct (split_le64 c6) as (de & c7 & -> & ? & ? & ?); [done|lia|].
  destruct (split_le64 c7) as (mk & c8 & -> & ? & ? & ?); [done|lia|].
  destruct (split_le64 c8) as (mv & c9 & -> & ? & ? & ?); [done|lia|].
  destruct (split_le64 c9) as (ds & c10 & -> & ? & ? & ?); [done|lia|].
  destruct (split_le32 c10) as (ct & c11 & -> & ? & ? & ?); [done|lia|].
  destruct (split_le32 c11) as (cbs & c12 & -> & ? & ? & ?); [done|lia|].
  destruct (split_le64 c12) as (ps & c13 & -> & ? & ? & ?); [done|lia|].
  destruct (split_le32 c13) as (me & c14 & -> & ? & ? & ?); [done|lia|].
  exists mg, (LogHeader maj min fid np nd de mk mv ds ct cbs ps LOG_HEADER_SIZE me), c14.
  split; [by unfold logheader_body; rewrite <- !app_assoc|]. unfold logheader_typed. cbn. tauto.
Qed.

(** ** Properties *)

(** C28. Loading is the inverse of writing, and nothing else loads: on a file of
    bytes the loader returns a header exactly when the file starts with the
    encoding of that header, and the header passes the version and consistency
    checks. *)
Theorem load_logheader_iff o name c h :
  has_file o name c → bytes_ok c →
  (sparkey_load_logheader name o).1 = Ok h ↔
  logheader_typed h ∧ logheader_valid h ∧ ∃ rest, c = logheader_bytes h ++ rest.
Proof.
  intros Hf Hok. split.
  - intros Hload. destruct (sparkey_load_logheader name o) as [r o'] eqn:E. cbn in Hload. subst r.
    pose proof (load_logheader_length _ _ _ _ _ Hf E) as Hlen.
    destruct (split_logheader c Hok Hlen) as (mg & h' & rest & -> & ? & ? & ? & Ht & Hs).
    rewrite (load_logheader_run _ _ _ _ _ Hf) in E by done.
    injection E as E _. unfold load_logheader_result in E.
    repeat (case_decide; [done|]). destruct (logheader_checks h') eqn:Hck; [done|].
    injection E as ->. assert (lh_minor_version h = LOG_MINOR_VERSION) as Hmin
      by (unfold LOG_MINOR_VERSION in *; lia).
    assert (lh_major_version h = LOG_MAJOR_VERSION) as Hmaj by tauto.
    assert (mg = LOG_MAGIC_NUMBER) as -> by tauto.
    split; [done|]. split; [by apply (logheader_checks_valid h Hmaj Hmin Hs)|].
    exists rest. unfold logheader_bytes. rewrite Hmin, Hmaj. by rewrite <- !app_assoc.
  - intros (Ht & Hv & rest & ->). pose proof Hv as (Hmaj & Hmin & Hs & _).
    unfold logheader_bytes in Hf. rewrite <- !app_assoc, <- Hmaj, <- Hmin in Hf.
    rewrite (load_logheader_run _ _ _ _ _ Hf) by (rewrite ?Hmaj, ?Hmin; done).
    unfold load_logheader_result. rewrite Hmaj, Hmin. rewrite !decide_False by (tauto || done).
    by rewrite (proj2 (proj1 (logheader_checks_valid h Hmaj Hmin Hs)) Hv).
Qed.

Example logheader_example : sparkey_logheader :=
  LogHeader 1 0 77 3 1 120 4 5 6 SPARKEY_COMPRESSION_NONE 0 30 84 0.

Example os_header_file : os :=
  OS {[ 0%nat := logheader_bytes logheader_example ]} {[ "a.spl"%string := 0%nat ]} ∅ 1 3 [] [].

Lemma load_logheader_iff_witness :
  (sparkey_load_logheader "a.spl" os_header_file).1 = Ok logheader_example.
Proof.
  apply (load_logheader_iff _ _ (logheader_bytes logheader_example)).
  - by exists 0%nat.
  - apply logheader_bytes_ok.
  - split; [by repeat split|]. split; [by repeat split|]. exists []. by rewrite app_nil_r.
Defined.

(** On a long enough file the loader tells which check failed: first the magic
    number, then the major and the minor version, then the header fields. *)
Theorem load_logheader_errors o name magic h rest :
  has_file o name (write_little_endian32 magic ++ write_little_endian32 (lh_major_version h) ++
                   write_little_endian32 (lh_minor_version h) ++ logheader_body h ++ rest) →
  0 ≤ magic < 2 ^ 32 → 0 ≤ lh_major_version h < 2 ^ 32 → 0 ≤ lh_minor_version h < 2 ^ 32 →
  logheader_typed h → lh_header_size h = LOG_HEADER_SIZE →
  let '(r, o') := sparkey_load_logheader name o in
  os_fds o' = os_fds o ∧
  (r = Err SPARKEY_WRONG_LOG_MAGIC_NUMBER ↔ magic ≠ LOG_MAGIC_NUMBER) ∧
  (r = Err SPARKEY_WRONG_LOG_MAJOR_VERSION ↔
     magic = LOG_MAGIC_NUMBER ∧ lh_major_version h ≠ LOG_MAJOR_VERSION) ∧
  (r = Err SPARKEY_UNSUPPORTED_LOG_MINOR_VERSION ↔
     magic = LOG_MAGIC_NUMBER ∧ lh_major_version h = LOG_MAJOR_VERSION ∧
     lh_minor_version h > LOG_MINOR_VERSION) ∧
  (r = Err SPARKEY_LOG_HEADER_CORRUPT ↔
     magic = LOG_MAGIC_NUMBER ∧ lh_major_version h = LOG_MAJOR_VERSION ∧
     lh_minor_version h = LOG_MINOR_VERSION ∧ ¬ logheader_valid h).
Proof.
  intros Hf Hmg Hmaj Hmin Ht Hs. rewrite (load_logheader_run _ _ _ _ _ Hf) by done.
  split; [done|]. unfold load_logheader_result.
  repeat (case_decide; [split_and!; split; intros; try done; exfalso; tauto || intuition lia|]).
  assert (lh_minor_version h = LOG_MINOR_VERSION) as Hmin' by (unfold LOG_MINOR_VERSION in *; lia).
  assert (lh_major_version h = LOG_MAJOR_VERSION) as Hmaj' by tauto.
  destruct (logheader_checks_valid h Hmaj' Hmin' Hs) as [Hv Hnv].
  assert (Hc : logheader_checks h = None ∨ logheader_checks h = Some SPARKEY_LOG_HEADER_CORRUPT).
  { unfold logheader_checks. repeat case_decide; tauto. }
  destruct Hc as [Hc|Hc]; rewrite Hc in *; split_and!; split; intros Hx; try done;
    try (exfalso; tauto || intuition lia).
  split_and!; try tauto. intros Hval. by apply Hv in Hval.
Qed.

Lemma load_logheader_errors_witness :
  (sparkey_load_logheader "a.spl" (OS {[ 0%nat := write_little_endian32 5 ++
     write_little_endian32 1 ++ write_little_endian32 0 ++ logheader_body logheader_example ++ [] ]}
     {[ "a.spl"%string := 0%nat ]} ∅ 1 3 [] [])).1 = Err SPARKEY_WRONG_LOG_MAGIC_NUMBER.
Proof.
  pose proof (load_logheader_errors (OS {[ 0%nat := write_little_endian32 5 ++
     write_little_endian32 1 ++ write_little_endian32 0 ++ logheader_body logheader_example ++ [] ]}
     {[ "a.spl"%string := 0%nat ]} ∅ 1 3 [] []) "a.spl" 5 logheader_example []) as H.
  destruct (sparkey_load_logheader _ _) as [r o'].
  destruct H as (_ & Hm & _); [by exists 0%nat|by repeat split..|].
  cbn [fst]. by apply Hm.
Defined.

(** The loader leaves the file open when the file ends inside the magic number
    or the version: the early return skips the fclose. *)
Theorem load_logheader_leaks o name c :
  has_file o name c → zlen c < 4 →
  let '(r, o') := sparkey_load_logheader name o in
  r = Err SPARKEY_UNEXPECTED_EOF ∧ is_Some (os_fds o' !! os_next_fd o).
Proof.
  intros Hf Hlen. destruct (sys_open_run _ _ _ Hf) as (ino & _ & Hr & Hfd & Hopen).
  unfold sparkey_load_logheader. rewrite (bind_Ok _ _ _ _ _ Hopen). cbn beta iota.
  destruct (fread32_eof (os_next_fd o) ino 0 c (opened o)) as [off' He]; [apply Hr..|done|lia|].
  rewrite (bind_Err _ _ _ _ _ He). split; [done|]. unfold at_off. cbn.
  rewrite lookup_insert_eq. by eexists.
Qed.

Lemma load_logheader_leaks_witness :
  let '(r, o') := sparkey_load_logheader "e" (OS {[ 0%nat := [] ]} {[ "e"%string := 0%nat ]} ∅ 1 3 [] []) in
  r = Err SPARKEY_UNEXPECTED_EOF ∧ is_Some (os_fds o' !! 3).
Proof.
  apply (load_logheader_leaks (OS {[ 0%nat := [] ]} {[ "e"%string := 0%nat ]} ∅ 1 3 [] []) "e" []);
    [by exists 0%nat|done].
Defined.
