(* ===== verification/HashHeader.v ===== *)
(** * The hash header (hashheader.h, hashheader.c)

    The header record of the index file, its writer and its loader, in the same
    form as the log header. *)

From stdpp Require Import base gmap list strings numbers.
From Stdlib Require Import ZArith Lia.
From S2P Require Import Prelude ReturnCodes Endian OS HashAlg.

Local Open Scope Z_scope.

(** ** Definitions *)

Definition HASH_MAGIC_NUMBER : Z := 0x9a11318f.
Definition HASH_MAJOR_VERSION : Z := 1.
Definition HASH_MINOR_VERSION : Z := 1.
Definition HASH_HEADER_SIZE : Z := 112.

Record sparkey_hashheader : Type := HashHeader {
  hh_major_version : Z;
  hh_minor_version : Z;
  hh_file_identifier : Z;
  hh_hash_seed : Z;
  hh_header_size : Z;
  hh_data_end : Z;
  hh_max_key_len : Z;
  hh_max_value_len : Z;
  hh_garbage_size : Z;
  hh_num_entries : Z;
  hh_address_size : Z;
  hh_hash_size : Z;
  hh_hash_capacity : Z;
  hh_max_displacement : Z;
  hh_num_puts : Z;
  hh_entry_block_bits : Z;
  hh_entry_block_bitmask : Z;
  hh_hash_collisions : Z;
  hh_total_displacement : Z;
  hh_hash_algorithm : sparkey_hash_algorithm
}.

(** [(1 << entry_block_bits) - 1] on ints: undefined from 31 bits on. *)
Definition block_bitmask (entry_block_bits : Z) : option Z :=
  if decide (entry_block_bits < 31) then Some (u32 (Z.shiftl 1 entry_block_bits - 1)) else None.

(** The consistency checks at the end of [hashheader_version0]. *)
Definition hashheader_checks (header : sparkey_hashheader) : option returncode :=
  match ha_hash (hh_hash_algorithm header) with
  | None => Some SPARKEY_HASH_HEADER_CORRUPT
  | Some _ =>
      if decide (hh_num_entries header > hh_num_puts header)
      then Some SPARKEY_HASH_HEADER_CORRUPT
      else if decide (hh_max_displacement header > hh_num_entries header)
      then Some SPARKEY_HASH_HEADER_CORRUPT
      else if decide (hh_hash_collisions header > hh_num_entries header)
      then Some SPARKEY_HASH_HEADER_CORRUPT
      else None
  end.

Definition hashheader_version0 (major minor fp : Z) : MC os sparkey_hashheader :=
  file_identifier ← fread_little_endian32 fp;
  hash_seed ← fread_little_endian32 fp;
  data_end ← fread_little_endian64 fp;
  max_key_len ← fread_little_endian64 fp;
  max_value_len ← fread_little_endian64 fp;
  num_puts ← fread_little_endian64 fp;
  garbage_size ← fread_little_endian64 fp;
  num_entries ← fread_little_endian64 fp;
  address_size ← fread_little_endian32 fp;
  hash_size ← fread_little_endian32 fp;
  hash_capacity ← fread_little_endian64 fp;
  max_displacement ← fread_little_endian64 fp;
  entry_block_bits ← fread_little_endian32 fp;
  entry_block_bitmask ← of_opt (block_bitmask entry_block_bits);
  hash_collisions ← fread_little_endian64 fp;
  total_displacement ← fread_little_endian64 fp;
  let header := HashHeader major minor file_identifier hash_seed HASH_HEADER_SIZE data_end
    max_key_len max_value_len garbage_size num_entries address_size hash_size hash_capacity
    max_displacement num_puts entry_block_bits entry_block_bitmask hash_collisions
    total_displacement (sparkey_get_hash_algorithm hash_size) in
  match hashheader_checks header with
  | Some e => fail e
  | None => mret header
  end.

Definition sparkey_load_hashheader (filename : string) : MC os sparkey_hashheader :=
  r ← sys_open filename;
  match r with
  | inl e => fail (sparkey_open_returncode e)
  | inr fp =>
      tmp ← fread_little_endian32 fp;
      if decide (tmp ≠ HASH_MAGIC_NUMBER)
      then closing fp (fail SPARKEY_WRONG_HASH_MAGIC_NUMBER) else
      major_version ← fread_little_endian32 fp;
      if decide (major_version ≠ HASH_MAJOR_VERSION)
      then closing fp (fail SPARKEY_WRONG_HASH_MAJOR_VERSION) else
      minor_version ← fread_little_endian32 fp;
      if decide (minor_version > HASH_MINOR_VERSION)
      then closing fp (fail SPARKEY_UNSUPPORTED_HASH_MINOR_VERSION) else
      closing fp (hashheader_version0 major_version minor_version fp)
  end.

Definition write_hashheader (fd : Z) (header : sparkey_hashheader) : MC os unit :=
  _ ← fwrite_little_endian32 fd HASH_MAGIC_NUMBER;
  _ ← fwrite_little_endian32 fd HASH_MAJOR_VERSION;
  _ ← fwrite_little_endian32 fd HASH_MINOR_VERSION;
  _ ← fwrite_little_endian32 fd (hh_file_identifier header);
  _ ← fwrite_little_endian32 fd (hh_hash_seed header);
  _ ← fwrite_little_endian64 fd (hh_data_end header);
  _ ← fwrite_little_endian64 fd (hh_max_key_len header);
  _ ← fwrite_little_endian64 fd (hh_max_value_len header);
  _ ← fwrite_little_endian64 fd (hh_num_puts header);
  _ ← fwrite_little_endian64 fd (hh_garbage_size header);
  _ ← fwrite_little_endian64 fd (hh_num_entries header);
  _ ← fwrite_little_endian32 fd (hh_address_size header);
  _ ← fwrite_little_endian32 fd (hh_hash_size header);
  _ ← fwrite_little_endian64 fd (hh_hash_capacity header);
  _ ← fwrite_little_endian64 fd (hh_max_displacement header);
  _ ← fwrite_little_endian32 fd (hh_entry_block_bits header);
  _ ← fwrite_little_endian64 fd (hh_hash_collisions header);
  _ ← fwrite_little_endian64 fd (hh_total_displacement header);
  mret tt.

(** *** The header as bytes *)

Definition hashheader_body (h : sparkey_hashheader) : list Z :=
  write_little_endian32 (hh_file_identifier h) ++
  write_little_endian32 (hh_hash_seed h) ++
  write_little_endian64 (hh_data_end h) ++
  write_little_endian64 (hh_max_key_len h) ++
  write_little_endian64 (hh_max_value_len h) ++
  write_little_endian64 (hh_num_puts h) ++
  write_little_endian64 (hh_garbage_size h) ++
  write_little_endian64 (hh_num_entries h) ++
  write_little_endian32 (hh_address_size h) ++
  write_little_endian32 (hh_hash_size h) ++
  write_little_endian64 (hh_hash_capacity h) ++
  write_little_endian64 (hh_max_displacement h) ++
  write_little_endian32 (hh_entry_block_bits h) ++
  write_little_endian64 (hh_hash_collisions h) ++
  write_little_endian64 (hh_total_displacement h) ++ [].

Definition hashheader_bytes (h : sparkey_hashheader) : list Z :=
  write_little_endian32 HASH_MAGIC_NUMBER ++ write_little_endian32 HASH_MAJOR_VERSION ++
  write_little_endian32 HASH_MINOR_VERSION ++ hashheader_body h.

(** Every field fits its C type, and the computed fields are what the loader
    computes. *)
Definition hashheader_typed (h : sparkey_hashheader) : Prop :=
  0 ≤ hh_file_identifier h < 2 ^ 32 ∧ 0 ≤ hh_hash_seed h < 2 ^ 32 ∧
  0 ≤ hh_data_end h < 2 ^ 64 ∧ 0 ≤ hh_max_key_len h < 2 ^ 64 ∧
  0 ≤ hh_max_value_len h < 2 ^ 64 ∧ 0 ≤ hh_num_puts h < 2 ^ 64 ∧
  0 ≤ hh_garbage_size h < 2 ^ 64 ∧ 0 ≤ hh_num_entries h < 2 ^ 64 ∧
  0 ≤ hh_address_size h < 2 ^ 32 ∧ 0 ≤ hh_hash_size h < 2 ^ 32 ∧
  0 ≤ hh_hash_capacity h < 2 ^ 64 ∧ 0 ≤ hh_max_displacement h < 2 ^ 64 ∧
  0 ≤ hh_entry_block_bits h < 31 ∧ 0 ≤ hh_hash_collisions h < 2 ^ 64 ∧
  0 ≤ hh_total_displacement h < 2 ^ 64 ∧
  hh_header_size h = HASH_HEADER_SIZE ∧
  hh_hash_algorithm h = sparkey_get_hash_algorithm (hh_hash_size h) ∧
  block_bitmask (hh_entry_block_bits h) = Some (hh_entry_block_bitmask h).

(** What the loader accepts. *)
Definition hashheader_valid (h : sparkey_hashheader) : Prop :=
  valid_size (hh_hash_size h) ∧ hh_num_entries h ≤ hh_num_puts h ∧
  hh_max_displacement h ≤ hh_num_entries h ∧ hh_hash_collisions h ≤ hh_num_entries h.

(** What the loader returns on a file that is long enough. *)
Definition load_hashheader_result (magic : Z) (h : sparkey_hashheader)
    : res returncode sparkey_hashheader :=
  if decide (magic ≠ HASH_MAGIC_NUMBER) then Err SPARKEY_WRONG_HASH_MAGIC_NUMBER
  else if decide (hh_major_version h ≠ HASH_MAJOR_VERSION)
  then Err SPARKEY_WRONG_HASH_MAJOR_VERSION
  else if decide (hh_minor_version h > HASH_MINOR_VERSION)
  then Err SPARKEY_UNSUPPORTED_HASH_MINOR_VERSION
  else match hashheader_checks h with Some e => Err e | None => Ok h end.

(** ** Lemmas *)

Lemma hashheader_bytes_length h : zlen (hashheader_bytes h) = HASH_HEADER_SIZE.
Proof. done. Qed.

Lemma hashheader_bytes_ok h : bytes_ok (hashheader_bytes h).
Proof.
  unfold hashheader_bytes, hashheader_body. rewrite !bytes_ok_app.
  split_and!; eauto with sparkey. by constructor.
Qed.

Lemma hashheader_checks_valid h :
  hh_hash_algorithm h = sparkey_get_hash_algorithm (hh_hash_size h) →
  hashheader_checks h = None ↔ hashheader_valid h.
Proof.
  intros Ha. unfold hashheader_checks, hashheader_valid. rewrite Ha.
  destruct (ha_hash (sparkey_get_hash_algorithm (hh_hash_size h))) eqn:E.
  - assert (valid_size (hh_hash_size h)).
    { destruct (decide (hh_hash_size h = 4)), (decide (hh_hash_size h = 8)); try (by left);
        try (by right). unfold sparkey_get_hash_algorithm in E.
      by rewrite !decide_False in E by done. }
    repeat case_decide; split; intros; try done; try lia; tauto || lia.
  - apply hash_algorithm_null in E. split; [done|tauto].
Qed.

Lemma writes_hashheader fd h : writes fd (write_hashheader fd h) (hashheader_bytes h).
Proof. unfold write_hashheader, hashheader_bytes, hashheader_body. solve_writes. Qed.

(** A pure step of a parse. *)
Lemma parses_of_opt {A B} fd (v : A) (k : A → MC os B) y r :
  parses fd (k v) y r → parses fd (of_opt (Some v) ≫= k) y r.
Proof. intros Hk. exact Hk. Qed.

Lemma parses_hashheader_version0 fp h :
  hashheader_typed h →
  parses fp (hashheader_version0 (hh_major_version h) (hh_minor_version h) fp)
    (hashheader_body h)
    match hashheader_checks h with Some e => Err e | None => Ok h end.
Proof.
  destruct h as [maj min fid seed hs de mk mv gs ne asz hsz cap md np ebb mask coll td alg].
  unfold hashheader_typed.
  cbn [hh_file_identifier hh_hash_seed hh_data_end hh_max_key_len hh_max_value_len hh_num_puts
    hh_garbage_size hh_num_entries hh_address_size hh_hash_size hh_hash_capacity
    hh_max_displacement hh_entry_block_bits hh_hash_collisions hh_total_displacement
    hh_header_size hh_hash_algorithm hh_entry_block_bitmask hh_major_version hh_minor_version].
  intros (?&?&?&?&?&?&?&?&?&?&?&?&?&?&?& -> & -> & Hmask).
  unfold hashheader_version0, hashheader_body.
  cbn [hh_file_identifier hh_hash_seed hh_data_end hh_max_key_len hh_max_value_len hh_num_puts
    hh_garbage_size hh_num_entries hh_address_size hh_hash_size hh_hash_capacity
    hh_max_displacement hh_entry_block_bits hh_hash_collisions hh_total_displacement].
  do 8 (first [apply parses_u32; [lia|] | apply parses_u64; [lia|]]).
  do 5 (first [apply parses_u32; [lia|] | apply parses_u64; [lia|]]).
  rewrite Hmask. apply parses_of_opt.
  do 2 (apply parses_u64; [lia|]).
  case_match; [apply parses_fail | apply parses_ret].
Qed.

Lemma load_hashheader_run o name magic h rest :
  has_file o name (write_little_endian32 magic ++ write_little_endian32 (hh_major_version h) ++
                   write_little_endian32 (hh_minor_version h) ++ hashheader_body h ++ rest) →
  0 ≤ magic < 2 ^ 32 → 0 ≤ hh_major_version h < 2 ^ 32 → 0 ≤ hh_minor_version h < 2 ^ 32 →
  hashheader_typed h →
  sparkey_load_hashheader name o = (load_hashheader_result magic h, opened o).
Proof.
  intros Hf Hmg Hmaj Hmin Ht.
  destruct (sys_open_run _ _ _ Hf) as (ino & _ & Hr & Hfd & Hopen).
  unfold sparkey_load_hashheader. rewrite (bind_Ok _ _ _ _ _ Hopen). cbn beta iota.
  set (fp := os_next_fd o) in *.
  set (c := write_little_endian32 magic ++ _) in *.
  pose proof (read_word_run fp _ ino c Hr) as H32.
  unfold load_hashheader_result.
  erewrite bind_Ok; [|eapply (H32 [] magic); [done|reflexivity]]. cbn beta iota.
  case_decide; [by eapply closing_run|].
  erewrite bind_Ok; [|eapply (H32 (write_little_endian32 magic)); [exact Hmaj|reflexivity]].
  case_decide; [by eapply closing_run|].
  erewrite bind_Ok; [|eapply (H32 (write_little_endian32 magic ++ write_little_endian32 _));
    [exact Hmin|by rewrite <- app_assoc]].
  case_decide; [by eapply closing_run|].
  eapply closing_run; [|done].
  eapply (parses_hashheader_version0 fp h Ht); [done|lia|].
  change (Z.to_nat _) with (length (write_little_endian32 magic ++
    write_little_endian32 (hh_major_version h) ++ write_little_endian32 (hh_minor_version h))).
  unfold c. rewrite !app_assoc, <- (app_assoc _ (hashheader_body h)), drop_app_length. by eexists.
Qed.

(** Whatever a file has after its first three words, it is closed again. *)
Lemma load_hashheader_closes o name c :
  has_file o name c → 12 ≤ zlen c → (sparkey_load_hashheader name o).2 = opened o.
Proof.
  intros Hf Hlen. destruct (sys_open_run _ _ _ Hf) as (ino & _ & Hr & Hfd & Hopen).
  unfold sparkey_load_hashheader. rewrite (bind_Ok _ _ _ _ _ Hopen). cbn beta iota.
  set (fp := os_next_fd o) in *. pose proof Hr as [Hc Hs].
  assert (Hword : ∀ off, 0 ≤ off → off + 4 ≤ zlen c →
    ∃ v, fread_little_endian32 fp (at_off fp ino off (opened o)) = (Ok v, at_off fp ino (off + 4) (opened o))).
  { intros off Hoff Hle. set (bs := take 4 (drop (Z.to_nat off) c)).
    assert (Hbs : length bs = 4%nat) by (unfold bs; rewrite length_take, length_drop; lia).
    exists (le_value bs). rewrite (parses_le32 fp bs Hbs _ ino off c Hr Hoff); [by rewrite Hbs|].
    exists (drop 4 (drop (Z.to_nat off) c)). by unfold bs; rewrite take_drop. }
  assert (Hclose : ∀ A (m : MC os A) off, roams fp m → 0 ≤ off →
    (closing fp m (at_off fp ino off (opened o))).2 = opened o) by (intros; by eapply closing_left).
  destruct (Hword 0 ltac:(lia) ltac:(lia)) as [v1 H1]. rewrite (bind_Ok _ _ _ _ _ H1).
  case_decide; [apply Hclose; [by apply roams_same|lia]|].
  destruct (Hword (0 + 4) ltac:(lia) ltac:(lia)) as [v2 H2]. rewrite (bind_Ok _ _ _ _ _ H2).
  case_decide; [apply Hclose; [by apply roams_same|lia]|].
  destruct (Hword (0 + 4 + 4) ltac:(lia) ltac:(lia)) as [v3 H3]. rewrite (bind_Ok _ _ _ _ _ H3).
  case_decide; [apply Hclose; [by apply roams_same|lia]|].
  apply Hclose; [|lia]. unfold hashheader_version0. solve_roams.
Qed.

(** Loading the file of an index. *)
Lemma load_index o name h rest :
  has_file o name (hashheader_bytes h ++ rest) → hashheader_typed h → hashheader_valid h →
  hh_major_version h = HASH_MAJOR_VERSION → hh_minor_version h = HASH_MINOR_VERSION →
  sparkey_load_hashheader name o = (Ok h, opened o).
Proof.
  intros Hf Ht Hv Hmaj Hmin. unfold hashheader_bytes in Hf.
  rewrite <- !app_assoc, <- Hmaj, <- Hmin in Hf.
  rewrite (load_hashheader_run _ _ _ _ _ Hf) by (rewrite ?Hmaj, ?Hmin; done).
  unfold load_hashheader_result. rewrite Hmaj, Hmin, !decide_False by (tauto || done).
  assert (Ha : hh_hash_algorithm h = sparkey_get_hash_algorithm (hh_hash_size h))
    by (unfold hashheader_typed in Ht; tauto).
  by rewrite (proj2 (hashheader_checks_valid h Ha) Hv).
Qed.

(** ** Properties *)

(** A written hash header loads back to itself, computed fields included, when
    it passes the loader's checks, and is reported corrupt when it does not. *)
Theorem load_written_hashheader o name h rest :
  has_file o name (hashheader_bytes h ++ rest) → hashheader_typed h →
  hh_major_version h = HASH_MAJOR_VERSION → hh_minor_version h = HASH_MINOR_VERSION →
  let '(r, o') := sparkey_load_hashheader name o in
  o' = opened o ∧
  (hashheader_valid h → r = Ok h) ∧
  (¬ hashheader_valid h → r = Err SPARKEY_HASH_HEADER_CORRUPT).
Proof.
  intros Hf Ht Hmaj Hmin. unfold hashheader_bytes in Hf.
  rewrite <- !app_assoc, <- Hmaj, <- Hmin in Hf.
  rewrite (load_hashheader_run _ _ _ _ _ Hf) by (rewrite ?Hmaj, ?Hmin; done).
  split; [done|]. unfold load_hashheader_result. rewrite Hmaj, Hmin.
  rewrite !decide_False by (tauto || done).
  assert (Ha : hh_hash_algorithm h = sparkey_get_hash_algorithm (hh_hash_size h))
    by (unfold hashheader_typed in Ht; tauto).
  pose proof (hashheader_checks_valid h Ha) as Hv.
  split; intros Hval.
  - by rewrite (proj2 Hv Hval).
  - destruct (hashheader_checks h) as [e|] eqn:E; [|by destruct (Hval (proj1 Hv eq_refl))].
    f_equal. unfold hashheader_checks in E.
    destruct (ha_hash _); repeat case_decide; congruence.
Qed.

Example hashheader_example : sparkey_hashheader :=
  HashHeader 1 1 77 42 112 120 4 5 6 2 4 4 3 1 3 0 0 0 1 (sparkey_get_hash_algorithm 4).

(** The number of bits of an entry's place in its block is not checked before it is
    used in a shift: a file that says 31 makes the load undefined. *)
Theorem wide_bits_undefined :
  (sparkey_load_hashheader "a.spi"
    (OS {[ 0%nat := hashheader_bytes (HashHeader 1 1 77 42 112 120 4 5 6 2 4 4 3 1 3 31 0 0 1
                      (sparkey_get_hash_algorithm 4)) ]}
        {[ "a.spi"%string := 0%nat ]} ∅ 1 3 [] [])).1 = UB.
Proof. vm_compute. reflexivity. Qed.

Lemma load_written_hashheader_witness :
  (sparkey_load_hashheader "a.spi"
    (OS {[ 0%nat := hashheader_bytes hashheader_example ++ [1; 2] ]}
        {[ "a.spi"%string := 0%nat ]} ∅ 1 3 [] [])).1 = Ok hashheader_example.
Proof.
  pose proof (load_written_hashheader
    (OS {[ 0%nat := hashheader_bytes hashheader_example ++ [1; 2] ]}
        {[ "a.spi"%string := 0%nat ]} ∅ 1 3 [] []) "a.spi" hashheader_example [1; 2]) as H.
  destruct (sparkey_load_hashheader _ _) as [r o'].
  destruct H as (_ & Hv & _); [by exists 0%nat|by repeat split|done|done|].
  apply Hv. repeat split; try done. by left.
Defined.
