(* ===== verification/Buf.v ===== *)
(** * The write buffer (buf.h, buf.c)

    A buffer is its capacity and the bytes between [start] and [cur]; what lies
    beyond [cur] is never read.  The buffer functions run on the pair of the
    environment and the buffer. *)

From stdpp Require Import base gmap list strings numbers.
From Stdlib Require Import ZArith Lia.
From S2P Require Import Prelude ReturnCodes OS.

Local Open Scope Z_scope.

(** ** Definitions *)

Record sparkey_buf : Type := Buf {
  b_size : Z;          (* end - start *)
  b_used : list Z      (* the bytes from start to cur *)
}.

(** Run a system call, or a buffer action, inside a larger state. *)
Definition on_os {T A} (m : MC os A) : MC (os * T) A := zoom fst (λ o s, (o, s.2)) m.
Definition on_snd {S T} (f : T → T) : MC (S * T) unit := modS (λ s, (s.1, f s.2)).
Definition get_snd {S T} : MC (S * T) T := λ s, (Ok s.2, s).

Definition buf_init (size : Z) : MC os sparkey_buf :=
  ok ← sys_malloc;
  if (ok : bool) then mret (Buf size []) else fail SPARKEY_INTERNAL_ERROR.

Definition buf_size (buf : sparkey_buf) : Z := b_size buf.
Definition buf_used (buf : sparkey_buf) : Z := zlen (b_used buf).
Definition buf_remaining (buf : sparkey_buf) : Z := b_size buf - zlen (b_used buf).

(** [buf->cur = buf->start] and [memcpy(buf->cur, ...); buf->cur += ...]. *)
Definition buf_reset (buf : sparkey_buf) : sparkey_buf := Buf (b_size buf) [].
Definition buf_fill (data : list Z) (buf : sparkey_buf) : sparkey_buf :=
  Buf (b_size buf) (b_used buf ++ data).

(** The pointers become NULL: capacity 0, nothing used. *)
Definition buf_close (buf : sparkey_buf) : sparkey_buf := Buf 0 [].

Definition buf_flushfile (fd : Z) : MC (os * sparkey_buf) unit :=
  buf ← get_snd;
  _ ← on_os (write_full fd (b_used buf));
  on_snd buf_reset.

(** Every round but the last fills the buffer and flushes it.  Once it has been
    flushed a round takes at least one byte of the data. *)
Fixpoint buf_add_loop (fuel : nat) (fd : Z) (data : list Z) : MC (os * sparkey_buf) unit :=
  match fuel with
  | O => out_of_fuel
  | S fuel =>
      buf ← get_snd;
      let remaining := buf_remaining buf in
      if decide (remaining >= zlen data) then on_snd (buf_fill data)
      else
        _ ← on_snd (buf_fill (take (Z.to_nat remaining) data));
        _ ← buf_flushfile fd;
        buf_add_loop fuel fd (drop (Z.to_nat remaining) data)
  end.

Definition buf_add (fd : Z) (data : list Z) : MC (os * sparkey_buf) unit :=
  buf_add_loop (S (S (length data))) fd data.

(** ** Lemmas *)

Definition buf_ok (buf : sparkey_buf) : Prop := 0 < b_size buf ∧ zlen (b_used buf) ≤ b_size buf.

(** The effect of an action that appends [data] through the buffer: some of the
    pending bytes went to the file, in order, and the others are in the buffer. *)
Definition buffered (fd : Z) (ino : nat) (off : Z) (data : list Z) (s : os * sparkey_buf)
    (r : res returncode unit) (s' : os * sparkey_buf) : Prop :=
  ∃ flushed sch, suffix sch (os_sched s.1) ∧
    s'.1 = set_sched sch (put_bytes fd ino off flushed s.1) ∧
    b_size s'.2 = b_size s.2 ∧ zlen (b_used s'.2) ≤ b_size s.2 ∧
    ((r = Ok tt ∧ b_used s.2 ++ data = flushed ++ b_used s'.2) ∨
     ∃ e, r = Err e ∧ write_error e ∧ Exists fatal (os_sched s.1) ∧
          flushed `prefix_of` b_used s.2 ++ data).

Lemma on_os_run {T A} (m : MC os A) o (t : T) :
  on_os m (o, t) = let '(r, o') := m o in (r, (o', t)).
Proof. unfold on_os, zoom. cbn. by destruct (m o). Qed.

Lemma buf_flushfile_spec fd ino off s :
  fd_open s.1 fd ino off → buf_ok s.2 →
  let '(r, s') := buf_flushfile fd s in
  buffered fd ino off [] s r s' ∧ (r = Ok tt → b_used s'.2 = []).
Proof.
  destruct s as [o b]. cbn [fst snd]. intros Hopen [Hb Hu].
  unfold buf_flushfile, mbind, M_bind, get_snd. cbn [snd]. rewrite on_os_run.
  pose proof (write_full_wrote fd ino off (b_used b) o Hopen) as Hw.
  destruct (write_full fd (b_used b) o) as [r o'].
  destruct Hw as (n & sch & Hsuf & -> & Hr).
  destruct Hr as [[-> Hn]|(e & -> & He & Hf)]; unfold buffered; cbn.
  - split; [|done]. exists (take n (b_used b)), sch. rewrite Hn.
    split_and!; [done..|cbn; lia|]. by left.
  - split; [|done]. exists (take n (b_used b)), sch. split_and!; [done..|]. right. exists e.
    split_and!; [done..|]. rewrite app_nil_r. exists (drop n (b_used b)). by rewrite take_drop.
Qed.

(** One action after a successful flush. *)
Lemma buffered_trans fd ino off a b s s1 r s2 :
  0 ≤ off →
  buffered fd ino off a s (Ok tt) s1 →
  (∀ off1, fd_open s.1 fd ino off → fd_open s1.1 fd ino off1 → buffered fd ino off1 b s1 r s2) →
  fd_open s.1 fd ino off →
  buffered fd ino off (a ++ b) s r s2.
Proof.
  intros Hoff (f1 & sch1 & Hsuf & Hs1 & Hsz & Hu & [[_ Heq]|(? & ? & _)]) Hk Hopen; [|done].
  assert (Hopen1 : fd_open s1.1 fd ino (off + zlen f1)).
  { rewrite Hs1. by apply set_sched_open, put_bytes_open. }
  destruct (Hk _ Hopen Hopen1) as (f2 & sch2 & Hsuf2 & Hs2 & Hsz2 & Hu2 & Hr).
  rewrite Hs1 in Hs2, Hsuf2, Hr. cbn [os_sched set_sched] in Hsuf2, Hr.
  exists (f1 ++ f2), sch2. rewrite Hsz in Hsz2, Hu2. split_and!; [by etrans| |done|done|].
  - rewrite Hs2. rewrite <- put_bytes_app by done. done.
  - rewrite app_assoc, Heq, <- !app_assoc.
    destruct Hr as [[-> ->]|(e & -> & He & Hf & Hp)]; [by left|right].
    exists e. split_and!; [done..| |by apply prefix_app].
    destruct Hsuf as [k ->]. apply Exists_app. by right.
Qed.

Lemma buffered_err_app fd ino off a b s e s1 :
  buffered fd ino off a s (Err e) s1 → buffered fd ino off (a ++ b) s (Err e) s1.
Proof.
  intros (f & sch & Hsuf & Hs & Hsz & Hu & [[? _]|(e' & He & ? & ? & Hp)]); [done|].
  exists f, sch. split_and!; [done..|]. right. exists e'. split_and!; [done..|].
  rewrite app_assoc. by apply prefix_app_r.
Qed.

Lemma buffered_result fd ino off a s r s1 :
  buffered fd ino off a s r s1 → r = Ok tt ∨ ∃ e, r = Err e.
Proof.
  intros (f & sch & _ & _ & _ & _ & [[-> _]|(e & -> & _)]); [by left|right; by eexists].
Qed.

Lemma buf_add_loop_spec fuel fd ino off data s :
  fd_open s.1 fd ino off → buf_ok s.2 →
  (length data + (if decide (buf_remaining s.2 = 0%Z) then 1 else 0) < fuel)%nat →
  let '(r, s') := buf_add_loop fuel fd data s in buffered fd ino off data s r s'.
Proof.
  revert off data s. induction fuel as [|fuel IH]; intros off data [o b] Hopen Hok Hfuel; [lia|].
  cbn [buf_add_loop fst snd] in *. destruct Hok as [Hb Hu].
  unfold mbind at 1, M_bind at 1, get_snd at 1. cbn [snd].
  destruct (decide (buf_remaining b >= zlen data)) as [Hrem|Hrem].
  - unfold on_snd, modS. exists [], (os_sched o). cbn. rewrite put_bytes_nil, set_sched_same by done.
    unfold buf_remaining in Hrem. rewrite length_app. split_and!; [done..|lia|by left].
  - unfold mbind at 1, M_bind at 1, on_snd at 1, modS at 1. cbn [fst snd].
    set (n := Z.to_nat (buf_remaining b)). set (b1 := buf_fill (take n data) b).
    assert (Hn : Z.of_nat n = buf_remaining b) by (unfold n, buf_remaining; lia).
    assert (Hb1 : zlen (b_used b1) = b_size b).
    { cbn. rewrite length_app, length_take. unfold buf_remaining in *. lia. }
    pose proof (buf_flushfile_spec fd ino off (o, b1) Hopen) as Hfl.
    unfold mbind, M_bind. destruct (buf_flushfile fd (o, b1)) as [r s1].
    destruct Hfl as [Hfl Hempty]; [by split; cbn [snd b_size b1 buf_fill]; lia|].
    assert (Hshift : ∀ r s2, buffered fd ino off (drop n data) (o, b1) r s2 →
              buffered fd ino off data (o, b) r s2).
    { intros r' s2 (f & sch & Hr). exists f, sch. cbn in Hr |- *.
      by rewrite <- !app_assoc, take_drop in Hr. }
    destruct (buffered_result _ _ _ _ _ _ _ Hfl) as [-> |[e ->]].
    2:{ apply Hshift. by apply (buffered_err_app _ _ _ [] (drop n data)). }
    specialize (Hempty eq_refl).
    assert (Hsz : b_size s1.2 = b_size b) by (destruct Hfl as (? & ? & _ & _ & -> & _); done).
    assert (HIH : ∀ off1, fd_open s1.1 fd ino off1 →
      let '(r, s2) := buf_add_loop fuel fd (drop n data) s1 in
      buffered fd ino off1 (drop n data) s1 r s2).
    { intros off1 Hopen1. apply IH; [done|split; rewrite ?Hsz, ?Hempty; cbn; lia|].
      assert (buf_remaining s1.2 = b_size b)
        by (unfold buf_remaining; rewrite Hempty, Hsz; cbn; lia).
      rewrite length_drop, decide_False by lia.
      destruct (decide (buf_remaining b = 0)); lia. }
    destruct (buf_add_loop fuel fd (drop n data) s1) as [r2 s2].
    apply Hshift. apply (buffered_trans _ _ _ [] _ _ s1); [apply Hopen|done| |done].
    intros off1 _. apply HIH.
Qed.

Lemma buf_add_spec fd ino off data s :
  fd_open s.1 fd ino off → buf_ok s.2 →
  let '(r, s') := buf_add fd data s in buffered fd ino off data s r s'.
Proof. intros. unfold buf_add. apply buf_add_loop_spec; [done..|]. case_decide; lia. Qed.

(** ** Properties *)

(** [buf_add] terminates and loses nothing, whatever the sizes of the data and of
    the buffer and whatever short writes and interruptions the environment makes:
    on success the bytes sent to the file followed by the bytes in the buffer are
    the bytes that were in the buffer followed by the data; on an error a prefix
    of them went to the file. *)
Theorem buf_add_appends fd ino off data o buf :
  fd_open o fd ino off → 0 < b_size buf → buf_used buf ≤ b_size buf →
  let '(r, (o', buf')) := buf_add fd data (o, buf) in
  ∃ flushed,
    os_inodes o' = <[ino := splice (default [] (os_inodes o !! ino)) off flushed]> (os_inodes o) ∧
    buf_size buf' = buf_size buf ∧ 0 ≤ buf_remaining buf' ∧
    ((r = Ok tt ∧ b_used buf ++ data = flushed ++ b_used buf') ∨
     ∃ e, r = Err e ∧ write_error e ∧ Exists fatal (os_sched o) ∧
          flushed `prefix_of` b_used buf ++ data).
Proof.
  intros Hopen Hs Hu. pose proof (buf_add_spec fd ino off data (o, buf) Hopen (conj Hs Hu)) as H.
  destruct (buf_add fd data (o, buf)) as [r [o' buf']].
  destruct H as (fl & sch & _ & Ho & Hsz & Hu' & Hr). cbn in *. subst o'.
  exists fl. split_and!; [done..| |done]. unfold buf_remaining. lia.
Qed.

Lemma buf_add_appends_witness :
  let '(r, (o', buf')) := buf_add 3 [5; 6; 7; 8; 9] (os_one_file, Buf 2 [4]) in
  r = Ok tt ∧ os_inodes o' !! 0%nat = Some [9; 4; 5; 6; 7] ∧ b_used buf' = [8; 9].
Proof.
  assert (H : fd_open os_one_file 3 0 1) by (split; [done|split; [by eexists|done]]).
  pose proof (buf_add_appends 3 0 1 [5; 6; 7; 8; 9] os_one_file (Buf 2 [4]) H) as Hw.
  assert (Hc : (buf_add 3 [5; 6; 7; 8; 9] (os_one_file, Buf 2 [4])).2.2 = Buf 2 [8; 9] ∧
    (buf_add 3 [5; 6; 7; 8; 9] (os_one_file, Buf 2 [4])).1 = Ok tt) by (vm_compute; done).
  destruct (buf_add 3 [5; 6; 7; 8; 9] (os_one_file, Buf 2 [4])) as [r [o' buf']].
  cbn [fst snd] in Hc. destruct Hc as [-> ->].
  destruct Hw as (fl & -> & _ & _ & Hr); [done|done|].
  destruct Hr as [[_ Heq]|(e & ? & _)]; [|done].
  cbn in Heq. apply (app_inj_2 [4; 5; 6; 7] fl [8; 9]) in Heq as [<- _]; [|done].
  by split.
Defined.
