(* ===== verification/Compress.v ===== *)
(** * The compressor table (compress.c)

    Snappy and Zstandard are not part of the repository: their functions are the
    fields of [Codec], on which the rest of the development is parametric, and
    [CodecLaws] states what their documentation promises. *)

From stdpp Require Import base gmap list strings numbers.
From Stdlib Require Import ZArith Lia.
From S2P Require Import Prelude ReturnCodes LogHeader.

Local Open Scope Z_scope.

(** ** The external libraries *)

(** The compression functions take the input and the room for the output;
    [None] is an error status. *)
Class Codec : Type := {
  snappy_max_compressed_length : Z → Z;
  snappy_compress : list Z → Z → option (list Z);
  snappy_uncompress : list Z → Z → option (list Z);
  ZSTD_compressBound : Z → Z;
  ZSTD_compress : list Z → Z → Z → option (list Z);   (* the last argument is the level *)
  ZSTD_decompress : list Z → Z → option (list Z)
}.

(** The documented contract of a compression function with its bound: it
    succeeds when the room is the bound of some size the input does not exceed,
    stays in its room, and what it makes decompresses to the input wherever the
    input fits. *)
Definition codec_contract (bound : Z → Z) (compress decompress : list Z → Z → option (list Z))
    : Prop :=
  (∀ n, 0 ≤ n < 2 ^ 31 → 0 ≤ bound n < 2 ^ 32) ∧
  (∀ input n, bytes_ok input → zlen input ≤ n → n < 2 ^ 31 →
     ∃ out, compress input (bound n) = Some out ∧ bytes_ok out ∧ zlen out ≤ bound n ∧
       ∀ m, zlen input ≤ m → decompress out m = Some input).

Class CodecLaws (C : Codec) : Prop := {
  snappy_contract :
    codec_contract snappy_max_compressed_length snappy_compress snappy_uncompress;
  zstd_contract :
    codec_contract ZSTD_compressBound (λ input n, ZSTD_compress input n 3) ZSTD_decompress
}.

(** ** Definitions *)

Section Compress.
Context {C : Codec}.

(** A compressor returns its output, or the error code. *)
Record sparkey_compressor : Type := Compressor {
  max_compressed_size : Z → Z;
  decompress : list Z → Z → res returncode (list Z);
  compress : list Z → Z → res returncode (list Z)
}.

Definition status (out : option (list Z)) : res returncode (list Z) :=
  match out with Some out => Ok out | None => Err SPARKEY_INTERNAL_ERROR end.

Definition sparkey_snappy_max_compressed_size (block_size : Z) : Z :=
  u32 (snappy_max_compressed_length block_size).
Definition sparkey_snappy_decompress (input : list Z) (room : Z) : res returncode (list Z) :=
  status (snappy_uncompress input room).
Definition sparkey_snappy_compress (input : list Z) (room : Z) : res returncode (list Z) :=
  status (snappy_compress input room).

Definition sparkey_zstd_max_compressed_size (block_size : Z) : Z :=
  u32 (ZSTD_compressBound block_size).
Definition sparkey_zstd_decompress (input : list Z) (room : Z) : res returncode (list Z) :=
  status (ZSTD_decompress input room).
Definition sparkey_zstd_compress (input : list Z) (room : Z) : res returncode (list Z) :=
  status (ZSTD_compress input room 3).

(** The entry of SPARKEY_COMPRESSION_NONE has NULL pointers; [None] is a call
    through one of them, or an index outside the table. *)
Definition sparkey_compressors (t : Z) : option sparkey_compressor :=
  if decide (t = SPARKEY_COMPRESSION_SNAPPY) then
    Some (Compressor sparkey_snappy_max_compressed_size sparkey_snappy_decompress
            sparkey_snappy_compress)
  else if decide (t = SPARKEY_COMPRESSION_ZSTD) then
    Some (Compressor sparkey_zstd_max_compressed_size sparkey_zstd_decompress
            sparkey_zstd_compress)
  else None.

Definition sparkey_uses_compressor (t : Z) : bool :=
  bool_decide (t = SPARKEY_COMPRESSION_SNAPPY ∨ t = SPARKEY_COMPRESSION_ZSTD).

(** ** Lemmas *)

(** The table has an entry exactly for the types that use a compressor. *)
Lemma uses_compressor_iff t :
  sparkey_uses_compressor t = true ↔ is_Some (sparkey_compressors t).
Proof.
  unfold sparkey_uses_compressor, sparkey_compressors. rewrite bool_decide_eq_true.
  repeat case_decide; (split; [intros []; subst; eauto; done|intros [? [=]]; eauto]).
Qed.

Lemma uses_compressor_none : sparkey_uses_compressor SPARKEY_COMPRESSION_NONE = false.
Proof. done. Qed.

End Compress.

Arguments sparkey_compressor : clear implicits.

(** ** A concrete codec: the identity *)

Definition identity_codec : Codec := {|
  snappy_max_compressed_length n := n;
  snappy_compress input room := if decide (zlen input ≤ room) then Some input else None;
  snappy_uncompress input room := if decide (zlen input ≤ room) then Some input else None;
  ZSTD_compressBound n := n;
  ZSTD_compress input room _ := if decide (zlen input ≤ room) then Some input else None;
  ZSTD_decompress input room := if decide (zlen input ≤ room) then Some input else None
|}.

#[export] Instance identity_codec_laws : CodecLaws identity_codec.
Proof.
  split; (split; [cbn; lia|]); intros input n Hok Hl Hn; exists input; cbn;
    rewrite decide_True by done; split_and!; try done; intros; by rewrite decide_True.
Qed.

(** ** The contract of a table entry *)

(** Blocks of at most [block_size] bytes survive compression into the room the
    writer has and decompression into the room the reader has. *)
Definition compressor_ok (c : sparkey_compressor) (block_size : Z) : Prop :=
  ∀ block, bytes_ok block → zlen block ≤ block_size →
    ∃ out, compress c block (max_compressed_size c block_size) = Ok out ∧
      zlen out ≤ max_compressed_size c block_size < 2 ^ 32 ∧ bytes_ok out ∧
      decompress c out block_size = Ok block.

Lemma compressors_ok {C : Codec} {L : CodecLaws C} t c block_size :
  sparkey_compressors t = Some c → block_size < 2 ^ 31 → compressor_ok c block_size.
Proof.
  intros Hc Hbs block Hok Hlen.
  assert (Hw : ∀ bound comp dec, codec_contract bound comp dec →
    ∃ out, status (comp block (u32 (bound block_size))) = Ok out ∧
      zlen out ≤ u32 (bound block_size) < 2 ^ 32 ∧ bytes_ok out ∧
      status (dec out block_size) = Ok block).
  { intros bound comp dec [Hb Hcon].
    destruct (Hcon block block_size Hok Hlen Hbs) as (out & Hcomp & Ho & Hl & Hdec).
    rewrite (u32_id (bound block_size)) by (apply Hb; lia). exists out.
    rewrite Hcomp, Hdec by lia. pose proof (Hb block_size). split_and!; try done; lia. }
  unfold sparkey_compressors in *. repeat case_decide; simplify_eq.
  - apply (Hw _ _ _ snappy_contract).
  - apply (Hw _ _ _ zstd_contract).
Qed.

(** ** Properties *)

(** Whatever the compressor of a log, a block that the writer compresses in the
    space it allocated for a block size decompresses to the same bytes in the
    buffer the reader allocated for that size. *)
Theorem compressor_roundtrip {C : Codec} {L : CodecLaws C} t block_size block :
  sparkey_uses_compressor t = true → bytes_ok block →
  zlen block ≤ block_size → block_size < 2 ^ 31 →
  ∃ c out, sparkey_compressors t = Some c ∧
    compress c block (max_compressed_size c block_size) = Ok out ∧
    zlen out ≤ max_compressed_size c block_size < 2 ^ 32 ∧ bytes_ok out ∧
    decompress c out block_size = Ok block.
Proof.
  intros Ht Hok Hlen Hbs. apply uses_compressor_iff in Ht as [c Hc].
  destruct (compressors_ok t c block_size Hc Hbs block Hok Hlen) as [out Hout]. by exists c, out.
Qed.

Lemma compressor_roundtrip_witness :
  ∃ c out, @sparkey_compressors identity_codec 2 = Some c ∧
    compress c [1; 2; 3] (max_compressed_size c 10) = Ok out ∧
    zlen out ≤ max_compressed_size c 10 < 2 ^ 32 ∧ bytes_ok out ∧
    decompress c out 10 = Ok [1; 2; 3].
Proof.
  apply (@compressor_roundtrip identity_codec identity_codec_laws 2 10 [1; 2; 3]);
    [done| |cbn; lia|done].
  repeat constructor; done.
Defined.
