(* ===== verification/LogFormat.v ===== *)
(** * The log as a sequence of entries

    The abstract contents of a log, the bytes that encode it in an uncompressed
    log file, and the header that describes it.  This is the specification the
    writer and the reader are proved against. *)

From stdpp Require Import base gmap list strings numbers.
From Stdlib Require Import ZArith Lia.
From S2P Require Import Prelude Vlq LogHeader.

Local Open Scope Z_scope.

(** ** Entries *)

Inductive entry : Type :=
| Put (key value : list Z)
| Delete (key : list Z).

#[export] Instance entry_eq_dec : EqDecision entry.
Proof. solve_decision. Defined.

Definition entry_key (e : entry) : list Z :=
  match e with Put k _ => k | Delete k => k end.
Definition entry_value (e : entry) : list Z :=
  match e with Put _ v => v | Delete _ => [] end.
Definition is_put (e : entry) : bool := match e with Put _ _ => true | Delete _ => false end.

(** The two numbers in front of an entry, and its encoding. *)
Definition entry_prefix (e : entry) : list Z :=
  match e with
  | Put k v => write_vlq (zlen k + 1) ++ write_vlq (zlen v)
  | Delete k => write_vlq 0 ++ write_vlq (zlen k)
  end.
Definition encode_entry (e : entry) : list Z :=
  entry_prefix e ++ entry_key e ++ entry_value e.
Definition log_body (es : list entry) : list Z := concat (map encode_entry es).

Definition puts_of (es : list entry) : list entry := base.filter (λ e, is_put e = true) es.
Definition deletes_of (es : list entry) : list entry := base.filter (λ e, is_put e = false) es.
Definition max_len (f : entry → list Z) (es : list entry) : Z :=
  foldr Z.max 0 (map (λ e, zlen (f e)) es).

(** The header of an uncompressed log that holds [es]; [header_size] is a field
    the writer leaves alone. *)
Definition log_header (fid : Z) (es : list entry) (data_end header_size : Z) : sparkey_logheader :=
  LogHeader LOG_MAJOR_VERSION LOG_MINOR_VERSION fid (zlen (puts_of es)) (zlen (deletes_of es))
    data_end (max_len entry_key (puts_of es)) (max_len entry_value (puts_of es))
    (zlen (log_body (deletes_of es))) SPARKEY_COMPRESSION_NONE 0
    (zlen (log_body (puts_of es))) header_size 0.

Definition log_end (es : list entry) : Z := LOG_HEADER_SIZE + zlen (log_body es).

(** The bytes of the log file. *)
Definition log_file (fid : Z) (es : list entry) : list Z :=
  logheader_bytes (log_header fid es (log_end es) LOG_HEADER_SIZE) ++ log_body es.

(** Byte values, and a total size any disk can hold. *)
Definition entry_ok (e : entry) : Prop := bytes_ok (entry_key e) ∧ bytes_ok (entry_value e).
Definition log_ok (es : list entry) : Prop := Forall entry_ok es ∧ log_end es < 2 ^ 62.

(** The meaning of a log: a map from keys to values. *)
Definition apply_entry (m : gmap (list Z) (list Z)) (e : entry) : gmap (list Z) (list Z) :=
  match e with Put k v => <[k := v]> m | Delete k => delete k m end.
Definition replay (es : list entry) : gmap (list Z) (list Z) := fold_left apply_entry es ∅.

(** The puts that nothing later replaces or deletes, in the order of the log. *)
Fixpoint live_entries (es : list entry) : list entry :=
  match es with
  | [] => []
  | e :: es => (if decide (is_put e = true ∧ entry_key e ∉ entry_key <$> es) then [e] else [])
               ++ live_entries es
  end.

(** ** Lemmas *)

Lemma log_body_app a b : log_body (a ++ b) = log_body a ++ log_body b.
Proof. unfold log_body. by rewrite map_app, concat_app. Qed.

Lemma log_body_one e : log_body [e] = encode_entry e.
Proof. unfold log_body. cbn. by rewrite app_nil_r. Qed.

Lemma max_len_app f a b : max_len f (a ++ b) = Z.max (max_len f a) (max_len f b).
Proof.
  unfold max_len. induction a as [|e a IH]; cbn.
  - assert (0 ≤ foldr Z.max 0 (map (λ e, zlen (f e)) b)); [|lia].
    induction b; cbn; lia.
  - rewrite IH. lia.
Qed.

Lemma max_len_nonneg f es : 0 ≤ max_len f es.
Proof. unfold max_len. induction es as [|e es IH]; cbn; lia. Qed.

Lemma max_len_elem f es e : e ∈ es → zlen (f e) ≤ max_len f es.
Proof. unfold max_len. induction 1 as [e es|e x es _ IH]; cbn; lia. Qed.

Lemma max_len_one f e : max_len f [e] = zlen (f e).
Proof. unfold max_len. cbn. lia. Qed.

Lemma puts_of_app a b : puts_of (a ++ b) = puts_of a ++ puts_of b.
Proof. apply list.filter_app. Qed.

Lemma deletes_of_app a b : deletes_of (a ++ b) = deletes_of a ++ deletes_of b.
Proof. apply list.filter_app. Qed.

Lemma replay_app a b : replay (a ++ b) = fold_left apply_entry b (replay a).
Proof. apply fold_left_app. Qed.

Lemma replay_snoc es e k :
  replay (es ++ [e]) !! k =
    (if decide (k = entry_key e) then if is_put e then Some (entry_value e) else None else replay es !! k).
Proof.
  rewrite replay_app. cbn [fold_left]. destruct e as [k' v|k']; cbn [apply_entry entry_key is_put entry_value];
    case_decide as E; subst;
    by rewrite ?lookup_insert_eq, ?lookup_delete_eq, ?lookup_insert_ne, ?lookup_delete_ne.
Qed.

(** What is live in a longer log: what was, unless its key comes again. *)
Lemma live_entries_app a b :
  live_entries (a ++ b) =
    base.filter (λ e, entry_key e ∉ entry_key <$> b) (live_entries a) ++ live_entries b.
Proof.
  induction a as [|e a IH]; [done|]. cbn [app live_entries]. rewrite IH, list.filter_app, app_assoc. f_equal.
  f_equal. rewrite fmap_app.
  rewrite (decide_ext _ (is_put e = true ∧ (entry_key e ∉ entry_key <$> a) ∧ (entry_key e ∉ entry_key <$> b)))
    by (rewrite elem_of_app; tauto).
  destruct (decide (entry_key e ∈ entry_key <$> b)) as [Hb|Hb].
  - rewrite decide_False by tauto. case_decide; [|done]. by rewrite filter_cons, decide_False by tauto.
  - rewrite (decide_ext _ (is_put e = true ∧ entry_key e ∉ entry_key <$> a)) by tauto.
    case_decide; [|done]. by rewrite filter_cons, decide_True by tauto.
Qed.

Lemma live_entries_puts es :
  Forall (λ e, is_put e = true) es → NoDup (entry_key <$> es) → live_entries es = es.
Proof.
  induction 1 as [|e es He _ IH]; [done|]. cbn [fmap list_fmap live_entries]. intros Hnd.
  inversion Hnd as [|? ? Hn Hd]; subst. by rewrite decide_True, IH.
Qed.

Lemma live_entries_deletes es : Forall (λ e, is_put e = false) es → live_entries es = [].
Proof.
  induction 1 as [|e es He _ IH]; [done|]. cbn [live_entries]. rewrite IH, decide_False; [done|].
  intros [Hp _]. congruence.
Qed.

Lemma live_entries_in es e : e ∈ live_entries es → e ∈ es ∧ is_put e = true.
Proof.
  induction es as [|x es IH]; [by intros H%not_elem_of_nil|]. cbn [live_entries].
  rewrite elem_of_app, elem_of_cons. intros [H|H]; [|naive_solver].
  case_decide; [apply list_elem_of_singleton in H; naive_solver|by apply not_elem_of_nil in H].
Qed.

Lemma live_entries_nodup es : NoDup (entry_key <$> live_entries es).
Proof.
  induction es as [|e es IH]; [constructor|]. cbn [live_entries]. case_decide as He; [|done].
  cbn [app fmap list_fmap]. apply NoDup_cons_2; [|done].
  intros (x & Hkx & [Hx _]%live_entries_in)%list_elem_of_fmap. apply He. rewrite Hkx. by apply list_elem_of_fmap_2.
Qed.

Lemma live_entries_one e : live_entries [e] = if is_put e then [e] else [].
Proof.
  cbn [live_entries fmap list_fmap]. rewrite app_nil_r. destruct (is_put e).
  - apply decide_True. split; [done|apply not_elem_of_nil].
  - apply decide_False. by intros [? _].
Qed.

(** The live entries are the map that replaying gives. *)
Lemma replay_live es k v : replay es !! k = Some v ↔ Put k v ∈ live_entries es.
Proof.
  induction es as [|e es IH] using rev_ind.
  { split; [unfold replay; cbn; by rewrite lookup_empty|by intros Hin%not_elem_of_nil]. }
  rewrite replay_snoc, live_entries_app, elem_of_app, list_elem_of_filter, live_entries_one.
  cbn [fmap list_fmap entry_key]. rewrite list_elem_of_singleton, <- IH. case_decide as Hk.
  - subst k. destruct e as [k' v'|k']; cbn [is_put entry_key entry_value].
    + rewrite list_elem_of_singleton. naive_solver.
    + split; [done|]. intros [[Hne _]|Hin%not_elem_of_nil]; done.
  - destruct e as [k' v'|k']; cbn [is_put entry_key] in *.
    + rewrite list_elem_of_singleton. naive_solver.
    + split; [tauto|]. intros [[_ H]|Hin%not_elem_of_nil]; done.
Qed.

(** An entry is at least two bytes longer than its key and value. *)
Lemma write_vlq_pos v : 1 ≤ zlen (write_vlq v).
Proof. unfold write_vlq. cbn [write_vlq_loop]. case_decide; cbn [length]; lia. Qed.

Lemma entry_prefix_pos e : 2 ≤ zlen (entry_prefix e).
Proof.
  destruct e as [k v|k]; cbn [entry_prefix]; rewrite length_app.
  - pose proof (write_vlq_pos (zlen k + 1)). pose proof (write_vlq_pos (zlen v)). lia.
  - pose proof (write_vlq_pos 0). pose proof (write_vlq_pos (zlen k)). lia.
Qed.

Lemma encode_entry_bounds e :
  zlen (entry_key e) + zlen (entry_value e) < 2 ^ 63 →
  zlen (entry_key e) + zlen (entry_value e) + 2 ≤ zlen (encode_entry e).
Proof.
  intros Hl. unfold encode_entry. rewrite !length_app. pose proof (entry_prefix_pos e). lia.
Qed.

Lemma log_end_app a b : log_end (a ++ b) = log_end a + zlen (log_body b).
Proof. unfold log_end. rewrite log_body_app, length_app. lia. Qed.

Lemma log_ok_app a b : log_ok (a ++ b) → log_ok a.
Proof.
  intros [Hf Hl]. apply Forall_app in Hf as [? _]. split; [done|]. rewrite log_end_app in Hl. lia.
Qed.

Lemma encode_entry_size es e :
  e ∈ es → zlen (encode_entry e) ≤ zlen (log_body es).
Proof.
  intros (a & b & ->)%list_elem_of_split.
  rewrite log_body_app. change (e :: b) with ([e] ++ b). rewrite log_body_app, log_body_one.
  rewrite !length_app. lia.
Qed.

Lemma log_ok_entry es e :
  log_ok es → e ∈ es →
  entry_ok e ∧ zlen (entry_key e) + zlen (entry_value e) < 2 ^ 62.
Proof.
  intros [Hf Hl] He. split; [by eapply list.Forall_forall in Hf|].
  pose proof (encode_entry_size _ _ He) as Hs. unfold log_end, LOG_HEADER_SIZE, encode_entry in *.
  rewrite !length_app in Hs. lia.
Qed.

(** Every counter of the header is below the size of the log. *)
Lemma body_filter_bounds es P {HP : ∀ e, Decision (P e)} :
  log_ok es →
  0 ≤ zlen (base.filter P es) ∧ zlen (base.filter P es) ≤ zlen (log_body (base.filter P es)) ∧
  zlen (log_body (base.filter P es)) ≤ zlen (log_body es).
Proof.
  induction es as [|e es IH] using rev_ind; intros Hok; [rewrite filter_nil; cbn; lia|].
  specialize (IH (log_ok_app _ _ Hok)).
  destruct (log_ok_entry _ e Hok) as [_ He]; [set_solver|].
  pose proof (encode_entry_bounds e).
  rewrite list.filter_app, !log_body_app, !length_app, log_body_one.
  rewrite filter_cons, filter_nil. change (log_body []) with (@nil Z).
  case_decide; rewrite ?log_body_one; change (log_body []) with (@nil Z); cbn [length]; lia.
Qed.

Lemma max_len_bounds f es P {HP : ∀ e, Decision (P e)} :
  (∀ e, zlen (f e) ≤ zlen (encode_entry e)) →
  0 ≤ max_len f (base.filter P es) ≤ zlen (log_body es).
Proof.
  intros Hf. induction es as [|e es IH] using rev_ind; [rewrite filter_nil; cbn; lia|].
  rewrite list.filter_app, max_len_app, log_body_app, length_app, log_body_one.
  rewrite filter_cons, filter_nil. specialize (Hf e).
  case_decide; rewrite ?max_len_one; change (max_len f []) with 0; lia.
Qed.

Lemma entry_key_size e : zlen (entry_key e) ≤ zlen (encode_entry e).
Proof. unfold encode_entry. rewrite !length_app. lia. Qed.

Lemma entry_value_size e : zlen (entry_value e) ≤ zlen (encode_entry e).
Proof. unfold encode_entry. rewrite !length_app. lia. Qed.

(** The header of a log passes the checks of the loader. *)
Lemma log_header_typed fid es :
  0 ≤ fid < 2 ^ 32 → log_ok es →
  logheader_typed (log_header fid es (log_end es) LOG_HEADER_SIZE).
Proof.
  intros Hfid Hok. pose proof (body_filter_bounds es (λ e, is_put e = true) Hok).
  pose proof (body_filter_bounds es (λ e, is_put e = false) Hok).
  pose proof (max_len_bounds entry_key es (λ e, is_put e = true) entry_key_size).
  pose proof (max_len_bounds entry_value es (λ e, is_put e = true) entry_value_size).
  destruct Hok as [_ Hl]. unfold logheader_typed, log_header, puts_of, deletes_of. cbn [lh_file_identifier
    lh_num_puts lh_num_deletes lh_data_end lh_max_key_len lh_max_value_len lh_delete_size
    lh_compression_type lh_compression_block_size lh_put_size lh_max_entries_per_block].
  unfold log_end, LOG_HEADER_SIZE, SPARKEY_COMPRESSION_NONE in *. lia.
Qed.

Lemma log_header_valid fid es :
  log_ok es → logheader_valid (log_header fid es (log_end es) LOG_HEADER_SIZE).
Proof.
  intros Hok. pose proof (body_filter_bounds es (λ e, is_put e = true) Hok).
  pose proof (body_filter_bounds es (λ e, is_put e = false) Hok).
  unfold logheader_valid, log_header, puts_of, deletes_of. cbn.
  unfold log_end, LOG_HEADER_SIZE, SPARKEY_COMPRESSION_NONE, SPARKEY_COMPRESSION_ZSTD in *. lia.
Qed.

Lemma encode_entry_ok e :
  entry_ok e → bytes_ok (encode_entry e).
Proof.
  intros [Hk Hv]. unfold encode_entry. rewrite !bytes_ok_app. split_and!; [|done..].
  destruct e; cbn [entry_prefix]; rewrite bytes_ok_app; split; apply write_vlq_ok; lia.
Qed.

Lemma log_body_ok es : Forall entry_ok es → bytes_ok (log_body es).
Proof.
  induction 1; [by constructor|]. change (x :: l) with ([x] ++ l).
  rewrite log_body_app, log_body_one, bytes_ok_app. split; [by apply encode_entry_ok|done].
Qed.
