(* ===== verification/LogWriter.v ===== *)
(** * The log writer (logwriter.c)

    The writer's record, its creation, appending to an existing log, puts and
    deletes with and without compression, flushing and closing. *)

From stdpp Require Import base gmap list strings numbers.
From Stdlib Require Import ZArith Lia.
From S2P Require Import Prelude ReturnCodes Endian OS Vlq LogHeader Buf Compress LogFormat.

Local Open Scope Z_scope.

(** ** Definitions *)

Definition MAGIC_VALUE_LOGWRITER : Z := 0x2866211b.

(** [w_compressed] tells whether the pointer is not NULL: the scratch space it
    points to is overwritten before it is read. *)
Record sparkey_logwriter : Type := LogWriter {
  w_open_status : Z;
  w_header : sparkey_logheader;
  w_fd : Z;
  w_block_buf : sparkey_buf;
  w_max_compressed_size : Z;
  w_compressed : bool;
  w_file_buf : sparkey_buf;
  w_flushed : bool;
  w_entry_count : Z
}.

Definition set_w_open_status x w := LogWriter x (w_header w) (w_fd w) (w_block_buf w)
  (w_max_compressed_size w) (w_compressed w) (w_file_buf w) (w_flushed w) (w_entry_count w).
Definition set_w_header x w := LogWriter (w_open_status w) x (w_fd w) (w_block_buf w)
  (w_max_compressed_size w) (w_compressed w) (w_file_buf w) (w_flushed w) (w_entry_count w).
Definition set_w_block_buf x w := LogWriter (w_open_status w) (w_header w) (w_fd w) x
  (w_max_compressed_size w) (w_compressed w) (w_file_buf w) (w_flushed w) (w_entry_count w).
Definition set_w_file_buf x w := LogWriter (w_open_status w) (w_header w) (w_fd w) (w_block_buf w)
  (w_max_compressed_size w) (w_compressed w) x (w_flushed w) (w_entry_count w).
Definition set_w_flushed x w := LogWriter (w_open_status w) (w_header w) (w_fd w) (w_block_buf w)
  (w_max_compressed_size w) (w_compressed w) (w_file_buf w) x (w_entry_count w).
Definition set_w_entry_count x w := LogWriter (w_open_status w) (w_header w) (w_fd w)
  (w_block_buf w) (w_max_compressed_size w) (w_compressed w) (w_file_buf w) (w_flushed w) x.

(** Header updates of the writer. *)
Definition set_lh_data_end x h := LogHeader (lh_major_version h) (lh_minor_version h)
  (lh_file_identifier h) (lh_num_puts h) (lh_num_deletes h) x (lh_max_key_len h)
  (lh_max_value_len h) (lh_delete_size h) (lh_compression_type h) (lh_compression_block_size h)
  (lh_put_size h) (lh_header_size h) (lh_max_entries_per_block h).
Definition set_lh_max_entries_per_block x h := LogHeader (lh_major_version h) (lh_minor_version h)
  (lh_file_identifier h) (lh_num_puts h) (lh_num_deletes h) (lh_data_end h) (lh_max_key_len h)
  (lh_max_value_len h) (lh_delete_size h) (lh_compression_type h) (lh_compression_block_size h)
  (lh_put_size h) (lh_header_size h) x.
Definition set_lh_compression_block_size x h := LogHeader (lh_major_version h)
  (lh_minor_version h) (lh_file_identifier h) (lh_num_puts h) (lh_num_deletes h) (lh_data_end h)
  (lh_max_key_len h) (lh_max_value_len h) (lh_delete_size h) (lh_compression_type h) x
  (lh_put_size h) (lh_header_size h) (lh_max_entries_per_block h).

(** The counters after a put and after a delete. *)
Definition count_put (datasize keylen valuelen : Z) (h : sparkey_logheader) :=
  LogHeader (lh_major_version h) (lh_minor_version h) (lh_file_identifier h)
    (u64 (lh_num_puts h + 1)) (lh_num_deletes h) (lh_data_end h)
    (if decide (keylen > lh_max_key_len h) then keylen else lh_max_key_len h)
    (if decide (valuelen > lh_max_value_len h) then valuelen else lh_max_value_len h)
    (lh_delete_size h) (lh_compression_type h) (lh_compression_block_size h)
    (u64 (lh_put_size h + datasize)) (lh_header_size h) (lh_max_entries_per_block h).
Definition count_delete (datasize : Z) (h : sparkey_logheader) :=
  LogHeader (lh_major_version h) (lh_minor_version h) (lh_file_identifier h)
    (lh_num_puts h) (u64 (lh_num_deletes h + 1)) (lh_data_end h) (lh_max_key_len h)
    (lh_max_value_len h) (u64 (lh_delete_size h + datasize)) (lh_compression_type h)
    (lh_compression_block_size h) (lh_put_size h) (lh_header_size h)
    (lh_max_entries_per_block h).

(** The state of the writer's functions. *)
Abbreviation WS := (os * sparkey_logwriter)%type.

Definition get_writer : MC WS sparkey_logwriter := get_snd.
Definition upd_writer (f : sparkey_logwriter → sparkey_logwriter) : MC WS unit := on_snd f.

(** A buffer action on the file buffer. *)
Definition on_file_buf {A} (m : MC (os * sparkey_buf) A) : MC WS A :=
  zoom (λ s, (s.1, w_file_buf s.2)) (λ p s, (p.1, set_w_file_buf p.2 s.2)) m.

(** The error label: [if (fd > 0) close(fd); return returncode;]. *)
Definition close_on_error {A} (fd : Z) (m : MC os A) : MC os A := λ o,
  match m o with
  | (Err e, o') => (Err e, if decide (fd > 0) then (sys_close fd o').2 else o')
  | r => r
  end.

Definition assert_writer_open : MC WS unit :=
  log ← get_writer;
  if decide (w_open_status log ≠ MAGIC_VALUE_LOGWRITER) then fail SPARKEY_LOG_CLOSED
  else mret tt.

Section LogWriter.
Context {C : Codec}.

(** The compressor part of creation: block size, bound and the scratch space. *)
Definition create_compressor (compression_type compression_block_size : Z)
    : MC os (Z * Z * bool) :=
  if sparkey_uses_compressor compression_type then
    if decide (compression_block_size < 10) then fail SPARKEY_INVALID_COMPRESSION_BLOCK_SIZE
    else
      c ← of_opt (sparkey_compressors compression_type);
      let m := max_compressed_size c (u32 compression_block_size) in
      ok ← sys_malloc;
      if (ok : bool) then mret (compression_block_size, m, true)
      else fail SPARKEY_INTERNAL_ERROR
  else mret (0, 0, false).

(** The fields the code does not initialise are 0 or false; they are not read
    before they are set. *)
Definition sparkey_logwriter_create (filename : string) (compression_type block_size : Z)
    : MC os sparkey_logwriter :=
  ok ← sys_malloc;
  if negb ok then fail SPARKEY_INTERNAL_ERROR else
  cc ← create_compressor compression_type block_size;
  let '(compression_block_size, max_size, compressed) := cc in
  r ← sys_remove filename;
  _ ← match r with
      | inl e => if decide (e ≠ ENOENT) then fail (sparkey_remove_returncode e) else mret tt
      | inr _ => mret tt
      end;
  r ← sys_create filename;
  match r with
  | inl e => fail (sparkey_create_returncode e)
  | inr fd => close_on_error fd
      (file_identifier ← rand32;
       let header := LogHeader LOG_MAJOR_VERSION LOG_MINOR_VERSION file_identifier 0 0
         LOG_HEADER_SIZE 0 0 0 compression_type (u32 compression_block_size) 0 0 0 in
       _ ← write_logheader fd header;
       pos ← sys_lseek_cur fd;
       if decide (pos ≠ LOG_HEADER_SIZE) then fail SPARKEY_INTERNAL_ERROR else
       file_buf ← buf_init (1024 * 1024);
       block_buf ← buf_init compression_block_size;
       mret (LogWriter MAGIC_VALUE_LOGWRITER header fd block_buf max_size compressed
               file_buf false 0))
  end.

(** The compressor part of appending; the scratch space is not checked. *)
Definition append_compressor (header : sparkey_logheader) : MC os (sparkey_logheader * Z * bool) :=
  if sparkey_uses_compressor (lh_compression_type header) then
    if decide (lh_compression_block_size header < 10)
    then fail SPARKEY_INVALID_COMPRESSION_BLOCK_SIZE
    else
      c ← of_opt (sparkey_compressors (lh_compression_type header));
      compressed ← sys_malloc;
      mret (header, max_compressed_size c (lh_compression_block_size header), compressed)
  else mret (set_lh_compression_block_size 0 header, 0, false).

Definition sparkey_logwriter_append (filename : string) : MC os sparkey_logwriter :=
  ok ← sys_malloc;
  if negb ok then fail SPARKEY_INTERNAL_ERROR else
  header ← sparkey_load_logheader filename;
  if decide (lh_major_version header ≠ LOG_MAJOR_VERSION)
  then fail SPARKEY_WRONG_LOG_MAJOR_VERSION else
  if decide (lh_minor_version header ≠ LOG_MINOR_VERSION)
  then fail SPARKEY_UNSUPPORTED_LOG_MINOR_VERSION else
  hc ← append_compressor header;
  let '(header, max_size, compressed) := hc in
  r ← sys_open filename;
  match r with
  | inl e => fail (sparkey_create_returncode e)
  | inr fd => close_on_error fd
      (_ ← sys_lseek_set fd (lh_data_end header);
       file_buf ← buf_init (1024 * 1024);
       block_buf ← buf_init (lh_compression_block_size header);
       mret (LogWriter MAGIC_VALUE_LOGWRITER header fd block_buf max_size compressed
               file_buf false 0))
  end.

(** Compress the block buffer into the file buffer. *)
Definition flush_compressed : MC WS unit :=
  _ ← upd_writer (set_w_flushed true);
  _ ← upd_writer (λ log,
        if decide (w_entry_count log > s32 (lh_max_entries_per_block (w_header log)))
        then set_w_header (set_lh_max_entries_per_block (u32 (w_entry_count log)) (w_header log)) log
        else log);
  _ ← upd_writer (set_w_entry_count 0);
  log ← get_writer;
  c ← of_opt (sparkey_compressors (lh_compression_type (w_header log)));
  if negb (w_compressed log) then undefined else
  compressed ← of_res (compress c (b_used (w_block_buf log)) (w_max_compressed_size log));
  _ ← on_file_buf (buf_add (w_fd log) (write_vlq (zlen compressed)));
  _ ← on_file_buf (buf_add (w_fd log) compressed);
  upd_writer (λ log, set_w_block_buf (buf_reset (w_block_buf log)) log).

(** The second half of a flush: the file buffer goes to the file, and the header
    over the old one. *)
Definition flush_file : MC WS unit :=
  log ← get_writer;
  _ ← (if decide (buf_used (w_file_buf log) > 0)
       then on_file_buf (buf_flushfile (w_fd log)) else mret tt);
  pos ← on_os (sys_lseek_cur (w_fd log));
  _ ← upd_writer (λ log, set_w_header (set_lh_data_end (u64 pos) (w_header log)) log);
  log ← get_writer;
  on_os (_ ← sys_lseek_set (w_fd log) 0;
         _ ← write_logheader (w_fd log) (w_header log);
         _ ← sys_lseek_set (w_fd log) pos;
         mret tt).

Definition sparkey_logwriter_flush : MC WS unit :=
  _ ← assert_writer_open;
  log ← get_writer;
  _ ← (if decide (buf_used (w_block_buf log) > 0) then flush_compressed else mret tt);
  flush_file.

(** The pointer [*log]: [None] is NULL, which must not be closed. *)
Definition sparkey_logwriter_close : MC (os * option sparkey_logwriter) unit := λ s,
  match s with
  | (o, None) => (UB, s)
  | (o, Some l) =>
      if decide (w_open_status l ≠ MAGIC_VALUE_LOGWRITER) then (Ok tt, s) else
      match sparkey_logwriter_flush (o, l) with
      | (Ok _, (o, l)) => (Ok tt, ((sys_close (w_fd l) o).2, None))
      | (Err e, (o, l)) => (Err e, (o, Some l))
      | (UB, (o, l)) => (UB, (o, Some l))
      | (NoFuel, (o, l)) => (NoFuel, (o, Some l))
      end
  end.

(** The block buffer is filled and compressed as [buf_add] fills and flushes. *)
Fixpoint compressed_add_loop (fuel : nat) (data : list Z) : MC WS unit :=
  match fuel with
  | O => out_of_fuel
  | S fuel =>
      log ← get_writer;
      let remaining := buf_remaining (w_block_buf log) in
      if decide (remaining >= zlen data)
      then upd_writer (λ log, set_w_block_buf (buf_fill data (w_block_buf log)) log)
      else
        _ ← upd_writer (λ log, set_w_block_buf
              (buf_fill (take (Z.to_nat remaining) data) (w_block_buf log)) log);
        _ ← flush_compressed;
        compressed_add_loop fuel (drop (Z.to_nat remaining) data)
  end.

Definition compressed_add (data : list Z) : MC WS unit :=
  compressed_add_loop (S (S (length data))) data.

(** An entry: two numbers and two byte strings; the result is [*datasize]. *)
Definition log_add (num1 num2 : Z) (data1 data2 : list Z) : MC WS Z :=
  let buf1 := write_vlq num1 in
  let buf2 := write_vlq num2 in
  let size := u64 (zlen buf1 + zlen buf2 + zlen data1 + zlen data2) in
  log ← get_writer;
  if sparkey_uses_compressor (lh_compression_type (w_header log)) then
    let remaining := buf_remaining (w_block_buf log) in
    let fits_in_one := bool_decide (size ≤ buf_size (w_block_buf log)) in
    let doesnt_fit_this := bool_decide (size > remaining) in
    _ ← (if bool_decide (remaining < zlen buf1 + zlen buf2) || (fits_in_one && doesnt_fit_this)
         then flush_compressed else mret tt);
    _ ← upd_writer (λ log, set_w_entry_count (s32 (w_entry_count log + 1)) log);
    _ ← upd_writer (set_w_flushed false);
    _ ← compressed_add buf1;
    _ ← compressed_add buf2;
    _ ← compressed_add data1;
    _ ← compressed_add data2;
    log ← get_writer;
    _ ← (if w_flushed log && bool_decide (buf_used (w_block_buf log) > 0)
         then flush_compressed else mret tt);
    mret (s64 size)
  else
    _ ← on_file_buf (buf_add (w_fd log) buf1);
    _ ← on_file_buf (buf_add (w_fd log) buf2);
    _ ← on_file_buf (buf_add (w_fd log) data1);
    _ ← on_file_buf (buf_add (w_fd log) data2);
    mret (s64 size).

Definition sparkey_logwriter_put (key value : list Z) : MC WS unit :=
  _ ← assert_writer_open;
  datasize ← log_add (u64 (zlen key + 1)) (zlen value) key value;
  upd_writer (λ log, set_w_header (count_put datasize (zlen key) (zlen value) (w_header log)) log).

Definition sparkey_logwriter_delete (key : list Z) : MC WS unit :=
  _ ← assert_writer_open;
  datasize ← log_add 0 (zlen key) [] key;
  upd_writer (λ log, set_w_header (count_delete datasize (w_header log)) log).

(** A client that adds entries one after the other. *)
Definition add_entry (e : entry) : MC WS unit :=
  match e with
  | Put k v => sparkey_logwriter_put k v
  | Delete k => sparkey_logwriter_delete k
  end.

Fixpoint add_entries (es : list entry) : MC WS unit :=
  match es with
  | [] => mret tt
  | e :: es => _ ← add_entry e; add_entries es
  end.

End LogWriter.

(** Writing a log in one session: create, add the entries, close. *)
Definition write_log {C : Codec} (filename : string) (compression_type block_size : Z)
    (es : list entry) : MC os unit := λ o,
  match sparkey_logwriter_create filename compression_type block_size o with
  | (Ok w, o) =>
      let '(r, (o, w)) := add_entries es (o, w) in
      match r with
      | Ok _ => let '(r, (o, _)) := sparkey_logwriter_close (o, Some w) in (r, o)
      | _ => (r, o)
      end
  | (Err e, o) => (Err e, o)
  | (UB, o) => (UB, o)
  | (NoFuel, o) => (NoFuel, o)
  end.

(** ** Appending to the data of an uncompressed log *)

(** The data of the log is what follows the header in the file, and then the
    bytes in the file buffer. *)
Definition log_data (ino : nat) (s : WS) (data : list Z) : Prop :=
  buf_ok (w_file_buf s.2) ∧
  ∃ c, fd_open s.1 (w_fd s.2) ino (zlen c) ∧ os_inodes s.1 !! ino = Some c ∧
    LOG_HEADER_SIZE ≤ zlen c ∧ drop (Z.to_nat LOG_HEADER_SIZE) c ++ b_used (w_file_buf s.2) = data.

(** Only the file buffer of the writer, and only its file, may change. *)
Definition ws_frame (ino : nat) (s s' : WS) : Prop :=
  (∃ b, s'.2 = set_w_file_buf b s.2) ∧ os_frame (w_fd s.2) ino s.1 s'.1.

(** The environment made a write fail for good. *)
Definition write_failed {A} (o : os) (r : res returncode A) : Prop :=
  ∃ e, r = Err e ∧ write_error e ∧ Exists fatal (os_sched o).

Lemma write_failed_frame {A} fd ino o o' (r : res returncode A) :
  os_frame fd ino o o' → write_failed o' r → write_failed o r.
Proof.
  intros (_ & [l Hl] & _) (e & -> & He & Hx). exists e. split_and!; [done..|].
  rewrite Hl. apply Exists_app. by right.
Qed.

(** ** The outcome of an action of the writer *)

(** It keeps the descriptor and touches only the file of the log; it succeeds with
    the postcondition, or the environment made a write fail for good. *)
Definition outcome {A} (ino : nat) (s : WS) (Q : A → WS → Prop) (p : res returncode A * WS) : Prop :=
  os_frame (w_fd s.2) ino s.1 p.2.1 ∧ w_fd p.2.2 = w_fd s.2 ∧
  ((∃ a, p.1 = Ok a ∧ Q a p.2) ∨ write_failed s.1 p.1).

Lemma outcome_ret {A} ino s (Q : A → WS → Prop) a : Q a s → outcome ino s Q ((mret a : MC WS A) s).
Proof. intros HQ. split; [apply os_frame_refl|]. split; [done|]. left. by exists a. Qed.

Lemma outcome_weaken {A} ino s (Q Q' : A → WS → Prop) p :
  outcome ino s Q p → (∀ a s', Q a s' → Q' a s') → outcome ino s Q' p.
Proof.
  intros (Hf & Hd & [(a & Hr & HQ)|He]) Hw; (split; [done|]); (split; [done|]); [left|by right].
  exists a. split; [done|]. by apply Hw.
Qed.

Lemma outcome_bind {A B} ino s (m : MC WS A) (k : A → MC WS B) Q R :
  outcome ino s Q (m s) → (∀ a s', w_fd s'.2 = w_fd s.2 → Q a s' → outcome ino s' R (k a s')) →
  outcome ino s R ((m ≫= k) s).
Proof.
  intros (Hf & Hd & Hm) Hk. unfold mbind, M_bind. destruct (m s) as [r s1]. cbn [fst snd] in *.
  destruct Hm as [(a & -> & HQ)|(e & -> & He)].
  - destruct (Hk a s1 Hd HQ) as (Hf1 & Hd1 & Hr). rewrite Hd in *.
    split; [by eapply os_frame_trans|]. split; [done|].
    destruct Hr as [Hr|Hr]; [by left|right; by eapply write_failed_frame].
  - split; [done|]. split; [done|]. right. by exists e.
Qed.

(** Changes of the writer in memory. *)
Lemma outcome_upd ino s (f : sparkey_logwriter → sparkey_logwriter) (Q : unit → WS → Prop) :
  w_fd (f s.2) = w_fd s.2 → Q tt (s.1, f s.2) → outcome ino s Q (upd_writer f s).
Proof. intros Hd HQ. split; [apply os_frame_refl|]. split; [done|]. left. by exists tt. Qed.

Lemma outcome_get {B} ino s (k : sparkey_logwriter → MC WS B) R :
  outcome ino s R (k s.2 s) → outcome ino s R ((get_writer ≫= k) s).
Proof. done. Qed.

(** An action appended [bs] to the data of the log and returned [a], or failed. *)
Definition added {A} (ino : nat) (s : WS) (data bs : list Z) (a : A) (p : res returncode A * WS)
    : Prop :=
  ws_frame ino s p.2 ∧
  ((p.1 = Ok a ∧ log_data ino p.2 (data ++ bs)) ∨ write_failed s.1 p.1).

Lemma ws_frame_trans ino s1 s2 s3 : ws_frame ino s1 s2 → ws_frame ino s2 s3 → ws_frame ino s1 s3.
Proof.
  intros [[b1 H1] Hf1] [[b2 H2] Hf2]. rewrite H1 in H2, Hf2. split; [by exists b2|].
  by eapply os_frame_trans.
Qed.

Lemma on_file_buf_run {A} (m : MC (os * sparkey_buf) A) o w :
  on_file_buf m (o, w) =
    let '(r, (o', b')) := m (o, w_file_buf w) in (r, (o', set_w_file_buf b' w)).
Proof. unfold on_file_buf, zoom. cbn. by destruct (m _) as [? []]. Qed.

(** What a buffered write does to the data of the log. *)
Lemma buffered_log_data fd ino c bs o w r o' b' :
  w_fd w = fd → fd_open o fd ino (zlen c) → os_inodes o !! ino = Some c →
  LOG_HEADER_SIZE ≤ zlen c → buf_ok (w_file_buf w) →
  buffered fd ino (zlen c) bs (o, w_file_buf w) r (o', b') →
  ws_frame ino (o, w) (o', set_w_file_buf b' w) ∧
  ((r = Ok tt ∧ log_data ino (o', set_w_file_buf b' w)
      ((drop (Z.to_nat LOG_HEADER_SIZE) c ++ b_used (w_file_buf w)) ++ bs)) ∨ write_failed o r).
Proof.
  intros <- Hopen Hc Hlen [Hb Hu] (fl & sch & Hsuf & Ho & Hsz & Hu' & Hr). cbn in *. subst o'.
  split; [split; [by exists b'|by apply os_frame_put]|].
  destruct Hr as [[-> Heq]|(e & -> & He & Hf & _)]; [left|right; by exists e].
  split; [done|]. split; [split; cbn; lia|]. exists (c ++ fl). split_and!.
  - apply set_sched_open. rewrite length_app, Nat2Z.inj_add. by apply put_bytes_open.
  - cbn. rewrite lookup_insert_eq, Hc. cbn. by rewrite splice_end.
  - rewrite length_app. lia.
  - cbn. rewrite drop_app_le by lia. rewrite <- !app_assoc. by rewrite Heq.
Qed.

Lemma added_buf_add fd bs s ino data :
  w_fd s.2 = fd → log_data ino s data →
  added ino s data bs tt (on_file_buf (buf_add fd bs) s).
Proof.
  destruct s as [o w]. intros Hfd [Hb (c & Hopen & Hc & Hlen & <-)].
  cbn [fst snd] in *. rewrite on_file_buf_run. rewrite Hfd in Hopen.
  pose proof (buf_add_spec fd ino (zlen c) bs (o, w_file_buf w) Hopen Hb) as H.
  destruct (buf_add fd bs (o, w_file_buf w)) as [r [o' b']].
  by eapply buffered_log_data.
Qed.

(** Bytes through the file buffer. *)
Lemma outcome_buf_add ino s fd bytes data :
  w_fd s.2 = fd → log_data ino s data →
  outcome ino s (λ _ s', (∃ b, s'.2 = set_w_file_buf b s.2) ∧ log_data ino s' (data ++ bytes))
    (on_file_buf (buf_add fd bytes) s).
Proof.
  intros Hfd Hd. destruct (added_buf_add fd bytes s ino data Hfd Hd) as [[[b Hb] Hf] Hr].
  split; [done|]. split; [by rewrite Hb|]. destruct Hr as [[Hr Hd']|Hr]; [left|by right].
  exists tt. split; [done|]. split; [by exists b|done].
Qed.

Lemma added_step {B} fd bs rest (k : unit → MC WS B) s ino data b :
  w_fd s.2 = fd → log_data ino s data →
  (∀ s', w_fd s'.2 = fd → log_data ino s' (data ++ bs) → added ino s' (data ++ bs) rest b (k tt s')) →
  added ino s data (bs ++ rest) b ((on_file_buf (buf_add fd bs) ≫= k) s).
Proof.
  intros Hfd Hd Hk. pose proof (added_buf_add fd bs s ino data Hfd Hd) as H.
  unfold mbind, M_bind. destruct (on_file_buf (buf_add fd bs) s) as [r s1].
  destruct H as [Hfr [[Hr Hd1]|(e & Hr & He)]]; cbn [fst snd] in *; subst r;
    [|split; [done|right; by exists e]].
  assert (Hfd1 : w_fd s1.2 = fd) by (destruct Hfr as [[b' ->] _]; done).
  destruct (Hk s1 Hfd1 Hd1) as [Hfr2 Hk2]. split; [by eapply ws_frame_trans|].
  rewrite app_assoc. destruct Hk2 as [Hk2|(e & -> & He & Hx)]; [by left|right].
  exists e. split_and!; [done..|]. destruct Hfr as [_ (_ & [l ->] & _)].
  apply Exists_app. by right.
Qed.

(** An entry of an uncompressed log is its two numbers and its two strings. *)
Lemma log_add_plain {C : Codec} num1 num2 data1 data2 s ino data :
  sparkey_uses_compressor (lh_compression_type (w_header s.2)) = false → log_data ino s data →
  added ino s data (write_vlq num1 ++ write_vlq num2 ++ data1 ++ data2)
    (s64 (u64 (zlen (write_vlq num1) + zlen (write_vlq num2) + zlen data1 + zlen data2)))
    (log_add num1 num2 data1 data2 s).
Proof.
  intros Ht Hd. unfold log_add. unfold mbind at 1, M_bind at 1, get_writer, get_snd. rewrite Ht.
  rewrite <- (app_nil_r data2) at 1.
  do 4 (apply added_step; [done|done|]; clear Hd; intros ? ? Hd).
  lazymatch goal with |- added _ ?s _ _ _ _ => destruct s as [o w] end.
  split; [split|left; by rewrite app_nil_r].
  - exists (w_file_buf w). by destruct w.
  - apply os_frame_refl.
Qed.

(** ** The writer of an uncompressed log *)

(** The writer is open, has counted [es], and the file and the file buffer
    together hold the encoding of [es]. *)
Definition writer_inv (fid : Z) (es : list entry) (ino : nat) (s : WS) : Prop :=
  w_open_status s.2 = MAGIC_VALUE_LOGWRITER ∧ w_block_buf s.2 = Buf 0 [] ∧
  (∃ data_end header_size, w_header s.2 = log_header fid es data_end header_size) ∧
  log_data ino s (log_body es).

Lemma set_w_header_data ino o w h data :
  log_data ino (o, set_w_header h w) data ↔ log_data ino (o, w) data.
Proof. done. Qed.

Lemma if_gt_max a b : (if decide (a > b) then a else b) = Z.max b a.
Proof. case_decide; lia. Qed.

Lemma count_put_header fid es k v de hs :
  log_ok (es ++ [Put k v]) →
  count_put (zlen (encode_entry (Put k v))) (zlen k) (zlen v) (log_header fid es de hs) =
    log_header fid (es ++ [Put k v]) de hs.
Proof.
  intros Hok. pose proof (body_filter_bounds _ (λ e, is_put e = true) Hok) as Hb.
  fold (puts_of (es ++ [Put k v])) in Hb. rewrite puts_of_app in Hb.
  change (puts_of [Put k v]) with [Put k v] in Hb.
  destruct Hok as [_ Hl]. unfold log_end, LOG_HEADER_SIZE in Hl.
  unfold count_put, log_header. cbn [lh_major_version lh_minor_version lh_file_identifier
    lh_num_puts lh_num_deletes lh_data_end lh_max_key_len lh_max_value_len lh_delete_size
    lh_compression_type lh_compression_block_size lh_put_size lh_header_size
    lh_max_entries_per_block].
  rewrite puts_of_app, deletes_of_app. change (puts_of [Put k v]) with [Put k v].
  change (deletes_of [Put k v]) with (@nil entry). rewrite app_nil_r.
  rewrite !max_len_app, !max_len_one, !if_gt_max.
  rewrite log_body_app, log_body_one in Hb |- *.
  rewrite !length_app, !Nat2Z.inj_add in *. cbn [entry_key entry_value length] in *.
  rewrite !u64_id by lia. done.
Qed.

Lemma count_delete_header fid es k de hs :
  log_ok (es ++ [Delete k]) →
  count_delete (zlen (encode_entry (Delete k))) (log_header fid es de hs) =
    log_header fid (es ++ [Delete k]) de hs.
Proof.
  intros Hok. pose proof (body_filter_bounds _ (λ e, is_put e = false) Hok) as Hb.
  fold (deletes_of (es ++ [Delete k])) in Hb. rewrite deletes_of_app in Hb.
  change (deletes_of [Delete k]) with [Delete k] in Hb.
  destruct Hok as [_ Hl]. unfold log_end, LOG_HEADER_SIZE in Hl.
  unfold count_delete, log_header. cbn [lh_major_version lh_minor_version lh_file_identifier
    lh_num_puts lh_num_deletes lh_data_end lh_max_key_len lh_max_value_len lh_delete_size
    lh_compression_type lh_compression_block_size lh_put_size lh_header_size
    lh_max_entries_per_block].
  rewrite puts_of_app, deletes_of_app. change (deletes_of [Delete k]) with [Delete k].
  change (puts_of [Delete k]) with (@nil entry). rewrite app_nil_r.
  rewrite log_body_app, log_body_one in Hb |- *.
  rewrite !length_app, !Nat2Z.inj_add in *. cbn [length] in *.
  rewrite !u64_id by lia. done.
Qed.

(** The guards of put and delete, and the header update after the entry. *)
Lemma added_counted {C : Codec} fid es e ino s (m : MC WS Z) f datasize :
  writer_inv fid es ino s →
  added ino s (log_body es) (encode_entry e) datasize (m s) →
  (∀ de hs, f datasize (log_header fid es de hs) = log_header fid (es ++ [e]) de hs) →
  let '(r, s') := (_ ← assert_writer_open; d ← m;
                   upd_writer (λ log, set_w_header (f d (w_header log)) log)) s in
  os_frame (w_fd s.2) ino s.1 s'.1 ∧ w_fd s'.2 = w_fd s.2 ∧
  ((r = Ok tt ∧ writer_inv fid (es ++ [e]) ino s') ∨ write_failed s.1 r).
Proof.
  intros (Hop & Hbb & (de & hs & Hh) & Hd) Hm Hf.
  unfold mbind, M_bind, assert_writer_open, get_writer, get_snd.
  unfold mbind, M_bind. rewrite decide_False by (rewrite Hop; tauto). unfold mret, M_ret.
  destruct (m s) as [r s1]. destruct Hm as [[[b Hb] Hfr] [[Hr Hd1]|(err & Hr & He)]];
    cbn [fst snd] in *; subst r.
  2:{ split; [done|]. split; [by rewrite Hb|]. right. by exists err. }
  unfold upd_writer, on_snd, modS. cbn [fst snd]. split; [done|]. split; [by rewrite Hb|]. left.
  split; [done|]. destruct s1 as [o1 w1]. cbn [fst snd] in *. subst w1. split_and!; try done.
  - exists de, hs. cbn. by rewrite Hh, Hf.
  - rewrite log_body_app, log_body_one. exact Hd1.
Qed.

(** The result of an action on an open log that adds [e]. *)
Lemma add_entry_spec {C : Codec} fid es e ino s :
  writer_inv fid es ino s → log_ok (es ++ [e]) →
  let '(r, s') := add_entry e s in
  os_frame (w_fd s.2) ino s.1 s'.1 ∧ w_fd s'.2 = w_fd s.2 ∧
  ((r = Ok tt ∧ writer_inv fid (es ++ [e]) ino s') ∨ write_failed s.1 r).
Proof.
  intros Hinv Hok. destruct (log_ok_entry _ e Hok) as [_ Hl]; [set_solver|].
  pose proof Hok as [_ Hend]. rewrite log_end_app, log_body_one in Hend.
  unfold log_end, LOG_HEADER_SIZE in Hend.
  assert (Ht : sparkey_uses_compressor (lh_compression_type (w_header s.2)) = false).
  { destruct Hinv as (_ & _ & (de & hs & ->) & _). done. }
  assert (Hsize : s64 (u64 (zlen (encode_entry e))) = zlen (encode_entry e)).
  { rewrite u64_id by lia. apply s64_id. lia. }
  destruct e as [k v|k]; cbn [add_entry].
  - eapply (added_counted fid es (Put k v) ino s _
      (λ d h, count_put d (zlen k) (zlen v) h)); [done| |intros; by apply count_put_header].
    cbn [entry_key entry_value] in Hl. rewrite u64_id by lia. rewrite <- Hsize.
    unfold encode_entry in Hsize |- *. cbn [entry_prefix entry_key entry_value] in *.
    rewrite <- !app_assoc, !length_app, !Nat2Z.inj_add, !Z.add_assoc.
    apply log_add_plain; [done|apply Hinv].
  - eapply (added_counted fid es (Delete k) ino s _ count_delete);
      [done| |intros; by apply count_delete_header].
    rewrite <- Hsize. unfold encode_entry in Hsize |- *.
    cbn [entry_prefix entry_key entry_value] in *. rewrite app_nil_r in *.
    rewrite <- !app_assoc, !length_app, !Nat2Z.inj_add, !Z.add_assoc.
    pose proof (log_add_plain 0 (zlen k) [] k s ino (log_body es) Ht (proj2 (proj2 (proj2 Hinv))))
      as H. cbn [length app] in H. rewrite Z.add_0_r in H. exact H.
Qed.

(** ** Flushing and closing *)

(** The file holds the whole log. *)
Definition log_on_disk (fid : Z) (es : list entry) (ino : nat) (s : WS) : Prop :=
  os_inodes s.1 !! ino = Some (log_file fid es) ∧ b_used (w_file_buf s.2) = [].

Lemma flush_file_buf ino data s :
  log_data ino s data →
  let '(r, s') := (if decide (buf_used (w_file_buf s.2) > 0)
                   then on_file_buf (buf_flushfile (w_fd s.2)) else mret tt) s in
  ws_frame ino s s' ∧
  ((r = Ok tt ∧ log_data ino s' data ∧ b_used (w_file_buf s'.2) = []) ∨ write_failed s.1 r).
Proof.
  destruct s as [o w]. intros [Hb (c & Hopen & Hc & Hlen & <-)]. cbn [fst snd] in *.
  unfold buf_used. case_decide as Hu.
  - rewrite on_file_buf_run.
    pose proof (buf_flushfile_spec (w_fd w) ino (zlen c) (o, w_file_buf w) Hopen Hb) as H.
    destruct (buf_flushfile (w_fd w) (o, w_file_buf w)) as [r [o' b']]. destruct H as [H He].
    pose proof (buffered_log_data _ _ _ _ _ _ _ _ _ eq_refl Hopen Hc Hlen Hb H) as [Hfr Hd].
    rewrite app_nil_r in Hd. split; [done|]. destruct Hd as [[-> Hd]|Hd]; [left|by right].
    split_and!; [done..|]. cbn. by apply He.
  - split; [split; [exists (w_file_buf w); by destruct w|apply os_frame_refl]|].
    left. assert (b_used (w_file_buf w) = []) as Hnil by (apply nil_length_inv; lia).
    split; [done|]. split; [|done]. split; [done|]. by exists c.
Qed.

(** The header is rewritten over the old one, and the data stays. *)
Lemma rewrite_header fd ino c h o off :
  fd_open o fd ino off → os_inodes o !! ino = Some c → LOG_HEADER_SIZE ≤ zlen c →
  let '(r, o') := (_ ← sys_lseek_set fd 0; _ ← write_logheader fd h;
                   _ ← sys_lseek_set fd off; mret tt) o in
  os_frame fd ino o o' ∧
  ((r = Ok tt ∧ os_inodes o' !! ino = Some (logheader_bytes h ++ drop (Z.to_nat LOG_HEADER_SIZE) c) ∧
    fd_open o' fd ino off) ∨ write_failed o r).
Proof.
  intros Hopen Hc Hlen.
  rewrite (bind_Ok _ _ _ _ _ (sys_lseek_set_run fd ino off 0 o Hopen)).
  assert (Hopen0 : fd_open (at_off fd ino 0 o) fd ino 0) by (eapply at_off_open; [done|lia]).
  pose proof (writes_logheader fd h _ _ _ Hopen0) as Hw.
  unfold mbind at 1, M_bind at 1. destruct (write_logheader fd h (at_off fd ino 0 o)) as [r o1].
  destruct Hw as (n & sch & Hsuf & -> & Hr).
  assert (Hfr : os_frame fd ino o (set_sched sch (put_bytes fd ino 0 (take n (logheader_bytes h))
                  (at_off fd ino 0 o)))).
  { eapply os_frame_trans; [apply os_frame_seek|by apply os_frame_put]. }
  destruct Hr as [[-> Hn]|(e & -> & He)]; [|split; [done|right; by exists e]].
  rewrite Hn in *. set (o1 := set_sched sch _) in *.
  assert (Hopen1 : fd_open o1 fd ino (0 + zlen (logheader_bytes h)))
    by (apply set_sched_open; by apply put_bytes_open).
  rewrite (bind_Ok _ _ _ _ _ (sys_lseek_set_run fd ino _ off o1 Hopen1)).
  assert (Hc1 : os_inodes (at_off fd ino off o1) !! ino =
    Some (logheader_bytes h ++ drop (Z.to_nat LOG_HEADER_SIZE) c)).
  { unfold o1. cbn [os_inodes set_sched put_bytes at_off set_fds set_inodes].
    rewrite lookup_insert_eq, Hc. cbn [from_option id]. by rewrite splice_start. }
  split; [eapply os_frame_trans; [done|apply os_frame_seek]|]. left.
  split; [done|]. split; [done|]. eapply at_off_open; [done|apply Hopen].
Qed.

Lemma bind_on_os {T A B} (m : MC os A) (k : A → MC (os * T) B) o t :
  (on_os m ≫= k) (o, t) =
    match m o with
    | (Ok a, o') => k a (o', t)
    | (Err e, o') => (Err e, (o', t))
    | (UB, o') => (UB, (o', t))
    | (NoFuel, o') => (NoFuel, (o', t))
    end.
Proof. unfold mbind, M_bind. rewrite on_os_run. by destruct (m o) as [[] ?]. Qed.

Lemma log_data_end fid es de hs :
  set_lh_data_end (log_end es) (log_header fid es de hs) = log_header fid es (log_end es) hs.
Proof. done. Qed.

Lemma bind_get_snd {S T B} (k : T → MC (S * T) B) s : (get_snd ≫= k) s = k s.2 s.
Proof. done. Qed.

Lemma bind_on_snd {S T B} (f : T → T) (k : unit → MC (S * T) B) s :
  (on_snd f ≫= k) s = k tt (s.1, f s.2).
Proof. done. Qed.

Lemma bind_assert_writer_open {B} (k : unit → MC WS B) s :
  w_open_status s.2 = MAGIC_VALUE_LOGWRITER → (assert_writer_open ≫= k) s = k tt s.
Proof.
  intros Hop. eapply bind_Ok. unfold assert_writer_open, get_writer. rewrite bind_get_snd.
  by rewrite decide_False by (rewrite Hop; tauto).
Qed.

(** Flushing brings the data of the log, with its header, into the file. *)
Lemma flush_file_run {C : Codec} ino s data :
  log_data ino s data → LOG_HEADER_SIZE + zlen data < 2 ^ 62 →
  let h := set_lh_data_end (LOG_HEADER_SIZE + zlen data) (w_header s.2) in
  outcome ino s (λ _ s', (∃ size, s'.2 = set_w_header h (set_w_file_buf (Buf size []) s.2)) ∧
      log_data ino s' data ∧ os_inodes s'.1 !! ino = Some (logheader_bytes h ++ data))
    (flush_file s).
Proof.
  intros Hd Hmax h. unfold flush_file. apply outcome_get.
  eapply (outcome_bind ino s _ _ (λ _ s', (∃ size, s'.2 = set_w_file_buf (Buf size []) s.2) ∧ log_data ino s' data)).
  { pose proof (flush_file_buf ino data s Hd) as Hf. unfold outcome.
    destruct ((if decide (buf_used (w_file_buf s.2) > 0)
               then on_file_buf (buf_flushfile (w_fd s.2)) else mret tt) s) as [r1 s1]. cbn [fst snd].
    destruct Hf as [[[[size used] Hb] Hfr] Hr]. split; [done|]. split; [by rewrite Hb|].
    destruct Hr as [(-> & Hd1 & Hu)|Hr]; [left|by right]. exists tt. split; [done|]. split; [|done].
    exists size. rewrite Hb in Hu |- *. cbn in Hu. by rewrite Hu. }
  intros [] [o1 w1] Hfd1 [[size Hw1] Hd1]. cbn [fst snd] in *.
  pose proof Hd1 as [Hbok (c & Hopen & Hc & Hlen & Hdata)]. cbn [fst snd] in *.
  assert (Hu : b_used (w_file_buf w1) = []) by (by rewrite Hw1). rewrite Hu, app_nil_r in Hdata.
  assert (Hz : zlen c = LOG_HEADER_SIZE + zlen data)
    by (rewrite <- Hdata, length_drop; unfold LOG_HEADER_SIZE in *; lia).
  unfold outcome. rewrite <- Hfd1, bind_on_os, (sys_lseek_cur_run _ _ _ _ Hopen).
  unfold upd_writer, get_writer. rewrite bind_on_snd, bind_get_snd. cbn [fst snd].
  unfold LOG_HEADER_SIZE in Hlen, Hz. rewrite u64_id by (unfold LOG_HEADER_SIZE in *; lia).
  set (w2 := set_w_header _ w1). assert (Hh2 : w_header w2 = h).
  { unfold w2, h. cbn. rewrite Hz, Hw1. done. }
  rewrite on_os_run. change (w_fd w2) with (w_fd w1).
  pose proof (rewrite_header (w_fd w1) ino c (w_header w2) o1 _ Hopen Hc Hlen) as Hw.
  destruct ((_ ← sys_lseek_set (w_fd w1) 0; _ ← write_logheader (w_fd w1) (w_header w2);
             _ ← sys_lseek_set (w_fd w1) (zlen c); mret tt) o1) as [r2 o2]. cbn [fst snd].
  destruct Hw as [Hfr2 Hw]. split; [done|]. split; [done|].
  destruct Hw as [(-> & Hc2 & Hopen2)|Hw]; [left|by right]. exists tt. split; [done|].
  unfold LOG_HEADER_SIZE in Hdata. rewrite Hh2 in Hc2. change LOG_HEADER_SIZE with 84 in Hc2. rewrite Hdata in Hc2. split_and!; [|split; [done|]|done].
  - exists size. rewrite <- Hw1. unfold w2. by rewrite <- Hh2.
  - eexists. cbn [fst snd]. split_and!; [|exact Hc2| |].
    + rewrite Hz in Hopen2. rewrite length_app, Nat2Z.inj_add, logheader_bytes_length. exact Hopen2.
    + rewrite length_app, Nat2Z.inj_add, logheader_bytes_length. lia.
    + change (w_file_buf w2) with (w_file_buf w1). rewrite Hu, app_nil_r. by apply drop_app_length'.
Qed.

Lemma writer_flush_spec {C : Codec} fid es ino s :
  writer_inv fid es ino s → log_ok es →
  let '(r, s') := sparkey_logwriter_flush s in
  os_frame (w_fd s.2) ino s.1 s'.1 ∧ w_fd s'.2 = w_fd s.2 ∧
  ((r = Ok tt ∧ writer_inv fid es ino s' ∧ log_on_disk fid es ino s') ∨ write_failed s.1 r).
Proof.
  intros (Hop & Hbb & (de & hs & Hh) & Hd) [_ Hok].
  unfold sparkey_logwriter_flush, get_writer.
  rewrite bind_assert_writer_open, bind_get_snd, Hbb by done.
  rewrite (decide_False (P := buf_used (Buf 0 []) > 0)) by done. rewrite bind_ret.
  pose proof (flush_file_run ino s _ Hd Hok) as Hf. unfold outcome in Hf.
  destruct (flush_file s) as [r s']. cbn [fst snd] in Hf.
  destruct Hf as (Hfr & Hfd & [([] & -> & [size Hw] & Hd' & Hc)|He]); (split; [done|]); (split; [done|]); [left|by right].
  rewrite Hh in Hc, Hw. split; [done|]. split; [|by split; rewrite ?Hw].
  split_and!; [by rewrite Hw|by rewrite Hw| |done]. exists (log_end es), hs. by rewrite Hw.
Qed.

Lemma os_frame_close fd ino o o' :
  os_frame fd ino o o' → os_frame fd ino o (set_fds (delete fd (os_fds o')) o').
Proof.
  intros (?&?&?&?&?&?&Hf). unfold os_frame. split_and!; try done. cbn.
  intros f Hne. rewrite lookup_delete_ne by done. by apply Hf.
Qed.

Lemma writer_close_spec {C : Codec} fid es ino o w :
  writer_inv fid es ino (o, w) → log_ok es →
  let '(r, (o', p)) := sparkey_logwriter_close (o, Some w) in
  os_frame (w_fd w) ino o o' ∧
  ((r = Ok tt ∧ p = None ∧ os_inodes o' !! ino = Some (log_file fid es) ∧
    os_fds o' !! w_fd w = None) ∨ write_failed o r).
Proof.
  intros Hinv Hok. unfold sparkey_logwriter_close.
  rewrite decide_False by (destruct Hinv as [H _]; cbn in H; rewrite H; tauto).
  pose proof (writer_flush_spec fid es ino (o, w) Hinv Hok) as Hf.
  destruct (sparkey_logwriter_flush (o, w)) as [r [o' w']]. cbn [fst snd] in Hf.
  destruct Hf as (Hfr & Hfd & [(-> & Hinv' & Hc & Hu)|(e & -> & He)]); cbn [fst snd] in *.
  2:{ split; [done|right; by exists e]. }
  destruct Hinv' as (_ & _ & _ & _ & c & (Hopen & _) & _). cbn [fst snd] in Hopen.
  unfold sys_close. rewrite Hopen. cbn [fst snd]. rewrite Hfd. split; [by apply os_frame_close|].
  left. split_and!; [done..|]. cbn. apply lookup_delete_eq.
Qed.

(** ** Creation *)

(** The bytes of entropy that become the file identifier. *)
Definition seed_of (o : os) : Z := le_value (take 4 (os_entropy o)).

Lemma rand32_run o :
  os_sched o = [] → (4 ≤ length (os_entropy o))%nat →
  rand32 o = (Ok (seed_of o), set_entropy (drop 4 (os_entropy o)) o).
Proof.
  intros Hs Hl. unfold rand32, pop. rewrite !Hs.
  assert (length (take 4 (os_entropy o)) = 4%nat) as Ht by (rewrite length_take; lia).
  rewrite decide_False by lia. by rewrite Ht.
Qed.

Lemma sys_malloc_run o : os_sched o = [] → sys_malloc o = (Ok true, o).
Proof. intros Hs. unfold sys_malloc, pop. by rewrite Hs. Qed.

Lemma buf_init_run size o : os_sched o = [] → buf_init size o = (Ok (Buf size []), o).
Proof. intros Hs. unfold buf_init. by rewrite (bind_Ok _ _ _ _ _ (sys_malloc_run o Hs)). Qed.

(** The header of a log that was just created. *)
Definition new_log_header (fid t block_size : Z) : sparkey_logheader :=
  LogHeader LOG_MAJOR_VERSION LOG_MINOR_VERSION fid 0 0 LOG_HEADER_SIZE 0 0 0 t (u32 block_size) 0 0 0.

(** Whatever the compression: the file has a header and no data. *)
Lemma writer_create_run {C : Codec} filename t block_size bs m compressed o :
  create_compressor t block_size o = (Ok (bs, m, compressed), o) →
  os_sched o = [] → os_wf o → (4 ≤ length (os_entropy o))%nat →
  let h := new_log_header (seed_of o) t bs in
  let w := LogWriter MAGIC_VALUE_LOGWRITER h (os_next_fd o) (Buf bs []) m compressed
             (Buf (1024 * 1024) []) false 0 in
  ∃ o', sparkey_logwriter_create filename t block_size o = (Ok w, o') ∧
    log_data (os_next_inode o) (o', w) [] ∧
    os_frame (os_next_fd o) (os_next_inode o)
      (set_entropy (drop 4 (os_entropy o)) (created filename (removed filename o))) o' ∧
    os_inodes o' !! os_next_inode o = Some (logheader_bytes h).
Proof.
  intros Hcc Hs Hwf He h w. unfold sparkey_logwriter_create.
  rewrite (bind_Ok _ _ _ _ _ (sys_malloc_run o Hs)). cbn [negb].
  rewrite (bind_Ok _ _ _ _ _ Hcc).
  rewrite (bind_Ok _ _ _ _ _ (sys_remove_run filename o Hs)).
  erewrite bind_Ok; [|by case_decide].
  assert (Hs1 : os_sched (removed filename o) = []) by done.
  rewrite (bind_Ok _ _ _ _ _ (sys_create_run filename _ Hs1 (lookup_delete_eq _ _))).
  change (os_next_fd (removed filename o)) with (os_next_fd o).
  set (fd := os_next_fd o) in *. set (o2 := created filename (removed filename o)).
  assert (Hr : rand32 o2 = (Ok (seed_of o), set_entropy (drop 4 (os_entropy o)) o2))
    by (by apply (rand32_run o2)).
  set (o3 := set_entropy _ o2) in *.
  assert (Hopen : fd_open o3 fd (os_next_inode o) 0) by apply (created_open filename (removed filename o)).
  pose proof (writes_ok fd _ _ o3 _ _ (writes_logheader fd h) Hopen Hs) as Hw.
  pose proof (put_bytes_open _ _ _ (logheader_bytes h) _ Hopen) as Hopen4.
  set (o4 := put_bytes fd (os_next_inode o) 0 (logheader_bytes h) o3) in *.
  assert (Hs4 : os_sched o4 = []) by done.
  assert (Hc4 : os_inodes o4 !! os_next_inode o = Some (logheader_bytes h)).
  { cbn [o4 put_bytes os_inodes set_fds set_inodes]. rewrite lookup_insert_eq. f_equal.
    unfold o3, o2. cbn [os_inodes set_entropy created removed set_names].
    rewrite lookup_insert_eq. cbn [from_option id]. rewrite splice_start. by rewrite drop_nil, app_nil_r. }
  exists o4. split_and!; [| | |done].
  - unfold close_on_error. rewrite (bind_Ok _ _ _ _ _ Hr), (bind_Ok _ _ _ _ _ Hw).
    rewrite (bind_Ok _ _ _ _ _ (sys_lseek_cur_run _ _ _ _ Hopen4)).
    rewrite decide_False by (intros Hne; by apply Hne).
    rewrite (bind_Ok _ _ _ _ _ (buf_init_run _ _ Hs4)).
    by rewrite (bind_Ok _ _ _ _ _ (buf_init_run _ _ Hs4)).
  - split; [split; cbn; lia|].
    by exists (logheader_bytes h).
  - rewrite <- (set_sched_same o4). by apply os_frame_put.
Qed.

Lemma writer_create_spec {C : Codec} filename bs o :
  os_sched o = [] → os_wf o → (4 ≤ length (os_entropy o))%nat →
  ∃ o' w, sparkey_logwriter_create filename SPARKEY_COMPRESSION_NONE bs o = (Ok w, o') ∧
    writer_inv (seed_of o) [] (os_next_inode o) (o', w) ∧ w_fd w = os_next_fd o ∧
    os_frame (os_next_fd o) (os_next_inode o)
      (set_entropy (drop 4 (os_entropy o)) (created filename (removed filename o))) o' ∧
    os_inodes o' !! os_next_inode o = Some (log_file (seed_of o) []).
Proof.
  intros Hs Hwf He.
  destruct (writer_create_run filename SPARKEY_COMPRESSION_NONE bs 0 0 false o) as (o' & Hrun & Hd & Hf & Hc); try done.
  eexists o', _. split; [exact Hrun|]. split; [|by split_and!; [| |rewrite Hc; unfold log_file; rewrite app_nil_r]]. split_and!; try done.
  by exists LOG_HEADER_SIZE, 0.
Qed.

Lemma add_entries_spec {C : Codec} fid es es' ino s :
  writer_inv fid es ino s → log_ok (es ++ es') →
  let '(r, s') := add_entries es' s in
  os_frame (w_fd s.2) ino s.1 s'.1 ∧ w_fd s'.2 = w_fd s.2 ∧
  ((r = Ok tt ∧ writer_inv fid (es ++ es') ino s') ∨ write_failed s.1 r).
Proof.
  revert es s. induction es' as [|e es' IH]; intros es s Hinv Hok; cbn [add_entries].
  - split; [apply os_frame_refl|]. split; [done|]. left. by rewrite app_nil_r.
  - change (e :: es') with ([e] ++ es') in *. rewrite app_assoc in *.
    pose proof (add_entry_spec fid es e ino s Hinv (log_ok_app _ _ Hok)) as He.
    unfold mbind, M_bind. destruct (add_entry e s) as [r s1].
    destruct He as (Hfr & Hfd & [[-> Hinv1]|(err & -> & Hf)]);
      [|split; [done|]; split; [done|]; right; by exists err].
    specialize (IH _ s1 Hinv1 Hok). destruct (add_entries es' s1) as [r2 s2].
    destruct IH as (Hfr2 & Hfd2 & Hr). rewrite Hfd in *. split; [by eapply os_frame_trans|].
    split; [done|]. destruct Hr as [Hr|Hr]; [by left|right]. by eapply write_failed_frame.
Qed.

Lemma frame_cooperative fd ino o o' : os_frame fd ino o o' → os_sched o = [] → os_sched o' = [].
Proof. intros (_ & Hsuf & _) Hs. rewrite Hs in Hsuf. by apply suffix_nil_inv. Qed.

Lemma no_write_failure {A} o (r : res returncode A) : os_sched o = [] → ¬ write_failed o r.
Proof. intros Hs (e & _ & _ & Hx). rewrite Hs in Hx. by apply Exists_nil in Hx. Qed.

(** ** Appending to an existing log *)

Definition append_log {C : Codec} (filename : string) (es : list entry) : MC os unit := λ o,
  match sparkey_logwriter_append filename o with
  | (Ok w, o) =>
      let '(r, (o, w)) := add_entries es (o, w) in
      match r with
      | Ok _ => let '(r, (o, _)) := sparkey_logwriter_close (o, Some w) in (r, o)
      | _ => (r, o)
      end
  | (Err e, o) => (Err e, o)
  | (UB, o) => (UB, o)
  | (NoFuel, o) => (NoFuel, o)
  end.

Lemma load_header_file o filename h rest :
  has_file o filename (logheader_bytes h ++ rest) → logheader_typed h → logheader_valid h →
  sparkey_load_logheader filename o = (Ok h, opened o).
Proof.
  intros Hf Ht Hv. pose proof Hv as (Hmaj & Hmin & Hsz & _).
  rewrite (load_logheader_run o filename LOG_MAGIC_NUMBER h rest); [|by rewrite ?Hmaj, ?Hmin..].
  unfold load_logheader_result. rewrite Hmaj, Hmin, !decide_False by (done || tauto).
  by rewrite (proj2 (proj1 (logheader_checks_valid h Hmaj Hmin Hsz))).
Qed.

Lemma load_log_file o filename fid es rest :
  has_file o filename (log_file fid es ++ rest) → 0 ≤ fid < 2 ^ 32 → log_ok es →
  sparkey_load_logheader filename o =
    (Ok (log_header fid es (log_end es) LOG_HEADER_SIZE), opened o).
Proof.
  intros Hf Hfid Hok. apply (load_header_file o filename _ (log_body es ++ rest)).
  - unfold log_file in Hf. by rewrite <- app_assoc in Hf.
  - by apply log_header_typed.
  - by apply log_header_valid.
Qed.

Lemma opened_wf o : os_wf o → os_wf (opened o).
Proof.
  intros (?&?&Hf&?). unfold os_wf. cbn. split_and!; try done; [|lia].
  intros fd Hfd. pose proof (Hf fd Hfd). lia.
Qed.

Lemma wf_fresh_fd o : os_wf o → os_fds o !! os_next_fd o = None.
Proof.
  intros (_ & _ & Hf & _). apply eq_None_not_Some. intros Hs. pose proof (Hf _ Hs). lia.
Qed.

Lemma opened_file o name c : has_file o name c → os_wf o → has_file (opened o) name c.
Proof.
  intros (ino & Hn & Hc & Hs & _) Hwf. exists ino. split_and!; try done.
  apply (wf_fresh_fd (opened o)). by apply opened_wf.
Qed.

Lemma entropy_wf e o : os_wf o → os_wf (set_entropy e o).
Proof. done. Qed.

Lemma closed_wf fd o : os_wf o → os_wf (set_fds (delete fd (os_fds o)) o).
Proof.
  intros (Hn & Hi & Hf & H0). split_and!; cbn; try done.
  intros f [x [_ Hx]%lookup_delete_Some]. apply Hf. by eexists.
Qed.

(** Whatever the compression: the writer goes on behind the data. *)
Lemma writer_append_run {C : Codec} filename h data h' m compressed o :
  has_file o filename (logheader_bytes h ++ data) → os_wf o →
  logheader_typed h → logheader_valid h → lh_data_end h = LOG_HEADER_SIZE + zlen data →
  append_compressor h (opened o) = (Ok (h', m, compressed), opened o) → lh_data_end h' = lh_data_end h →
  let w := LogWriter MAGIC_VALUE_LOGWRITER h' (os_next_fd o + 1) (Buf (lh_compression_block_size h') []) m
             compressed (Buf (1024 * 1024) []) false 0 in
  ∃ ino o', sparkey_logwriter_append filename o = (Ok w, o') ∧ os_names o !! filename = Some ino ∧
    log_data ino (o', w) data ∧ os_frame (os_next_fd o + 1) ino (opened (opened o)) o'.
Proof.
  intros Hf Hwf Ht Hv Hend Hcc Hend' w.
  assert (Hs : os_sched o = []) by (destruct Hf as (? & _ & _ & ? & _); done).
  unfold sparkey_logwriter_append.
  rewrite (bind_Ok _ _ _ _ _ (sys_malloc_run o Hs)). cbn [negb].
  rewrite (bind_Ok _ _ _ _ _ (load_header_file _ _ _ _ Hf Ht Hv)). pose proof Hv as (Hmaj & Hmin & _).
  rewrite Hmaj, Hmin, !decide_False by tauto. rewrite (bind_Ok _ _ _ _ _ Hcc).
  pose proof (opened_file o _ _ Hf Hwf) as Hf2.
  destruct (sys_open_run _ _ _ Hf2) as (ino & Hn & [Hc _] & _ & Hopen).
  rewrite (bind_Ok _ _ _ _ _ Hopen). change (os_next_fd (opened o)) with (os_next_fd o + 1).
  set (fd := os_next_fd o + 1) in *. set (o2 := opened (opened o)) in *.
  assert (Hopen2 : fd_open (at_off fd ino 0 o2) fd ino 0) by (by eapply at_off_open).
  assert (Hs2 : os_sched (at_off fd ino (lh_data_end h) (at_off fd ino 0 o2)) = []) by done.
  assert (Hz : zlen (logheader_bytes h ++ data) = lh_data_end h)
    by (by rewrite length_app, Nat2Z.inj_add, logheader_bytes_length).
  exists ino, (at_off fd ino (lh_data_end h) (at_off fd ino 0 o2)). split_and!; [|done| |].
  - unfold close_on_error. rewrite Hend'.
    rewrite (bind_Ok _ _ _ _ _ (sys_lseek_set_run _ _ _ (lh_data_end h) _ Hopen2)).
    rewrite (bind_Ok _ _ _ _ _ (buf_init_run _ _ Hs2)).
    by rewrite (bind_Ok _ _ _ _ _ (buf_init_run _ _ Hs2)).
  - split; [split; cbn; lia|]. exists (logheader_bytes h ++ data). rewrite Hz. split_and!.
    + eapply at_off_open; [done|]. rewrite Hend. unfold LOG_HEADER_SIZE. lia.
    + done.
    + rewrite Hend. lia.
    + cbn [fst snd w_file_buf b_used w]. rewrite app_nil_r. by apply drop_app_length'.
  - eapply os_frame_trans; apply os_frame_seek.
Qed.

Lemma writer_append_spec {C : Codec} filename fid es o :
  has_file o filename (log_file fid es) → os_wf o → 0 ≤ fid < 2 ^ 32 → log_ok es →
  ∃ ino o' w, sparkey_logwriter_append filename o = (Ok w, o') ∧
    os_names o !! filename = Some ino ∧
    writer_inv fid es ino (o', w) ∧ w_fd w = os_next_fd o + 1 ∧
    os_frame (os_next_fd o + 1) ino (opened (opened o)) o'.
Proof.
  intros Hf Hwf Hfid Hok.
  destruct (writer_append_run filename (log_header fid es (log_end es) LOG_HEADER_SIZE) (log_body es)
    (log_header fid es (log_end es) LOG_HEADER_SIZE) 0 false o Hf Hwf) as (ino & o' & Hrun & Hn & Hd & Hfr);
    [by apply log_header_typed|by apply log_header_valid|done|done|done|].
  eexists ino, o', _. split; [exact Hrun|]. split; [done|]. split; [|done].
  split; [done|]. split; [done|]. split; [by exists (log_end es), LOG_HEADER_SIZE|done].
Qed.

(** ** Whole sessions *)

(** Closing the writer leaves the file [c]. *)
Definition closes_to {C : Codec} (ino : nat) (c : list Z) (s : WS) : Prop :=
  let '(r, (o', p)) := sparkey_logwriter_close (s.1, Some s.2) in
  os_frame (w_fd s.2) ino s.1 o' ∧
  ((r = Ok tt ∧ p = None ∧ os_inodes o' !! ino = Some c ∧ os_fds o' !! w_fd s.2 = None) ∨
   write_failed s.1 r).

(** Adding entries and closing, from an open writer. *)
Lemma finish_session {C : Codec} es w o1 ino c :
  outcome ino (o1, w) (λ _, closes_to ino c) (add_entries es (o1, w)) → os_sched o1 = [] →
  ∃ o2 w2 o3, add_entries es (o1, w) = (Ok tt, (o2, w2)) ∧
    sparkey_logwriter_close (o2, Some w2) = (Ok tt, (o3, None)) ∧
    os_frame (w_fd w) ino o1 o3 ∧ os_sched o3 = [] ∧
    os_inodes o3 !! ino = Some c ∧ os_fds o3 !! w_fd w = None.
Proof.
  intros (Hfr & Hfd & Ha) Hs1. destruct (add_entries es (o1, w)) as [r [o2 w2]]. cbn [fst snd] in *.
  destruct Ha as [([] & -> & Hc)|Hfail]; [|by eapply no_write_failure in Hfail].
  assert (Hs2 : os_sched o2 = []) by (by eapply frame_cooperative). unfold closes_to in Hc. cbn [fst snd] in Hc.
  exists o2, w2. destruct (sparkey_logwriter_close (o2, Some w2)) as [r3 [o3 p]]. exists o3.
  destruct Hc as (Hfr3 & [(-> & -> & Hfile & Hclosed)|Hfail]); [|by eapply no_write_failure in Hfail].
  rewrite Hfd in *. split_and!; try done; [by eapply os_frame_trans|by eapply frame_cooperative].
Qed.

(** The outcome of a session that creates a log, with what a later session needs. *)
Definition log_written (filename : string) (c : list Z) (o o' : os) : Prop :=
  os_wf o' ∧ os_sched o' = [] ∧ os_entropy o' = drop 4 (os_entropy o) ∧
  (∃ ino, os_names o' !! filename = Some ino ∧ os_inodes o' !! ino = Some c) ∧
  (∀ ino c, os_inodes o !! ino = Some c → os_inodes o' !! ino = Some c) ∧
  (∀ n, n ≠ filename → os_names o' !! n = os_names o !! n) ∧
  (∀ fd, os_fds o' !! fd = os_fds o !! fd).

Lemma write_session {C : Codec} filename t block_size es o w o1 c :
  os_sched o = [] → os_wf o →
  sparkey_logwriter_create filename t block_size o = (Ok w, o1) → w_fd w = os_next_fd o →
  os_frame (os_next_fd o) (os_next_inode o)
    (set_entropy (drop 4 (os_entropy o)) (created filename (removed filename o))) o1 →
  outcome (os_next_inode o) (o1, w) (λ _, closes_to (os_next_inode o) c) (add_entries es (o1, w)) →
  ∃ o', write_log filename t block_size es o = (Ok tt, o') ∧ log_written filename c o o'.
Proof.
  intros Hs Hwf Hcreate Hfd Hfr Hadd.
  assert (Hs1 : os_sched o1 = []) by (by eapply frame_cooperative).
  destruct (finish_session es w o1 _ c Hadd Hs1) as (o2 & w2 & o3 & Ha & Hc & Hfr3 & Hs3 & Hfile & Hclosed).
  unfold write_log. rewrite Hcreate, Ha, Hc. exists o3. split; [done|]. rewrite Hfd in *.
  pose proof (os_frame_trans _ _ _ _ _ Hfr Hfr3) as Hall.
  pose proof Hall as (Hn & _ & _ & _ & Hent & Hi & Hfds). cbn in Hn, Hent.
  pose proof Hwf as (Hwn & Hwi & Hwfd & _). split.
  { eapply (os_frame_wf _ _ _ _ Hall); [|by rewrite Hfile; eexists|cbn; lia..].
    apply (created_wf filename). by apply removed_wf. }
  split; [done|]. split; [done|]. split; [|split; [|split]].
  - exists (os_next_inode o). split; [|done]. rewrite Hn. apply lookup_insert_eq.
  - intros i x Hic. assert (i < os_next_inode o)%nat by (apply Hwi; by eexists).
    rewrite Hi by lia. cbn. by rewrite lookup_insert_ne by lia.
  - intros n Hne. rewrite Hn. by rewrite lookup_insert_ne, lookup_delete_ne by done.
  - intros f. destruct (decide (f = os_next_fd o)) as [->|Hne].
    + rewrite Hclosed. symmetry. by apply wf_fresh_fd.
    + rewrite Hfds by done. cbn. by rewrite lookup_insert_ne by done.
Qed.

(** A session that appends: only the file of the log changes. *)
Definition log_appended (ino : nat) (c : list Z) (o o' : os) : Prop :=
  os_names o' = os_names o ∧ os_inodes o' !! ino = Some c ∧
  (∀ i, i ≠ ino → os_inodes o' !! i = os_inodes o !! i) ∧
  os_wf o' ∧ os_sched o' = [] ∧ os_entropy o' = os_entropy o ∧
  (∀ fd, os_fds o' !! fd = os_fds o !! fd).

Lemma append_session {C : Codec} filename es ino o w o1 c :
  os_sched o = [] → os_wf o →
  sparkey_logwriter_append filename o = (Ok w, o1) → os_names o !! filename = Some ino →
  w_fd w = os_next_fd o + 1 → os_frame (os_next_fd o + 1) ino (opened (opened o)) o1 →
  outcome ino (o1, w) (λ _, closes_to ino c) (add_entries es (o1, w)) →
  ∃ o', append_log filename es o = (Ok tt, o') ∧ log_appended ino c o o'.
Proof.
  intros Hs Hwf Happ Hn Hfd Hfr Hadd.
  assert (Hs1 : os_sched o1 = []) by (by eapply frame_cooperative).
  destruct (finish_session es w o1 ino c Hadd Hs1) as (o2 & w2 & o3 & Ha & Hc & Hfr3 & Hs3 & Hfile & Hclosed).
  unfold append_log. rewrite Happ, Ha, Hc. exists o3. split; [done|]. rewrite Hfd in *.
  pose proof (os_frame_trans _ _ _ _ _ Hfr Hfr3) as Hall.
  pose proof Hall as (Hnames & _ & _ & _ & Hent & Hi & Hfds). pose proof Hwf as (Hwn & Hwi & Hwfd & _).
  split_and!; try done.
  - eapply (os_frame_wf _ _ _ _ Hall); [by apply opened_wf, opened_wf|by rewrite Hfile; eexists| |cbn; lia].
    apply Hwi. by eapply Hwn.
  - intros f. destruct (decide (f = os_next_fd o + 1)) as [->|Hne]; [|by rewrite Hfds].
    rewrite Hclosed. symmetry. apply eq_None_not_Some. intros Hsome. pose proof (Hwfd _ Hsome). lia.
Qed.

(** The sessions on an uncompressed log. *)
Lemma plain_session {C : Codec} fid es es' ino s :
  writer_inv fid es ino s → log_ok (es ++ es') →
  outcome ino s (λ _, closes_to ino (log_file fid (es ++ es'))) (add_entries es' s).
Proof.
  intros Hinv Hok. pose proof (add_entries_spec fid es es' ino s Hinv Hok) as Ha.
  destruct (add_entries es' s) as [r s1]. destruct Ha as (Hfr & Hfd & Ha).
  split; [done|]. split; [done|]. destruct Ha as [[-> Hinv1]|Ha]; [left|by right]. exists tt. split; [done|].
  unfold closes_to. destruct s1 as [o1 w1]. by apply writer_close_spec.
Qed.

Lemma write_log_spec {C : Codec} filename block_size es o :
  os_sched o = [] → os_wf o → (4 ≤ length (os_entropy o))%nat → log_ok es →
  ∃ o', write_log filename SPARKEY_COMPRESSION_NONE block_size es o = (Ok tt, o') ∧
    log_written filename (log_file (seed_of o) es) o o'.
Proof.
  intros Hs Hwf He Hok.
  destruct (writer_create_spec filename block_size o Hs Hwf He) as (o1 & w & Hc & Hinv & Hfd & Hfr & _).
  eapply write_session; try done. by apply (plain_session _ []).
Qed.

Lemma seed_range o : bytes_ok (os_entropy o) → 0 ≤ seed_of o < 2 ^ 32.
Proof.
  intros Hb. unfold seed_of. change (2 ^ 32) with (256 ^ 4). pose proof (le_value_bound _ (bytes_ok_take 4 _ Hb)) as Hv.
  assert (length (take 4 (os_entropy o)) ≤ 4)%nat by (rewrite length_take; lia).
  assert (256 ^ zlen (take 4 (os_entropy o)) ≤ 256 ^ 4) by (apply Z.pow_le_mono_r; lia). lia.
Qed.

Lemma append_log_spec {C : Codec} filename fid es1 es2 o :
  has_file o filename (log_file fid es1) → os_wf o → 0 ≤ fid < 2 ^ 32 → log_ok (es1 ++ es2) →
  ∃ ino o', append_log filename es2 o = (Ok tt, o') ∧ os_names o !! filename = Some ino ∧
    log_appended ino (log_file fid (es1 ++ es2)) o o'.
Proof.
  intros Hf Hwf Hfid Hok.
  assert (Hs : os_sched o = []) by (destruct Hf as (? & _ & _ & ? & _); done).
  destruct (writer_append_spec filename fid es1 o Hf Hwf Hfid (log_ok_app _ _ Hok))
    as (ino & o1 & w & Ha & Hn & Hinv & Hfd & Hfr).
  destruct (append_session filename es2 ino o w o1 (log_file fid (es1 ++ es2))) as (o' & Hrun & Ho'); try done.
  - by apply plain_session.
  - by exists ino, o'.
Qed.

(** ** Properties *)

(** Writing a log in one session: the new file is the header that describes the
    entries followed by their encodings; no file that existed before is
    modified, so a process that still has the old log open keeps reading it;
    no other name changes, and no descriptor stays open. *)
Theorem write_log_file {C : Codec} filename block_size es o :
  os_sched o = [] → os_wf o → (4 ≤ length (os_entropy o))%nat → log_ok es →
  let '(r, o') := write_log filename SPARKEY_COMPRESSION_NONE block_size es o in
  r = Ok tt ∧
  (∃ ino, os_names o' !! filename = Some ino ∧
          os_inodes o' !! ino = Some (log_file (seed_of o) es)) ∧
  (∀ ino c, os_inodes o !! ino = Some c → os_inodes o' !! ino = Some c) ∧
  (∀ n, n ≠ filename → os_names o' !! n = os_names o !! n) ∧
  (∀ fd, os_fds o' !! fd = os_fds o !! fd).
Proof.
  intros Hs Hwf He Hok. destruct (write_log_spec filename block_size es o Hs Hwf He Hok) as (o' & -> & H).
  split; [done|]. by destruct H as (_ & _ & _ & H).
Qed.

Example os_empty : os := OS ∅ ∅ ∅ 0 3 [] [1; 2; 3; 4; 5; 6; 7; 8].

Lemma os_empty_wf : os_wf os_empty.
Proof.
  split_and!; cbn; [| | |lia]; intros *; rewrite ?lookup_empty; [done|..]; by intros [].
Qed.

Example es_example : list entry := [Put [1; 2] [3]; Put [7] []; Delete [7]].

Lemma es_example_ok : log_ok es_example.
Proof. split; [repeat constructor; done|done]. Qed.

Lemma write_log_file_witness :
  ∃ ino, os_inodes (write_log (C := identity_codec) "a.spl" 0 0 es_example os_empty).2 !! ino =
    Some (log_file (seed_of os_empty) es_example).
Proof.
  pose proof (write_log_file (C := identity_codec) "a.spl" 0 es_example os_empty eq_refl
    os_empty_wf ltac:(cbn; lia) es_example_ok) as H.
  change SPARKEY_COMPRESSION_NONE with 0 in H.
  destruct (write_log "a.spl" 0 0 es_example os_empty) as [r o']. cbn [snd].
  destruct H as (_ & (ino & _ & Hc) & _). by exists ino.
Defined.

(** C12. A put or a delete on an open uncompressed writer, whatever the environment
    does: on success exactly the entry is appended to the data of the log and
    counted in the header; otherwise the environment made a write fail for good,
    and the error is one of those of a failed write.  Other files are untouched. *)
Theorem writer_put_delete {C : Codec} fid es e ino s :
  writer_inv fid es ino s → log_ok (es ++ [e]) →
  let '(r, s') := match e with
                  | Put k v => sparkey_logwriter_put k v s
                  | Delete k => sparkey_logwriter_delete k s
                  end in
  (∀ i, i ≠ ino → os_inodes s'.1 !! i = os_inodes s.1 !! i) ∧
  ((r = Ok tt ∧ writer_inv fid (es ++ [e]) ino s') ∨
   ∃ c, r = Err c ∧ write_error c ∧ Exists fatal (os_sched s.1)).
Proof.
  intros Hinv Hok. pose proof (add_entry_spec fid es e ino s Hinv Hok) as H.
  assert (match e with
          | Put k v => sparkey_logwriter_put k v s
          | Delete k => sparkey_logwriter_delete k s
          end = add_entry e s) as -> by by destruct e.
  destruct (add_entry e s) as [r s']. destruct H as ((_&_&_&_&_&Hi&_) & _ & H). by split.
Qed.

Example ws_example : WS :=
  (OS {[ 0%nat := log_file 7 [] ]} ∅ {[ 3 := (0%nat, 84) ]} 1 4 [Short 1; Fails EINTR] [],
   LogWriter MAGIC_VALUE_LOGWRITER (log_header 7 [] 84 0) 3 (Buf 0 []) 0 false (Buf 2 []) false 0).

Lemma ws_example_inv : writer_inv 7 [] 0%nat ws_example.
Proof.
  split_and!; [done|done|by exists 84, 0|]. split; [split; cbn; lia|].
  exists (log_file 7 []). split_and!; [|done|done|done].
  split; [done|]. split; [by eexists|done].
Qed.

Lemma writer_put_delete_witness :
  (sparkey_logwriter_put (C := identity_codec) [1; 2; 3] [4] ws_example).1 = Ok tt.
Proof.
  pose proof (writer_put_delete (C := identity_codec) 7 [] (Put [1; 2; 3] [4]) 0%nat ws_example
    ws_example_inv) as H. cbn beta iota in H.
  destruct (sparkey_logwriter_put [1; 2; 3] [4] ws_example) as [r s'].
  destruct H as [_ [[-> _]|(c & _ & _ & Hx)]]; [split; [repeat constructor; done|done]|done|].
  exfalso. cbn in Hx. rewrite !Exists_cons, Exists_nil in Hx. cbn in Hx. tauto.
Defined.

(** C14. Flush of an uncompressed log makes everything added durable: when it returns
    success the file is, byte for byte, the log of the entries, header included, nothing
    stays in a buffer, and the next entry goes to the end of the file. *)
Theorem writer_flush_durable {C : Codec} fid es ino s :
  writer_inv fid es ino s → log_ok es →
  let '(r, s') := sparkey_logwriter_flush s in
  (r = Ok tt ∧ os_inodes s'.1 !! ino = Some (log_file fid es) ∧
   buf_used (w_file_buf s'.2) = 0 ∧ writer_inv fid es ino s') ∨
  ∃ c, r = Err c ∧ write_error c ∧ Exists fatal (os_sched s.1).
Proof.
  intros Hinv Hok. pose proof (writer_flush_spec fid es ino s Hinv Hok) as H.
  destruct (sparkey_logwriter_flush s) as [r s'].
  destruct H as (_ & _ & [(-> & ? & Hc & Hu)|H]); [left|by right].
  unfold buf_used. by rewrite Hu.
Qed.

(** After a put: the entry is counted, and part of it is in the buffer. *)
Example ws_pending : WS := (add_entry (C := identity_codec) (Put [1; 2; 3] [4]) ws_example).2.

Lemma ws_pending_inv : writer_inv 7 [Put [1; 2; 3] [4]] 0%nat ws_pending.
Proof.
  assert (Hok : log_ok ([] ++ [Put [1; 2; 3] [4]])) by (split; [repeat constructor; done|done]).
  pose proof (add_entry_spec (C := identity_codec) 7 [] (Put [1; 2; 3] [4]) 0%nat ws_example ws_example_inv Hok) as H.
  unfold ws_pending. destruct (add_entry _ ws_example) as [r s'].
  destruct H as (_ & _ & [[_ Hinv]|(c & _ & _ & Hx)]); [exact Hinv|].
  exfalso. cbn in Hx. rewrite !Exists_cons, Exists_nil in Hx. cbn in Hx. tauto.
Qed.

Lemma writer_flush_durable_witness :
  buf_used (w_file_buf ws_pending.2) = 2 ∧
  os_inodes (sparkey_logwriter_flush (C := identity_codec) ws_pending).2.1 !! 0%nat =
    Some (log_file 7 [Put [1; 2; 3] [4]]).
Proof.
  split; [by vm_compute|].
  pose proof (writer_flush_durable (C := identity_codec) 7 _ 0%nat ws_pending ws_pending_inv) as H.
  destruct (sparkey_logwriter_flush ws_pending) as [r s'].
  destruct H as [(_ & Hc & _)|(c & _ & _ & Hx)]; [split; [repeat constructor; done|done]|done|].
  exfalso. vm_compute in Hx. inversion Hx.
Defined.

(** A writer that is not open refuses every operation and changes nothing; its
    close is a success that changes nothing either. *)
Theorem closed_writer_refuses {C : Codec} s k v :
  w_open_status s.2 ≠ MAGIC_VALUE_LOGWRITER →
  sparkey_logwriter_put k v s = (Err SPARKEY_LOG_CLOSED, s) ∧
  sparkey_logwriter_delete k s = (Err SPARKEY_LOG_CLOSED, s) ∧
  sparkey_logwriter_flush s = (Err SPARKEY_LOG_CLOSED, s) ∧
  sparkey_logwriter_close (s.1, Some s.2) = (Ok tt, (s.1, Some s.2)).
Proof.
  intros Hop.
  assert (Ha : assert_writer_open s = (Err SPARKEY_LOG_CLOSED, s)).
  { unfold assert_writer_open, get_writer. rewrite bind_get_snd. by rewrite decide_True. }
  unfold sparkey_logwriter_put, sparkey_logwriter_delete, sparkey_logwriter_flush.
  rewrite !(bind_Err _ _ _ _ _ Ha). split_and!; [done..|].
  unfold sparkey_logwriter_close. by rewrite decide_True.
Qed.

Lemma closed_writer_refuses_witness :
  sparkey_logwriter_put (C := identity_codec) [1] [2] (ws_example.1, set_w_open_status 0 ws_example.2)
    = (Err SPARKEY_LOG_CLOSED, (ws_example.1, set_w_open_status 0 ws_example.2)).
Proof.
  apply (closed_writer_refuses (C := identity_codec)
    (ws_example.1, set_w_open_status 0 ws_example.2) [1] [2]). done.
Defined.

(** A compressed log with a block size below 10 is refused before anything in
    the file system is touched: an existing log of that name survives. *)
Theorem create_rejects_small_blocks {C : Codec} filename t block_size o :
  sparkey_uses_compressor t = true → block_size < 10 →
  let '(r, o') := sparkey_logwriter_create filename t block_size o in
  (r = Err SPARKEY_INVALID_COMPRESSION_BLOCK_SIZE ∨ r = Err SPARKEY_INTERNAL_ERROR) ∧
  os_inodes o' = os_inodes o ∧ os_names o' = os_names o ∧ os_fds o' = os_fds o.
Proof.
  intros Ht Hb. unfold sparkey_logwriter_create, create_compressor. rewrite Ht.
  rewrite (decide_True (P := block_size < 10)) by done.
  unfold sys_malloc, mbind, M_bind, pop, fail.
  destruct (os_sched o) as [|[|e|n] l]; cbn; auto.
Qed.

Lemma create_rejects_small_blocks_witness :
  (sparkey_logwriter_create (C := identity_codec) "a.spl" 1 9 os_empty).1 =
    Err SPARKEY_INVALID_COMPRESSION_BLOCK_SIZE.
Proof.
  pose proof (create_rejects_small_blocks (C := identity_codec) "a.spl" 1 9 os_empty eq_refl
    ltac:(lia)) as H.
  assert ((sparkey_logwriter_create (C := identity_codec) "a.spl" 1 9 os_empty).1 ≠
    Err SPARKEY_INTERNAL_ERROR) as Hne by (by vm_compute).
  destruct (sparkey_logwriter_create "a.spl" 1 9 os_empty) as [r o'].
  destruct H as [[-> | ->] _]; [done|by destruct Hne].
Defined.
