(* ===== verification/Cooperation.v ===== *)
(** * What computations keep

    The rules for properties of the state that a computation keeps: for the
    combinators of the monad they are hints, and the functions follow by automation.
    What every write keeps, adding an entry keeps.  The use here: an environment
    without a schedule of short and failing calls has none later either, whatever the
    functions of the writer do. *)

From stdpp Require Import base gmap list strings numbers.
From Stdlib Require Import ZArith Lia.
From S2P Require Import Prelude ReturnCodes OS LogHeader Buf Compress LogFormat LogWriter.

Local Open Scope Z_scope.

(** ** Computations that keep a property of the state *)

Definition preserves {E S A} (P : S → Prop) (m : M E S A) : Prop := ∀ s, P s → P (m s).2.

Create HintDb preserves discriminated.

Section Preserves.
Context {E S : Type} (P : S → Prop).

Lemma preserves_same {A} (m : M E S A) : (∀ s, (m s).2 = s) → preserves P m.
Proof. intros Hm s. by rewrite Hm. Qed.

Lemma preserves_ret {A} (a : A) : preserves P (mret a : M E S A).
Proof. by apply preserves_same. Qed.

Lemma preserves_fail {A} e : preserves P (fail e : M E S A).
Proof. by apply preserves_same. Qed.

Lemma preserves_undefined {A} : preserves P (undefined : M E S A).
Proof. by apply preserves_same. Qed.

Lemma preserves_out_of_fuel {A} : preserves P (out_of_fuel : M E S A).
Proof. by apply preserves_same. Qed.

Lemma preserves_of_opt {A} (x : option A) : preserves P (of_opt x : M E S A).
Proof. apply preserves_same. by destruct x. Qed.

Lemma preserves_of_res {A} (r : res E A) : preserves P (of_res r : M E S A).
Proof. by apply preserves_same. Qed.

Lemma preserves_bind {A B} (m : M E S A) (k : A → M E S B) :
  preserves P m → (∀ a, preserves P (k a)) → preserves P (m ≫= k).
Proof.
  intros Hm Hk s Hs. specialize (Hm s Hs). unfold mbind, M_bind.
  destruct (m s) as [[a|e| |] s']; try done. by apply Hk.
Qed.

Lemma preserves_zoom {T A} (get : S → T) (set : T → S → S) (Q : T → Prop) (m : M E T A) :
  (∀ s, P s → Q (get s)) → (∀ s t, P s → Q t → P (set t s)) → preserves Q m →
  preserves P (zoom get set m).
Proof.
  intros Hget Hset Hm s Hs. unfold zoom. specialize (Hm (get s) (Hget s Hs)).
  destruct (m (get s)) as [r t]. by apply Hset.
Qed.

End Preserves.

#[export] Hint Resolve preserves_ret preserves_fail preserves_undefined preserves_out_of_fuel
  preserves_of_opt preserves_of_res : preserves.

(** Walk through binds, branches and known calls. *)
Ltac preserve_step :=
  first
    [ solve [eauto 3 with preserves]
    | apply preserves_bind; [|intros ?]
    | match goal with
      | |- preserves _ (if ?b then _ else _) => destruct b
      | |- preserves _ (match ?x with _ => _ end) => destruct x
      | |- preserves _ (let '(_, _) := ?x in _) => destruct x
      end ].
Ltac preserve := repeat preserve_step.

(** ** What every write keeps *)

Section Writes.
Context (P : os → Prop) (F : Z → Prop) (Hwrite : ∀ fd bs, F fd → preserves P (sys_write fd bs)).

Lemma keep_write_full fd buf : F fd → preserves P (write_full fd buf).
Proof.
  intros HF. assert (Hloop : ∀ n b, preserves P (_write_full_loop n fd b)).
  { induction n as [|n IH]; intros b; cbn [_write_full_loop]; preserve; eauto. }
  unfold write_full. generalize (Z.to_nat (zlen buf / block_size)) as n.
  assert (Hfull : ∀ b, preserves P (_write_full fd b)) by (intros b o; apply Hloop).
  intros n. revert buf. induction n as [|n IH]; intros buf; cbn [write_full_blocks]; [apply Hfull|].
  apply preserves_bind; [apply Hfull|intros _; apply IH].
Qed.

Lemma keep_on_os {T A} (m : MC os A) : preserves P m → preserves (λ s, P s.1) (on_os m : MC (os * T) A).
Proof. intros Hm. unfold on_os. by apply (preserves_zoom _ _ _ P). Qed.

Lemma keep_on_snd {T} (f : T → T) : preserves (λ s, P s.1) (on_snd f : MC (os * T) unit).
Proof. by intros s. Qed.

Lemma keep_get_snd {T} : preserves (λ s, P s.1) (get_snd : MC (os * T) T).
Proof. by intros s. Qed.

Hint Resolve keep_write_full keep_on_os keep_on_snd keep_get_snd : preserves.

Lemma keep_buf_flushfile fd : F fd → preserves (λ s, P s.1) (buf_flushfile fd).
Proof. intros HF. unfold buf_flushfile. preserve. Qed.

Hint Resolve keep_buf_flushfile : preserves.

Lemma keep_buf_add fd data : F fd → preserves (λ s, P s.1) (buf_add fd data).
Proof.
  intros HF. unfold buf_add. generalize (S (S (length data))) as n. intros n. revert data.
  induction n as [|n IH]; intros data; cbn [buf_add_loop]; preserve.
Qed.

(** The writer keeps its descriptor. *)
Definition writer_keeps (s : WS) : Prop := F (w_fd s.2) ∧ P s.1.

Lemma keep_get_writer {A} (k : sparkey_logwriter → MC WS A) :
  (∀ log, F (w_fd log) → preserves writer_keeps (k log)) → preserves writer_keeps (get_writer ≫= k).
Proof. intros Hk s Hs. apply (Hk s.2); [apply Hs|exact Hs]. Qed.

Lemma keep_upd_writer f : (∀ w, w_fd (f w) = w_fd w) → preserves writer_keeps (upd_writer f).
Proof. intros Hf s [HF HP]. split; [|done]. cbn. by rewrite Hf. Qed.

Lemma keep_on_file_buf {A} (m : MC (os * sparkey_buf) A) :
  preserves (λ s, P s.1) m → preserves writer_keeps (on_file_buf m).
Proof.
  intros Hm. apply (preserves_zoom _ _ _ (λ s, P s.1)); [by intros s []|by intros s t []|done].
Qed.

Ltac keep :=
  repeat first
    [ solve [eauto 3 using keep_on_file_buf, keep_buf_add with preserves]
    | apply keep_get_writer; intros ? ?
    | apply keep_upd_writer; (done || by intros; case_decide)
    | preserve_step ].

Context {C : Codec}.

Lemma keep_flush_compressed : preserves writer_keeps flush_compressed.
Proof. unfold flush_compressed. keep. Qed.

Lemma keep_compressed_add data : preserves writer_keeps (compressed_add data).
Proof.
  unfold compressed_add. generalize (S (S (length data))) as n. intros n. revert data.
  pose proof keep_flush_compressed. induction n as [|n IH]; intros data; cbn [compressed_add_loop]; keep.
Qed.

Lemma keep_log_add num1 num2 data1 data2 : preserves writer_keeps (log_add num1 num2 data1 data2).
Proof.
  pose proof keep_flush_compressed. pose proof keep_compressed_add. unfold log_add. keep.
Qed.

Lemma keep_add_entry e : preserves writer_keeps (add_entry e).
Proof.
  pose proof keep_log_add. destruct e; cbn [add_entry];
    unfold sparkey_logwriter_put, sparkey_logwriter_delete, assert_writer_open; keep.
Qed.

End Writes.

(** ** System calls *)

Definition cooperative (o : os) : Prop := os_sched o = [].

(** With and without further state. *)
Abbreviation calm := (preserves cooperative).
Abbreviation calm_with := (preserves (λ s, cooperative s.1)).

Lemma calm_pop o : cooperative o → pop o = (Normal, o).
Proof. intros Hc. unfold pop. by rewrite Hc. Qed.

Ltac calm_call :=
  let o := fresh "o" in let Hc := fresh "Hc" in
  intros o Hc; rewrite ?(calm_pop o Hc); cbn; repeat case_match; done.

Lemma calm_malloc : calm sys_malloc.
Proof. unfold sys_malloc. calm_call. Qed.

Lemma calm_open name : calm (sys_open name).
Proof. unfold sys_open, new_fd. calm_call. Qed.

Lemma calm_create name : calm (sys_create name).
Proof. unfold sys_create, new_fd. calm_call. Qed.

Lemma calm_remove name : calm (sys_remove name).
Proof. unfold sys_remove. calm_call. Qed.

Lemma calm_close fd : calm (sys_close fd).
Proof. unfold sys_close. calm_call. Qed.

Lemma calm_lseek_set fd off : calm (sys_lseek_set fd off).
Proof. unfold sys_lseek_set. calm_call. Qed.

Lemma calm_lseek_cur fd : calm (sys_lseek_cur fd).
Proof. unfold sys_lseek_cur. calm_call. Qed.

Lemma calm_write fd bs : calm (sys_write fd bs).
Proof. unfold sys_write. calm_call. Qed.

Lemma calm_read fd n : calm (sys_read fd n).
Proof. unfold sys_read. calm_call. Qed.

Lemma calm_rand32 : calm rand32.
Proof. unfold rand32. calm_call. Qed.

#[export] Hint Resolve calm_malloc calm_open calm_create calm_remove calm_close calm_lseek_set
  calm_lseek_cur calm_write calm_read calm_rand32 : preserves.

Lemma calm_write_full fd buf : calm (write_full fd buf).
Proof. apply (keep_write_full cooperative (λ _, True)); [intros; apply calm_write|done]. Qed.

Lemma calm_closing {A} fp (m : MC os A) : calm m → calm (closing fp m).
Proof.
  intros Hm o Hc. unfold closing. specialize (Hm o Hc). destruct (m o) as [r o1]. cbn [snd] in Hm.
  pose proof (calm_close fp o1 Hm). by destruct (sys_close fp o1).
Qed.

Lemma calm_close_on_error {A} fd (m : MC os A) : calm m → calm (close_on_error fd m).
Proof.
  intros Hm o Hc. unfold close_on_error. specialize (Hm o Hc). destruct (m o) as [[a|e| |] o1]; try done.
  cbn [snd] in *. case_decide; [by apply calm_close|done].
Qed.

#[export] Hint Resolve calm_write_full calm_closing calm_close_on_error : preserves.

Lemma calm_fread n fp : calm (fread n fp).
Proof. unfold fread. preserve. Qed.

#[export] Hint Resolve calm_fread : preserves.

Lemma calm_le32 fp : calm (fread_little_endian32 fp).
Proof. unfold fread_little_endian32. preserve. Qed.

Lemma calm_le64 fp : calm (fread_little_endian64 fp).
Proof. unfold fread_little_endian64. preserve. Qed.

#[export] Hint Resolve calm_le32 calm_le64 : preserves.

Lemma calm_load_logheader filename : calm (sparkey_load_logheader filename).
Proof.
  unfold sparkey_load_logheader. preserve; apply calm_closing; [preserve..|].
  unfold logheader_version0. preserve.
Qed.

Lemma calm_write_logheader fd h : calm (write_logheader fd h).
Proof. unfold write_logheader, fwrite_little_endian32, fwrite_little_endian64. preserve. Qed.

Lemma calm_buf_init size : calm (buf_init size).
Proof. unfold buf_init. preserve. Qed.

#[export] Hint Resolve calm_load_logheader calm_write_logheader calm_buf_init : preserves.

(** ** The writer *)

Section Writer.
Context {C : Codec}.

Lemma calm_create_writer filename t block_size : calm (sparkey_logwriter_create filename t block_size).
Proof.
  unfold sparkey_logwriter_create, create_compressor. preserve; apply calm_close_on_error; preserve.
Qed.

Lemma calm_append_writer filename : calm (sparkey_logwriter_append filename).
Proof.
  unfold sparkey_logwriter_append, append_compressor. preserve; apply calm_close_on_error; preserve.
Qed.

Lemma calm_add_entry e : calm_with (add_entry e).
Proof.
  intros s Hs. apply (keep_add_entry cooperative (λ _, True)); [intros; apply calm_write|by split].
Qed.

End Writer.
