(* ===== verification/HeaderTypes.v ===== *)
(** * The types of loaded headers

    Whatever the files hold and however the environment cuts or fails the reads, a
    header that the loaders return has fields that fit their C types and pass the
    checks of the loader. *)

From stdpp Require Import base gmap list strings numbers.
From Stdlib Require Import ZArith Lia.
From S2P Require Import Prelude ReturnCodes Endian OS HashAlg LogHeader HashHeader.
From S2P Require Import Buf Compress LogFormat LogWriter Cooperation.

Local Open Scope Z_scope.

(** ** Computations with a typed result *)

(** The state keeps [P], and a result is [Q]. *)
Definition gives {E S A} (P : S → Prop) (m : M E S A) (Q : A → Prop) : Prop :=
  preserves P m ∧ ∀ s a s', P s → m s = (Ok a, s') → Q a.

Section Gives.
Context {E S : Type} (P : S → Prop).

Lemma gives_ret {A} (a : A) (Q : A → Prop) : Q a → gives P (mret a : M E S A) Q.
Proof. intros Ha. split; [apply preserves_ret|]. by intros s b s' _ [= <- _]. Qed.

Lemma gives_fail {A} e (Q : A → Prop) : gives P (fail e : M E S A) Q.
Proof. split; [apply preserves_fail|done]. Qed.

Lemma gives_of_opt {A} (x : option A) (Q : A → Prop) :
  (∀ a, x = Some a → Q a) → gives P (of_opt x : M E S A) Q.
Proof.
  intros Hx. split; [apply preserves_of_opt|]. intros s a s' _. destruct x as [b|]; [|done].
  intros [= <- _]. by apply Hx.
Qed.

Lemma gives_known {A} (x : option A) : gives P (of_opt x : M E S A) (λ a, x = Some a).
Proof. by apply gives_of_opt. Qed.

Lemma gives_bind {A B} (m : M E S A) (k : A → M E S B) (Q : A → Prop) (R : B → Prop) :
  gives P m Q → (∀ a, Q a → gives P (k a) R) → gives P (m ≫= k) R.
Proof.
  intros [Hm HQ] Hk. split.
  - intros s Hs. specialize (Hm s Hs). specialize (HQ s). unfold mbind, M_bind.
    destruct (m s) as [[a|e| |] s']; try done. by apply (Hk a); [eapply HQ|].
  - intros s b s' Hs. specialize (Hm s Hs). specialize (HQ s). unfold mbind, M_bind.
    destruct (m s) as [[a|e| |] s1]; try done. intros Hb.
    by eapply (Hk a); [eapply HQ| |exact Hb].
Qed.

Lemma gives_preserved {A} (m : M E S A) : preserves P m → gives P m (λ _, True).
Proof. by split. Qed.

End Gives.

(** ** Reading words *)

(** The files hold bytes. *)
Definition os_bytes (o : os) : Prop := ∀ ino c, os_inodes o !! ino = Some c → bytes_ok c.

Definition word32 (v : Z) : Prop := 0 ≤ v < 2 ^ 32.
Definition word64 (v : Z) : Prop := 0 ≤ v < 2 ^ 64.

Lemma pop_inodes o : os_inodes (pop o).2 = os_inodes o.
Proof. unfold pop. by destruct (os_sched o). Qed.

Lemma bytes_open name : preserves os_bytes (sys_open name).
Proof.
  intros o Hb. pose proof (pop_inodes o) as Hp. unfold sys_open. destruct (pop o) as [e o1]. cbn [snd] in Hp.
  unfold new_fd. repeat case_match; simplify_eq/=; unfold os_bytes in *; cbn; by rewrite Hp.
Qed.

Lemma bytes_close fd : preserves os_bytes (sys_close fd).
Proof. intros o Hb. unfold sys_close. by case_match. Qed.

Lemma bytes_read fd n :
  gives os_bytes (sys_read fd n) (λ r, match r with inl _ => True | inr bs => bytes_ok bs end).
Proof.
  assert (Hcut : ∀ o ino off, os_bytes o →
    bytes_ok (take (Z.to_nat n) (drop (Z.to_nat off) (default [] (os_inodes o !! ino))))).
  { intros o ino off Hb. apply bytes_ok_take, bytes_ok_drop. specialize (Hb ino).
    destruct (os_inodes o !! ino); [by apply Hb|constructor]. }
  split.
  - intros o Hb. pose proof (pop_inodes o) as Hp. unfold sys_read. destruct (os_fds o !! fd) as [[ino off]|]; [|done].
    destruct (pop o) as [e o1]. cbn [snd] in Hp. unfold os_bytes in *.
    repeat case_match; simplify_eq/=; by rewrite Hp.
  - intros o r o' Hb. unfold sys_read. destruct (os_fds o !! fd) as [[ino off]|]; [|by intros [= <- _]].
    destruct (pop o) as [[|e|m] o1]; intros [= <- _]; [by apply Hcut|done|].
    by apply bytes_ok_take, Hcut.
Qed.

Lemma bytes_fread n fp :
  gives os_bytes (fread n fp) (λ r, ∀ bs, r = Some bs → bytes_ok bs ∧ zlen bs = n).
Proof.
  unfold fread. eapply gives_bind; [apply bytes_read|]. intros [e|bs] Hbs; [by apply gives_ret|].
  case_decide; apply gives_ret; [by intros ? [= <-]|done].
Qed.

Lemma bytes_fread32 fp : gives os_bytes (fread_little_endian32 fp) word32.
Proof.
  unfold fread_little_endian32. eapply gives_bind; [apply bytes_fread|].
  intros [bs|] Hbs; [|apply gives_fail]. destruct (Hbs bs eq_refl) as [Hok Hlen].
  apply gives_of_opt. intros v Hv. pose proof (le_value_bound bs Hok) as Hr. rewrite Hlen in Hr.
  destruct bs as [|b0 [|b1 [|b2 [|b3 [|]]]]]; try (cbn in Hlen; lia).
  rewrite <- (le_bytes_value [b0; b1; b2; b3] Hok) in Hv. cbn [length] in Hv.
  rewrite <- write32_le_bytes in Hv. rewrite <- (app_nil_r (write_little_endian32 _)) in Hv.
  pose proof (λ v, read32_mid [] v [] 0 eq_refl) as Hm. cbn [app length] in Hm. rewrite Hm in Hv. injection Hv as <-. apply u32_range.
Qed.

Lemma bytes_fread64 fp : gives os_bytes (fread_little_endian64 fp) word64.
Proof.
  unfold fread_little_endian64. eapply gives_bind; [apply bytes_fread|].
  intros [bs|] Hbs; [|apply gives_fail]. destruct (Hbs bs eq_refl) as [Hok Hlen].
  apply gives_of_opt. intros v Hv.
  destruct bs as [|b0 [|b1 [|b2 [|b3 [|b4 [|b5 [|b6 [|b7 [|]]]]]]]]]; try (cbn in Hlen; lia).
  rewrite <- (le_bytes_value [b0; b1; b2; b3; b4; b5; b6; b7] Hok) in Hv. cbn [length] in Hv.
  rewrite <- write64_le_bytes in Hv. rewrite <- (app_nil_r (write_little_endian64 _)) in Hv.
  pose proof (λ v, read64_mid [] v [] 0 eq_refl) as Hm. cbn [app length] in Hm. rewrite Hm in Hv. injection Hv as <-. apply u64_range.
Qed.

Lemma gives_closing {A} fp (m : MC os A) Q : gives os_bytes m Q → gives os_bytes (closing fp m) Q.
Proof.
  intros [Hm HQ]. split.
  - intros o Hb. unfold closing. specialize (Hm o Hb). destruct (m o) as [r o1]. cbn [snd] in Hm.
    pose proof (bytes_close fp o1 Hm). by destruct (sys_close fp o1).
  - intros o a o' Hb. unfold closing. specialize (HQ o). destruct (m o) as [r o1].
    destruct (sys_close fp o1). intros [= -> _]. by eapply HQ.
Qed.

Create HintDb gives discriminated.
#[export] Hint Resolve bytes_fread32 bytes_fread64 : gives.

(** Name the words that are read, one after the other. *)
Ltac read_words := repeat (eapply gives_bind; [solve [auto with gives]|intros ? ?]).

(** ** The headers *)

Definition loaded_logheader (h : sparkey_logheader) : Prop := logheader_typed h ∧ logheader_valid h.
Definition loaded_hashheader (h : sparkey_hashheader) : Prop :=
  hashheader_typed h ∧ hashheader_valid h ∧ hh_major_version h = HASH_MAJOR_VERSION ∧
  0 ≤ hh_minor_version h ≤ HASH_MINOR_VERSION.

Lemma logheader_version0_gives fp maj min :
  maj = LOG_MAJOR_VERSION → min = LOG_MINOR_VERSION →
  gives os_bytes (logheader_version0 maj min fp) loaded_logheader.
Proof.
  intros Hmaj Hmin. unfold logheader_version0. read_words. case_match eqn:Hck; [apply gives_fail|].
  apply gives_ret. split; [by unfold logheader_typed, word32, word64 in *; tauto|].
  by apply logheader_checks_valid.
Qed.

Lemma hashheader_version0_gives fp maj min :
  maj = HASH_MAJOR_VERSION → 0 ≤ min ≤ HASH_MINOR_VERSION →
  gives os_bytes (hashheader_version0 maj min fp) loaded_hashheader.
Proof.
  intros Hmaj Hmin. unfold hashheader_version0. do 13 (eapply gives_bind; [solve [auto with gives]|intros ? ?]).
  eapply gives_bind; [apply gives_known|]. intros mask Hmask. cbv beta in Hmask.
  read_words. case_match eqn:Hck; [apply gives_fail|]. apply gives_ret.
  apply hashheader_checks_valid in Hck; [|done]. split; [|split; [exact Hck|by split]].
  match type of Hmask with block_bitmask ?b = _ => assert (b < 31) by
    (unfold block_bitmask in Hmask; by destruct (decide (b < 31))) end.
  unfold hashheader_typed, word32, word64 in *. split_and!; done || cbn; lia.
Qed.

(** ** Properties *)

(** C29. Whatever bytes the files hold, and whichever reads fail or are cut short: a log
    header or an index header that is loaded has every field in the range of its C
    type, the computed fields are consistent, and the checks of the loader hold. *)
Theorem loaded_headers_typed filename o :
  os_bytes o →
  (∀ h, (sparkey_load_logheader filename o).1 = Ok h → logheader_typed h ∧ logheader_valid h) ∧
  (∀ h, (sparkey_load_hashheader filename o).1 = Ok h →
     hashheader_typed h ∧ hashheader_valid h ∧ hh_major_version h = HASH_MAJOR_VERSION ∧
     0 ≤ hh_minor_version h ≤ HASH_MINOR_VERSION).
Proof.
  intros Hb.
  assert (Hl : gives os_bytes (sparkey_load_logheader filename) loaded_logheader).
  { unfold sparkey_load_logheader. eapply gives_bind; [apply gives_preserved, bytes_open|].
    intros [e|fp] _; [apply gives_fail|].
    do 3 (eapply gives_bind; [apply bytes_fread32|]; intros ? ?;
          case_decide; [apply gives_closing, gives_fail|]).
    apply gives_closing, logheader_version0_gives; [tauto|]. unfold word32, LOG_MINOR_VERSION in *. lia. }
  assert (Hh : gives os_bytes (sparkey_load_hashheader filename) loaded_hashheader).
  { unfold sparkey_load_hashheader. eapply gives_bind; [apply gives_preserved, bytes_open|].
    intros [e|fp] _; [apply gives_fail|].
    do 3 (eapply gives_bind; [apply bytes_fread32|]; intros ? ?;
          case_decide; [apply gives_closing, gives_fail|]).
    apply gives_closing, hashheader_version0_gives; [tauto|]. unfold word32, HASH_MINOR_VERSION in *. lia. }
  split; intros h Hr.
  - destruct (sparkey_load_logheader filename o) as [r o'] eqn:E. cbn in Hr. subst r. by eapply (proj2 Hl).
  - destruct (sparkey_load_hashheader filename o) as [r o'] eqn:E. cbn in Hr. subst r. by eapply (proj2 Hh).
Qed.

(** A file whose header fields are read one after the other, with failures later. *)
Example os_failing : os :=
  OS {[ 0%nat := logheader_bytes logheader_example ]} {[ "a.spl"%string := 0%nat ]} ∅ 1 3
     (replicate 15 Normal ++ [Fails EINTR]) [].

Lemma loaded_headers_typed_witness :
  (sparkey_load_logheader "a.spl" os_failing).1 = Ok logheader_example ∧ logheader_typed logheader_example.
Proof.
  destruct (loaded_headers_typed "a.spl" os_failing) as [Hl _].
  { intros ino c Hc. unfold os_failing, os_inodes in Hc. apply lookup_singleton_Some in Hc as [_ <-].
    apply logheader_bytes_ok. }
  split; [by vm_compute|]. apply (Hl logheader_example). by vm_compute.
Defined.
