(* ===== verification/Printing.v ===== *)
(** * Printing headers (logheader.c, hashheader.c)

    The lines that print_logheader and print_hashheader show, with the conversions of
    printf that they use. *)

From stdpp Require Import base list strings numbers pretty.
From Stdlib Require Import ZArith Lia Ascii SpecFloat.
From S2P Require Import Prelude ReturnCodes LogHeader HashHeader.

Local Open Scope Z_scope.

(** ** The conversions of printf *)

(** [%d] of an [uint32_t], and [%08x]. *)
Definition percent_d (n : Z) : string := pretty (s32 n).

Definition hex_digit (n : Z) : ascii := ascii_of_nat (Z.to_nat (if decide (n < 10) then 48 + n else 87 + n)).

Fixpoint hex_digits (k : nat) (n : Z) : string :=
  match k with
  | O => ""
  | S k => hex_digits k (n / 16) +:+ String (hex_digit (n mod 16)) ""
  end.

Definition percent_08x (n : Z) : string := hex_digits 8 n.

(** [%.2f] of the double [m * 2 ^ e]: the hundredths nearest to it, ties to even. *)
Definition hundredths (m e : Z) : Z :=
  let n := 100 * m in
  if decide (0 ≤ e) then n * 2 ^ e else
  let d := 2 ^ (- e) in
  let q := n / d in
  let r := n mod d in
  if decide (d < 2 * r ∨ d = 2 * r ∧ Z.odd q = true) then q + 1 else q.

Definition fixed2 (n : Z) : string :=
  pretty (n / 100) +:+ "." +:+ pretty (n mod 100 / 10) +:+ pretty (n mod 10).

(** What is not a number has the sign that the division of an x86 processor gives. *)
Definition percent_2f (d : spec_float) : string :=
  match d with
  | S754_zero _ => fixed2 0
  | S754_finite _ m e => fixed2 (hundredths (Zpos m) e)
  | S754_infinity _ => "inf"
  | S754_nan => "-nan"
  end.

(** [(double) n] and the quotient of two of them, in the Standard Library's IEEE
    arithmetic. *)
Definition to_double (n : Z) : spec_float := binary_normalize 53 1024 n 0 false.
Definition average (total count : Z) : spec_float := SFdiv 53 1024 (to_double total) (to_double count).

(** ** The headers *)

(** The array ends with NULL, and a type behind its end reads past it. *)
Definition compression_types (t : Z) : option string :=
  if decide (t = SPARKEY_COMPRESSION_NONE) then Some "Uncompressed"%string
  else if decide (t = SPARKEY_COMPRESSION_SNAPPY) then Some "Snappy"%string
  else if decide (t = SPARKEY_COMPRESSION_ZSTD) then Some "Zstd"%string
  else None.

Definition print_logheader (header : sparkey_logheader) : option (list string) :=
  compression ← compression_types (lh_compression_type header);
  Some [ "Log file version " +:+ percent_d (lh_major_version header) +:+ "." +:+
           percent_d (lh_minor_version header);
         "Identifier: " +:+ percent_08x (lh_file_identifier header);
         "Puts: " +:+ pretty (lh_num_puts header) +:+ ", Deletes: " +:+ pretty (lh_num_deletes header);
         "Max key size: " +:+ pretty (lh_max_key_len header) +:+ ", Max value size: " +:+
           pretty (lh_max_value_len header);
         "Compression: " +:+ compression +:+ ", block size: " +:+
           percent_d (lh_compression_block_size header) ].

Definition print_hashheader (header : sparkey_hashheader) : list string :=
  [ "Hash file version " +:+ percent_d (hh_major_version header) +:+ "." +:+
      percent_d (hh_minor_version header);
    "Identifier: " +:+ percent_08x (hh_file_identifier header);
    "Max key size: " +:+ pretty (hh_max_key_len header) +:+ ", Max value size: " +:+
      pretty (hh_max_value_len header);
    "Hash size: " +:+ percent_d (u32 (8 * hh_hash_size header)) +:+ " bit Murmurhash3";
    "Num entries: " +:+ pretty (hh_num_entries header) +:+ ", Capacity: " +:+
      pretty (hh_hash_capacity header);
    "Num collisions: " +:+ pretty (hh_hash_collisions header) +:+ ", Max displacement: " +:+
      pretty (hh_max_displacement header) +:+ ", Average displacement: " +:+
      percent_2f (average (hh_total_displacement header) (hh_num_entries header));
    "Data size: " +:+ pretty (hh_data_end header) +:+ ", Garbage size: " +:+
      pretty (hh_garbage_size header) ].

(** ** Lemmas *)

Lemma compression_types_valid h :
  logheader_typed h → logheader_valid h → is_Some (compression_types (lh_compression_type h)).
Proof.
  intros (_ & _ & _ & _ & _ & _ & _ & Ht & _) (_ & _ & _ & _ & _ & _ & Hv). unfold compression_types.
  unfold SPARKEY_COMPRESSION_NONE, SPARKEY_COMPRESSION_SNAPPY, SPARKEY_COMPRESSION_ZSTD in *.
  repeat case_decide; [by eexists..|lia].
Qed.

(** The hundredths are as near as hundredths can be. *)
Lemma hundredths_nearest m e :
  0 ≤ m → e < 0 → 2 * Z.abs (hundredths m e * 2 ^ (- e) - 100 * m) ≤ 2 ^ (- e).
Proof.
  intros Hm He. unfold hundredths. rewrite (decide_False (P := 0 ≤ e)) by lia.
  pose proof (Z.pow_pos_nonneg 2 (- e) ltac:(lia) ltac:(lia)) as Hp. set (d := 2 ^ (- e)) in *.
  pose proof (Z.div_mod (100 * m) d ltac:(lia)) as Hdm. pose proof (Z.mod_pos_bound (100 * m) d Hp) as Hr.
  set (q := 100 * m / d) in *. set (r := 100 * m mod d) in *. case_decide as Hc.
  - replace ((q + 1) * d - 100 * m) with (d - r) by lia. lia.
  - replace (q * d - 100 * m) with (- r) by lia. lia.
Qed.

(** Reading the hexadecimal digits gives the number back. *)
Definition hex_value (c : ascii) : Z :=
  let n := Z.of_nat (nat_of_ascii c) in if decide (n < 58) then n - 48 else n - 87.
Definition hex_number (s : string) : Z :=
  fold_left (λ n c, 16 * n + hex_value c) (String.list_ascii_of_string s) 0.

Lemma hex_digit_value n : 0 ≤ n < 16 → hex_value (hex_digit n) = n.
Proof.
  intros Hn. unfold hex_value, hex_digit. rewrite nat_ascii_embedding by (case_decide; lia).
  case_decide; case_decide; lia.
Qed.

Lemma hex_digits_number k n : 0 ≤ n < 16 ^ Z.of_nat k → hex_number (hex_digits k n) = n.
Proof.
  revert n. induction k as [|k IH]; intros n Hn; cbn [hex_digits]; [cbn in *; lia|].
  rewrite Nat2Z.inj_succ, Z.pow_succ_r in Hn by lia.
  unfold hex_number in *. rewrite list_ascii_app, fold_left_app, IH.
  - cbn. rewrite hex_digit_value by (apply Z.mod_pos_bound; lia). pose proof (Z.div_mod n 16). lia.
  - split; [apply Z.div_pos; lia|apply Z.div_lt_upper_bound; lia].
Qed.

(** Two different identifiers are never shown alike. *)
Lemma identifiers_shown_apart h1 h2 :
  0 ≤ lh_file_identifier h1 < 2 ^ 32 → 0 ≤ lh_file_identifier h2 < 2 ^ 32 →
  percent_08x (lh_file_identifier h1) = percent_08x (lh_file_identifier h2) →
  lh_file_identifier h1 = lh_file_identifier h2.
Proof.
  intros H1 H2 Heq. apply (f_equal hex_number) in Heq. unfold percent_08x in Heq.
  by rewrite !hex_digits_number in Heq by done.
Qed.

Example prints :
  print_logheader (LogHeader 1 0 48879 3 1 120 4 5 6 SPARKEY_COMPRESSION_SNAPPY 4096 30 84 7) =
    Some ["Log file version 1.0"; "Identifier: 0000beef"; "Puts: 3, Deletes: 1";
          "Max key size: 4, Max value size: 5"; "Compression: Snappy, block size: 4096"]%string ∧
  (percent_2f (average 5 8), percent_2f (average 1 3), percent_2f (average 0 0),
   percent_2f (average 7 0), percent_2f (average 2000 1)) =
    ("0.62", "0.33", "-nan", "inf", "2000.00")%string.
Proof. split; vm_compute; reflexivity. Qed.
