(* ===== verification/LogReader.v ===== *)
(** * The log reader and the log iterator (logreader.c, sparkey-internal.h)

    Opening a log maps the data the header promises.  The iterator walks the
    entries block by block and hands out keys and values in chunks. *)

From stdpp Require Import base gmap list strings numbers.
From Stdlib Require Import ZArith Lia.
From S2P Require Import Prelude ReturnCodes OS Vlq LogHeader Buf Compress LogWriter.

Local Open Scope Z_scope.

(** ** Definitions *)

Definition MAGIC_VALUE_LOGITER : Z := 0xd765c8cc.
Definition MAGIC_VALUE_LOGREADER : Z := 0xe93356c4.

Definition min64 (a b : Z) : Z := if decide (a < b) then a else b.

(** [r_data] is the mapping, [None] when the pointer is NULL. *)
Record sparkey_logreader : Type := LogReader {
  r_open_status : Z;
  r_header : sparkey_logheader;
  r_fd : Z;
  r_data_len : Z;
  r_data : option (list Z)
}.

Inductive sparkey_entry_type : Set := SPARKEY_ENTRY_PUT | SPARKEY_ENTRY_DELETE.

Inductive sparkey_iter_state : Set :=
| SPARKEY_ITER_NEW
| SPARKEY_ITER_ACTIVE
| SPARKEY_ITER_CLOSED
| SPARKEY_ITER_INVALID.

#[export] Instance entry_type_eq_dec : EqDecision sparkey_entry_type.
Proof. solve_decision. Defined.
#[export] Instance iter_state_eq_dec : EqDecision sparkey_iter_state.
Proof. solve_decision. Defined.

(** What the pointer [compression_buf] points to: nothing yet, a place in the
    mapping of the log, or the block buffer the iterator allocated. *)
Inductive cbuf : Type :=
| CbNone
| CbData (off : Z)
| CbOwn (bs : list Z).

Record sparkey_logiter : Type := LogIter {
  i_open_status : Z;
  i_file_identifier : Z;
  i_block_position : Z;
  i_next_block_position : Z;
  i_block_offset : Z;
  i_block_len : Z;
  i_entry_count : Z;
  i_compression_buf_allocated : bool;
  i_compression_buf : cbuf;
  i_entry_block_position : Z;
  i_entry_block_offset : Z;
  i_type : sparkey_entry_type;
  i_state : sparkey_iter_state;
  i_keylen : Z;
  i_valuelen : Z;
  i_key_remaining : Z;
  i_value_remaining : Z
}.

Definition set_block_position (x : Z) (i : sparkey_logiter) := LogIter (i_open_status i)
  (i_file_identifier i) x (i_next_block_position i) (i_block_offset i) (i_block_len i)
  (i_entry_count i) (i_compression_buf_allocated i) (i_compression_buf i) (i_entry_block_position i)
  (i_entry_block_offset i) (i_type i) (i_state i) (i_keylen i) (i_valuelen i) (i_key_remaining i)
  (i_value_remaining i).
Definition set_next_block_position (x : Z) (i : sparkey_logiter) := LogIter (i_open_status i)
  (i_file_identifier i) (i_block_position i) x (i_block_offset i) (i_block_len i) (i_entry_count i)
  (i_compression_buf_allocated i) (i_compression_buf i) (i_entry_block_position i)
  (i_entry_block_offset i) (i_type i) (i_state i) (i_keylen i) (i_valuelen i) (i_key_remaining i)
  (i_value_remaining i).
Definition set_block_offset (x : Z) (i : sparkey_logiter) := LogIter (i_open_status i)
  (i_file_identifier i) (i_block_position i) (i_next_block_position i) x (i_block_len i)
  (i_entry_count i) (i_compression_buf_allocated i) (i_compression_buf i) (i_entry_block_position i)
  (i_entry_block_offset i) (i_type i) (i_state i) (i_keylen i) (i_valuelen i) (i_key_remaining i)
  (i_value_remaining i).
Definition set_block_len (x : Z) (i : sparkey_logiter) := LogIter (i_open_status i)
  (i_file_identifier i) (i_block_position i) (i_next_block_position i) (i_block_offset i) x
  (i_entry_count i) (i_compression_buf_allocated i) (i_compression_buf i) (i_entry_block_position i)
  (i_entry_block_offset i) (i_type i) (i_state i) (i_keylen i) (i_valuelen i) (i_key_remaining i)
  (i_value_remaining i).
Definition set_entry_count (x : Z) (i : sparkey_logiter) := LogIter (i_open_status i)
  (i_file_identifier i) (i_block_position i) (i_next_block_position i) (i_block_offset i)
  (i_block_len i) x (i_compression_buf_allocated i) (i_compression_buf i) (i_entry_block_position i)
  (i_entry_block_offset i) (i_type i) (i_state i) (i_keylen i) (i_valuelen i) (i_key_remaining i)
  (i_value_remaining i).
Definition set_compression_buf (x : cbuf) (i : sparkey_logiter) := LogIter (i_open_status i)
  (i_file_identifier i) (i_block_position i) (i_next_block_position i) (i_block_offset i)
  (i_block_len i) (i_entry_count i) (i_compression_buf_allocated i) x (i_entry_block_position i)
  (i_entry_block_offset i) (i_type i) (i_state i) (i_keylen i) (i_valuelen i) (i_key_remaining i)
  (i_value_remaining i).
Definition set_entry_block_position (x : Z) (i : sparkey_logiter) := LogIter (i_open_status i)
  (i_file_identifier i) (i_block_position i) (i_next_block_position i) (i_block_offset i)
  (i_block_len i) (i_entry_count i) (i_compression_buf_allocated i) (i_compression_buf i) x
  (i_entry_block_offset i) (i_type i) (i_state i) (i_keylen i) (i_valuelen i) (i_key_remaining i)
  (i_value_remaining i).
Definition set_entry_block_offset (x : Z) (i : sparkey_logiter) := LogIter (i_open_status i)
  (i_file_identifier i) (i_block_position i) (i_next_block_position i) (i_block_offset i)
  (i_block_len i) (i_entry_count i) (i_compression_buf_allocated i) (i_compression_buf i)
  (i_entry_block_position i) x (i_type i) (i_state i) (i_keylen i) (i_valuelen i) (i_key_remaining
  i) (i_value_remaining i).
Definition set_type (x : sparkey_entry_type) (i : sparkey_logiter) := LogIter (i_open_status i)
  (i_file_identifier i) (i_block_position i) (i_next_block_position i) (i_block_offset i)
  (i_block_len i) (i_entry_count i) (i_compression_buf_allocated i) (i_compression_buf i)
  (i_entry_block_position i) (i_entry_block_offset i) x (i_state i) (i_keylen i) (i_valuelen i)
  (i_key_remaining i) (i_value_remaining i).
Definition set_state (x : sparkey_iter_state) (i : sparkey_logiter) := LogIter (i_open_status i)
  (i_file_identifier i) (i_block_position i) (i_next_block_position i) (i_block_offset i)
  (i_block_len i) (i_entry_count i) (i_compression_buf_allocated i) (i_compression_buf i)
  (i_entry_block_position i) (i_entry_block_offset i) (i_type i) x (i_keylen i) (i_valuelen i)
  (i_key_remaining i) (i_value_remaining i).
Definition set_keylen (x : Z) (i : sparkey_logiter) := LogIter (i_open_status i) (i_file_identifier
  i) (i_block_position i) (i_next_block_position i) (i_block_offset i) (i_block_len i)
  (i_entry_count i) (i_compression_buf_allocated i) (i_compression_buf i) (i_entry_block_position i)
  (i_entry_block_offset i) (i_type i) (i_state i) x (i_valuelen i) (i_key_remaining i)
  (i_value_remaining i).
Definition set_valuelen (x : Z) (i : sparkey_logiter) := LogIter (i_open_status i)
  (i_file_identifier i) (i_block_position i) (i_next_block_position i) (i_block_offset i)
  (i_block_len i) (i_entry_count i) (i_compression_buf_allocated i) (i_compression_buf i)
  (i_entry_block_position i) (i_entry_block_offset i) (i_type i) (i_state i) (i_keylen i) x
  (i_key_remaining i) (i_value_remaining i).
Definition set_key_remaining (x : Z) (i : sparkey_logiter) := LogIter (i_open_status i)
  (i_file_identifier i) (i_block_position i) (i_next_block_position i) (i_block_offset i)
  (i_block_len i) (i_entry_count i) (i_compression_buf_allocated i) (i_compression_buf i)
  (i_entry_block_position i) (i_entry_block_offset i) (i_type i) (i_state i) (i_keylen i)
  (i_valuelen i) x (i_value_remaining i).
Definition set_value_remaining (x : Z) (i : sparkey_logiter) := LogIter (i_open_status i)
  (i_file_identifier i) (i_block_position i) (i_next_block_position i) (i_block_offset i)
  (i_block_len i) (i_entry_count i) (i_compression_buf_allocated i) (i_compression_buf i)
  (i_entry_block_position i) (i_entry_block_offset i) (i_type i) (i_state i) (i_keylen i)
  (i_valuelen i) (i_key_remaining i) x.

(** The functions on one iterator run on its record; the log is only read. *)
Abbreviation MI A := (MC sparkey_logiter A).
Definition upd (f : sparkey_logiter → sparkey_logiter) : MI unit := modS f.

Lemma bind_upd {B} f (k : unit → MI B) i : (upd f ≫= k) i = k tt (f i).
Proof. done. Qed.

(** Two iterators over the same log. *)
Abbreviation MI2 A := (MC (sparkey_logiter * sparkey_logiter) A).
Definition on_iter1 {A} (m : MI A) : MI2 A := zoom fst (λ i s, (i, s.2)) m.
Definition on_iter2 {A} (m : MI A) : MI2 A := zoom snd (λ i s, (s.1, i)) m.

(** *** The log reader *)

Definition sparkey_logreader_open_noalloc (filename : string) : MC os sparkey_logreader :=
  header ← sparkey_load_logheader filename;
  let data_len := lh_data_end header in
  st ← sys_stat_size filename;
  st_size ← of_opt st;
  if decide (data_len > st_size) then fail SPARKEY_LOG_TOO_SMALL else
  r ← sys_open filename;
  match r with
  | inl e => fail (sparkey_open_returncode e)
  | inr fd => close_on_error fd
      (m ← sys_mmap fd data_len;
       match m with
       | None => fail SPARKEY_MMAP_FAILED
       | Some data => mret (LogReader MAGIC_VALUE_LOGREADER header fd data_len (Some data))
       end)
  end.

Definition sparkey_logreader_open (filename : string) : MC os sparkey_logreader :=
  if decide (correct_endian_platform ≠ SPARKEY_SUCCESS) then fail correct_endian_platform else
  ok ← sys_malloc;
  if negb ok then fail SPARKEY_INTERNAL_ERROR else sparkey_logreader_open_noalloc filename.

Definition sparkey_logreader_close_nodealloc : MC (os * sparkey_logreader) unit :=
  log ← get_snd;
  if decide (r_open_status log ≠ MAGIC_VALUE_LOGREADER) then mret tt else
  _ ← on_os (sys_close (r_fd log));
  on_snd (λ log, LogReader 0 (r_header log) (-1) (r_data_len log) None).

(** The pointer is NULL afterwards, whether the reader was open or not. *)
Definition sparkey_logreader_close : MC (os * option sparkey_logreader) unit := λ s,
  match s with
  | (o, None) => (Ok tt, s)
  | (o, Some log) => let '(r, (o, _)) := sparkey_logreader_close_nodealloc (o, log) in (r, (o, None))
  end.

Definition assert_log_open {S} (log : sparkey_logreader) : MC S unit :=
  if decide (r_open_status log ≠ MAGIC_VALUE_LOGREADER) then fail SPARKEY_LOG_CLOSED
  else mret tt.

Definition assert_iter_open (log : sparkey_logreader) : MI unit :=
  _ ← assert_log_open log;
  iter ← getS;
  if decide (i_open_status iter ≠ MAGIC_VALUE_LOGITER) then fail SPARKEY_LOG_ITERATOR_CLOSED
  else if decide (i_file_identifier iter ≠ lh_file_identifier (r_header log))
  then fail SPARKEY_LOG_ITERATOR_MISMATCH
  else mret tt.

Section LogReader.
Context {C : Codec}.

(** *** The iterator *)

(** The fields the code leaves uninitialised are 0, and the block buffer holds
    zeros; the type starts as PUT. *)
Definition sparkey_logiter_create (log : sparkey_logreader) : MC os sparkey_logiter :=
  _ ← assert_log_open log;
  ok ← sys_malloc;
  if negb ok then fail SPARKEY_INTERNAL_ERROR else
  let iter allocated buf :=
    LogIter MAGIC_VALUE_LOGITER (lh_file_identifier (r_header log)) 0
      (lh_header_size (r_header log)) 0 0 0 allocated buf 0 0 SPARKEY_ENTRY_PUT SPARKEY_ITER_NEW
      0 0 0 0 in
  if sparkey_uses_compressor (lh_compression_type (r_header log)) then
    ok ← sys_malloc;
    if negb ok then fail SPARKEY_INTERNAL_ERROR else
    mret (iter true (CbOwn (replicate (Z.to_nat (lh_compression_block_size (r_header log))) 0)))
  else mret (iter false CbNone).

Definition sparkey_logiter_close (iter_ref : option sparkey_logiter) : option sparkey_logiter :=
  match iter_ref with
  | None => None
  | Some iter => if decide (i_open_status iter ≠ MAGIC_VALUE_LOGITER) then Some iter else None
  end.

(** A block that fails to decompress leaves the buffer as it was; in C its
    contents are unspecified then, and every caller gives up. *)
Definition seekblock (log : sparkey_logreader) (position : Z) : MI unit :=
  _ ← upd (set_block_offset 0);
  iter ← getS;
  if decide (i_block_position iter = position) then mret tt else
  if sparkey_uses_compressor (lh_compression_type (r_header log)) then
    data ← of_opt (r_data log);
    vp ← of_opt (read_vlq data position);
    let compressed_size := u32 vp.1 in
    let pos := vp.2 in
    let next_pos := u64 (pos + compressed_size) in
    c ← of_opt (sparkey_compressors (lh_compression_type (r_header log)));
    input ← of_opt (mem_read data pos compressed_size);
    out ← of_res (decompress c input (lh_compression_block_size (r_header log)));
    buf ← of_opt (match i_compression_buf iter with CbOwn b => mem_write b 0 out | _ => None end);
    upd (λ i, set_block_len (zlen out) (set_next_block_position next_pos
                (set_block_position position (set_compression_buf (CbOwn buf) i))))
  else
    upd (λ i, set_block_len (u64 (r_data_len log - position))
                (set_next_block_position (lh_data_end (r_header log))
                  (set_block_position position (set_compression_buf (CbData position) i)))).

Definition sparkey_logiter_seek (log : sparkey_logreader) (position : Z) : MI unit :=
  _ ← assert_iter_open log;
  if decide (position = lh_data_end (r_header log)) then upd (set_state SPARKEY_ITER_CLOSED) else
  _ ← seekblock log position;
  upd (λ i, set_state SPARKEY_ITER_NEW (set_entry_count (-1) i)).

Definition ensure_available (log : sparkey_logreader) : MI unit :=
  iter ← getS;
  if decide (i_block_offset iter < i_block_len iter) then mret tt else
  if decide (i_next_block_position iter >= lh_data_end (r_header log)) then
    upd (λ i, set_block_len 0 (set_block_offset 0 (set_block_position 0 i)))
  else
    _ ← seekblock log (i_next_block_position iter);
    upd (set_entry_count (-1)).

(** A round that does not finish ends a block, and every block takes at least a
    byte of the log: the data end bounds the rounds, unless the data runs out. *)
Fixpoint skip_loop (fuel : nat) (log : sparkey_logreader) (len : Z) : MI unit :=
  match fuel with
  | O => out_of_fuel
  | S fuel =>
      if decide (0 < len) then
        _ ← ensure_available log;
        iter ← getS;
        let m := min64 len (u64 (i_block_len iter - i_block_offset iter)) in
        _ ← upd (λ i, set_block_offset (u64 (i_block_offset i + m)) i);
        skip_loop fuel log (len - m)
      else mret tt
  end.

Definition skip (log : sparkey_logreader) (len : Z) : MI unit :=
  skip_loop (S (S (Z.to_nat (lh_data_end (r_header log))))) log len.

(** [read_vlq(iter->compression_buf, &iter->block_offset)]. *)
Definition iter_read_vlq (log : sparkey_logreader) : MI Z :=
  iter ← getS;
  match i_compression_buf iter with
  | CbNone => undefined
  | CbData off =>
      data ← of_opt (r_data log);
      vp ← of_opt (read_vlq data (off + i_block_offset iter));
      _ ← upd (set_block_offset (vp.2 - off));
      mret vp.1
  | CbOwn b =>
      vp ← of_opt (read_vlq b (i_block_offset iter));
      _ ← upd (set_block_offset vp.2);
      mret vp.1
  end.

(** The lengths and the type of an entry, from its two numbers. *)
Definition set_lengths (a b : Z) (i : sparkey_logiter) : sparkey_logiter :=
  if decide (a = 0)
  then set_type SPARKEY_ENTRY_DELETE (set_value_remaining 0 (set_valuelen 0
         (set_key_remaining b (set_keylen b i))))
  else set_type SPARKEY_ENTRY_PUT (set_value_remaining b (set_valuelen b
         (set_key_remaining (a - 1) (set_keylen (a - 1) i)))).

(** The second half of [sparkey_logiter_next]: what the iterator stands on now is
    the next entry, or the end of the log. *)
Definition next_entry (log : sparkey_logreader) : MI unit :=
  _ ← ensure_available log;
  iter ← getS;
  if decide (i_block_len iter - i_block_offset iter = 0)
  then upd (set_state SPARKEY_ITER_CLOSED)
  else
    _ ← (if decide (lh_compression_type (r_header log) = SPARKEY_COMPRESSION_NONE) then
           upd (λ i,
             let i := set_block_position (u64 (i_block_position i + i_block_offset i)) i in
             let i := set_block_len (u64 (i_block_len i - i_block_offset i)) i in
             let i := set_block_offset 0 i in
             set_entry_count (-1) (set_compression_buf (CbData (i_block_position i)) i))
         else mret tt);
    _ ← upd (λ i, set_entry_count (s32 (i_entry_count i + 1)) i);
    a ← iter_read_vlq log;
    b ← iter_read_vlq log;
    _ ← upd (set_lengths a b);
    _ ← upd (λ i, set_entry_block_offset (i_block_offset i)
                    (set_entry_block_position (i_block_position i) i));
    upd (set_state SPARKEY_ITER_ACTIVE).

Definition sparkey_logiter_next (log : sparkey_logreader) : MI unit :=
  iter ← getS;
  if decide (i_state iter = SPARKEY_ITER_CLOSED) then mret tt else
  let active := bool_decide (i_state iter = SPARKEY_ITER_ACTIVE) in
  let key_remaining := if active then i_key_remaining iter else 0 in
  let value_remaining := if active then i_value_remaining iter else 0 in
  _ ← upd (λ i, set_valuelen 0 (set_keylen 0 (set_value_remaining 0 (set_key_remaining 0
                  (set_state SPARKEY_ITER_INVALID i)))));
  _ ← assert_iter_open log;
  _ ← skip log key_remaining;
  _ ← skip log value_remaining;
  next_entry log.

Definition sparkey_logiter_reset (log : sparkey_logreader) : MI unit :=
  iter ← getS;
  if decide (i_state iter ≠ SPARKEY_ITER_ACTIVE) then fail SPARKEY_LOG_ITERATOR_INACTIVE else
  _ ← seekblock log (i_entry_block_position iter);
  upd (λ i, set_block_offset (i_entry_block_offset i) (set_value_remaining (i_valuelen i)
              (set_key_remaining (i_keylen i) i))).

Fixpoint skip_entries (count : nat) (log : sparkey_logreader) : MI unit :=
  match count with
  | O => mret tt
  | S count => _ ← sparkey_logiter_next log; skip_entries count log
  end.

(** A negative count skips nothing. *)
Definition sparkey_logiter_skip (log : sparkey_logreader) (count : Z) : MI unit :=
  skip_entries (Z.to_nat count) log.

(** *** Keys and values *)

(** The bytes behind the pointer a chunk returns. *)
Definition iter_bytes (log : sparkey_logreader) (iter : sparkey_logiter) (m : Z)
    : option (list Z) :=
  match i_compression_buf iter with
  | CbNone => None
  | CbData off => data ← r_data log; mem_read data (off + i_block_offset iter) m
  | CbOwn b => mem_read b (i_block_offset iter) m
  end.

(** The chunk function works on [key_remaining] or on [value_remaining]. *)
Definition sparkey_logiter_chunk (log : sparkey_logreader) (maxlen : Z)
    (var : sparkey_logiter → Z) (set_var : Z → sparkey_logiter → sparkey_logiter) : MI (list Z) :=
  _ ← assert_iter_open log;
  iter ← getS;
  if decide (i_state iter ≠ SPARKEY_ITER_ACTIVE) then fail SPARKEY_LOG_ITERATOR_INACTIVE else
  if decide (0 < var iter) then
    _ ← ensure_available log;
    iter ← getS;
    let m := min64 maxlen (min64 (var iter) (u64 (i_block_len iter - i_block_offset iter))) in
    res ← of_opt (if decide (m = 0) then Some [] else iter_bytes log iter m);
    _ ← upd (λ i, set_var (var i - m) (set_block_offset (u64 (i_block_offset i + m)) i));
    mret res
  else mret [].

Definition sparkey_logiter_keychunk (log : sparkey_logreader) (maxlen : Z) : MI (list Z) :=
  sparkey_logiter_chunk log maxlen i_key_remaining set_key_remaining.

Definition sparkey_logiter_valuechunk (log : sparkey_logreader) (maxlen : Z) : MI (list Z) :=
  iter ← getS;
  _ ← skip log (i_key_remaining iter);
  _ ← upd (set_key_remaining 0);
  sparkey_logiter_chunk log maxlen i_value_remaining set_value_remaining.

(** Chunks until the buffer is full or the key or value is used up; every round
    but the last takes at least one byte of what remains. *)
Fixpoint fill_loop (fuel : nat) (chunk : Z → MI (list Z)) (maxlen : Z) (buf : list Z)
    : MI (list Z) :=
  match fuel with
  | O => out_of_fuel
  | S fuel =>
      if decide (0 < maxlen) then
        buf2 ← chunk maxlen;
        if decide (zlen buf2 = 0) then mret buf
        else fill_loop fuel chunk (maxlen - zlen buf2) (buf ++ buf2)
      else mret buf
  end.

Definition sparkey_logiter_fill_key (log : sparkey_logreader) (maxlen : Z) : MI (list Z) :=
  iter ← getS;
  fill_loop (S (S (Z.to_nat (i_key_remaining iter)))) (sparkey_logiter_keychunk log) maxlen [].

Definition sparkey_logiter_fill_value (log : sparkey_logreader) (maxlen : Z) : MI (list Z) :=
  iter ← getS;
  fill_loop (S (S (Z.to_nat (i_value_remaining iter)))) (sparkey_logiter_valuechunk log) maxlen [].

(** The sign of [memcmp]; the code uses nothing else of it. *)
Fixpoint memcmp (a b : list Z) : Z :=
  match a, b with
  | x :: a, y :: b => if decide (x < y) then -1 else if decide (y < x) then 1 else memcmp a b
  | _, _ => 0
  end.

(** Every round compares at least one byte of the first key.  Of the value of memcmp
    only the sign is kept, which is all that it is specified to have. *)
Fixpoint keycmp_loop (fuel : nat) (log : sparkey_logreader) (first second : list Z) : MI2 Z :=
  match fuel with
  | O => out_of_fuel
  | S fuel =>
      if decide (zlen first = 0 ∧ zlen second = 0) then mret 0
      else if decide (zlen first = 0) then mret (-1)
      else if decide (zlen second = 0) then mret 1
      else
        let cmp_len := Z.to_nat (min64 (zlen first) (zlen second)) in
        let v := memcmp (take cmp_len first) (take cmp_len second) in
        if decide (v ≠ 0) then mret v else
        let first := drop cmp_len first in
        let second := drop cmp_len second in
        first ← (if decide (zlen first = 0)
                 then on_iter1 (sparkey_logiter_keychunk log (Z.shiftl 1 30)) else mret first);
        second ← (if decide (zlen second = 0)
                  then on_iter2 (sparkey_logiter_keychunk log (Z.shiftl 1 30)) else mret second);
        keycmp_loop fuel log first second
  end.

Definition sparkey_logiter_keycmp (log : sparkey_logreader) : MI2 Z :=
  iters ← getS;
  first ← on_iter1 (sparkey_logiter_keychunk log (Z.shiftl 1 30));
  second ← on_iter2 (sparkey_logiter_keychunk log (Z.shiftl 1 30));
  keycmp_loop (S (S (Z.to_nat (i_key_remaining iters.1)))) log first second.

End LogReader.

(** *** Accessors *)

Definition sparkey_logreader_maxkeylen (log : sparkey_logreader) : Z := lh_max_key_len (r_header log).
Definition sparkey_logreader_maxvaluelen (log : sparkey_logreader) : Z :=
  lh_max_value_len (r_header log).
Definition sparkey_logreader_get_compression_blocksize (log : sparkey_logreader) : Z :=
  s32 (lh_compression_block_size (r_header log)).
Definition sparkey_logreader_get_compression_type (log : sparkey_logreader) : Z :=
  lh_compression_type (r_header log).
Definition sparkey_logiter_state (iter : sparkey_logiter) : sparkey_iter_state := i_state iter.
Definition sparkey_logiter_type (iter : sparkey_logiter) : sparkey_entry_type := i_type iter.
Definition sparkey_logiter_keylen (iter : sparkey_logiter) : Z := i_keylen iter.
Definition sparkey_logiter_valuelen (iter : sparkey_logiter) : Z := i_valuelen iter.
