(* ===== verification/LogCursor.v ===== *)
(** * The interface between log iterators and their clients

    [LogCursor] states what an iterator over an opened log promises to the
    comparison of keys, to the hash table writer and to the hash reader: where
    it stands in the sequence of entries, and what each operation does to that
    place.  The operations built from chunks are proved here once, against the
    interface. *)

From stdpp Require Import base gmap list strings numbers.
From Stdlib Require Import ZArith Lia.
From S2P Require Import Prelude ReturnCodes OS Vlq LogHeader Compress LogFormat LogReader.

Local Open Scope Z_scope.

(** The three calls with which every client finds the entry at an address. *)
Definition fetch_entry {C : Codec} (log : sparkey_logreader) (position entry_index : Z) : MI unit :=
  _ ← sparkey_logiter_seek log position;
  _ ← sparkey_logiter_skip log entry_index;
  sparkey_logiter_next log.

(** A reader opened on the file of the header [h] and the data [body]. *)
Definition opened_on (h : sparkey_logheader) (body : list Z) (log : sparkey_logreader) : Prop :=
  r_open_status log = MAGIC_VALUE_LOGREADER ∧ r_header log = h ∧ r_data_len log = lh_data_end h ∧
  r_data log = Some (logheader_bytes h ++ body).

(** What an iterator reports of its current entry. *)
Definition describes (e : entry) (i : sparkey_logiter) : Prop :=
  i_state i = SPARKEY_ITER_ACTIVE ∧
  i_type i = (if is_put e then SPARKEY_ENTRY_PUT else SPARKEY_ENTRY_DELETE) ∧
  i_keylen i = zlen (entry_key e) ∧ i_valuelen i = zlen (entry_value e).

(** The numbers in front of an entry are its lengths and its type. *)
Definition with_entry (e : entry) (i : sparkey_logiter) : sparkey_logiter :=
  set_type (if is_put e then SPARKEY_ENTRY_PUT else SPARKEY_ENTRY_DELETE)
    (set_value_remaining (zlen (entry_value e)) (set_valuelen (zlen (entry_value e))
      (set_key_remaining (zlen (entry_key e)) (set_keylen (zlen (entry_key e)) i)))).

Lemma entry_numbers e :
  zlen (entry_key e) + zlen (entry_value e) < 2 ^ 62 →
  ∃ a b, entry_prefix e = write_vlq a ++ write_vlq b ∧ 0 ≤ a < 2 ^ 64 ∧ 0 ≤ b < 2 ^ 64 ∧
    ∀ i, set_lengths a b i = with_entry e i.
Proof.
  intros Hsz. destruct e as [key v|key]; cbn [entry_key entry_value entry_prefix is_put] in *.
  - exists (zlen key + 1), (zlen v). split_and!; [done|lia..|]. intros i. unfold set_lengths.
    rewrite decide_False by lia. by replace (zlen key + 1 - 1) with (zlen key) by lia.
  - exists 0, (zlen key). split_and!; [done|lia..|done].
Qed.

(** ** The interface *)

(** [cur_key n off] and [cur_value n off]: the iterator stands on entry [n], and
    [off] bytes of its key, or its key and [off] bytes of its value, are used.
    [cur_before n]: the next entry will be entry [n]. *)
Class LogCursor {C : Codec} (log : sparkey_logreader) (es : list entry) : Type := {
  cur_block : nat → Z;
  cur_index : nat → Z;
  cur_ready : sparkey_logiter → Prop;
  cur_before : nat → sparkey_logiter → Prop;
  cur_key : nat → nat → sparkey_logiter → Prop;
  cur_value : nat → nat → sparkey_logiter → Prop;

  (** places and addresses *)
  cur_entries_ok n e : es !! n = Some e →
    entry_ok e ∧ zlen (entry_key e) + zlen (entry_value e) < 2 ^ 62;
  cur_key_entry n off i : cur_key n off i →
    ∃ e, es !! n = Some e ∧ describes e i ∧ (off ≤ length (entry_key e))%nat ∧
         i_entry_block_position i = cur_block n ∧
         i_key_remaining i = zlen (entry_key e) - Z.of_nat off ∧
         i_value_remaining i = zlen (entry_value e);
  cur_value_entry n off i : cur_value n off i →
    ∃ e, es !! n = Some e ∧ describes e i ∧ (off ≤ length (entry_value e))%nat ∧
         i_value_remaining i = zlen (entry_value e) - Z.of_nat off;
  cur_ready_state x i : cur_ready i → cur_ready (set_state x i);
  cur_key_ready n off i : cur_key n off i → cur_ready i;
  cur_value_ready n off i : cur_value n off i → cur_ready i;
  cur_key_before n off i : cur_key n off i → cur_before (S n) i;
  cur_value_before n off i : cur_value n off i → cur_before (S n) i;
  cur_block_range n e : es !! n = Some e →
    lh_header_size (r_header log) ≤ cur_block n < lh_data_end (r_header log) ∧ 0 ≤ cur_index n;
  cur_address_inj n1 n2 e1 e2 : es !! n1 = Some e1 → es !! n2 = Some e2 →
    cur_block n1 = cur_block n2 → cur_index n1 = cur_index n2 → n1 = n2;

  (** operations *)
  cur_create o : os_sched o = [] →
    ∃ i, sparkey_logiter_create log o = (Ok i, o) ∧ cur_before 0 i ∧ cur_ready i;
  cur_next n e i : cur_before n i → es !! n = Some e →
    ∃ i', sparkey_logiter_next log i = (Ok tt, i') ∧ cur_key n 0 i' ∧
      i_block_position i' = cur_block n ∧ i_entry_count i' = cur_index n;
  cur_next_end i : cur_before (length es) i →
    ∃ i', sparkey_logiter_next log i = (Ok tt, i') ∧ i_state i' = SPARKEY_ITER_CLOSED ∧ cur_ready i';
  cur_fetch n e i : cur_ready i → es !! n = Some e →
    ∃ i', fetch_entry log (cur_block n) (cur_index n) i = (Ok tt, i') ∧ cur_key n 0 i';
  cur_key_reset n off i : cur_key n off i →
    ∃ i', sparkey_logiter_reset log i = (Ok tt, i') ∧ cur_key n 0 i';
  cur_value_reset n off i : cur_value n off i →
    ∃ i', sparkey_logiter_reset log i = (Ok tt, i') ∧ cur_key n 0 i';
  cur_keychunk n off e i maxlen : cur_key n off i → es !! n = Some e → 0 < maxlen →
    ∃ m i', sparkey_logiter_keychunk log maxlen i =
              (Ok (take m (drop off (entry_key e))), i') ∧
      (off + m ≤ length (entry_key e))%nat ∧ Z.of_nat m ≤ maxlen ∧
      (m = 0%nat → off = length (entry_key e)) ∧ cur_key n (off + m) i';
  cur_key_valuechunk n off e i maxlen : cur_key n off i → es !! n = Some e → 0 < maxlen →
    ∃ m i', sparkey_logiter_valuechunk log maxlen i =
              (Ok (take m (entry_value e)), i') ∧
      (m ≤ length (entry_value e))%nat ∧ Z.of_nat m ≤ maxlen ∧
      (m = 0%nat → entry_value e = []) ∧ cur_value n m i';
  cur_valuechunk n off e i maxlen : cur_value n off i → es !! n = Some e → 0 < maxlen →
    ∃ m i', sparkey_logiter_valuechunk log maxlen i =
              (Ok (take m (drop off (entry_value e))), i') ∧
      (off + m ≤ length (entry_value e))%nat ∧ Z.of_nat m ≤ maxlen ∧
      (m = 0%nat → off = length (entry_value e)) ∧ cur_value n (off + m) i'
}.

Section LogCursor.
Context {C : Codec} {log : sparkey_logreader} {es : list entry} {L : LogCursor log es}.

(** ** Filling a buffer *)

Lemma take_app_drop {A} (l : list A) off m :
  take off l ++ take m (drop off l) = take (off + m) l.
Proof. by rewrite take_take_drop. Qed.

Lemma fill_key_loop fuel n e : es !! n = Some e → ∀ off i maxlen buf,
  cur_key n off i → (length (entry_key e) - off < fuel)%nat →
  zlen (entry_key e) - Z.of_nat off ≤ maxlen →
  ∃ i', fill_loop (S fuel) (sparkey_logiter_keychunk log) maxlen buf i =
      (Ok (buf ++ drop off (entry_key e)), i') ∧
    cur_key n (length (entry_key e)) i'.
Proof.
  intros He. induction fuel as [|fuel IH]; intros off i maxlen buf Hk Hfuel Hmax; [lia|].
  destruct (cur_key_entry _ _ _ Hk) as (e' & He' & _ & Hoff & _). simplify_eq.
  cbn [fill_loop]. case_decide as Hpos.
  - destruct (cur_keychunk n off e i maxlen Hk He Hpos) as (m & i1 & Hc & Hm & Hle & Hz & Hk1).
    rewrite (bind_Ok _ _ _ _ _ Hc).
    assert (Hlen : length (take m (drop off (entry_key e))) = m)
      by (rewrite length_take, length_drop; lia).
    rewrite Hlen. case_decide as Hm0.
    + assert (m = 0%nat) as -> by lia. rewrite Nat.add_0_r in Hk1. specialize (Hz eq_refl).
      exists i1. subst off. by rewrite drop_ge, app_nil_r by lia.
    + destruct (IH (off + m)%nat i1 (maxlen - Z.of_nat m) (buf ++ take m (drop off (entry_key e))))
        as (i' & Hf & Hk'); [done|lia|lia|].
      exists i'. split; [|done]. etrans; [exact Hf|].
      by rewrite <- app_assoc, <- drop_drop, take_drop.
  - assert (off = length (entry_key e)) as -> by lia. exists i.
    by rewrite drop_ge, app_nil_r by lia.
Qed.

(** [fill_key] with room for the rest of the key delivers all of it. *)
Lemma fill_key_rest n off e i maxlen :
  cur_key n off i → es !! n = Some e → zlen (entry_key e) - Z.of_nat off ≤ maxlen →
  ∃ i', sparkey_logiter_fill_key log maxlen i = (Ok (drop off (entry_key e)), i') ∧
    cur_key n (length (entry_key e)) i'.
Proof.
  intros Hk He Hmax. unfold sparkey_logiter_fill_key, mbind, M_bind, getS.
  destruct (cur_key_entry _ _ _ Hk) as (e' & He' & _ & _ & _ & Hr & _). simplify_eq.
  apply (fill_key_loop _ n e He off i maxlen []); [done|rewrite Hr; lia|done].
Qed.

(** [fill_key] with room for the key delivers the whole key. *)
Lemma fill_key_spec n e i maxlen :
  cur_key n 0 i → es !! n = Some e → zlen (entry_key e) ≤ maxlen →
  ∃ i', sparkey_logiter_fill_key log maxlen i = (Ok (entry_key e), i') ∧
    cur_key n (length (entry_key e)) i'.
Proof. intros Hk He Hmax. apply (fill_key_rest n 0); [done|done|lia]. Qed.

(** The numbers of the entry stay while its bytes are used up. *)
Lemma cur_key_describes n off e i : cur_key n off i → es !! n = Some e → describes e i.
Proof. intros Hk He. destruct (cur_key_entry _ _ _ Hk) as (e' & He' & Hd & _). by simplify_eq. Qed.

Lemma cur_value_describes n off e i : cur_value n off i → es !! n = Some e → describes e i.
Proof. intros Hk He. destruct (cur_value_entry _ _ _ Hk) as (e' & He' & Hd & _). by simplify_eq. Qed.

Lemma fill_value_loop fuel n e : es !! n = Some e → ∀ off i maxlen buf,
  cur_value n off i → (length (entry_value e) - off < fuel)%nat →
  buf ++ drop off (entry_value e) = entry_value e →
  zlen (entry_value e) - Z.of_nat off ≤ maxlen →
  ∃ i', fill_loop (S fuel) (sparkey_logiter_valuechunk log) maxlen buf i
          = (Ok (entry_value e), i') ∧ cur_before (S n) i' ∧ cur_ready i' ∧ describes e i'.
Proof.
  intros He. induction fuel as [|fuel IH]; intros off i maxlen buf Hk Hfuel Hbuf Hmax; [lia|].
  destruct (cur_value_entry _ _ _ Hk) as (e' & He' & _ & Hoff & _). simplify_eq.
  cbn [fill_loop]. case_decide as Hpos.
  - destruct (cur_valuechunk n off e i maxlen Hk He Hpos) as (m & i1 & Hc & Hm & Hle & Hz & Hk1).
    rewrite (bind_Ok _ _ _ _ _ Hc).
    assert (Hlen : length (take m (drop off (entry_value e))) = m)
      by (rewrite length_take, length_drop; lia).
    rewrite Hlen. case_decide as Hm0.
    + assert (m = 0%nat) as -> by lia. specialize (Hz eq_refl).
      exists i1. subst off. rewrite drop_ge, app_nil_r in Hbuf by lia. subst buf.
      split_and!; eauto using cur_value_before, cur_value_ready, cur_value_describes.
    + apply (IH (off + m)%nat); [done|lia| |lia].
      rewrite <- app_assoc. rewrite <- Hbuf at 3. f_equal.
      rewrite <- drop_drop. by rewrite take_drop.
  - assert (off = length (entry_value e)) as -> by lia. exists i.
    rewrite drop_ge, app_nil_r in Hbuf by lia. subst buf.
    split_and!; eauto using cur_value_before, cur_value_ready, cur_value_describes.
Qed.

(** [fill_value] with room for the value delivers the whole value, from any
    place in the key: what is left of the key is skipped. *)
Lemma fill_value_spec n off e i maxlen :
  cur_key n off i → es !! n = Some e → zlen (entry_value e) ≤ maxlen →
  ∃ i', sparkey_logiter_fill_value log maxlen i = (Ok (entry_value e), i') ∧
    cur_before (S n) i' ∧ cur_ready i' ∧ describes e i'.
Proof.
  intros Hk He Hmax. unfold sparkey_logiter_fill_value, mbind, M_bind, getS.
  destruct (cur_key_entry _ _ _ Hk) as (e' & He' & _ & _ & _ & _ & Hrem). simplify_eq.
  rewrite Hrem. cbn [fill_loop]. case_decide as Hpos.
  - destruct (cur_key_valuechunk n off e i maxlen Hk He Hpos) as (m & i1 & Hc & Hm & Hle & Hz & Hk1).
    rewrite (bind_Ok _ _ _ _ _ Hc).
    assert (Hlen : length (take m (entry_value e)) = m) by (rewrite length_take; lia).
    rewrite Hlen. case_decide as Hm0.
    + assert (m = 0%nat) as -> by lia. exists i1. rewrite (Hz eq_refl).
      split_and!; eauto using cur_value_before, cur_value_ready, cur_value_describes.
    + rewrite Nat2Z.id. destruct (length (entry_value e)) as [|k] eqn:E; [lia|].
      apply (fill_value_loop (S k) n e He m); [done|lia|by rewrite app_nil_l, take_drop|lia].
  - exists i. assert (Hnil : entry_value e = []) by (apply nil_length_inv; lia). rewrite Hnil.
    split_and!; eauto using cur_key_before, cur_key_ready, cur_key_describes.
Qed.

(** ** Comparing keys *)

(** The lexicographic order on byte strings, as a sign. *)
Fixpoint lex_compare (a b : list Z) : Z :=
  match a, b with
  | [], [] => 0
  | [], _ :: _ => -1
  | _ :: _, [] => 1
  | x :: a, y :: b => if decide (x < y) then -1 else if decide (y < x) then 1 else lex_compare a b
  end.

Lemma lex_compare_eq a b : lex_compare a b = 0 ↔ a = b.
Proof.
  revert b. induction a as [|x a IH]; intros [|y b]; cbn; try done.
  repeat case_decide; [split; [done|intros [=]; lia]..|].
  rewrite IH. split; [intros ->; f_equal; lia|by intros [=]].
Qed.

(** Comparing the common length decides, or leaves the rest to decide. *)
Lemma lex_compare_take n a b :
  (n ≤ length a)%nat → (n ≤ length b)%nat →
  lex_compare a b = if decide (memcmp (take n a) (take n b) ≠ 0)
                    then memcmp (take n a) (take n b) else lex_compare (drop n a) (drop n b).
Proof.
  revert a b. induction n as [|n IH]; intros a b Ha Hb; [by destruct a, b|].
  destruct a as [|x a], b as [|y b]; cbn [length] in *; try lia. cbn.
  repeat (case_decide; try done; try lia); rewrite IH by lia; by repeat case_decide.
Qed.

(** Reading the next chunk when the last one is used up. *)
Lemma next_chunk n e (on : MI (list Z) → MI2 (list Z)) (get : sparkey_logiter * sparkey_logiter → _)
    put chunk off s :
  (∀ m t, on m t = let '(r, i) := m (get t) in (r, put i t)) →
  (∀ t, put (get t) t = t) →
  cur_key n off (get s) → es !! n = Some e →
  (length chunk ≤ off)%nat →
  ∃ chunk' off' i',
    (if decide (zlen chunk = 0) then on (sparkey_logiter_keychunk log (Z.shiftl 1 30))
     else mret chunk) s = (Ok chunk', put i' s) ∧
    cur_key n off' i' ∧
    chunk ++ drop off (entry_key e) = chunk' ++ drop off' (entry_key e) ∧
    (length chunk' ≤ off')%nat ∧ (chunk' = [] → off' = length (entry_key e)).
Proof.
  intros Hon Hput Hk He Hlen. case_decide as Hz.
  - assert (chunk = []) as -> by (apply nil_length_inv; lia). rewrite Hon.
    destruct (cur_keychunk n off e (get s) (Z.shiftl 1 30) Hk He ltac:(done))
      as (m & i1 & Hc & Hm & _ & Hm0 & Hk1).
    rewrite Hc. exists (take m (drop off (entry_key e))), (off + m)%nat, i1.
    split_and!; [done|done| |rewrite length_take; lia|].
    + rewrite <- drop_drop. by rewrite take_drop.
    + intros Hnil. assert (m = 0%nat) as ->; [|by rewrite Nat.add_0_r; apply Hm0].
      apply (f_equal length) in Hnil. rewrite length_take, length_drop in Hnil. cbn in Hnil. lia.
  - exists chunk, off, (get s). rewrite Hput. split_and!; [done..|].
    intros ->. done.
Qed.

Lemma on_iter1_run {A} (m : MI A) t : on_iter1 m t = let '(r, i) := m t.1 in (r, (i, t.2)).
Proof. done. Qed.
Lemma on_iter2_run {A} (m : MI A) t : on_iter2 m t = let '(r, i) := m t.2 in (r, (t.1, i)).
Proof. done. Qed.

(** The loop decides as the rests of the two keys compare. *)
Lemma keycmp_loop_spec fuel n1 n2 e1 e2 :
  es !! n1 = Some e1 → es !! n2 = Some e2 → ∀ first second off1 off2 i1 i2,
  cur_key n1 off1 i1 → cur_key n2 off2 i2 →
  (length first ≤ off1)%nat → (length second ≤ off2)%nat →
  (first = [] → off1 = length (entry_key e1)) → (second = [] → off2 = length (entry_key e2)) →
  (length (first ++ drop off1 (entry_key e1)) < fuel)%nat →
  ∃ off1' off2' i1' i2', keycmp_loop fuel log first second (i1, i2) =
      (Ok (lex_compare (first ++ drop off1 (entry_key e1)) (second ++ drop off2 (entry_key e2))),
       (i1', i2')) ∧ cur_key n1 off1' i1' ∧ cur_key n2 off2' i2'.
Proof.
  intros He1 He2. induction fuel as [|fuel IH];
    intros first second off1 off2 i1 i2 Hk1 Hk2 Hl1 Hl2 Hn1 Hn2 Hfuel; [lia|].
  assert (Hnil : ∀ (c : list Z) off e, (c = [] → off = length (entry_key e)) → zlen c = 0 →
            c ++ drop off (entry_key e) = []).
  { intros c off e Hn Hz. assert (c = []) as -> by (apply nil_length_inv; lia).
    rewrite (Hn eq_refl). cbn. by rewrite drop_ge. }
  cbn [keycmp_loop]. case_decide as Hd1.
  { exists off1, off2, i1, i2. rewrite (Hnil _ _ _ Hn1), (Hnil _ _ _ Hn2) by tauto. done. }
  case_decide as Hd2.
  { exists off1, off2, i1, i2. rewrite (Hnil _ _ _ Hn1) by done.
    destruct second as [|y second]; [|done]. cbn in Hd1. lia. }
  case_decide as Hd3.
  { exists off1, off2, i1, i2. rewrite (Hnil _ _ _ Hn2) by done.
    destruct first as [|x first]; [|done]. cbn in Hd1. lia. }
  set (n := Z.to_nat (min64 (zlen first) (zlen second))).
  assert (Hn : (0 < n ≤ length first ∧ n ≤ length second)%nat)
    by (unfold n, min64; case_decide; lia).
  rewrite (lex_compare_take n) by (rewrite length_app; lia).
  rewrite !take_app_le by lia. case_decide as Hv; [by exists off1, off2, i1, i2|].
  rewrite !drop_app_le by lia.
  destruct (next_chunk n1 e1 on_iter1 fst (λ i t, (i, t.2)) (drop n first) off1 (i1, i2))
    as (c1 & o1 & j1 & Hc1 & Hj1 & Heq1 & Hlen1 & Hnil1);
    [done|by intros []|done|done|rewrite length_drop; lia|].
  rewrite (bind_Ok _ _ _ _ _ Hc1). cbn [snd].
  destruct (next_chunk n2 e2 on_iter2 snd (λ i t, (t.1, i)) (drop n second) off2 (j1, i2))
    as (c2 & o2 & j2 & Hc2 & Hj2 & Heq2 & Hlen2 & Hnil2);
    [done|by intros []|done|done|rewrite length_drop; lia|].
  rewrite (bind_Ok _ _ _ _ _ Hc2). cbn [fst].
  rewrite Heq1, Heq2. apply IH; try done.
  rewrite <- Heq1. rewrite !length_app, !length_drop in *. lia.
Qed.

(** [keycmp] on two iterators at the start of their entries is the
    lexicographic comparison of the keys, however they are cut into chunks. *)
Lemma keycmp_spec n1 n2 e1 e2 i1 i2 :
  cur_key n1 0 i1 → cur_key n2 0 i2 → es !! n1 = Some e1 → es !! n2 = Some e2 →
  ∃ off1 off2 i1' i2', sparkey_logiter_keycmp log (i1, i2) =
      (Ok (lex_compare (entry_key e1) (entry_key e2)), (i1', i2')) ∧
    cur_key n1 off1 i1' ∧ cur_key n2 off2 i2'.
Proof.
  intros Hk1 Hk2 He1 He2. unfold sparkey_logiter_keycmp. unfold mbind at 1, M_bind at 1, getS.
  destruct (cur_key_entry _ _ _ Hk1) as (e' & He' & _ & _ & _ & Hr & _). simplify_eq.
  destruct (next_chunk n1 e1 on_iter1 fst (λ i t, (i, t.2)) [] 0 (i1, i2))
    as (c1 & o1 & j1 & Hc1 & Hj1 & Heq1 & Hlen1 & Hnil1); [done|by intros []|done|done|done|].
  rewrite decide_True in Hc1 by done. rewrite (bind_Ok _ _ _ _ _ Hc1). cbn [snd].
  destruct (next_chunk n2 e2 on_iter2 snd (λ i t, (t.1, i)) [] 0 (j1, i2))
    as (c2 & o2 & j2 & Hc2 & Hj2 & Heq2 & Hlen2 & Hnil2); [done|by intros []|done|done|done|].
  rewrite decide_True in Hc2 by done. rewrite (bind_Ok _ _ _ _ _ Hc2). cbn [fst].
  cbn [app] in Heq1, Heq2. rewrite drop_0 in Heq1, Heq2. rewrite Heq1, Heq2.
  apply (keycmp_loop_spec _ n1 n2 e1 e2); try done. rewrite <- Heq1, Hr. lia.
Qed.

End LogCursor.

(** ** A client that reads a whole log *)

Definition read_entry {C : Codec} (log : sparkey_logreader) : MI entry :=
  i ← getS;
  key ← sparkey_logiter_fill_key log (i_keylen i);
  value ← sparkey_logiter_fill_value log (i_valuelen i);
  mret (match i_type i with
        | SPARKEY_ENTRY_PUT => Put key value
        | SPARKEY_ENTRY_DELETE => Delete key
        end).

Fixpoint read_entries {C : Codec} (fuel : nat) (log : sparkey_logreader) : MI (list entry) :=
  match fuel with
  | O => out_of_fuel
  | S fuel =>
      _ ← sparkey_logiter_next log;
      i ← getS;
      if decide (i_state i = SPARKEY_ITER_CLOSED) then mret [] else
      e ← read_entry log;
      es ← read_entries fuel log;
      mret (e :: es)
  end.

Section Client.
Context {C : Codec} {log : sparkey_logreader} {es : list entry} {L : LogCursor log es}.

Lemma read_entry_spec n e i :
  cur_key n 0 i → es !! n = Some e →
  ∃ i', read_entry log i = (Ok e, i') ∧ cur_before (S n) i' ∧ cur_ready i'.
Proof.
  intros Hk He. unfold read_entry. rewrite bind_getS.
  destruct (cur_key_entry _ _ _ Hk) as (e' & He' & (_ & Hty & Hkl & Hvl) & _). simplify_eq.
  destruct (fill_key_spec n e i (i_keylen i) Hk He ltac:(by rewrite Hkl)) as (i1 & Hf & Hk1).
  rewrite (bind_Ok _ _ _ _ _ Hf).
  destruct (fill_value_spec n _ e i1 (i_valuelen i) Hk1 He ltac:(by rewrite Hvl))
    as (i2 & Hv & Hb & Hr & _).
  rewrite (bind_Ok _ _ _ _ _ Hv). exists i2. split; [|done].
  rewrite Hty. by destruct e.
Qed.

Lemma read_entries_spec fuel n i :
  cur_before n i → (n ≤ length es)%nat → (length es - n < fuel)%nat →
  ∃ i', read_entries fuel log i = (Ok (drop n es), i').
Proof.
  revert n i. induction fuel as [|fuel IH]; intros n i Hb Hn Hfuel; [lia|]. cbn [read_entries].
  destruct (decide (n = length es)) as [->|Hne].
  - destruct (cur_next_end i Hb) as (i1 & Hnext & Hst & _). rewrite (bind_Ok _ _ _ _ _ Hnext), bind_getS.
    rewrite decide_True by done. exists i1. by rewrite drop_ge.
  - destruct (lookup_lt_is_Some_2 es n) as [e He]; [lia|].
    destruct (cur_next n e i Hb He) as (i1 & Hnext & Hk & _).
    rewrite (bind_Ok _ _ _ _ _ Hnext), bind_getS.
    destruct (cur_key_entry _ _ _ Hk) as (? & _ & (Hst & _) & _).
    rewrite decide_False by (by rewrite Hst).
    destruct (read_entry_spec n e i1 Hk He) as (i2 & Hr & Hb2 & _).
    rewrite (bind_Ok _ _ _ _ _ Hr).
    destruct (IH (S n) i2 Hb2 ltac:(lia) ltac:(lia)) as (i3 & Hrest).
    rewrite (bind_Ok _ _ _ _ _ Hrest). exists i3. by rewrite (drop_S _ _ _ He).
Qed.

End Client.
