(* ===== verification/PlainLog.v ===== *)
(** * Reading uncompressed logs

    The iterator of logreader.c over the file of an uncompressed log implements
    the interface [LogCursor]: the entries come back as they were written. *)

From stdpp Require Import base gmap list strings numbers.
From Stdlib Require Import ZArith Lia.
From S2P Require Import Prelude ReturnCodes OS Vlq LogHeader Buf Compress LogFormat LogWriter.
From S2P Require Import LogReader LogCursor.

Local Open Scope Z_scope.

(** What the reader and the iterator ask of the header of an uncompressed log.  They do not
    look at its counters. *)
Definition plain_header (es : list entry) (h : sparkey_logheader) : Prop :=
  lh_header_size h = LOG_HEADER_SIZE ∧ lh_data_end h = log_end es ∧
  lh_compression_type h = SPARKEY_COMPRESSION_NONE.

(** A reader opened on the log [es]. *)
Definition plain_log (fid : Z) (es : list entry) : sparkey_logreader → Prop :=
  opened_on (log_header fid es (log_end es) LOG_HEADER_SIZE) (log_body es).

Lemma log_header_plain fid es : plain_header es (log_header fid es (log_end es) LOG_HEADER_SIZE).
Proof. done. Qed.

(** Where entry [n] starts, and the length of its two numbers. *)
Definition entry_start (es : list entry) (n : nat) : Z := LOG_HEADER_SIZE + zlen (log_body (take n es)).
Definition prefix_len (e : entry) : Z := zlen (entry_prefix e).

Definition iter_open (fid : Z) (i : sparkey_logiter) : Prop :=
  i_open_status i = MAGIC_VALUE_LOGITER ∧ i_file_identifier i = fid.

Section Plain.
Context {C : Codec} (h : sparkey_logheader) (es : list entry) (log : sparkey_logreader).
Context (Hh : plain_header es h) (Hlog : opened_on h (log_body es) log) (Hok : log_ok es).
Local Abbreviation fid := (lh_file_identifier h).
Local Abbreviation plain_file := (logheader_bytes h ++ log_body es).

(** ** The layout of the file *)

Lemma plain_end : 0 ≤ log_end es < 2 ^ 62.
Proof. destruct Hok. unfold log_end, LOG_HEADER_SIZE in *. lia. Qed.

Lemma plain_file_length : zlen (plain_file) = log_end es.
Proof.
  rewrite length_app, Nat2Z.inj_add, logheader_bytes_length. done.
Qed.

Lemma split_entry n e :
  es !! n = Some e →
  ∃ pre post, plain_file = pre ++ entry_prefix e ++ entry_key e ++ entry_value e ++ post ∧
    zlen pre = entry_start es n ∧
    log_end es = entry_start es n + prefix_len e + zlen (entry_key e) + zlen (entry_value e) + zlen post.
Proof.
  intros He. exists (logheader_bytes h ++ log_body (take n es)), (log_body (drop (S n) es)).
  pose proof (take_drop_middle es n e He) as Hes.
  assert (Hb : log_body es = log_body (take n es) ++ encode_entry e ++ log_body (drop (S n) es)).
  { rewrite <- Hes at 1. change (e :: drop (S n) es) with ([e] ++ drop (S n) es).
    by rewrite !log_body_app, log_body_one. }
  split_and!.
  - rewrite Hb. unfold encode_entry. by rewrite <- !app_assoc.
  - rewrite length_app, Nat2Z.inj_add, logheader_bytes_length. done.
  - unfold log_end, entry_start, prefix_len. rewrite Hb. unfold encode_entry.
    rewrite !length_app. lia.
Qed.

Lemma entry_sizes n e :
  es !! n = Some e →
  entry_ok e ∧ zlen (entry_key e) + zlen (entry_value e) < 2 ^ 62 ∧ 2 ≤ prefix_len e.
Proof.
  intros He. apply list_elem_of_lookup_2 in He.
  destruct (log_ok_entry es e Hok He) as [Ho Hl]. split_and!; [done|done|].
  pose proof (encode_entry_bounds e). unfold encode_entry, prefix_len in *.
  rewrite !length_app in *. lia.
Qed.

Lemma entry_start_S n e :
  es !! n = Some e →
  entry_start es (S n) = entry_start es n + prefix_len e + zlen (entry_key e) + zlen (entry_value e).
Proof.
  intros He. unfold entry_start, prefix_len. rewrite (take_S_r _ _ _ He), log_body_app, log_body_one.
  unfold encode_entry. rewrite !length_app. lia.
Qed.

Lemma entry_start_end : entry_start es (length es) = log_end es.
Proof. unfold entry_start, log_end. by rewrite firstn_all. Qed.

Lemma entry_start_lt n1 n2 :
  (n1 < n2)%nat → (n2 ≤ length es)%nat → entry_start es n1 < entry_start es n2.
Proof.
  intros Hlt. induction Hlt as [|m Hlt IH]; intros Hle.
  - destruct (lookup_lt_is_Some_2 es n1) as [e He]; [lia|].
    rewrite (entry_start_S n1 e He). pose proof (entry_sizes n1 e He). lia.
  - destruct (lookup_lt_is_Some_2 es m) as [e He]; [lia|].
    rewrite (entry_start_S m e He). pose proof (entry_sizes m e He). specialize (IH ltac:(lia)). lia.
Qed.

Lemma entry_start_range n e :
  es !! n = Some e → LOG_HEADER_SIZE ≤ entry_start es n < log_end es.
Proof.
  intros He. split; [unfold entry_start; lia|]. rewrite <- entry_start_end.
  apply entry_start_lt; [by eapply lookup_lt_Some|done].
Qed.

(** ** States of the iterator *)

(** In an uncompressed log the rest of the mapping is one block. *)
Definition at_block (i : sparkey_logiter) (p : Z) : Prop :=
  i_block_position i = p ∧ i_next_block_position i = log_end es ∧
  i_block_len i = log_end es - p ∧ i_compression_buf i = CbData p.

Definition plain_ready (i : sparkey_logiter) : Prop :=
  iter_open fid i ∧ (i_block_position i = 0 ∨ at_block i (i_block_position i)).

Definition plain_on (n : nat) (e : entry) (i : sparkey_logiter) : Prop :=
  es !! n = Some e ∧ describes e i ∧ iter_open fid i ∧ at_block i (entry_start es n) ∧
  i_entry_block_position i = entry_start es n ∧ i_entry_block_offset i = prefix_len e.

Definition plain_key (n off : nat) (i : sparkey_logiter) : Prop :=
  ∃ e, plain_on n e i ∧ (off ≤ length (entry_key e))%nat ∧
    i_block_offset i = prefix_len e + Z.of_nat off ∧
    i_key_remaining i = zlen (entry_key e) - Z.of_nat off ∧
    i_value_remaining i = zlen (entry_value e).

Definition plain_value (n off : nat) (i : sparkey_logiter) : Prop :=
  ∃ e, plain_on n e i ∧ (off ≤ length (entry_value e))%nat ∧
    i_block_offset i = prefix_len e + zlen (entry_key e) + Z.of_nat off ∧
    i_key_remaining i = 0 ∧ i_value_remaining i = zlen (entry_value e) - Z.of_nat off.

(** The place of the iterator in the file, when nothing of an entry is left. *)
Definition plain_pos (n : nat) (i : sparkey_logiter) : Prop :=
  (∃ p, at_block i p ∧ LOG_HEADER_SIZE ≤ p ∧ 0 ≤ i_block_offset i ∧
        p + i_block_offset i = entry_start es n) ∨
  (n = 0%nat ∧ i_block_position i = 0 ∧ i_next_block_position i = LOG_HEADER_SIZE ∧
   i_block_offset i = 0 ∧ i_block_len i = 0).

Definition plain_before (n : nat) (i : sparkey_logiter) : Prop :=
  (i_state i = SPARKEY_ITER_NEW ∧ iter_open fid i ∧ plain_pos n i ∧ (n ≤ length es)%nat) ∨
  (∃ m off, n = S m ∧ (plain_key m off i ∨ plain_value m off i)).

Lemma plain_on_ready n e i : plain_on n e i → plain_ready i.
Proof.
  intros (_ & _ & Hopen & Hb & _). split; [done|]. right. destruct Hb as (Hp & Hb).
  rewrite Hp. by split.
Qed.

Lemma plain_none : sparkey_uses_compressor (lh_compression_type (r_header log)) = false.
Proof. destruct Hlog as (_ & -> & _), Hh as (_ & _ & ->). done. Qed.

Lemma plain_data_end : lh_data_end (r_header log) = log_end es.
Proof. destruct Hlog as (_ & -> & _). apply Hh. Qed.

Lemma plain_data : r_data log = Some (plain_file).
Proof. by destruct Hlog as (_ & _ & _ & ->). Qed.

Lemma assert_iter_open_run i : iter_open fid i → assert_iter_open log i = (Ok tt, i).
Proof.
  intros [Ho Hf]. destruct Hlog as (Hr & Hhd & _).
  unfold assert_iter_open, assert_log_open. rewrite decide_False by (rewrite Hr; tauto).
  rewrite bind_ret, bind_getS.
  rewrite decide_False by (rewrite Ho; tauto).
  rewrite decide_False by (rewrite Hf, Hhd; intros H; by apply H). done.
Qed.

(** ** Operations *)

Definition move_block (p : Z) (i : sparkey_logiter) : sparkey_logiter :=
  set_block_len (log_end es - p) (set_next_block_position (log_end es)
    (set_block_position p (set_compression_buf (CbData p) (set_block_offset 0 i)))).

Lemma seekblock_run p i :
  plain_ready i → LOG_HEADER_SIZE ≤ p ≤ log_end es →
  seekblock log p i = (Ok tt, move_block p i).
Proof.
  intros [_ Hb] Hp. unfold LOG_HEADER_SIZE in Hp. pose proof plain_end.
  unfold seekblock. rewrite bind_upd, bind_getS. cbn [i_block_position set_block_offset].
  case_decide as Heq.
  - destruct Hb as [Hb|(_ & Hn & Hl & Hc)]; [lia|]. unfold mret, M_ret. do 2 f_equal.
    unfold move_block. destruct i; cbn in *. by subst.
  - rewrite plain_none. unfold move_block. destruct Hlog as (_ & -> & -> & _), Hh as (_ & -> & _).
    by rewrite u64_id by lia.
Qed.

Lemma move_block_at p i : at_block (move_block p i) p.
Proof. done. Qed.

Lemma ensure_noop i : i_block_offset i < i_block_len i → ensure_available log i = (Ok tt, i).
Proof.
  intros Hlt. unfold ensure_available, mbind, M_bind, getS. by rewrite decide_True.
Qed.

Lemma ensure_more n i :
  iter_open fid i → plain_pos n i → (n < length es)%nat →
  ∃ i' p, ensure_available log i = (Ok tt, i') ∧ at_block i' p ∧ iter_open fid i' ∧
    LOG_HEADER_SIZE ≤ p ∧ 0 ≤ i_block_offset i' ∧ p + i_block_offset i' = entry_start es n.
Proof.
  intros Hopen Hpos Hn. destruct (lookup_lt_is_Some_2 es n Hn) as [e He].
  pose proof (entry_start_range n e He) as Hr.
  destruct Hpos as [(p & Hb & Hp & Hbo & Heq)|(-> & Hbp & Hnb & Hbo & Hbl)].
  - exists i, p. rewrite ensure_noop by (destruct Hb as (_ & _ & Hl & _); lia). done.
  - exists (set_entry_count (-1) (move_block LOG_HEADER_SIZE i)), LOG_HEADER_SIZE.
    split; [|split_and!; try done; cbn; unfold entry_start; cbn; lia].
    unfold ensure_available, mbind, M_bind, getS. rewrite decide_False by lia.
    rewrite decide_False by (rewrite plain_data_end, Hnb; lia).
    rewrite Hnb, seekblock_run by ((split; [done|by left]) || lia). done.
Qed.

Lemma ensure_end i :
  iter_open fid i → plain_pos (length es) i →
  ∃ i', ensure_available log i = (Ok tt, i') ∧ i_block_len i' - i_block_offset i' = 0 ∧ plain_ready i'.
Proof.
  intros Hopen Hpos. unfold ensure_available, mbind, M_bind, getS. rewrite plain_data_end.
  destruct Hpos as [(p & (_ & Hn & Hl & _) & Hp & Hbo & Heq)|(Hz & Hbp & Hnb & Hbo & Hbl)].
  - rewrite entry_start_end in Heq. rewrite decide_False by lia. rewrite decide_True by lia.
    eexists. split; [done|]. split; [done|]. split; [done|by left].
  - rewrite decide_False by lia. rewrite decide_True.
    { eexists. split; [done|]. split; [done|]. split; [done|by left]. }
    apply nil_length_inv in Hz. rewrite Hnb, Hz. done.
Qed.

Lemma skip_run i p len :
  at_block i p → LOG_HEADER_SIZE ≤ p → 0 ≤ i_block_offset i → 0 ≤ len →
  i_block_offset i + len ≤ i_block_len i →
  skip log len i = (Ok tt, set_block_offset (i_block_offset i + len) i).
Proof.
  intros (_ & _ & Hl & _) Hp Hbo Hlen Hle. pose proof plain_end. unfold LOG_HEADER_SIZE in Hp.
  unfold skip. cbn [skip_loop]. case_decide as Hpos.
  - rewrite (bind_Ok _ _ _ _ _ (ensure_noop i ltac:(lia))).
    rewrite bind_getS, bind_upd, u64_id by lia.
    assert (min64 len (i_block_len i - i_block_offset i) = len) as ->
      by (unfold min64; case_decide; lia).
    rewrite decide_False by lia. by rewrite u64_id by lia.
  - assert (len = 0) as -> by lia. rewrite Z.add_0_r. by destruct i.
Qed.

(** Reading the next number of the file. *)
Lemma iter_read_vlq_run i p pre v post :
  at_block i p → LOG_HEADER_SIZE ≤ p → 0 ≤ i_block_offset i →
  plain_file = pre ++ write_vlq v ++ post → zlen pre = p + i_block_offset i →
  0 ≤ v < 2 ^ 64 →
  iter_read_vlq log i =
    (Ok v, set_block_offset (i_block_offset i + zlen (write_vlq v)) i).
Proof.
  intros (_ & _ & _ & Hc) Hp Hbo Hfile Hpre Hv. unfold iter_read_vlq.
  rewrite bind_getS, Hc. rewrite plain_data.
  rewrite bind_of_opt, Hfile, <- Hpre, read_vlq_app by done.
  rewrite bind_of_opt, bind_upd. cbn [fst snd]. unfold mret, M_ret. do 3 f_equal. lia.
Qed.


Lemma read_prefix_run {B} i n e (k : MI B) :
  at_block i (entry_start es n) → i_block_offset i = 0 → es !! n = Some e →
  (a ← iter_read_vlq log; b ← iter_read_vlq log; _ ← upd (set_lengths a b); k) i =
    k (with_entry e (set_block_offset (prefix_len e) i)).
Proof.
  intros Hb Hbo He.
  destruct (split_entry n e He) as (pre & post & Hfile & Hpre & _).
  pose proof (entry_start_range n e He) as [Hs _].
  pose proof (entry_sizes n e He) as (_ & Hsz & _).
  destruct (entry_numbers e Hsz) as (a & b & Hpfx & Ha & Hbb & Hset).
  rewrite <- Hset. unfold prefix_len. rewrite Hpfx in *. rewrite <- !app_assoc in Hfile.
  rewrite (bind_Ok _ _ _ _ _ (iter_read_vlq_run i _ _ _ _ Hb Hs ltac:(lia) Hfile ltac:(lia) Ha)).
  rewrite app_assoc in Hfile.
  set (i1 := set_block_offset _ i).
  assert (Hb1 : at_block i1 (entry_start es n)) by done.
  rewrite (bind_Ok _ _ _ _ _ (iter_read_vlq_run i1 _ _ _ _ Hb1 Hs ltac:(cbn; lia) Hfile
    ltac:(rewrite length_app; cbn; lia) Hbb)).
  rewrite bind_upd. do 2 f_equal. unfold i1. rewrite length_app.
  destruct i; cbn in *. rewrite Hbo. unfold set_block_offset. cbn. f_equal. lia.
Qed.

(** ** Moving to the next entry *)

Lemma next_entry_run n e i :
  iter_open fid i → plain_pos n i → es !! n = Some e →
  ∃ i', next_entry log i = (Ok tt, i') ∧ plain_key n 0 i' ∧
    i_block_position i' = entry_start es n ∧ i_entry_count i' = 0.
Proof.
  intros Hopen Hpos He. pose proof plain_end.
  pose proof (entry_start_range n e He) as [Hs1 Hs2]. unfold LOG_HEADER_SIZE in Hs1.
  destruct (ensure_more n i Hopen Hpos) as (i1 & p & Hen & (Hbp & Hnb & Hbl & Hcb) & Hopen1 & Hp &
    Hbo & Heq); [by eapply lookup_lt_Some|].
  unfold next_entry. rewrite (bind_Ok _ _ _ _ _ Hen), bind_getS.
  rewrite decide_False by lia.
  assert (lh_compression_type (r_header log) = SPARKEY_COMPRESSION_NONE) as ->
    by (destruct Hlog as (_ & -> & _); apply Hh).
  rewrite decide_True by done. rewrite !bind_upd. cbv zeta.
  cbn [i_block_position i_block_offset i_block_len i_entry_count set_block_position set_block_len
    set_block_offset set_compression_buf set_entry_count].
  rewrite Hbp, Hbl, Heq.
  rewrite (u64_id (entry_start es n)) by (unfold LOG_HEADER_SIZE in *; lia).
  replace (log_end es - p - i_block_offset i1) with (log_end es - entry_start es n) by lia.
  rewrite (u64_id (log_end es - _)) by lia.
  rewrite (read_prefix_run _ n e), bind_upd by done.
  eexists. split; [done|]. split; [|done].
  exists e. split; [|cbn; lia]. split_and!; try done; [by destruct Hopen1..].
Qed.

Lemma next_entry_end i :
  iter_open fid i → plain_pos (length es) i →
  ∃ i', next_entry log i = (Ok tt, i') ∧ i_state i' = SPARKEY_ITER_CLOSED ∧ plain_ready i'.
Proof.
  intros Hopen Hpos. destruct (ensure_end i Hopen Hpos) as (i1 & Hen & Hz & Hr).
  unfold next_entry. rewrite (bind_Ok _ _ _ _ _ Hen), bind_getS.
  rewrite decide_True by done. by eexists.
Qed.

(** Whatever is left of the current entry is skipped first. *)
Lemma next_run n i :
  plain_before n i →
  ∃ i', iter_open fid i' ∧ plain_pos n i' ∧ sparkey_logiter_next log i = next_entry log i'.
Proof.
  intros Hb. unfold sparkey_logiter_next. rewrite bind_getS.
  destruct Hb as [(Hnew & Hopen & Hpos & _)|(m & off & -> & Hk)].
  - rewrite decide_False by (rewrite Hnew; done). rewrite bool_decide_false by (by rewrite Hnew).
    rewrite bind_upd. set (i1 := set_valuelen 0 _). assert (Hopen1 : iter_open fid i1) by done.
    rewrite (bind_Ok _ _ _ _ _ (assert_iter_open_run i1 Hopen1)).
    exists i1. split_and!; [done| |done].
    destruct Hpos as [(p & Hp)|Hp]; [left; by exists p|by right].
  - assert (∃ e kr vr, plain_on m e i ∧ i_key_remaining i = kr ∧ i_value_remaining i = vr ∧
      0 ≤ kr ∧ 0 ≤ vr ∧ 0 ≤ i_block_offset i ∧
      i_block_offset i + kr + vr = prefix_len e + zlen (entry_key e) + zlen (entry_value e))
      as (e & kr & vr & Hon & Hkr & Hvr & ? & ? & Hbo & Hsum).
    { destruct Hk as [(e & Hon & ? & ? & ? & ?)|(e & Hon & ? & ? & ? & ?)]; exists e;
        exists (i_key_remaining i), (i_value_remaining i); (split; [done|]); destruct Hon as (He & _);
        pose proof (entry_sizes m e He); lia. }
    destruct Hon as (He & Hd & Hopen & Hat & _). pose proof (entry_start_range m e He) as [? ?].
    destruct (split_entry m e He) as (? & ? & _ & _ & Hend).
    destruct Hd as (Hst & _). rewrite decide_False by (by rewrite Hst).
    rewrite bool_decide_true by done. rewrite Hkr, Hvr.
    rewrite bind_upd. set (i1 := set_valuelen 0 _). assert (Hopen1 : iter_open fid i1) by done.
    rewrite (bind_Ok _ _ _ _ _ (assert_iter_open_run i1 Hopen1)).
    assert (Hat1 : at_block i1 (entry_start es m)) by done.
    assert (Hbl : i_block_len i1 = log_end es - entry_start es m) by apply Hat1.
    rewrite (bind_Ok _ _ _ _ _ (skip_run i1 _ kr Hat1 ltac:(lia) Hbo ltac:(lia)
      ltac:(rewrite Hbl; cbn; lia))).
    set (i2 := set_block_offset _ i1). assert (Hat2 : at_block i2 (entry_start es m)) by done.
    rewrite (bind_Ok _ _ _ _ _ (skip_run i2 _ vr Hat2 ltac:(lia) ltac:(cbn; lia) ltac:(lia)
      ltac:(change (i_block_len i2) with (i_block_len i1); rewrite Hbl; cbn; lia))).
    eexists. split_and!; [| |reflexivity]; [done|].
    left. exists (entry_start es m). split_and!; [done|lia|cbn; lia|].
    rewrite (entry_start_S m e He). cbn. lia.
Qed.

Lemma reset_run n e i :
  plain_on n e i →
  ∃ i', sparkey_logiter_reset log i = (Ok tt, i') ∧ plain_key n 0 i'.
Proof.
  intros Hon. pose proof (plain_on_ready n e i Hon) as Hready.
  destruct Hon as (He & Hd & Hopen & Hat & Hebp & Hebo).
  pose proof (entry_start_range n e He). unfold LOG_HEADER_SIZE in *.
  unfold sparkey_logiter_reset. rewrite bind_getS.
  rewrite decide_False by (destruct Hd as (-> & _); tauto).
  rewrite (bind_Ok _ _ _ _ _ (seekblock_run (i_entry_block_position i) i Hready
    ltac:(rewrite Hebp; unfold LOG_HEADER_SIZE; lia))).
  eexists. split; [reflexivity|]. exists e. rewrite Hebp.
  destruct Hd as (Hst & Hty & Hkl & Hvl). destruct i. cbn in *.
  split_and!; try done; cbn; lia.
Qed.

(** *** Chunks *)

Lemma mem_read_part pre x post m :
  (m ≤ length x)%nat → mem_read (pre ++ x ++ post) (zlen pre) (Z.of_nat m) = Some (take m x).
Proof.
  intros Hm. rewrite <- (take_drop m x) at 1. rewrite <- app_assoc.
  apply mem_read_mid; [done|]. rewrite length_take. lia.
Qed.

(** A chunk of a field of which [x] is left, [x] being next in the file. *)
Lemma chunk_run (var : sparkey_logiter → Z) (set_var : Z → sparkey_logiter → sparkey_logiter)
    i p maxlen pre x post :
  (∀ j, set_var (var j) (set_block_offset (i_block_offset j) j) = j) →
  iter_open fid i → i_state i = SPARKEY_ITER_ACTIVE → at_block i p → LOG_HEADER_SIZE ≤ p →
  0 ≤ i_block_offset i → plain_file = pre ++ x ++ post → zlen pre = p + i_block_offset i →
  var i = zlen x → 0 < maxlen →
  let m := Z.to_nat (Z.min maxlen (zlen x)) in
  sparkey_logiter_chunk log maxlen var set_var i =
    (Ok (take m x), set_var (zlen x - Z.of_nat m) (set_block_offset (i_block_offset i + Z.of_nat m) i)).
Proof.
  intros Hset Hopen Hst Hat Hp Hbo Hfile Hpre Hx Hmax m. unfold LOG_HEADER_SIZE in Hp.
  pose proof plain_end. pose proof plain_file_length as Hlen.
  rewrite Hfile, !length_app in Hlen.
  assert (Hbl : i_block_len i = log_end es - p) by apply Hat.
  assert (Hcb : i_compression_buf i = CbData p) by apply Hat.
  unfold sparkey_logiter_chunk.
  rewrite (bind_Ok _ _ _ _ _ (assert_iter_open_run i Hopen)), bind_getS.
  rewrite decide_False by (rewrite Hst; tauto). case_decide as Hpos.
  - assert (Hmn : min64 maxlen (min64 (var i) (u64 (i_block_len i - i_block_offset i))) = Z.of_nat m).
    { rewrite u64_id by lia. unfold min64. repeat case_decide; lia. }
    rewrite (bind_Ok _ _ _ _ _ (ensure_noop i ltac:(lia))), bind_getS. rewrite Hmn.
    rewrite decide_False by lia. unfold iter_bytes. rewrite Hcb.
    rewrite plain_data. cbn [mbind option_bind].
    rewrite <- Hpre, Hfile, mem_read_part by lia. rewrite bind_of_opt, bind_upd.
    rewrite u64_id by lia. by rewrite Hx.
  - assert (m = 0%nat) as Hm by lia. rewrite Hm, Z.add_0_r, Z.sub_0_r, <- Hx, Hset. done.
Qed.

Lemma keychunk_run n off e i maxlen :
  plain_key n off i → es !! n = Some e → 0 < maxlen →
  let m := Z.to_nat (Z.min maxlen (zlen (entry_key e) - Z.of_nat off)) in
  ∃ i', sparkey_logiter_keychunk log maxlen i = (Ok (take m (drop off (entry_key e))), i') ∧
    plain_key n (off + m) i'.
Proof.
  intros (e' & Hon & Hoff & Hbo & Hkr & Hvr) He Hmax m.
  assert (e' = e) as -> by (destruct Hon; congruence).
  destruct (split_entry n e He) as (pre & post & Hfile & Hpre & _).
  pose proof (entry_sizes n e He) as (_ & _ & Hpl). pose proof (entry_start_range n e He) as [? _].
  pose proof Hon as (_ & (Hst & Hty & Hkl & Hvl) & Hopen & Hat & Hebp & Hebo).
  rewrite <- (take_drop off (entry_key e)), <- !app_assoc in Hfile.
  rewrite (app_assoc (entry_prefix e)), (app_assoc pre) in Hfile.
  assert (Hm : m = Z.to_nat (Z.min maxlen (zlen (drop off (entry_key e)))))
    by (rewrite length_drop; unfold m; f_equal; f_equal; lia).
  unfold sparkey_logiter_keychunk.
  rewrite (chunk_run i_key_remaining set_key_remaining i _ maxlen _ _ _ ltac:(by intros [])
    Hopen Hst Hat ltac:(done) ltac:(lia) Hfile).
  - rewrite <- Hm. eexists. split; [done|]. exists e. cbn.
    split; [split_and!; try done; by apply Hat|]. rewrite length_drop. lia.
  - rewrite !length_app, length_take. unfold prefix_len in *. lia.
  - rewrite length_drop. lia.
  - done.
Qed.

Lemma valuechunk_run n off e i maxlen :
  plain_value n off i → es !! n = Some e → 0 < maxlen →
  let m := Z.to_nat (Z.min maxlen (zlen (entry_value e) - Z.of_nat off)) in
  ∃ i', sparkey_logiter_valuechunk log maxlen i = (Ok (take m (drop off (entry_value e))), i') ∧
    plain_value n (off + m) i'.
Proof.
  intros (e' & Hon & Hoff & Hbo & Hkr & Hvr) He Hmax m.
  assert (e' = e) as -> by (destruct Hon; congruence).
  destruct (split_entry n e He) as (pre & post & Hfile & Hpre & Hend).
  pose proof (entry_sizes n e He) as (_ & _ & Hpl). pose proof (entry_start_range n e He) as [? _].
  pose proof Hon as (_ & (Hst & Hty & Hkl & Hvl) & Hopen & Hat & Hebp & Hebo).
  rewrite <- (take_drop off (entry_value e)), <- !app_assoc in Hfile.
  rewrite (app_assoc (entry_key e)), (app_assoc (entry_prefix e)), (app_assoc pre) in Hfile.
  assert (Hm : m = Z.to_nat (Z.min maxlen (zlen (drop off (entry_value e)))))
    by (rewrite length_drop; unfold m; f_equal; f_equal; lia).
  unfold sparkey_logiter_valuechunk. rewrite bind_getS, Hkr.
  assert (Hbl : i_block_len i = log_end es - entry_start es n) by apply Hat.
  rewrite (bind_Ok _ _ _ _ _ (skip_run i _ 0 Hat ltac:(done) ltac:(lia) ltac:(lia) ltac:(lia))).
  rewrite bind_upd. set (j := set_key_remaining 0 _).
  assert (Hj : i_block_offset j = i_block_offset i) by (cbn; lia).
  rewrite (chunk_run i_value_remaining set_value_remaining j (entry_start es n) maxlen _ _ _
    ltac:(by intros []) Hopen Hst Hat ltac:(done) ltac:(lia) Hfile).
  - rewrite <- Hm. eexists. split; [done|]. exists e.
    cbn. split; [split_and!; try done; by apply Hat|]. rewrite length_drop. lia.
  - rewrite !length_app, length_take. unfold prefix_len in *. lia.
  - rewrite length_drop. cbn. lia.
  - done.
Qed.

(** Before its first value chunk, the iterator skips what is left of the key. *)
Lemma key_to_value n off e i :
  plain_key n off i → es !! n = Some e →
  ∃ j, plain_value n 0 j ∧
    ∀ maxlen, sparkey_logiter_valuechunk log maxlen i = sparkey_logiter_valuechunk log maxlen j.
Proof.
  intros (e' & Hon & Hoff & Hbo & Hkr & Hvr) He.
  assert (e' = e) as -> by (destruct Hon; congruence).
  destruct (split_entry n e He) as (_ & post & _ & _ & Hend).
  pose proof (entry_sizes n e He) as (_ & _ & Hpl). pose proof (entry_start_range n e He) as [? _].
  pose proof Hon as (_ & (Hst & Hty & Hkl & Hvl) & Hopen & Hat & Hebp & Hebo).
  assert (Hbl : i_block_len i = log_end es - entry_start es n) by apply Hat.
  set (i1 := set_block_offset (i_block_offset i + i_key_remaining i) i).
  exists (set_key_remaining 0 i1). split.
  { exists e. cbn. split; [split_and!; try done; by apply Hat|]. lia. }
  intros maxlen. unfold sparkey_logiter_valuechunk. rewrite !bind_getS.
  rewrite (bind_Ok _ _ _ _ _ (skip_run i _ (i_key_remaining i) Hat ltac:(done) ltac:(lia)
    ltac:(lia) ltac:(lia))).
  assert (Hat1 : at_block (set_key_remaining 0 i1) (entry_start es n)) by done.
  cbn [i_key_remaining set_key_remaining].
  rewrite (bind_Ok _ _ _ _ _ (skip_run (set_key_remaining 0 i1) _ 0 Hat1 ltac:(done)
    ltac:(cbn; lia) ltac:(lia) ltac:(cbn; lia))).
  rewrite !bind_upd. f_equal. unfold i1. destruct i; cbn. unfold set_key_remaining, set_block_offset.
  cbn. f_equal. lia.
Qed.

(** ** Seeking and creation *)

Lemma seek_run n e i :
  plain_ready i → es !! n = Some e →
  ∃ i', sparkey_logiter_seek log (entry_start es n) i = (Ok tt, i') ∧ plain_before n i'.
Proof.
  intros Hready He. pose proof (entry_start_range n e He). destruct Hready as [Hopen Hb].
  unfold sparkey_logiter_seek. rewrite (bind_Ok _ _ _ _ _ (assert_iter_open_run i Hopen)).
  rewrite plain_data_end, decide_False by lia.
  rewrite (bind_Ok _ _ _ _ _ (seekblock_run (entry_start es n) i (conj Hopen Hb) ltac:(lia))).
  eexists. split; [done|]. left. split_and!; [done|done| |].
  - left. exists (entry_start es n). split_and!; try done; cbn; lia.
  - by apply Nat.lt_le_incl, lookup_lt_is_Some.
Qed.

Lemma next_entry_at n e i :
  plain_before n i → es !! n = Some e →
  ∃ i', sparkey_logiter_next log i = (Ok tt, i') ∧ plain_key n 0 i' ∧
    i_block_position i' = entry_start es n ∧ i_entry_count i' = 0.
Proof.
  intros Hb He. destruct (next_run n i Hb) as (i1 & Hopen & Hpos & ->).
  by apply next_entry_run with e.
Qed.

Lemma fetch_run n e i :
  plain_ready i → es !! n = Some e →
  ∃ i', fetch_entry log (entry_start es n) 0 i = (Ok tt, i') ∧ plain_key n 0 i'.
Proof.
  intros Hready He. destruct (seek_run n e i Hready He) as (i1 & Hs & Hb).
  destruct (next_entry_at n e i1 Hb He) as (i2 & Hn & Hk & _).
  exists i2. split; [|done]. unfold fetch_entry. by rewrite (bind_Ok _ _ _ _ _ Hs).
Qed.

Lemma assert_log_open_run {S} (s : S) : assert_log_open log s = (Ok tt, s).
Proof.
  unfold assert_log_open. rewrite decide_False; [done|]. destruct Hlog as (-> & _). tauto.
Qed.

Lemma create_run o :
  os_sched o = [] →
  ∃ i, sparkey_logiter_create log o = (Ok i, o) ∧ plain_before 0 i ∧ plain_ready i.
Proof.
  intros Hs. unfold sparkey_logiter_create. rewrite (bind_Ok _ _ _ _ _ (assert_log_open_run o)).
  rewrite (bind_Ok _ _ _ _ _ (sys_malloc_run o Hs)). cbn [negb]. rewrite plain_none.
  eexists. split; [reflexivity|]. destruct Hlog as (_ & -> & _).
  split; [left|split; [done|by left]].
  split_and!; [done|done| |lia]. right. split_and!; [done|done|apply Hh|done|done].
Qed.

Lemma plain_key_lookup n off i : plain_key n off i → ∃ e, es !! n = Some e ∧ plain_on n e i.
Proof. intros (e & Hon & _). exists e. by destruct Hon. Qed.

Lemma plain_value_lookup n off i : plain_value n off i → ∃ e, es !! n = Some e ∧ plain_on n e i.
Proof. intros (e & Hon & _). exists e. by destruct Hon. Qed.

(** The iterator over an uncompressed log implements the interface. *)
Definition plain_cursor : LogCursor log es.
Proof using Hh Hlog Hok.
  refine {|
    cur_block := entry_start es; cur_index := λ _, 0; cur_ready := plain_ready;
    cur_before := plain_before; cur_key := plain_key; cur_value := plain_value |}.
  - intros n e He%list_elem_of_lookup_2. by apply log_ok_entry with es.
  - intros n off i (e & Hon & ? & _ & ? & ?). exists e. destruct Hon as (? & ? & _ & _ & ? & _).
    by split_and!.
  - intros n off i (e & Hon & ? & _ & _ & ?). exists e. destruct Hon as (? & ? & _). by split_and!.
  - by intros x i.
  - intros n off i (e & Hon & _). by eapply plain_on_ready.
  - intros n off i (e & Hon & _). by eapply plain_on_ready.
  - intros n off i Hk. right. eauto.
  - intros n off i Hk. right. eauto.
  - intros n e He. rewrite plain_data_end. destruct Hlog as (_ & -> & _), Hh as (-> & _).
    pose proof (entry_start_range n e He). lia.
  - intros n1 n2 e1 e2 H1 H2 Heq _. apply lookup_lt_Some in H1, H2.
    destruct (lt_eq_lt_dec n1 n2) as [[Hlt|]|Hlt]; [|done|].
    + pose proof (entry_start_lt n1 n2 Hlt ltac:(lia)). lia.
    + pose proof (entry_start_lt n2 n1 Hlt ltac:(lia)). lia.
  - intros o. apply create_run.
  - intros n e i Hb He. by apply next_entry_at with e.
  - intros i Hb. destruct (next_run _ i Hb) as (i1 & Hopen & Hpos & ->). by apply next_entry_end.
  - intros n e i. apply fetch_run.
  - intros n off i (e & Hon & _). by eapply reset_run.
  - intros n off i (e & Hon & _). by eapply reset_run.
  - intros n off e i maxlen Hk He Hmax.
    destruct (keychunk_run n off e i maxlen Hk He Hmax) as (i' & Hc & Hk').
    eexists _, i'. split; [exact Hc|]. destruct Hk as (e' & (He' & _) & Hoff & _).
    split_and!; [| | |done]; simplify_eq; lia.
  - intros n off e i maxlen Hk He Hmax. destruct (key_to_value n off e i Hk He) as (j & Hj & Heq).
    destruct (valuechunk_run n 0 e j maxlen Hj He Hmax) as (i' & Hc & Hk').
    rewrite Heq. rewrite drop_0 in Hc. cbn [Nat.add] in Hk'.
    eexists _, i'. split; [exact Hc|]. split_and!; [| | |done]; [lia..|].
    intros Hz. apply nil_length_inv. lia.
  - intros n off e i maxlen Hk He Hmax.
    destruct (valuechunk_run n off e i maxlen Hk He Hmax) as (i' & Hc & Hk').
    eexists _, i'. split; [exact Hc|]. destruct Hk as (e' & (He' & _) & Hoff & _).
    split_and!; [| | |done]; simplify_eq; lia.
Defined.

End Plain.

(** ** Opening a log *)

(** Opening takes what the header promises of the file. *)
Definition reader_opened (h : sparkey_logheader) (body : list Z) (log : sparkey_logreader) (o o' : os) : Prop :=
  opened_on h body log ∧ r_fd log = os_next_fd o + 1 ∧
  os_names o' = os_names o ∧ os_inodes o' = os_inodes o ∧ os_sched o' = [] ∧
  os_entropy o' = os_entropy o ∧ os_wf o' ∧
  is_Some (os_fds o' !! r_fd log) ∧ delete (r_fd log) (os_fds o') = os_fds o.

Lemma open_reader_run o filename h body rest :
  has_file o filename ((logheader_bytes h ++ body) ++ rest) → os_wf o →
  logheader_typed h → logheader_valid h → lh_data_end h = LOG_HEADER_SIZE + zlen body →
  ∃ log o', sparkey_logreader_open_noalloc filename o = (Ok log, o') ∧
    sparkey_logreader_open filename o = (Ok log, o') ∧ reader_opened h body log o o'.
Proof.
  intros Hf Hwf Ht Hv Hend.
  assert (Hs : os_sched o = []) by (destruct Hf as (? & _ & _ & ? & _); done).
  set (c := logheader_bytes h ++ body) in *.
  assert (Hlen : zlen c = lh_data_end h)
    by (unfold c; by rewrite length_app, Nat2Z.inj_add, logheader_bytes_length).
  assert (Hload : sparkey_load_logheader filename o = (Ok h, opened o)).
  { unfold c in Hf. rewrite <- app_assoc in Hf. by eapply load_header_file. }
  assert (Hf2 := opened_file o _ _ Hf Hwf).
  destruct (sys_open_run _ _ _ Hf2) as (ino & Hn & [Hc _] & Hfresh & Hopen).
  change (os_next_fd (opened o)) with (os_next_fd o + 1) in *.
  set (fd := os_next_fd o + 1) in *. set (o2 := at_off fd ino 0 (opened (opened o))).
  assert (Hm : sys_mmap fd (lh_data_end h) o2 = (Ok (Some c), o2)).
  { unfold sys_mmap, pop, o2. cbn [os_sched os_fds os_inodes at_off set_fds opened].
    rewrite Hs. cbn [os_sched os_fds os_inodes at_off set_fds opened] in *.
    rewrite lookup_insert_eq, Hc. cbn [from_option id]. by rewrite <- Hlen, Nat2Z.id, take_app_length. }
  assert (Hrun : sparkey_logreader_open_noalloc filename o =
    (Ok (LogReader MAGIC_VALUE_LOGREADER h fd (lh_data_end h) (Some c)), o2)).
  { unfold sparkey_logreader_open_noalloc. rewrite (bind_Ok _ _ _ _ _ Hload).
    assert (Hstat : sys_stat_size filename (opened o) = (Ok (Some (zlen (c ++ rest))), opened o)).
    { unfold sys_stat_size. by rewrite Hn; cbn [os_inodes opened] in *; rewrite Hc. }
    rewrite (bind_Ok _ _ _ _ _ Hstat), bind_of_opt. rewrite decide_False by (rewrite length_app; lia).
    rewrite (bind_Ok _ _ _ _ _ Hopen). unfold close_on_error. by rewrite (bind_Ok _ _ _ _ _ Hm). }
  exists (LogReader MAGIC_VALUE_LOGREADER h fd (lh_data_end h) (Some c)), o2. split; [done|]. split.
  { unfold sparkey_logreader_open. rewrite decide_False by (intros H; by apply H).
    by rewrite (bind_Ok _ _ _ _ _ (sys_malloc_run o Hs)). }
  split; [by split_and!|]. split_and!; try done.
  - destruct Hwf as (Hw1 & Hw2 & Hw3 & Hw4). unfold os_wf. cbn. split_and!; try done; [|lia].
    intros f [x [[<- _]|[_ Hx]]%lookup_insert_Some]; [unfold fd; lia|].
    assert (f < os_next_fd o) by (apply Hw3; by eexists). lia.
  - cbn. rewrite lookup_insert_eq. by eexists.
  - cbn. by rewrite delete_insert_id by done.
Qed.

(** Reading a log file from its first to its last entry. *)
Definition read_log {C : Codec} (fuel : nat) (filename : string) : MC os (list entry) :=
  log ← sparkey_logreader_open filename;
  i ← sparkey_logiter_create log;
  of_res (read_entries fuel log i).1.

(** Whatever the layout of the log, a reader with a cursor delivers the entries. *)
Lemma read_log_run {C : Codec} o filename h body rest es fuel :
  has_file o filename ((logheader_bytes h ++ body) ++ rest) → os_wf o →
  logheader_typed h → logheader_valid h → lh_data_end h = LOG_HEADER_SIZE + zlen body →
  (∀ log, opened_on h body log → LogCursor log es) → (length es < fuel)%nat →
  (read_log fuel filename o).1 = Ok es.
Proof.
  intros Hf Hwf Ht Hv Hend Hcur Hfuel. unfold read_log.
  destruct (open_reader_run o filename h body rest Hf Hwf Ht Hv Hend)
    as (log & o1 & _ & Hopen & Hlog & _ & _ & _ & Hs1 & _).
  rewrite (bind_Ok _ _ _ _ _ Hopen). pose (L := Hcur log Hlog).
  destruct (cur_create o1 Hs1) as (i & Hc & Hb & _).
  rewrite (bind_Ok _ _ _ _ _ Hc).
  destruct (read_entries_spec fuel 0 i Hb ltac:(lia) ltac:(lia)) as [i' Hread].
  rewrite Hread. by rewrite drop_0.
Qed.

Lemma read_log_spec {C : Codec} o filename fid es rest fuel :
  has_file o filename (log_file fid es ++ rest) → os_wf o → 0 ≤ fid < 2 ^ 32 → log_ok es →
  (length es < fuel)%nat → (read_log fuel filename o).1 = Ok es.
Proof.
  intros Hf Hwf Hfid Hok. eapply read_log_run; [exact Hf|done|by apply log_header_typed|by apply log_header_valid|done|].
  intros log Hlog. by apply (plain_cursor _ _ _ (log_header_plain fid es) Hlog).
Qed.

(** ** Properties *)

(** C26. Comparing the keys of two entries: the result is the lexicographic order of
    the byte strings, 0 exactly for equal keys, however the reader cuts the keys
    into chunks; both iterators stay on their entries. *)
Theorem keycmp_lexicographic {C : Codec} {log es} {L : LogCursor log es} n1 n2 e1 e2 i1 i2 :
  cur_key n1 0 i1 → cur_key n2 0 i2 → es !! n1 = Some e1 → es !! n2 = Some e2 →
  let '(r, (i1', i2')) := sparkey_logiter_keycmp log (i1, i2) in
  r = Ok (lex_compare (entry_key e1) (entry_key e2)) ∧
  (r = Ok 0 ↔ entry_key e1 = entry_key e2) ∧
  describes e1 i1' ∧ describes e2 i2'.
Proof.
  intros Hk1 Hk2 He1 He2.
  destruct (keycmp_spec n1 n2 e1 e2 i1 i2 Hk1 Hk2 He1 He2) as (o1 & o2 & j1 & j2 & -> & Hj1 & Hj2).
  split; [done|]. split.
  - rewrite <- lex_compare_eq. split; [by intros [=]|by intros ->].
  - apply cur_key_entry in Hj1 as (? & ? & ? & _), Hj2 as (? & ? & ? & _). by simplify_eq.
Qed.

Example reader_example : sparkey_logreader :=
  LogReader MAGIC_VALUE_LOGREADER (log_header 7 es_example (log_end es_example) LOG_HEADER_SIZE) 3
    (log_end es_example) (Some (log_file 7 es_example)).

Lemma reader_example_plain : plain_log 7 es_example reader_example.
Proof. by split_and!. Qed.

Example cursor_example : LogCursor (C := identity_codec) reader_example es_example :=
  plain_cursor (C := identity_codec) _ es_example reader_example (log_header_plain 7 es_example) reader_example_plain
    es_example_ok.

(** The iterator of the example reader, just created, and on a given entry. *)
Example iter_example : sparkey_logiter :=
  LogIter MAGIC_VALUE_LOGITER 7 0 84 0 0 0 false CbNone 0 0 SPARKEY_ENTRY_PUT SPARKEY_ITER_NEW
    0 0 0 0.

Example iter_on (n : nat) : sparkey_logiter :=
  (fetch_entry (C := identity_codec) reader_example (entry_start es_example n) 0 iter_example).2.

Lemma iter_on_key n : (n < 3)%nat → cur_key (LogCursor := cursor_example) n 0 (iter_on n).
Proof.
  intros Hn. destruct (lookup_lt_is_Some_2 es_example n) as [e He]; [done|].
  destruct (fetch_run (C := identity_codec) _ es_example reader_example (log_header_plain 7 _) reader_example_plain
    es_example_ok n e iter_example) as (i & Hf & Hk); [split; [done|by left]|done|].
  unfold iter_on. by rewrite Hf.
Qed.

Lemma keycmp_lexicographic_witness :
  (sparkey_logiter_keycmp (C := identity_codec) reader_example (iter_on 0, iter_on 1)).1 = Ok (-1) ∧
  (sparkey_logiter_keycmp (C := identity_codec) reader_example (iter_on 1, iter_on 2)).1 = Ok 0.
Proof.
  pose proof (keycmp_lexicographic (L := cursor_example) 0 1 (Put [1; 2] [3]) (Put [7] []) _ _
    (iter_on_key 0 ltac:(lia)) (iter_on_key 1 ltac:(lia)) eq_refl eq_refl) as H1.
  pose proof (keycmp_lexicographic (L := cursor_example) 1 2 (Put [7] []) (Delete [7]) _ _
    (iter_on_key 1 ltac:(lia)) (iter_on_key 2 ltac:(lia)) eq_refl eq_refl) as H2.
  destruct (sparkey_logiter_keycmp reader_example (iter_on 0, iter_on 1)) as [r1 [a1 b1]].
  destruct (sparkey_logiter_keycmp reader_example (iter_on 1, iter_on 2)) as [r2 [a2 b2]].
  destruct H1 as [-> _], H2 as [-> _]. done.
Defined.

(** Resetting an iterator, after any part of its key or value was consumed,
    makes it deliver its entry again from the start. *)
Theorem reset_rereads {C : Codec} {log es} {L : LogCursor log es} n off e i :
  cur_key n off i ∨ cur_value n off i → es !! n = Some e →
  let '(r, i') := sparkey_logiter_reset log i in
  r = Ok tt ∧ (read_entry log i').1 = Ok e.
Proof.
  intros Hk He.
  assert (∃ i', sparkey_logiter_reset log i = (Ok tt, i') ∧ cur_key n 0 i') as (i' & -> & Hk').
  { destruct Hk; [by eapply cur_key_reset|by eapply cur_value_reset]. }
  split; [done|]. destruct (read_entry_spec n e i' Hk' He) as (? & -> & _). done.
Qed.

Lemma reset_rereads_witness :
  (read_entry (C := identity_codec) reader_example
     (sparkey_logiter_reset (C := identity_codec) reader_example (iter_on 0)).2).1
    = Ok (Put [1; 2] [3]).
Proof.
  pose proof (reset_rereads (L := cursor_example) 0 0 (Put [1; 2] [3]) (iter_on 0)
    (or_introl (iter_on_key 0 ltac:(lia))) eq_refl) as H.
  destruct (sparkey_logiter_reset reader_example (iter_on 0)) as [r i']. apply H.
Defined.

(** Every operation on an iterator checks the reader and the iterator first, in
    this order, and reports which of them is the problem. *)
Theorem iterator_guards {C : Codec} log i position maxlen :
  let guard :=
    if decide (r_open_status log ≠ MAGIC_VALUE_LOGREADER) then Some SPARKEY_LOG_CLOSED
    else if decide (i_open_status i ≠ MAGIC_VALUE_LOGITER) then Some SPARKEY_LOG_ITERATOR_CLOSED
    else if decide (i_file_identifier i ≠ lh_file_identifier (r_header log))
    then Some SPARKEY_LOG_ITERATOR_MISMATCH else None in
  match guard with
  | Some e =>
      sparkey_logiter_seek log position i = (Err e, i) ∧
      sparkey_logiter_keychunk log maxlen i = (Err e, i) ∧
      (i_state i ≠ SPARKEY_ITER_CLOSED →
       (sparkey_logiter_next log i).1 = Err e ∧
       i_state (sparkey_logiter_next log i).2 = SPARKEY_ITER_INVALID)
  | None => i_state i ≠ SPARKEY_ITER_ACTIVE →
      sparkey_logiter_keychunk log maxlen i = (Err SPARKEY_LOG_ITERATOR_INACTIVE, i) ∧
      sparkey_logiter_reset log i = (Err SPARKEY_LOG_ITERATOR_INACTIVE, i)
  end.
Proof.
  assert (Hassert : ∀ j, assert_iter_open log j =
    (if decide (r_open_status log ≠ MAGIC_VALUE_LOGREADER) then Err SPARKEY_LOG_CLOSED
     else if decide (i_open_status j ≠ MAGIC_VALUE_LOGITER) then Err SPARKEY_LOG_ITERATOR_CLOSED
     else if decide (i_file_identifier j ≠ lh_file_identifier (r_header log))
     then Err SPARKEY_LOG_ITERATOR_MISMATCH else Ok tt, j)).
  { intros j. unfold assert_iter_open, assert_log_open, mbind, M_bind.
    case_decide; [done|]. unfold mret, M_ret, getS. by repeat case_decide. }
  set (guard := if decide (r_open_status log ≠ MAGIC_VALUE_LOGREADER) then _ else _). cbv zeta.
  assert (Hg : ∀ j, i_open_status j = i_open_status i → i_file_identifier j = i_file_identifier i →
    assert_iter_open log j = (match guard with Some e => Err e | None => Ok tt end, j)).
  { intros j Ho Hf. rewrite Hassert, Ho, Hf. unfold guard. by repeat case_decide. }
  destruct guard as [e|].
  - unfold sparkey_logiter_seek, sparkey_logiter_keychunk, sparkey_logiter_chunk.
    rewrite !(bind_Err _ _ _ _ _ (Hg i eq_refl eq_refl)). split_and!; [done..|].
    intros Hst. unfold sparkey_logiter_next. rewrite bind_getS, decide_False by done.
    rewrite bind_upd. set (j := set_valuelen 0 _).
    rewrite (bind_Err _ _ _ _ _ (Hg j eq_refl eq_refl)). done.
  - intros Hst. unfold sparkey_logiter_keychunk, sparkey_logiter_chunk, sparkey_logiter_reset.
    rewrite (bind_Ok _ _ _ _ _ (Hg i eq_refl eq_refl)), !bind_getS.
    by rewrite !decide_True by done.
Qed.

(** When an entry claims more bytes than the data has left, skipping it never
    ends: at the end of the data every round skips nothing.  The loop of the
    model runs out of any fuel. *)
Theorem skip_past_end_diverges {C : Codec} log i len fuel :
  i_block_offset i ≤ i_block_len i < 2 ^ 64 → 0 ≤ i_block_offset i →
  lh_data_end (r_header log) ≤ i_next_block_position i →
  i_block_len i - i_block_offset i < len →
  (skip_loop fuel log len i).1 = NoFuel.
Proof.
  intros Hle Hbo Hnb Hlen. revert i len Hle Hbo Hnb Hlen.
  induction fuel as [|fuel IH]; intros i len Hle Hbo Hnb Hlen; [done|].
  cbn [skip_loop]. rewrite decide_True by lia.
  assert (∃ j, ensure_available log i = (Ok tt, j) ∧ i_block_offset j ≤ i_block_len j < 2 ^ 64 ∧
    0 ≤ i_block_offset j ∧ lh_data_end (r_header log) ≤ i_next_block_position j ∧
    i_block_len j - i_block_offset j = i_block_len i - i_block_offset i) as
    (j & Hen & Hj1 & Hj2 & Hj3 & Hj4).
  { unfold ensure_available. rewrite bind_getS. case_decide; [by exists i|].
    rewrite decide_True by lia. eexists. split; [done|]. cbn. lia. }
  rewrite (bind_Ok _ _ _ _ _ Hen), bind_getS, bind_upd.
  rewrite u64_id by lia. unfold min64. rewrite decide_False by lia.
  apply IH; cbn; rewrite ?u64_id by lia; lia.
Qed.

(** A well formed header in front of one entry that claims a key of 5 bytes. *)
Example truncated_entry_reader : sparkey_logreader :=
  LogReader MAGIC_VALUE_LOGREADER
    (LogHeader 1 0 7 1 0 87 5 0 0 0 0 7 LOG_HEADER_SIZE 0) 3 87
    (Some (logheader_bytes (LogHeader 1 0 7 1 0 87 5 0 0 0 0 7 LOG_HEADER_SIZE 0) ++ [6; 0; 1])).

Lemma skip_past_end_diverges_witness :
  let i := (sparkey_logiter_next (C := identity_codec) truncated_entry_reader iter_example).2 in
  i_keylen i = 5 ∧
  ∀ fuel, (skip_loop (C := identity_codec) fuel truncated_entry_reader 5 i).1 = NoFuel.
Proof.
  intros i. split; [by vm_compute|]. intros fuel.
  apply (skip_past_end_diverges (C := identity_codec)).
  - vm_compute. split; congruence.
  - vm_compute. congruence.
  - vm_compute. congruence.
  - vm_compute. congruence.
Defined.
