(* ===== verification/BlockFormat.v ===== *)
(** * The layout of compressed logs

    A compressed log is a sequence of blocks, each a length and the compressed
    bytes.  The entries form groups: the entries of a group start in its first
    block, and only the last of them may go on in further blocks.  This is the
    specification that the writer and the reader of compressed logs share. *)

From stdpp Require Import base gmap list strings numbers.
From Stdlib Require Import ZArith Lia.
From S2P Require Import Prelude ReturnCodes Vlq LogHeader Compress LogFormat.

Local Open Scope Z_scope.

(** ** Cutting bytes into blocks *)

(** Full blocks, and a last one that is not empty unless nothing is there. *)
Fixpoint chunks_loop (fuel : nat) (bs : nat) (l : list Z) : list (list Z) :=
  match fuel with
  | O => [l]
  | S fuel => if decide (length l ≤ bs)%nat then [l] else take bs l :: chunks_loop fuel bs (drop bs l)
  end.

Definition chunks (bs : Z) (l : list Z) : list (list Z) := chunks_loop (length l) (Z.to_nat bs) l.

Lemma chunks_loop_concat fuel bs l : concat (chunks_loop fuel bs l) = l.
Proof.
  revert l. induction fuel as [|fuel IH]; intros l; cbn [chunks_loop]; [by rewrite concat_cons, app_nil_r|].
  case_decide; cbn [concat]; [by rewrite app_nil_r|]. by rewrite IH, take_drop.
Qed.

Lemma chunks_loop_sizes fuel bs l :
  (0 < bs)%nat → (length l ≤ fuel)%nat → l ≠ [] →
  Forall (λ b, b ≠ [] ∧ (length b ≤ bs)%nat) (chunks_loop fuel bs l).
Proof.
  intros Hbs. revert l. induction fuel as [|fuel IH]; intros l Hl Hne; cbn [chunks_loop].
  { destruct l; cbn in Hl; [done|lia]. }
  case_decide as Hd; [by repeat constructor|]. constructor.
  - split; [|rewrite length_take; lia]. intros E. apply (f_equal length) in E.
    rewrite length_take in E. cbn in E. lia.
  - apply IH; [rewrite length_drop; lia|]. intros E. apply (f_equal length) in E.
    rewrite length_drop in E. cbn in E. lia.
Qed.

Lemma chunks_concat bs l : concat (chunks bs l) = l.
Proof. apply chunks_loop_concat. Qed.

Lemma chunks_sizes bs l :
  0 < bs → l ≠ [] → Forall (λ b, b ≠ [] ∧ zlen b ≤ bs) (chunks bs l).
Proof.
  intros Hbs Hl. pose proof (chunks_loop_sizes (length l) (Z.to_nat bs) l ltac:(lia) ltac:(lia) Hl) as H.
  eapply Forall_impl; [|exact H]. intros b [? ?]. split; [done|lia].
Qed.

(** The first block. *)
Lemma chunks_head bs l : ∃ rest, chunks bs l = take (Z.to_nat bs) l :: rest.
Proof.
  unfold chunks. destruct (length l) as [|n] eqn:E; cbn [chunks_loop].
  - apply nil_length_inv in E. subst l. exists []. by rewrite firstn_nil.
  - case_decide; [|by eexists]. rewrite take_ge by lia. by eexists.
Qed.

(** A block more when the bytes do not fit; enough fuel is as good as any. *)
Lemma chunks_loop_fuel fuel bs l :
  (0 < bs)%nat → (length l ≤ fuel)%nat → chunks_loop fuel bs l = chunks_loop (length l) bs l.
Proof.
  intros Hbs. revert l. induction (lt_wf fuel) as [fuel _ IH]. intros l Hl.
  destruct fuel as [|fuel]; [by assert (length l = 0%nat) as -> by lia|].
  destruct (length l) as [|n] eqn:E.
  - cbn [chunks_loop]. by rewrite decide_True by lia.
  - cbn [chunks_loop]. case_decide as Hd; [done|]. f_equal.
    rewrite (IH fuel) by (rewrite ?length_drop; lia). symmetry. apply IH; [lia|rewrite length_drop; lia].
Qed.

Lemma chunks_big bs l :
  0 < bs → bs < zlen l → chunks bs l = take (Z.to_nat bs) l :: chunks bs (drop (Z.to_nat bs) l).
Proof.
  intros Hbs Hl. unfold chunks. destruct (length l) as [|n] eqn:E; [cbn in Hl; lia|]. cbn [chunks_loop].
  rewrite decide_False by lia. f_equal. apply chunks_loop_fuel; rewrite ?length_drop; lia.
Qed.

Lemma chunks_small bs l : zlen l ≤ bs → chunks bs l = [l].
Proof.
  intros Hl. unfold chunks. destruct (length l) as [|n] eqn:E; cbn [chunks_loop]; [done|].
  by rewrite decide_True by lia.
Qed.

(** Bytes that follow go on in the last block. *)
Lemma chunks_extend bs l a p d :
  0 < bs → chunks bs l = a ++ [p] → chunks bs (l ++ d) = a ++ chunks bs (p ++ d).
Proof.
  intros Hbs. remember (length l) as n eqn:Hn. revert l a Hn. induction (lt_wf n) as [n _ IH].
  intros l a -> Hc. destruct (decide (zlen l ≤ bs)) as [Hs|Hb].
  - rewrite chunks_small in Hc by done. destruct a as [|x [|]]; simplify_eq/=; done.
  - rewrite chunks_big in Hc by lia. destruct a as [|x a].
    { injection Hc as _ Hc. destruct (chunks_head bs (drop (Z.to_nat bs) l)) as [r Hr]. by rewrite Hr in Hc. }
    cbn [app] in Hc |- *. injection Hc as <- Hc. rewrite chunks_big by (rewrite ?length_app; lia).
    rewrite take_app_le, drop_app_le by lia. f_equal.
    eapply (IH (length (drop (Z.to_nat bs) l))); [rewrite length_drop; lia|done|done].
Qed.

Lemma chunks_last bs l : ∃ a p, chunks bs l = a ++ [p].
Proof.
  destruct (chunks_head bs l) as [r Hr]. rewrite Hr.
  destruct (exists_last (l := take (Z.to_nat bs) l :: r)) as (a & p & Hap); [done|]. by exists a, p.
Qed.

Lemma encode_entry_prefix e : zlen (entry_prefix e) ≤ zlen (encode_entry e).
Proof. unfold encode_entry. rewrite length_app. lia. Qed.

(** ** Groups of entries *)

Abbreviation groups := (list (list entry)).

(** Every entry of a group starts, with its two numbers, in the first block. *)
Definition group_ok (bs : Z) (g : list entry) : Prop :=
  ∃ es e, g = es ++ [e] ∧ zlen (log_body es) + zlen (entry_prefix e) ≤ bs.

Definition blocks_of (bs : Z) (gs : groups) : list (list Z) :=
  concat ((λ g, chunks bs (log_body g)) <$> gs).

(** The largest number of entries of a group. *)
Definition max_group (gs : groups) : Z := foldr Z.max 0 ((λ g : list entry, zlen g) <$> gs).

Lemma log_body_concat gs : log_body (concat gs) = concat (log_body <$> gs).
Proof. induction gs as [|g gs IH]; [done|]. cbn [concat fmap list_fmap]. by rewrite log_body_app, IH. Qed.

(** The blocks of the groups are the bytes of the entries. *)
Lemma blocks_concat bs gs : concat (blocks_of bs gs) = log_body (concat gs).
Proof.
  rewrite log_body_concat. unfold blocks_of. induction gs as [|g gs IH]; [done|].
  cbn [concat fmap list_fmap]. by rewrite concat_app, chunks_concat, IH.
Qed.

Lemma blocks_app bs gs1 gs2 : blocks_of bs (gs1 ++ gs2) = blocks_of bs gs1 ++ blocks_of bs gs2.
Proof. unfold blocks_of. by rewrite fmap_app, concat_app. Qed.

Lemma blocks_sizes bs gs :
  0 < bs → Forall (group_ok bs) gs → Forall (λ b, b ≠ [] ∧ zlen b ≤ bs) (blocks_of bs gs).
Proof.
  intros Hbs Hgs. unfold blocks_of. induction Hgs as [|g gs Hg _ IH]; [constructor|].
  cbn [concat fmap list_fmap]. apply Forall_app. split; [|exact IH].
  apply chunks_sizes; [done|]. destruct Hg as (es & e & -> & _). rewrite log_body_app, log_body_one.
  intros E. apply (f_equal length) in E. unfold encode_entry in E. rewrite !length_app in E.
  pose proof (entry_prefix_pos e). cbn in E. lia.
Qed.

Lemma max_group_app a b : max_group (a ++ b) = Z.max (max_group a) (max_group b).
Proof.
  assert (Hb : 0 ≤ max_group b) by (unfold max_group; induction b; cbn; lia).
  unfold max_group in *. induction a as [|g a IH]; cbn; [lia|]. rewrite IH. lia.
Qed.

Lemma max_group_one g : max_group [g] = zlen g.
Proof. unfold max_group. cbn. lia. Qed.

Lemma blocks_of_one bs g : blocks_of bs [g] = chunks bs (log_body g).
Proof. unfold blocks_of. cbn. by rewrite app_nil_r. Qed.

(** An entry takes at least two bytes. *)
Lemma log_body_count l : 2 * zlen l ≤ zlen (log_body l).
Proof.
  induction l as [|e l IH]; [cbn; lia|]. change (e :: l) with ([e] ++ l).
  rewrite log_body_app, log_body_one, !length_app. unfold encode_entry. rewrite !length_app.
  pose proof (entry_prefix_pos e). cbn [length]. lia.
Qed.

Lemma group_length bs g : group_ok bs g → 2 * zlen g ≤ bs.
Proof.
  intros (l & e & -> & Hfit). pose proof (log_body_count l). pose proof (entry_prefix_pos e).
  rewrite length_app. cbn [length]. lia.
Qed.

Lemma max_group_bound bs gs : 0 ≤ bs → Forall (group_ok bs) gs → 0 ≤ max_group gs ∧ 2 * max_group gs ≤ bs.
Proof.
  intros Hbs. unfold max_group. induction 1 as [|g gs Hg _ IH]; cbn; [lia|]. pose proof (group_length bs g Hg). lia.
Qed.

(** ** How entries form groups *)

(** The finished groups, and the one that is being filled.  It ends before an entry
    whose numbers would be cut, or that would be cut but fits in a block of its
    own; and after an entry that was cut. *)
Definition make_room (bs : Z) (st : groups * list entry) (e : entry) : groups * list entry :=
  let remaining := bs - zlen (log_body st.2) in
  let size := zlen (encode_entry e) in
  if bool_decide (remaining < zlen (entry_prefix e)) || (bool_decide (size ≤ bs) && bool_decide (size > remaining))
  then (st.1 ++ [st.2], []) else st.

Definition add_group (bs : Z) (st : groups * list entry) (e : entry) : groups * list entry :=
  let '(gs, g) := make_room bs st e in
  if decide (zlen (log_body (g ++ [e])) ≤ bs) then (gs, g ++ [e]) else (gs ++ [g ++ [e]], []).

Definition close_group (st : groups * list entry) : groups :=
  match st.2 with [] => st.1 | _ => st.1 ++ [st.2] end.

Definition groups_of (bs : Z) (es : list entry) : groups :=
  close_group (fold_left (add_group bs) es ([], [])).

(** The entries in the state of the writer. *)
Definition grouped (st : groups * list entry) : list entry := concat st.1 ++ st.2.

Lemma add_group_entries bs st e : grouped (add_group bs st e) = grouped st ++ [e].
Proof.
  destruct st as [gs g]. unfold add_group, make_room, grouped. cbn [fst snd].
  destruct (_ || _); case_decide; cbn [fst snd]; rewrite ?concat_app; cbn [concat app];
    by rewrite ?app_nil_r, <- ?app_assoc.
Qed.

Lemma close_group_entries st : concat (close_group st) = grouped st.
Proof.
  unfold close_group, grouped. destruct st as [gs [|e g]]; cbn [fst snd]; [by rewrite app_nil_r|].
  rewrite concat_app. cbn. by rewrite app_nil_r.
Qed.

Lemma add_groups_entries bs es st :
  grouped (fold_left (add_group bs) es st) = grouped st ++ es.
Proof.
  revert st. induction es as [|e es IH]; intros st; cbn [fold_left]; [by rewrite app_nil_r|].
  rewrite IH, add_group_entries, <- app_assoc. done.
Qed.

Lemma groups_of_entries bs es : concat (groups_of bs es) = es.
Proof. unfold groups_of. by rewrite close_group_entries, add_groups_entries. Qed.

(** Finished groups stay what they are. *)
Lemma add_group_prefix bs gs0 gs g e :
  add_group bs (gs0 ++ gs, g) e = (gs0 ++ (add_group bs (gs, g) e).1, (add_group bs (gs, g) e).2).
Proof.
  unfold add_group, make_room. cbn [fst snd]. destruct (_ || _); case_decide; cbn; by rewrite <- ?app_assoc.
Qed.

Lemma add_groups_prefix bs es gs0 gs g :
  fold_left (add_group bs) es (gs0 ++ gs, g) =
    (gs0 ++ (fold_left (add_group bs) es (gs, g)).1, (fold_left (add_group bs) es (gs, g)).2).
Proof.
  revert gs g. induction es as [|e es IH]; intros gs g; cbn [fold_left]; [done|].
  rewrite add_group_prefix. destruct (add_group bs (gs, g) e) as [gs1 g1]. cbn [fst snd]. apply IH.
Qed.

Lemma close_groups_prefix bs es gs0 :
  close_group (fold_left (add_group bs) es (gs0, [])) = gs0 ++ groups_of bs es.
Proof.
  rewrite <- (app_nil_r gs0) at 1. rewrite add_groups_prefix. unfold groups_of, close_group.
  destruct (fold_left (add_group bs) es ([], [])) as [gs [|e g]]; cbn; by rewrite <- ?app_assoc.
Qed.

(** The groups are as the reader needs them. *)
Definition filling_ok (bs : Z) (st : groups * list entry) : Prop :=
  Forall (group_ok bs) st.1 ∧ zlen (log_body st.2) ≤ bs.

Lemma group_ok_small bs g : g ≠ [] → zlen (log_body g) ≤ bs → group_ok bs g.
Proof.
  intros Hg Hl. destruct (exists_last Hg) as (l & e & ->). exists l, e. split; [done|].
  rewrite log_body_app, log_body_one, length_app in Hl. unfold encode_entry in Hl. rewrite !length_app in Hl. lia.
Qed.

Lemma make_room_ok bs st e :
  zlen (entry_prefix e) ≤ bs → filling_ok bs st →
  filling_ok bs (make_room bs st e) ∧ zlen (log_body (make_room bs st e).2) + zlen (entry_prefix e) ≤ bs.
Proof.
  destruct st as [gs g]. intros Hp [Hgs Hg]. cbn [fst snd] in *. pose proof (encode_entry_prefix e) as Henc.
  assert (Hclose : g ≠ [] → filling_ok bs (gs ++ [g], [])).
  { intros Hne. split; [|cbn; lia]. apply Forall_app. split; [done|]. constructor; [|done].
    by apply group_ok_small. }
  unfold make_room. cbn [fst snd].
  destruct (bool_decide_reflect (bs - zlen (log_body g) < zlen (entry_prefix e))) as [Hr|Hr]; cbn [orb].
  - split; [|cbn; lia]. apply Hclose. intros ->. cbn in Hr. lia.
  - destruct (bool_decide_reflect (zlen (encode_entry e) ≤ bs)); cbn [andb]; [|split; [done|cbn [snd]; lia]].
    destruct (bool_decide_reflect (zlen (encode_entry e) > bs - zlen (log_body g))); (split; [|cbn [snd]; try change (log_body []) with (@nil Z); cbn [length]; lia]); [|done].
    apply Hclose. intros ->. cbn in *. lia.
Qed.

Lemma add_group_ok bs st e :
  zlen (entry_prefix e) ≤ bs → filling_ok bs st → filling_ok bs (add_group bs st e).
Proof.
  intros Hp Hst. destruct (make_room_ok bs st e Hp Hst) as [[Hgs Hg] Hfit]. unfold add_group.
  destruct (make_room bs st e) as [gs g]. cbn [fst snd] in *.
  case_decide; split; cbn [fst snd]; [done|done| |cbn; lia].
  apply Forall_app. split; [done|]. constructor; [|done]. by exists g, e.
Qed.

Lemma add_groups_ok bs es st :
  Forall (λ e, zlen (entry_prefix e) ≤ bs) es → filling_ok bs st →
  filling_ok bs (fold_left (add_group bs) es st).
Proof.
  intros Hes. revert st. induction Hes as [|e es He _ IH]; intros st Hst; cbn [fold_left]; [done|].
  by apply IH, add_group_ok.
Qed.

Lemma close_group_ok bs st : filling_ok bs st → Forall (group_ok bs) (close_group st).
Proof.
  destruct st as [gs [|e g]]; intros [Hgs Hg]; unfold close_group; cbn [fst snd] in *; [done|].
  apply Forall_app. split; [done|]. constructor; [|done]. by apply group_ok_small.
Qed.

Lemma groups_of_ok bs es :
  0 ≤ bs → Forall (λ e, zlen (entry_prefix e) ≤ bs) es → Forall (group_ok bs) (groups_of bs es).
Proof. intros Hbs Hes. apply close_group_ok, add_groups_ok; [done|]. split; [done|cbn; lia]. Qed.

(** ** Where an entry is *)

(** The group of entry [n] and its index there. *)
Fixpoint locate (gs : groups) (n : nat) : option (nat * nat) :=
  match gs with
  | [] => None
  | g :: gs => if decide (n < length g)%nat then Some (0%nat, n)
               else '(j, i) ← locate gs (n - length g); Some (S j, i)
  end.

Lemma locate_spec gs n e :
  concat gs !! n = Some e →
  ∃ j i g, locate gs n = Some (j, i) ∧ gs !! j = Some g ∧ g !! i = Some e ∧
    n = (length (concat (take j gs)) + i)%nat.
Proof.
  revert n. induction gs as [|g gs IH]; intros n; [done|]. cbn [concat locate].
  case_decide as Hn.
  - rewrite lookup_app_l by done. intros He. by exists 0%nat, n, g.
  - rewrite lookup_app_r by lia. intros (j & i & g' & -> & Hj & Hi & Heq)%IH.
    exists (S j), i, g'. split_and!; try done. cbn. rewrite length_app. lia.
Qed.

Lemma locate_at gs j i g :
  gs !! j = Some g → (i < length g)%nat → locate gs (length (concat (take j gs)) + i) = Some (j, i).
Proof.
  revert j. induction gs as [|g0 gs IH]; intros j; [done|]. destruct j as [|j]; cbn [lookup list_lookup locate].
  - intros [= ->] Hi. cbn. by rewrite decide_True.
  - intros Hj Hi. cbn [take concat]. rewrite length_app, decide_False by lia.
    replace (length g0 + length (concat (take j gs)) + i - length g0)%nat
      with (length (concat (take j gs)) + i)%nat by lia. by rewrite (IH j Hj Hi).
Qed.

Lemma locate_inv gs n1 n2 j i :
  locate gs n1 = Some (j, i) → locate gs n2 = Some (j, i) → n1 = n2.
Proof.
  revert n1 n2 j. induction gs as [|g gs IH]; intros n1 n2 j; [done|]. cbn [locate].
  repeat case_decide; try (intros; simplify_eq; done).
  - intros [= <- <-]. destruct (locate _ _) as [[]|]; cbn; [|done]. by intros [=].
  - destruct (locate _ _) as [[]|]; cbn; [|done]. intros [= <- <-] [=].
  - destruct (locate gs (n1 - length g)) as [[j1 i1]|] eqn:E1; [|done].
    destruct (locate gs (n2 - length g)) as [[j2 i2]|] eqn:E2; [|done]. cbn. intros [= <- <-] [= -> ->].
    pose proof (IH _ _ _ E1 E2). lia.
Qed.

(** ** Where an entry is in its block *)

Section Places.
Context (bs : Z) (Hbs : 0 < bs) (gs : groups) (Hgs : Forall (group_ok bs) gs).
Local Abbreviation es := (concat gs).
Local Abbreviation blocks := (blocks_of bs gs).

(** The number of the first block of a group, and of the block in which an entry
    starts; its index among the entries of the block, and where it starts there. *)
Definition group_block (j : nat) : nat := length (blocks_of bs (take j gs)).
Definition place (n : nat) : nat * nat := default (0%nat, 0%nat) (locate gs n).
Definition block_of (n : nat) : nat := group_block (place n).1.
Definition index_of (n : nat) : nat := (place n).2.
Definition offset_of (n : nat) : Z :=
  match gs !! (place n).1 with
  | Some g => zlen (log_body (take (index_of n) g))
  | None => 0
  end.

(** The bytes before a block. *)
Definition block_start (k : nat) : Z := zlen (concat (take k blocks)).

Lemma block_start_S k b : blocks !! k = Some b → block_start (S k) = block_start k + zlen b.
Proof.
  intros Hb. unfold block_start. rewrite (take_S_r _ _ _ Hb), concat_app, length_app. cbn [concat].
  rewrite app_nil_r. lia.
Qed.

Lemma group_block_start j : (j ≤ length gs)%nat → block_start (group_block j) = zlen (log_body (concat (take j gs))).
Proof.
  intros Hj. unfold block_start, group_block.
  assert (Hsplit : blocks = blocks_of bs (take j gs) ++ blocks_of bs (drop j gs))
    by (by rewrite <- blocks_app, take_drop).
  by rewrite Hsplit, take_app_length, blocks_concat.
Qed.

(** The first block of a group. *)
Lemma group_first j g :
  gs !! j = Some g → blocks !! group_block j = Some (take (Z.to_nat bs) (log_body g)).
Proof.
  intros Hg. assert (Hsplit : blocks = blocks_of bs (take j gs) ++ chunks bs (log_body g) ++ blocks_of bs (drop (S j) gs)).
  { rewrite <- (take_drop_middle gs j g Hg) at 1. rewrite blocks_app. f_equal. }
  rewrite Hsplit. unfold group_block. rewrite lookup_app_r, Nat.sub_diag by lia.
  by destruct (chunks_head bs (log_body g)) as [rest ->].
Qed.

(** What is known of the place of an entry. *)
Lemma place_spec n e :
  es !! n = Some e →
  ∃ g b, blocks !! block_of n = Some b ∧ b = take (Z.to_nat bs) (log_body g) ∧
    g !! index_of n = Some e ∧ gs !! (place n).1 = Some g ∧
    offset_of n = zlen (log_body (take (index_of n) g)) ∧
    block_start (block_of n) + offset_of n = zlen (log_body (take n es)) ∧
    offset_of n + zlen (entry_prefix e) ≤ zlen b.
Proof.
  intros He. destruct (locate_spec gs n e He) as (j & i & g & Hloc & Hj & Hi & Hn).
  unfold block_of, index_of, offset_of, index_of, place. rewrite Hloc. cbn [from_option id fst snd]. rewrite Hj.
  exists g, (take (Z.to_nat bs) (log_body g)). rewrite (group_first j g Hj).
  split_and!; try done.
  - rewrite group_block_start by (apply Nat.lt_le_incl, lookup_lt_is_Some; by eexists).
    assert (Htake : take n es = concat (take j gs) ++ take i g).
    { rewrite <- (take_drop_middle gs j g Hj) at 1. rewrite concat_app. cbn [concat].
      rewrite Hn, take_app_add. f_equal. apply lookup_lt_Some in Hi. rewrite take_app_le by lia. done. }
    by rewrite Htake, log_body_app, length_app, Nat2Z.inj_add.
  - rewrite Forall_lookup in Hgs. destruct (Hgs j g Hj) as (es1 & e1 & -> & Hfit).
    rewrite length_take. assert (Hle : zlen (log_body (take i (es1 ++ [e1]))) + zlen (entry_prefix e) ≤
      zlen (log_body (es1 ++ [e1])) ∧ zlen (log_body (take i (es1 ++ [e1]))) + zlen (entry_prefix e) ≤ bs); [|lia].
    assert (Henc : zlen (entry_prefix e) ≤ zlen (encode_entry e)) by (unfold encode_entry; rewrite length_app; lia).
    apply lookup_app_Some in Hi as [Hi|[Hge Hi]].
    + assert (i < length es1)%nat by (by eapply lookup_lt_Some). rewrite take_app_le by lia.
      rewrite log_body_app, length_app. rewrite <- (take_drop_middle es1 i e Hi) in Hfit |- * at 2.
      rewrite log_body_app, length_app in Hfit |- *. change (e :: drop (S i) es1) with ([e] ++ drop (S i) es1) in *.
      rewrite log_body_app, log_body_one, length_app in *. lia.
    + apply list_lookup_singleton_Some in Hi as [Hi ->]. assert (i = length es1) as -> by lia.
      rewrite take_app_length, log_body_app, log_body_one, length_app. lia.
Qed.

(** Going from an entry to the next, in the group or to a new one. *)
Lemma locate_S gs' n j i g :
  Forall (λ g, g ≠ []) gs' → locate gs' n = Some (j, i) → gs' !! j = Some g →
  (S i < length g)%nat ∧ locate gs' (S n) = Some (j, S i) ∨
  S i = length g ∧ (locate gs' (S n) = None ∨ ∃ j', locate gs' (S n) = Some (j', 0%nat)).
Proof.
  intros Hne. revert n j. induction Hne as [|g0 gs' Hg0 Hne IH]; intros n j; [done|]. cbn [locate].
  destruct (decide (n < length g0)%nat) as [Hn|Hn].
  - intros [= <- <-] [= ->]. destruct (decide (S n < length g)%nat) as [Hs|Hs]; [by left|right].
    split; [lia|]. replace (S n - length g)%nat with 0%nat by lia. clear IH.
    destruct gs' as [|g1 gs']; [by left|right]. apply Forall_cons_1 in Hne as [Hg1 _]. cbn [locate].
    rewrite decide_True by (destruct g1; [done|cbn; lia]). by eexists.
  - rewrite (decide_False (P := (S n < length g0)%nat)) by lia.
    destruct (locate gs' (n - length g0)) as [[j1 i1]|] eqn:E; [|done]. cbn [mbind option_bind].
    intros [= <- <-] Hj. cbn in Hj. replace (S n - length g0)%nat with (S (n - length g0)) by lia.
    destruct (IH _ _ E Hj) as [[Hlt ->]|[Heq [->|[j' ->]]]]; cbn.
    + by left.
    + right. split; [done|by left].
    + right. split; [done|right]. by eexists.
Qed.

Lemma groups_nonempty : Forall (λ g : list entry, g ≠ []) gs.
Proof. eapply Forall_impl; [|exact Hgs]. intros g (es1 & e1 & -> & _). by destruct es1. Qed.

(** The next entry of a group follows in the same block. *)
Lemma place_next n e :
  es !! n = Some e → index_of (S n) ≠ 0%nat →
  index_of (S n) = S (index_of n) ∧ block_of (S n) = block_of n ∧
  ∃ b, blocks !! block_of n = Some b ∧ offset_of n + zlen (encode_entry e) ≤ zlen b.
Proof.
  intros He Hne. destruct (locate_spec gs n e He) as (j & i & g & Hloc & Hj & Hi & Hn).
  destruct (locate_S gs n j i g groups_nonempty Hloc Hj) as [[Hlt Hs]|[_ Hs]].
  2:{ destruct Hne. unfold index_of, place. by destruct Hs as [->|[? ->]]. }
  destruct (lookup_lt_is_Some_2 g (S i) Hlt) as [e' Hi'].
  assert (He' : es !! S n = Some e').
  { rewrite <- (take_drop_middle gs j g Hj). rewrite concat_app. cbn [concat].
    rewrite lookup_app_r by lia. replace (S n - length (concat (take j gs)))%nat with (S i) by lia.
    rewrite lookup_app_l; [done|]. by eapply lookup_lt_Some. }
  destruct (place_spec (S n) e' He') as (g' & b' & Hb' & Hbytes & _ & Hg' & Hoff' & _ & Hp').
  unfold block_of, index_of, offset_of, index_of, place in *. rewrite Hloc, Hs in *. cbn [from_option id fst snd] in *.
  rewrite Hj in *. assert (g' = g) as -> by congruence. split_and!; [done|done|]. exists b'. split; [done|].
  rewrite (take_S_r _ _ _ Hi), log_body_app, log_body_one, length_app in Hp'. lia.
Qed.

(** The first entry of the group. *)
Lemma place_first n e :
  es !! n = Some e →
  let n0 := (n - index_of n)%nat in
  (index_of n ≤ n)%nat ∧ is_Some (es !! n0) ∧ index_of n0 = 0%nat ∧ block_of n0 = block_of n ∧
  block_start (block_of n) = zlen (log_body (take n0 es)).
Proof.
  intros He n0. destruct (locate_spec gs n e He) as (j & i & g & Hloc & Hj & Hi & Hn).
  pose proof (lookup_lt_Some _ _ _ Hi) as Hig.
  assert (Hidx : index_of n = i) by (unfold index_of, place; by rewrite Hloc).
  assert (Hn0 : n0 = (length (concat (take j gs)) + 0)%nat) by (unfold n0; lia).
  assert (Hloc0 : locate gs n0 = Some (j, 0%nat)) by (rewrite Hn0; apply (locate_at gs j 0 g Hj); lia).
  assert (Hb : block_of n0 = block_of n) by (unfold block_of, place; by rewrite Hloc, Hloc0).
  assert (Hi0 : index_of n0 = 0%nat) by (unfold index_of, place; by rewrite Hloc0).
  assert (He0 : is_Some (es !! n0)).
  { apply lookup_lt_is_Some. unfold n0. pose proof (lookup_lt_Some _ _ _ He). lia. }
  split_and!; [lia|done|done|done|]. destruct He0 as [e0 He0].
  destruct (place_spec n0 e0 He0) as (g0 & b0 & _ & _ & _ & _ & Hoff & Hstart & _).
  rewrite Hi0, take_0 in Hoff. change (log_body []) with (@nil Z) in Hoff. cbn [length] in Hoff.
  rewrite <- Hb, <- Hstart. lia.
Qed.

Lemma index_of_bound n e : es !! n = Some e → 2 * Z.of_nat (index_of n) ≤ bs.
Proof.
  intros He. destruct (place_spec n e He) as (g & b & _ & -> & Hi & _ & Hoff & _ & Hp).
  apply lookup_lt_Some in Hi. pose proof (log_body_count (take (index_of n) g)) as Hc.
  rewrite length_take in Hc. rewrite length_take in Hp. pose proof (entry_prefix_pos e). lia.
Qed.

Lemma index_of_group n e : es !! n = Some e → Z.of_nat (index_of n) < max_group gs.
Proof.
  intros He. destruct (place_spec n e He) as (g & b & _ & _ & Hi & Hg & _).
  apply lookup_lt_Some in Hi. rewrite <- (take_drop_middle gs _ g Hg), max_group_app.
  change (g :: drop (S (place n).1) gs) with ([g] ++ drop (S (place n).1) gs).
  rewrite max_group_app, max_group_one. lia.
Qed.

Lemma group_block_lt j1 j2 : (j1 < j2)%nat → (j2 ≤ length gs)%nat → (group_block j1 < group_block j2)%nat.
Proof.
  intros Hlt Hle. destruct (lookup_lt_is_Some_2 gs j1) as [g Hg]; [lia|].
  pose proof (group_first j1 g Hg) as Hfirst. unfold group_block in *.
  assert (Hsplit : take j2 gs = take j1 gs ++ g :: drop (S j1) (take j2 gs)).
  { rewrite <- (take_drop_middle (take j2 gs) j1 g) at 1 by (by rewrite lookup_take_lt by lia).
    rewrite take_take. do 2 f_equal. lia. }
  rewrite Hsplit, blocks_app, length_app. unfold blocks_of at 3. cbn [concat fmap list_fmap].
  destruct (chunks_head bs (log_body g)) as [rest ->]. cbn. lia.
Qed.

Lemma place_inj n1 n2 e1 e2 :
  es !! n1 = Some e1 → es !! n2 = Some e2 → block_of n1 = block_of n2 → index_of n1 = index_of n2 → n1 = n2.
Proof.
  intros H1 H2 Hb Hi.
  destruct (locate_spec gs n1 e1 H1) as (j1 & i1 & g1 & Hl1 & Hj1 & _).
  destruct (locate_spec gs n2 e2 H2) as (j2 & i2 & g2 & Hl2 & Hj2 & _).
  unfold block_of, index_of, place in *. rewrite Hl1, Hl2 in *. cbn [from_option id fst snd] in *. subst i2.
  apply lookup_lt_Some in Hj1, Hj2. assert (j1 = j2) as ->; [|by eapply locate_inv].
  destruct (lt_eq_lt_dec j1 j2) as [[Hlt|]|Hlt]; [|done|].
  - pose proof (group_block_lt j1 j2 Hlt ltac:(lia)). lia.
  - pose proof (group_block_lt j2 j1 Hlt ltac:(lia)). lia.
Qed.
End Places.

(** More groups do not move the entries of the first ones. *)
Lemma locate_app gs1 gs2 n p : locate gs1 n = Some p → locate (gs1 ++ gs2) n = Some p.
Proof.
  revert n p. induction gs1 as [|g gs1 IH]; intros n p; [done|]. cbn [locate app]. case_decide; [done|].
  destruct (locate gs1 (n - length g)) as [[j i]|] eqn:E; [|done]. cbn. by rewrite (IH _ _ E).
Qed.

Lemma place_app bs gs1 gs2 n :
  (n < length (concat gs1))%nat →
  block_of bs (gs1 ++ gs2) n = block_of bs gs1 n ∧ index_of (gs1 ++ gs2) n = index_of gs1 n.
Proof.
  intros [e He]%lookup_lt_is_Some_2. destruct (locate_spec gs1 n e He) as (j & i & g & Hl & Hj & _).
  unfold block_of, index_of, place, group_block. rewrite (locate_app _ gs2 _ _ Hl), Hl. cbn [default from_option id fst snd].
  apply lookup_lt_Some in Hj. by rewrite take_app_le by lia.
Qed.

Lemma place_end bs gs1 g gs2 :
  g ≠ [] → block_of bs (gs1 ++ g :: gs2) (length (concat gs1)) = length (blocks_of bs gs1) ∧
  index_of (gs1 ++ g :: gs2) (length (concat gs1)) = 0%nat.
Proof.
  intros Hg. assert (Hl : locate (gs1 ++ g :: gs2) (length (concat gs1)) = Some (length gs1, 0%nat)).
  { rewrite <- (Nat.add_0_r (length (concat gs1))). rewrite <- (take_app_length gs1 (g :: gs2)) at 2.
    apply (locate_at _ _ _ g); [by apply list_lookup_middle|]. destruct g; [done|cbn; lia]. }
  unfold block_of, index_of, place, group_block. rewrite Hl. cbn [default from_option id fst snd].
  by rewrite take_app_length.
Qed.

(** ** The file *)

(** Everything that decides how entries become bytes. *)
Record block_params : Type := BlockParams {
  bp_type : Z;
  bp_size : Z;
  bp_compressor : sparkey_compressor
}.

Definition params_ok {C : Codec} (P : block_params) : Prop :=
  sparkey_compressors (bp_type P) = Some (bp_compressor P) ∧ 10 ≤ bp_size P < 2 ^ 31 ∧
  compressor_ok (bp_compressor P) (bp_size P).

(** A block in the file. *)
Definition pack (P : block_params) (b : list Z) : list Z :=
  match compress (bp_compressor P) b (max_compressed_size (bp_compressor P) (bp_size P)) with
  | Ok out => write_vlq (zlen out) ++ out
  | _ => []
  end.

Definition packed (P : block_params) (blocks : list (list Z)) : list Z := concat (pack P <$> blocks).
Definition comp_body (P : block_params) (gs : groups) : list Z := packed P (blocks_of (bp_size P) gs).
Definition comp_end (P : block_params) (gs : groups) : Z := LOG_HEADER_SIZE + zlen (comp_body P gs).

(** The header counts the entries as they are before compression. *)
Definition with_compression (P : block_params) (max_entries : Z) (h : sparkey_logheader)
    : sparkey_logheader :=
  LogHeader (lh_major_version h) (lh_minor_version h) (lh_file_identifier h) (lh_num_puts h)
    (lh_num_deletes h) (lh_data_end h) (lh_max_key_len h) (lh_max_value_len h) (lh_delete_size h)
    (bp_type P) (bp_size P) (lh_put_size h) (lh_header_size h) max_entries.

Definition comp_header (P : block_params) (fid : Z) (gs : groups) (data_end header_size : Z)
    : sparkey_logheader :=
  with_compression P (max_group gs) (log_header fid (concat gs) data_end header_size).

Definition comp_file (P : block_params) (fid : Z) (gs : groups) : list Z :=
  logheader_bytes (comp_header P fid gs (comp_end P gs) LOG_HEADER_SIZE) ++ comp_body P gs.

Definition comp_ok (P : block_params) (gs : groups) : Prop :=
  log_ok (concat gs) ∧ Forall (group_ok (bp_size P)) gs ∧ comp_end P gs < 2 ^ 62.

(** Where a block starts in the file. *)
Definition block_pos (P : block_params) (blocks : list (list Z)) (k : nat) : Z :=
  LOG_HEADER_SIZE + zlen (packed P (take k blocks)).

Lemma packed_app P a b : packed P (a ++ b) = packed P a ++ packed P b.
Proof. unfold packed. by rewrite fmap_app, concat_app. Qed.

Lemma block_pos_S P blocks k b :
  blocks !! k = Some b → block_pos P blocks (S k) = block_pos P blocks k + zlen (pack P b).
Proof.
  intros Hb. unfold block_pos. rewrite (take_S_r _ _ _ Hb), packed_app, length_app.
  unfold packed at 2. cbn. rewrite app_nil_r. lia.
Qed.

Lemma block_pos_app P blocks1 blocks2 k :
  (k ≤ length blocks1)%nat → block_pos P (blocks1 ++ blocks2) k = block_pos P blocks1 k.
Proof. intros Hk. unfold block_pos. by rewrite take_app_le. Qed.

Lemma pack_spec {C : Codec} P b :
  params_ok P → bytes_ok b → zlen b ≤ bp_size P →
  ∃ out, compress (bp_compressor P) b (max_compressed_size (bp_compressor P) (bp_size P)) = Ok out ∧
    pack P b = write_vlq (zlen out) ++ out ∧ zlen out < 2 ^ 32 ∧ bytes_ok out ∧
    decompress (bp_compressor P) out (bp_size P) = Ok b.
Proof.
  intros (_ & _ & Hc) Hok Hlen. destruct (Hc b Hok Hlen) as (out & Hcomp & Hl & Ho & Hd).
  exists out. unfold pack. rewrite Hcomp. split_and!; try done. lia.
Qed.

(** ** The header *)

(** The loader takes a log for corrupt whose counters exceed its length, which
    compression can make happen. *)
Definition counts_fit (P : block_params) (gs : groups) : Prop :=
  zlen (puts_of (concat gs)) ≤ comp_end P gs ∧ zlen (deletes_of (concat gs)) ≤ comp_end P gs.

Lemma comp_type {C : Codec} P :
  params_ok P → bp_type P = SPARKEY_COMPRESSION_SNAPPY ∨ bp_type P = SPARKEY_COMPRESSION_ZSTD.
Proof.
  intros (Hc & _). assert (Hu : sparkey_uses_compressor (bp_type P) = true) by (apply uses_compressor_iff; by eexists).
  unfold sparkey_uses_compressor in Hu. by apply bool_decide_eq_true in Hu.
Qed.

Lemma comp_header_typed {C : Codec} P fid gs :
  params_ok P → 0 ≤ fid < 2 ^ 32 → comp_ok P gs →
  logheader_typed (comp_header P fid gs (comp_end P gs) LOG_HEADER_SIZE).
Proof.
  intros HP Hfid (Hok & Hgs & Hend). pose proof (log_header_typed fid (concat gs) Hfid Hok) as Ht.
  pose proof (comp_type P HP) as Hty. destruct HP as (_ & Hbs & _).
  pose proof (max_group_bound (bp_size P) gs ltac:(lia) Hgs) as Hm. unfold logheader_typed in *.
  destruct Ht as (? & ? & ? & _ & ? & ? & ? & _ & _ & ? & _).
  unfold SPARKEY_COMPRESSION_SNAPPY, SPARKEY_COMPRESSION_ZSTD in *.
  split_and!; cbn [comp_header with_compression lh_file_identifier lh_num_puts lh_num_deletes lh_data_end
    lh_max_key_len lh_max_value_len lh_delete_size lh_compression_type lh_compression_block_size lh_put_size
    lh_max_entries_per_block log_header] in *; try lia.
  unfold comp_end, LOG_HEADER_SIZE. lia.
Qed.

Lemma comp_header_valid {C : Codec} P fid gs :
  params_ok P → counts_fit P gs →
  logheader_valid (comp_header P fid gs (comp_end P gs) LOG_HEADER_SIZE).
Proof.
  intros HP [Hp Hd]. pose proof (comp_type P HP) as Hty.
  unfold SPARKEY_COMPRESSION_SNAPPY, SPARKEY_COMPRESSION_ZSTD in *.
  split_and!; cbn [comp_header with_compression log_header lh_major_version lh_minor_version lh_header_size
    lh_data_end lh_num_puts lh_num_deletes lh_compression_type]; try done.
  - unfold comp_end. lia.
  - unfold SPARKEY_COMPRESSION_ZSTD. lia.
Qed.
