(* ===== verification/BlockReader.v ===== *)
(** * Reading compressed logs

    The iterator of logreader.c over the file of a compressed log implements the
    interface [LogCursor]: block after block is decompressed into the buffer of the
    iterator, and keys and values come in chunks that may end with a block. *)

From stdpp Require Import base gmap list strings numbers.
From Stdlib Require Import ZArith Lia.
From S2P Require Import Prelude ReturnCodes OS Vlq LogHeader Buf Compress LogFormat LogWriter.
From S2P Require Import LogReader LogCursor PlainLog BlockFormat.

Local Open Scope Z_scope.

(** A reader opened on the log of the groups [gs]. *)
Definition comp_log (P : block_params) (fid : Z) (gs : groups) : sparkey_logreader → Prop :=
  opened_on (comp_header P fid gs (comp_end P gs) LOG_HEADER_SIZE) (comp_body P gs).

(** The functions that move through the blocks leave the entry alone. *)
Definition same_entry (i i' : sparkey_logiter) : Prop :=
  i_open_status i' = i_open_status i ∧ i_file_identifier i' = i_file_identifier i ∧
  i_entry_block_position i' = i_entry_block_position i ∧
  i_entry_block_offset i' = i_entry_block_offset i ∧ i_type i' = i_type i ∧ i_state i' = i_state i ∧
  i_keylen i' = i_keylen i ∧ i_valuelen i' = i_valuelen i ∧
  i_key_remaining i' = i_key_remaining i ∧ i_value_remaining i' = i_value_remaining i.

Lemma same_entry_refl i : same_entry i i.
Proof. by repeat split. Qed.

Lemma same_entry_trans i1 i2 i3 : same_entry i1 i2 → same_entry i2 i3 → same_entry i1 i3.
Proof. unfold same_entry. intros H12 H23. decompose [and] H12. decompose [and] H23. split_and!; congruence. Qed.

Section Blocks.
Context {C : Codec} (P : block_params) (HP : params_ok P) (fid : Z) (gs : groups).
Context (log : sparkey_logreader) (Hlog : comp_log P fid gs log) (Hok : comp_ok P gs).
Local Abbreviation es := (concat gs).
Local Abbreviation bs := (bp_size P).
Local Abbreviation blocks := (blocks_of bs gs).
Local Abbreviation pos := (block_pos P blocks).
Local Abbreviation start := (block_start bs gs).
Local Abbreviation stream := (log_body es).

Lemma size_range : 10 ≤ bs < 2 ^ 31.
Proof. by destruct HP as (_ & ? & _). Qed.

Lemma groups_ok : Forall (group_ok bs) gs.
Proof. by destruct Hok as (_ & ? & _). Qed.

(** ** The blocks in the file *)

Lemma block_ok k b : blocks !! k = Some b → b ≠ [] ∧ zlen b ≤ bs ∧ bytes_ok b.
Proof.
  intros Hb. pose proof size_range. pose proof (blocks_sizes bs gs ltac:(lia) groups_ok) as Hsz.
  rewrite Forall_lookup in Hsz. destruct (Hsz k b Hb) as [? ?]. split_and!; try done.
  assert (Hall : bytes_ok (concat blocks)).
  { rewrite blocks_concat. apply log_body_ok. by destruct Hok as ([? _] & _). }
  unfold bytes_ok in *. rewrite Forall_concat, Forall_lookup in Hall. by apply (Hall k).
Qed.

Lemma pack_pos k b : blocks !! k = Some b → 1 ≤ zlen (pack P b).
Proof.
  intros Hb. destruct (block_ok k b Hb) as (_ & Hl & Hbo).
  destruct (pack_spec P b HP Hbo Hl) as (out & _ & -> & _). rewrite length_app.
  pose proof (write_vlq_pos (zlen out)). lia.
Qed.

Lemma pos_range k : (k ≤ length blocks)%nat → LOG_HEADER_SIZE + Z.of_nat k ≤ pos k ≤ comp_end P gs.
Proof.
  intros Hk. split.
  - induction k as [|k IH]; [unfold block_pos; cbn; lia|].
    destruct (lookup_lt_is_Some_2 blocks k) as [b Hb]; [lia|].
    rewrite (block_pos_S P _ k b Hb). pose proof (pack_pos k b Hb). specialize (IH ltac:(lia)). lia.
  - unfold block_pos, comp_end, comp_body. rewrite <- (take_drop k blocks) at 2.
    rewrite packed_app, length_app. lia.
Qed.

Lemma pos_end : pos (length blocks) = comp_end P gs.
Proof. unfold block_pos. by rewrite firstn_all. Qed.

Lemma pos_lt k1 k2 : (k1 < k2)%nat → (k2 ≤ length blocks)%nat → pos k1 < pos k2.
Proof.
  intros Hlt. induction Hlt as [|m Hlt IH]; intros Hle.
  - destruct (lookup_lt_is_Some_2 blocks k1) as [b Hb]; [lia|].
    rewrite (block_pos_S P _ k1 b Hb). pose proof (pack_pos k1 b Hb). lia.
  - destruct (lookup_lt_is_Some_2 blocks m) as [b Hb]; [lia|].
    rewrite (block_pos_S P _ m b Hb). pose proof (pack_pos m b Hb). specialize (IH ltac:(lia)). lia.
Qed.

Lemma pos_inj k1 k2 : (k1 < length blocks)%nat → (k2 < length blocks)%nat → pos k1 = pos k2 → k1 = k2.
Proof.
  intros H1 H2 Heq. destruct (lt_eq_lt_dec k1 k2) as [[Hlt|]|Hlt]; [|done|].
  - pose proof (pos_lt k1 k2 Hlt ltac:(lia)). lia.
  - pose proof (pos_lt k2 k1 Hlt ltac:(lia)). lia.
Qed.

(** The file around a block. *)
Lemma split_file k b :
  blocks !! k = Some b → ∃ pre post, comp_file P fid gs = pre ++ pack P b ++ post ∧ zlen pre = pos k.
Proof.
  intros Hb. exists (logheader_bytes (comp_header P fid gs (comp_end P gs) LOG_HEADER_SIZE) ++
    packed P (take k blocks)), (packed P (drop (S k) blocks)). split.
  - unfold comp_file, comp_body. rewrite <- (take_drop_middle blocks k b Hb) at 1.
    rewrite packed_app. change (packed P (b :: drop (S k) blocks)) with (pack P b ++ packed P (drop (S k) blocks)).
    by rewrite <- app_assoc.
  - rewrite length_app, Nat2Z.inj_add, logheader_bytes_length. done.
Qed.

Lemma start_length k : (k ≤ length blocks)%nat → 0 ≤ start k ≤ zlen stream.
Proof.
  intros Hk. split; [unfold block_start; lia|]. unfold block_start. rewrite <- (blocks_concat bs gs).
  rewrite <- (take_drop k blocks) at 2. rewrite concat_app, length_app. lia.
Qed.

Lemma start_end : start (length blocks) = zlen stream.
Proof. unfold block_start. by rewrite firstn_all, blocks_concat. Qed.

Lemma start_lt k1 k2 : (k1 < k2)%nat → (k2 ≤ length blocks)%nat → start k1 < start k2.
Proof.
  intros Hlt. induction Hlt as [|m Hlt IH]; intros Hle.
  - destruct (lookup_lt_is_Some_2 blocks k1) as [b Hb]; [lia|].
    rewrite (block_start_S bs gs k1 b Hb). destruct (block_ok k1 b Hb) as (Hne & _). destruct b; [done|cbn; lia].
  - destruct (lookup_lt_is_Some_2 blocks m) as [b Hb]; [lia|].
    rewrite (block_start_S bs gs m b Hb). specialize (IH ltac:(lia)). lia.
Qed.

Lemma start_le k1 k2 : (k1 ≤ k2)%nat → (k2 ≤ length blocks)%nat → start k1 ≤ start k2.
Proof.
  intros Hle Hk2. destruct (decide (k1 = k2)) as [->|]; [lia|].
  pose proof (start_lt k1 k2 ltac:(lia) Hk2). lia.
Qed.

(** What a block holds of the bytes of the entries. *)
Lemma stream_at k b : blocks !! k = Some b → ∃ post, drop (Z.to_nat (start k)) stream = b ++ post.
Proof.
  intros Hb. exists (concat (drop (S k) blocks)). unfold block_start.
  rewrite Nat2Z.id, <- (blocks_concat bs gs).
  rewrite <- (take_drop_middle blocks k b Hb) at 2. rewrite concat_app. cbn [concat].
  by rewrite drop_app_length.
Qed.

(** ** States of the iterator *)

Definition has_buffer (i : sparkey_logiter) : Prop :=
  ∃ buf, i_compression_buf i = CbOwn buf ∧ zlen buf = bs.

Definition loaded (k : nat) (i : sparkey_logiter) : Prop :=
  ∃ b junk, blocks !! k = Some b ∧ i_compression_buf i = CbOwn (b ++ junk) ∧ zlen (b ++ junk) = bs ∧
    i_block_position i = pos k ∧ i_next_block_position i = pos (S k) ∧ i_block_len i = zlen b.

Definition comp_ready (i : sparkey_logiter) : Prop :=
  iter_open fid i ∧ has_buffer i ∧ (i_block_position i = 0 ∨ ∃ k, loaded k i).

(** The iterator is behind [s] bytes of the entries. *)
Definition at_stream (s : Z) (i : sparkey_logiter) : Prop :=
  ∃ k, loaded k i ∧ 0 ≤ i_block_offset i ≤ i_block_len i ∧ s = start k + i_block_offset i.

Lemma loaded_lt k i : loaded k i → (k < length blocks)%nat ∧ start (S k) = start k + i_block_len i.
Proof.
  intros (b & junk & Hb & _ & _ & _ & _ & Hl). rewrite (block_start_S bs gs k b Hb), Hl.
  split; [by eapply lookup_lt_Some|done].
Qed.

Lemma loaded_buffer k i : loaded k i → has_buffer i.
Proof. intros (b & junk & _ & Hc & Hl & _). by exists (b ++ junk). Qed.

Lemma loaded_ready k i : iter_open fid i → loaded k i → comp_ready i.
Proof. intros Ho Hl. split_and!; [apply Ho..|by eapply loaded_buffer|right; by exists k]. Qed.

(** Inside a block, or at its end, the place in the bytes decides which block it is. *)
Lemma at_stream_block s i k :
  at_stream s i → 0 < i_block_offset i → (k < length blocks)%nat → start k < s ≤ start (S k) →
  loaded k i ∧ i_block_offset i = s - start k.
Proof.
  intros (k' & Hl & Hbo & ->) Hpos Hk Hs. destruct (loaded_lt k' i Hl) as [Hk' Hs'].
  assert (k' = k) as ->; [|split; [done|lia]].
  destruct (lt_eq_lt_dec k' k) as [[Hlt|]|Hlt]; [|done|].
  - pose proof (start_le (S k') k ltac:(lia) ltac:(lia)). lia.
  - pose proof (start_le (S k) k' ltac:(lia) ltac:(lia)). lia.
Qed.

Lemma at_stream_inside s i k :
  at_stream s i → i_block_offset i < i_block_len i → (k < length blocks)%nat → start k ≤ s < start (S k) →
  loaded k i ∧ i_block_offset i = s - start k.
Proof.
  intros (k' & Hl & Hbo & ->) Hpos Hk Hs. destruct (loaded_lt k' i Hl) as [Hk' Hs'].
  assert (k' = k) as ->; [|split; [done|lia]].
  destruct (lt_eq_lt_dec k' k) as [[Hlt|]|Hlt]; [|done|].
  - pose proof (start_le (S k') k ltac:(lia) ltac:(lia)). lia.
  - pose proof (start_le (S k) k' ltac:(lia) ltac:(lia)). lia.
Qed.

(** ** Loading blocks *)

Lemma comp_uses : sparkey_uses_compressor (lh_compression_type (r_header log)) = true.
Proof. destruct Hlog as (_ & -> & _). apply uses_compressor_iff. destruct HP as (Hc & _). by eexists. Qed.

Lemma comp_data_end : lh_data_end (r_header log) = comp_end P gs.
Proof. by destruct Hlog as (_ & -> & _). Qed.

Lemma comp_assert i : iter_open fid i → assert_iter_open log i = (Ok tt, i).
Proof.
  intros [Ho Hf]. destruct Hlog as (Hr & Hh & _).
  unfold assert_iter_open, assert_log_open. rewrite decide_False by (rewrite Hr; tauto).
  rewrite bind_ret, bind_getS. rewrite decide_False by (rewrite Ho; tauto).
  rewrite decide_False by (rewrite Hf, Hh; intros H; by apply H). done.
Qed.

(** A block is found, decompressed and put into the buffer. *)
Lemma seekblock_load k i :
  comp_ready i → (k < length blocks)%nat →
  ∃ i', seekblock log (pos k) i = (Ok tt, i') ∧ loaded k i' ∧ i_block_offset i' = 0 ∧
    same_entry i i' ∧ i_entry_count i' = i_entry_count i.
Proof.
  intros (Hopen & (buf & Hbuf & Hbl) & Hb) Hk. pose proof (pos_range k ltac:(lia)) as Hpk.
  unfold LOG_HEADER_SIZE in Hpk. unfold seekblock. rewrite bind_upd, bind_getS. cbn [i_block_position set_block_offset].
  case_decide as Heq.
  - destruct Hb as [Hb|[k' Hl]]; [lia|]. exists (set_block_offset 0 i). split; [done|].
    destruct (loaded_lt k' i Hl) as [Hk' _]. pose proof Hl as (b & junk & Hbk & Hc & Hbs & Hp & Hn & Hlen).
    assert (k' = k) as -> by (apply pos_inj; [done|done|congruence]).
    split; [by exists b, junk|]. by repeat split.
  - rewrite comp_uses. destruct (lookup_lt_is_Some_2 blocks k Hk) as [b Hbk].
    destruct (block_ok k b Hbk) as (_ & Hsz & Hbok).
    destruct (pack_spec P b HP Hbok Hsz) as (out & _ & Hpack & Hout & _ & Hdec).
    destruct (split_file k b Hbk) as (pre & post & Hfile & Hpre).
    assert (Hend : comp_end P gs < 2 ^ 62) by apply Hok.
    pose proof (block_pos_S P blocks k b Hbk) as HpS. pose proof (pos_range (S k) ltac:(lia)) as HrS.
    rewrite Hpack, length_app in HpS. destruct Hlog as (_ & Hhd & _ & Hdata). fold (comp_file P fid gs) in Hdata.
    rewrite Hdata, bind_of_opt. rewrite Hfile, Hpack, <- app_assoc, <- Hpre.
    rewrite read_vlq_app by lia. rewrite bind_of_opt. cbn [fst snd].
    rewrite (u32_id (zlen out)) by lia. rewrite Hhd. cbn [lh_compression_type lh_compression_block_size comp_header with_compression].
    destruct HP as (Hcomp & Hbs & _). rewrite Hcomp, bind_of_opt.
    rewrite (app_assoc pre), mem_read_mid by (rewrite ?length_app; lia). rewrite bind_of_opt.
    rewrite Hdec. erewrite bind_Ok; [|reflexivity]. cbn [i_compression_buf set_block_offset]. rewrite Hbuf.
    rewrite mem_write_some by lia. rewrite bind_of_opt. eexists. split; [reflexivity|].
    split; [|by repeat split]. exists b, (drop (length b) buf).
    cbn [i_compression_buf i_block_position i_next_block_position i_block_len set_block_len
      set_next_block_position set_block_position set_compression_buf set_block_offset]. split_and!; try done.
    + rewrite length_app, length_drop. lia.
    + rewrite u64_id by lia. lia.
Qed.

Lemma ensure_stay i : i_block_offset i < i_block_len i → ensure_available log i = (Ok tt, i).
Proof. intros Hlt. unfold ensure_available, mbind, M_bind, getS. by rewrite decide_True. Qed.

(** At the end of a block the next one is loaded. *)
Lemma ensure_load k i :
  comp_ready i → (k < length blocks)%nat → ¬ i_block_offset i < i_block_len i →
  i_next_block_position i = pos k →
  ∃ i', ensure_available log i = (Ok tt, i') ∧ loaded k i' ∧ i_block_offset i' = 0 ∧
    same_entry i i' ∧ i_entry_count i' = -1.
Proof.
  intros Hr Hk Hoff Hn. unfold ensure_available. rewrite bind_getS, decide_False by done.
  pose proof (pos_lt k (length blocks) Hk ltac:(lia)) as Hlt. rewrite pos_end in Hlt.
  rewrite comp_data_end, decide_False by lia.
  destruct (seekblock_load k i Hr Hk) as (i1 & Hs & Hl & Ho & Hsame & _). rewrite Hn.
  rewrite (bind_Ok _ _ _ _ _ Hs). exists (set_entry_count (-1) i1). by split_and!.
Qed.

(** With bytes left there is a block with the next one, and nothing else changes
    unless a new block is loaded. *)
Lemma ensure_run s i :
  comp_ready i → at_stream s i → s < zlen stream →
  ∃ i', ensure_available log i = (Ok tt, i') ∧ at_stream s i' ∧ i_block_offset i' < i_block_len i' ∧
    comp_ready i' ∧ same_entry i i' ∧ (i' = i ∨ (i_block_offset i' = 0 ∧ i_entry_count i' = -1)).
Proof.
  intros Hr Hat Hs. destruct (decide (i_block_offset i < i_block_len i)) as [Hlt|Hge].
  { exists i. rewrite ensure_stay by done. split_and!; try done; try apply same_entry_refl; try apply Hr. by left. }
  destruct Hat as (k & Hl & Hbo & Heq). destruct (loaded_lt k i Hl) as [Hk HS].
  assert (Hk2 : (S k < length blocks)%nat).
  { destruct (decide (S k = length blocks)) as [E|]; [|lia]. rewrite E, start_end in HS. lia. }
  destruct (ensure_load (S k) i Hr Hk2 Hge) as (i' & He & Hl' & Ho' & Hsame & Hc').
  { by destruct Hl as (? & ? & _ & _ & _ & _ & ? & _). }
  exists i'. split; [done|]. pose proof Hl' as (b & ? & Hb & _ & _ & _ & _ & Hlen).
  destruct (block_ok (S k) b Hb) as (Hne & _). assert (0 < zlen b) by (destruct b; [done|cbn; lia]).
  split_and!; [|lia| |done|by right].
  - exists (S k). split_and!; [done|lia|lia|lia].
  - apply (loaded_ready (S k)); [|done]. destruct Hr as ([? ?] & _), Hsame as (? & ? & _). split; congruence.
Qed.

(** ** Moving inside and across blocks *)

(** From [s] to [s'] bytes of the entries.  The count of entries in the block is
    kept while the iterator stays in the block. *)
Definition moved (s' : Z) (i i' : sparkey_logiter) : Prop :=
  at_stream s' i' ∧ comp_ready i' ∧ same_entry i i' ∧
  (0 < i_block_offset i → 0 < i_block_offset i') ∧
  (∀ k, loaded k i → s' ≤ start (S k) → loaded k i' ∧ i_entry_count i' = i_entry_count i).

Lemma moved_refl s i : comp_ready i → at_stream s i → moved s i i.
Proof. intros Hr Hat. by split_and!. Qed.

Lemma moved_trans s1 s2 i1 i2 i3 : s1 ≤ s2 → moved s1 i1 i2 → moved s2 i2 i3 → moved s2 i1 i3.
Proof.
  intros Hle (_ & _ & Hs12 & Ho12 & Hc12) (Hat & Hr & Hs23 & Ho23 & Hc23).
  split_and!; [done|done|by eapply same_entry_trans|tauto|].
  intros k Hk Hs. destruct (Hc12 k Hk ltac:(lia)) as [Hk2 Hn2]. destruct (Hc23 k Hk2 Hs) as [Hk3 Hn3].
  split; [done|congruence].
Qed.

(** The bytes of the block are bytes of the entries. *)
Lemma buffer_bytes s i x post m :
  at_stream s i → drop (Z.to_nat s) stream = x ++ post → (m ≤ length x)%nat →
  Z.of_nat m ≤ i_block_len i - i_block_offset i →
  iter_bytes log i (Z.of_nat m) = Some (take m x).
Proof.
  intros (k & (b & junk & Hb & Hc & Hl & _ & _ & Hlen) & Hbo & ->) Hx Hm Hle.
  destruct (stream_at k b Hb) as [rest Hrest].
  assert (Hk : 0 ≤ start k) by (unfold block_start; lia).
  rewrite Z2Nat.inj_add, <- drop_drop, Hrest, drop_app_le in Hx by lia.
  unfold iter_bytes. rewrite Hc.
  set (o := Z.to_nat (i_block_offset i)) in *.
  assert (Htake : take m x = take m (drop o b)).
  { apply (f_equal (take m)) in Hx. rewrite !take_app_le in Hx by (rewrite ?length_drop; lia). done. }
  rewrite Htake. rewrite <- (take_drop o b) at 1. rewrite <- app_assoc.
  replace (i_block_offset i) with (zlen (take o b)) by (rewrite length_take; lia).
  apply mem_read_part. rewrite length_drop. lia.
Qed.

Lemma ensure_advance s i :
  comp_ready i → at_stream s i → s < zlen stream →
  ∃ j, ensure_available log i = (Ok tt, j) ∧ at_stream s j ∧ comp_ready j ∧ same_entry i j ∧
    0 < i_block_len j - i_block_offset j ∧ 0 ≤ i_block_offset j ∧ i_block_len j < 2 ^ 31 ∧
    ∀ m, 0 < m ≤ i_block_len j - i_block_offset j →
      moved (s + m) i (set_block_offset (i_block_offset j + m) j).
Proof.
  intros Hr Hat Hs. destruct (ensure_run s i Hr Hat Hs) as (j & He & Hatj & Hlt & Hrj & Hsame & Hcase).
  exists j. pose proof Hatj as (k & Hk & Hbo & Heq). pose proof Hk as (b & junk & Hb & _ & _ & _ & _ & Hlen).
  destruct (block_ok k b Hb) as (_ & Hsz & _). pose proof size_range.
  split_and!; [done|done|done|done|lia|lia|lia|].
  intros m Hm. split_and!.
  - exists k. cbn. split_and!; [done|lia|lia|lia].
  - done.
  - done.
  - cbn. lia.
  - intros k1 Hk1 Hend. destruct (decide (i_block_offset i < i_block_len i)) as [Hl|Hge].
    { rewrite (ensure_stay i Hl) in He. injection He as <-. by split. }
    destruct Hcase as [->|[Hz Hc]]; [lia|exfalso].
    destruct Hat as (k0 & Hk0 & Hbo0 & Heq0). destruct (loaded_lt k0 i Hk0) as [Hk0b HS0].
    destruct (loaded_lt k1 i Hk1) as [Hk1b HS1].
    assert (k1 = k0) as ->.
    { apply pos_inj; [done|done|]. destruct Hk0 as (? & ? & _ & _ & _ & Hp0 & _).
      destruct Hk1 as (? & ? & _ & _ & _ & Hp1 & _). congruence. }
    lia.
Qed.

Lemma skip_loop_run fuel : ∀ k s i (len : Z),
  comp_ready i → loaded k i → 0 ≤ i_block_offset i ≤ i_block_len i → s = start k + i_block_offset i →
  0 ≤ len → s + len ≤ zlen stream → (0 < fuel)%nat →
  ((0 < len)%Z → length blocks - k + (if decide (i_block_offset i < i_block_len i)%Z then 1 else 0) < fuel)%nat →
  ∃ i', skip_loop fuel log len i = (Ok tt, i') ∧ moved (s + len) i i'.
Proof.
  induction fuel as [|fuel IH]; intros k s i len Hr Hk Hbo Hs Hlen Hend Hf Hfuel; [lia|].
  assert (Hat : at_stream s i) by (by exists k). cbn [skip_loop]. destruct (decide (0 < len)) as [Hpos|Hpos].
  2:{ assert (len = 0) as -> by lia. exists i. rewrite Z.add_0_r. split; [done|by apply moved_refl]. }
  destruct (ensure_advance s i Hr Hat ltac:(lia)) as (j & He & Hatj & Hrj & _ & Hav & Hbj & Hlj & Hmv).
  rewrite (bind_Ok _ _ _ _ _ He), bind_getS, bind_upd. cbv zeta. rewrite (u64_id (_ - _)) by lia.
  set (m := min64 len (i_block_len j - i_block_offset j)).
  assert (Hm : 0 < m ≤ i_block_len j - i_block_offset j ∧ m ≤ len ∧
    (m = len ∨ i_block_offset j + m = i_block_len j)) by (unfold m, min64; destruct (decide (len < _)); lia).
  rewrite u64_id by lia. specialize (Hmv m ltac:(lia)). set (j' := set_block_offset _ j) in *.
  pose proof Hmv as ((k' & Hk' & Hbo' & Heq') & Hr' & _).
  specialize (Hfuel ltac:(lia)). destruct (loaded_lt k i Hk) as [Hkb HS].
  destruct (IH k' (s + m) j' (len - m)) as (i' & Hrun & Hmv'); [done|done|done|done|lia|lia|lia| |].
  - intros Hmore. assert (Hfull : i_block_offset j' = i_block_len j') by (unfold j'; cbn; lia).
    rewrite decide_False by lia. destruct (loaded_lt k' j' Hk') as [Hkb' HS'].
    destruct (decide (k < k')%nat) as [Hlt|Hge]; [case_decide; lia|].
    assert (k = k') as <-.
    { destruct (decide (k' = k)) as [|Hne]; [done|]. pose proof (start_le (S k') k ltac:(lia) ltac:(lia)). lia. }
    rewrite decide_True in Hfuel by lia. lia.
  - exists i'. split; [exact Hrun|]. replace (s + len) with (s + m + (len - m)) by lia.
    eapply moved_trans; [|exact Hmv|exact Hmv']. lia.
Qed.

Lemma block_skip_run s i len :
  comp_ready i → at_stream s i → 0 ≤ len → s + len ≤ zlen stream →
  ∃ i', skip log len i = (Ok tt, i') ∧ moved (s + len) i i'.
Proof.
  intros Hr (k & Hk & Hbo & Hs) Hlen Hend. apply (skip_loop_run _ k); try done; [lia|].
  intros _. rewrite comp_data_end. pose proof (pos_range (length blocks) ltac:(lia)) as Hp.
  unfold LOG_HEADER_SIZE in Hp. case_decide; lia.
Qed.

Lemma skip_zero i : skip log 0 i = (Ok tt, i).
Proof. done. Qed.

(** A chunk of a field of which [x] is left, [x] being next in the log. *)
Lemma block_chunk_run (var : sparkey_logiter → Z) (set_var : Z → sparkey_logiter → sparkey_logiter)
    s i maxlen x post :
  (∀ j, set_var (var j) j = j) → (∀ j, same_entry i j → var j = var i) →
  comp_ready i → i_state i = SPARKEY_ITER_ACTIVE → at_stream s i →
  drop (Z.to_nat s) stream = x ++ post → var i = zlen x → 0 < maxlen →
  ∃ m i', sparkey_logiter_chunk log maxlen var set_var i =
      (Ok (take m x), set_var (zlen x - Z.of_nat m) i') ∧
    (m ≤ length x)%nat ∧ Z.of_nat m ≤ maxlen ∧ (m = 0%nat → x = []) ∧ moved (s + Z.of_nat m) i i'.
Proof.
  intros Hset Hvar Hr Hst Hat Hx Hv Hmax. unfold sparkey_logiter_chunk.
  assert (Ho : iter_open fid i) by apply Hr.
  rewrite (bind_Ok _ _ _ _ _ (comp_assert i Ho)), bind_getS.
  rewrite decide_False by (rewrite Hst; tauto). case_decide as Hpos.
  2:{ assert (x = []) as -> by (apply nil_length_inv; lia). exists 0%nat, i. cbn [length] in *.
      split_and!; [|lia|lia|done|rewrite Z.add_0_r; by apply moved_refl].
      unfold mret, M_ret. do 2 f_equal. by rewrite Z.sub_0_r, <- Hv, Hset. }
  assert (Hs0 : 0 ≤ s) by (destruct Hat as (k & _ & ? & ->); unfold block_start; lia).
  assert (Hs : s + zlen x ≤ zlen stream).
  { apply (f_equal length) in Hx. rewrite length_drop, length_app in Hx. lia. }
  destruct (ensure_advance s i Hr Hat ltac:(lia)) as (j & He & Hatj & Hrj & Hsame & Hav & Hbj & Hlj & Hmv).
  rewrite (bind_Ok _ _ _ _ _ He), bind_getS. rewrite (Hvar j Hsame), Hv. rewrite (u64_id (_ - _)) by lia.
  cbv zeta. set (mz := min64 maxlen _).
  assert (Hm : 0 < mz ≤ maxlen ∧ mz ≤ zlen x ∧ mz ≤ i_block_len j - i_block_offset j)
    by (unfold mz, min64; repeat case_decide; lia).
  rewrite decide_False by lia. replace mz with (Z.of_nat (Z.to_nat mz)) by lia.
  rewrite (buffer_bytes s j x post) by (done || lia). rewrite bind_of_opt, bind_upd.
  exists (Z.to_nat mz), (set_block_offset (i_block_offset j + mz) j).
  split_and!; [|lia|lia|lia|rewrite Z2Nat.id by lia; apply Hmv; lia].
  unfold mret, M_ret. rewrite (Hvar j Hsame), Hv, u64_id by lia. by rewrite Z2Nat.id by lia.
Qed.
End Blocks.
