(* ===== verification/BlockCursor.v ===== *)
(** * The iterator over a compressed log

    The iterator of logreader.c over a compressed log implements [LogCursor]: an
    entry is addressed by the position of the block in which its group starts and
    by its index there, and every client of the interface works on it unchanged. *)

From stdpp Require Import base gmap list strings numbers.
From Stdlib Require Import ZArith Lia.
From S2P Require Import Prelude ReturnCodes OS Vlq LogHeader Buf Compress LogFormat LogWriter.
From S2P Require Import LogReader LogCursor PlainLog BlockFormat BlockReader.

Local Open Scope Z_scope.

Section Cursor.
Context {C : Codec} (P : block_params) (HP : params_ok P) (fid : Z) (gs : groups).
Context (log : sparkey_logreader) (Hlog : comp_log P fid gs log) (Hok : comp_ok P gs).
Local Abbreviation es := (concat gs).
Local Abbreviation bs := (bp_size P).
Local Abbreviation blocks := (blocks_of bs gs).
Local Abbreviation pos := (block_pos P blocks).
Local Abbreviation start := (block_start bs gs).
Local Abbreviation stream := (log_body es).
Local Abbreviation ready := (comp_ready P fid gs).
Local Abbreviation in_block := (loaded P gs).
Local Abbreviation on_stream := (at_stream P gs).
Local Abbreviation moves := (moved P fid gs).
Local Abbreviation block := (block_of bs gs).
Local Abbreviation index := (index_of gs).
Local Abbreviation offset := (offset_of gs).

(** Where entry [n] starts among the bytes of the entries, and where its key does. *)
Definition entry_pos (n : nat) : Z := zlen (log_body (take n es)).
Definition key_pos (n : nat) (e : entry) : Z := entry_pos n + zlen (entry_prefix e).

(** ** Places *)

Lemma bs_pos : 0 < bs.
Proof. pose proof (size_range P HP). lia. Qed.

Lemma entry_pos_S n e :
  es !! n = Some e → entry_pos (S n) = key_pos n e + zlen (entry_key e) + zlen (entry_value e).
Proof.
  intros He. unfold key_pos, entry_pos. rewrite (take_S_r _ _ _ He), log_body_app, log_body_one.
  unfold encode_entry. rewrite !length_app. lia.
Qed.

Lemma entry_pos_end : entry_pos (length es) = zlen stream.
Proof. unfold entry_pos. by rewrite firstn_all. Qed.

Lemma entry_pos_le n : entry_pos n ≤ zlen stream.
Proof.
  unfold entry_pos. rewrite <- (take_drop n es) at 2. rewrite log_body_app, length_app. lia.
Qed.

(** The bytes from an entry on. *)
Lemma entry_bytes n e :
  es !! n = Some e →
  drop (Z.to_nat (entry_pos n)) stream =
    entry_prefix e ++ entry_key e ++ entry_value e ++ log_body (drop (S n) es).
Proof.
  intros He. unfold entry_pos. rewrite Nat2Z.id. rewrite <- (take_drop_middle es n e He) at 2.
  rewrite log_body_app, drop_app_length. change (e :: drop (S n) es) with ([e] ++ drop (S n) es).
  rewrite log_body_app, log_body_one. unfold encode_entry. by rewrite <- !app_assoc.
Qed.

Lemma entry_ok_at n e :
  es !! n = Some e → entry_ok e ∧ zlen (entry_key e) + zlen (entry_value e) < 2 ^ 62.
Proof. intros He%list_elem_of_lookup_2. apply log_ok_entry with es; [apply Hok|done]. Qed.

(** The block of an entry, and the entry in it. *)
Lemma entry_place n e :
  es !! n = Some e →
  ∃ b, blocks !! block n = Some b ∧ (block n < length blocks)%nat ∧ zlen b ≤ bs ∧
    entry_pos n = start (block n) + offset n ∧ 0 ≤ offset n ∧ key_pos n e ≤ start (S (block n)) ∧
    start (S (block n)) = start (block n) + zlen b.
Proof.
  intros He. destruct (place_spec bs bs_pos gs (groups_ok P gs Hok) n e He)
    as (g & b & Hb & _ & _ & _ & Hoff & Hstart & Hfit).
  destruct (block_ok P HP gs Hok _ _ Hb) as (_ & Hsz & _). exists b.
  rewrite (block_start_S bs gs _ _ Hb). unfold key_pos, entry_pos.
  split_and!; [done|by eapply lookup_lt_Some|done|lia|rewrite Hoff; lia|lia|done].
Qed.

(** Only the first entry of a block starts at its beginning. *)
Lemma offset_zero n e : es !! n = Some e → (offset n = 0 ↔ index n = 0%nat).
Proof.
  intros He. destruct (place_spec bs bs_pos gs (groups_ok P gs Hok) n e He)
    as (g & b & _ & _ & Hi & _ & Hoff & _). rewrite Hoff.
  pose proof (log_body_count (take (index n) g)) as Hc. apply lookup_lt_Some in Hi.
  rewrite length_take in Hc. split; [lia|intros ->; done].
Qed.

Lemma index_range n e : es !! n = Some e → 0 ≤ Z.of_nat (index n) < 2 ^ 30.
Proof.
  intros He. pose proof (index_of_bound bs bs_pos gs (groups_ok P gs Hok) n e He).
  pose proof (size_range P HP). lia.
Qed.

(** The first entry of all is at the start of the first block. *)
Lemma first_place e : es !! 0%nat = Some e → block 0%nat = 0%nat ∧ index 0%nat = 0%nat.
Proof.
  intros He. destruct (place_first bs bs_pos gs (groups_ok P gs Hok) 0 e He) as (Hle & _ & Hi & _ & Hs).
  split; [|lia]. rewrite take_0 in Hs. change (zlen (log_body [])) with 0 in Hs.
  destruct (entry_place 0 e He) as (_ & _ & Hlt & _). destruct (decide (block 0%nat = 0%nat)); [done|].
  pose proof (start_lt P HP gs Hok 0 (block 0%nat) ltac:(lia) ltac:(lia)) as Hl.
  unfold block_start in Hl at 1. cbn in Hl. lia.
Qed.

(** ** States *)

(** On entry [n]: when the next one is in the same group, the iterator is still in
    the block and knows the index. *)
Definition comp_on (n : nat) (e : entry) (i : sparkey_logiter) : Prop :=
  es !! n = Some e ∧ describes e i ∧ ready i ∧ 0 < i_block_offset i ∧
  i_entry_block_position i = pos (block n) ∧
  i_entry_block_offset i = offset n + zlen (entry_prefix e) ∧
  (index (S n) ≠ 0%nat → in_block (block n) i ∧ i_entry_count i = Z.of_nat (index n)).

Definition comp_key (n off : nat) (i : sparkey_logiter) : Prop :=
  ∃ e, comp_on n e i ∧ (off ≤ length (entry_key e))%nat ∧
    on_stream (key_pos n e + Z.of_nat off) i ∧
    i_key_remaining i = zlen (entry_key e) - Z.of_nat off ∧
    i_value_remaining i = zlen (entry_value e).

Definition comp_value (n off : nat) (i : sparkey_logiter) : Prop :=
  ∃ e, comp_on n e i ∧ (off ≤ length (entry_value e))%nat ∧
    on_stream (key_pos n e + zlen (entry_key e) + Z.of_nat off) i ∧
    i_key_remaining i = 0 ∧ i_value_remaining i = zlen (entry_value e) - Z.of_nat off.

(** Nothing of an entry is left: at the start of the log, at the start of a block
    or behind an entry. *)
Definition comp_pos (n : nat) (i : sparkey_logiter) : Prop :=
  (n = 0%nat ∧ i_block_position i = 0 ∧ i_next_block_position i = LOG_HEADER_SIZE ∧
   i_block_offset i = 0 ∧ i_block_len i = 0) ∨
  (is_Some (es !! n) ∧ index n = 0%nat ∧ in_block (block n) i ∧ i_block_offset i = 0 ∧
   i_entry_count i = -1) ∨
  (on_stream (entry_pos n) i ∧ 0 < i_block_offset i ∧
   (index n ≠ 0%nat → in_block (block n) i ∧ i_entry_count i = Z.of_nat (index n) - 1)).

Definition comp_before (n : nat) (i : sparkey_logiter) : Prop :=
  (i_state i = SPARKEY_ITER_NEW ∧ ready i ∧ comp_pos n i ∧ (n ≤ length es)%nat) ∨
  (∃ m off, n = S m ∧ (comp_key m off i ∨ comp_value m off i)).

(** Moving inside an entry. *)
Lemma comp_on_moved n e s i i' :
  comp_on n e i → moves s i i' → s ≤ entry_pos (S n) → comp_on n e i'.
Proof.
  intros (He & Hd & Hr & Hbo & Hep & Heo & Hnext) (_ & Hr' & Hsame & Ho & Hin) Hs.
  destruct Hsame as (_ & _ & Hep' & Heo' & Hty & Hst & Hkl & Hvl & _).
  destruct Hd as (? & ? & ? & ?).
  split_and!; [done| |done|by apply Ho|congruence|congruence|].
  { split_and!; congruence. }
  intros Hi. destruct (Hnext Hi) as [Hb Hc].
  destruct (place_next bs bs_pos gs (groups_ok P gs Hok) n e He Hi) as (_ & _ & b & Hbb & Hfit).
  destruct (Hin _ Hb) as [Hb' Hc']; [|split; [done|congruence]].
  destruct (entry_place n e He) as (b' & Hb2 & _ & _ & Hpos & _ & _ & Hend). assert (b' = b) as -> by congruence.
  rewrite (entry_pos_S n e He) in Hs. unfold key_pos, encode_entry in *. rewrite !length_app in Hfit. lia.
Qed.

(** ** Moving to the next entry *)

(** The place of an entry among the bytes decides its block, from inside. *)
Lemma ensure_entry n e i :
  ready i → comp_pos n i → es !! n = Some e →
  ∃ j, ensure_available log i = (Ok tt, j) ∧ in_block (block n) j ∧ ready j ∧
    i_block_offset j = offset n ∧ i_entry_count j = Z.of_nat (index n) - 1.
Proof.
  intros Hr Hpos He. destruct (entry_place n e He) as (b & Hb & Hk & Hsz & Hs & Ho & Hend & HS).
  pose proof (entry_prefix_pos e) as Hpre. unfold key_pos in Hend.
  assert (Hload : ∀ k, (k < length blocks)%nat → ¬ i_block_offset i < i_block_len i →
    i_next_block_position i = pos k → k = block n → index n = 0%nat →
    ∃ j, ensure_available log i = (Ok tt, j) ∧ in_block (block n) j ∧ ready j ∧
      i_block_offset j = offset n ∧ i_entry_count j = Z.of_nat (index n) - 1).
  { intros k Hkb Hge Hnext -> Hi.
    destruct (ensure_load P HP fid gs log Hlog Hok _ i Hr Hkb Hge Hnext) as (j & He' & Hj & Hz & Hsame & Hc).
    pose proof (proj2 (offset_zero n e He) Hi). exists j. split_and!; [done|done| |lia|lia].
    apply (loaded_ready P fid gs (block n)); [|done]. destruct Hr as ([? ?] & _), Hsame as (? & ? & _).
    split; congruence. }
  destruct Hpos as [(-> & Hbp & Hnb & Hbo & Hbl)|[(_ & Hi & Hl & Hz & Hc)|(Hat & Hbo & Hnext)]].
  - destruct (first_place e He) as [Hb0 Hi0]. apply (Hload 0%nat); [lia|lia| |done|done].
    by rewrite Hnb.
  - exists i. pose proof (proj2 (offset_zero n e He) Hi).
    assert (i_block_len i = zlen b) by (destruct Hl as (b' & _ & Hb' & _ & _ & _ & _ & ->); congruence).
    rewrite (ensure_stay log) by lia. split_and!; [done|done|done|lia|lia].
  - destruct (decide (i_block_offset i < i_block_len i)) as [Hlt|Hge].
    + destruct (at_stream_inside P HP gs Hok (entry_pos n) i (block n) Hat Hlt Hk ltac:(lia)) as [Hl Hoff].
      exists i. rewrite (ensure_stay log) by done.
      assert (Hi : index n ≠ 0%nat) by (intros Hi; apply (offset_zero n e He) in Hi; lia).
      destruct (Hnext Hi) as [_ Hc]. split_and!; [done|done|done|lia|done].
    + destruct Hat as (k & Hl & Hle & Heq). destruct (loaded_lt P gs k i Hl) as [Hkb HSk].
      assert (Hb1 : block n = S k).
      { destruct (lt_eq_lt_dec (block n) (S k)) as [[Hlt|]|Hlt]; [|done|].
        - pose proof (start_le P HP gs Hok (S (block n)) (S k) ltac:(lia) ltac:(lia)). lia.
        - pose proof (start_lt P HP gs Hok (S k) (block n) ltac:(lia) ltac:(lia)). lia. }
      apply (Hload (S k)); [lia|done| |done|].
      * by destruct Hl as (? & ? & _ & _ & _ & _ & ? & _).
      * apply (offset_zero n e He). rewrite Hb1 in Hs. lia.
Qed.

Lemma ensure_at_end i :
  ready i → comp_pos (length es) i →
  ∃ j, ensure_available log i = (Ok tt, j) ∧ i_block_len j - i_block_offset j = 0 ∧ ready j.
Proof.
  intros Hr Hpos. unfold ensure_available. rewrite bind_getS, (comp_data_end P fid gs log Hlog).
  assert (Hend : ¬ i_block_offset i < i_block_len i ∧ i_next_block_position i = comp_end P gs).
  { destruct Hpos as [(Hz & Hbp & Hnb & Hbo & Hbl)|[([? Hs] & _)|(Hat & Hbo & _)]].
    - split; [lia|]. rewrite Hnb, <- (pos_end P gs). apply nil_length_inv in Hz.
      pose proof (start_end P gs) as Hse. rewrite Hz in Hse. change (zlen (log_body [])) with 0 in Hse.
      destruct (length blocks) as [|nb] eqn:Enb; [done|].
      pose proof (start_lt P HP gs Hok 0 (S nb) ltac:(lia) ltac:(lia)) as Hlt.
      unfold block_start in Hlt at 1. cbn in Hlt. lia.
    - apply lookup_lt_Some in Hs. lia.
    - destruct Hat as (k & Hl & Hle & Heq). destruct (loaded_lt P gs k i Hl) as [Hkb HSk].
      rewrite entry_pos_end, <- (start_end P gs) in Heq.
      pose proof (start_le P HP gs Hok (S k) (length blocks) ltac:(lia) ltac:(lia)). split; [lia|].
      destruct (decide (S k = length blocks)) as [E|E].
      + destruct Hl as (? & ? & _ & _ & _ & _ & -> & _). by rewrite E, (pos_end P gs).
      + pose proof (start_lt P HP gs Hok (S k) (length blocks) ltac:(lia) ltac:(lia)). lia. }
  destruct Hend as [Hge Hnb]. rewrite decide_False by done. rewrite decide_True by lia.
  eexists. split; [done|]. split; [done|]. destruct Hr as (Hopen & Hbuf & _). split_and!; [done|done|by left].
Qed.

(** Reading a number from the buffer. *)
Lemma buffer_vlq i buf pre v post :
  i_compression_buf i = CbOwn buf → buf = pre ++ write_vlq v ++ post → zlen pre = i_block_offset i →
  0 ≤ v < 2 ^ 64 →
  iter_read_vlq log i = (Ok v, set_block_offset (i_block_offset i + zlen (write_vlq v)) i).
Proof.
  intros Hc -> Hpre Hv. unfold iter_read_vlq. rewrite bind_getS, Hc, <- Hpre, read_vlq_app by done.
  by rewrite bind_of_opt, bind_upd.
Qed.

(** The two numbers of the entry. *)
Lemma buffer_prefix {B} n e i (k : MI B) :
  es !! n = Some e → in_block (block n) i → i_block_offset i = offset n →
  (a ← iter_read_vlq log; b ← iter_read_vlq log; _ ← upd (set_lengths a b); k) i =
    k (with_entry e (set_block_offset (offset n + zlen (entry_prefix e)) i)).
Proof.
  intros He (b & junk & Hb & Hc & _) Ho.
  destruct (entry_place n e He) as (b' & Hb' & Hk & _ & Hs & Hoff & Hend & HS).
  assert (b' = b) as -> by congruence. unfold key_pos in Hend.
  destruct (entry_ok_at n e He) as [_ Hsz].
  destruct (entry_numbers e Hsz) as (a1 & a2 & Hp & Ha1 & Ha2 & Hset).
  assert (Hbuf : ∃ post, b ++ junk = take (Z.to_nat (offset n)) b ++ entry_prefix e ++ post).
  { destruct (stream_at P gs _ b Hb) as [rest Hrest]. pose proof (entry_bytes n e He) as Hbytes.
    assert (0 ≤ start (block n)) by (unfold block_start; lia).
    rewrite Hs, Z2Nat.inj_add, <- drop_drop, Hrest, drop_app_le in Hbytes by lia.
    apply (f_equal (take (length (entry_prefix e)))) in Hbytes.
    rewrite take_app_length, take_app_le in Hbytes by (rewrite length_drop; lia).
    exists (drop (length (entry_prefix e)) (drop (Z.to_nat (offset n)) b) ++ junk).
    rewrite <- Hbytes at 1. rewrite (app_assoc (take (length (entry_prefix e)) _)), take_drop.
    by rewrite app_assoc, take_drop. }
  destruct Hbuf as [post Hbuf]. rewrite Hp, <- app_assoc in Hbuf.
  rewrite (bind_Ok _ _ _ _ _ (buffer_vlq i _ _ _ _ Hc Hbuf ltac:(rewrite length_take; lia) Ha1)).
  rewrite app_assoc in Hbuf. set (i1 := set_block_offset _ i).
  rewrite (bind_Ok _ _ _ _ _ (buffer_vlq i1 _ _ _ _ Hc Hbuf
    ltac:(rewrite length_app, length_take; cbn; lia) Ha2)).
  rewrite bind_upd, Hset. do 2 f_equal. unfold i1. rewrite Hp, length_app. cbn [i_block_offset set_block_offset].
  unfold set_block_offset. cbn. f_equal. lia.
Qed.

Lemma next_entry_comp n e i :
  ready i → comp_pos n i → es !! n = Some e →
  ∃ i', next_entry log i = (Ok tt, i') ∧ comp_key n 0 i' ∧
    i_block_position i' = pos (block n) ∧ i_entry_count i' = Z.of_nat (index n).
Proof.
  intros Hr Hpos He. destruct (ensure_entry n e i Hr Hpos He) as (j & Hen & Hj & Hrj & Ho & Hc).
  destruct (entry_place n e He) as (b & Hb & Hk & Hsz & Hs & Hoff & Hend & HS). unfold key_pos in Hend.
  pose proof (entry_prefix_pos e) as Hpre. pose proof (index_range n e He).
  assert (Hl : i_block_len j = zlen b) by (destruct Hj as (b' & ? & Hb' & _ & _ & _ & _ & ->); congruence).
  assert (Hp : i_block_position j = pos (block n)) by (by destruct Hj as (? & ? & _ & _ & _ & ? & _)).
  unfold next_entry. rewrite (bind_Ok _ _ _ _ _ Hen), bind_getS. rewrite decide_False by lia.
  rewrite decide_False.
  2:{ intros Hnone. pose proof (comp_uses P HP fid gs log Hlog) as Hu. by rewrite Hnone in Hu. }
  rewrite bind_ret, bind_upd, Hc. replace (Z.of_nat (index n) - 1 + 1) with (Z.of_nat (index n)) by lia.
  rewrite (s32_id (Z.of_nat _)) by lia. set (j1 := set_entry_count _ j).
  assert (Hj1 : in_block (block n) j1) by done.
  rewrite (buffer_prefix n e j1 _ He Hj1 Ho), bind_upd. eexists. split; [done|].
  split; [|by split]. exists e. split; [|split_and!; [lia| |cbn; lia|done]].
  - split_and!; try done. cbn. lia.
  - exists (block n). split; [done|]. cbn. unfold key_pos. lia.
Qed.

Lemma next_entry_at_end i :
  ready i → comp_pos (length es) i →
  ∃ i', next_entry log i = (Ok tt, i') ∧ i_state i' = SPARKEY_ITER_CLOSED ∧ ready i'.
Proof.
  intros Hr Hpos. destruct (ensure_at_end i Hr Hpos) as (j & He & Hz & Hj).
  unfold next_entry. rewrite (bind_Ok _ _ _ _ _ He), bind_getS, decide_True by done. by eexists.
Qed.

(** ** The operations *)

(** The stream position of the end of an entry is reached by skipping what is left. *)
Lemma skip_entry m off i :
  comp_key m off i ∨ comp_value m off i →
  ∃ e s, comp_on m e i ∧ on_stream s i ∧ 0 ≤ i_key_remaining i ∧ 0 ≤ i_value_remaining i ∧
    s + i_key_remaining i + i_value_remaining i = entry_pos (S m).
Proof.
  intros [(e & Hon & Hoff & Hat & Hk & Hv)|(e & Hon & Hoff & Hat & Hk & Hv)]; destruct Hon as (He & Hon);
    exists e; eexists; (split; [by split|]); (split; [exact Hat|]); rewrite (entry_pos_S m e He); lia.
Qed.

Lemma next_comp n i :
  comp_before n i →
  ∃ i', ready i' ∧ comp_pos n i' ∧ sparkey_logiter_next log i = next_entry log i'.
Proof.
  intros Hb. unfold sparkey_logiter_next. rewrite bind_getS.
  destruct Hb as [(Hnew & Hr & Hpos & _)|(m & off & -> & Hk)].
  - rewrite decide_False by (by rewrite Hnew). rewrite bool_decide_false by (by rewrite Hnew).
    rewrite bind_upd. set (i1 := set_valuelen 0 _). assert (Hr1 : ready i1) by done.
    assert (Ho1 : iter_open fid i1) by apply Hr1.
    rewrite (bind_Ok _ _ _ _ _ (comp_assert P fid gs log Hlog i1 Ho1)). by exists i1.
  - destruct (skip_entry m off i Hk) as (e & s & Hon & Hat & Hkr & Hvr & Hsum).
    destruct Hon as (He & (Hst & _) & Hr & Hbo & _ & _ & Hin).
    rewrite decide_False by (by rewrite Hst). rewrite bool_decide_true by done.
    rewrite bind_upd. set (i1 := set_valuelen 0 _). assert (Hr1 : ready i1) by done.
    assert (Ho1 : iter_open fid i1) by apply Hr1.
    rewrite (bind_Ok _ _ _ _ _ (comp_assert P fid gs log Hlog i1 Ho1)).
    pose proof (entry_pos_le (S m)) as Hle. assert (Hat1 : on_stream s i1) by done.
    destruct (block_skip_run P HP fid gs log Hlog Hok s i1 (i_key_remaining i) Hr1 Hat1 Hkr ltac:(lia))
      as (i2 & Hs2 & Hm2). rewrite (bind_Ok _ _ _ _ _ Hs2).
    destruct (block_skip_run P HP fid gs log Hlog Hok _ i2 (i_value_remaining i) ltac:(apply Hm2) ltac:(apply Hm2) Hvr
      ltac:(lia)) as (i3 & Hs3 & Hm3). rewrite (bind_Ok _ _ _ _ _ Hs3).
    assert (Hm : moves (entry_pos (S m)) i1 i3).
    { rewrite <- Hsum. eapply moved_trans; [|exact Hm2|exact Hm3]. lia. }
    destruct Hm as (Hat3 & Hr3 & _ & Ho3 & Hc3). exists i3. split_and!; [done| |done].
    right; right. split; [done|]. split; [by apply Ho3|]. intros Hi.
    destruct (place_next bs bs_pos gs (groups_ok P gs Hok) m e He Hi) as (Hidx & Hblk & b & Hb & Hfit).
    destruct (Hin Hi) as [Hl Hc]. rewrite Hblk, Hidx.
    destruct (entry_place m e He) as (b' & Hb' & _ & _ & Hp & _ & _ & HS). assert (b' = b) as -> by congruence.
    destruct (Hc3 (block m)) as [Hl3 Hn3]; [done| |split; [done|]].
    + rewrite (entry_pos_S m e He), HS. unfold key_pos, encode_entry in *. rewrite !length_app in Hfit. lia.
    + rewrite Hn3. change (i_entry_count i1) with (i_entry_count i). lia.
Qed.

Lemma next_comp_at n e i :
  comp_before n i → es !! n = Some e →
  ∃ i', sparkey_logiter_next log i = (Ok tt, i') ∧ comp_key n 0 i' ∧
    i_block_position i' = pos (block n) ∧ i_entry_count i' = Z.of_nat (index n).
Proof.
  intros Hb He. destruct (next_comp n i Hb) as (i1 & Hr & Hpos & ->). by apply next_entry_comp with e.
Qed.

Lemma skip_entries_comp c : ∀ n i,
  comp_before n i → (n + c ≤ length es)%nat →
  ∃ i', skip_entries c log i = (Ok tt, i') ∧ comp_before (n + c) i'.
Proof.
  induction c as [|c IH]; intros n i Hb Hle; cbn [skip_entries].
  - exists i. by rewrite Nat.add_0_r.
  - destruct (lookup_lt_is_Some_2 es n) as [e He]; [lia|].
    destruct (next_comp_at n e i Hb He) as (i1 & Hn & Hk & _). rewrite (bind_Ok _ _ _ _ _ Hn).
    destruct (IH (S n) i1) as (i' & Hs & Hb'); [right; exists n, 0%nat; by split; [|left]|lia|].
    exists i'. by rewrite <- Nat.add_succ_comm.
Qed.

(** Seeking finds the first entry of a group. *)
Lemma seek_comp n e i :
  ready i → es !! n = Some e → index n = 0%nat →
  ∃ i', sparkey_logiter_seek log (pos (block n)) i = (Ok tt, i') ∧ comp_before n i'.
Proof.
  intros Hr He Hi. destruct (entry_place n e He) as (b & _ & Hk & _). assert (Ho : iter_open fid i) by apply Hr.
  pose proof (pos_lt P HP gs Hok (block n) (length blocks) Hk ltac:(lia)) as Hend. rewrite pos_end in Hend.
  destruct (seekblock_load P HP fid gs log Hlog Hok (block n) i Hr Hk) as (i1 & Hs & Hl & Hz & Hsame & _).
  exists (set_state SPARKEY_ITER_NEW (set_entry_count (-1) i1)). split.
  - unfold sparkey_logiter_seek. rewrite (bind_Ok _ _ _ _ _ (comp_assert P fid gs log Hlog i Ho)).
    rewrite (comp_data_end P fid gs log Hlog), decide_False by lia.
    by rewrite (bind_Ok _ _ _ _ _ Hs).
  - left. split_and!; [done| | |by apply Nat.lt_le_incl, lookup_lt_is_Some].
    + apply (loaded_ready P fid gs (block n)); [|done]. destruct Ho, Hsame as (? & ? & _). split; cbn; congruence.
    + right; left. by split_and!.
Qed.

(** Skipping finds the entry in the group. *)
Lemma fetch_comp n e i :
  ready i → es !! n = Some e →
  ∃ i', fetch_entry log (pos (block n)) (Z.of_nat (index n)) i = (Ok tt, i') ∧ comp_key n 0 i'.
Proof.
  intros Hr He.
  destruct (place_first bs bs_pos gs (groups_ok P gs Hok) n e He) as (Hle & [e0 Hs0] & Hi0 & Hb0 & _).
  set (n0 := (n - index n)%nat) in *. unfold fetch_entry.
  destruct (seek_comp n0 e0 i Hr Hs0 Hi0) as (i2 & Hseek & Hb). rewrite Hb0 in Hseek.
  rewrite (bind_Ok _ _ _ _ _ Hseek). unfold sparkey_logiter_skip. rewrite Nat2Z.id.
  pose proof (lookup_lt_Some _ _ _ He).
  destruct (skip_entries_comp (index n) n0 i2 Hb ltac:(lia)) as (i3 & Hsk & Hb3).
  rewrite (bind_Ok _ _ _ _ _ Hsk). replace (n0 + index n)%nat with n in Hb3 by lia.
  destruct (next_comp_at n e i3 Hb3 He) as (i' & Hn & Hkey & _). by exists i'.
Qed.

Lemma reset_comp n e i :
  comp_on n e i → ∃ i', sparkey_logiter_reset log i = (Ok tt, i') ∧ comp_key n 0 i'.
Proof.
  intros (He & Hd & Hr & Hbo & Hep & Heo & Hin). destruct (entry_place n e He) as (b & Hb & Hk & _ & Hp & Hoff & Hend & HS).
  pose proof (entry_prefix_pos e). unfold key_pos in Hend.
  unfold sparkey_logiter_reset. rewrite bind_getS. rewrite decide_False by (destruct Hd as (-> & _); tauto).
  rewrite Hep. destruct (seekblock_load P HP fid gs log Hlog Hok (block n) i Hr Hk)
    as (i1 & Hs1 & Hl & Hz & Hsame & Hc). rewrite (bind_Ok _ _ _ _ _ Hs1).
  eexists. split; [done|].
  assert (Hlen : i_block_len i1 = zlen b) by (destruct Hl as (b' & ? & Hb' & _ & _ & _ & _ & ->); congruence).
  destruct Hr as ([? ?] & _), Hsame as (? & ? & Hep1 & Heo1 & Hty & Hst & Hkl & Hvl & _), Hd as (? & ? & ? & ?).
  exists e. split; [|split_and!; [lia| |cbn; lia|cbn; congruence]].
  - split_and!; cbn; [done| | |lia|congruence|congruence|].
    + split_and!; cbn; congruence.
    + apply (loaded_ready P fid gs (block n)); [|done]. split; cbn; congruence.
    + intros Hi. destruct (Hin Hi) as [_ Hc0]. split; [done|congruence].
  - exists (block n). split; [done|]. cbn. unfold key_pos. lia.
Qed.

(** *** Chunks *)

Lemma same_key_remaining i j : same_entry i j → i_key_remaining j = i_key_remaining i.
Proof. by intros (_ & _ & _ & _ & _ & _ & _ & _ & ? & _). Qed.

Lemma same_value_remaining i j : same_entry i j → i_value_remaining j = i_value_remaining i.
Proof. by intros (_ & _ & _ & _ & _ & _ & _ & _ & _ & ?). Qed.

(** What is next in the log, inside a key and inside a value. *)
Lemma key_bytes n e off :
  es !! n = Some e → (off ≤ length (entry_key e))%nat →
  ∃ post, drop (Z.to_nat (key_pos n e + Z.of_nat off)) stream = drop off (entry_key e) ++ post.
Proof.
  intros He Hoff. exists (entry_value e ++ log_body (drop (S n) es)). unfold key_pos.
  assert (0 ≤ entry_pos n) by (unfold entry_pos; lia).
  replace (Z.to_nat _) with (Z.to_nat (entry_pos n) + (length (entry_prefix e) + off))%nat by lia.
  rewrite <- drop_drop, (entry_bytes n e He), <- drop_drop, drop_app_length. by rewrite drop_app_le by lia.
Qed.

Lemma value_bytes n e off :
  es !! n = Some e → (off ≤ length (entry_value e))%nat →
  ∃ post, drop (Z.to_nat (key_pos n e + zlen (entry_key e) + Z.of_nat off)) stream =
    drop off (entry_value e) ++ post.
Proof.
  intros He Hoff. exists (log_body (drop (S n) es)). unfold key_pos.
  assert (0 ≤ entry_pos n) by (unfold entry_pos; lia).
  replace (Z.to_nat _) with (Z.to_nat (entry_pos n) + (length (entry_prefix e ++ entry_key e) + off))%nat
    by (rewrite length_app; lia).
  rewrite <- drop_drop, (entry_bytes n e He), <- drop_drop, app_assoc, drop_app_length.
  by rewrite drop_app_le by lia.
Qed.

Lemma keychunk_comp n off e i maxlen :
  comp_key n off i → es !! n = Some e → 0 < maxlen →
  ∃ m i', sparkey_logiter_keychunk log maxlen i = (Ok (take m (drop off (entry_key e))), i') ∧
    (off + m ≤ length (entry_key e))%nat ∧ Z.of_nat m ≤ maxlen ∧
    (m = 0%nat → off = length (entry_key e)) ∧ comp_key n (off + m) i'.
Proof.
  intros (e' & Hon & Hoff & Hat & Hkr & Hvr) He Hmax. assert (e' = e) as -> by (destruct Hon; congruence).
  destruct (key_bytes n e off He Hoff) as [post Hbytes]. pose proof Hon as (_ & (Hst & _) & Hr & _).
  destruct (block_chunk_run P HP fid gs log Hlog Hok i_key_remaining set_key_remaining _ i maxlen _ post
    ltac:(by intros []) (same_key_remaining i) Hr Hst Hat Hbytes ltac:(rewrite length_drop; lia) Hmax)
    as (m & i' & Hrun & Hm & Hle & Hz & Hmv).
  rewrite length_drop in *. exists m. eexists. split; [exact Hrun|]. split_and!; [lia|lia| |].
  - intros H. specialize (Hz H). apply (f_equal length) in Hz. rewrite length_drop in Hz. cbn in Hz. lia.
  - assert (Hs : key_pos n e + Z.of_nat off + Z.of_nat m ≤ entry_pos (S n)) by (rewrite (entry_pos_S n e He); lia).
    pose proof (comp_on_moved n e _ i i' Hon Hmv Hs) as Hon'. destruct Hmv as (Hat' & _ & Hsame & _).
    exists e. split; [exact Hon'|]. split_and!; [lia| |cbn; lia|cbn].
    + rewrite Nat2Z.inj_add, Z.add_assoc. exact Hat'.
    + by rewrite (same_value_remaining i i' Hsame).
Qed.

Lemma valuechunk_comp n off e i maxlen :
  comp_value n off i → es !! n = Some e → 0 < maxlen →
  ∃ m i', sparkey_logiter_valuechunk log maxlen i = (Ok (take m (drop off (entry_value e))), i') ∧
    (off + m ≤ length (entry_value e))%nat ∧ Z.of_nat m ≤ maxlen ∧
    (m = 0%nat → off = length (entry_value e)) ∧ comp_value n (off + m) i'.
Proof.
  intros (e' & Hon & Hoff & Hat & Hkr & Hvr) He Hmax. assert (e' = e) as -> by (destruct Hon; congruence).
  destruct (value_bytes n e off He Hoff) as [post Hbytes]. pose proof Hon as (_ & (Hst & _) & Hr & _).
  unfold sparkey_logiter_valuechunk. rewrite bind_getS, Hkr, (bind_Ok _ _ _ _ _ (skip_zero log i)), bind_upd.
  assert (set_key_remaining 0 i = i) as -> by (rewrite <- Hkr; by destruct i).
  destruct (block_chunk_run P HP fid gs log Hlog Hok i_value_remaining set_value_remaining _ i maxlen _ post
    ltac:(by intros []) (same_value_remaining i) Hr Hst Hat Hbytes ltac:(rewrite length_drop; lia) Hmax)
    as (m & i' & Hrun & Hm & Hle & Hz & Hmv).
  rewrite length_drop in *. exists m. eexists. split; [exact Hrun|]. split_and!; [lia|lia| |].
  - intros H. specialize (Hz H). apply (f_equal length) in Hz. rewrite length_drop in Hz. cbn in Hz. lia.
  - assert (Hs : key_pos n e + zlen (entry_key e) + Z.of_nat off + Z.of_nat m ≤ entry_pos (S n))
      by (rewrite (entry_pos_S n e He); lia).
    pose proof (comp_on_moved n e _ i i' Hon Hmv Hs) as Hon'. destruct Hmv as (Hat' & _ & Hsame & _).
    exists e. split; [exact Hon'|]. split_and!; [lia| |cbn|cbn; lia].
    + rewrite Nat2Z.inj_add, Z.add_assoc. exact Hat'.
    + by rewrite (same_key_remaining i i' Hsame).
Qed.

(** Before its first value chunk, the iterator skips what is left of the key. *)
Lemma key_to_value_comp n off e i :
  comp_key n off i → es !! n = Some e →
  ∃ j, comp_value n 0 j ∧
    ∀ maxlen, sparkey_logiter_valuechunk log maxlen i = sparkey_logiter_valuechunk log maxlen j.
Proof.
  intros (e' & Hon & Hoff & Hat & Hkr & Hvr) He. assert (e' = e) as -> by (destruct Hon; congruence).
  pose proof (entry_pos_S n e He) as HS. pose proof (entry_pos_le (S n)) as Hle. pose proof Hon as (_ & _ & Hr & _).
  destruct (block_skip_run P HP fid gs log Hlog Hok _ i (i_key_remaining i) Hr Hat ltac:(lia) ltac:(lia)) as (i1 & Hs & Hmv).
  pose proof (comp_on_moved n e _ i i1 Hon Hmv ltac:(lia)) as Hon1. destruct Hmv as (Hat1 & _ & Hsame & _).
  exists (set_key_remaining 0 i1). split.
  - exists e. split; [exact Hon1|]. split_and!; [lia| |done|].
    + replace (key_pos n e + zlen (entry_key e) + Z.of_nat 0) with (key_pos n e + Z.of_nat off + i_key_remaining i) by lia.
      exact Hat1.
    + cbn. rewrite (same_value_remaining i i1 Hsame). lia.
  - intros maxlen. unfold sparkey_logiter_valuechunk. rewrite !bind_getS, (bind_Ok _ _ _ _ _ Hs).
    cbn [i_key_remaining set_key_remaining]. by rewrite (bind_Ok _ _ _ _ _ (skip_zero log _)), !bind_upd.
Qed.

Lemma create_comp o :
  os_sched o = [] →
  ∃ i, sparkey_logiter_create log o = (Ok i, o) ∧ comp_before 0 i ∧ ready i.
Proof.
  intros Hs. pose proof (size_range P HP). unfold sparkey_logiter_create, assert_log_open.
  rewrite decide_False by (destruct Hlog as (-> & _); tauto). rewrite bind_ret.
  rewrite (bind_Ok _ _ _ _ _ (sys_malloc_run o Hs)). cbn [negb]. rewrite (comp_uses P HP fid gs log Hlog).
  rewrite (bind_Ok _ _ _ _ _ (sys_malloc_run o Hs)). cbn [negb].
  eexists. split; [reflexivity|]. destruct Hlog as (_ & -> & _). cbn [lh_compression_block_size comp_header with_compression].
  set (i := LogIter _ _ _ _ _ _ _ _ _ _ _ _ _ _ _ _ _).
  assert (Hr : ready i).
  { split_and!; [done| |by left]. eexists. split; [done|]. rewrite length_replicate. lia. }
  split; [|done]. left. split_and!; [done|done| |lia]. by left.
Qed.

(** The iterator over a compressed log implements the interface. *)
Definition comp_cursor : LogCursor log es.
Proof using HP Hlog Hok.
  refine {|
    cur_block := λ n, pos (block n); cur_index := λ n, Z.of_nat (index n); cur_ready := ready;
    cur_before := comp_before; cur_key := comp_key; cur_value := comp_value |}.
  - apply entry_ok_at.
  - intros n off i (e & Hon & ? & _ & ? & ?). exists e. destruct Hon as (? & ? & _ & _ & ? & _). by split_and!.
  - intros n off i (e & Hon & ? & _ & _ & ?). exists e. destruct Hon as (? & ? & _). by split_and!.
  - by intros x i.
  - by intros n off i (e & (_ & _ & Hr & _) & _).
  - by intros n off i (e & (_ & _ & Hr & _) & _).
  - intros n off i Hk. right. eauto.
  - intros n off i Hk. right. eauto.
  - intros n e He. destruct (entry_place n e He) as (b & _ & Hk & _).
    rewrite (comp_data_end P fid gs log Hlog). destruct Hlog as (_ & -> & _).
    pose proof (pos_range P HP gs Hok (block n) ltac:(lia)).
    pose proof (pos_lt P HP gs Hok (block n) (length blocks) Hk ltac:(lia)) as Hend. rewrite pos_end in Hend.
    cbn. lia.
  - intros n1 n2 e1 e2 H1 H2 Hp Hi. destruct (entry_place n1 e1 H1) as (_ & _ & Hk1 & _).
    destruct (entry_place n2 e2 H2) as (_ & _ & Hk2 & _).
    apply (place_inj bs gs n1 n2 e1 e2); [done|done| |lia].
    by apply (pos_inj P HP gs Hok).
  - apply create_comp.
  - intros n e i Hb He. by apply next_comp_at with e.
  - intros i Hb. destruct (next_comp _ i Hb) as (i1 & Hr & Hpos & ->). by apply next_entry_at_end.
  - apply fetch_comp.
  - intros n off i (e & Hon & _). by eapply reset_comp.
  - intros n off i (e & Hon & _). by eapply reset_comp.
  - apply keychunk_comp.
  - intros n off e i maxlen Hk He Hmax. destruct (key_to_value_comp n off e i Hk He) as (j & Hj & Heq).
    destruct (valuechunk_comp n 0 e j maxlen Hj He Hmax) as (m & i' & Hc & Hm & Hle & Hz & Hk').
    rewrite Heq. rewrite drop_0 in Hc. cbn [Nat.add] in *.
    exists m, i'. split_and!; [done|done|done| |done]. intros H. by apply nil_length_inv, eq_sym, Hz.
  - apply valuechunk_comp.
Defined.

End Cursor.
