(* ===== verification/BlockWriter.v ===== *)
(** * Writing compressed logs

    The writer of logwriter.c on a compressed log: which blocks the bytes of the
    entries are cut into, and when a group of entries ends.  The writer keeps the
    log it has finished and the group it is filling ([add_group]). *)

From stdpp Require Import base gmap list strings numbers.
From Stdlib Require Import ZArith Lia.
From S2P Require Import Prelude ReturnCodes Endian OS Vlq LogHeader Buf Compress LogFormat.
From S2P Require Import LogWriter BlockFormat.

Local Open Scope Z_scope.

Section Writer.
Context {C : Codec} (P : block_params) (HP : params_ok P).
Local Abbreviation bs := (bp_size P).

(** ** The blocks *)

(** The finished blocks went to the file or its buffer, the bytes of the next one
    are in the block buffer. *)
Definition writing (ino : nat) (blocks : list (list Z)) (pending : list Z) (count : Z)
    (flushed : bool) (h : sparkey_logheader) (s : WS) : Prop :=
  w_open_status s.2 = MAGIC_VALUE_LOGWRITER ∧ w_header s.2 = h ∧ lh_compression_type h = bp_type P ∧
  w_block_buf s.2 = Buf bs pending ∧ zlen pending ≤ bs ∧ w_compressed s.2 = true ∧
  w_max_compressed_size s.2 = max_compressed_size (bp_compressor P) bs ∧
  w_entry_count s.2 = count ∧ w_flushed s.2 = flushed ∧ log_data ino s (packed P blocks).

(** What a flush does to the header. *)
Definition raise_max (count : Z) (h : sparkey_logheader) : sparkey_logheader :=
  if decide (count > s32 (lh_max_entries_per_block h))
  then set_lh_max_entries_per_block (u32 count) h else h.

Lemma raise_max_type count h : lh_compression_type (raise_max count h) = lh_compression_type h.
Proof. unfold raise_max. by case_decide. Qed.

Lemma flush_compressed_run ino blocks pending count fl h s :
  writing ino blocks pending count fl h s → bytes_ok pending →
  outcome ino s (λ _, writing ino (blocks ++ [pending]) [] 0 true (raise_max count h))
    (flush_compressed s).
Proof.
  intros (Hop & Hh & Hct & Hbb & Hlen & Hcp & Hmax & Hcnt & Hfl & Hd) Hok.
  pose proof HP as (Hcomp & Hbs & _).
  destruct (pack_spec P pending HP Hok Hlen) as (out & Hout & Hpack & _).
  destruct s as [o w]. cbn [fst snd] in *.
  unfold flush_compressed, upd_writer. rewrite !bind_on_snd. cbn [fst snd].
  set (w1 := set_w_entry_count 0 _).
  assert (Hw1 : w_header w1 = raise_max count h ∧ w_block_buf w1 = Buf bs pending ∧ w_compressed w1 = true ∧
    w_max_compressed_size w1 = max_compressed_size (bp_compressor P) bs ∧ w_fd w1 = w_fd w ∧
    w_open_status w1 = MAGIC_VALUE_LOGWRITER ∧ w_entry_count w1 = 0 ∧ w_flushed w1 = true ∧
    w_file_buf w1 = w_file_buf w).
  { unfold w1, raise_max. rewrite <- Hcnt, <- Hh. cbn [w_entry_count w_header set_w_flushed].
    case_decide; by split_and!. }
  clearbody w1. destruct Hw1 as (Hh1 & Hbb1 & Hcp1 & Hm1 & Hfd1 & Hop1 & Hc1 & Hf1 & Hfb1).
  unfold get_writer. rewrite bind_get_snd. cbn [snd]. rewrite Hh1, raise_max_type, Hct, Hcomp, bind_of_opt, Hcp1.
  cbn [negb]. rewrite Hbb1, Hm1. cbn [b_used]. rewrite Hout. erewrite bind_Ok; [|reflexivity].
  rewrite Hfd1. change (w_fd w) with (w_fd (o, w).2).
  assert (Hd1 : log_data ino (o, w1) (packed P blocks)).
  { destruct Hd as [Hb (c & Ho & Hc & Hl & Hdd)]. unfold log_data. cbn [fst snd] in *. rewrite Hfb1, Hfd1.
    split; [done|]. by exists c. }
  assert (Hfr : ∀ (B : Type) (Q : B → WS → Prop) p, outcome ino (o, w1) Q p → outcome ino (o, w) Q p).
  { intros B Q p Hp. unfold outcome in *. cbn [fst snd] in *. by rewrite Hfd1 in Hp. }
  apply Hfr. cbn [snd].
  eapply outcome_bind; [by eapply (outcome_buf_add ino (o, w1))|].
  intros _ s2 Hfd2 [[b2 Hs2] Hd2]. eapply outcome_bind; [eapply outcome_buf_add; [|exact Hd2]; cbn in *; congruence|].
  intros _ s3 Hfd3 [[b3 Hs3] Hd3]. apply outcome_upd; [done|].
  rewrite Hs2 in Hs3. cbn [snd] in Hs3.
  assert (Hpk : (packed P blocks ++ write_vlq (zlen out)) ++ out = packed P (blocks ++ [pending])).
  { rewrite packed_app. unfold packed at 2. cbn. rewrite Hpack, app_nil_r. by rewrite <- app_assoc. }
  rewrite Hpk in Hd3. split_and!; cbn [fst snd]; rewrite ?Hs3; cbn; try done; [by rewrite raise_max_type|by rewrite Hbb1|lia|].
  destruct Hd3 as [Hb (c & Ho & Hc & Hl & Hdd)]. rewrite Hs3 in *. split; [done|]. by exists c.
Qed.

(** The counts stay small. *)
Definition max_ok (h : sparkey_logheader) : Prop := 0 ≤ lh_max_entries_per_block h < 2 ^ 31.

Lemma raise_max_value count h :
  0 ≤ count < 2 ^ 31 → max_ok h →
  raise_max count h = set_lh_max_entries_per_block (Z.max (lh_max_entries_per_block h) count) h.
Proof.
  intros Hc Hh. unfold max_ok in Hh. unfold raise_max. rewrite s32_id by lia. case_decide.
  - by rewrite u32_id, Z.max_r by lia.
  - rewrite Z.max_l by lia. by destruct h.
Qed.

Lemma raise_max_ok count h : 0 ≤ count < 2 ^ 31 → max_ok h → max_ok (raise_max count h).
Proof. intros Hc Hh. rewrite raise_max_value by done. unfold max_ok in *. cbn. lia. Qed.

Lemma raise_max_twice count h :
  0 ≤ count < 2 ^ 31 → max_ok h → raise_max 0 (raise_max count h) = raise_max count h.
Proof.
  intros Hc Hh. rewrite (raise_max_value 0) by (lia || by apply raise_max_ok).
  rewrite raise_max_value by done. unfold max_ok in Hh. destruct h. cbn in *. unfold set_lh_max_entries_per_block.
  cbn. f_equal. lia.
Qed.

(** ** Adding bytes *)

(** With [l] added since the blocks [blocks]: full blocks went out, the rest is
    pending.  The first block that goes out counts the entries. *)
Definition filled (ino : nat) (blocks : list (list Z)) (l : list Z) (count : Z) (fl : bool)
    (h : sparkey_logheader) (s : WS) : Prop :=
  ∃ out p, chunks bs l = out ++ [p] ∧
    writing ino (blocks ++ out) p (if decide (out = []) then count else 0)
      (fl || bool_decide (out ≠ [])) (if decide (out = []) then h else raise_max count h) s.

Lemma compressed_add_loop_run ino fuel : ∀ data blocks p count fl h s,
  writing ino blocks p count fl h s → bytes_ok (p ++ data) → 0 ≤ count < 2 ^ 31 → max_ok h →
  (length data + (if decide (zlen p = bs)%Z then 1 else 0) < fuel)%nat →
  outcome ino s (λ _, filled ino blocks (p ++ data) count fl h) (compressed_add_loop fuel data s).
Proof.
  assert (Hbs : 10 ≤ bs) by (destruct HP as (_ & ? & _); lia).
  induction fuel as [|fuel IH]; intros data blocks p count fl h s Hw Hok Hc Hh Hfuel; [lia|].
  cbn [compressed_add_loop]. apply outcome_get. pose proof Hw as (Hop & Hhd & Hct & Hbb & Hlen & Hrest).
  rewrite Hbb. unfold buf_remaining. cbn [b_size b_used]. destruct (decide (bs - zlen p >= zlen data)) as [Hfit|Hover].
  - apply outcome_upd; [done|]. exists [], (p ++ data). rewrite chunks_small by (rewrite length_app; lia).
    split; [done|]. rewrite app_nil_r, orb_false_r. cbn. split_and!; cbn [fst snd]; try apply Hrest; try done.
    + by rewrite Hbb.
    + rewrite length_app. lia.
  - set (r := Z.to_nat (bs - zlen p)). assert (Hr : Z.of_nat r = bs - zlen p) by (unfold r; lia).
    assert (Htake : take (Z.to_nat bs) (p ++ data) = p ++ take r data).
    { rewrite take_app_ge by lia. do 2 f_equal. lia. }
    assert (Hdrop : drop (Z.to_nat bs) (p ++ data) = drop r data).
    { rewrite drop_app_ge by lia. f_equal. lia. }
    assert (Hw1 : writing ino blocks (p ++ take r data) count fl h
      (s.1, set_w_block_buf (buf_fill (take r data) (w_block_buf s.2)) s.2)).
    { split_and!; cbn [fst snd]; try apply Hrest; try done; [by rewrite Hbb|].
      rewrite length_app, length_take. lia. }
    apply (outcome_bind ino s _ _ (λ _, writing ino blocks (p ++ take r data) count fl h));
      [by apply outcome_upd|]. intros [] s1 _ Hw1'.
    assert (Hok1 : bytes_ok (p ++ take r data)) by (rewrite <- Htake; by apply bytes_ok_take).
    eapply outcome_bind; [by apply (flush_compressed_run _ _ _ _ _ _ _ Hw1')|]. intros [] s2 _ Hw2.
    assert (Hok2 : bytes_ok (drop r data)) by (rewrite <- Hdrop; by apply Forall_drop).
    eapply outcome_weaken; [apply (IH (drop r data) _ [] 0 true _ _ Hw2); [done|lia|by apply raise_max_ok|]|].
    { rewrite length_drop, decide_False by (cbn; lia). case_decide; lia. }
    intros [] s3 (out & q & Hch & Hw3). cbn [app] in Hch. exists ((p ++ take r data) :: out), q. split.
    { rewrite chunks_big by (rewrite ?length_app; lia). by rewrite Htake, Hdrop, Hch. }
    rewrite <- app_assoc in Hw3. cbn [app] in Hw3.
    rewrite (decide_False (P := (_ :: _) = [])), bool_decide_true, orb_true_r by done.
    rewrite raise_max_twice in Hw3 by done. by case_decide.
Qed.

Lemma compressed_add_run ino blocks l count fl h data s :
  filled ino blocks l count fl h s → bytes_ok (l ++ data) → 0 ≤ count < 2 ^ 31 → max_ok h →
  outcome ino s (λ _, filled ino blocks (l ++ data) count fl h) (compressed_add data s).
Proof.
  assert (Hbs : 10 ≤ bs) by (destruct HP as (_ & ? & _); lia).
  intros (out & p & Hch & Hw) Hok Hc Hh. unfold compressed_add.
  assert (Hp : bytes_ok (p ++ data)).
  { rewrite bytes_ok_app in *. destruct Hok as [Hl Hd]. split; [|done].
    rewrite <- (chunks_concat bs l), Hch, concat_app in Hl. cbn [concat] in Hl. rewrite app_nil_r in Hl.
    apply bytes_ok_app in Hl. tauto. }
  eapply outcome_weaken; [apply (compressed_add_loop_run _ _ _ _ _ _ _ _ _ Hw Hp)|].
  - destruct (decide (out = [])); lia.
  - destruct (decide (out = [])); [done|by apply raise_max_ok].
  - destruct (decide (zlen p = bs)); lia.
  - intros [] s' (out' & q & Hch' & Hw'). exists (out ++ out'), q.
    rewrite (chunks_extend bs l out p) by (done || lia). rewrite Hch', <- app_assoc. split; [done|].
    rewrite <- app_assoc in Hw'. destruct out as [|x out].
    + cbn [app] in *. by rewrite orb_false_r in Hw'.
    + rewrite !(decide_False (P := (x :: out) = [])) in Hw' by done.
      rewrite !(decide_False (P := (x :: out) ++ out' = [])) by done.
      rewrite (bool_decide_true ((x :: out) ++ out' ≠ [])), (bool_decide_true (x :: out ≠ [])) in * by done.
      rewrite !orb_true_r in *. rewrite raise_max_twice in Hw' by done.
      by destruct (decide (out' = [])).
Qed.

(** ** Adding entries *)

(** The state of the writer between entries, with the header [h] that counts them. *)
Definition in_group (ino : nat) (st : groups * list entry) (fl : bool) (h : sparkey_logheader) (s : WS) : Prop :=
  writing ino (blocks_of bs st.1) (log_body st.2) (zlen st.2) fl (with_compression P (max_group st.1) h) s.

Lemma raise_max_group count m h :
  0 ≤ count < 2 ^ 31 → 0 ≤ m < 2 ^ 31 →
  raise_max count (with_compression P m h) = with_compression P (Z.max m count) h.
Proof. intros Hc Hm. by rewrite raise_max_value. Qed.

Lemma filling_bounds st :
  filling_ok bs st → 0 ≤ max_group st.1 < 2 ^ 30 ∧ zlen st.2 < 2 ^ 30.
Proof.
  intros [Hgs Hg]. destruct HP as (_ & Hbs & _). pose proof (max_group_bound bs st.1 ltac:(lia) Hgs).
  pose proof (log_body_count st.2). lia.
Qed.

(** A flush between entries ends the group. *)
Lemma flush_group ino gs g fl h s :
  in_group ino (gs, g) fl h s → filling_ok bs (gs, g) → bytes_ok (log_body g) →
  outcome ino s (λ _, in_group ino (gs ++ [g], []) true h) (flush_compressed s).
Proof.
  intros Hw Hst Hok. destruct (filling_bounds _ Hst) as [Hm Hc]. destruct Hst as [_ Hg]. cbn [fst snd] in *.
  eapply outcome_weaken; [by apply (flush_compressed_run _ _ _ _ _ _ _ Hw)|].
  intros [] s' Hw'. unfold in_group. cbn [fst snd] in *.
  rewrite blocks_app, blocks_of_one, chunks_small by done. rewrite max_group_app, max_group_one.
  rewrite raise_max_group in Hw' by lia. exact Hw'.
Qed.

(** The entry is cut only if it does not fit, and the group ends with the cut. *)
Lemma finish_entry ino gs g (d : Z) h n s :
  filled ino (blocks_of bs gs) (log_body g) n false (with_compression P (max_group gs) h) s →
  n = zlen g → g ≠ [] → Forall entry_ok g → 0 ≤ max_group gs < 2 ^ 31 → 0 ≤ n < 2 ^ 31 →
  outcome ino s (λ a s', a = d ∧ ∃ fl', in_group ino (if decide (zlen (log_body g) ≤ bs) then (gs, g) else (gs ++ [g], [])) fl' h s')
    ((_ ← (if w_flushed s.2 && bool_decide (buf_used (w_block_buf s.2) > 0) then flush_compressed else mret tt);
      mret d) s).
Proof.
  intros (out & p & Hch & Hw) -> Hne Hok Hm Hn. destruct HP as (_ & Hbs & _).
  pose proof Hw as (_ & _ & _ & Hbb & Hlen & _ & _ & _ & Hfl & _). rewrite Hfl, Hbb. unfold buf_used. cbn [b_used].
  destruct (decide (zlen (log_body g) ≤ bs)) as [Hs|Hb].
  - rewrite chunks_small in Hch by done. destruct out as [|x [|]]; simplify_eq/=.
    eapply outcome_bind; [by apply (outcome_ret _ _ (λ _, filled ino (blocks_of bs gs) (log_body g) (zlen g) false (with_compression P (max_group gs) h))); exists [], (log_body g); rewrite chunks_small|].
    intros [] s1 _ (out1 & p1 & Hch1 & Hw1). rewrite chunks_small in Hch1 by done.
    destruct out1 as [|x [|]]; simplify_eq/=. apply outcome_ret. split; [done|]. exists false. rewrite app_nil_r in Hw1. exact Hw1.
  - assert (Hout : out ≠ []).
    { intros ->. rewrite chunks_big in Hch by lia. injection Hch as _ Hch.
      destruct (chunks_head bs (drop (Z.to_nat bs) (log_body g))) as [r Hr]. by rewrite Hr in Hch. }
    assert (Hall : Forall (λ b, b ≠ [] ∧ zlen b ≤ bs) (chunks bs (log_body g))).
    { apply chunks_sizes; [lia|]. intros E. rewrite E in Hb. cbn in Hb. lia. }
    rewrite Hch in Hall. apply Forall_app in Hall as [_ Hp]. apply Forall_cons_1 in Hp as [[Hp _] _].
    assert (Hpok : bytes_ok p).
    { assert (Hl : bytes_ok (concat (out ++ [p]))) by (rewrite <- Hch, chunks_concat; by apply log_body_ok).
      rewrite concat_app in Hl. apply bytes_ok_app in Hl as [_ Hl]. cbn in Hl. by rewrite app_nil_r in Hl. }
    assert (Hp0 : zlen p > 0) by (destruct p; [done|cbn; lia]).
    rewrite (bool_decide_true (out ≠ [])), (bool_decide_true (zlen p > 0)) by done.
    cbn [orb andb]. rewrite !(decide_False (P := out = [])) in Hw by done.
    eapply outcome_bind; [by apply (flush_compressed_run _ _ _ _ _ _ _ Hw)|].
    intros [] s1 _ Hw1. apply outcome_ret. split; [done|]. exists true. unfold in_group. cbn [fst snd].
    rewrite blocks_app, blocks_of_one, Hch, app_assoc, max_group_app, max_group_one.
    rewrite raise_max_twice, raise_max_group in Hw1 by done. exact Hw1.
Qed.

Lemma make_room_run ino st fl h e size s :
  in_group ino st fl h s → filling_ok bs st → Forall entry_ok st.2 → size = zlen (encode_entry e) →
  outcome ino s (λ _ s', ∃ fl', in_group ino (make_room bs st e) fl' h s')
    ((if bool_decide (buf_remaining (w_block_buf s.2) < zlen (entry_prefix e)) ||
         (bool_decide (size ≤ buf_size (w_block_buf s.2)) && bool_decide (size > buf_remaining (w_block_buf s.2)))
      then flush_compressed else mret tt) s).
Proof.
  destruct st as [gs g]. intros Hw Hst Hok ->. pose proof Hw as (_ & _ & _ & Hbb & _).
  rewrite Hbb. unfold buf_remaining, buf_size, make_room. cbn [b_size b_used fst snd].
  destruct (_ || _).
  - eapply outcome_weaken; [apply (flush_group ino gs g fl h s Hw Hst); by apply log_body_ok|].
    intros [] s' Hw'. by exists true.
  - apply outcome_ret. by exists fl.
Qed.

Lemma log_add_comp ino st fl h e n1 n2 d1 d2 s :
  in_group ino st fl h s → filling_ok bs st → Forall entry_ok (st.2 ++ [e]) →
  zlen (entry_prefix e) ≤ bs → entry_prefix e = write_vlq n1 ++ write_vlq n2 →
  entry_key e ++ entry_value e = d1 ++ d2 → zlen (encode_entry e) < 2 ^ 62 →
  outcome ino s (λ d s', d = zlen (encode_entry e) ∧ ∃ fl', in_group ino (add_group bs st e) fl' h s')
    (log_add n1 n2 d1 d2 s).
Proof.
  intros Hw Hst Hok Hpre Hp Hd Hsz. destruct HP as (Hcomp & Hbs & _).
  assert (Hbody : encode_entry e = write_vlq n1 ++ write_vlq n2 ++ d1 ++ d2)
    by (unfold encode_entry; rewrite Hp, Hd; by rewrite <- app_assoc).
  assert (Hsize : u64 (zlen (write_vlq n1) + zlen (write_vlq n2) + zlen d1 + zlen d2) = zlen (encode_entry e)).
  { rewrite Hbody in Hsz |- *. rewrite !length_app in Hsz |- *. rewrite u64_id by lia. lia. }
  unfold log_add. rewrite Hsize. apply outcome_get.
  assert (Hct : sparkey_uses_compressor (lh_compression_type (w_header s.2)) = true).
  { destruct Hw as (_ & -> & -> & _). apply uses_compressor_iff. by eexists. }
  rewrite Hct. assert (Hplen : zlen (write_vlq n1) + zlen (write_vlq n2) = zlen (entry_prefix e))
    by (rewrite Hp, length_app; lia). rewrite Hplen.
  apply Forall_app in Hok as [Hok He].
  eapply outcome_bind; [by apply (make_room_run ino st fl h e _ s Hw)|].
  intros [] s1 _ [fl1 Hw1]. destruct (make_room_ok bs st e Hpre Hst) as [Hst1 _].
  assert (Hok1 : Forall entry_ok ((make_room bs st e).2 ++ [e])).
  { apply Forall_app. split; [|done]. unfold make_room. by destruct (_ || _). }
  unfold add_group. destruct (make_room bs st e) as [gs g]. destruct (filling_bounds _ Hst1) as [Hm Hc].
  cbn [fst snd] in *. clear Hw Hst Hok.
  set (hd := with_compression P (max_group gs) h) in *. assert (Hmax : max_ok hd) by (unfold max_ok; cbn; lia).
  set (fill l := filled ino (blocks_of bs gs) (log_body g ++ l) (zlen g + 1) false hd).
  assert (Hbytes : bytes_ok (log_body g ++ encode_entry e)).
  { rewrite <- log_body_one, <- log_body_app. by apply log_body_ok. }
  apply (outcome_bind ino s1 _ _ (λ _, writing ino (blocks_of bs gs) (log_body g) (zlen g + 1) fl1 hd)).
  { destruct Hw1 as (H1 & H2 & H3 & H4 & H5 & H6 & H7 & H8 & H9 & H10). apply outcome_upd; [done|].
    split_and!; cbn [fst snd]; try done. cbn [w_entry_count set_w_entry_count]. rewrite H8. by apply s32_id; lia. }
  intros [] s2 _ Hw2. apply (outcome_bind ino s2 _ _ (λ _, fill [])).
  { destruct Hw2 as (H1 & H2 & H3 & H4 & H5 & H6 & H7 & H8 & H9 & H10). apply outcome_upd; [done|].
    unfold fill. rewrite app_nil_r. exists [], (log_body g). rewrite chunks_small by done.
    split; [done|]. rewrite app_nil_r. by split_and!. }
  assert (Hadd : ∀ l d rest s', fill l s' → l ++ d ++ rest = encode_entry e →
    outcome ino s' (λ _, fill (l ++ d)) (compressed_add d s')).
  { intros l d rest s' Hf Heq. unfold fill in *. rewrite app_assoc. apply compressed_add_run; [done| |lia|done].
    rewrite <- Heq, !app_assoc in Hbytes. by apply bytes_ok_app in Hbytes as [? _]. }
  intros [] s3 _ Hw3. eapply outcome_bind; [by apply (Hadd [] _ (write_vlq n2 ++ d1 ++ d2))|].
  intros [] s4 _ Hw4. eapply outcome_bind; [by apply (Hadd _ _ (d1 ++ d2) _ Hw4); rewrite Hbody, <- app_assoc|].
  intros [] s5 _ Hw5. eapply outcome_bind; [by apply (Hadd _ _ d2 _ Hw5); rewrite Hbody, <- !app_assoc|].
  intros [] s6 _ Hw6.
  eapply outcome_bind; [by apply (Hadd _ _ [] _ Hw6); rewrite Hbody, app_nil_r, <- !app_assoc|].
  intros [] s7 _ Hw7. apply outcome_get. unfold fill in Hw7. cbn [app] in Hw7. rewrite <- !app_assoc, <- Hbody in Hw7.
  rewrite <- log_body_one, <- log_body_app in Hw7.
  rewrite s64_id by lia.
  apply (finish_entry ino gs (g ++ [e]) _ h (zlen g + 1)); [done| |by destruct g|done|lia|lia].
  rewrite length_app. cbn [length]. lia.
Qed.

(** ** The writer of a compressed log *)

Definition comp_writer (fid : Z) (st : groups * list entry) (ino : nat) (s : WS) : Prop :=
  filling_ok bs st ∧ ∃ de hs fl, in_group ino st fl (log_header fid (grouped st) de hs) s.

(** A change of the header that keeps the compression. *)
Lemma in_group_header ino st fl h f s :
  in_group ino st fl h s →
  f (with_compression P (max_group st.1) h) = with_compression P (max_group st.1) (f h) →
  in_group ino st fl (f h) (s.1, set_w_header (f (w_header s.2)) s.2).
Proof.
  intros (H1 & H2 & H3 & H4 & H5 & H6 & H7 & H8 & H9 & H10) Hf.
  split_and!; cbn [fst snd]; try done. cbn. by rewrite H2, Hf.
Qed.

(** The guards of put and delete, and the header update after the entry. *)
Lemma counted_comp fid st e ino s (m : MC WS Z) f :
  comp_writer fid st ino s →
  (∀ fl h, in_group ino st fl h s →
    outcome ino s (λ d s', d = zlen (encode_entry e) ∧ ∃ fl', in_group ino (add_group bs st e) fl' h s') (m s)) →
  zlen (entry_prefix e) ≤ bs →
  (∀ de hs, f (zlen (encode_entry e)) (log_header fid (grouped st) de hs) = log_header fid (grouped st ++ [e]) de hs) →
  (∀ d n h, f d (with_compression P n h) = with_compression P n (f d h)) →
  outcome ino s (λ _, comp_writer fid (add_group bs st e) ino)
    ((_ ← assert_writer_open; d ← m; upd_writer (λ log, set_w_header (f d (w_header log)) log)) s).
Proof.
  intros (Hst & de & hs & fl & Hw) Hm Hpre Hf Hcomm. pose proof Hw as (Hop & _).
  rewrite bind_assert_writer_open by done.
  eapply outcome_bind; [by apply (Hm fl _ Hw)|]. intros d s1 _ [-> [fl1 Hw1]].
  apply outcome_upd; [done|]. split; [by apply add_group_ok|]. exists de, hs, fl1.
  rewrite add_group_entries, <- Hf. by apply in_group_header.
Qed.

Lemma add_entry_comp fid st e ino s :
  comp_writer fid st ino s → log_ok (grouped st ++ [e]) → zlen (entry_prefix e) ≤ bs →
  outcome ino s (λ _, comp_writer fid (add_group bs st e) ino) (add_entry e s).
Proof.
  intros Hw Hok Hpre. destruct (log_ok_entry _ e Hok) as [_ Hl]; [set_solver|].
  pose proof Hok as [Hall Hend]. rewrite log_end_app, log_body_one in Hend.
  assert (Hsz : zlen (encode_entry e) < 2 ^ 62) by (unfold log_end, LOG_HEADER_SIZE in Hend; lia).
  assert (Hok2 : Forall entry_ok (st.2 ++ [e])).
  { unfold grouped in Hall. rewrite <- app_assoc in Hall. by apply Forall_app in Hall as [_ Hall]. }
  destruct Hw as (Hst & Hw). destruct e as [k v|k]; cbn [add_entry entry_key entry_value] in *.
  - apply (counted_comp fid st (Put k v) ino s _ (λ d h, count_put d (zlen k) (zlen v) h)); try done.
    + intros fl h Hin. rewrite u64_id by lia. by eapply log_add_comp.
    + intros de hs. by apply count_put_header.
  - apply (counted_comp fid st (Delete k) ino s _ count_delete); try done.
    + intros fl h Hin. eapply log_add_comp; try done. by rewrite app_nil_r.
    + intros de hs. by apply count_delete_header.
Qed.

Lemma add_entries_comp fid es st ino s :
  comp_writer fid st ino s → log_ok (grouped st ++ es) → Forall (λ e, zlen (entry_prefix e) ≤ bs) es →
  outcome ino s (λ _, comp_writer fid (fold_left (add_group bs) es st) ino) (add_entries es s).
Proof.
  intros Hw Hok Hes. revert st s Hw Hok. induction Hes as [|e es He Hes IH]; intros st s Hw Hok.
  - by apply outcome_ret.
  - cbn [add_entries fold_left]. change (e :: es) with ([e] ++ es) in Hok. rewrite app_assoc in Hok.
    eapply outcome_bind; [apply add_entry_comp; [done|by eapply log_ok_app|done]|].
    intros [] s1 _ Hw1. apply IH; [done|]. by rewrite add_group_entries.
Qed.

(** ** Flushing and closing *)

Lemma comp_header_end fid gs hs de :
  set_lh_data_end (comp_end P gs) (with_compression P (max_group gs) (log_header fid (concat gs) de hs)) =
    comp_header P fid gs (comp_end P gs) hs.
Proof. done. Qed.

Lemma flush_comp fid st ino s :
  comp_writer fid st ino s → log_ok (grouped st) → comp_end P (close_group st) < 2 ^ 62 →
  outcome ino s (λ _ s', comp_writer fid (close_group st, []) ino s' ∧
      os_inodes s'.1 !! ino = Some (comp_file P fid (close_group st)) ∧ buf_used (w_file_buf s'.2) = 0)
    (sparkey_logwriter_flush s).
Proof.
  intros (Hst & de & hs & fl & Hw) [Hok _] Hend. pose proof Hw as (Hop & _ & _ & Hbb & _).
  unfold sparkey_logwriter_flush. rewrite bind_assert_writer_open by done. apply outcome_get.
  pose proof (close_group_ok bs st Hst) as Hgs.
  eapply (outcome_bind ino s _ _ (λ _ s', ∃ fl', in_group ino (close_group st, []) fl' (log_header fid (grouped st) de hs) s')).
  { rewrite Hbb. unfold buf_used. cbn [b_used]. destruct st as [gs [|e g]]; unfold close_group; cbn [fst snd].
    - rewrite decide_False by (cbn; lia). apply outcome_ret. by exists fl.
    - rewrite decide_True.
      2:{ pose proof (log_body_count (e :: g)) as Hc. cbn [length] in Hc. cbn [fst snd]. lia. }
      eapply outcome_weaken; [apply (flush_group ino gs (e :: g) fl _ s Hw Hst)|].
      { apply log_body_ok. unfold grouped in Hok. by apply Forall_app in Hok as [_ Hok]. }
      intros [] s' Hw'. by exists true. }
  intros [] s1 _ [fl1 Hw1]. pose proof Hw1 as (H1 & H2 & H3 & H4 & H5 & H6 & H7 & H8 & H9 & Hd).
  cbn [fst snd] in *. eapply outcome_weaken; [by apply (flush_file_run ino s1 _ Hd)|].
  intros [] s2 ([size Hs2] & Hd2 & Hc2). rewrite H2 in *.
  change (LOG_HEADER_SIZE + zlen (packed P (blocks_of bs (close_group st)))) with (comp_end P (close_group st)) in *.
  split; [|split].
  - split; [split; [done|cbn; lia]|]. exists (comp_end P (close_group st)), hs, fl1.
    replace (grouped (close_group st, [])) with (grouped st)
      by (unfold grouped at 2; cbn [fst snd]; by rewrite app_nil_r, close_group_entries).
    split_and!; rewrite ?Hs2; cbn [fst snd]; try done.
  - rewrite <- (close_group_entries st) in Hc2. exact Hc2.
  - by rewrite Hs2.
Qed.

Lemma close_comp fid st ino o w :
  comp_writer fid st ino (o, w) → log_ok (grouped st) → comp_end P (close_group st) < 2 ^ 62 →
  let '(r, (o', p)) := sparkey_logwriter_close (o, Some w) in
  os_frame (w_fd w) ino o o' ∧
  ((r = Ok tt ∧ p = None ∧ os_inodes o' !! ino = Some (comp_file P fid (close_group st)) ∧
    os_fds o' !! w_fd w = None) ∨ write_failed o r).
Proof.
  intros Hinv Hok Hend. unfold sparkey_logwriter_close.
  rewrite decide_False by (destruct Hinv as (_ & _ & _ & _ & H & _); cbn in H; rewrite H; tauto).
  pose proof (flush_comp fid st ino (o, w) Hinv Hok Hend) as Hf. unfold outcome in Hf.
  destruct (sparkey_logwriter_flush (o, w)) as [r [o' w']]. cbn [fst snd] in Hf.
  destruct Hf as (Hfr & Hfd & [([] & -> & Hinv' & Hc & Hu)|(e & -> & He)]); cbn [fst snd] in *.
  2:{ split; [done|right; by exists e]. }
  destruct Hinv' as (_ & _ & _ & _ & _ & _ & _ & _ & _ & _ & _ & _ & _ & _ & c & (Hopen & _) & _). cbn [fst snd] in Hopen.
  unfold sys_close. rewrite Hopen. cbn [fst snd]. rewrite Hfd. split; [by apply os_frame_close|].
  left. split_and!; [done..|]. cbn. apply lookup_delete_eq.
Qed.

(** ** Sessions *)

Lemma comp_session fid st es ino s :
  comp_writer fid st ino s → log_ok (grouped st ++ es) → Forall (λ e, zlen (entry_prefix e) ≤ bs) es →
  comp_end P (close_group (fold_left (add_group bs) es st)) < 2 ^ 62 →
  outcome ino s (λ _, closes_to ino (comp_file P fid (close_group (fold_left (add_group bs) es st)))) (add_entries es s).
Proof.
  intros Hw Hok Hes Hend. eapply outcome_weaken; [by apply (add_entries_comp fid es st ino s Hw)|].
  intros [] [o1 w1] Hw1. unfold closes_to. apply close_comp; [done| |done]. by rewrite add_groups_entries.
Qed.

Lemma writer_create_comp filename o :
  os_sched o = [] → os_wf o → (4 ≤ length (os_entropy o))%nat →
  ∃ o' w, sparkey_logwriter_create filename (bp_type P) bs o = (Ok w, o') ∧
    comp_writer (seed_of o) ([], []) (os_next_inode o) (o', w) ∧ w_fd w = os_next_fd o ∧
    os_frame (os_next_fd o) (os_next_inode o)
      (set_entropy (drop 4 (os_entropy o)) (created filename (removed filename o))) o' ∧
    os_inodes o' !! os_next_inode o = Some (comp_file P (seed_of o) []).
Proof.
  intros Hs Hwf He. pose proof HP as (Hcomp & Hbs & _).
  destruct (writer_create_run filename (bp_type P) bs bs (max_compressed_size (bp_compressor P) bs) true o)
    as (o1 & Hrun & Hd & Hfr & Hc); try done.
  { unfold create_compressor. assert (Hu : sparkey_uses_compressor (bp_type P) = true)
      by (apply uses_compressor_iff; by eexists).
    rewrite Hu, decide_False by lia. rewrite Hcomp, bind_of_opt, u32_id by lia.
    by rewrite (bind_Ok _ _ _ _ _ (sys_malloc_run o Hs)). }
  eexists o1, _. split; [exact Hrun|]. unfold new_log_header in *. rewrite u32_id in * by lia.
  split; [|split; [done|split; [done|]]].
  2:{ rewrite Hc. unfold comp_file, comp_body, packed. change (blocks_of bs []) with (@nil (list Z)). by rewrite app_nil_r. }
  split; [split; [constructor|cbn; lia]|]. exists LOG_HEADER_SIZE, 0, false.
  split_and!; cbn [fst snd]; try done. cbn; lia.
Qed.

Lemma write_comp_spec filename es o :
  os_sched o = [] → os_wf o → (4 ≤ length (os_entropy o))%nat →
  comp_ok P (groups_of bs es) → Forall (λ e, zlen (entry_prefix e) ≤ bs) es →
  ∃ o', write_log filename (bp_type P) bs es o = (Ok tt, o') ∧
    log_written filename (comp_file P (seed_of o) (groups_of bs es)) o o'.
Proof.
  intros Hs Hwf He (Hok & _ & Hend) Hes. rewrite groups_of_entries in Hok.
  destruct (writer_create_comp filename o Hs Hwf He) as (o1 & w & Hrun & Hw & Hfd & Hfr & _).
  eapply write_session; try done. by apply comp_session.
Qed.

Lemma append_comp_spec filename fid gs es o :
  has_file o filename (comp_file P fid gs) → os_wf o → 0 ≤ fid < 2 ^ 32 →
  comp_ok P (gs ++ groups_of bs es) → counts_fit P gs → Forall (λ e, zlen (entry_prefix e) ≤ bs) es →
  ∃ ino o', append_log filename es o = (Ok tt, o') ∧ os_names o !! filename = Some ino ∧
    log_appended ino (comp_file P fid (gs ++ groups_of bs es)) o o'.
Proof.
  intros Hf Hwf Hfid (Hok & Hgs & Hend) Hfit Hes. pose proof HP as (Hcomp & Hbs & _).
  assert (Hs : os_sched o = []) by (destruct Hf as (? & _ & _ & ? & _); done).
  rewrite concat_app, groups_of_entries in Hok. apply Forall_app in Hgs as [Hgs _].
  assert (Hend1 : comp_end P gs < 2 ^ 62).
  { unfold comp_end, comp_body in *. rewrite blocks_app, packed_app, length_app in Hend. lia. }
  assert (Hok1 : comp_ok P gs) by (split_and!; [by eapply log_ok_app|done|done]).
  set (h := comp_header P fid gs (comp_end P gs) LOG_HEADER_SIZE).
  destruct (writer_append_run filename h (comp_body P gs) h (max_compressed_size (bp_compressor P) bs) true o)
    as (ino & o1 & Hrun & Hn & Hd & Hfr); try done.
  - by apply comp_header_typed.
  - by apply comp_header_valid.
  - unfold append_compressor. assert (Hu : sparkey_uses_compressor (lh_compression_type h) = true)
      by (apply uses_compressor_iff; by eexists).
    rewrite Hu, decide_False by (cbn; lia). cbn [h comp_header with_compression lh_compression_type lh_compression_block_size].
    rewrite Hcomp, bind_of_opt. by rewrite (bind_Ok _ _ _ _ _ (sys_malloc_run (opened o) Hs)).
  - destruct (append_session filename es ino o _ o1 (comp_file P fid (gs ++ groups_of bs es)) Hs Hwf Hrun Hn)
      as (o' & Ha & Ho'); [done|done| |by exists ino, o'].
    rewrite <- close_groups_prefix in *. apply comp_session; try done.
    + split; [split; [done|cbn; lia]|]. exists (comp_end P gs), LOG_HEADER_SIZE, false.
      unfold grouped. cbn [fst snd]. rewrite app_nil_r. split_and!; cbn [fst snd]; try done. cbn. lia.
    + unfold grouped. cbn [fst snd]. by rewrite app_nil_r.
Qed.

End Writer.
