(* ===== verification/RobinHood.v ===== *)
(** * Robin Hood hashing

    The theory behind the hash table of hashwriter.c and hashreader.c, over a
    table given as a function from slots to pairs of a hash and an address.
    Address 0 is an empty slot.  The invariant of the table, what insertion with
    displacement and deletion by backward shifts do to it, and why a lookup that
    stops at the first smaller displacement misses nothing. *)

From stdpp Require Import base gmap list strings numbers sets.
From Stdlib Require Import ZArith Lia.
From S2P Require Import Prelude.

Local Open Scope Z_scope.

Definition table : Type := Z → Z * Z.

Definition occ (f : table) (s : Z) : Prop := (f s).2 ≠ 0.
Definition upd_slot (f : table) (s : Z) (x : Z * Z) : table :=
  λ t, if decide (t = s) then x else f t.

#[export] Instance occ_dec f s : Decision (occ f s).
Proof. unfold occ. apply _. Defined.

Lemma upd_slot_eq f s x : upd_slot f s x s = x.
Proof. unfold upd_slot. by rewrite decide_True. Qed.

Lemma upd_slot_ne f s x t : t ≠ s → upd_slot f s x t = f t.
Proof. intros. unfold upd_slot. by rewrite decide_False. Qed.

Section RobinHood.
Context (cap : Z) (Hcap : 0 < cap).

(** ** Circular distances *)

Definition slot_ok (s : Z) : Prop := 0 ≤ s < cap.
Definition nxt (s : Z) : Z := if decide (s + 1 >= cap) then 0 else s + 1.
Definition dist (s h : Z) : Z := (s - h) mod cap.
Definition disp (f : table) (s : Z) : Z := dist s (f s).1.

Lemma nxt_ok s : slot_ok s → slot_ok (nxt s).
Proof. unfold slot_ok, nxt. case_decide; lia. Qed.

Lemma nxt_inj s t : slot_ok s → slot_ok t → nxt s = nxt t → s = t.
Proof. unfold slot_ok, nxt. repeat case_decide; lia. Qed.

Lemma nxt_mod s : slot_ok s → nxt s = (s + 1) mod cap.
Proof.
  unfold slot_ok, nxt. intros. case_decide.
  - replace (s + 1) with cap by lia. by rewrite Z_mod_same_full.
  - by rewrite Z.mod_small by lia.
Qed.

Lemma nxt_self s : slot_ok s → nxt s = s → cap = 1.
Proof. unfold slot_ok, nxt. case_decide; lia. Qed.

Lemma dist_range s h : 0 ≤ dist s h < cap.
Proof. by apply Z.mod_pos_bound. Qed.

Lemma dist_wanted h : dist (h mod cap) h = 0.
Proof. unfold dist. by rewrite Zminus_mod_idemp_l, Z.sub_diag. Qed.

Lemma dist_nxt s h :
  slot_ok s → dist (nxt s) h = if decide (dist s h = cap - 1) then 0 else dist s h + 1.
Proof.
  intros Hs. pose proof (dist_range s h) as Hr. unfold dist in *.
  rewrite nxt_mod by done. rewrite Zminus_mod_idemp_l.
  replace (s + 1 - h) with (s - h + 1) by lia. rewrite <- Z.add_mod_idemp_l by lia.
  case_decide as E.
  - rewrite E. replace (cap - 1 + 1) with cap by lia. apply Z_mod_same_full.
  - apply Z.mod_small. lia.
Qed.

Lemma dist_inj s t h : slot_ok s → slot_ok t → dist s h = dist t h → s = t.
Proof.
  unfold dist. intros Hs Ht Heq.
  assert ((s - t) mod cap = 0) as Hz.
  { replace (s - t) with (s - h - (t - h)) by lia.
    by rewrite Zminus_mod, Heq, Z.sub_diag, Z.mod_0_l by lia. }
  unfold slot_ok in *. apply Z.mod_divide in Hz as [q Hq]; [|lia].
  assert (q = 0) as -> by nia. lia.
Qed.

(** The [j]-th slot after [s]. *)
Lemma dist_reach h d : 0 ≤ d < cap → ∃ s, slot_ok s ∧ dist s h = d.
Proof.
  intros Hd. exists ((h + d) mod cap). split; [by apply Z.mod_pos_bound|].
  unfold dist. rewrite Zminus_mod_idemp_l. replace (h + d - h) with d by lia.
  by apply Z.mod_small.
Qed.

(** ** The invariant *)

(** An entry away from its wanted slot follows an entry that is at most one
    closer to its own. *)
Definition ordered (f : table) : Prop :=
  ∀ s, slot_ok s → occ f (nxt s) → disp f (nxt s) = 0 ∨ (occ f s ∧ disp f (nxt s) ≤ disp f s + 1).

(** Some slot is empty or holds an entry in its wanted slot: backward shifts
    stop there. *)
Definition anchored (f : table) : Prop :=
  ∃ s, slot_ok s ∧ (¬ occ f s ∨ disp f s = 0).

(** An entry of displacement [d] may be put into slot [s]. *)
Definition fits (f : table) (s d : Z) : Prop :=
  d = 0 ∨ ∃ p, slot_ok p ∧ nxt p = s ∧ occ f p ∧ d ≤ disp f p + 1.

Lemma disp_range f s : 0 ≤ disp f s < cap.
Proof. apply dist_range. Qed.

Lemma disp_upd_eq f s x : disp (upd_slot f s x) s = dist s x.1.
Proof. unfold disp. by rewrite upd_slot_eq. Qed.

Lemma disp_upd_ne f s x t : t ≠ s → disp (upd_slot f s x) t = disp f t.
Proof. intros. unfold disp. by rewrite upd_slot_ne. Qed.

Lemma occ_upd_eq f s x : occ (upd_slot f s x) s ↔ x.2 ≠ 0.
Proof. unfold occ. by rewrite upd_slot_eq. Qed.

Lemma occ_upd_ne f s x t : t ≠ s → occ (upd_slot f s x) t ↔ occ f t.
Proof. intros. unfold occ. by rewrite upd_slot_ne. Qed.

(** Writing an entry that fits into a slot whose entry, if any, is closer to
    its wanted slot keeps the order. *)
Lemma ordered_write f s h a :
  ordered f → slot_ok s → fits f s (dist s h) → a ≠ 0 →
  (occ f s → disp f s < dist s h) → ordered (upd_slot f s (h, a)).
Proof.
  intros Ho Hs Hfit Ha Hlt p Hp Hocc.
  destruct (decide (nxt p = s)) as [Heq|Hne].
  - rewrite Heq, disp_upd_eq. destruct Hfit as [Hz|(q & Hq & Hqs & Hoq & Hle)]; [by left|].
    assert (q = p) as -> by (apply nxt_inj; congruence).
    destruct (decide (p = s)) as [->|Hps].
    + left. cbn. assert (cap = 1) by (by apply (nxt_self s)). pose proof (dist_range s h). lia.
    + right. rewrite occ_upd_ne, disp_upd_ne by done. by split.
  - rewrite occ_upd_ne in Hocc by done. rewrite disp_upd_ne by done.
    destruct (Ho p Hp Hocc) as [Hz|[Hop Hle]]; [by left|right].
    destruct (decide (p = s)) as [->|Hps]; [|by rewrite occ_upd_ne, disp_upd_ne].
    rewrite disp_upd_eq. split; [by apply occ_upd_eq|]. specialize (Hlt Hop). cbn. lia.
Qed.

(** An entry that is not put into an occupied slot, because the entry there is
    at least as far from home, or that has just been displaced from it, fits
    into the next one. *)
Lemma fits_next f s d :
  slot_ok s → occ f s → d ≤ disp f s → fits f (nxt s) (d + 1).
Proof. intros Hs Ho Hd. right. exists s. split_and!; [done..|lia]. Qed.

Lemma fits_displaced f s h a :
  slot_ok s → a ≠ 0 → disp f s < dist s h →
  fits (upd_slot f s (h, a)) (nxt s) (disp f s + 1).
Proof.
  intros Hs Ha Hlt. apply fits_next; [done|by apply occ_upd_eq|]. rewrite disp_upd_eq. cbn. lia.
Qed.

(** A table with room stays anchored when its empty slot is filled. *)
Lemma anchored_fill f s h a :
  ordered f → slot_ok s → ¬ occ f s → anchored (upd_slot f s (h, a)).
Proof.
  intros Ho Hs Hempty. exists (nxt s). split; [by apply nxt_ok|].
  destruct (decide (nxt s = s)) as [Heq|Hne].
  - right. rewrite Heq, disp_upd_eq. pose proof (dist_range s h).
    assert (cap = 1) by (by apply (nxt_self s)). cbn. lia.
  - rewrite occ_upd_ne, disp_upd_ne by done.
    destruct (decide (occ f (nxt s))) as [Hoc|Hoc]; [|by left].
    destruct (Ho s Hs Hoc) as [|[? _]]; [by right|done].
Qed.

(** ** Lookup *)

(** On the way from the wanted slot of an entry to its slot there is no empty
    slot and no entry closer to home than the way gone: the search for it does
    not stop early. *)
Lemma probe f t s :
  ordered f → slot_ok t → slot_ok s → occ f t →
  dist s (f t).1 ≤ disp f t → occ f s ∧ dist s (f t).1 ≤ disp f s.
Proof.
  intros Ho Ht Hs Hoc Hle. unfold disp in Hle at 1. set (h := (f t).1) in *.
  remember (Z.to_nat (dist t h - dist s h)) as n eqn:Hn.
  revert s Hs Hle Hn. induction n as [|n IH]; intros s Hs Hle Hn.
  - assert (s = t) as -> by (apply (dist_inj s t h); [done..|lia]). done.
  - pose proof (dist_range t h). pose proof (dist_range s h).
    assert (Hd : dist (nxt s) h = dist s h + 1)
      by (rewrite dist_nxt by done; rewrite decide_False by lia; done).
    destruct (IH (nxt s)) as [Hoc1 Hle1]; [by apply nxt_ok|lia|lia|].
    destruct (Ho s Hs Hoc1) as [Hz|[Hos Hl]]; [|split; [done|]]; lia.
Qed.

(** While a slot is empty, no entry is so far from home that the walk would
    come around. *)
Lemma disp_room f s e :
  ordered f → slot_ok s → slot_ok e → occ f s → ¬ occ f e → disp f s < cap - 1.
Proof.
  intros Ho Hs He Hos Hoe. destruct (decide (disp f s < cap - 1)) as [|Hge]; [done|].
  destruct Hoe. pose proof (dist_range e (f s).1).
  apply (probe f s e); [done..|lia].
Qed.

(** A step towards a slot. *)
Lemma dist_step s e : slot_ok s → slot_ok e → s ≠ e → dist e (nxt s) = dist e s - 1.
Proof.
  intros Hs He Hne. rewrite nxt_mod by done. unfold dist.
  rewrite Zminus_mod_idemp_r. replace (e - (s + 1)) with (e - s - 1) by lia.
  pose proof (dist_range e s) as Hr. unfold dist in Hr.
  assert ((e - s) mod cap ≠ 0).
  { intros Hz. apply Hne. symmetry. apply (dist_inj _ _ s); [done..|].
    unfold dist. by rewrite Hz, Z.sub_diag, Z.mod_0_l by lia. }
  rewrite <- Zminus_mod_idemp_l. apply Z.mod_small. lia.
Qed.

(** Another address with the same hash keeps the order. *)
Lemma same_hash_disp f s a t : disp (upd_slot f s ((f s).1, a)) t = disp f t.
Proof.
  destruct (decide (t = s)) as [->|Hne]; [by rewrite disp_upd_eq|by rewrite disp_upd_ne].
Qed.

Lemma same_hash_occ f s a t :
  occ f s → a ≠ 0 → occ (upd_slot f s ((f s).1, a)) t ↔ occ f t.
Proof.
  intros Ho Ha. destruct (decide (t = s)) as [->|Hne]; [|by rewrite occ_upd_ne].
  rewrite occ_upd_eq. tauto.
Qed.

Lemma ordered_replace f s a :
  ordered f → occ f s → a ≠ 0 → ordered (upd_slot f s ((f s).1, a)).
Proof.
  intros Hord Ho Ha p Hp. rewrite !same_hash_occ, !same_hash_disp by done. by apply Hord.
Qed.

Lemma anchored_replace f s a :
  anchored f → occ f s → a ≠ 0 → anchored (upd_slot f s ((f s).1, a)).
Proof.
  intros (t & Ht & Hst) Ho Ha. exists t. by rewrite same_hash_occ, same_hash_disp by done.
Qed.

(** ** Deletion *)

(** The table while a hole travels: the slot [s] will be overwritten, and the
    order is intact but for the slot after the hole, whose entry is at most one
    further from home than [d], a displacement that fits into the hole. *)
Definition hole (f : table) (s d : Z) : Prop :=
  slot_ok s ∧ (∀ p, slot_ok p → p ≠ s → nxt p ≠ s → occ f (nxt p) →
    disp f (nxt p) = 0 ∨ (occ f p ∧ disp f (nxt p) ≤ disp f p + 1)) ∧
  (d = 0 ∨ ∃ p, slot_ok p ∧ nxt p = s ∧ (p = s ∨ occ f p ∧ d ≤ disp f p + 1)) ∧
  (occ f (nxt s) → disp f (nxt s) ≤ d + 1).

Lemma hole_start f s : ordered f → slot_ok s → occ f s → hole f s (disp f s).
Proof.
  intros Ho Hs Hoc. split_and!; [done| | |].
  - intros p Hp _ _. by apply Ho.
  - destruct (dist_reach s (cap - 1)) as (p & Hp & Hd); [lia|].
    assert (nxt p = s) as Hn.
    { apply (dist_inj _ _ s); [by apply nxt_ok|done|].
      rewrite dist_nxt by done. rewrite decide_True by done.
      unfold dist. by rewrite Z.sub_diag, Z.mod_0_l by lia. }
    destruct (Ho p Hp) as [Hz|[Hop Hle]]; [by rewrite Hn|left; by rewrite <- Hn|].
    right. exists p. rewrite Hn in Hle. auto.
  - intros Hn. pose proof (disp_range f s). destruct (Ho s Hs Hn) as [|[_ ?]]; lia.
Qed.

(** Moving the next entry into the hole moves the hole. *)
Lemma hole_move f s d :
  hole f s d → nxt s ≠ s → occ f (nxt s) → disp f (nxt s) ≠ 0 →
  hole (upd_slot f s (f (nxt s))) (nxt s) (disp f (nxt s)) ∧
  disp (upd_slot f s (f (nxt s))) s = disp f (nxt s) - 1.
Proof.
  intros (Hs & Hord & Hfit & Hnext) Hne Hocc Hdisp.
  specialize (Hnext Hocc). set (n := nxt s) in *. set (g := upd_slot f s (f n)).
  assert (Hn : slot_ok n) by (by apply nxt_ok).
  assert (Hgs : disp g s = disp f n - 1).
  { unfold g. rewrite disp_upd_eq. unfold disp, n in *. rewrite dist_nxt in * by done.
    case_decide; lia. }
  assert (Hgo : occ g s) by (by apply occ_upd_eq).
  pose proof (disp_range f n) as Hnr.
  assert (Hg : ∀ t, t ≠ s → disp g t = disp f t ∧ (occ g t ↔ occ f t)).
  { intros t Ht. split; [by apply disp_upd_ne|by apply occ_upd_ne]. }
  split; [|done]. split_and!; [done| | |].
  - intros p Hp Hpn Hnp Hoc.
    destruct (decide (nxt p = s)) as [Hps|Hps].
    + rewrite Hps, Hgs. destruct (decide (p = s)) as [->|Hpne]; [done|].
      destruct (Hg p Hpne) as [-> ->].
      destruct Hfit as [->|(q & Hq & Hqs & [->|[Hoq Hle]])]; [left; lia|done|].
      assert (q = p) as -> by (apply nxt_inj; congruence). right. split; [done|lia].
    + destruct (Hg (nxt p) Hps) as [Hd1 Ho1]. rewrite Hd1. apply Ho1 in Hoc.
      destruct (decide (p = s)) as [->|Hpne]; [done|].
      destruct (Hg p Hpne) as [-> ->]. apply Hord; done.
  - right. exists s. split_and!; [done|done|right]. split; [done|lia].
  - intros Hoc. destruct (decide (nxt n = s)) as [->|Hns]; [lia|].
    destruct (Hg (nxt n) Hns) as [Hd1 Ho1]. rewrite Hd1. apply Ho1 in Hoc.
    assert (nxt n ≠ n) by (intros E; apply Hne; unfold n in *; apply nxt_inj; done).
    pose proof (disp_range f n). destruct (Hord n Hn) as [|[_ ?]]; try done; lia.
Qed.

(** Clearing the hole when the next entry is at home, or missing, ends it. *)
Lemma hole_clear f s d :
  hole f s d → (¬ occ f (nxt s) ∨ disp f (nxt s) = 0) →
  ordered (upd_slot f s (0, 0)) ∧ anchored (upd_slot f s (0, 0)).
Proof.
  intros (Hs & Hord & _ & _) Hstop.
  assert (Hempty : ¬ occ (upd_slot f s (0, 0)) s) by (rewrite occ_upd_eq; cbn; tauto).
  split; [|exists s; split; [done|by left]].
  intros p Hp Hoc. destruct (decide (nxt p = s)) as [Hps|Hps]; [by rewrite Hps in Hoc|].
  rewrite occ_upd_ne in Hoc by done. rewrite disp_upd_ne by done.
  destruct (decide (p = s)) as [->|Hpne]; [left; tauto|].
  rewrite occ_upd_ne, disp_upd_ne by done. by apply Hord.
Qed.

(** ** The contents of a table *)

Context {K : Type} `{Countable K} (key_of : Z → option K) (hk : K → Z).

(** The entries at the slots in [P] are exactly the bindings of [m], each once. *)
Definition contents (P : Z → Prop) (f : table) (m : gmap K Z) : Prop :=
  (∀ s, P s → occ f s → ∃ k, key_of (f s).2 = Some k ∧ (f s).1 = hk k ∧ m !! k = Some (f s).2) ∧
  (∀ k a, m !! k = Some a → ∃ s, P s ∧ occ f s ∧ f s = (hk k, a) ∧ key_of a = Some k) ∧
  (∀ s t, P s → P t → occ f s → occ f t → (f s).2 = (f t).2 → s = t).

(** The slots of the table, and a virtual slot for the entry being carried. *)
Definition carry_ok (s : Z) : Prop := slot_ok s ∨ s = -1.

Lemma contents_ext P f g m :
  (∀ s, P s → f s = g s) → contents P f m → contents P g m.
Proof.
  intros Hfg (H1 & H2 & H3). unfold contents, occ in *. split_and!.
  - intros s Hs. rewrite <- (Hfg s Hs). by apply H1.
  - intros k a Hk. destruct (H2 k a Hk) as (s & Hs & Ho & Heq & Hky). exists s.
    by rewrite <- (Hfg s Hs).
  - intros s t Hs Ht. rewrite <- (Hfg s Hs), <- (Hfg t Ht). by apply H3.
Qed.

(** Two slots with the same key are the same slot. *)
Lemma contents_inj P f m s t k :
  contents P f m → P s → P t → occ f s → occ f t →
  key_of (f s).2 = Some k → key_of (f t).2 = Some k → s = t.
Proof.
  intros (H1 & _ & H3) Hs Ht Hos Hot Hks Hkt.
  destruct (H1 s Hs Hos) as (k1 & Hk1 & _ & Hm1), (H1 t Ht Hot) as (k2 & Hk2 & _ & Hm2).
  apply H3; try done. congruence.
Qed.

(** A walk that has not met an address on its way, and has come to an empty slot
    or to an entry closer to home, will not meet it. *)
Lemma contents_stop f m k s a :
  ordered f → contents slot_ok f m → slot_ok s →
  (∀ t, slot_ok t → dist t (hk k) < dist s (hk k) → occ f t → (f t).2 ≠ a) →
  (¬ occ f s ∨ disp f s < dist s (hk k)) → m !! k ≠ Some a.
Proof.
  intros Hord (_ & H2 & _) Hs Hpath Hstop Hk.
  destruct (H2 k a Hk) as (t & Ht & Ho & Heq & Hka).
  destruct (decide (dist t (hk k) < dist s (hk k))) as [Hlt|Hge].
  - apply (Hpath t Ht Hlt Ho). by rewrite Heq.
  - assert (Hft : (f t).1 = hk k) by by rewrite Heq.
    destruct (probe f t s) as [Hos Hd]; [done..|unfold disp; rewrite Hft; lia|].
    rewrite Hft in Hd. destruct Hstop as [|Hstop]; [done|lia].
Qed.

(** The address of a bound key leads back to the key. *)
Lemma contents_key f m k a : contents slot_ok f m → m !! k = Some a → key_of a = Some k.
Proof. intros (_ & H2 & _) Hk. by destruct (H2 k a Hk) as (_ & _ & _ & _ & ?). Qed.

Lemma contents_absent f m k s :
  ordered f → contents slot_ok f m → slot_ok s →
  (∀ t, slot_ok t → dist t (hk k) < dist s (hk k) → occ f t → key_of (f t).2 ≠ Some k) →
  (¬ occ f s ∨ disp f s < dist s (hk k)) → m !! k = None.
Proof.
  intros Hord Hc Hs Hpath Hstop. destruct (m !! k) as [a|] eqn:Hk; [|done]. exfalso.
  apply (contents_stop f m k s a Hord Hc Hs); [|done|done].
  intros t Ht Hlt Ho Heq. apply (Hpath t Ht Hlt Ho). rewrite Heq. by eapply contents_key.
Qed.

(** Carrying a new key. *)
Lemma contents_carry f m k a :
  contents slot_ok f m → m !! k = None → key_of a = Some k → a ≠ 0 →
  contents carry_ok (upd_slot f (-1) (hk k, a)) (<[k := a]> m).
Proof.
  intros (H1 & H2 & H3) Hk Ha Hnz.
  assert (Hg : ∀ s, slot_ok s → upd_slot f (-1) (hk k, a) s = f s).
  { intros s Hs. apply upd_slot_ne. unfold slot_ok in Hs. lia. }
  assert (Hfresh : ∀ s, slot_ok s → occ f s → (f s).2 ≠ a).
  { intros s Hs Ho Heq. destruct (H1 s Hs Ho) as (k1 & Hk1 & _ & Hm1).
    assert (k1 = k) as -> by congruence. congruence. }
  unfold contents, occ in *. split_and!.
  - intros s [Hs| ->].
    + rewrite Hg by done. intros Ho. destruct (H1 s Hs Ho) as (k1 & Hk1 & Hh & Hm1).
      exists k1. split_and!; [done..|]. rewrite lookup_insert_ne; [done|]. congruence.
    + rewrite upd_slot_eq. intros _. exists k. cbn. by rewrite lookup_insert_eq.
  - intros k1 a1 [[<- <-]|[Hne Hm1]]%lookup_insert_Some.
    + exists (-1). rewrite upd_slot_eq. split; [by right|]. by split_and!.
    + destruct (H2 k1 a1 Hm1) as (s & Hs & Hr). exists s. rewrite Hg by done. by split; [left|].
  - intros s t [Hs| ->] [Ht| ->].
    + rewrite (Hg s Hs), (Hg t Ht). by apply H3.
    + rewrite (Hg s Hs), upd_slot_eq. cbn. intros Ho _ Heq. by destruct (Hfresh s Hs Ho).
    + rewrite (Hg t Ht), upd_slot_eq. cbn. intros _ Ho Heq. by destruct (Hfresh t Ht Ho).
    + done.
Qed.

(** Exchanging the carried entry with the one in a slot. *)
Lemma contents_swap f m s x :
  slot_ok s → contents carry_ok (upd_slot f (-1) x) m →
  contents carry_ok (upd_slot (upd_slot f s x) (-1) (f s)) m.
Proof.
  intros Hs (H1 & H2 & H3).
  set (g := upd_slot f (-1) x) in *. set (g' := upd_slot (upd_slot f s x) (-1) (f s)).
  assert (Hs1 : s ≠ -1) by (unfold slot_ok in Hs; lia).
  set (p := λ t : Z, if decide (t = s) then -1 else if decide (t = -1) then s else t).
  assert (Hp : ∀ t, g' t = g (p t)).
  { intros t. unfold g', g, p, upd_slot. repeat case_decide; congruence || done. }
  assert (Hpo : ∀ t, carry_ok t → carry_ok (p t)).
  { intros t Ht. unfold p. repeat case_decide; [by right|by left|done]. }
  assert (Hpp : ∀ t, p (p t) = t) by (intros t; unfold p; repeat case_decide; congruence).
  unfold contents, occ in *. split_and!.
  - intros t Ht. rewrite Hp. apply H1. by apply Hpo.
  - intros k a Hk. destruct (H2 k a Hk) as (t & Ht & Hr). exists (p t).
    rewrite Hp, Hpp. split; [by apply Hpo|done].
  - intros t u Ht Hu. rewrite !Hp. intros Hot Hou Heq.
    rewrite <- (Hpp t), <- (Hpp u). f_equal. apply H3; auto.
Qed.

(** Putting the carried entry into an empty slot. *)
Lemma contents_place f m s x :
  slot_ok s → ¬ occ f s → contents carry_ok (upd_slot f (-1) x) m →
  contents slot_ok (upd_slot f s x) m.
Proof.
  intros Hs Hempty Hc. pose proof (contents_swap f m s x Hs Hc) as (H1 & H2 & H3).
  assert (Hg : ∀ t, slot_ok t →
    upd_slot (upd_slot f s x) (-1) (f s) t = upd_slot f s x t).
  { intros t Ht. apply upd_slot_ne. unfold slot_ok in Ht. lia. }
  unfold contents, occ in *. split_and!.
  - intros t Ht. rewrite <- Hg by done. apply H1. by left.
  - intros k a Hk. destruct (H2 k a Hk) as (t & [Ht| ->] & Hr).
    + exists t. by rewrite <- Hg.
    + rewrite upd_slot_eq in Hr. by destruct Hr.
  - intros t u Ht Hu. rewrite <- !Hg by done. apply H3; by left.
Qed.

(** Replacing the address of a key in its slot. *)
Lemma contents_replace f m s k a :
  contents slot_ok f m → slot_ok s → occ f s → key_of (f s).2 = Some k → key_of a = Some k →
  a ≠ 0 → contents slot_ok (upd_slot f s (hk k, a)) (<[k := a]> m).
Proof.
  intros Hc Hs Hos Hks Hka Hnz. pose proof Hc as (H1 & H2 & H3).
  assert (Hne : ∀ t, slot_ok t → t ≠ s → occ f t → key_of (f t).2 ≠ Some k).
  { intros t Ht Hts Hot Hk. apply Hts. by eapply contents_inj. }
  unfold contents, occ in *. split_and!.
  - intros t Ht. unfold upd_slot. case_decide as E.
    + intros _. exists k. cbn. by rewrite lookup_insert_eq.
    + intros Ho. destruct (H1 t Ht Ho) as (k1 & Hk1 & Hh & Hm). exists k1.
      split_and!; [done..|]. rewrite lookup_insert_ne; [done|]. intros <-. by eapply Hne.
  - intros k1 a1 [[<- <-]|[Hnk Hm1]]%lookup_insert_Some.
    + exists s. by rewrite upd_slot_eq.
    + destruct (H2 k1 a1 Hm1) as (t & Ht & Ho & Heq & Hk1). exists t.
      rewrite upd_slot_ne; [done|]. intros ->. rewrite Heq in Hks. cbn in Hks. congruence.
  - intros t u Ht Hu. unfold upd_slot. repeat case_decide; cbn; try congruence.
    + intros _ Ho Heq. exfalso. apply (Hne u Hu); [done..|]. by rewrite <- Heq.
    + intros Ho _ Heq. exfalso. apply (Hne t Ht); [done..|]. by rewrite Heq.
    + by apply H3.
Qed.

(** An entry of [m] is away from the slots in a set; moving the next entry into
    the hole, and clearing the hole, leave the other entries. *)
Lemma contents_hole_move f m s t :
  slot_ok s → slot_ok t → s ≠ t →
  contents (λ u, slot_ok u ∧ u ≠ s) f m →
  contents (λ u, slot_ok u ∧ u ≠ t) (upd_slot f s (f t)) m.
Proof.
  intros Hs Ht Hst (H1 & H2 & H3).
  set (p := λ u : Z, if decide (u = s) then t else u).
  assert (Hp : ∀ u, slot_ok u ∧ u ≠ t → upd_slot f s (f t) u = f (p u) ∧ slot_ok (p u) ∧ p u ≠ s).
  { intros u [Hu Hne]. unfold upd_slot, p. case_decide; done. }
  unfold contents, occ in *. split_and!.
  - intros u Hu. destruct (Hp u Hu) as (-> & Hpu). by apply H1.
  - intros k a Hk. destruct (H2 k a Hk) as (u & [Hu Hus] & Hr).
    exists (if decide (u = t) then s else u). unfold upd_slot. repeat case_decide; by subst.
  - intros u v Hu Hv. destruct (Hp u Hu) as (-> & Hpu), (Hp v Hv) as (-> & Hpv).
    intros Ho1 Ho2 Heq. pose proof (H3 _ _ Hpu Hpv Ho1 Ho2 Heq) as E.
    unfold p in E. destruct Hu, Hv. repeat case_decide; congruence.
Qed.

Lemma contents_hole_start f m s k :
  contents slot_ok f m → slot_ok s → occ f s → key_of (f s).2 = Some k →
  contents (λ u, slot_ok u ∧ u ≠ s) f (delete k m).
Proof.
  intros Hc Hs Hos Hks. pose proof Hc as (H1 & H2 & H3). split_and!.
  - intros t [Ht Hts] Ho. destruct (H1 t Ht Ho) as (k1 & Hk1 & Hh & Hm). exists k1.
    split_and!; [done..|]. rewrite lookup_delete_ne; [done|]. intros <-.
    apply Hts. by eapply contents_inj.
  - intros k1 a1 [Hne Hm]%lookup_delete_Some. destruct (H2 k1 a1 Hm) as (t & Ht & Ho & Heq & Hk).
    exists t. split_and!; try done. intros ->. rewrite Heq in Hks. cbn in Hks. congruence.
  - intros t u [Ht _] [Hu _]. by apply H3.
Qed.

Lemma contents_hole_clear f m s :
  slot_ok s → contents (λ u, slot_ok u ∧ u ≠ s) f m → contents slot_ok (upd_slot f s (0, 0)) m.
Proof.
  intros Hs (H1 & H2 & H3). unfold contents, occ in *. split_and!.
  - intros t Ht. unfold upd_slot. case_decide; [done|]. by apply H1.
  - intros k a Hk. destruct (H2 k a Hk) as (t & [Ht Hne] & Hr). exists t.
    rewrite upd_slot_ne by done. by split.
  - intros t u Ht Hu. unfold upd_slot. repeat case_decide; try done. by apply H3.
Qed.

(** The empty table. *)
Lemma contents_empty P f : (∀ s, P s → ¬ occ f s) → contents P f ∅.
Proof.
  intros Hf. split_and!.
  - intros s Hs Ho. by destruct (Hf s Hs).
  - intros k a Hk. by rewrite lookup_empty in Hk.
  - intros s t Hs _ Ho. by destruct (Hf s Hs).
Qed.

(** A table has no more bindings than slots. *)
Lemma contents_size f m : contents slot_ok f m → Z.of_nat (size m) ≤ cap.
Proof.
  intros (_ & H2 & _). set (keys := omap (λ s, key_of (f s).2) (seqZ 0 cap)).
  assert (Hlen : (length keys ≤ Z.to_nat cap)%nat).
  { unfold keys. rewrite <- (length_seqZ 0 cap). generalize (seqZ 0 cap) as l.
    induction l as [|s l IH]; [done|]. cbn. destruct (key_of (f s).2); cbn; lia. }
  assert (Hsub : dom m ⊆ list_to_set (C := gset K) keys).
  { intros k [a Hk]%elem_of_dom. destruct (H2 k a Hk) as (s & Hs & _ & Heq & Hka).
    apply elem_of_list_to_set, list_elem_of_omap. exists s.
    split; [apply elem_of_seqZ; unfold slot_ok in Hs; lia|by rewrite Heq]. }
  apply subseteq_size in Hsub. rewrite size_dom in Hsub.
  assert (size (list_to_set (C := gset K) keys) ≤ length keys)%nat as Hle.
  { clearbody keys. clear Hlen Hsub. induction keys as [|k l IH]; cbn; [by rewrite size_empty|].
    rewrite size_union_alt, size_singleton.
    pose proof (subseteq_size (list_to_set (C := gset K) l ∖ {[k]}) (list_to_set l)
      (subseteq_difference_l _ _ _ (reflexivity _))). lia. }
  lia.
Qed.

(** *** Counting *)

(** The occupied slots. *)
Definition occupied (f : table) : list Z := base.filter (occ f) (seqZ 0 cap).

Lemma elem_of_occupied f s : s ∈ occupied f ↔ slot_ok s ∧ occ f s.
Proof.
  unfold occupied. rewrite list_elem_of_filter, elem_of_seqZ. unfold slot_ok.
  split; intros [? ?]; (split; [lia || done|lia || done]).
Qed.

Lemma occupied_NoDup f : NoDup (occupied f).
Proof. apply NoDup_filter, NoDup_seqZ. Qed.

(** Different slots hold different keys, so there are no more entries than
    bindings. *)
Lemma contents_keys f m l :
  contents slot_ok f m → NoDup l → (∀ s, s ∈ l → slot_ok s ∧ occ f s) →
  let keys := omap (λ s, key_of (f s).2) l in
  NoDup keys ∧ length keys = length l ∧ ∀ k, k ∈ keys → k ∈ dom m.
Proof.
  intros Hc Hnd Hl. pose proof Hc as (H1 & _ & _). induction l as [|s l IH].
  { split_and!; [constructor|done|]. intros k. by rewrite elem_of_nil. }
  apply NoDup_cons in Hnd as [Hnin Hnd].
  destruct IH as (IHnd & IHlen & IHdom); [done|intros t Ht; apply Hl; by right|].
  destruct (Hl s) as [Hs Hos]; [by left|]. destruct (H1 s Hs Hos) as (k & Hk & _ & Hm).
  cbn. rewrite Hk. split_and!.
  - apply NoDup_cons. split; [|done]. intros (t & Ht & Hkt)%list_elem_of_omap. apply Hnin.
    destruct (Hl t) as [Hts Hto]; [by right|].
    assert (s = t) as ->; [|done]. by eapply contents_inj.
  - cbn. by f_equal.
  - intros k' [->|Hk']%elem_of_cons; [|by apply IHdom]. apply elem_of_dom. by eexists.
Qed.

Lemma occupied_size f m : contents slot_ok f m → (length (occupied f) ≤ size m)%nat.
Proof.
  intros Hc. destruct (contents_keys f m (occupied f) Hc (occupied_NoDup f)) as (Hnd & <- & Hsub).
  { intros s. apply elem_of_occupied. }
  rewrite <- size_dom, <- (size_list_to_set (C := gset K) _ Hnd).
  apply subseteq_size. intros k Hk%elem_of_list_to_set. by apply Hsub.
Qed.

(** Every binding has a slot of its own. *)
Lemma size_occupied f m : contents slot_ok f m → (size m ≤ length (occupied f))%nat.
Proof.
  intros Hc. destruct (contents_keys f m (occupied f) Hc (occupied_NoDup f)) as (Hnd & <- & _).
  { intros s. apply elem_of_occupied. }
  rewrite <- size_dom, <- (size_list_to_set (C := gset K) _ Hnd).
  apply subseteq_size. intros k [a Ha]%elem_of_dom. apply elem_of_list_to_set.
  destruct Hc as (_ & H2 & _). destruct (H2 k a Ha) as (s & Hs & Ho & Heq & Hk).
  apply list_elem_of_omap. exists s. rewrite elem_of_occupied, Heq. done.
Qed.

(** A table with more slots than bindings has an empty slot. *)
Lemma contents_room f m :
  contents slot_ok f m → Z.of_nat (size m) < cap → ∃ s, slot_ok s ∧ ¬ occ f s.
Proof.
  intros Hc Hsize. destruct (decide (Exists (λ s, ¬ occ f s) (seqZ 0 cap))) as [He|Hn].
  - apply Exists_exists in He as (s & Hs & Ho). exists s. apply elem_of_seqZ in Hs.
    split; [unfold slot_ok; lia|done].
  - exfalso. pose proof (occupied_size f m Hc) as Hle. unfold occupied in Hle.
    rewrite filter_all, length_seqZ in Hle; [lia|].
    apply list.Forall_forall. intros s Hs. destruct (decide (occ f s)) as [|Ho]; [done|].
    exfalso. apply Hn. apply Exists_exists. by exists s.
Qed.

(** The way from its wanted slot to the slot of an entry is occupied, so no
    displacement reaches the number of entries. *)
Lemma disp_occupied f s :
  ordered f → slot_ok s → occ f s → (Z.to_nat (disp f s) < length (occupied f))%nat.
Proof.
  intros Hord Hs Ho. pose proof (disp_range f s) as Hd.
  set (way := (λ d, ((f s).1 + d) mod cap) <$> seqZ 0 (disp f s + 1)).
  assert (Hdist : ∀ d, 0 ≤ d < cap → dist (((f s).1 + d) mod cap) (f s).1 = d).
  { intros d Hd'. unfold dist. rewrite Zminus_mod_idemp_l.
    replace ((f s).1 + d - (f s).1) with d by lia. by apply Z.mod_small. }
  assert (Hlen : length way = S (Z.to_nat (disp f s))).
  { unfold way. rewrite length_fmap, length_seqZ. lia. }
  enough (length way ≤ length (occupied f))%nat by lia.
  apply submseteq_length, NoDup_submseteq.
  - unfold way. apply NoDup_fmap_2_strong; [|apply NoDup_seqZ].
    intros d1 d2 H1%elem_of_seqZ H2%elem_of_seqZ Heq.
    rewrite <- (Hdist d1), <- (Hdist d2) by lia. by rewrite Heq.
  - intros t (d & -> & Hd'%elem_of_seqZ)%list_elem_of_fmap. apply elem_of_occupied.
    assert (Ht : slot_ok (((f s).1 + d) mod cap)) by (by apply Z.mod_pos_bound).
    split; [done|]. apply (probe f s); try done. rewrite Hdist by lia. lia.
Qed.

End RobinHood.
