(* ===== verification/HashTable.v ===== *)
(** * The operations on the hash table (hashwriter.c, hashiter.c)

    The table is an array of bytes, a hash and an address to a slot.  Insertion,
    deletion, the statistics and the copy of an old table, as the code has them. *)

From stdpp Require Import base gmap list strings numbers.
From Stdlib Require Import ZArith Lia.
From S2P Require Import Prelude ReturnCodes OS Vlq LogHeader Compress HashAlg HashHeader.
From S2P Require Import LogReader LogCursor.

Local Open Scope Z_scope.

(** ** Definitions *)

(** The number of bits of a value; 32 rounds are enough for a 32 bit value. *)
Fixpoint int_log2_loop (fuel : nat) (x count : Z) : Z :=
  match fuel with
  | O => count
  | S fuel => if decide (0 < x) then int_log2_loop fuel (Z.shiftr x 1) (u32 (count + 1)) else count
  end.
Definition int_log2 (x : Z) : Z := int_log2_loop 32 x 0.

(** Header updates. *)
Definition set_hh_counts (garbage_size num_entries : Z) (h : sparkey_hashheader) :=
  HashHeader (hh_major_version h) (hh_minor_version h) (hh_file_identifier h) (hh_hash_seed h)
    (hh_header_size h) (hh_data_end h) (hh_max_key_len h) (hh_max_value_len h) garbage_size
    num_entries (hh_address_size h) (hh_hash_size h) (hh_hash_capacity h) (hh_max_displacement h)
    (hh_num_puts h) (hh_entry_block_bits h) (hh_entry_block_bitmask h) (hh_hash_collisions h)
    (hh_total_displacement h) (hh_hash_algorithm h).
Definition set_hh_displacement (total max collisions : Z) (h : sparkey_hashheader) :=
  HashHeader (hh_major_version h) (hh_minor_version h) (hh_file_identifier h) (hh_hash_seed h)
    (hh_header_size h) (hh_data_end h) (hh_max_key_len h) (hh_max_value_len h)
    (hh_garbage_size h) (hh_num_entries h) (hh_address_size h) (hh_hash_size h)
    (hh_hash_capacity h) max (hh_num_puts h) (hh_entry_block_bits h) (hh_entry_block_bitmask h)
    collisions total (hh_hash_algorithm h).

(** The garbage of one put that is no longer reachable. *)
Definition entry_garbage (keylen valuelen : Z) : Z :=
  keylen + valuelen + unsigned_vlq_size (u64 (keylen + 1)) + unsigned_vlq_size valuelen.

Definition added_entry (h : sparkey_hashheader) : sparkey_hashheader :=
  set_hh_counts (hh_garbage_size h) (u64 (hh_num_entries h + 1)) h.
Definition replaced_entry (keylen valuelen : Z) (h : sparkey_hashheader) : sparkey_hashheader :=
  set_hh_counts (u64 (hh_garbage_size h + entry_garbage keylen valuelen)) (hh_num_entries h) h.
Definition deleted_entry (keylen valuelen : Z) (h : sparkey_hashheader) : sparkey_hashheader :=
  set_hh_counts (u64 (hh_garbage_size h + entry_garbage keylen valuelen))
    (u64 (hh_num_entries h - 1)) h.

(** The state of the table functions: the table, its header, the iterator over
    the log and the random access iterator. *)
Record hstate : Type := HState {
  t_table : list Z;
  t_header : sparkey_hashheader;
  t_iter : sparkey_logiter;
  t_ra_iter : sparkey_logiter
}.

Definition set_t_table x s := HState x (t_header s) (t_iter s) (t_ra_iter s).
Definition set_t_header x s := HState (t_table s) x (t_iter s) (t_ra_iter s).
Definition set_t_iters x s := HState (t_table s) (t_header s) (fst x) (snd x).

Abbreviation MH A := (MC hstate A).
Definition on_iter {A} (m : MI A) : MH A :=
  zoom t_iter (λ i s, HState (t_table s) (t_header s) i (t_ra_iter s)) m.
Definition on_ra_iter {A} (m : MI A) : MH A :=
  zoom t_ra_iter (λ i s, HState (t_table s) (t_header s) (t_iter s) i) m.
Definition on_iters {A} (m : MI2 A) : MH A :=
  zoom (λ s, (t_iter s, t_ra_iter s)) set_t_iters m.

(** [slot_size], an int. *)
Definition slot_size (h : sparkey_hashheader) : Z := s32 (u32 (hh_address_size h + hh_hash_size h)).

(** [read_hash] and [read_addr] of the slot at [pos]. *)
Definition read_slot (h : sparkey_hashheader) (hashtable : list Z) (pos : Z) : option (Z * Z) :=
  hash ← ha_read_hash (hh_hash_algorithm h) hashtable pos;
  position ← read_addr hashtable (u64 (pos + hh_hash_size h)) (hh_address_size h);
  Some (hash, position).

(** [write_hash] and [write_addr] to the slot at [pos]. *)
Definition write_slot (h : sparkey_hashheader) (pos hash position : Z) (hashtable : list Z)
    : option (list Z) :=
  hash_bytes ← ha_write_hash (hh_hash_algorithm h) hash;
  hashtable ← mem_write hashtable pos hash_bytes;
  mem_write hashtable (u64 (pos + hh_hash_size h)) (write_addr position (hh_address_size h)).

(** The index of an entry in its block, and the position of the block. *)
Definition entry_index_of (h : sparkey_hashheader) (position : Z) : Z :=
  s32 (Z.land (u32 position) (hh_entry_block_bitmask h)).
Definition block_position_of (h : sparkey_hashheader) (position : Z) : Z :=
  Z.shiftr position (hh_entry_block_bits h).

(** The next slot and its place in the table. *)
Definition next_slot (h : sparkey_hashheader) (pos slot : Z) : Z * Z :=
  let pos := u64 (pos + slot_size h) in
  let slot := u64 (slot + 1) in
  if decide (slot >= hh_hash_capacity h) then (0, 0) else (pos, slot).

Section HashTable.
Context {C : Codec}.

Definition put_slot (pos hash position : Z) : MH unit :=
  st ← getS;
  table ← of_opt (write_slot (t_header st) pos hash position (t_table st));
  modS (set_t_table table).

Definition upd_header (f : sparkey_hashheader → sparkey_hashheader) : MH unit :=
  modS (λ s, set_t_header (f (t_header s)) s).

(** The comparison of the entry at a position with the entry of the iterator, as
    [hash_put] and [hash_delete] make it: the lengths of the old entry when the
    keys are the same. *)
Definition same_key (log : sparkey_logreader) (position entry_index : Z) : MH (option (Z * Z)) :=
  _ ← on_ra_iter (fetch_entry log position entry_index);
  st ← getS;
  let keylen2 := i_keylen (t_ra_iter st) in
  let valuelen2 := i_valuelen (t_ra_iter st) in
  if decide (i_type (t_ra_iter st) ≠ SPARKEY_ENTRY_PUT) then fail SPARKEY_INTERNAL_ERROR else
  if decide (i_keylen (t_iter st) = keylen2) then
    _ ← on_iter (sparkey_logiter_reset log);
    cmp ← on_iters (sparkey_logiter_keycmp log);
    if decide (cmp = 0) then mret (Some (keylen2, valuelen2)) else mret None
  else mret None.

(** The shift that closes the gap: each following entry that is not in its
    wanted slot moves back by one. *)
Fixpoint delete_shift (fuel : nat) (slot : Z) : MH Z :=
  match fuel with
  | O => out_of_fuel
  | S fuel =>
      st ← getS;
      let h := t_header st in
      let next_slot := u64 (slot + 1) mod hh_hash_capacity h in
      let next_pos := u64 (next_slot * slot_size h) in
      e3 ← of_opt (read_slot h (t_table st) next_pos);
      if decide (e3.2 = 0) then mret slot else
      if decide (e3.1 mod hh_hash_capacity h = next_slot) then mret slot else
      let pos3 := u64 (slot * slot_size h) in
      _ ← put_slot pos3 e3.1 e3.2;
      delete_shift fuel next_slot
  end.

(** The walk ends after one round trip at the latest: its displacement is then
    the capacity, more than that of any entry. *)
Fixpoint hash_delete_loop (fuel : nat) (log : sparkey_logreader) (hash pos slot displacement : Z)
    : MH unit :=
  match fuel with
  | O => out_of_fuel
  | S fuel =>
      st ← getS;
      let h := t_header st in
      e2 ← of_opt (read_slot h (t_table st) pos);
      let '(hash2, position2) := e2 in
      if decide (position2 = 0) then mret tt else
      let entry_index2 := entry_index_of h position2 in
      let position2 := block_position_of h position2 in
      if decide (position2 < lh_header_size (r_header log) ∨ position2 >= lh_data_end (r_header log))
      then fail SPARKEY_INTERNAL_ERROR else
      same ← (if decide (hash = hash2) then same_key log position2 entry_index2 else mret None);
      match same with
      | Some (keylen2, valuelen2) =>
          slot ← delete_shift (S (S (Z.to_nat (hh_hash_capacity h)))) slot;
          let pos3 := u64 (slot * slot_size h) in
          _ ← put_slot pos3 0 0;
          upd_header (deleted_entry keylen2 valuelen2)
      | None =>
          let other_displacement := get_displacement (hh_hash_capacity h) slot hash2 in
          if decide (displacement > other_displacement) then mret tt else
          let '(pos, slot) := next_slot h pos slot in
          hash_delete_loop fuel log hash pos slot (u64 (displacement + 1))
      end
  end.

Definition hash_delete (wanted_slot hash : Z) (log : sparkey_logreader) : MH unit :=
  st ← getS;
  hash_delete_loop (S (S (Z.to_nat (hh_hash_capacity (t_header st))))) log hash
    (u64 (wanted_slot * slot_size (t_header st))) wanted_slot 0.

(** [log] is [None] when the iterators and the log are NULL.  With an empty slot
    in the table the walk ends there within one round trip; without one the code
    does not terminate. *)
Fixpoint hash_put_loop (fuel : nat) (log : option sparkey_logreader)
    (hash pos slot displacement position : Z) (might_be_collision : bool) : MH unit :=
  match fuel with
  | O => out_of_fuel
  | S fuel =>
      st ← getS;
      let h := t_header st in
      e2 ← of_opt (read_slot h (t_table st) pos);
      let '(hash2, position2) := e2 in
      if decide (position2 = 0) then
        _ ← put_slot pos hash position;
        upd_header added_entry
      else
      let entry_index2 := entry_index_of h position2 in
      let position3 := block_position_of h position2 in
      same ← (match log with
              | Some log => if might_be_collision && bool_decide (hash = hash2)
                            then same_key log position3 entry_index2 else mret None
              | None => mret None
              end);
      match same with
      | Some (keylen2, valuelen2) =>
          _ ← put_slot pos hash position;
          upd_header (replaced_entry keylen2 valuelen2)
      | None =>
          let other_displacement := get_displacement (hh_hash_capacity h) slot hash2 in
          let '(pos', slot') := next_slot h pos slot in
          if decide (displacement > other_displacement) then
            _ ← put_slot pos hash position;
            hash_put_loop fuel log hash2 pos' slot' (u64 (other_displacement + 1)) position2 false
          else
            hash_put_loop fuel log hash pos' slot' (u64 (displacement + 1)) position
              might_be_collision
      end
  end.

(** How many rounds an insertion is given.  Two more than there are slots are enough if
    one of them is free; what holds for all choices does not depend on the bound. *)
Class PutRounds : Type := put_rounds : Z → nat.
#[global] Instance enough_rounds : PutRounds := λ capacity, S (S (Z.to_nat capacity)).

Definition hash_put {R : PutRounds} (wanted_slot hash : Z) (log : option sparkey_logreader)
    (position : Z) : MH unit :=
  st ← getS;
  hash_put_loop (put_rounds (hh_hash_capacity (t_header st))) log hash
    (u64 (wanted_slot * slot_size (t_header st))) wanted_slot 0 position
    (match log with Some _ => true | None => false end).

(** *** Statistics *)

(** The variables of the loop in [calculate_max_displacement]. *)
Record stats : Type := Stats {
  st_max_displacement : Z;
  st_num_hash_collisions : Z;
  st_total_displacement : Z;
  st_first : option Z;     (* first_hash, when has_first *)
  st_last : option Z;      (* last_hash, when has_last *)
  st_prev : option Z       (* prev_hash, when has_prev *)
}.

Definition stats_step (h : sparkey_hashheader) (hashtable : list Z) (slot : Z) (st : stats)
    : option stats :=
  let capacity := hh_hash_capacity h in
  e ← read_slot h hashtable (u64 (slot * slot_size h));
  let '(hash, position) := e in
  let collisions := if decide (st_prev st = Some hash) then u64 (st_num_hash_collisions st + 1)
                    else st_num_hash_collisions st in
  if decide (position ≠ 0) then
    let displacement := get_displacement capacity slot hash in
    Some (Stats
      (if decide (displacement > st_max_displacement st) then displacement
       else st_max_displacement st)
      collisions (u64 (st_total_displacement st + displacement))
      (if decide (slot = 0) then Some hash else st_first st)
      (if decide (slot = capacity - 1) then Some hash else st_last st)
      (Some hash))
  else
    Some (Stats (st_max_displacement st) collisions (st_total_displacement st) (st_first st)
      (st_last st) None).

Fixpoint stats_loop (n : nat) (h : sparkey_hashheader) (hashtable : list Z) (slot : Z) (st : stats)
    : option stats :=
  match n with
  | O => Some st
  | S n => st ← stats_step h hashtable slot st; stats_loop n h hashtable (slot + 1) st
  end.

Definition calculate_max_displacement (h : sparkey_hashheader) (hashtable : list Z)
    : option sparkey_hashheader :=
  st ← stats_loop (Z.to_nat (hh_hash_capacity h)) h hashtable 0 (Stats 0 0 0 None None None);
  let collisions := match st_first st, st_last st with
                    | Some a, Some b => if decide (a = b) then u64 (st_num_hash_collisions st + 1)
                                        else st_num_hash_collisions st
                    | _, _ => st_num_hash_collisions st
                    end in
  Some (set_hh_displacement (st_total_displacement st) (st_max_displacement st) collisions h).

(** *** The hash of the current key (hashiter.c) *)

(** [1 << 31] is an int: as a length it is 2^64 - 2^31. *)
Definition max_chunk : Z := u64 (s32 (Z.shiftl 1 31)).

(** A key that comes in pieces is collected in a buffer first; an error or a key
    that is too short hashes to 0.  The malloc of the buffer takes no decision of the
    schedule: the code uses its result without a look at it. *)
Definition sparkey_iter_hash (h : sparkey_hashheader) (log : sparkey_logreader) : MI Z := λ i,
  match sparkey_logiter_keychunk log max_chunk i with
  | (Err _, i) => (Ok 0, i)
  | (UB, i) => (UB, i)
  | (NoFuel, i) => (NoFuel, i)
  | (Ok buf, i) =>
      let hash_of keybuf : MI Z :=
        of_opt (f ← ha_hash (hh_hash_algorithm h); f keybuf (zlen keybuf) (hh_hash_seed h)) in
      if decide (zlen buf = i_keylen i) then hash_of buf i
      else
        match sparkey_logiter_fill_key log max_chunk i with
        | (Err _, i) => (Ok 0, i)
        | (UB, i) => (UB, i)
        | (NoFuel, i) => (NoFuel, i)
        | (Ok rest, i) =>
            if decide (zlen buf + zlen rest ≠ i_keylen i) then (Ok 0, i)
            else hash_of (buf ++ rest) i
        end
  end.

(** *** Copying an old table *)

Fixpoint hash_copy_loop {R : PutRounds} (n : nat) (buf : list Z) (i : Z) (old_header : sparkey_hashheader)
    : MH unit :=
  match n with
  | O => mret tt
  | S n =>
      st ← getS;
      let new_header := t_header st in
      e ← of_opt (read_slot old_header buf i);
      let '(hash, position) := e in
      let entry_index := entry_index_of old_header position in
      let position := block_position_of old_header position in
      let wanted_slot := hash mod hh_hash_capacity new_header in
      _ ← (if decide (position ≠ 0) then
             hash_put wanted_slot hash None
               (Z.lor (u64 (Z.shiftl position (hh_entry_block_bits new_header))) (u64 entry_index))
           else mret tt);
      hash_copy_loop n buf (u32 (i + slot_size old_header)) old_header
  end.

(** The number of rounds of [for (i = 0; i < buffer_size; i += slot_size)]. *)
Definition hash_copy {R : PutRounds} (buf : list Z) (buffer_size : Z) (old_header : sparkey_hashheader) : MH unit :=
  hash_copy_loop (Z.to_nat ((buffer_size + slot_size old_header - 1) / slot_size old_header))
    buf 0 old_header.

End HashTable.
