(* ===== verification/TableBytes.v ===== *)
(** * The table of bytes as a table of slots

    Reading and writing slots of the byte array of hashwriter.c and hashreader.c
    refines reading and updating the slots of [RobinHood]. *)

From stdpp Require Import base gmap list strings numbers.
From Stdlib Require Import ZArith Lia.
From S2P Require Import Prelude Endian Murmur LogHeader HashAlg HashHeader LogReader LogCursor.
From S2P Require Import RobinHood HashTable.

Local Open Scope Z_scope.

(** ** Tables up to pointwise equality *)

Record table_eq (f g : table) : Prop := TableEq { table_eq_at : ∀ s, f s = g s }.

#[export] Instance table_equiv : Equiv table := table_eq.

#[export] Instance table_equivalence : Equivalence (≡@{table}).
Proof.
  split; [by intros f|intros f g [H]; by split|].
  intros f g h [H1] [H2]. split. intros s. by rewrite H1.
Qed.

#[export] Instance occ_proper : Proper ((≡) ==> (=) ==> iff) occ.
Proof. intros f g [H] s ? <-. unfold occ. by rewrite H. Qed.

#[export] Instance disp_proper cap : Proper ((≡) ==> (=) ==> (=)) (disp cap).
Proof. intros f g [H] s ? <-. unfold disp. by rewrite H. Qed.

#[export] Instance upd_slot_proper : Proper ((≡) ==> (=) ==> (=) ==> (≡)) upd_slot.
Proof. intros f g [H] s ? <- x ? <-. split. intros t. unfold upd_slot. by rewrite (H t). Qed.

#[export] Instance ordered_proper cap : Proper ((≡) ==> iff) (ordered cap).
Proof.
  intros f g H. unfold ordered. apply forall_proper. intros s. by rewrite H.
Qed.

#[export] Instance anchored_proper cap : Proper ((≡) ==> iff) (anchored cap).
Proof.
  intros f g H. unfold anchored. f_equiv. intros s. by rewrite H.
Qed.

#[export] Instance fits_proper cap : Proper ((≡) ==> (=) ==> (=) ==> iff) (fits cap).
Proof.
  intros f g H s ? <- d ? <-. unfold fits. f_equiv. f_equiv. intros p. by rewrite H.
Qed.

#[export] Instance hole_proper cap : Proper ((≡) ==> (=) ==> (=) ==> iff) (hole cap).
Proof.
  intros f g H s ? <- d ? <-. unfold hole. f_equiv. f_equiv; [|f_equiv].
  - apply forall_proper. intros p. by rewrite H.
  - f_equiv. f_equiv. intros p. by rewrite H.
  - by rewrite H.
Qed.

#[export] Instance contents_proper `{Countable K} (key_of : Z → option K) (hk : K → Z) P :
  Proper ((≡) ==> (=) ==> iff) (contents key_of hk P).
Proof.
  intros f g [Hfg] m ? <-. split; apply contents_ext; intros s _; [done|symmetry; done].
Qed.

(** ** Slots *)

(** What the writer guarantees of a header. *)
Definition header_ok (h : sparkey_hashheader) : Prop :=
  0 < hh_hash_capacity h ∧ hh_hash_capacity h * 16 < 2 ^ 62 ∧
  valid_size (hh_address_size h) ∧ valid_size (hh_hash_size h) ∧
  hh_hash_algorithm h = sparkey_get_hash_algorithm (hh_hash_size h) ∧
  0 ≤ hh_entry_block_bits h < 31 ∧
  hh_entry_block_bitmask h = 2 ^ hh_entry_block_bits h - 1.

Definition table_ok (h : sparkey_hashheader) (tbl : list Z) : Prop :=
  bytes_ok tbl ∧ zlen tbl = hh_hash_capacity h * slot_size h.

(** The table of slots behind the bytes. *)
Definition slots (h : sparkey_hashheader) (tbl : list Z) : table :=
  λ s, default (0, 0) (read_slot h tbl (s * slot_size h)).

(** A pair that a slot can hold. *)
Definition pair_ok (h : sparkey_hashheader) (x : Z * Z) : Prop :=
  0 ≤ x.1 < field_limit (hh_hash_size h) ∧ 0 ≤ x.2 < field_limit (hh_address_size h).

Section Slots.
Context (h : sparkey_hashheader) (Hh : header_ok h).
Local Abbreviation cap := (hh_hash_capacity h).
Local Abbreviation ss := (slot_size h).

Lemma slot_size_eq : ss = hh_hash_size h + hh_address_size h ∧ 8 ≤ ss ≤ 16.
Proof.
  destruct Hh as (_ & _ & Ha & Hs & _). unfold slot_size.
  destruct Ha as [-> | ->], Hs as [-> | ->]; done.
Qed.

Lemma valid_size_bounds size : valid_size size → 4 ≤ size ≤ 8.
Proof. intros [-> | ->]; lia. Qed.

(** Where the fields of a slot are in the table. *)
Lemma slot_bounds s :
  slot_ok cap s →
  0 ≤ s * ss ∧ s * ss + ss ≤ cap * ss ∧ cap * ss < 2 ^ 62 ∧ u64 (s * ss) = s * ss ∧
  u64 (s * ss + hh_hash_size h) = s * ss + hh_hash_size h ∧
  ss = hh_hash_size h + hh_address_size h ∧ 4 ≤ hh_hash_size h ≤ 8 ∧ 4 ≤ hh_address_size h ≤ 8.
Proof.
  intros Hs. destruct slot_size_eq as [Heq Hr]. destruct Hh as (Hc & Hc2 & Ha & Hsz & _).
  apply valid_size_bounds in Ha, Hsz. unfold slot_ok in Hs.
  assert (0 ≤ s * ss) by nia. assert (s * ss + ss ≤ cap * ss) by nia.
  assert (cap * ss < 2 ^ 62) by nia. rewrite !u64_id by lia. lia.
Qed.

Lemma read_field size arr pos :
  valid_size size → read_addr arr pos size = le_value <$> mem_read arr pos size.
Proof. intros [-> | ->]; done. Qed.

Lemma read_field_ok size arr pos v :
  valid_size size → bytes_ok arr → read_addr arr pos size = Some v → 0 ≤ v < field_limit size.
Proof.
  intros Hs Hok. rewrite read_field by done. destruct (mem_read arr pos size) as [bs|] eqn:E; [|done].
  intros [= <-]. pose proof (mem_read_length _ _ _ _ E). pose proof (mem_read_bytes_ok _ _ _ _ E Hok).
  pose proof (le_value_bound bs) as Hb. unfold field_limit. rewrite Z.pow_mul_r by
    (apply valid_size_bounds in Hs; lia). change (2 ^ 8) with 256. rewrite <- H. by apply Hb.
Qed.

Lemma read_slot_unfold tbl pos :
  read_slot h tbl pos =
    (x ← read_addr tbl pos (hh_hash_size h);
     y ← read_addr tbl (u64 (pos + hh_hash_size h)) (hh_address_size h); Some (x, y)).
Proof.
  destruct Hh as (_ & _ & _ & Hs & Ha & _). unfold read_slot.
  by rewrite Ha, read_hash_addr.
Qed.

Lemma field_some size tbl pos :
  valid_size size → 0 ≤ pos → pos + size ≤ zlen tbl → is_Some (read_addr tbl pos size).
Proof.
  intros Hs Hp Hl. rewrite read_field by done.
  apply valid_size_bounds in Hs as Hb. rewrite mem_read_some by lia. by eexists.
Qed.

(** Every slot of a well formed table can be read. *)
Lemma read_slot_run tbl s :
  table_ok h tbl → slot_ok cap s →
  read_slot h tbl (s * ss) = Some (slots h tbl s) ∧ pair_ok h (slots h tbl s).
Proof.
  intros [Hok Hlen] Hs. destruct (slot_bounds s Hs) as (H0 & H1 & H2 & H3 & H4 & H5 & H6 & H7).
  destruct Hh as (_ & _ & Ha & Hsz & _).
  unfold slots. rewrite read_slot_unfold, H4.
  destruct (field_some (hh_hash_size h) tbl (s * ss) Hsz) as [x Hx]; [lia|lia|].
  destruct (field_some (hh_address_size h) tbl (s * ss + hh_hash_size h) Ha) as [y Hy]; [lia|lia|].
  rewrite Hx, Hy. cbn. split; [done|].
  apply read_field_ok in Hx, Hy; try done.
Qed.

Lemma slots_outside tbl s : table_ok h tbl → ¬ slot_ok cap s → slots h tbl s = (0, 0).
Proof.
  intros [_ Hlen] Hs. destruct slot_size_eq as [_ Hr]. destruct Hh as (Hc & _ & _ & Hsz & _).
  unfold slots. rewrite read_slot_unfold, (read_field (hh_hash_size h)) by done.
  apply valid_size_bounds in Hsz. unfold mem_read. rewrite decide_False; [done|].
  rewrite Hlen. unfold slot_ok in Hs. intros (H0 & _ & H1).
  assert (0 ≤ s) by nia. assert (cap ≤ s) by lia. nia.
Qed.

(** Writing a slot updates that slot and no other. *)
Lemma write_slot_run tbl s x :
  table_ok h tbl → slot_ok cap s → pair_ok h x →
  ∃ tbl', write_slot h (s * ss) x.1 x.2 tbl = Some tbl' ∧ table_ok h tbl' ∧
    slots h tbl' ≡ upd_slot (slots h tbl) s x.
Proof.
  intros Htbl Hs [Hx1 Hx2]. pose proof Htbl as [Hok Hlen].
  destruct (slot_bounds s Hs) as (H0 & H1 & H2 & H3 & H4 & H5 & H6 & H7).
  pose proof Hh as (_ & _ & Ha & Hsz & Halg & _).
  unfold write_slot. rewrite Halg, write_hash_addr by done. cbn [mbind option_bind]. rewrite H4.
  pose proof (write_addr_length x.1 _ Hsz) as Hl1. pose proof (write_addr_length x.2 _ Ha) as Hl2.
  destruct (mem_write tbl (s * ss) (write_addr x.1 (hh_hash_size h))) as [t1|] eqn:E1;
    [|rewrite mem_write_some in E1 by lia; done].
  pose proof (mem_write_length _ _ _ _ E1) as Hlt1.
  destruct (mem_write t1 (s * ss + hh_hash_size h) (write_addr x.2 (hh_address_size h)))
    as [t2|] eqn:E2; [|rewrite mem_write_some in E2 by lia; done].
  pose proof (mem_write_length _ _ _ _ E2) as Hlt2. cbn [mbind option_bind].
  assert (Htbl2 : table_ok h t2).
  { split; [|lia]. eapply mem_write_ok; [done| |apply write_addr_ok].
    eapply mem_write_ok; [done|done|apply write_addr_ok]. }
  exists t2. split; [done|]. split; [done|]. split. intros t.
  destruct (decide (slot_ok cap t)) as [Ht|Ht].
  2:{ rewrite slots_outside by done. unfold upd_slot. case_decide; [congruence|].
      by rewrite slots_outside. }
  destruct (slot_bounds t Ht) as (T0 & T1 & _ & _ & T4 & _).
  unfold slots at 1. rewrite read_slot_unfold, T4. unfold upd_slot. case_decide as Heq.
  - subst t.
    assert (Hr1 : read_addr t2 (s * ss) (hh_hash_size h) = Some x.1).
    { rewrite read_field, (mem_read_write_other _ _ _ _ (s * ss) (hh_hash_size h) E2), <- read_field
        by (done || lia).
      apply read_write_addr; [done|done|by eapply mem_read_write_same]. }
    assert (Hr2 : read_addr t2 (s * ss + hh_hash_size h) (hh_address_size h) = Some x.2)
      by (apply read_write_addr; [done|done|by eapply mem_read_write_same]).
    rewrite Hr1, Hr2. cbn. by destruct x.
  - assert (t * ss + ss ≤ s * ss ∨ s * ss + ss ≤ t * ss) as Hdis.
    { destruct slot_size_eq as [_ Hr]. destruct (decide (t < s)); [left|right].
      - assert ((t + 1) * ss ≤ s * ss) by (apply Z.mul_le_mono_nonneg_r; lia). lia.
      - assert ((s + 1) * ss ≤ t * ss) by (apply Z.mul_le_mono_nonneg_r; lia). lia. }
    unfold slots. rewrite read_slot_unfold, T4, !read_field by done.
    rewrite !(mem_read_write_other _ _ _ _ _ _ E2), !(mem_read_write_other _ _ _ _ _ _ E1) by lia.
    done.
Qed.

(** *** Arithmetic of slots *)

Lemma next_slot_run s :
  slot_ok cap s → next_slot h (s * ss) s = (nxt cap s * ss, nxt cap s).
Proof.
  intros Hs. destruct (slot_bounds s Hs) as (H0 & H1 & H2 & _).
  destruct slot_size_eq as [_ Hr]. pose proof Hs as Hs'. unfold slot_ok in Hs'.
  destruct Hh as (Hc & Hc2 & _). unfold next_slot, nxt.
  rewrite (u64_id (s + 1)) by lia. case_decide; [by rewrite Z.mul_0_l|].
  rewrite u64_id by lia. f_equal. lia.
Qed.

Lemma get_displacement_run s hash :
  slot_ok cap s → get_displacement cap s hash = dist cap s hash.
Proof.
  intros Hs. destruct Hh as (Hc & Hc2 & _). unfold slot_ok in Hs.
  rewrite get_displacement_eq by lia. done.
Qed.

(** Block position and index of an entry come out of its address as they went in. *)
Lemma address_split p i :
  0 ≤ p → 0 ≤ i < 2 ^ hh_entry_block_bits h → p * 2 ^ hh_entry_block_bits h + i < 2 ^ 64 →
  let a := Z.lor (u64 (Z.shiftl p (hh_entry_block_bits h))) (u64 i) in
  a = p * 2 ^ hh_entry_block_bits h + i ∧ block_position_of h a = p ∧ entry_index_of h a = i.
Proof.
  intros Hp Hi Hlt. destruct Hh as (_ & _ & _ & _ & _ & Hb & Hmask).
  pose proof (Z.pow_pos_nonneg 2 (hh_entry_block_bits h)) as Hpos.
  assert (2 ^ hh_entry_block_bits h < 2 ^ 31) as H31 by (apply Z.pow_lt_mono_r; lia).
  rewrite Z.shiftl_mul_pow2, !u64_id by nia. cbv zeta.
  assert (Z.lor (p * 2 ^ hh_entry_block_bits h) i = p * 2 ^ hh_entry_block_bits h + i) as ->.
  { rewrite Z.lor_comm, <- Z.shiftl_mul_pow2 by lia. rewrite lor_shiftl_add by lia.
    rewrite Z.shiftl_mul_pow2 by lia. lia. }
  split; [done|]. split.
  - unfold block_position_of. rewrite Z.shiftr_div_pow2 by lia.
    rewrite Z.div_add_l by lia. rewrite Z.div_small by lia. lia.
  - unfold entry_index_of. rewrite Hmask.
    replace (2 ^ hh_entry_block_bits h - 1) with (Z.ones (hh_entry_block_bits h))
      by (rewrite Z.ones_equiv; lia).
    rewrite Z.land_ones by lia. unfold u32.
    assert ((p * 2 ^ hh_entry_block_bits h + i) mod 2 ^ 32 mod 2 ^ hh_entry_block_bits h = i) as ->.
    { replace (2 ^ 32) with (2 ^ hh_entry_block_bits h * 2 ^ (32 - hh_entry_block_bits h))
        by (rewrite <- Z.pow_add_r by lia; f_equal; lia).
      rewrite Z.mod_mod_divide by (exists (2 ^ (32 - hh_entry_block_bits h)); lia).
      rewrite Z.add_comm, Z_mod_plus_full. apply Z.mod_small. lia. }
    apply s32_id. lia.
Qed.

End Slots.
