(* ===== verification/TableRefine.v ===== *)
(** * The table functions implement a map

    [hash_put] and [hash_delete] on the bytes of the table, with their
    comparisons of keys in the log, refine insertion into and deletion from a
    finite map from keys to addresses, and keep the Robin Hood order. *)

From stdpp Require Import base gmap list strings numbers.
From Stdlib Require Import ZArith Lia.
From S2P Require Import Prelude ReturnCodes Endian Murmur Vlq LogHeader Compress LogFormat.
From S2P Require Import HashAlg HashHeader LogReader LogCursor RobinHood HashTable TableBytes.

Local Open Scope Z_scope.

Section TableRefine.
Context {C : Codec} {log : sparkey_logreader} {es : list entry} {L : LogCursor log es}.

(** ** Addresses of entries *)

(** The address the table stores for entry [n]. *)
Definition addr_of (h : sparkey_hashheader) (n : nat) : Z :=
  Z.lor (u64 (Z.shiftl (cur_block n) (hh_entry_block_bits h))) (u64 (cur_index n)).

(** The fields of the header are large enough for the log. *)
Definition addresses_ok (h : sparkey_hashheader) : Prop :=
  ∀ n e, es !! n = Some e →
    0 < cur_block n ∧ cur_index n < 2 ^ hh_entry_block_bits h ∧
    cur_block n * 2 ^ hh_entry_block_bits h + cur_index n < field_limit (hh_address_size h).

(** The entry at an address, the key of the put there, and its value. *)
Definition entry_at (h : sparkey_hashheader) (a : Z) : option entry :=
  p ← list_find (λ n, addr_of h n = a) (seq 0 (length es)); es !! p.2.
Definition key_of (h : sparkey_hashheader) (a : Z) : option (list Z) :=
  e ← entry_at h a; if is_put e then Some (entry_key e) else None.
Definition value_at (h : sparkey_hashheader) (a : Z) : list Z :=
  match entry_at h a with Some e => entry_value e | None => [] end.

Definition hash_key (h : sparkey_hashheader) (k : list Z) : Z :=
  key_hash (hh_hash_size h) (hh_hash_seed h) k.

Lemma field_limit_64 size : valid_size size → field_limit size ≤ 2 ^ 64.
Proof. intros [-> | ->]; done. Qed.

Section Addresses.
Context (h : sparkey_hashheader) (Hh : header_ok h) (Ha : addresses_ok h).

Lemma addr_split n e :
  es !! n = Some e →
  block_position_of h (addr_of h n) = cur_block n ∧ entry_index_of h (addr_of h n) = cur_index n ∧
  0 < addr_of h n < field_limit (hh_address_size h).
Proof.
  intros He. destruct (Ha n e He) as (Hb & Hi & Hlt). destruct (cur_block_range n e He) as [_ Hi0].
  pose proof Hh as (_ & _ & Hsz & _ & _ & Hbits & _). pose proof (field_limit_64 _ Hsz).
  destruct (address_split h Hh (cur_block n) (cur_index n)) as (Heq & ? & ?); [lia..|].
  split; [done|]. split; [done|]. unfold addr_of. rewrite Heq.
  pose proof (Z.pow_pos_nonneg 2 (hh_entry_block_bits h)). nia.
Qed.

Lemma addr_inj n1 n2 e1 e2 :
  es !! n1 = Some e1 → es !! n2 = Some e2 → addr_of h n1 = addr_of h n2 → n1 = n2.
Proof.
  intros H1 H2 Heq. destruct (addr_split n1 e1 H1) as (B1 & I1 & _).
  destruct (addr_split n2 e2 H2) as (B2 & I2 & _). rewrite Heq in B1, I1.
  eapply cur_address_inj; [done|done|congruence|congruence].
Qed.

Lemma entry_at_addr n e : es !! n = Some e → entry_at h (addr_of h n) = Some e.
Proof.
  intros He. unfold entry_at.
  assert (Hin : n ∈ seq 0 (length es)).
  { apply elem_of_seq. apply lookup_lt_Some in He. lia. }
  destruct (list_find _ _) as [[i n']|] eqn:E.
  - apply list_find_Some in E as (Hl & Heq & _). cbn.
    apply list_elem_of_lookup_2, elem_of_seq in Hl as Hn'.
    destruct (lookup_lt_is_Some_2 es n') as [e' He']; [lia|].
    assert (n' = n) as -> by (by eapply addr_inj). done.
  - apply list_find_None in E. rewrite list.Forall_forall in E. by destruct (E n Hin).
Qed.

Lemma key_of_addr n k v : es !! n = Some (Put k v) → key_of h (addr_of h n) = Some k.
Proof. intros He. unfold key_of. by rewrite (entry_at_addr n _ He). Qed.

Lemma value_at_addr n e : es !! n = Some e → value_at h (addr_of h n) = entry_value e.
Proof. intros He. unfold value_at. by rewrite (entry_at_addr n _ He). Qed.

Lemma key_of_inv a k :
  key_of h a = Some k → ∃ n v, es !! n = Some (Put k v) ∧ a = addr_of h n.
Proof.
  unfold key_of, entry_at. destruct (list_find _ _) as [[i n]|] eqn:E; [|done]. cbn.
  apply list_find_Some in E as (_ & Heq & _). destruct (es !! n) as [[k' v|k']|] eqn:He; [|done..].
  intros [= ->]. by exists n, v.
Qed.

End Addresses.

(** ** The state of the table functions *)

(** The iterator stands on entry [n], and the other one can be used. *)
Definition iters_ok (n : nat) (st : hstate) : Prop :=
  (∃ off, cur_key n off (t_iter st)) ∧ cur_ready (t_ra_iter st).

(** The slots of the state. *)
Definition st_slots (st : hstate) : table := slots (t_header st) (t_table st).

Definition st_contents (st : hstate) (m : gmap (list Z) Z) : Prop :=
  contents (key_of (t_header st)) (hash_key (t_header st)) (slot_ok (hh_hash_capacity (t_header st)))
    (st_slots st) m.

(** The invariant: the table is well formed, ordered and anchored, and its
    entries are those of the map, whose number the header has. *)
Definition table_inv (st : hstate) (m : gmap (list Z) Z) : Prop :=
  header_ok (t_header st) ∧ addresses_ok (t_header st) ∧ table_ok (t_header st) (t_table st) ∧
  ordered (hh_hash_capacity (t_header st)) (st_slots st) ∧
  anchored (hh_hash_capacity (t_header st)) (st_slots st) ∧
  st_contents st m ∧ hh_num_entries (t_header st) = Z.of_nat (size m).

(** [st'] differs from [st] in the iterators only. *)
Definition same_table (st st' : hstate) : Prop :=
  t_table st' = t_table st ∧ t_header st' = t_header st.

(** The invariant does not look at the iterators. *)
Lemma table_inv_same st st' m : same_table st st' → table_inv st m → table_inv st' m.
Proof. intros [Ht Hh]. unfold table_inv, st_contents, st_slots. by rewrite Ht, Hh. Qed.

Lemma same_key_spec n0 e0 n k2 v2 st :
  iters_ok n0 st → es !! n0 = Some e0 → es !! n = Some (Put k2 v2) →
  ∃ st', same_key log (cur_block n) (cur_index n) st =
      (Ok (if decide (entry_key e0 = k2) then Some (zlen k2, zlen v2) else None), st') ∧
    iters_ok n0 st' ∧ same_table st st'.
Proof.
  intros [[off Hk0] Hra] He0 He. unfold same_key.
  destruct (cur_fetch n (Put k2 v2) (t_ra_iter st) Hra He) as (ra & Hf & Hkra).
  destruct (cur_key_entry _ _ _ Hkra) as (e' & He' & (_ & Hty & Hkl & Hvl) & _). simplify_eq.
  destruct (cur_key_entry _ _ _ Hk0) as (e' & He' & (_ & _ & Hkl0 & _) & _). simplify_eq.
  assert (Hon : on_ra_iter (fetch_entry log (cur_block n) (cur_index n)) st =
    (Ok tt, HState (t_table st) (t_header st) (t_iter st) ra)).
  { unfold on_ra_iter, zoom. by rewrite Hf. }
  rewrite (bind_Ok _ _ _ _ _ Hon), bind_getS. cbn [t_ra_iter t_iter].
  rewrite Hty, Hkl, Hvl, Hkl0. rewrite decide_False by (intros E; by apply E).
  cbn [entry_key entry_value]. case_decide as Hlen.
  - destruct (cur_key_reset n0 off (t_iter st) Hk0) as (i1 & Hr & Hk1).
    assert (Hon1 : on_iter (sparkey_logiter_reset log)
      (HState (t_table st) (t_header st) (t_iter st) ra) =
      (Ok tt, HState (t_table st) (t_header st) i1 ra)).
    { unfold on_iter, zoom. cbn [t_iter]. by rewrite Hr. }
    rewrite (bind_Ok _ _ _ _ _ Hon1).
    destruct (keycmp_spec n0 n e0 (Put k2 v2) i1 ra Hk1 Hkra He0 He)
      as (o1 & o2 & i2 & ra2 & Hc & Hk2 & Hkra2).
    assert (Hon2 : on_iters (sparkey_logiter_keycmp log)
      (HState (t_table st) (t_header st) i1 ra) =
      (Ok (lex_compare (entry_key e0) k2), HState (t_table st) (t_header st) i2 ra2)).
    { unfold on_iters, zoom. cbn [t_iter t_ra_iter]. by rewrite Hc. }
    rewrite (bind_Ok _ _ _ _ _ Hon2).
    exists (HState (t_table st) (t_header st) i2 ra2).
    split; [|split; [split; [by eexists|by eapply cur_key_ready]|done]].
    destruct (decide (entry_key e0 = k2)) as [Heq|Hne].
    + rewrite decide_True by (by apply lex_compare_eq). done.
    + rewrite decide_False by (by rewrite lex_compare_eq). done.
  - exists (HState (t_table st) (t_header st) (t_iter st) ra).
    split; [|split; [split; [by eexists|by eapply cur_key_ready]|done]].
    rewrite decide_False by (intros E; apply Hlen; by rewrite E). done.
Qed.

(** Writing and reading one slot of the state. *)
Lemma put_slot_run h st s x :
  t_header st = h → header_ok h → table_ok h (t_table st) → slot_ok (hh_hash_capacity h) s →
  pair_ok h x →
  ∃ tbl, put_slot (s * slot_size h) x.1 x.2 st = (Ok tt, set_t_table tbl st) ∧
    table_ok h tbl ∧ slots h tbl ≡ upd_slot (slots h (t_table st)) s x.
Proof.
  intros <- Hh Ht Hs Hx. destruct (write_slot_run _ Hh _ s x Ht Hs Hx) as (tbl & Hw & Ht' & Heq).
  exists tbl. split; [|done]. unfold put_slot. by rewrite bind_getS, Hw, bind_of_opt.
Qed.

(** The pair of a key and the address of its put fits into a slot. *)
Lemma key_pair_ok h n k v :
  header_ok h → addresses_ok h → es !! n = Some (Put k v) →
  pair_ok h (hash_key h k, addr_of h n).
Proof.
  intros Hh Ha He. split; cbn.
  - apply key_hash_range. apply Hh.
  - destruct (addr_split h Hh Ha n _ He) as (_ & _ & ?). lia.
Qed.

(** ** Insertion *)

(** What the table functions leave: a table with the bindings of [m], ordered
    and anchored, and the header changed by [f]. *)
Definition updated (h : sparkey_hashheader) (st' : hstate)
    (f : sparkey_hashheader → sparkey_hashheader) (m : gmap (list Z) Z) : Prop :=
  t_header st' = f h ∧ table_ok h (t_table st') ∧
  ordered (hh_hash_capacity h) (slots h (t_table st')) ∧
  anchored (hh_hash_capacity h) (slots h (t_table st')) ∧
  contents (key_of h) (hash_key h) (slot_ok (hh_hash_capacity h)) (slots h (t_table st')) m.

(** Filling the empty slot where the walk ends. *)
Lemma put_fill h st s hash position m :
  t_header st = h → header_ok h → table_ok h (t_table st) →
  ordered (hh_hash_capacity h) (slots h (t_table st)) →
  slot_ok (hh_hash_capacity h) s → ¬ occ (slots h (t_table st)) s →
  fits (hh_hash_capacity h) (slots h (t_table st)) s (dist (hh_hash_capacity h) s hash) →
  pair_ok h (hash, position) → position ≠ 0 →
  contents (key_of h) (hash_key h) (carry_ok (hh_hash_capacity h))
    (upd_slot (slots h (t_table st)) (-1) (hash, position)) m →
  ∃ st', (_ ← put_slot (s * slot_size h) hash position; upd_header added_entry) st = (Ok tt, st') ∧
    updated h st' added_entry m ∧ t_iter st' = t_iter st ∧ t_ra_iter st' = t_ra_iter st.
Proof.
  intros Hst Hh Ht Hord Hs Hempty Hfit Hpair Hpos Hcont. pose proof Hh as (Hcap & _).
  destruct (put_slot_run h st s (hash, position) Hst Hh Ht Hs Hpair) as (tbl & Hput & Ht1 & Hsl).
  rewrite (bind_Ok _ _ _ _ _ Hput). eexists. split; [reflexivity|]. split; [|done].
  unfold updated. cbn [t_header t_table set_t_header set_t_table]. rewrite Hst, Hsl.
  split_and!; [done|done| | |].
  - by apply ordered_write.
  - by apply anchored_fill.
  - by apply contents_place.
Qed.

(** Going on from an occupied slot [s], when [e] is empty. *)
Lemma walk_on h f s e :
  header_ok h → ordered (hh_hash_capacity h) f → slot_ok (hh_hash_capacity h) s → slot_ok (hh_hash_capacity h) e →
  occ f s → ¬ occ f e →
  slot_ok (hh_hash_capacity h) (nxt (hh_hash_capacity h) s) ∧
  dist (hh_hash_capacity h) e (nxt (hh_hash_capacity h) s) = dist (hh_hash_capacity h) e s - 1 ∧
  ∀ x, dist (hh_hash_capacity h) s x ≤ disp (hh_hash_capacity h) f s →
    u64 (dist (hh_hash_capacity h) s x + 1) = dist (hh_hash_capacity h) (nxt (hh_hash_capacity h) s) x ∧
    dist (hh_hash_capacity h) (nxt (hh_hash_capacity h) s) x = dist (hh_hash_capacity h) s x + 1 ∧
    fits (hh_hash_capacity h) f (nxt (hh_hash_capacity h) s) (dist (hh_hash_capacity h) (nxt (hh_hash_capacity h) s) x).
Proof.
  intros Hh Hord Hs He Hos Hempty. pose proof Hh as (Hcap & Hcap2 & _).
  pose proof (disp_room _ Hcap _ s e Hord Hs He Hos Hempty) as Hroom.
  assert (Hse : s ≠ e) by (intros ->; done).
  split; [by apply nxt_ok|]. split; [by apply dist_step|]. intros x Hx. pose proof (dist_range _ Hcap s x).
  assert (Hd : dist (hh_hash_capacity h) (nxt (hh_hash_capacity h) s) x = dist (hh_hash_capacity h) s x + 1).
  { rewrite dist_nxt by done. by rewrite decide_False by lia. }
  split; [rewrite Hd; apply u64_id; lia|]. split; [done|]. rewrite Hd. by apply fits_next.
Qed.

(** An entry that is further from home takes the slot; the one that was there goes on. *)
Lemma take_over h st s e hash position hash2 position2 :
  t_header st = h → header_ok h → table_ok h (t_table st) → ordered (hh_hash_capacity h) (slots h (t_table st)) →
  slot_ok (hh_hash_capacity h) s → slot_ok (hh_hash_capacity h) e → ¬ occ (slots h (t_table st)) e →
  slots h (t_table st) s = (hash2, position2) → position2 ≠ 0 → position ≠ 0 → pair_ok h (hash, position) →
  fits (hh_hash_capacity h) (slots h (t_table st)) s (dist (hh_hash_capacity h) s hash) →
  dist (hh_hash_capacity h) s hash > dist (hh_hash_capacity h) s hash2 →
  ∃ tbl, put_slot (s * slot_size h) hash position st = (Ok tt, set_t_table tbl st) ∧ table_ok h tbl ∧
    slots h tbl ≡ upd_slot (slots h (t_table st)) s (hash, position) ∧ ordered (hh_hash_capacity h) (slots h tbl) ∧
    ¬ occ (slots h tbl) e ∧
    fits (hh_hash_capacity h) (slots h tbl) (nxt (hh_hash_capacity h) s) (dist (hh_hash_capacity h) (nxt (hh_hash_capacity h) s) hash2).
Proof.
  intros Hst Hh Ht Hord Hs He Hempty Hf Hz Hpos Hpair Hfit Hsteal. pose proof Hh as (Hcap & _).
  assert (Hos : occ (slots h (t_table st)) s) by (unfold occ; by rewrite Hf).
  assert (Hd2 : dist (hh_hash_capacity h) s hash2 = disp (hh_hash_capacity h) (slots h (t_table st)) s)
    by (unfold disp; by rewrite Hf).
  destruct (walk_on h _ s e Hh Hord Hs He Hos Hempty) as (_ & _ & Hnext).
  destruct (Hnext hash2) as (_ & Hn2 & _); [lia|].
  destruct (put_slot_run h st s (hash, position) Hst Hh Ht Hs Hpair) as (tbl & Hput & Ht1 & Hsl).
  exists tbl. split; [done|]. split; [done|]. split; [done|]. split_and!.
  - rewrite Hsl. apply ordered_write; try done. intros _. lia.
  - rewrite Hsl. rewrite occ_upd_ne; [done|]. by intros ->.
  - rewrite Hsl, Hn2, Hd2. apply fits_displaced; [done..|lia].
Qed.

(** Carrying an entry whose key is nowhere else to the next empty slot. *)
Lemma put_carry h lg m e fuel st s hash position :
  t_header st = h → header_ok h → table_ok h (t_table st) →
  ordered (hh_hash_capacity h) (slots h (t_table st)) →
  slot_ok (hh_hash_capacity h) s → slot_ok (hh_hash_capacity h) e →
  ¬ occ (slots h (t_table st)) e →
  fits (hh_hash_capacity h) (slots h (t_table st)) s (dist (hh_hash_capacity h) s hash) →
  pair_ok h (hash, position) → position ≠ 0 →
  contents (key_of h) (hash_key h) (carry_ok (hh_hash_capacity h))
    (upd_slot (slots h (t_table st)) (-1) (hash, position)) m →
  dist (hh_hash_capacity h) e s < Z.of_nat fuel →
  ∃ st', hash_put_loop fuel lg hash (s * slot_size h) s (dist (hh_hash_capacity h) s hash)
           position false st = (Ok tt, st') ∧
    updated h st' added_entry m ∧ t_iter st' = t_iter st ∧ t_ra_iter st' = t_ra_iter st.
Proof.
  revert st s hash position. induction fuel as [|fuel IH];
    intros st s hash position Hst Hh Ht Hord Hs He Hempty Hfit Hpair Hpos Hcont Hfuel;
    pose proof Hh as (Hcap & Hcap2 & _).
  { pose proof (dist_range _ Hcap e s). lia. }
  pose proof (dist_range _ Hcap s hash) as Hdr.
  destruct (read_slot_run h Hh (t_table st) s Ht Hs) as [Hread Hpair2].
  cbn [hash_put_loop]. rewrite bind_getS, Hst, Hread, bind_of_opt.
  destruct (slots h (t_table st) s) as [hash2 position2] eqn:Hf. case_decide as Hz.
  { apply put_fill; try done. unfold occ. rewrite Hf. cbn. tauto. }
  assert (Hos : occ (slots h (t_table st)) s) by (unfold occ; by rewrite Hf).
  assert (Hse : s ≠ e) by (intros ->; done).
  assert (Hno : (match lg with
                 | Some log => if false && bool_decide (hash = hash2)
                               then same_key log (block_position_of h position2)
                                      (entry_index_of h position2) else mret None
                 | None => mret None
                 end : MH (option (Z * Z))) st = (Ok None, st)) by by destruct lg.
  rewrite (bind_Ok _ _ _ _ _ Hno).
  rewrite get_displacement_run, next_slot_run by done.
  assert (Hd2 : dist (hh_hash_capacity h) s hash2 = disp (hh_hash_capacity h) (slots h (t_table st)) s)
    by (unfold disp; by rewrite Hf).
  destruct (walk_on h _ s e Hh Hord Hs He Hos Hempty) as (Hns & Hstep & Hnext).
  cbv beta iota zeta.
  destruct (decide (dist (hh_hash_capacity h) s hash > dist (hh_hash_capacity h) s hash2)) as [Hsteal|Hsteal].
  - (* the entry of the slot is closer to home: it is carried on *)
    destruct (take_over h st s e hash position hash2 position2) as (tbl & Hput & Ht1 & Hsl & Hord1 & Hempty1 & Hfit1); try done.
    rewrite (bind_Ok _ _ _ _ _ Hput). rewrite (proj1 (Hnext hash2 ltac:(lia))).
    apply (IH (set_t_table tbl st)); try done; cbn [t_table set_t_table]; [|lia].
    rewrite Hsl, <- Hf. by apply contents_swap.
  - destruct (Hnext hash) as (-> & _ & Hfit1); [lia|]. apply (IH st); try done. lia.
Qed.

(** The header's counters after a put of [k] into a table with the bindings [m]:
    a new entry, or the garbage of the one replaced. *)
Definition count_insert (h : sparkey_hashheader) (m : gmap (list Z) Z) (k : list Z)
    : sparkey_hashheader → sparkey_hashheader :=
  match m !! k with
  | None => added_entry
  | Some a => replaced_entry (zlen k) (zlen (value_at h a))
  end.

(** What a walk sees in an occupied slot: the put of some key, whose comparison
    with the entry of the iterator decides whether the keys are equal. *)
Lemma compare_slot h st m n0 e0 s :
  t_header st = h → header_ok h → addresses_ok h →
  contents (key_of h) (hash_key h) (slot_ok (hh_hash_capacity h)) (slots h (t_table st)) m →
  iters_ok n0 st → es !! n0 = Some e0 → slot_ok (hh_hash_capacity h) s →
  occ (slots h (t_table st)) s →
  ∃ n2 k2 v2 st', let x := slots h (t_table st) s in
    es !! n2 = Some (Put k2 v2) ∧ x = (hash_key h k2, addr_of h n2) ∧ m !! k2 = Some (addr_of h n2) ∧
    block_position_of h x.2 = cur_block n2 ∧ entry_index_of h x.2 = cur_index n2 ∧
    (if decide (hash_key h (entry_key e0) = x.1)
     then same_key log (block_position_of h x.2) (entry_index_of h x.2) else mret None) st =
      (Ok (if decide (entry_key e0 = k2) then Some (zlen k2, zlen v2) else None), st') ∧
    iters_ok n0 st' ∧ same_table st st'.
Proof.
  intros Hst Hh Ha (H1 & _ & _) Hit He0 Hs Hos.
  destruct (H1 s Hs Hos) as (k2 & Hk2 & Hh2 & Hm2).
  destruct (key_of_inv h _ _ Hk2) as (n2 & v2 & He2 & Haddr).
  destruct (addr_split h Hh Ha n2 _ He2) as (Hb & Hi & _).
  destruct (slots h (t_table st) s) as [hash2 position2]. cbn in Hh2, Haddr, Hm2 |- *. subst.
  exists n2, k2, v2. destruct (decide (hash_key (t_header st) (entry_key e0) = hash_key (t_header st) k2))
    as [Heq|Hne].
  - rewrite Hb, Hi. destruct (same_key_spec n0 e0 n2 k2 v2 st Hit He0 He2) as (st' & Hsk & ? & ?).
    exists st'. by split_and!.
  - exists st. rewrite decide_False by congruence. by split_and!.
Qed.

(** Overwriting the address of a key that is in the table. *)
Lemma put_replace h st m n0 k v s a count :
  t_header st = h → header_ok h → addresses_ok h → table_ok h (t_table st) →
  ordered (hh_hash_capacity h) (slots h (t_table st)) →
  anchored (hh_hash_capacity h) (slots h (t_table st)) →
  contents (key_of h) (hash_key h) (slot_ok (hh_hash_capacity h)) (slots h (t_table st)) m →
  es !! n0 = Some (Put k v) → slot_ok (hh_hash_capacity h) s → a ≠ 0 →
  slots h (t_table st) s = (hash_key h k, a) → key_of h a = Some k →
  ∃ st', (_ ← put_slot (s * slot_size h) (hash_key h k) (addr_of h n0); upd_header count) st =
      (Ok tt, st') ∧
    updated h st' count (<[k := addr_of h n0]> m) ∧
    t_iter st' = t_iter st ∧ t_ra_iter st' = t_ra_iter st.
Proof.
  intros Hst Hh Ha Ht Hord Hanch Hcont He Hs Haz Hf Hka.
  pose proof (key_pair_ok h n0 k v Hh Ha He) as Hpair.
  destruct (addr_split h Hh Ha n0 _ He) as (_ & _ & Hpos).
  destruct (put_slot_run h st s (hash_key h k, addr_of h n0) Hst Hh Ht Hs Hpair)
    as (tbl & Hput & Ht1 & Hsl). cbn [fst snd] in Hput.
  assert (Hos : occ (slots h (t_table st)) s) by (unfold occ; by rewrite Hf).
  assert (Hsame : hash_key h k = (slots h (t_table st) s).1) by by rewrite Hf.
  rewrite (bind_Ok _ _ _ _ _ Hput). eexists. split; [reflexivity|]. split; [|done].
  unfold updated. cbn [t_header t_table set_t_header set_t_table]. rewrite Hst, Hsl.
  split_and!; [done|done| | |].
  - rewrite Hsame. apply ordered_replace; [done..|lia].
  - rewrite Hsame. apply anchored_replace; [done..|lia].
  - apply contents_replace; try done; [by rewrite Hf|by eapply key_of_addr|lia].
Qed.

(** The walk of [hash_put], as long as the key may still be met. *)
Lemma put_search h m e n0 k v fuel st s :
  t_header st = h → header_ok h → addresses_ok h → table_ok h (t_table st) →
  ordered (hh_hash_capacity h) (slots h (t_table st)) →
  anchored (hh_hash_capacity h) (slots h (t_table st)) →
  contents (key_of h) (hash_key h) (slot_ok (hh_hash_capacity h)) (slots h (t_table st)) m →
  iters_ok n0 st → es !! n0 = Some (Put k v) →
  slot_ok (hh_hash_capacity h) s → slot_ok (hh_hash_capacity h) e →
  ¬ occ (slots h (t_table st)) e →
  fits (hh_hash_capacity h) (slots h (t_table st)) s (dist (hh_hash_capacity h) s (hash_key h k)) →
  (∀ t, slot_ok (hh_hash_capacity h) t →
     dist (hh_hash_capacity h) t (hash_key h k) < dist (hh_hash_capacity h) s (hash_key h k) →
     occ (slots h (t_table st)) t → key_of h (slots h (t_table st) t).2 ≠ Some k) →
  dist (hh_hash_capacity h) e s < Z.of_nat fuel →
  ∃ st', hash_put_loop fuel (Some log) (hash_key h k) (s * slot_size h) s
           (dist (hh_hash_capacity h) s (hash_key h k)) (addr_of h n0) true st = (Ok tt, st') ∧
    updated h st' (count_insert h m k) (<[k := addr_of h n0]> m) ∧ iters_ok n0 st'.
Proof.
  set (cap := hh_hash_capacity h). set (hk := hash_key h k).
  revert st s. induction fuel as [|fuel IH];
    intros st s Hst Hh Ha Ht Hord Hanch Hcont Hit He0 Hs He Hempty Hfit Hpath Hfuel;
    pose proof Hh as (Hcap & Hcap2 & _).
  { pose proof (dist_range cap Hcap e s). lia. }
  pose proof (key_pair_ok h n0 k v Hh Ha He0) as Hpair.
  destruct (addr_split h Hh Ha n0 _ He0) as (_ & _ & Hpos).
  assert (Hfresh : m !! k = None → contents (key_of h) (hash_key h) (carry_ok cap)
    (upd_slot (slots h (t_table st)) (-1) (hk, addr_of h n0)) (<[k:=addr_of h n0]> m)).
  { intros Hk. apply contents_carry; try done; [by eapply key_of_addr|lia]. }
  destruct (read_slot_run h Hh (t_table st) s Ht Hs) as [Hread _].
  cbn [hash_put_loop]. rewrite bind_getS, Hst, Hread, bind_of_opt.
  destruct (decide (occ (slots h (t_table st)) s)) as [Hos|Hos].
  2:{ (* an empty slot *)
    assert (Hk : m !! k = None) by (apply (contents_absent cap Hcap (key_of h) (hash_key h) (slots h (t_table st)) m k s); auto).
    unfold occ in Hos. destruct (slots h (t_table st) s) as [hash2 position2] eqn:Hf.
    cbn [snd] in Hos. rewrite decide_True by (by apply dec_stable).
    unfold count_insert. rewrite Hk.
    destruct (put_fill h st s hk (addr_of h n0) (<[k:=addr_of h n0]> m)) as (st' & Hrun & Hupd & Hi & Hr);
      try done; [unfold occ; by rewrite Hf|lia|by apply Hfresh|].
    exists st'. split; [done|]. split; [done|]. unfold iters_ok. by rewrite Hi, Hr. }
  destruct (compare_slot h st m n0 (Put k v) s Hst Hh Ha Hcont Hit He0 Hs Hos)
    as (n2 & k2 & v2 & st1 & He2 & Hf & Hm2 & Hb & Hi & Hcmp & Hit1 & Htab1 & Hhd1).
  cbn [entry_key] in Hcmp. fold hk in Hcmp.
  assert (Hnz : (slots h (t_table st) s).2 ≠ 0) by done.
  assert (Hka2 : key_of h (addr_of h n2) = Some k2) by (by eapply key_of_addr).
  rewrite Hf in *. cbn [fst snd] in *. rewrite decide_False by done.
  assert (Hcmp' : (if true && bool_decide (hk = hash_key h k2)
     then same_key log (block_position_of h (addr_of h n2)) (entry_index_of h (addr_of h n2))
     else mret None) st = (Ok (if decide (k = k2) then Some (zlen k2, zlen v2) else None), st1)).
  { rewrite <- Hcmp. cbn [andb]. by case_bool_decide; case_decide. }
  rewrite (bind_Ok _ _ _ _ _ Hcmp').
  rewrite <- Htab1 in *.
  destruct (decide (k = k2)) as [<-|Hne].
  { (* the key of the entry *)
    unfold count_insert. rewrite Hm2, (value_at_addr h Hh Ha n2 _ He2).
    destruct (put_replace h st1 m n0 k v s (addr_of h n2) (replaced_entry (zlen k) (zlen v2)))
      as (st' & Hrun & Hupd & Hi1 & Hr1); try done; [congruence|].
    exists st'. split; [done|]. split; [done|]. unfold iters_ok. by rewrite Hi1, Hr1. }
  assert (Hst1 : t_header st1 = h) by congruence.
  rewrite get_displacement_run, next_slot_run by done. cbv beta iota zeta. fold cap.
  assert (Hd2 : dist cap s (hash_key h k2) = disp cap (slots h (t_table st1)) s)
    by (unfold disp; by rewrite Hf).
  destruct (decide (dist cap s hk > dist cap s (hash_key h k2))) as [Hsteal|Hsteal].
  - (* the slot is taken over, as when an entry is carried *)
    assert (Hk : m !! k = None).
    { apply (contents_absent cap Hcap (key_of h) (hash_key h) (slots h (t_table st1)) m k s);
        [done..|right; unfold hk in *; lia]. }
    destruct (put_carry h (Some log) (<[k:=addr_of h n0]> m) e (S fuel) st1 s hk (addr_of h n0))
      as (st' & Hrun & Hupd & Hi1 & Hr1); try done; [lia|by apply Hfresh|].
    cbn [hash_put_loop andb] in Hrun. rewrite bind_getS, Hst1, Hread, bind_of_opt, decide_False in Hrun by done.
    rewrite bind_ret, get_displacement_run, next_slot_run in Hrun by done. cbv beta iota zeta in Hrun. fold cap in Hrun.
    rewrite decide_True in Hrun by done. unfold count_insert. rewrite Hk.
    exists st'. split; [done|]. split; [done|]. unfold iters_ok. by rewrite Hi1, Hr1.
  - destruct (walk_on h _ s e Hh Hord Hs He Hos Hempty) as (Hns & Hstep & Hnext). fold cap in Hns, Hstep, Hnext.
    destruct (Hnext hk) as (-> & Hd1 & Hfit1); [lia|]. apply (IH st1); try done; [|lia].
    intros t Htok Hlt Hot. fold hk cap in Hlt. rewrite Hd1 in Hlt.
    destruct (decide (t = s)) as [->|Hts]; [rewrite Hf; cbn; congruence|].
    apply Hpath; [done| |done]. fold hk.
    assert (dist cap t hk ≠ dist cap s hk) by (intros E; by apply Hts, (dist_inj cap Hcap _ _ hk)).
    lia.
Qed.

Lemma count_insert_header h m k :
  0 ≤ hh_num_entries h → hh_num_entries h + 1 < 2 ^ 64 → hh_num_entries h = Z.of_nat (size m) →
  ∃ garbage, ∀ a, count_insert h m k h =
    set_hh_counts garbage (Z.of_nat (size (<[k := a]> m))) h.
Proof.
  intros H0 H1 Hn. unfold count_insert. destruct (m !! k) as [b|] eqn:Hk; eexists; intros a.
  - rewrite map_size_insert_Some by by eexists. unfold replaced_entry. by rewrite Hn.
  - rewrite map_size_insert_None by done. unfold added_entry.
    rewrite u64_id by lia. do 2 f_equal. lia.
Qed.

Lemma updated_inv h st st' f m m' garbage :
  t_header st = h → table_inv st m → updated h st' f m' →
  f h = set_hh_counts garbage (Z.of_nat (size m')) h → table_inv st' m'.
Proof.
  intros Hst (Hh & Ha & _) (Hst' & Ht & Hord & Hanch & Hcont) Hf. rewrite Hf in Hst'. rewrite Hst in *.
  unfold table_inv, st_contents, st_slots. rewrite Hst'.
  split_and!; done.
Qed.

(** [hash_put] of the entry under the iterator binds its key to its address. *)
Lemma hash_put_spec st m n0 k v :
  let h := t_header st in
  table_inv st m → iters_ok n0 st → es !! n0 = Some (Put k v) →
  Z.of_nat (size m) < hh_hash_capacity h →
  ∃ st', hash_put (hash_key h k mod hh_hash_capacity h) (hash_key h k) (Some log) (addr_of h n0) st
      = (Ok tt, st') ∧
    table_inv st' (<[k := addr_of h n0]> m) ∧ iters_ok n0 st' ∧
    t_header st' = count_insert h m k h.
Proof.
  intros h Hinv Hit He Hroom.
  pose proof Hinv as (Hh & Ha & Ht & Hord & Hanch & Hcont & Hn). fold h in Hh, Ha, Ht, Hord, Hanch, Hn.
  pose proof Hh as (Hcap & Hcap2 & _).
  destruct (contents_room _ Hcap _ _ _ _ Hcont Hroom) as (e & Hes & Hempty).
  set (cap := hh_hash_capacity h) in *.
  assert (Hw : slot_ok cap (hash_key h k mod cap)) by (by apply Z.mod_pos_bound).
  unfold hash_put, put_rounds, enough_rounds. rewrite bind_getS. fold h. fold cap.
  destruct (slot_bounds h Hh _ Hw) as (_ & _ & _ & Hu & _). rewrite Hu.
  pose proof (dist_wanted cap (hash_key h k)) as Hz.
  pose proof (dist_range cap Hcap e (hash_key h k mod cap)) as Hdr.
  destruct (put_search h m e n0 k v (S (S (Z.to_nat cap))) st (hash_key h k mod cap))
    as (st' & Hrun & Hupd & Hit'); try done.
  - by left.
  - intros t Ht0 Hlt. fold cap in Hlt. rewrite Hz in Hlt. pose proof (dist_range cap Hcap t (hash_key h k)). lia.
  - fold cap. lia.
  - fold cap in Hrun. rewrite Hz in Hrun. exists st'. split; [done|].
    destruct (count_insert_header h m k) as [g Hg]; [lia|unfold cap in *; lia|done|].
    split; [|split; [done|]].
    + by eapply (updated_inv h st).
    + apply Hupd.
Qed.

(** Without iterators the keys are not compared: the entry must be new. *)
Lemma hash_put_new st m n k v :
  let h := t_header st in
  table_inv st m → m !! k = None → es !! n = Some (Put k v) →
  Z.of_nat (size m) < hh_hash_capacity h →
  ∃ st', hash_put (hash_key h k mod hh_hash_capacity h) (hash_key h k) None (addr_of h n) st
      = (Ok tt, st') ∧
    table_inv st' (<[k := addr_of h n]> m) ∧ t_header st' = added_entry h ∧
    t_iter st' = t_iter st ∧ t_ra_iter st' = t_ra_iter st.
Proof.
  intros h Hinv Hk He Hroom.
  pose proof Hinv as (Hh & Ha & Ht & Hord & Hanch & Hcont & Hn). fold h in Hh, Ha, Ht, Hord, Hanch, Hn.
  pose proof Hh as (Hcap & Hcap2 & _).
  destruct (contents_room _ Hcap _ _ _ _ Hcont Hroom) as (e & Hes & Hempty).
  set (cap := hh_hash_capacity h) in *.
  assert (Hw : slot_ok cap (hash_key h k mod cap)) by (by apply Z.mod_pos_bound).
  pose proof (key_pair_ok h n k v Hh Ha He) as Hpair.
  destruct (addr_split h Hh Ha n _ He) as (_ & _ & Hpos).
  unfold hash_put, put_rounds, enough_rounds. rewrite bind_getS. fold h. fold cap.
  destruct (slot_bounds h Hh _ Hw) as (_ & _ & _ & Hu & _). rewrite Hu.
  pose proof (dist_wanted cap (hash_key h k)) as Hz.
  pose proof (dist_range cap Hcap e (hash_key h k mod cap)) as Hdr.
  destruct (put_carry h None (<[k:=addr_of h n]> m) e (S (S (Z.to_nat cap))) st
    (hash_key h k mod cap) (hash_key h k) (addr_of h n)) as (st' & Hrun & Hupd & Hi & Hr); try done.
  - by left.
  - lia.
  - apply contents_carry; try done; [by eapply key_of_addr|lia].
  - fold cap. lia.
  - fold cap in Hrun. rewrite Hz in Hrun. exists st'. split; [done|].
    destruct (count_insert_header h m k) as [g Hg]; [lia|unfold cap in *; lia|done|].
    unfold count_insert in Hg. rewrite Hk in Hg.
    split; [by eapply (updated_inv h st)|]. split; [apply Hupd|done].
Qed.

(** ** Deletion *)

(** The backward shift from a hole ends at a hole whose next slot is empty or
    holds an entry at home. *)
Lemma delete_shift_spec h m fuel st s d :
  let cap := hh_hash_capacity h in
  t_header st = h → header_ok h → table_ok h (t_table st) →
  hole cap (slots h (t_table st)) s d →
  contents (key_of h) (hash_key h) (λ u, slot_ok cap u ∧ u ≠ s) (slots h (t_table st)) m →
  (∃ a, slot_ok cap a ∧ a ≠ s ∧ dist cap a s < Z.of_nat fuel ∧
        (¬ occ (slots h (t_table st)) a ∨ disp cap (slots h (t_table st)) a = 0)) ∨
  (d = 0 ∧ cap < Z.of_nat fuel) →
  ∃ st' s' d', delete_shift fuel s st = (Ok s', st') ∧
    t_header st' = h ∧ table_ok h (t_table st') ∧ hole cap (slots h (t_table st')) s' d' ∧
    contents (key_of h) (hash_key h) (λ u, slot_ok cap u ∧ u ≠ s') (slots h (t_table st')) m ∧
    (¬ occ (slots h (t_table st')) (nxt cap s') ∨ disp cap (slots h (t_table st')) (nxt cap s') = 0) ∧
    t_iter st' = t_iter st ∧ t_ra_iter st' = t_ra_iter st.
Proof.
  intros cap. revert st s d. induction fuel as [|fuel IH];
    intros st s d Hst Hh Ht Hhole Hcont Hanchor; pose proof Hh as (Hcap & Hcap2 & _).
  { destruct Hanchor as [(a & _ & _ & Hlt & _)|[_ ?]]; [|lia]. pose proof (dist_range cap Hcap a s). lia. }
  pose proof Hhole as (Hs & _). set (n := nxt cap s).
  assert (Hn : slot_ok cap n) by by apply nxt_ok.
  assert (Hmod : u64 (s + 1) mod hh_hash_capacity h = n).
  { unfold slot_ok, cap in *. rewrite u64_id by lia. symmetry. by apply nxt_mod. }
  destruct (slot_bounds h Hh n Hn) as (_ & _ & _ & Hun & _).
  destruct (slot_bounds h Hh s Hs) as (_ & _ & _ & Hus & _).
  destruct (read_slot_run h Hh (t_table st) n Ht Hn) as [Hread Hpair].
  cbn [delete_shift]. rewrite bind_getS, Hst. cbv zeta. rewrite Hmod, Hun, Hread, bind_of_opt.
  assert (Hhome : (slots h (t_table st) n).1 mod hh_hash_capacity h = n ↔
                  disp cap (slots h (t_table st)) n = 0).
  { unfold disp. rewrite <- (dist_wanted cap (slots h (t_table st) n).1). fold cap.
    split; [intros E; by rewrite <- E at 1|]. intros E. symmetry.
    apply (dist_inj cap Hcap _ _ (slots h (t_table st) n).1); [done|by apply Z.mod_pos_bound|done]. }
  destruct (decide ((slots h (t_table st) n).2 = 0)) as [Hz|Hnz].
  { exists st, s, d. split_and!; try done. left. unfold occ. fold n. tauto. }
  destruct (decide ((slots h (t_table st) n).1 mod hh_hash_capacity h = n)) as [Hhm|Hhm].
  { exists st, s, d. split_and!; try done. right. by apply Hhome. }
  rewrite Hhome in Hhm. rewrite Hus.
  destruct (put_slot_run h st s (slots h (t_table st) n) Hst Hh Ht Hs Hpair) as (tbl & Hput & Ht1 & Hsl).
  rewrite (bind_Ok _ _ _ _ _ Hput).
  assert (Hns : n ≠ s).
  { intros E. assert (cap = 1) by (by apply (nxt_self cap Hcap s)).
    pose proof (disp_range cap Hcap (slots h (t_table st)) n). lia. }
  destruct (hole_move cap Hcap _ s d Hhole Hns Hnz Hhm) as [Hhole1 Hds]. fold n in Hhole1, Hds.
  destruct (IH (set_t_table tbl st) n (disp cap (slots h (t_table st)) n))
    as (st' & s' & d' & Hrun & Hr); try done; cbn [t_table set_t_table].
  - by rewrite Hsl.
  - rewrite Hsl. apply contents_hole_move; [done|done|by apply not_eq_sym|done].
  - left. destruct Hanchor as [(a & Hsa & Has & Hlt & Hstop)|[Hd Hlt]].
    + assert (Hna : n ≠ a) by (intros ->; by destruct Hstop).
      pose proof (dist_step cap Hcap s a Hs Hsa (not_eq_sym Has)) as Hstep. fold n in Hstep.
      exists a. rewrite Hsl, occ_upd_ne, disp_upd_ne by done. split_and!; try done; lia.
    + exists s. rewrite Hsl, Hds. pose proof (dist_range cap Hcap s n).
      split_and!; [done|congruence|lia|right]. destruct Hhole as (_ & _ & _ & Hnext).
      specialize (Hnext Hnz). fold n in Hnext.
      pose proof (disp_range cap Hcap (slots h (t_table st)) n). lia.
  - by exists st', s', d'.
Qed.

(** Removing the entry in a slot and closing the gap. *)
Lemma delete_found h st m k s a keylen valuelen :
  t_header st = h → header_ok h → table_ok h (t_table st) →
  ordered (hh_hash_capacity h) (slots h (t_table st)) →
  anchored (hh_hash_capacity h) (slots h (t_table st)) →
  contents (key_of h) (hash_key h) (slot_ok (hh_hash_capacity h)) (slots h (t_table st)) m →
  slot_ok (hh_hash_capacity h) s → a ≠ 0 → slots h (t_table st) s = (hash_key h k, a) →
  key_of h a = Some k →
  ∃ st', (slot ← delete_shift (S (S (Z.to_nat (hh_hash_capacity h)))) s;
          _ ← put_slot (u64 (slot * slot_size h)) 0 0;
          upd_header (deleted_entry keylen valuelen)) st = (Ok tt, st') ∧
    updated h st' (deleted_entry keylen valuelen) (delete k m) ∧
    t_iter st' = t_iter st ∧ t_ra_iter st' = t_ra_iter st.
Proof.
  intros Hst Hh Ht Hord (b & Hb & Hstop) Hcont Hs Haz Hf Hka. pose proof Hh as (Hcap & _).
  set (cap := hh_hash_capacity h) in *.
  assert (Hos : occ (slots h (t_table st)) s) by (unfold occ; by rewrite Hf).
  destruct (delete_shift_spec h (delete k m) (S (S (Z.to_nat cap))) st s
    (disp cap (slots h (t_table st)) s)) as (st1 & s1 & d1 & Hrun & Hst1 & Ht1 & Hhole & Hcont1 &
      Hstop1 & Hi1 & Hr1); try done.
  - by apply hole_start.
  - apply contents_hole_start; try done. by rewrite Hf.
  - fold cap. pose proof (dist_range cap Hcap b s).
    destruct (decide (b = s)) as [->|Hne]; [right|left; exists b; split_and!; try done; lia].
    destruct Hstop as [|Hz]; [done|]. split; [done|lia].
  - rewrite (bind_Ok _ _ _ _ _ Hrun).
    assert (Hs1 : slot_ok cap s1) by apply Hhole.
    destruct (slot_bounds h Hh s1 Hs1) as (_ & _ & _ & -> & _).
    destruct (put_slot_run h st1 s1 (0, 0) Hst1 Hh Ht1 Hs1) as (tbl & Hput & Ht2 & Hsl).
    { split; cbn; unfold field_limit; (split; [lia|]); apply Z.pow_pos_nonneg; try lia;
        destruct Hh as (_ & _ & Hsa & Hss & _); apply valid_size_bounds in Hsa, Hss; lia. }
    cbn [fst snd] in Hput. rewrite (bind_Ok _ _ _ _ _ Hput).
    eexists. split; [reflexivity|]. split; [|by rewrite <- Hi1, <- Hr1].
    unfold updated. cbn [t_header t_table set_t_header set_t_table]. rewrite Hst1, Hsl.
    destruct (hole_clear cap _ _ _ Hhole Hstop1) as [Hord2 Hanch2].
    split_and!; [done|done|done|done|]. by apply contents_hole_clear.
Qed.

(** The header after a delete of [k]. *)
Definition count_delete_entry (h : sparkey_hashheader) (m : gmap (list Z) Z) (k : list Z)
    : sparkey_hashheader → sparkey_hashheader :=
  match m !! k with
  | None => λ h, h
  | Some a => deleted_entry (zlen k) (zlen (value_at h a))
  end.

(** *** Walks

    [hash_delete], the lookup and the search for a position walk over the slots
    from the wanted slot of a key on.  [P] says what a walk looks for. *)

(** After [d] steps the walk is at slot [s], or around once, and has not met it. *)
Definition walked (h : sparkey_hashheader) (P : Z → Prop) (k : list Z) (f : table) (s d : Z) : Prop :=
  slot_ok (hh_hash_capacity h) s ∧ 0 ≤ d ≤ hh_hash_capacity h ∧
  (d = hh_hash_capacity h ∨ d = dist (hh_hash_capacity h) s (hash_key h k)) ∧
  (∀ t, slot_ok (hh_hash_capacity h) t → dist (hh_hash_capacity h) t (hash_key h k) < d → occ f t →
     ¬ P (f t).2).

Lemma walked_start h P k f :
  0 < hh_hash_capacity h → walked h P k f (hash_key h k mod hh_hash_capacity h) 0.
Proof.
  intros Hcap. split; [by apply Z.mod_pos_bound|]. split; [lia|].
  split; [right; symmetry; apply dist_wanted|].
  intros t _ Hlt. pose proof (dist_range _ Hcap t (hash_key h k)). lia.
Qed.

(** It ends at an empty slot, at an entry closer to home, or after a round trip:
    the key is not bound to what it looks for. *)
Lemma walked_absent h P m k f s d a :
  0 < hh_hash_capacity h → ordered (hh_hash_capacity h) f →
  contents (key_of h) (hash_key h) (slot_ok (hh_hash_capacity h)) f m →
  walked h P k f s d → ¬ occ f s ∨ disp (hh_hash_capacity h) f s < d →
  m !! k = Some a → ¬ P a.
Proof.
  intros Hcap Hord Hcont (Hs & Hdr & Hd & Hpath) Hstop Hk HP.
  assert (Hpath' : ∀ t, slot_ok (hh_hash_capacity h) t →
    dist (hh_hash_capacity h) t (hash_key h k) < d → occ f t → (f t).2 ≠ a).
  { intros t Ht Hlt Ho Heq. apply (Hpath t Ht Hlt Ho). by rewrite Heq. }
  destruct Hd as [->| ->].
  - destruct Hcont as (_ & H2 & _). destruct (H2 k a Hk) as (t & Ht & Ho & Heq & _).
    apply (Hpath' t Ht); [by apply dist_range|done|by rewrite Heq].
  - by eapply (contents_stop _ Hcap (key_of h) (hash_key h) f m k s a).
Qed.

Lemma walked_absent_key h m k f s d :
  0 < hh_hash_capacity h → ordered (hh_hash_capacity h) f →
  contents (key_of h) (hash_key h) (slot_ok (hh_hash_capacity h)) f m →
  walked h (λ a, key_of h a = Some k) k f s d →
  ¬ occ f s ∨ disp (hh_hash_capacity h) f s < d → m !! k = None.
Proof.
  intros Hcap Hord Hcont Hw Hstop. destruct (m !! k) as [a|] eqn:Hk; [|done]. exfalso.
  eapply (walked_absent h _ m k f s d a); try done. by eapply contents_key.
Qed.

(** The next step, over an entry at least as far from home as the way gone. *)
Lemma walked_step h P k f s d :
  header_ok h → walked h P k f s d → d ≤ disp (hh_hash_capacity h) f s → ¬ P (f s).2 →
  walked h P k f (nxt (hh_hash_capacity h) s) (d + 1) ∧ u64 (d + 1) = d + 1.
Proof.
  intros Hh (Hs & Hdr & Hd & Hpath) Hle Hne. pose proof Hh as (Hcap & Hcap2 & _).
  set (cap := hh_hash_capacity h) in *. pose proof (disp_range cap Hcap f s).
  destruct Hd as [->| ->]; [lia|]. split; [|apply u64_id; lia].
  split; [by apply nxt_ok|]. split; [fold cap; lia|]. fold cap. split.
  - rewrite dist_nxt by done. case_decide; [left|right]; lia.
  - intros t Ht Hlt Ho. destruct (decide (t = s)) as [->|Hts]; [done|].
    apply Hpath; [done| |done].
    assert (dist cap t (hash_key h k) ≠ dist cap s (hash_key h k))
      by (intros E; by apply Hts, (dist_inj cap Hcap _ _ (hash_key h k))).
    lia.
Qed.

Lemma delete_search h m n0 e0 fuel st s d :
  let k := entry_key e0 in
  t_header st = h → header_ok h → addresses_ok h → table_ok h (t_table st) →
  ordered (hh_hash_capacity h) (slots h (t_table st)) →
  anchored (hh_hash_capacity h) (slots h (t_table st)) →
  contents (key_of h) (hash_key h) (slot_ok (hh_hash_capacity h)) (slots h (t_table st)) m →
  iters_ok n0 st → es !! n0 = Some e0 →
  walked h (λ a, key_of h a = Some k) k (slots h (t_table st)) s d →
  hh_hash_capacity h < d + Z.of_nat fuel →
  ∃ st', hash_delete_loop fuel log (hash_key h k) (s * slot_size h) s d st = (Ok tt, st') ∧
    updated h st' (count_delete_entry h m k) (delete k m) ∧ iters_ok n0 st'.
Proof.
  intros k. revert st s d. induction fuel as [|fuel IH];
    intros st s d Hst Hh Ha Ht Hord Hanch Hcont Hit He0 Hw Hfuel;
    pose proof Hh as (Hcap & Hcap2 & _); pose proof Hw as (Hs & Hdr & _).
  { lia. }
  assert (Hnone : m !! k = None → ∀ st1, iters_ok n0 st1 → same_table st st1 →
    ∃ st', (Ok tt, st1) = (Ok (E := returncode) tt, st') ∧
      updated h st' (count_delete_entry h m k) (delete k m) ∧ iters_ok n0 st').
  { intros Hk st1 Hit1 [Htab Hhd]. exists st1. split; [done|]. split; [|done].
    unfold updated, count_delete_entry. rewrite Hk, delete_id, Htab by done.
    split_and!; try done. congruence. }
  destruct (read_slot_run h Hh (t_table st) s Ht Hs) as [Hread _].
  cbn [hash_delete_loop]. rewrite bind_getS, Hst, Hread, bind_of_opt.
  destruct (decide (occ (slots h (t_table st)) s)) as [Hos|Hos].
  2:{ assert (Hk : m !! k = None) by (by apply (walked_absent_key h m k (slots h (t_table st)) s d); try done; left).
      unfold occ in Hos. destruct (slots h (t_table st) s) as [hash2 position2].
      rewrite decide_True by (by apply dec_stable). by apply Hnone. }
  destruct (compare_slot h st m n0 e0 s Hst Hh Ha Hcont Hit He0 Hs Hos)
    as (n2 & k2 & v2 & st1 & He2 & Hf & Hm2 & Hb & Hi & Hcmp & Hit1 & Htab1 & Hhd1).
  assert (Hnz : (slots h (t_table st) s).2 ≠ 0) by done.
  assert (Hka2 : key_of h (addr_of h n2) = Some k2) by (by eapply key_of_addr).
  destruct (cur_block_range n2 _ He2) as [Hrange _].
  rewrite Hf in Hb, Hi, Hcmp, Hnz |- *. cbn [fst snd] in Hb, Hi, Hcmp, Hnz |- *.
  rewrite decide_False by done. rewrite Hb in *. rewrite decide_False by lia.
  rewrite (bind_Ok _ _ _ _ _ Hcmp). fold k.
  assert (Hst1 : t_header st1 = h) by congruence.
  destruct (decide (k = k2)) as [Heqk|Hne].
  { destruct (delete_found h st1 m k s (addr_of h n2) (zlen k2) (zlen v2)) as (st' & Hrun & Hupd & Hi1 & Hr1);
      rewrite ?Htab1; try done; [by rewrite Heqk|by rewrite Heqk|].
    exists st'. split; [done|]. unfold count_delete_entry.
    rewrite Heqk in Hupd |- *. rewrite Hm2, (value_at_addr h Hh Ha n2 _ He2).
    split; [done|]. unfold iters_ok. by rewrite Hi1, Hr1. }
  rewrite get_displacement_run, next_slot_run by done. cbv beta iota zeta.
  assert (Hd2 : dist (hh_hash_capacity h) s (hash_key h k2) = disp (hh_hash_capacity h) (slots h (t_table st)) s)
    by (unfold disp; by rewrite Hf).
  rewrite Hd2. destruct (decide (d > disp (hh_hash_capacity h) (slots h (t_table st)) s)) as [Hstop|Hstop].
  { apply Hnone; [|done|done].
    apply (walked_absent_key h m k (slots h (t_table st)) s d); try done. right; lia. }
  destruct (walked_step h (λ a, key_of h a = Some k) k (slots h (t_table st)) s d Hh Hw) as [Hw1 Hu];
    [lia|rewrite Hf; cbn; congruence|].
  rewrite Hu. apply (IH st1); rewrite ?Htab1; try done; lia.
Qed.

Lemma set_hh_counts_id h : set_hh_counts (hh_garbage_size h) (hh_num_entries h) h = h.
Proof. by destruct h. Qed.

(** [hash_put] of a key that is in the table finds it, also when no slot is free. *)
Lemma put_present h m a n0 k v fuel st s d :
  t_header st = h → header_ok h → addresses_ok h → table_ok h (t_table st) →
  ordered (hh_hash_capacity h) (slots h (t_table st)) →
  anchored (hh_hash_capacity h) (slots h (t_table st)) →
  contents (key_of h) (hash_key h) (slot_ok (hh_hash_capacity h)) (slots h (t_table st)) m →
  iters_ok n0 st → es !! n0 = Some (Put k v) → m !! k = Some a →
  walked h (λ a, key_of h a = Some k) k (slots h (t_table st)) s d →
  hh_hash_capacity h < d + Z.of_nat fuel →
  ∃ st', hash_put_loop fuel (Some log) (hash_key h k) (s * slot_size h) s d (addr_of h n0) true st = (Ok tt, st') ∧
    updated h st' (count_insert h m k) (<[k := addr_of h n0]> m) ∧ iters_ok n0 st'.
Proof.
  revert st s d. induction fuel as [|fuel IH];
    intros st s d Hst Hh Ha Ht Hord Hanch Hcont Hit He0 Hk Hw Hfuel;
    pose proof Hh as (Hcap & Hcap2 & _); pose proof Hw as (Hs & Hdr & _).
  { lia. }
  assert (Hthere : ¬ (¬ occ (slots h (t_table st)) s ∨ disp (hh_hash_capacity h) (slots h (t_table st)) s < d)).
  { intros Hstop. pose proof (walked_absent_key h m k _ s d Hcap Hord Hcont Hw Hstop). congruence. }
  destruct (read_slot_run h Hh (t_table st) s Ht Hs) as [Hread _].
  cbn [hash_put_loop]. rewrite bind_getS, Hst, Hread, bind_of_opt.
  destruct (decide (occ (slots h (t_table st)) s)) as [Hos|Hos]; [|by destruct Hthere; left].
  destruct (compare_slot h st m n0 (Put k v) s Hst Hh Ha Hcont Hit He0 Hs Hos)
    as (n2 & k2 & v2 & st1 & He2 & Hf & Hm2 & _ & _ & Hcmp & Hit1 & Htab1 & Hhd1).
  assert (Hnz : (slots h (t_table st) s).2 ≠ 0) by done.
  assert (Hka2 : key_of h (addr_of h n2) = Some k2) by (by eapply key_of_addr).
  assert (Hd2 : dist (hh_hash_capacity h) s (hash_key h k2) = disp (hh_hash_capacity h) (slots h (t_table st)) s)
    by (unfold disp; by rewrite Hf).
  rewrite Hf in Hcmp, Hnz |- *. cbn [fst snd entry_key] in Hcmp, Hnz |- *. rewrite decide_False by done.
  assert (Hcmp' : (if true && bool_decide (hash_key h k = hash_key h k2)
     then same_key log (block_position_of h (addr_of h n2)) (entry_index_of h (addr_of h n2))
     else mret None) st = (Ok (if decide (k = k2) then Some (zlen k2, zlen v2) else None), st1)).
  { rewrite <- Hcmp. cbn [andb]. by case_bool_decide; case_decide. }
  rewrite (bind_Ok _ _ _ _ _ Hcmp').
  destruct (decide (k = k2)) as [<-|Hne].
  - unfold count_insert. rewrite Hm2, (value_at_addr h Hh Ha n2 _ He2).
    destruct (put_replace h st1 m n0 k v s (addr_of h n2) (replaced_entry (zlen k) (zlen v2)))
      as (st' & Hrun & Hupd & Hi1 & Hr1); rewrite ?Htab1; try done; [congruence|].
    exists st'. split; [done|]. split; [done|]. unfold iters_ok. by rewrite Hi1, Hr1.
  - rewrite get_displacement_run, next_slot_run by done. cbv beta iota zeta.
    rewrite Hd2, decide_False by (intros Hd; apply Hthere; right; lia).
    destruct (walked_step h (λ a, key_of h a = Some k) k (slots h (t_table st)) s d Hh Hw) as [Hw1 Hu];
      [lia|rewrite Hf; cbn; congruence|].
    rewrite Hu. apply (IH st1); rewrite ?Htab1; try done; [congruence|lia].
Qed.

(** [hash_put] of the entry under the iterator binds its key to its address, if a slot is
    free or the key is there. *)
Lemma hash_put_binds st m n0 k v :
  let h := t_header st in
  table_inv st m → iters_ok n0 st → es !! n0 = Some (Put k v) →
  Z.of_nat (size m) < hh_hash_capacity h ∨ is_Some (m !! k) →
  ∃ st', hash_put (hash_key h k mod hh_hash_capacity h) (hash_key h k) (Some log) (addr_of h n0) st
      = (Ok tt, st') ∧
    table_inv st' (<[k := addr_of h n0]> m) ∧ iters_ok n0 st' ∧
    t_header st' = count_insert h m k h.
Proof.
  intros h Hinv Hit He Hroom. destruct (m !! k) as [a|] eqn:Hk.
  2:{ destruct Hroom as [Hroom|[? ?]]; [|done]. destruct (hash_put_spec st m n0 k v Hinv Hit He Hroom) as (st' & H).
      by exists st'. }
  pose proof Hinv as (Hh & Ha & Ht & Hord & Hanch & Hcont & Hn). fold h in Hh, Ha, Ht, Hord, Hanch, Hn.
  pose proof Hh as (Hcap & Hcap2 & _). pose proof (contents_size _ Hcap _ _ _ m Hcont).
  assert (Hw : slot_ok (hh_hash_capacity h) (hash_key h k mod hh_hash_capacity h)) by (by apply Z.mod_pos_bound).
  unfold hash_put, put_rounds, enough_rounds. rewrite bind_getS. fold h.
  destruct (slot_bounds h Hh _ Hw) as (_ & _ & _ & -> & _).
  destruct (put_present h m a n0 k v (S (S (Z.to_nat (hh_hash_capacity h)))) st (hash_key h k mod hh_hash_capacity h) 0)
    as (st' & Hrun & Hupd & Hit'); try done; [by apply walked_start|lia|].
  exists st'. split; [done|]. destruct (count_insert_header h m k) as [g Hg]; [lia|lia|done|].
  split; [by eapply (updated_inv h st)|]. split; [done|apply Hupd].
Qed.

(** *** Other bounds *)

(** More rounds change nothing for an insertion that has ended. *)
Lemma hash_put_loop_more fuel extra lg hash pos slot d position b st :
  (hash_put_loop fuel lg hash pos slot d position b st).1 = NoFuel ∨
  hash_put_loop (fuel + extra) lg hash pos slot d position b st = hash_put_loop fuel lg hash pos slot d position b st.
Proof.
  revert hash pos slot d position b st. induction fuel as [|fuel IH]; intros hash pos slot d position b st; [by left|].
  cbn [hash_put_loop Nat.add]. rewrite !bind_getS. unfold mbind, M_bind.
  destruct (of_opt _ _) as [[[hash2 position2]|e| |] st0]; try by right.
  destruct (decide (position2 = 0)); [by right|].
  match goal with |- context [match ?x with (_, _) => _ end] => destruct x as [[[[kl vl]|]|e| |] st1] end; try by right.
  destruct (next_slot _ _ _) as [pos' slot']. destruct (decide (d > _)); [|apply IH].
  destruct (put_slot _ _ _ _) as [[[]|e| |] st2]; try by right. apply IH.
Qed.

Lemma hash_put_rounds (R : PutRounds) w hash lg position st r st' :
  hash_put (R := enough_rounds) w hash lg position st = (r, st') → r ≠ NoFuel →
  (hash_put (R := R) w hash lg position st).1 = NoFuel ∨ hash_put (R := R) w hash lg position st = (r, st').
Proof.
  unfold hash_put. rewrite !bind_getS. unfold put_rounds at 1, enough_rounds.
  set (f1 := S (S (Z.to_nat _))). set (f2 := put_rounds _). intros Hrun Hr.
  destruct (decide (f1 ≤ f2)%nat) as [Hle|Hlt].
  - right. replace f2 with (f1 + (f2 - f1))%nat by lia.
    match type of Hrun with hash_put_loop _ ?lg ?hash ?pos ?slot ?d ?position ?b ?st = _ =>
      destruct (hash_put_loop_more f1 (f2 - f1) lg hash pos slot d position b st) as [E|E] end.
    + rewrite Hrun in E. by cbn in E.
    + by rewrite E.
  - match type of Hrun with hash_put_loop _ ?lg ?hash ?pos ?slot ?d ?position ?b ?st = _ =>
      destruct (hash_put_loop_more f2 (f1 - f2) lg hash pos slot d position b st) as [E|E] end; [by left|].
    right. rewrite <- E. by replace (f2 + (f1 - f2))%nat with f1 by lia.
Qed.

(** [hash_delete] of the key under the iterator removes its binding, if any. *)
Lemma hash_delete_spec st m n0 e0 :
  let h := t_header st in
  let k := entry_key e0 in
  table_inv st m → iters_ok n0 st → es !! n0 = Some e0 →
  ∃ st', hash_delete (hash_key h k mod hh_hash_capacity h) (hash_key h k) log st = (Ok tt, st') ∧
    table_inv st' (delete k m) ∧ iters_ok n0 st' ∧ t_header st' = count_delete_entry h m k h.
Proof.
  intros h k Hinv Hit He.
  pose proof Hinv as (Hh & Ha & Ht & Hord & Hanch & Hcont & Hn). fold h in Hh, Ha, Ht, Hord, Hanch, Hn.
  pose proof Hh as (Hcap & Hcap2 & _). set (cap := hh_hash_capacity h) in *.
  assert (Hw : slot_ok cap (hash_key h k mod cap)) by (by apply Z.mod_pos_bound).
  unfold hash_delete. rewrite bind_getS. fold h. fold cap.
  destruct (slot_bounds h Hh _ Hw) as (_ & _ & _ & Hu & _). rewrite Hu.
  destruct (delete_search h m n0 e0 (S (S (Z.to_nat cap))) st (hash_key h k mod cap) 0)
    as (st' & Hrun & Hupd & Hit'); try done.
  - by apply walked_start.
  - fold cap. lia.
  - exists st'. split; [done|]. split; [|split; [done|apply Hupd]].
    assert (∃ g, count_delete_entry h m k h = set_hh_counts g (Z.of_nat (size (delete k m))) h) as [g Hg].
    { unfold count_delete_entry. destruct (m !! k) as [a|] eqn:Hk; eexists.
      - rewrite map_size_delete_Some by by eexists. unfold deleted_entry.
        assert (size m ≠ 0%nat) by (intros E; apply map_size_empty_iff in E; by rewrite E in Hk).
        pose proof (contents_size cap Hcap _ _ _ m Hcont).
        rewrite (u64_id (hh_num_entries h - 1)) by lia. f_equal. lia.
      - rewrite delete_id, <- Hn by done. symmetry. apply set_hh_counts_id. }
    by eapply (updated_inv h st).
Qed.

End TableRefine.
