(* ===== verification/TableStats.v ===== *)
(** * The statistics of the table (calculate_max_displacement)

    What the loop over the slots computes, in terms of the table of slots: the
    largest displacement, the sum of the displacements, and the number of
    collisions, which never exceeds the number of entries.  In an ordered table that
    is what makes the loader of the index accept the header that was written. *)

From stdpp Require Import base gmap list strings numbers.
From Stdlib Require Import ZArith Lia.
From S2P Require Import Prelude HashHeader HashAlg RobinHood HashTable TableBytes.

Local Open Scope Z_scope.

(** The slots below [n] with some property, one at a time. *)
Lemma filter_seqZ_S (P : Z → Prop) `{∀ s, Decision (P s)} n :
  0 ≤ n → base.filter P (seqZ 0 (n + 1)) = base.filter P (seqZ 0 n) ++ (if decide (P n) then [n] else []).
Proof.
  intros Hn. rewrite seqZ_app by lia. change (0 + n) with n. change (seqZ n 1) with [0 + n].
  rewrite Z.add_0_l. by rewrite list.filter_app, filter_cons, filter_nil.
Qed.

Lemma filter_length_mono {A} (P Q : A → Prop) `{∀ x, Decision (P x), ∀ x, Decision (Q x)} l :
  (∀ x, P x → Q x) → zlen (base.filter P l) ≤ zlen (base.filter Q l).
Proof.
  intros HPQ. induction l as [|x l IH]; [done|]. rewrite !filter_cons.
  destruct (decide (P x)) as [HP|]; [rewrite decide_True by auto; cbn [length]; lia|].
  case_decide; cbn [length]; lia.
Qed.

Lemma filter_seqZ_length (P : Z → Prop) `{∀ s, Decision (P s)} n : zlen (base.filter P (seqZ 0 n)) ≤ Z.max 0 n.
Proof. pose proof (length_filter P (seqZ 0 n)) as Hl. rewrite length_seqZ in Hl. lia. Qed.

(** The occupied slots below [n], and the sum of their displacements. *)
Definition occupied_below (f : table) (n : Z) : list Z := base.filter (occ f) (seqZ 0 n).
Definition total_disp (cap : Z) (f : table) (n : Z) : Z :=
  foldr Z.add 0 (disp cap f <$> occupied_below f n).

(** An entry collides if the next slot has its hash.  The code looks at the hash of the
    next slot without asking whether the slot is occupied, and an empty slot has hash
    0; only behind the last slot it asks. *)
Definition collides (cap : Z) (f : table) (s : Z) : Prop :=
  occ f s ∧ (f s).1 = (f (nxt cap s)).1 ∧ (s = cap - 1 → occ f 0).

#[export] Instance collides_dec cap f s : Decision (collides cap f s).
Proof. unfold collides. apply _. Defined.

Definition collisions (cap : Z) (f : table) (n : Z) : Z := zlen (base.filter (collides cap f) (seqZ 0 n)).

Lemma occupied_below_S f n :
  0 ≤ n → occupied_below f (n + 1) = occupied_below f n ++ (if decide (occ f n) then [n] else []).
Proof. apply filter_seqZ_S. Qed.

Lemma collisions_S cap f n :
  0 ≤ n → collisions cap f (n + 1) = collisions cap f n + (if decide (collides cap f n) then 1 else 0).
Proof.
  intros Hn. unfold collisions. rewrite filter_seqZ_S by done. rewrite length_app.
  case_decide; cbn [length]; lia.
Qed.

Lemma collisions_range cap f n : 0 ≤ collisions cap f n ≤ Z.max 0 n.
Proof. split; [unfold collisions; lia|apply filter_seqZ_length]. Qed.

Lemma collisions_occupied cap f : collisions cap f cap ≤ zlen (occupied cap f).
Proof. apply filter_length_mono. by intros s [? _]. Qed.

Lemma total_disp_S cap f n :
  0 ≤ n → total_disp cap f (n + 1) = total_disp cap f n + (if decide (occ f n) then disp cap f n else 0).
Proof.
  intros Hn. unfold total_disp. rewrite occupied_below_S, fmap_app by done.
  rewrite foldr_app. assert (Hf : ∀ l x, foldr Z.add x l = foldr Z.add 0 l + x).
  { induction l as [|y l IH]; intros x; cbn; [lia|]. rewrite IH. lia. }
  rewrite Hf. f_equal. case_decide; cbn; lia.
Qed.

Section Stats.
Context (h : sparkey_hashheader) (Hh : header_ok h) (tbl : list Z) (Ht : table_ok h tbl).
Local Abbreviation cap := (hh_hash_capacity h).
Local Abbreviation f := (slots h tbl).

(** The hash of an entry. *)
Definition entry_hash (s : Z) : option Z := if decide (occ f s) then Some (f s).1 else None.

(** After the slots below [n]. *)
Definition stats_inv (n : Z) (st : stats) : Prop :=
  0 ≤ st_max_displacement st ∧
  (∀ t, 0 ≤ t < n → occ f t → disp cap f t ≤ st_max_displacement st) ∧
  (st_max_displacement st = 0 ∨
   ∃ t, 0 ≤ t < n ∧ occ f t ∧ disp cap f t = st_max_displacement st) ∧
  st_total_displacement st = u64 (total_disp cap f n) ∧
  st_num_hash_collisions st = collisions cap f (n - 1) ∧
  st_prev st = (if decide (0 < n) then entry_hash (n - 1) else None) ∧
  st_first st = (if decide (0 < n) then entry_hash 0 else None) ∧
  st_last st = (if decide (n = cap) then entry_hash (cap - 1) else None).

(** The largest displacement, with one more entry. *)
Lemma max_step n mx :
  0 ≤ n < cap → occ f n → 0 ≤ mx →
  (∀ t, 0 ≤ t < n → occ f t → disp cap f t ≤ mx) →
  (mx = 0 ∨ ∃ t, 0 ≤ t < n ∧ occ f t ∧ disp cap f t = mx) →
  let mx' := if decide (disp cap f n > mx) then disp cap f n else mx in
  0 ≤ mx' ∧ (∀ t, 0 ≤ t < n + 1 → occ f t → disp cap f t ≤ mx') ∧
  (mx' = 0 ∨ ∃ t, 0 ≤ t < n + 1 ∧ occ f t ∧ disp cap f t = mx').
Proof.
  intros Hn Ho Hm0 Hmax Hatt mx'. split_and!.
  - unfold mx'. case_decide; lia.
  - intros t Hlt Hot. unfold mx'. destruct (decide (t = n)) as [->|]; [case_decide; lia|].
    pose proof (Hmax t ltac:(lia) Hot). case_decide; lia.
  - unfold mx'. case_decide; [right; exists n; split_and!; try done; lia|].
    destruct Hatt as [?|(t & ? & ? & ?)]; [by left|right; exists t; split_and!; try done; lia].
Qed.

(** The collision that is seen at slot [n]. *)
Lemma collision_step n :
  0 ≤ n < cap →
  collisions cap f n = collisions cap f (n - 1) +
    (if decide ((if decide (0 < n) then entry_hash (n - 1) else None) = Some (f n).1) then 1 else 0).
Proof.
  intros Hn. destruct (decide (0 < n)) as [Hp|]; [|assert (n = 0) as -> by lia; done].
  replace n with (n - 1 + 1) at 1 by lia. rewrite collisions_S by lia. f_equal.
  assert (Hnx : nxt cap (n - 1) = n) by (unfold nxt; rewrite decide_False by lia; lia).
  apply decide_ext. unfold entry_hash, collides. rewrite Hnx.
  destruct (decide (occ f (n - 1))) as [Ho|Ho]; [|split; [tauto|done]].
  split; [intros (_ & -> & _); done|]. intros [= ->]. split_and!; [done|done|lia].
Qed.

Lemma stats_step_spec n st :
  0 ≤ n < cap → stats_inv n st →
  ∃ st', stats_step h tbl n st = Some st' ∧ stats_inv (n + 1) st'.
Proof.
  intros Hn (Hm0 & Hmax & Hatt & Htot & Hc & Hprev & Hfirst & Hlast).
  destruct (slot_bounds h Hh n Hn) as (_ & _ & _ & Hu & _).
  destruct (read_slot_run h Hh tbl n Ht Hn) as [Hread _]. pose proof Hh as (Hcap & Hcap2 & _).
  unfold stats_step. rewrite Hu, Hread. cbn [mbind option_bind].
  assert (Hoc : occ f n ↔ (f n).2 ≠ 0) by done.
  assert (Hd : disp cap f n = dist cap n (f n).1) by done.
  pose proof (collision_step n Hn) as Hcs. rewrite <- Hprev, <- Hc in Hcs.
  assert (Heh : entry_hash n = if decide (occ f n) then Some (f n).1 else None) by done.
  destruct (f n) as [hash position] eqn:Hf. cbn [fst snd] in Hoc, Hd, Hcs, Heh.
  rewrite get_displacement_run, <- Hd by done. pose proof (collisions_range cap f n).
  set (coll := if decide (st_prev st = Some hash) then _ else _).
  assert (Hcoll : coll = collisions cap f (n + 1 - 1)).
  { replace (n + 1 - 1) with n by lia. unfold coll. clear coll.
    destruct (decide (st_prev st = Some hash)); [rewrite u64_id by lia|]; lia. }
  rewrite (decide_False (P := n = cap)) in Hlast by lia.
  destruct (decide (position ≠ 0)) as [Hp|Hp]; (eexists; split; [reflexivity|]); unfold stats_inv;
    cbn [st_max_displacement st_num_hash_collisions st_total_displacement st_first st_last st_prev];
    rewrite total_disp_S, Htot, Hcoll, !(decide_True (P := 0 < n + 1)) by lia;
    replace (n + 1 - 1) with n by lia.
  - assert (Ho : occ f n) by by apply Hoc. rewrite decide_True in Heh by done.
    destruct (max_step n (st_max_displacement st) Hn Ho Hm0 Hmax Hatt) as (? & ? & ?).
    rewrite (decide_True (P := occ f n)) by done. split_and!; try done.
    + unfold u64. by rewrite Z.add_mod_idemp_l by lia.
    + destruct (decide (n = 0)) as [->|]; [done|]. rewrite Hfirst. by rewrite decide_True by lia.
    + rewrite Hlast. destruct (decide (n = cap - 1)) as [E|], (decide (n + 1 = cap)); try lia; [by rewrite <- E|done].
  - assert (Ho : ¬ occ f n) by (rewrite Hoc; tauto). rewrite decide_False in Heh by done.
    rewrite (decide_False (P := occ f n)), Z.add_0_r by done. split_and!; try done.
    + intros t Hlt Hot. destruct (decide (t = n)) as [->|]; [done|]. apply Hmax; [lia|done].
    + destruct Hatt as [?|(t & ? & ? & ?)]; [by left|right; exists t; split_and!; try done; lia].
    + rewrite Hfirst. destruct (decide (n = 0)) as [->|]; [by rewrite Heh|by rewrite decide_True by lia].
    + rewrite Hlast. destruct (decide (n + 1 = cap)) as [E|]; [|done]. by replace (cap - 1) with n by lia.
Qed.

Lemma stats_loop_spec k n st :
  0 ≤ n → n + Z.of_nat k ≤ cap → stats_inv n st →
  ∃ st', stats_loop k h tbl n st = Some st' ∧ stats_inv (n + Z.of_nat k) st'.
Proof.
  revert n st. induction k as [|k IH]; intros n st Hn Hk Hinv; cbn [stats_loop].
  { exists st. by rewrite Z.add_0_r. }
  destruct (stats_step_spec n st) as (st1 & Hs & Hinv1); [lia|done|]. rewrite Hs.
  cbn [mbind option_bind]. destruct (IH (n + 1) st1) as (st' & Hl & Hinv'); [lia|lia|done|].
  exists st'. split; [done|]. by replace (n + Z.of_nat (S k)) with (n + 1 + Z.of_nat k) by lia.
Qed.

(** The collision between the last slot and the first. *)
Lemma collision_wrap :
  0 < cap → collisions cap f cap = collisions cap f (cap - 1) +
    (if decide (is_Some (entry_hash 0) ∧ entry_hash 0 = entry_hash (cap - 1)) then 1 else 0).
Proof.
  intros Hcap. replace cap with (cap - 1 + 1) at 2 by lia. rewrite collisions_S by lia. f_equal.
  assert (Hnx : nxt cap (cap - 1) = 0) by (unfold nxt; by rewrite decide_True by lia).
  apply decide_ext. unfold collides, entry_hash. rewrite Hnx.
  destruct (decide (occ f 0)) as [H0|H0]; [|by split; [intros (_ & _ & Ho); destruct H0; by apply Ho|intros [[] _]]].
  destruct (decide (occ f (cap - 1))) as [Hl|Hl]; [|by split; [intros [? _]|intros [_ ?]]].
  split; [intros (_ & -> & _); split; [by eexists|done]|]. intros [_ [= ->]]. by split_and!.
Qed.

(** The statistics of a table: the largest displacement, which some entry has
    unless it is 0, the sum of all, and the number of collisions. *)
Lemma calculate_max_displacement_spec :
  ∃ max,
    calculate_max_displacement h tbl =
      Some (set_hh_displacement (u64 (total_disp cap f cap)) max (collisions cap f cap) h) ∧
    (∀ s, slot_ok cap s → occ f s → disp cap f s ≤ max) ∧
    (max = 0 ∨ ∃ s, slot_ok cap s ∧ occ f s ∧ disp cap f s = max).
Proof.
  pose proof Hh as (Hcap & Hcap2 & _).
  destruct (stats_loop_spec (Z.to_nat cap) 0 (Stats 0 0 0 None None None)) as (st & Hl & Hinv).
  { lia. } { lia. }
  { unfold stats_inv. cbn. split_and!; try done; try lia; try (by left).
    by rewrite decide_False by lia. }
  unfold calculate_max_displacement. rewrite Hl. cbn [mbind option_bind].
  replace (0 + Z.of_nat (Z.to_nat cap)) with cap in Hinv by lia.
  destruct Hinv as (Hm0 & Hmax & Hatt & Htot & Hc & _ & Hfirst & Hlast).
  rewrite decide_True in Hfirst by done. rewrite decide_True in Hlast by done.
  pose proof (collisions_range cap f (cap - 1)).
  eexists. rewrite Htot. split; [|split].
  - do 2 f_equal. rewrite (collision_wrap Hcap), <- Hfirst, <- Hlast, Hc.
    destruct (st_first st) as [a|], (st_last st) as [b|];
      try (by rewrite decide_False by (intros [[] E]; done); lia).
    destruct (decide (a = b)) as [->|Hab].
    + rewrite decide_True by (split; [by eexists|done]). by rewrite u64_id by lia.
    + rewrite decide_False by (intros [_ [= E]]; done). lia.
  - intros s Hs. by apply Hmax.
  - destruct Hatt as [?|(s & ? & ?)]; [by left|right; by exists s].
Qed.

(** In an ordered table an entry that is far from its place has as many before it, so the
    loader accepts the statistics. *)
Lemma attained_le max :
  ordered cap f → (max = 0 ∨ ∃ s, slot_ok cap s ∧ occ f s ∧ disp cap f s = max) → 0 ≤ max ≤ zlen (occupied cap f).
Proof.
  pose proof Hh as (Hcap & _). intros Hord [->|(s & Hs & Ho & Hd)]; [lia|].
  pose proof (disp_occupied cap Hcap f s Hord Hs Ho). pose proof (disp_range cap Hcap f s). lia.
Qed.

Lemma statistics_accepted total max :
  ordered cap f → (max = 0 ∨ ∃ s, slot_ok cap s ∧ occ f s ∧ disp cap f s = max) →
  hh_num_entries h = zlen (occupied cap f) → hh_num_entries h ≤ hh_num_puts h →
  hashheader_checks (set_hh_displacement total max (collisions cap f cap) h) = None.
Proof.
  intros Hord Hatt Hn Hputs. pose proof (attained_le max Hord Hatt). pose proof (collisions_occupied cap f).
  pose proof Hh as (_ & _ & _ & Hsz & Halg & _).
  apply hashheader_checks_valid; [done|]. unfold hashheader_valid. cbn. split_and!; (done || lia).
Qed.

End Stats.
