(* ===== verification/HashWriter.v ===== *)
(** * Writing the index (sparkey_hash_write of hashwriter.c)

    The capacity of the table, the choice of the header's fields, the copy of an
    older index, the loop over the log and the new file.  The definitions first;
    then the loop is proved, against the interface of log iterators, to leave a
    table that maps every live key to the address of its last put. *)

From stdpp Require Import base gmap list strings numbers.
From Stdlib Require Import ZArith Lia SpecFloat.
From S2P Require Import Prelude ReturnCodes Endian OS Vlq LogHeader HashAlg HashHeader Buf.
From S2P Require Import Compress LogFormat LogWriter LogReader LogCursor RobinHood HashTable.
From S2P Require Import TableBytes TableRefine TableStats.

Local Open Scope Z_scope.

(** ** Definitions *)

(** *** The capacity

    [(uint64_t) (n * 1.3)] in IEEE double arithmetic: a positive double is a
    mantissa below 2^53 and an exponent, and each operation rounds to the
    nearest, ties to even. *)

Definition round_double (m e : Z) : Z * Z :=
  if decide (m < 2 ^ 53) then (m, e) else
  let s := Z.log2 m - 52 in
  let q := Z.shiftr m s in
  let r := Z.land m (Z.ones s) in
  let half := 2 ^ (s - 1) in
  if decide (r > half ∨ r = half ∧ Z.odd q = true) then (q + 1, e + s) else (q, e + s).

(** The double nearest to 1.3 is 5854679515581645 / 2^52. *)
Definition times_1_3 (n : Z) : Z * Z :=
  let '(m, e) := round_double n 0 in round_double (m * 5854679515581645) (e - 52).

(** The conversion to [uint64_t]: undefined when the value does not fit. *)
Definition double_to_u64 (d : Z * Z) : option Z :=
  let v := Z.shiftl d.1 d.2 in if decide (v < 2 ^ 64) then Some v else None.

Definition hash_capacity_of (n : Z) : option Z := Z.lor 1 <$> double_to_u64 (times_1_3 n).

(** *** Errors and clean-up *)

(** A call whose return code is looked at. *)
Definition attempt {S A} (m : MC S A) : MC S (returncode + A) := λ s,
  match m s with
  | (Ok a, s) => (Ok (inr a), s)
  | (Err e, s) => (Ok (inl e), s)
  | (UB, s) => (UB, s)
  | (NoFuel, s) => (NoFuel, s)
  end.

(** The labels at the end of a function: the clean-up runs on every way out. *)
Definition finally {S A} (cleanup : MC S unit) (m : MC S A) : MC S A := λ s,
  let '(r, s) := m s in (r, (cleanup s).2).

(** The operating system and the state of the table functions. *)
Abbreviation MOH A := (MC (os * hstate) A).
Definition on_table {A} (m : MH A) : MOH A := zoom snd (λ t s, (s.1, t)) m.

(** *** Copying the entries of an older index *)

(** As many reads as the environment has decisions, and two more: a read that is
    short for no reason is at the end of the file, and repeats for ever. *)
Definition read_all (fd : Z) (buf : list Z) (count : Z) : MC os (list Z) := λ o,
  read_fully (S (S (length (os_sched o)))) fd buf count o.

Fixpoint fill_hash_loop {C : Codec} {R : PutRounds} (fuel : nat) (fd : Z) (buf : list Z)
    (buffer_size remaining : Z) (old_header : sparkey_hashheader) : MOH unit :=
  match fuel with
  | O => out_of_fuel
  | S fuel =>
      if decide (buffer_size ≤ remaining) then
        buf ← on_os (read_all fd buf buffer_size);
        _ ← on_table (hash_copy buf buffer_size old_header);
        fill_hash_loop fuel fd buf buffer_size (remaining - buffer_size) old_header
      else
        buf ← on_os (read_all fd buf remaining);
        on_table (hash_copy buf remaining old_header)
  end.

(** A descriptor that fails to close turns success into an error. *)
Definition close_checked (fd : Z) (m : MOH unit) : MOH unit := λ s,
  let '(r, s) := m s in
  let '(c, o) := sys_close fd s.1 in
  (match r, c with Ok _, Ok (inl _) => Err SPARKEY_INTERNAL_ERROR | _, _ => r end, (o, s.2)).

Definition fill_hash {C : Codec} {R : PutRounds} (hash_filename : string) (old_header : sparkey_hashheader)
    : MOH unit :=
  r ← on_os (sys_open hash_filename);
  match r with
  | inl e => fail (sparkey_open_returncode e)
  | inr fd =>
      _ ← on_os (sys_lseek_set fd (hh_header_size old_header));
      let slot_size := slot_size old_header in
      let buffer_size := u64 (s32 (slot_size * 1024)) in
      ok ← on_os sys_malloc;
      if negb ok then fail SPARKEY_INTERNAL_ERROR else
      let remaining := u64 (hh_hash_capacity old_header * slot_size) in
      close_checked fd
        (fill_hash_loop (S (Z.to_nat (remaining / buffer_size))) fd
           (replicate (Z.to_nat buffer_size) 0) buffer_size remaining old_header)
  end.

(** *** The loop over the log *)

(** The position of the current entry, as the table stores it. *)
Definition entry_address (h : sparkey_hashheader) (i : sparkey_logiter) : Z :=
  Z.lor (u64 (Z.shiftl (i_block_position i) (hh_entry_block_bits h))) (u64 (i_entry_count i)).

Definition deletion_garbage (keylen : Z) (h : sparkey_hashheader) : sparkey_hashheader :=
  set_hh_counts (u64 (hh_garbage_size h + (1 + unsigned_vlq_size keylen + keylen)))
    (hh_num_entries h) h.

Definition hash_entry {C : Codec} {R : PutRounds} (log : sparkey_logreader) : MH unit :=
  st ← getS;
  key_hash ← on_iter (sparkey_iter_hash (t_header st) log);
  let position := entry_address (t_header st) (t_iter st) in
  let wanted_slot := key_hash mod hh_hash_capacity (t_header st) in
  st ← getS;
  match i_type (t_iter st) with
  | SPARKEY_ENTRY_PUT => hash_put wanted_slot key_hash (Some log) position
  | SPARKEY_ENTRY_DELETE =>
      _ ← upd_header (deletion_garbage (i_keylen (t_iter st)));
      hash_delete wanted_slot key_hash log
  end.

(** One round per entry, and one for the end of the log. *)
Fixpoint hash_write_loop {C : Codec} {R : PutRounds} (fuel : nat) (log : sparkey_logreader) : MH unit :=
  match fuel with
  | O => out_of_fuel
  | S fuel =>
      _ ← on_iter (sparkey_logiter_next log);
      st ← getS;
      match i_state (t_iter st) with
      | SPARKEY_ITER_CLOSED => mret tt
      | SPARKEY_ITER_ACTIVE => _ ← hash_entry log; hash_write_loop fuel log
      | _ => fail SPARKEY_INTERNAL_ERROR
      end
  end.

(** *** The header of the new index *)

(** What an older index and the log say about the new one: the number the
    capacity is computed from, where to start, the seed, the garbage so far, and
    the header of the old index when it belongs to this log. *)
Record hash_plan : Type := HashPlan {
  p_count : Z;
  p_start : Z;
  p_hash_seed : Z;
  p_garbage_size : Z;
  p_old : option sparkey_hashheader
}.

Definition plan_hash (hash_filename : string) (log_header : sparkey_logheader) : MC os hash_plan :=
  let fresh :=
    hash_seed ← rand32;
    mret (HashPlan (lh_num_puts log_header) (lh_header_size log_header) hash_seed 0 None) in
  old ← attempt (sparkey_load_hashheader hash_filename);
  match old with
  | inr old_header =>
      if decide (hh_file_identifier old_header = lh_file_identifier log_header ∧
                 hh_major_version old_header = HASH_MAJOR_VERSION ∧
                 hh_minor_version old_header = HASH_MINOR_VERSION)
      then mret (HashPlan
                   (u64 (u64 (lh_num_puts log_header - hh_num_puts old_header)
                         + hh_num_entries old_header))
                   (hh_data_end old_header) (hh_hash_seed old_header)
                   (hh_garbage_size old_header) (Some old_header))
      else fresh
  | inl _ => fresh
  end.

Definition old_hash_size (plan : hash_plan) : Z :=
  match p_old plan with Some old_header => hh_hash_size old_header | None => 0 end.

(** [hash_size] is the caller's wish, 0 for none. *)
Definition choose_hash_size (plan : hash_plan) (capacity hash_size : Z) : option Z :=
  if decide (hash_size = 0) then
    Some (if decide (old_hash_size plan = 8 ∨ capacity >= 2 ^ 23) then 8 else 4)
  else if decide (hash_size = 4 ∨ hash_size = 8) then Some hash_size else None.

(** The fields the code sets later start as 0. *)
Definition new_header (plan : hash_plan) (log_header : sparkey_logheader) (hash_size : Z)
    : MC os sparkey_hashheader :=
  capacity ← of_opt (hash_capacity_of (p_count plan));
  let bits := int_log2 (lh_max_entries_per_block log_header) in
  bitmask ← of_opt (block_bitmask bits);
  let address_size := if decide (lh_data_end log_header < u64 (Z.shiftl 1 (32 - bits)))
                      then 4 else 8 in
  match choose_hash_size plan capacity hash_size with
  | None => fail SPARKEY_HASH_SIZE_INVALID
  | Some hash_size =>
      mret (HashHeader 0 0 0 (p_hash_seed plan) 0 (lh_data_end log_header)
              (lh_max_key_len log_header) (lh_max_value_len log_header) (p_garbage_size plan) 0
              address_size hash_size capacity 0 (lh_num_puts log_header) bits bitmask 0 0
              (sparkey_get_hash_algorithm hash_size))
  end.

(** The old table is copied when its hashes have the size of the new ones. *)
Definition copied_header (plan : hash_plan) (header : sparkey_hashheader)
    : option sparkey_hashheader :=
  old_header ← p_old plan;
  if decide (hh_hash_size header = hh_hash_size old_header) then Some old_header else None.

(** *** The whole function *)

(** The version and the identifier go in just before the header is written. *)
Definition stamp_header (log_header : sparkey_logheader) (h : sparkey_hashheader) :=
  HashHeader HASH_MAJOR_VERSION HASH_MINOR_VERSION (lh_file_identifier log_header)
    (hh_hash_seed h) (hh_header_size h) (lh_data_end log_header) (hh_max_key_len h)
    (hh_max_value_len h) (hh_garbage_size h) (hh_num_entries h) (hh_address_size h)
    (hh_hash_size h) (hh_hash_capacity h) (hh_max_displacement h) (hh_num_puts h)
    (hh_entry_block_bits h) (hh_entry_block_bitmask h) (hh_hash_collisions h)
    (hh_total_displacement h) (hh_hash_algorithm h).

(** The old file is removed first: readers that have it open keep it.  The result
    of [creat] is not looked at; a failure shows at the first write. *)
Definition write_index (hash_filename : string) (header : sparkey_hashheader)
    (hashtable : list Z) : MC os unit :=
  r ← sys_remove hash_filename;
  match r with
  | inl e => if decide (e = ENOENT) then mret tt else fail (sparkey_remove_returncode e)
  | inr _ => mret tt
  end ≫= λ _,
  c ← sys_create hash_filename;
  let fd := match c with inr fd => fd | inl _ => -1 end in
  closing fd (_ ← write_hashheader fd header; write_full fd hashtable).

(** Run a computation on the table from a first state of it. *)
Definition with_table (st : hstate) (m : MOH unit) : MC os hstate := λ o,
  match m (o, st) with
  | (Ok _, (o, st)) => (Ok st, o)
  | (Err e, (o, _)) => (Err e, o)
  | (UB, (o, _)) => (UB, o)
  | (NoFuel, (o, _)) => (NoFuel, o)
  end.

Definition close_reader (log : sparkey_logreader) : MC os unit := λ o,
  let '(r, (o, _)) := sparkey_logreader_close (o, Some log) in (r, o).

(** From the first entry to the finished file. *)
Definition fill_and_write {C : Codec} {R : PutRounds} (fuel : nat) (hash_filename : string)
    (log_header : sparkey_logheader) (log : sparkey_logreader) (st : hstate)
    (prepare : MOH unit) : MC os unit :=
  st ← with_table st (_ ← prepare; on_table (hash_write_loop fuel log));
  header ← of_opt (calculate_max_displacement (t_header st) (t_table st));
  write_index hash_filename (stamp_header log_header header) (t_table st).

(** The rest of the function, once it is known what to start from. *)
Definition hash_write_planned {C : Codec} {R : PutRounds} (fuel : nat) (hash_filename : string)
    (log_header : sparkey_logheader) (log : sparkey_logreader) (iter ra_iter : sparkey_logiter)
    (plan : hash_plan) (hash_size : Z) : MC os unit :=
  header ← new_header plan log_header hash_size;
  let hashsize := u64 (slot_size header * hh_hash_capacity header) in
  ok ← sys_malloc;
  if negb ok then fail SPARKEY_INTERNAL_ERROR else
  let st := HState (replicate (Z.to_nat hashsize) 0) header iter ra_iter in
  match copied_header plan header with
  | Some old_header =>
      if decide (hh_data_end old_header = lh_data_end (r_header log)) then mret tt else
      fill_and_write fuel hash_filename log_header log st
        (_ ← fill_hash hash_filename old_header;
         on_table (on_iter (sparkey_logiter_seek log (p_start plan))))
  | None => fill_and_write fuel hash_filename log_header log st (mret tt)
  end.

(** [fuel] bounds the entries of the log. *)
Definition sparkey_hash_write {C : Codec} {R : PutRounds} (fuel : nat) (hash_filename log_filename : string)
    (hash_size : Z) : MC os unit :=
  log_header ← sparkey_load_logheader log_filename;
  log ← sparkey_logreader_open log_filename;
  finally (close_reader log)
    (iter ← sparkey_logiter_create log;
     ra_iter ← sparkey_logiter_create log;
     plan ← plan_hash hash_filename log_header;
     hash_write_planned fuel hash_filename log_header log iter ra_iter plan hash_size).

(** ** The capacity is enough *)

(** Rounding changes a number by one part in 2^52 at most. *)
Lemma round_double_bounds m e q e' :
  0 ≤ m → round_double m e = (q, e') →
  e ≤ e' ∧ 0 ≤ q ∧
  (2 ^ 52 - 1) * m ≤ 2 ^ 52 * (q * 2 ^ (e' - e)) ≤ (2 ^ 52 + 1) * m.
Proof.
  intros Hm. unfold round_double. case_decide as Hlt.
  { intros [= <- <-]. rewrite Z.sub_diag. lia. }
  set (s := Z.log2 m - 52). set (q0 := Z.shiftr m s).
  assert (Hs : 1 ≤ s). { unfold s. pose proof (Z.log2_le_mono (2 ^ 53) m ltac:(lia)) as Hl.
    rewrite Z.log2_pow2 in Hl by lia. lia. }
  pose proof (Z.pow_pos_nonneg 2 s ltac:(lia) ltac:(lia)) as Hp.
  assert (Hq0 : q0 = m / 2 ^ s) by (unfold q0; by rewrite Z.shiftr_div_pow2 by lia).
  pose proof (Z.div_mod m (2 ^ s) ltac:(lia)) as Hdiv.
  pose proof (Z.mod_pos_bound m (2 ^ s) Hp) as Hmod. rewrite <- Hq0 in Hdiv.
  assert (Hbig : 2 ^ 52 * 2 ^ s ≤ m).
  { rewrite <- Z.pow_add_r by lia. replace (52 + s) with (Z.log2 m) by (unfold s; lia).
    apply Z.log2_spec. lia. }
  intros Heq. assert (Hq : (q = q0 ∨ q = q0 + 1) ∧ e' = e + s).
  { case_decide; injection Heq as <- <-; lia. }
  destruct Hq as [Hq ->]. replace (e + s - e) with s by lia.
  assert (q0 * 2 ^ s ≤ q * 2 ^ s ≤ (q0 + 1) * 2 ^ s).
  { split; apply Z.mul_le_mono_nonneg_r; lia. }
  assert (0 ≤ q0) by (rewrite Hq0; apply Z.div_pos; lia). lia.
Qed.

Lemma shiftl_frac q e : -52 ≤ e → Z.shiftl q e = q * 2 ^ (e + 52) / 2 ^ 52.
Proof.
  intros He. destruct (decide (0 ≤ e)).
  - rewrite Z.shiftl_mul_pow2, Z.pow_add_r, Z.mul_assoc by lia. by rewrite Z.div_mul by lia.
  - rewrite <- (Z.opp_involutive e) at 1. rewrite Z.shiftl_opp_r, Z.shiftr_div_pow2 by lia.
    replace (2 ^ 52) with (2 ^ (- e) * 2 ^ (e + 52))
      by (rewrite <- Z.pow_add_r by lia; f_equal; lia).
    rewrite Z.div_mul_cancel_r; [done|apply Z.pow_nonzero; lia|apply Z.pow_nonzero; lia].
Qed.

(** The slots are at least as many as the puts, and at most twice as many and one. *)
Lemma hash_capacity_bounds n :
  0 ≤ n < 2 ^ 60 →
  ∃ c, hash_capacity_of n = Some c ∧ n ≤ c ∧ 0 < c ≤ 2 * n + 1.
Proof.
  intros Hn. unfold hash_capacity_of, double_to_u64, times_1_3.
  destruct (round_double n 0) as [m e] eqn:E1.
  destruct (round_double_bounds n 0 m e ltac:(lia) E1) as (He & Hm & Hb1). rewrite Z.sub_0_r in Hb1.
  destruct (round_double (m * 5854679515581645) (e - 52)) as [q e'] eqn:E2.
  destruct (round_double_bounds (m * 5854679515581645) (e - 52) q e' ltac:(lia) E2) as (He' & Hq & Hb2). cbn [fst snd].
  rewrite shiftl_frac by lia. set (X := q * 2 ^ (e' + 52)).
  assert (HX : q * 2 ^ (e' - (e - 52)) * 2 ^ e = X).
  { unfold X. rewrite <- Z.mul_assoc, <- Z.pow_add_r by lia. do 2 f_equal. lia. }
  pose proof (Z.pow_pos_nonneg 2 e ltac:(lia) ltac:(lia)) as Hpe.
  set (Y := q * 2 ^ (e' - (e - 52))) in *. set (p := 2 ^ e) in *.
  assert (H2 : (2 ^ 52 - 1) * 5854679515581645 * (m * p) ≤ 2 ^ 52 * X ≤
    (2 ^ 52 + 1) * 5854679515581645 * (m * p)) by (rewrite <- HX; nia).
  assert (HXn : 2 ^ 52 * n ≤ X ≤ 2 ^ 53 * n) by lia.
  clearbody X. clear - HXn Hn.
  assert (Hv : n ≤ X / 2 ^ 52 ≤ 2 * n).
  { split; [apply Z.div_le_lower_bound; lia|apply Z.div_le_upper_bound; lia]. }
  rewrite decide_True by lia. eexists. split; [reflexivity|].
  assert (Hlor : X / 2 ^ 52 ≤ Z.lor 1 (X / 2 ^ 52) ≤ X / 2 ^ 52 + 1 ∧ 0 < Z.lor 1 (X / 2 ^ 52)).
  { set (v := X / 2 ^ 52) in *. pose proof (Z.add_lor_land 1 v).
    assert (Z.land 1 v = v mod 2) as Hl by (rewrite Z.land_comm; apply (Z.land_ones v 1); lia).
    pose proof (Z.mod_pos_bound v 2 ltac:(lia)).
    destruct (decide (v = 0)) as [->|]; [done|]. lia. }
  lia.
Qed.

(** The same number by the Standard Library's model of IEEE arithmetic. *)
Definition ieee_times_1_3 (n : Z) : option Z :=
  match SFmul 53 1024 (binary_normalize 53 1024 n 0 false)
          (binary_normalize 53 1024 5854679515581645 (-52) false) with
  | S754_finite false m e => Some (Z.shiftl (Zpos m) e)
  | S754_zero false => Some 0
  | _ => None
  end.

Example times_1_3_ieee :
  Forall (λ n, double_to_u64 (times_1_3 n) = ieee_times_1_3 n)
    [0; 1; 2; 3; 7; 10; 1000; 6452554; 2 ^ 31 - 1; 2 ^ 53 - 1; 2 ^ 53 + 1; 2 ^ 53 + 3;
     2 ^ 60 - 129; 3 ^ 37].
Proof. repeat constructor. Qed.

(** ** The hash of the current key *)

Section Loop.
Context {C : Codec} {log : sparkey_logreader} {es : list entry} {L : LogCursor log es}.

(** The keys that the hash functions can take: their lengths are ints. *)
Definition keys_short : Prop := ∀ n e, es !! n = Some e → zlen (entry_key e) < 2 ^ 31.

Lemma key_hash_run h k :
  header_ok h → bytes_ok k → zlen k < 2 ^ 31 →
  ∃ f, ha_hash (hh_hash_algorithm h) = Some f ∧
       f k (zlen k) (hh_hash_seed h) = Some (hash_key h k).
Proof.
  intros (_ & _ & _ & Hs & Ha & _) Hok Hlen. rewrite Ha. by apply hash_algorithm_hash.
Qed.

Lemma iter_hash_spec h n e i :
  header_ok h → cur_key n 0 i → es !! n = Some e → zlen (entry_key e) < 2 ^ 31 →
  ∃ i' off, sparkey_iter_hash h log i = (Ok (hash_key h (entry_key e)), i') ∧ cur_key n off i'.
Proof.
  intros Hh Hk He Hlen. destruct (cur_entries_ok n e He) as [[Hok _] _].
  destruct (key_hash_run h (entry_key e) Hh Hok Hlen) as (f & Hf & Hrun).
  assert (Hmax : max_chunk = 2 ^ 64 - 2 ^ 31) by done.
  destruct (cur_keychunk n 0 e i max_chunk Hk He) as (m & i1 & Hc & Hm & _ & _ & Hk1); [by rewrite Hmax|].
  rewrite drop_0 in Hc. cbn [Nat.add] in Hm, Hk1.
  destruct (cur_key_entry _ _ _ Hk1) as (x & Hx & (_ & _ & Hkl & _) & _). simplify_eq.
  unfold sparkey_iter_hash. rewrite Hc, Hkl, Hf. cbn [mbind option_bind].
  assert (Hlm : zlen (take m (entry_key e)) = Z.of_nat m) by (rewrite length_take; lia).
  destruct (decide (zlen (take m (entry_key e)) = zlen (entry_key e))) as [Heq|Hne].
  - rewrite take_ge by lia. rewrite Hrun. by exists i1, m.
  - destruct (fill_key_rest n m e i1 max_chunk Hk1 He ltac:(lia)) as (i2 & Hfill & Hk2).
    destruct (cur_key_entry _ _ _ Hk2) as (y & Hy & (_ & _ & Hkl2 & _) & _). simplify_eq.
    rewrite Hfill, Hkl2, <- Nat2Z.inj_add, <- length_app.
    rewrite decide_False by (rewrite take_drop; tauto).
    rewrite take_drop, Hrun. by exists i2, (length (entry_key e)).
Qed.

(** ** The addresses of the live entries *)

(** What the table maps after [n] entries: every key to the address of its last
    put, unless a delete came after it. *)
Fixpoint address_map (h : sparkey_hashheader) (n : nat) : gmap (list Z) Z :=
  match n with
  | O => ∅
  | S m => match es !! m with
           | Some (Put k _) => <[k := addr_of h m]> (address_map h m)
           | Some (Delete k) => delete k (address_map h m)
           | None => address_map h m
           end
  end.

(** The addresses lead to the values of the replayed log. *)
Lemma address_map_replay h n :
  header_ok h → addresses_ok h → (n ≤ length es)%nat →
  value_at h <$> address_map h n = replay (take n es).
Proof.
  intros Hh Ha. induction n as [|n IH]; intros Hn; [cbn; by rewrite fmap_empty|]. cbn [address_map].
  destruct (lookup_lt_is_Some_2 es n) as [e He]; [lia|].
  rewrite (take_S_r _ _ _ He), replay_app. cbn [fold_left]. rewrite <- IH, He by lia.
  destruct e as [k v|k]; cbn [apply_entry].
  - by rewrite fmap_insert, (value_at_addr h Hh Ha n _ He).
  - by rewrite fmap_delete.
Qed.

(** A key is mapped to the address of one of its puts. *)
Lemma address_map_key h n k a :
  header_ok h → addresses_ok h → (n ≤ length es)%nat → address_map h n !! k = Some a →
  ∃ m v, (m < n)%nat ∧ es !! m = Some (Put k v) ∧ a = addr_of h m ∧
    replay (take n es) !! k = Some v.
Proof.
  intros Hh Ha Hn Hk.
  assert (∃ m v, (m < n)%nat ∧ es !! m = Some (Put k v) ∧ a = addr_of h m) as (m & v & Hm & He & ->).
  { induction n as [|n IH]; [cbn in Hk; by rewrite lookup_empty in Hk|]. cbn [address_map] in Hk.
    destruct (lookup_lt_is_Some_2 es n) as [e He]; [lia|]. rewrite He in Hk.
    assert (address_map h n !! k = Some a → ∃ m v, (m < S n)%nat ∧ es !! m = Some (Put k v) ∧ a = addr_of h m)
      as Hrec by (intros Hk'; destruct IH as (m & v & ? & ? & ?); [lia|done|exists m, v; eauto with lia]).
    destruct e as [k' v|k'].
    - apply lookup_insert_Some in Hk as [[-> <-]|[_ Hk]]; [exists n, v; eauto with lia|auto].
    - apply lookup_delete_Some in Hk as [_ Hk]. auto. }
  exists m, v. split_and!; try done. rewrite <- (address_map_replay h n Hh Ha Hn), lookup_fmap, Hk.
  cbn. by rewrite (value_at_addr h Hh Ha m _ He).
Qed.

(** The address of a key after [m] entries is the one of its last entry. *)
Lemma address_map_since h n m k :
  header_ok h → addresses_ok h → (S n ≤ m ≤ length es)%nat →
  (if decide (k ∈ entry_key <$> take (m - S n) (drop (S n) es))
   then address_map h m !! k ≠ Some (addr_of h n) else address_map h m !! k = address_map h (S n) !! k).
Proof.
  intros Hh Ha. induction m as [|m IH]; intros Hm; [lia|].
  destruct (decide (m = n)) as [->|Hne]; [by rewrite Nat.sub_diag|]. specialize (IH ltac:(lia)).
  destruct (lookup_lt_is_Some_2 es m) as [e He]; [lia|].
  replace (S m - S n)%nat with (S (m - S n)) by lia.
  rewrite (take_S_r _ _ e), fmap_app by (rewrite lookup_drop; by replace (S n + (m - S n))%nat with m by lia).
  cbn [fmap list_fmap]. destruct (decide (k = entry_key e)) as [->|Hk].
  - rewrite decide_True by (apply elem_of_app; right; by left). cbn [address_map]. rewrite He.
    destruct e as [k v|k]; cbn [entry_key]; [|by rewrite lookup_delete_eq].
    rewrite lookup_insert_eq. intros [= Heq]. apply Hne.
    destruct (lookup_lt_is_Some_2 es n) as [e' He']; [lia|]. by eapply (addr_inj h Hh Ha).
  - rewrite (decide_ext _ (k ∈ entry_key <$> take (m - S n) (drop (S n) es))).
    2:{ rewrite elem_of_app, list_elem_of_singleton. tauto. }
    assert (Hmap : address_map h (S m) !! k = address_map h m !! k).
    { cbn [address_map]. rewrite He. destruct e; cbn [entry_key] in Hk;
        [by rewrite lookup_insert_ne|by rewrite lookup_delete_ne]. }
    by rewrite Hmap.
Qed.

(** There are at most as many live keys as puts. *)
Lemma address_map_size h n :
  (n ≤ length es)%nat → (size (address_map h n) ≤ length (puts_of (take n es)))%nat.
Proof.
  induction n as [|n IH]; intros Hn; [cbn; rewrite map_size_empty; lia|]. cbn [address_map].
  destruct (lookup_lt_is_Some_2 es n) as [e He]; [lia|]. rewrite He, (take_S_r _ _ _ He), puts_of_app, length_app.
  specialize (IH ltac:(lia)). destruct e as [k v|k].
  - change (puts_of [Put k v]) with [Put k v]. rewrite map_size_insert.
    destruct (_ !! k); cbn; lia.
  - rewrite map_size_delete. destruct (_ !! k); cbn; lia.
Qed.

(** ** The garbage *)

(** The bytes of the live puts. *)
Definition live_size (m : gmap (list Z) (list Z)) : Z :=
  map_fold (λ k v acc, zlen (encode_entry (Put k v)) + acc) 0 m.

Lemma live_size_insert m k v :
  m !! k = None → live_size (<[k := v]> m) = live_size m + zlen (encode_entry (Put k v)).
Proof.
  intros Hk. unfold live_size. rewrite map_fold_insert_L by (done || (intros; lia)). lia.
Qed.

Lemma live_size_delete m k v :
  m !! k = Some v → live_size (delete k m) = live_size m - zlen (encode_entry (Put k v)).
Proof.
  intros Hk. rewrite <- (insert_delete_id m k v Hk) at 2.
  rewrite live_size_insert by apply lookup_delete_eq. lia.
Qed.

Lemma entry_garbage_size k v :
  zlen k < 2 ^ 63 → zlen v < 2 ^ 63 →
  entry_garbage (zlen k) (zlen v) = zlen (encode_entry (Put k v)).
Proof.
  intros Hk Hv. unfold entry_garbage, encode_entry, entry_prefix. cbn [entry_key entry_value].
  rewrite !length_app, u64_id by lia. rewrite !Nat2Z.inj_add, !unsigned_vlq_size_spec by lia. lia.
Qed.

Lemma deletion_garbage_size k :
  zlen k < 2 ^ 63 → 1 + unsigned_vlq_size (zlen k) + zlen k = zlen (encode_entry (Delete k)).
Proof.
  intros Hk. unfold encode_entry, entry_prefix. cbn [entry_key entry_value].
  rewrite !length_app, !Nat2Z.inj_add, !unsigned_vlq_size_spec by lia.
  change (unsigned_vlq_size 0) with 1. cbn. lia.
Qed.

(** ** One entry *)

(** The garbage of the header is what the entries so far take up beyond the live
    ones, on 64 bits. *)
Definition garbage_inv (h : sparkey_hashheader) (n : nat) : Prop :=
  hh_garbage_size h = u64 (zlen (log_body (take n es)) - live_size (replay (take n es))).

(** After [n] entries: the table has their live keys. *)
Definition loop_inv (n : nat) (st : hstate) : Prop :=
  table_inv st (address_map (t_header st) n) ∧ garbage_inv (t_header st) n.

(** Changing the counters of the header changes nothing else. *)
Lemma table_inv_garbage st m g :
  table_inv st m →
  table_inv (set_t_header (set_hh_counts g (hh_num_entries (t_header st)) (t_header st)) st) m.
Proof. done. Qed.

Lemma address_map_bits h h' n :
  hh_entry_block_bits h = hh_entry_block_bits h' → address_map h n = address_map h' n.
Proof.
  intros Hb. induction n as [|n IH]; [done|]. cbn [address_map]. unfold addr_of. by rewrite IH, Hb.
Qed.

Lemma address_map_counts g c h n : address_map (set_hh_counts g c h) n = address_map h n.
Proof. by apply address_map_bits. Qed.

Lemma body_replay_S n e :
  es !! n = Some e →
  log_body (take (S n) es) = log_body (take n es) ++ encode_entry e ∧
  replay (take (S n) es) = apply_entry (replay (take n es)) e.
Proof.
  intros He. rewrite (take_S_r _ _ _ He), log_body_app, log_body_one, replay_app. done.
Qed.

Lemma u64_sub_add a b c d : u64 (u64 (a - b) + c) = u64 (a + d - (b + d - c)).
Proof. unfold u64. rewrite Z.add_mod_idemp_l by lia. f_equal. lia. Qed.

(** The key of an entry and what it replaces, in both maps. *)
Lemma replaced_value h n k :
  header_ok h → addresses_ok h → (n ≤ length es)%nat →
  replay (take n es) !! k = value_at h <$> address_map h n !! k.
Proof.
  intros Hh Ha Hn. by rewrite <- (address_map_replay h n Hh Ha Hn), lookup_fmap.
Qed.

(** The garbage after a put, ... *)
Lemma garbage_put h n k v :
  header_ok h → addresses_ok h → es !! n = Some (Put k v) → garbage_inv h n →
  garbage_inv (count_insert h (address_map h n) k h) (S n).
Proof.
  intros Hh Ha He Hg. pose proof (lookup_lt_Some _ _ _ He) as Hlt.
  unfold garbage_inv. destruct (body_replay_S n _ He) as [-> ->]. rewrite length_app. cbn [apply_entry].
  pose proof (replaced_value h n k Hh Ha ltac:(lia)) as Hr. unfold count_insert.
  destruct (address_map h n !! k) as [a|] eqn:Hk; cbn in Hr.
  - destruct (address_map_key h n k a Hh Ha ltac:(lia) Hk) as (m & w & _ & Hm & -> & _).
    rewrite (value_at_addr h Hh Ha m _ Hm) in *. cbn [entry_value] in *.
    destruct (cur_entries_ok _ _ Hm) as [_ Hl]. cbn [entry_key entry_value] in Hl.
    cbn [hh_garbage_size replaced_entry set_hh_counts]. rewrite Hg, entry_garbage_size by lia.
    rewrite <- insert_delete_eq, live_size_insert by apply lookup_delete_eq.
    rewrite (live_size_delete _ _ _ Hr).
    rewrite (u64_sub_add _ _ _ (zlen (encode_entry (Put k v)))). f_equal. lia.
  - cbn [hh_garbage_size added_entry set_hh_counts]. rewrite Hg, live_size_insert by done. f_equal. lia.
Qed.

(** ... and after a delete. *)
Lemma garbage_delete h n k :
  header_ok h → addresses_ok h → es !! n = Some (Delete k) → garbage_inv h n →
  garbage_inv (count_delete_entry h (address_map h n) k (deletion_garbage (zlen k) h)) (S n).
Proof.
  intros Hh Ha He Hg. pose proof (lookup_lt_Some _ _ _ He) as Hlt.
  unfold garbage_inv. destruct (body_replay_S n _ He) as [-> ->]. rewrite length_app. cbn [apply_entry].
  destruct (cur_entries_ok _ _ He) as [_ Hl]. cbn [entry_key entry_value length] in Hl.
  pose proof (replaced_value h n k Hh Ha ltac:(lia)) as Hr. unfold count_delete_entry.
  assert (Hd : hh_garbage_size (deletion_garbage (zlen k) h) =
    u64 (zlen (log_body (take n es)) + zlen (encode_entry (Delete k)) - live_size (replay (take n es)))).
  { cbn [hh_garbage_size deletion_garbage set_hh_counts]. rewrite deletion_garbage_size, Hg by lia.
    rewrite (u64_sub_add _ _ _ 0). f_equal. lia. }
  destruct (address_map h n !! k) as [a|] eqn:Hk; cbn in Hr.
  - destruct (address_map_key h n k a Hh Ha ltac:(lia) Hk) as (m & w & _ & Hm & -> & _).
    rewrite (value_at_addr h Hh Ha m _ Hm) in *. cbn [entry_value] in *.
    destruct (cur_entries_ok _ _ Hm) as [_ Hl2]. cbn [entry_key entry_value] in Hl2.
    cbn [hh_garbage_size deleted_entry set_hh_counts]. rewrite Hd, entry_garbage_size by lia.
    rewrite (live_size_delete _ _ _ Hr), (u64_sub_add _ _ _ 0). f_equal. lia.
  - rewrite Hd, delete_id by done. f_equal. lia.
Qed.

(** The headers along the way differ in the counters only. *)
Definition counts_of (h h' : sparkey_hashheader) : Prop := ∃ g c, h' = set_hh_counts g c h.

Lemma counts_of_trans h1 h2 h3 : counts_of h1 h2 → counts_of h2 h3 → counts_of h1 h3.
Proof. intros (g & c & ->) (g' & c' & ->). by exists g', c'. Qed.

Lemma count_insert_of h m k : counts_of h (count_insert h m k h).
Proof. unfold count_insert. case_match; eexists _, _; reflexivity. Qed.

Lemma count_delete_of h m k : counts_of h (count_delete_entry h m k h).
Proof.
  unfold count_delete_entry. case_match; [eexists _, _; reflexivity|].
  eexists _, _. symmetry. apply set_hh_counts_id.
Qed.

(** The header after entry [n]. *)
Definition entry_header (h : sparkey_hashheader) (n : nat) (e : entry) : sparkey_hashheader :=
  match e with
  | Put k _ => count_insert h (address_map h n) k h
  | Delete k => count_delete_entry h (address_map h n) k (deletion_garbage (zlen k) h)
  end.

Lemma entry_header_counts h n e : counts_of h (entry_header h n e).
Proof.
  destruct e as [k v|k]; [apply count_insert_of|]. cbn [entry_header].
  destruct (count_delete_of (deletion_garbage (zlen k) h) (address_map h n) k) as (g & c & Hc).
  assert (count_delete_entry (deletion_garbage (zlen k) h) (address_map h n) k (deletion_garbage (zlen k) h) =
    count_delete_entry h (address_map h n) k (deletion_garbage (zlen k) h)) as <- by done.
  rewrite Hc. by exists g, c.
Qed.

(** The table after entry [n], which must find a free slot or its key. *)
Lemma hash_entry_table n e st :
  table_inv st (address_map (t_header st) n) → keys_short → es !! n = Some e →
  cur_key n 0 (t_iter st) → i_block_position (t_iter st) = cur_block n →
  i_entry_count (t_iter st) = cur_index n → cur_ready (t_ra_iter st) →
  (is_put e = true → Z.of_nat (size (address_map (t_header st) n)) < hh_hash_capacity (t_header st) ∨
     is_Some (address_map (t_header st) n !! entry_key e)) →
  ∃ st', hash_entry log st = (Ok tt, st') ∧ table_inv st' (address_map (t_header st') (S n)) ∧
    cur_before (S n) (t_iter st') ∧ cur_ready (t_ra_iter st') ∧
    t_header st' = entry_header (t_header st) n e.
Proof.
  intros Hinv Hshort He Hk Hbp Hec Hra Hroom. set (h := t_header st) in *.
  pose proof Hinv as (Hh & Ha & _). fold h in Hh, Ha.
  destruct (iter_hash_spec h n e (t_iter st) Hh Hk He (Hshort n e He)) as (i1 & off & Hhash & Hk1).
  destruct (cur_key_entry _ _ _ Hk1) as (x & Hx & (_ & Hty & Hkl & _) & _). simplify_eq.
  set (st1 := HState (t_table st) h i1 (t_ra_iter st)).
  assert (Hon : on_iter (sparkey_iter_hash h log) st = (Ok (hash_key h (entry_key e)), st1)).
  { unfold on_iter, zoom. by rewrite Hhash. }
  unfold hash_entry. rewrite bind_getS. fold h. rewrite (bind_Ok _ _ _ _ _ Hon), bind_getS.
  cbn [t_iter st1]. rewrite Hty. unfold entry_address. rewrite Hbp, Hec. fold (addr_of h n).
  assert (Hit1 : iters_ok n st1) by (split; [by eexists|done]).
  assert (Hafter : ∀ st', iters_ok n st' → cur_before (S n) (t_iter st') ∧ cur_ready (t_ra_iter st')).
  { intros st' [[off' Hk'] Hr]. split; [by eapply cur_key_before|done]. }
  assert (Hmap : ∀ h', counts_of h h' → address_map h' (S n) = address_map h (S n)).
  { intros h' (g & c & ->). apply address_map_counts. }
  pose proof (entry_header_counts h n e) as Hcounts.
  destruct e as [k v|k]; cbn [is_put entry_key entry_header] in *.
  - destruct (hash_put_binds st1 (address_map h n) n k v Hinv Hit1 He (Hroom eq_refl))
      as (st' & Hput & Hinv' & Hit' & Hhd').
    exists st'. split; [done|]. destruct (Hafter st' Hit') as [Hb Hr]. cbn [t_header st1] in *.
    split; [|by split_and!]. rewrite Hhd', (Hmap _ Hcounts). cbn [address_map]. by rewrite He.
  - rewrite Hkl. specialize (Hmap _ Hcounts).
    set (h2 := deletion_garbage (zlen k) h) in *. set (st2 := set_t_header h2 st1).
    erewrite bind_Ok; [|reflexivity].
    change (set_t_header (deletion_garbage (zlen k) (t_header st1)) st1) with st2.
    assert (Hinv2 : table_inv st2 (address_map h n)) by by exact (table_inv_garbage st1 (address_map h n) _ Hinv).
    assert (Hit2 : iters_ok n st2) by done.
    destruct (hash_delete_spec st2 (address_map h n) n (Delete k) Hinv2 Hit2 He)
      as (st' & Hdel & Hinv' & Hit' & Hhd'). cbn [entry_key] in *.
    change (t_header st2) with h2 in *. change (hash_key h2 k) with (hash_key h k) in Hdel.
    change (hh_hash_capacity h2) with (hh_hash_capacity h) in Hdel.
    exists st'. split; [done|]. destruct (Hafter st' Hit') as [Hb Hr].
    assert (Heq : count_delete_entry h2 (address_map h n) k h2 = count_delete_entry h (address_map h n) k h2) by done.
    rewrite Heq in Hhd'. split; [|by split_and!].
    rewrite Hhd', Hmap. cbn [address_map]. by rewrite He.
Qed.

Lemma hash_entry_spec n e st :
  loop_inv n st → keys_short → es !! n = Some e →
  cur_key n 0 (t_iter st) → i_block_position (t_iter st) = cur_block n →
  i_entry_count (t_iter st) = cur_index n → cur_ready (t_ra_iter st) →
  (is_put e = true → Z.of_nat (size (address_map (t_header st) n)) < hh_hash_capacity (t_header st)) →
  ∃ st', hash_entry log st = (Ok tt, st') ∧ loop_inv (S n) st' ∧
    cur_before (S n) (t_iter st') ∧ cur_ready (t_ra_iter st') ∧
    counts_of (t_header st) (t_header st').
Proof.
  intros [Hinv Hg] Hshort He Hk Hbp Hec Hra Hroom. pose proof Hinv as (Hh & Ha & _).
  destruct (hash_entry_table n e st Hinv Hshort He Hk Hbp Hec Hra) as (st' & Hrun & Hinv' & Hb & Hr & Hhd).
  { intros Hp. left. by apply Hroom. }
  exists st'. split; [done|]. split; [split; [done|]|split; [done|split; [done|]]].
  - rewrite Hhd. destruct e as [k v|k]; [by eapply garbage_put|by eapply garbage_delete].
  - rewrite Hhd. apply entry_header_counts.
Qed.

(** ** The loop *)

(** The slots the entries from [n] on can take up, with those in use. *)
Definition room_for (h : sparkey_hashheader) (n : nat) : Z :=
  Z.of_nat (size (address_map h n)) + zlen (puts_of (drop n es)).

Lemma room_for_S h n e :
  es !! n = Some e →
  room_for h (S n) ≤ room_for h n ∧
  (is_put e = true → Z.of_nat (size (address_map h n)) < room_for h n).
Proof.
  intros He. unfold room_for. rewrite (drop_S _ _ _ He).
  change (e :: drop (S n) es) with ([e] ++ drop (S n) es). rewrite puts_of_app, length_app.
  cbn [address_map]. rewrite He. destruct e as [k v|k].
  - change (puts_of [Put k v]) with [Put k v]. rewrite map_size_insert.
    destruct (address_map h n !! k); (split; [cbn; lia|intros Hp; cbn in *; (done || lia)]).
  - rewrite map_size_delete. change (puts_of [Delete k]) with (@nil entry).
    destruct (address_map h n !! k); (split; [cbn; lia|intros Hp; cbn in *; (done || lia)]).
Qed.

Lemma hash_write_loop_spec fuel n st :
  loop_inv n st → keys_short → (n ≤ length es)%nat → (length es - n < fuel)%nat →
  room_for (t_header st) n ≤ hh_hash_capacity (t_header st) →
  cur_before n (t_iter st) → cur_ready (t_ra_iter st) →
  ∃ st', hash_write_loop fuel log st = (Ok tt, st') ∧ loop_inv (length es) st' ∧
    counts_of (t_header st) (t_header st').
Proof.
  revert n st. induction fuel as [|fuel IH]; intros n st Hinv Hshort Hn Hfuel Hcap Hb Hr; [lia|].
  cbn [hash_write_loop]. destruct (decide (n = length es)) as [->|Hne].
  - destruct (cur_next_end _ Hb) as (i1 & Hnext & Hst & _).
    erewrite bind_Ok; [|unfold on_iter, zoom; by rewrite Hnext]. rewrite bind_getS.
    cbn [t_iter]. rewrite Hst. eexists. split; [reflexivity|]. split; [done|].
    eexists _, _. symmetry. apply set_hh_counts_id.
  - destruct (lookup_lt_is_Some_2 es n) as [e He]; [lia|].
    destruct (cur_next n e _ Hb He) as (i1 & Hnext & Hk & Hbp & Hec).
    erewrite bind_Ok; [|unfold on_iter, zoom; by rewrite Hnext]. rewrite bind_getS.
    destruct (cur_key_entry _ _ _ Hk) as (? & _ & (Hst & _) & _). cbn [t_iter]. rewrite Hst.
    set (st1 := HState (t_table st) (t_header st) i1 (t_ra_iter st)).
    destruct (hash_entry_spec n e st1) as (st2 & Hent & Hinv2 & Hb2 & Hr2 & Hc2); try done.
    { intros Hp. pose proof (proj2 (room_for_S (t_header st) n e He) Hp). cbn [t_header st1]. lia. }
    rewrite (bind_Ok _ _ _ _ _ Hent).
    destruct (IH (S n) st2) as (st3 & Hl & Hinv3 & Hc3); try done; [lia|lia| |].
    { destruct Hc2 as (g & c & ->). pose proof (proj1 (room_for_S (t_header st) n e He)).
      unfold room_for in *. rewrite address_map_counts. cbn [t_header st1] in *.
      change (hh_hash_capacity (set_hh_counts g c (t_header st))) with (hh_hash_capacity (t_header st)). lia. }
    exists st3. split; [done|]. split; [done|]. by eapply counts_of_trans.
Qed.

End Loop.
