(* ===== verification/IndexFile.v ===== *)
(** * The index of a log

    What a finished index is: a header the loader accepts and a table that maps
    every live key of the log to the address of its last put.  And the proof that
    [sparkey_hash_write] without an older index to copy leaves exactly that in
    the file, against the interface of log iterators. *)

From stdpp Require Import base gmap list strings numbers.
From Stdlib Require Import ZArith Lia.
From S2P Require Import Prelude ReturnCodes Endian OS Vlq LogHeader HashAlg HashHeader Buf.
From S2P Require Import Compress LogFormat LogWriter LogReader LogCursor RobinHood HashTable.
From S2P Require Import TableBytes TableRefine TableStats HashWriter.

Local Open Scope Z_scope.

(** ** Header values *)

(** The header as it comes back from the file: [header_size] is not stored. *)
Definition loaded (h : sparkey_hashheader) : sparkey_hashheader :=
  HashHeader (hh_major_version h) (hh_minor_version h) (hh_file_identifier h) (hh_hash_seed h)
    HASH_HEADER_SIZE (hh_data_end h) (hh_max_key_len h) (hh_max_value_len h)
    (hh_garbage_size h) (hh_num_entries h) (hh_address_size h) (hh_hash_size h)
    (hh_hash_capacity h) (hh_max_displacement h) (hh_num_puts h) (hh_entry_block_bits h)
    (hh_entry_block_bitmask h) (hh_hash_collisions h) (hh_total_displacement h)
    (hh_hash_algorithm h).

Lemma loaded_bytes h : hashheader_bytes (loaded h) = hashheader_bytes h.
Proof. done. Qed.

(** [int_log2] is the number of bits. *)
Lemma int_log2_loop_bounds fuel x c :
  0 ≤ x < 2 ^ Z.of_nat fuel → 0 ≤ c → c + Z.of_nat fuel < 2 ^ 32 →
  c ≤ int_log2_loop fuel x c ≤ c + Z.of_nat fuel ∧ x < 2 ^ (int_log2_loop fuel x c - c).
Proof.
  revert x c. induction fuel as [|fuel IH]; intros x c Hx Hc Hl; cbn [int_log2_loop].
  { rewrite Z.sub_diag. cbn in *. lia. }
  case_decide as Hp; [|rewrite Z.sub_diag; lia].
  rewrite u32_id by lia. rewrite Z.shiftr_div_pow2 by lia. change (2 ^ 1) with 2.
  destruct (IH (x / 2) (c + 1)) as [Hr Hlt]; [|lia|lia|].
  { rewrite Nat2Z.inj_succ, Z.pow_succ_r in Hx by lia.
    split; [apply Z.div_pos; lia|apply Z.div_lt_upper_bound; lia]. }
  split; [lia|]. pose proof (Z.div_mod x 2 ltac:(lia)). pose proof (Z.mod_pos_bound x 2 ltac:(lia)).
  set (r := int_log2_loop fuel (x / 2) (c + 1)) in *.
  replace (r - c) with (Z.succ (r - (c + 1))) by lia. rewrite Z.pow_succ_r by lia. lia.
Qed.

Lemma int_log2_bounds x : 0 ≤ x < 2 ^ 32 → 0 ≤ int_log2 x ≤ 32 ∧ x < 2 ^ int_log2 x.
Proof.
  intros Hx. destruct (int_log2_loop_bounds 32 x 0) as [H1 H2]; [done|done|done|].
  rewrite Z.sub_0_r in H2. unfold int_log2. split; [lia|done].
Qed.

(** The number of bits is the least that is enough. *)
Lemma int_log2_loop_le fuel x c k :
  0 ≤ x < 2 ^ Z.of_nat k → 0 ≤ c → c + Z.of_nat fuel < 2 ^ 32 → int_log2_loop fuel x c ≤ c + Z.of_nat k.
Proof.
  revert x c k. induction fuel as [|fuel IH]; intros x c k Hx Hc Hl; cbn [int_log2_loop]; [lia|].
  case_decide as Hp; [|lia]. destruct k as [|k]; [cbn in Hx; lia|].
  rewrite u32_id by lia. rewrite Z.shiftr_div_pow2 by lia. change (2 ^ 1) with 2.
  rewrite Nat2Z.inj_succ, Z.pow_succ_r in Hx by lia.
  specialize (IH (x / 2) (c + 1) k ltac:(split; [apply Z.div_pos; lia|apply Z.div_lt_upper_bound; lia])
    ltac:(lia) ltac:(lia)). lia.
Qed.

Lemma int_log2_le x k : 0 ≤ x < 2 ^ Z.of_nat k → int_log2 x ≤ Z.of_nat k.
Proof. intros Hx. unfold int_log2. pose proof (int_log2_loop_le 32 x 0 k Hx). lia. Qed.

Lemma block_bitmask_run bits :
  0 ≤ bits < 31 → block_bitmask bits = Some (2 ^ bits - 1).
Proof.
  intros Hb. unfold block_bitmask. rewrite decide_True by lia.
  rewrite Z.shiftl_1_l. pose proof (Z.pow_pos_nonneg 2 bits).
  assert (2 ^ bits < 2 ^ 31) by (apply Z.pow_lt_mono_r; lia). by rewrite u32_id by lia.
Qed.

(** ** The specification of an index *)

Section Index.
Context {C : Codec} {log : sparkey_logreader} {es : list entry} {L : LogCursor log es}.

(** A table of the first [n] entries: ordered, anchored, and with exactly the keys that are
    live then. *)
Definition indexes_upto (n : nat) (h : sparkey_hashheader) (tbl : list Z) : Prop :=
  header_ok h ∧ addresses_ok h ∧ table_ok h tbl ∧
  ordered (hh_hash_capacity h) (slots h tbl) ∧ anchored (hh_hash_capacity h) (slots h tbl) ∧
  contents (key_of h) (hash_key h) (slot_ok (hh_hash_capacity h)) (slots h tbl) (address_map h n).

(** The table of an index. *)
Definition table_indexes : sparkey_hashheader → list Z → Prop := indexes_upto (length es).

(** The index as a whole, in terms of the header of the log it was made from. *)
Definition index_ok (lh : sparkey_logheader) (h : sparkey_hashheader) (tbl : list Z) : Prop :=
  table_indexes h tbl ∧ hashheader_typed h ∧ hashheader_valid h ∧
  hh_major_version h = HASH_MAJOR_VERSION ∧ hh_minor_version h = HASH_MINOR_VERSION ∧
  hh_file_identifier h = lh_file_identifier lh ∧ hh_data_end h = lh_data_end lh ∧
  hh_max_key_len h = lh_max_key_len lh ∧ hh_max_value_len h = lh_max_value_len lh ∧
  hh_num_puts h = lh_num_puts lh ∧
  hh_num_entries h = Z.of_nat (size (replay es)) ∧
  hh_garbage_size h = u64 (zlen (log_body es) - live_size (replay es)).

(** What the writer needs of the log's header. *)
Definition indexable (lh : sparkey_logheader) : Prop :=
  logheader_typed lh ∧ 0 < lh_header_size (r_header log) ∧
  lh_data_end (r_header log) = lh_data_end lh ∧
  lh_num_puts lh = zlen (puts_of es) ∧ lh_num_puts lh < 2 ^ 56 ∧
  int_log2 (lh_max_entries_per_block lh) < 31 ∧
  lh_data_end lh * 2 ^ int_log2 (lh_max_entries_per_block lh) ≤ 2 ^ 64 ∧
  (∀ n e, es !! n = Some e → cur_index n < 2 ^ int_log2 (lh_max_entries_per_block lh)).

(** ** The new header *)

Lemma choose_hash_size_valid plan capacity hash_size :
  hash_size = 0 ∨ valid_size hash_size →
  ∃ size, choose_hash_size plan capacity hash_size = Some size ∧ valid_size size.
Proof.
  intros Hs. unfold choose_hash_size. case_decide as Hz.
  - eexists. split; [reflexivity|]. case_decide; [by right|by left].
  - destruct Hs as [|Hs]; [done|]. rewrite decide_True by done. by exists hash_size.
Qed.

Lemma new_header_spec plan lh hash_size o :
  indexable lh → 0 ≤ p_count plan < 2 ^ 56 → hash_size = 0 ∨ valid_size hash_size →
  ∃ h, new_header plan lh hash_size o = (Ok h, o) ∧ header_ok h ∧ addresses_ok h ∧
    p_count plan ≤ hh_hash_capacity h ≤ 2 * p_count plan + 1 ∧ hh_hash_seed h = p_hash_seed plan ∧
    choose_hash_size plan (hh_hash_capacity h) hash_size = Some (hh_hash_size h) ∧
    hh_data_end h = lh_data_end lh ∧ hh_max_key_len h = lh_max_key_len lh ∧
    hh_max_value_len h = lh_max_value_len lh ∧ hh_num_puts h = lh_num_puts lh ∧
    hh_num_entries h = 0 ∧ hh_garbage_size h = p_garbage_size plan ∧
    hh_entry_block_bits h = int_log2 (lh_max_entries_per_block lh).
Proof.
  intros (Hlt & Hhs & Hde & Hnp & Hnp2 & Hbits & Hfit & Hidx) Hcount Hsize.
  destruct (hash_capacity_bounds (p_count plan)) as (cap & Hcap & Hge & Hpos); [lia|].
  assert (Hme : 0 ≤ lh_max_entries_per_block lh < 2 ^ 32) by (unfold logheader_typed in Hlt; tauto).
  destruct (int_log2_bounds _ Hme) as [Hb0 _].
  unfold new_header. rewrite Hcap, bind_of_opt, block_bitmask_run, bind_of_opt by lia.
  destruct (choose_hash_size_valid plan cap hash_size Hsize) as (size & Hch & Hval). rewrite Hch.
  set (bits := int_log2 (lh_max_entries_per_block lh)) in *. clearbody bits.
  eexists. split; [reflexivity|].
  assert (Hsh : u64 (Z.shiftl 1 (32 - bits)) = 2 ^ (32 - bits)).
  { rewrite Z.shiftl_1_l, u64_id; [done|]. pose proof (Z.pow_pos_nonneg 2 (32 - bits)).
    assert (2 ^ (32 - bits) ≤ 2 ^ 32) by (apply Z.pow_le_mono_r; lia). lia. }
  assert (H32 : 2 ^ (32 - bits) * 2 ^ bits = 2 ^ 32)
    by (rewrite <- Z.pow_add_r by lia; f_equal; lia).
  pose proof (Z.pow_pos_nonneg 2 bits ltac:(lia) ltac:(lia)) as Hpb.
  split; [|split; [|cbn; split_and!; done || lia]].
  - unfold header_ok. cbn. split_and!; try done; try lia. case_decide; [by left|by right].
  - intros n e He. destruct (cur_block_range n e He) as [Hr Hi0]. specialize (Hidx n e He).
    cbn [hh_entry_block_bits hh_address_size]. split; [lia|]. split; [done|].
    rewrite Hsh. unfold field_limit. case_decide as Hlim; cbn [Z.mul]; nia.
Qed.

(** ** The empty table *)

Lemma le_value_zeros n : le_value (replicate n 0) = 0.
Proof. induction n as [|n IH]; [done|]. cbn [replicate le_value]. by rewrite IH. Qed.

Lemma zeros_empty h s n :
  header_ok h → table_ok h (replicate n 0) → ¬ occ (slots h (replicate n 0)) s.
Proof.
  intros Hh Ht. unfold occ.
  destruct (decide (slot_ok (hh_hash_capacity h) s)) as [Hs|Hs];
    [|rewrite slots_outside by done; cbn; tauto].
  destruct (read_slot_run h Hh _ s Ht Hs) as [Hr _].
  rewrite read_slot_unfold in Hr by done. pose proof Hh as (_ & _ & Ha & Hz & _).
  rewrite !read_field in Hr by done. unfold mem_read in Hr. repeat case_decide; try done.
  cbn in Hr. injection Hr as <-. cbn. rewrite !drop_replicate, !take_replicate, le_value_zeros. tauto.
Qed.

Lemma empty_table_inv h iter ra_iter n :
  header_ok h → addresses_ok h → hh_num_entries h = 0 →
  n = Z.to_nat (u64 (slot_size h * hh_hash_capacity h)) →
  table_inv (HState (replicate n 0) h iter ra_iter) ∅.
Proof.
  intros Hh Ha Hn ->. pose proof Hh as (Hcap & Hcap2 & _).
  destruct (slot_size_eq h Hh) as [_ Hss].
  assert (Ht : table_ok h (replicate (Z.to_nat (u64 (slot_size h * hh_hash_capacity h))) 0)).
  { rewrite u64_id by nia. split; [apply Forall_replicate; unfold byte_ok; lia|].
    rewrite length_replicate. nia. }
  pose proof (λ s, zeros_empty h s _ Hh Ht) as Hz.
  unfold table_inv, st_contents, st_slots. cbn [t_header t_table]. split_and!; try done.
  - intros s Hs Ho. by apply Hz in Ho.
  - exists 0. split; [unfold slot_ok; lia|by left].
  - apply contents_empty. intros s _. apply Hz.
Qed.

(** ** The finished index *)

(** The bounds of the statistics are those the loader checks. *)
Lemma finish_index lh st :
  let h := t_header st in let tbl := t_table st in
  indexable lh → table_inv st (address_map h (length es)) →
  garbage_inv (es := es) h (length es) →
  0 ≤ hh_hash_seed h < 2 ^ 32 → hh_data_end h = lh_data_end lh →
  hh_max_key_len h = lh_max_key_len lh → hh_max_value_len h = lh_max_value_len lh →
  hh_num_puts h = lh_num_puts lh →
  ∃ h', calculate_max_displacement h tbl = Some h' ∧ index_ok lh (loaded (stamp_header lh h')) tbl.
Proof.
  intros h tbl (Hlt & _ & _ & Hnp & _) (Hh & Ha & Ht & Hord & Hanch & Hcont & Hn) Hg Hseed Hde Hmk Hmv Hnput.
  unfold st_contents, st_slots in Hcont, Hord, Hanch.
  fold h in Hh, Ha, Ht, Hord, Hanch, Hcont, Hn. fold tbl in Ht, Hord, Hanch, Hcont. clearbody h tbl.
  destruct (calculate_max_displacement_spec h Hh tbl Ht) as (max & Hrun & Hmax & Hatt).
  pose proof (collisions_occupied (hh_hash_capacity h) (slots h tbl)) as Hcoll.
  pose proof (collisions_range (hh_hash_capacity h) (slots h tbl) (hh_hash_capacity h)) as Hcoll0.
  pose proof Hh as (Hcap & Hcap2 & Hva & Hvs & Halg & Hbits & Hmask).
  pose proof (occupied_size _ _ _ _ _ Hcont) as Hocc.
  pose proof (address_map_size h (length es) (le_n _)) as Hputs. rewrite firstn_all in Hputs.
  pose proof (contents_size _ Hcap _ _ _ _ Hcont) as Hsize.
  assert (Hmaxle : 0 ≤ max ≤ hh_num_entries h).
  { pose proof (attained_le h Hh tbl max Hord Hatt). lia. }
  assert (Hrep : size (replay es) = size (address_map h (length es))).
  { rewrite <- (firstn_all es) at 1. rewrite <- (address_map_replay h _ Hh Ha (le_n _)). apply map_size_fmap. }
  unfold logheader_typed in Hlt.
  eexists. split; [exact Hrun|]. unfold index_ok. split_and!; try done.
  - unfold table_indexes. split_and!; try done.
    rewrite (address_map_bits _ h) by done. exact Hcont.
  - unfold hashheader_typed, stamp_header, loaded, set_hh_displacement.
    cbn [hh_file_identifier hh_hash_seed hh_data_end hh_max_key_len hh_max_value_len hh_num_puts
      hh_garbage_size hh_num_entries hh_address_size hh_hash_size hh_hash_capacity
      hh_max_displacement hh_entry_block_bits hh_hash_collisions hh_total_displacement
      hh_header_size hh_hash_algorithm hh_entry_block_bitmask].
    apply valid_size_bounds in Hva as ?, Hvs as ?. rewrite Hmk, Hmv, Hnput, Hg.
    split_and!; try lia; try apply u64_range; try done. by rewrite Hmask, block_bitmask_run by lia.
  - unfold hashheader_valid. cbn. rewrite Hnput. split_and!; [done|lia..].
  - cbn. by rewrite Hrep.
  - cbn. by rewrite Hg, firstn_all.
Qed.

(** ** The file *)

(** The new file has a new inode; the old one, if any, is left as it was. *)
Lemma write_index_run name h tbl o :
  os_sched o = [] → os_wf o →
  ∃ o', write_index name h tbl o = (Ok tt, o') ∧ os_wf o' ∧ os_sched o' = [] ∧
    os_entropy o' = os_entropy o ∧ os_fds o' = os_fds o ∧
    os_names o' = <[name := os_next_inode o]> (os_names o) ∧
    os_inodes o' = <[os_next_inode o := hashheader_bytes h ++ tbl]> (os_inodes o).
Proof.
  intros Hs Hwf. unfold write_index. set (o1 := removed name o).
  assert (Hs1 : os_sched o1 = []) by done.
  assert (Hwf1 : os_wf o1) by (by apply removed_wf).
  rewrite (bind_Ok _ _ _ _ _ (sys_remove_run name o Hs)).
  erewrite (bind_Ok _ _ o1 tt o1); [|by case_decide].
  rewrite (bind_Ok _ _ _ _ _ (sys_create_run name o1 Hs1 (lookup_delete_eq _ _))).
  set (o2 := created name o1). change (os_next_fd o1) with (os_next_fd o).
  set (fd := os_next_fd o).
  assert (Hopen : fd_open o2 fd (os_next_inode o) 0) by apply (created_open name o1).
  assert (Hw : writes fd (_ ← write_hashheader fd h; write_full fd tbl) (hashheader_bytes h ++ tbl))
    by (apply writes_bind; [apply writes_hashheader|apply writes_full]).
  unfold closing. rewrite (writes_ok _ _ _ o2 _ _ Hw Hopen Hs1).
  pose proof (put_bytes_open _ _ _ (hashheader_bytes h ++ tbl) _ Hopen) as (Hfd3 & Hino3 & _).
  set (o3 := put_bytes fd (os_next_inode o) 0 (hashheader_bytes h ++ tbl) o2) in *.
  unfold sys_close. rewrite Hfd3. eexists. split; [reflexivity|].
  assert (Hfresh : os_fds o !! fd = None).
  { apply eq_None_not_Some. intros Hsome. destruct Hwf as (_ & _ & Hf & _).
    pose proof (Hf _ Hsome). unfold fd in *. lia. }
  assert (Hfds : delete fd (os_fds o3) = os_fds o).
  { unfold o3, put_bytes. cbn [os_fds set_fds set_inodes o2 created o1 removed set_names].
    fold fd. by rewrite insert_insert_eq, delete_insert_id. }
  assert (Hinodes : os_inodes o3 = <[os_next_inode o := hashheader_bytes h ++ tbl]> (os_inodes o)).
  { unfold o3, put_bytes. cbn [os_inodes set_fds set_inodes o2 created o1 removed set_names].
    rewrite insert_insert_eq, lookup_insert_eq. cbn [from_option id].
    by rewrite splice_start, drop_nil, app_nil_r. }
  split_and!; [|exact Hs|done|exact Hfds| |exact Hinodes].
  - pose proof (created_wf name o1 Hwf1) as (Hn & Hi & Hf & H0). fold o2 in Hn, Hi, Hf, H0.
    split_and!; cbn [os_names os_inodes os_fds os_next_inode os_next_fd set_fds]; [| | |done].
    + intros n i Hni. rewrite Hinodes. destruct (decide (i = os_next_inode o)) as [->|Hne].
      { rewrite lookup_insert_eq. by eexists. }
      rewrite lookup_insert_ne by done. destruct (Hn n i Hni) as [x Hx].
      cbn in Hx. rewrite lookup_insert_ne in Hx by done. by eexists.
    + intros i Hsome. apply Hi. rewrite Hinodes in Hsome.
      destruct (decide (i = os_next_inode o)) as [->|Hne].
      { cbn. rewrite lookup_insert_eq. by eexists. }
      rewrite lookup_insert_ne in Hsome by done. cbn. by rewrite lookup_insert_ne.
    + intros f Hsome. rewrite Hfds in Hsome. destruct Hwf as (_ & _ & Hf0 & _).
      pose proof (Hf0 f Hsome). cbn. lia.
  - cbn. by rewrite insert_delete_eq.
Qed.

(** ** [sparkey_hash_write] without an older index to copy *)

(** What the function leaves: the new file, and everything else as it was. *)
Definition indexed (lh : sparkey_logheader) (name : string) (o o' : os) : Prop :=
  os_wf o' ∧ os_sched o' = [] ∧ os_fds o' = os_fds o ∧ os_entropy o' = os_entropy o ∧
  (∀ n, n ≠ name → os_names o' !! n = os_names o !! n) ∧
  (∀ i c, os_inodes o !! i = Some c → os_inodes o' !! i = Some c) ∧
  ∃ ino h tbl, os_names o' !! name = Some ino ∧
    os_inodes o' !! ino = Some (hashheader_bytes h ++ tbl) ∧ index_ok lh h tbl.

(** What the writer copies into the header from the log and the plan. *)
Definition header_for (lh : sparkey_logheader) (h : sparkey_hashheader) : Prop :=
  0 ≤ hh_hash_seed h < 2 ^ 32 ∧ hh_data_end h = lh_data_end lh ∧
  hh_max_key_len h = lh_max_key_len lh ∧ hh_max_value_len h = lh_max_value_len lh ∧
  hh_num_puts h = lh_num_puts lh.

(** From a table that has the first [n] entries to the finished file. *)
Lemma fill_and_write_spec fuel n name lh st0 prepare st o0 o :
  prepare (o0, st0) = (Ok tt, (o, st)) →
  indexable lh → loop_inv n st → keys_short (es := es) → (n ≤ length es)%nat → (length es < fuel)%nat →
  cur_before n (t_iter st) → cur_ready (t_ra_iter st) → os_sched o = [] → os_wf o →
  room_for (es := es) (t_header st) n ≤ hh_hash_capacity (t_header st) → header_for lh (t_header st) →
  ∃ o', fill_and_write fuel name lh log st0 prepare o0 = (Ok tt, o') ∧ indexed lh name o o'.
Proof.
  intros Hprep Hidx Hinv Hshort Hn Hfuel Hb Hr Hs Hwf Hcap (Hseed & Hde & Hmk & Hmv & Hnput).
  destruct (hash_write_loop_spec fuel n st Hinv Hshort Hn ltac:(lia) Hcap Hb Hr)
    as (st' & Hloop & [Htab Hg] & (g & c & Hc)).
  unfold fill_and_write.
  assert (Hrun : with_table st0 (_ ← prepare; on_table (hash_write_loop fuel log)) o0 = (Ok st', o)).
  { unfold with_table. rewrite (bind_Ok _ _ _ _ _ Hprep). unfold on_table, zoom. cbn [snd fst].
    by rewrite Hloop. }
  rewrite (bind_Ok _ _ _ _ _ Hrun).
  destruct (finish_index lh st' Hidx Htab Hg) as (h' & Hstat & Hok); try (by rewrite Hc).
  rewrite Hstat, bind_of_opt.
  destruct (write_index_run name (stamp_header lh h') (t_table st') o Hs Hwf)
    as (o' & Hw & Hwf' & Hs' & He' & Hfds & Hnames & Hinodes).
  exists o'. split; [done|]. unfold indexed. split_and!; try done.
  - intros nm Hnm. by rewrite Hnames, lookup_insert_ne.
  - intros i x Hi. rewrite Hinodes, lookup_insert_ne; [done|]. intros <-.
    destruct Hwf as (_ & Hlt & _). assert (os_next_inode o < os_next_inode o)%nat by (apply Hlt; by eexists).
    lia.
  - exists (os_next_inode o), (loaded (stamp_header lh h')), (t_table st').
    rewrite Hnames, Hinodes, !lookup_insert_eq, loaded_bytes. done.
Qed.

Lemma close_reader_run (rd : sparkey_logreader) o :
  r_open_status rd = MAGIC_VALUE_LOGREADER → is_Some (os_fds o !! r_fd rd) →
  close_reader rd o = (Ok tt, set_fds (delete (r_fd rd) (os_fds o)) o).
Proof.
  intros Hst [x Hx]. unfold close_reader, sparkey_logreader_close, sparkey_logreader_close_nodealloc.
  rewrite bind_get_snd. cbn [snd]. rewrite decide_False by tauto.
  unfold on_os, zoom, sys_close, mbind, M_bind. cbn [fst snd]. by rewrite Hx.
Qed.

(** The rest of the function, when no older index is copied. *)
Lemma planned_fresh fuel name hash_size lh plan i o :
  cur_before 0 i → cur_ready i → os_sched o = [] → os_wf o →
  p_old plan = None → p_count plan = lh_num_puts lh → p_garbage_size plan = 0 →
  0 ≤ p_hash_seed plan < 2 ^ 32 → hash_size = 0 ∨ valid_size hash_size →
  indexable lh → keys_short (es := es) → (length es < fuel)%nat →
  ∃ o', hash_write_planned fuel name lh log i i plan hash_size o = (Ok tt, o') ∧ indexed lh name o o'.
Proof.
  intros Hb Hr Hs Hwf Hold Hcount Hg Hseed Hsize Hidx Hshort Hfuel.
  assert (Hcnt : lh_num_puts lh = zlen (puts_of es) ∧ lh_num_puts lh < 2 ^ 56)
    by (unfold indexable in Hidx; tauto).
  destruct (new_header_spec plan lh hash_size o Hidx ltac:(lia) Hsize)
    as (h & Hnew & Hh & Ha & Hcap & Hsd & _ & Hde & Hmk & Hmv & Hnput & Hne & Hgs & _).
  set (st := HState (replicate (Z.to_nat (u64 (slot_size h * hh_hash_capacity h))) 0) h i i).
  assert (Hinv : loop_inv 0 st).
  { split; [by apply empty_table_inv|]. unfold garbage_inv. cbn [t_header st]. by rewrite Hgs, Hg. }
  assert (Hroom : room_for (es := es) h 0 ≤ hh_hash_capacity h).
  { unfold room_for. cbn [address_map]. rewrite map_size_empty, drop_0. lia. }
  destruct (fill_and_write_spec fuel 0 name lh st (mret tt : MOH unit) st o o) as (o' & Hfill & Hix); try done.
  { lia. } { unfold header_for. cbn [t_header st]. by rewrite Hsd. }
  exists o'. split; [|done]. unfold hash_write_planned.
  rewrite (bind_Ok _ _ _ _ _ Hnew), (bind_Ok _ _ _ _ _ (sys_malloc_run o Hs)). cbn [negb].
  unfold copied_header. rewrite Hold. exact Hfill.
Qed.

(** The whole function, when no older index is copied. *)
Lemma hash_write_fresh fuel name log_name hash_size lh plan o o1 o2 o3 :
  sparkey_load_logheader log_name o = (Ok lh, o1) →
  sparkey_logreader_open log_name o1 = (Ok log, o2) → os_sched o2 = [] →
  r_open_status log = MAGIC_VALUE_LOGREADER → is_Some (os_fds o2 !! r_fd log) →
  plan_hash name lh o2 = (Ok plan, o3) → os_sched o3 = [] → os_wf o3 → os_fds o3 = os_fds o2 →
  p_old plan = None → p_count plan = lh_num_puts lh → p_garbage_size plan = 0 →
  0 ≤ p_hash_seed plan < 2 ^ 32 → hash_size = 0 ∨ valid_size hash_size →
  indexable lh → keys_short (es := es) → (length es < fuel)%nat →
  ∃ o4, sparkey_hash_write fuel name log_name hash_size o =
      (Ok tt, set_fds (delete (r_fd log) (os_fds o4)) o4) ∧ indexed lh name o3 o4.
Proof.
  intros Hload Hopen Hs2 Hst Hfd Hplan Hs3 Hwf3 Hfds3 Hold Hcount Hg Hseed Hsize Hidx Hshort Hfuel.
  destruct (cur_create o2 Hs2) as (i1 & Hc1 & Hb1 & Hr1).
  destruct (planned_fresh fuel name hash_size lh plan i1 o3) as (o4 & Hrun & Hix); try done.
  exists o4. split; [|done].
  unfold sparkey_hash_write. rewrite (bind_Ok _ _ _ _ _ Hload), (bind_Ok _ _ _ _ _ Hopen).
  unfold finally. rewrite (bind_Ok _ _ _ _ _ Hc1), (bind_Ok _ _ _ _ _ Hc1).
  rewrite (bind_Ok _ _ _ _ _ Hplan), Hrun. destruct Hix as (_ & _ & Hfds4 & _).
  by rewrite close_reader_run by (rewrite ?Hfds4, ?Hfds3; done).
Qed.

(** No index yet: the plan starts from nothing, with a seed from the entropy. *)
Lemma plan_missing name lh o :
  os_sched o = [] → os_names o !! name = None → (4 ≤ length (os_entropy o))%nat →
  plan_hash name lh o =
    (Ok (HashPlan (lh_num_puts lh) (lh_header_size lh) (seed_of o) 0 None),
     set_entropy (drop 4 (os_entropy o)) o).
Proof.
  intros Hs Hn He. unfold plan_hash.
  assert (Ha : attempt (sparkey_load_hashheader name) o = (Ok (inl SPARKEY_FILE_NOT_FOUND), o)).
  { unfold attempt, sparkey_load_hashheader, sys_open, mbind, M_bind, pop. by rewrite Hs, Hn. }
  rewrite (bind_Ok _ _ _ _ _ Ha). by rewrite (bind_Ok _ _ _ _ _ (rand32_run o Hs He)).
Qed.

End Index.

(** ** Another reader of the same log *)

Lemma list_find_agree {A} (Q1 Q2 : A → Prop) `{∀ x, Decision (Q1 x)} `{∀ x, Decision (Q2 x)} l :
  (∀ x, x ∈ l → Q1 x ↔ Q2 x) → list_find Q1 l = list_find Q2 l.
Proof.
  induction l as [|x l IH]; intros Hq; [done|]. cbn [list_find].
  rewrite (decide_ext (Q1 x) (Q2 x)) by (apply Hq; by left). rewrite IH; [done|].
  intros y Hy. apply Hq. by right.
Qed.

(** A table of a log is one of every log that starts with it, whoever reads it. *)
Section Transport.
Context {C : Codec} {log1 log2 : sparkey_logreader} {es1 es2 es : list entry}.
Context {L1 : LogCursor log1 es1} {L2 : LogCursor log2 es} (Hes : es = es1 ++ es2).
Context (Hcur : ∀ n, (n < length es1)%nat →
  cur_block (LogCursor := L1) n = cur_block (LogCursor := L2) n ∧
  cur_index (LogCursor := L1) n = cur_index (LogCursor := L2) n).

Lemma addr_of_agree h n : (n < length es1)%nat → addr_of (L := L1) h n = addr_of (L := L2) h n.
Proof using Hcur. intros Hn. unfold addr_of. by destruct (Hcur n Hn) as [-> ->]. Qed.

Lemma key_of_agree h a k : key_of (L := L1) h a = Some k → key_of (L := L2) h a = Some k.
Proof using Hcur Hes.
  assert (Hlen : length es = (length es1 + length es2)%nat) by (by rewrite Hes, length_app).
  assert (Hl : ∀ n, (n < length es1)%nat → es !! n = es1 !! n) by (intros n Hn; rewrite Hes; by apply lookup_app_l).
  unfold key_of, entry_at. rewrite Hlen, seq_app.
  rewrite (list_find_agree _ (λ n, addr_of (L := L2) h n = a) (seq 0 (length es1))).
  2:{ intros n [_ Hn]%elem_of_seq. by rewrite addr_of_agree by lia. }
  destruct (list_find _ (seq 0 (length es1))) as [[i n]|] eqn:Hf; [|done].
  rewrite (list_find_app_l _ _ _ _ _ Hf). cbn.
  apply list_find_Some in Hf as (Hn & _). apply lookup_seq in Hn as [-> Hn].
  by rewrite Hl.
Qed.

Lemma address_map_agree h n : (n ≤ length es1)%nat → address_map (L := L1) h n = address_map (L := L2) h n.
Proof using Hcur Hes.
  induction n as [|n IH]; intros Hn; cbn [address_map]; [done|].
  assert (He : es !! n = es1 !! n) by (rewrite Hes; by apply lookup_app_l).
  rewrite He, IH by lia. destruct (es1 !! n) as [[k v|k]|]; [|done..]. by rewrite addr_of_agree.
Qed.

Lemma table_indexes_prefix h tbl :
  table_indexes (L := L1) h tbl → addresses_ok (L := L2) h → indexes_upto (L := L2) (length es1) h tbl.
Proof using Hcur Hes.
  intros (Hh & _ & Ht & Ho & Han & H1 & H2 & H3) Ha. split_and!; try done. split_and!; [| |done].
  - intros s Hs Hoc. destruct (H1 s Hs Hoc) as (k & Hk & Hf & Hm). exists k.
    rewrite <- address_map_agree by done. split; [by apply key_of_agree|done].
  - intros k a. rewrite <- address_map_agree by done. intros Hm.
    destruct (H2 k a Hm) as (s & Hs & Hoc & Hf & Hk). exists s. split_and!; try done. by apply key_of_agree.
Qed.

Lemma table_indexes_agree h tbl : es2 = [] → table_indexes (L := L1) h tbl → table_indexes (L := L2) h tbl.
Proof using Hcur Hes.
  intros H0 Htbl. assert (E : es = es1) by (by rewrite Hes, H0, app_nil_r).
  unfold table_indexes at 1. replace (length es) with (length es1) by (by rewrite E).
  apply (table_indexes_prefix h tbl Htbl).
  pose proof Htbl as (_ & Ha & _). intros n e He. rewrite E in He.
  destruct (Hcur n) as [<- <-]; [by eapply lookup_lt_Some|]. by apply (Ha n e).
Qed.
End Transport.
