(* ===== verification/IndexCopy.v ===== *)
(** * Bringing an index up to date

    [fill_hash] and [hash_copy]: the table of an older index of the same log is
    read in chunks and put into the new table, where the entries written since
    then join it. *)

From stdpp Require Import base gmap list strings numbers.
From Stdlib Require Import ZArith Lia.
From S2P Require Import Prelude ReturnCodes Endian OS LogHeader HashAlg HashHeader Buf Compress.
From S2P Require Import LogFormat LogWriter LogReader LogCursor RobinHood HashTable.
From S2P Require Import TableBytes TableRefine HashWriter IndexFile.

Local Open Scope Z_scope.

Section Copy.
Context {C : Codec} {log : sparkey_logreader} {es : list entry} {L : LogCursor log es}.

(** ** The live entries by number *)

(** Like [address_map], with the number of the entry in place of its address. *)
Fixpoint index_map (n : nat) : gmap (list Z) nat :=
  match n with
  | O => ∅
  | S m => match es !! m with
           | Some (Put k _) => <[k := m]> (index_map m)
           | Some (Delete k) => delete k (index_map m)
           | None => index_map m
           end
  end.

Lemma address_map_index h n : address_map h n = addr_of h <$> index_map n.
Proof.
  induction n as [|n IH]; cbn [address_map index_map]; [by rewrite fmap_empty|].
  rewrite IH. destruct (es !! n) as [[k v|k]|]; [by rewrite fmap_insert|by rewrite fmap_delete|done].
Qed.

Lemma index_map_entry n k m :
  index_map n !! k = Some m → (m < n)%nat ∧ ∃ v, es !! m = Some (Put k v).
Proof.
  induction n as [|n IH]; cbn [index_map]; [by rewrite lookup_empty|]. intros Hk.
  assert (Hrec : index_map n !! k = Some m → (m < S n)%nat ∧ ∃ v, es !! m = Some (Put k v)).
  { intros [? ?]%IH. split; [lia|done]. }
  destruct (es !! n) as [[k' v|k']|] eqn:He; [| |by apply Hrec].
  - apply lookup_insert_Some in Hk as [[-> <-]|[_ Hk]]; [|by apply Hrec].
    split; [lia|by exists v].
  - apply lookup_delete_Some in Hk as [_ Hk]. by apply Hrec.
Qed.

(** ** The old table *)

(** The table [to] with header [ho] was made from the first [n0] entries: its
    occupied slots are the live entries among them, each once. *)
Definition old_table (ho : sparkey_hashheader) (to : list Z) (n0 : nat) : Prop :=
  header_ok ho ∧ table_ok ho to ∧ (n0 ≤ length es)%nat ∧
  (∀ s, slot_ok (hh_hash_capacity ho) s → occ (slots ho to) s →
     ∃ k n, index_map n0 !! k = Some n ∧ slots ho to s = (hash_key ho k, addr_of ho n)) ∧
  (∀ k n, index_map n0 !! k = Some n →
     ∃ s, slot_ok (hh_hash_capacity ho) s ∧ occ (slots ho to) s ∧
          slots ho to s = (hash_key ho k, addr_of ho n)) ∧
  (∀ s t, slot_ok (hh_hash_capacity ho) s → slot_ok (hh_hash_capacity ho) t →
     occ (slots ho to) s → occ (slots ho to) t → (slots ho to s).2 = (slots ho to t).2 → s = t) ∧
  (∀ n e, (n < n0)%nat → es !! n = Some e →
     block_position_of ho (addr_of ho n) = cur_block n ∧
     entry_index_of ho (addr_of ho n) = cur_index n).

Context (ho : sparkey_hashheader) (to : list Z) (n0 : nat) (Hold : old_table ho to n0).
Local Abbreviation ss := (slot_size ho).
Local Abbreviation cap := (hh_hash_capacity ho).

(** The new header hashes the way the old one does, and has room. *)
Context (h0 : sparkey_hashheader).
Context (Hseed : hh_hash_seed h0 = hh_hash_seed ho) (Hsize : hh_hash_size h0 = hh_hash_size ho).
Context (Hroom : Z.of_nat (size (index_map n0)) ≤ hh_hash_capacity h0).

(** The live entries of the slots before [j] are in the new table. *)
Definition copied (j : Z) (st : hstate) : Prop :=
  ∃ m, table_inv st m ∧ (∃ c, t_header st = set_hh_counts (hh_garbage_size h0) c h0) ∧
    ∀ k a, m !! k = Some a ↔
      ∃ n s, index_map n0 !! k = Some n ∧ a = addr_of h0 n ∧ 0 ≤ s < j ∧ s < cap ∧
             slots ho to s = (hash_key ho k, addr_of ho n).

(** [buf] holds the bytes of the slots from [j] on, for [count] slots. *)
Definition window (buf : list Z) (j count : Z) : Prop :=
  take (Z.to_nat (count * ss)) buf = take (Z.to_nat (count * ss)) (drop (Z.to_nat (j * ss)) to) ∧
  count * ss ≤ zlen buf.

Lemma window_read buf j count t :
  window buf j count → 0 ≤ t < count → 0 ≤ j → j + count ≤ cap → count ≤ 2 ^ 24 →
  read_slot ho buf (t * ss) = Some (slots ho to (j + t)).
Proof.
  intros [Hw Hl] Ht Hj Hc Hcount. destruct Hold as (Hh & Hto & _).
  assert (Hs : slot_ok cap (j + t)) by (unfold slot_ok; lia).
  destruct (slot_bounds ho Hh (j + t) Hs) as (B0 & B1 & B2 & B3 & B4 & B5 & B6 & B7).
  destruct (read_slot_run ho Hh to (j + t) Hto Hs) as [<- _].
  assert (Hread : ∀ p len, 0 ≤ p → 0 ≤ len → p + len ≤ count * ss →
    mem_read buf p len = mem_read to (j * ss + p) len).
  { intros p len Hp Hlen Hle. pose proof Hto as [_ Htl]. rewrite !mem_read_some by nia. f_equal.
    assert (Hd : take (Z.to_nat len) (drop (Z.to_nat p) (take (Z.to_nat (count * ss)) buf)) =
      take (Z.to_nat len) (drop (Z.to_nat p) (take (Z.to_nat (count * ss)) (drop (Z.to_nat (j * ss)) to))))
      by by rewrite Hw.
    rewrite !skipn_firstn_comm, !take_take, drop_drop in Hd.
    rewrite !Nat.min_l in Hd by lia. rewrite Hd. do 2 f_equal. nia. }
  rewrite !read_slot_unfold by done. destruct Hh as (_ & _ & Hva & Hvs & _).
  assert (Hp : 0 ≤ t * ss ∧ t * ss + ss ≤ count * ss) by nia.
  assert (count * ss ≤ 2 ^ 28) by nia.
  rewrite !read_field by done. rewrite B4, (u64_id (t * ss + _)) by lia.
  rewrite !Hread by lia.
  replace (j * ss + t * ss) with ((j + t) * ss) by lia.
  replace (j * ss + (t * ss + hh_hash_size ho)) with ((j + t) * ss + hh_hash_size ho) by lia. done.
Qed.

Lemma index_put k n : index_map n0 !! k = Some n → (n < n0)%nat ∧ ∃ v, es !! n = Some (Put k v).
Proof. apply index_map_entry. Qed.

Lemma hash_key_same k : hash_key h0 k = hash_key ho k.
Proof. unfold hash_key. by rewrite Hseed, Hsize. Qed.

(** Copying one slot. *)
Lemma copied_empty s st :
  copied s st → slot_ok cap s → block_position_of ho (slots ho to s).2 = 0 → copied (s + 1) st.
Proof.
  intros (m & Hinv & Hc & Hm) Hs Hz. exists m. split; [done|]. split; [done|]. intros k a.
  rewrite Hm. split; intros (n & s' & Hn & Ha & Hr & Hr2 & Hsl).
  - exists n, s'. split_and!; (done || lia).
  - exists n, s'. split_and!; try (done || lia). destruct (decide (s' = s)) as [->|]; [|lia]. exfalso.
    destruct Hold as (_ & _ & _ & _ & _ & _ & Haddr). destruct (index_put k n Hn) as [Hlt [v He]].
    destruct (Haddr n _ Hlt He) as [Hb _]. rewrite Hsl in Hz. cbn in Hz.
    destruct (cur_block_range n _ He) as [Hr' _].
    destruct Hinv as (_ & Hadd & _). destruct (Hadd n _ He) as [Hpos _]. lia.
Qed.

Lemma copied_put s st k n :
  copied s st → slot_ok cap s → occ (slots ho to) s → index_map n0 !! k = Some n →
  slots ho to s = (hash_key ho k, addr_of ho n) →
  ∃ st', hash_put (hash_key ho k mod hh_hash_capacity (t_header st)) (hash_key ho k) None
           (addr_of (t_header st) n) st = (Ok tt, st') ∧
    copied (s + 1) st' ∧ t_iter st' = t_iter st ∧ t_ra_iter st' = t_ra_iter st.
Proof.
  intros (m & Hinv & (c & Hc) & Hm) Hs Hos Hn Hsl.
  destruct (index_put k n Hn) as [Hlt [v He]].
  destruct Hold as (_ & _ & _ & _ & _ & Huniq & _).
  assert (Hk : m !! k = None).
  { apply eq_None_not_Some. intros [a Ha]. apply Hm in Ha as (n' & s' & Hn' & _ & Hr & Hr2 & Hsl').
    assert (n' = n) as -> by congruence.
    assert (s' = s); [|lia]. apply Huniq; try done; [unfold slot_ok; lia| |by rewrite Hsl', Hsl].
    unfold occ in *. by rewrite Hsl', <- Hsl. }
  assert (Hsub : <[k := addr_of h0 n]> m ⊆ addr_of h0 <$> index_map n0).
  { apply map_subseteq_spec. intros k' a [[<- <-]|[_ Ha]]%lookup_insert_Some.
    - by rewrite lookup_fmap, Hn.
    - apply Hm in Ha as (n' & _ & Hn' & -> & _). by rewrite lookup_fmap, Hn'. }
  apply map_subseteq_size in Hsub. rewrite map_size_insert_None, map_size_fmap in Hsub by done.
  assert (Hcapeq : hh_hash_capacity (t_header st) = hh_hash_capacity h0) by by rewrite Hc.
  destruct (hash_put_new st m n k v Hinv Hk He) as (st' & Hrun & Hinv' & Hhd & Hi & Hr); [lia|].
  assert (Hkey : hash_key (t_header st) k = hash_key ho k) by (rewrite Hc; apply hash_key_same).
  assert (Haddr : ∀ x, addr_of (t_header st) x = addr_of h0 x) by (intros x; by rewrite Hc).
  rewrite Hkey in Hrun. exists st'. split; [done|]. split; [|done].
  exists (<[k := addr_of (t_header st) n]> m). split; [done|]. split.
  { rewrite Hhd, Hc. by eexists. }
  intros k' a. rewrite lookup_insert_Some, Hm. split.
  - intros [[<- <-]|[Hne (n' & s' & Hn' & Ha & Hr1 & Hr2 & Hsl')]].
    + exists n, s. unfold slot_ok in Hs. split_and!; (by rewrite ?Haddr) || lia.
    + exists n', s'. split_and!; (done || lia).
  - intros (n' & s' & Hn' & -> & Hr1 & Hr2 & Hsl'). destruct (decide (s' = s)) as [->|Hne].
    + left. rewrite Hsl in Hsl'. injection Hsl' as _ Heq. rewrite Haddr.
      assert (n' = n) as ->; [|split; [|done]].
      * destruct Hold as (_ & _ & _ & _ & _ & _ & Hsplit).
        destruct (index_put k' n' Hn') as [Hlt' [v' He']].
        destruct (Hsplit n _ Hlt He) as [B1 I1], (Hsplit n' _ Hlt' He') as [B2 I2].
        rewrite Heq in B1, I1. eapply cur_address_inj; [done|done|congruence|congruence].
      * destruct (index_put k' n Hn') as [_ [v' He']]. congruence.
    + right. split; [|exists n', s'; split_and!; (done || lia)]. intros ->.
      apply Hne. apply Huniq; try done; [unfold slot_ok; lia| |].
      * unfold occ in *. rewrite Hsl'. cbn. assert (n' = n) as -> by congruence. by rewrite Hsl in Hos.
      * rewrite Hsl', Hsl. cbn. by assert (n' = n) as -> by congruence.
Qed.

Lemma hash_copy_loop_spec n buf j count t st :
  window buf j count → count ≤ 2 ^ 24 → 0 ≤ j → j + count ≤ cap → 0 ≤ t → t + Z.of_nat n = count →
  copied (j + t) st →
  ∃ st', hash_copy_loop n buf (t * ss) ho st = (Ok tt, st') ∧ copied (j + count) st' ∧
    t_iter st' = t_iter st ∧ t_ra_iter st' = t_ra_iter st.
Proof.
  intros Hw Hcount Hj Hjc. revert t st. induction n as [|n IH]; intros t st Ht Htn Hc; cbn [hash_copy_loop].
  { exists st. replace count with t by lia. done. }
  pose proof Hold as (Hh & _ & _ & Hocc & _ & _ & Hsplit).
  rewrite bind_getS, (window_read buf j count t Hw) by lia. rewrite bind_of_opt.
  assert (Hs : slot_ok cap (j + t)) by (unfold slot_ok; lia).
  assert (Hnext : u32 (t * ss + ss) = (t + 1) * ss).
  { destruct (slot_size_eq ho Hh) as [_ Hr]. replace (t * ss + ss) with ((t + 1) * ss) by lia.
    apply u32_id. nia. }
  assert (Hstep : ∃ st1, (let '(hash, position) := slots ho to (j + t) in
      if decide (block_position_of ho position ≠ 0) then
        hash_put (hash mod hh_hash_capacity (t_header st)) hash None
          (Z.lor (u64 (Z.shiftl (block_position_of ho position) (hh_entry_block_bits (t_header st))))
             (u64 (entry_index_of ho position)))
      else mret tt) st = (Ok tt, st1) ∧ copied (j + (t + 1)) st1 ∧
      t_iter st1 = t_iter st ∧ t_ra_iter st1 = t_ra_iter st).
  { rewrite Z.add_assoc. destruct (decide (occ (slots ho to) (j + t))) as [Hos|Hos].
    - destruct (Hocc _ Hs Hos) as (k & m & Hk & Hsl). destruct (index_put k m Hk) as [Hlt [v He]].
      destruct (Hsplit m _ Hlt He) as [Hb Hi].
      destruct (copied_put (j + t) st k m Hc Hs Hos Hk Hsl) as (st1 & Hrun & ?).
      rewrite Hsl, Hb, Hi. pose proof Hc as (x & (_ & Hadd & _) & _). destruct (Hadd m _ He) as [Hpos _].
      rewrite decide_True by lia. exists st1. split; [exact Hrun|done].
    - assert (Hz : block_position_of ho (slots ho to (j + t)).2 = 0).
      { unfold occ in Hos. apply dec_stable in Hos. rewrite Hos. unfold block_position_of. by rewrite Z.shiftr_0_l. }
      destruct (slots ho to (j + t)) as [hash position] eqn:Hsl. cbn in Hz. rewrite Hz.
      rewrite decide_False by tauto. exists st. split; [done|]. split; [|done].
      apply copied_empty; [done|done|by rewrite Hsl]. }
  destruct Hstep as (st1 & Hrun & Hc1 & Hi1 & Hr1).
  destruct (slots ho to (j + t)) as [hash position].
  rewrite (bind_Ok _ _ _ _ _ Hrun), Hnext.
  destruct (IH (t + 1) st1) as (st' & Hl & Hc' & Hi' & Hr'); [lia|lia|done|].
  exists st'. split; [done|]. split; [done|]. split; congruence.
Qed.

Lemma hash_copy_run buf j count st :
  window buf j count → 0 ≤ count ≤ 2 ^ 24 → 0 ≤ j → j + count ≤ cap → copied j st →
  ∃ st', hash_copy buf (count * ss) ho st = (Ok tt, st') ∧ copied (j + count) st' ∧
    t_iter st' = t_iter st ∧ t_ra_iter st' = t_ra_iter st.
Proof.
  intros Hw Hcount Hj Hjc Hc. pose proof Hold as (Hh & _). destruct (slot_size_eq ho Hh) as [_ Hr].
  unfold hash_copy. assert (Hn : (count * ss + ss - 1) / ss = count).
  { symmetry. apply (Z.div_unique _ _ _ (ss - 1)); lia. }
  rewrite Hn. change 0 with (0 * ss). apply (hash_copy_loop_spec _ buf j count); try done; try lia.
  by rewrite Z.add_0_r.
Qed.

Lemma copied_start st : table_inv st ∅ → t_header st = h0 → copied 0 st.
Proof.
  intros Hinv Hh. exists ∅. split; [done|]. split.
  - exists (hh_num_entries h0). rewrite Hh. symmetry. apply set_hh_counts_id.
  - intros k a. rewrite lookup_empty. split; [done|]. intros (n & s & _ & _ & Hs & _). lia.
Qed.

Lemma copied_end st :
  copied cap st → table_inv st (address_map (t_header st) n0) ∧
    ∃ c, t_header st = set_hh_counts (hh_garbage_size h0) c h0.
Proof.
  intros (m & Hinv & (c & Hc) & Hm). split; [|by exists c].
  assert (address_map (t_header st) n0 = m) as ->; [|done].
  rewrite Hc, address_map_counts, address_map_index. apply map_eq. intros k.
  apply option_eq. intros a. rewrite Hm, lookup_fmap, fmap_Some. split.
  - intros (n & Hn & ->). destruct Hold as (_ & _ & _ & _ & Hall & _).
    destruct (Hall k n Hn) as (s & Hs & _ & Hsl). exists n, s. unfold slot_ok in Hs. split_and!; (done || lia).
  - intros (n & s & Hn & -> & _). by exists n.
Qed.

(** *** The file of the old index *)

(** A read that the file can serve, in a cooperative environment. *)
Lemma read_all_run fd ino off count content buf o :
  readable o ino content → 0 ≤ off → 0 ≤ count → off + count ≤ zlen content → count ≤ zlen buf →
  ∃ buf', read_all fd buf count (at_off fd ino off o) = (Ok buf', at_off fd ino (off + count) o) ∧
    take (Z.to_nat count) buf' = take (Z.to_nat count) (drop (Z.to_nat off) content) ∧
    zlen buf' = zlen buf.
Proof.
  intros [Hc Hs] Hoff Hcount Hle Hbuf. unfold read_all. cbn [read_fully].
  destruct (decide (0 < count)) as [Hpos|Hpos].
  2:{ assert (count = 0) as -> by lia. rewrite Z.add_0_r. by exists buf. }
  set (bs := take (Z.to_nat count) (drop (Z.to_nat off) content)).
  assert (Hbs : zlen bs = count) by (unfold bs; rewrite length_take, length_drop; lia).
  assert (Hread : sys_read fd count (at_off fd ino off o) = (Ok (inr bs), at_off fd ino (off + count) o)).
  { unfold sys_read, pop. cbn [os_fds at_off set_fds os_inodes os_sched]. rewrite lookup_insert_eq, Hs, Hc.
    cbn [from_option id]. fold bs. rewrite Hbs. unfold at_off, set_fds. cbn. by rewrite insert_insert_eq. }
  rewrite (bind_Ok _ _ _ _ _ Hread). unfold mem_write. rewrite decide_True by lia. rewrite bind_of_opt.
  rewrite Hbs, Z.sub_diag. cbn [decide]. rewrite decide_False by lia.
  rewrite Z2Nat.inj_0, take_0, app_nil_l, Nat.add_0_l. eexists. split; [reflexivity|]. split.
  - rewrite take_app_le by lia. apply take_ge. lia.
  - rewrite length_app, length_drop. lia.
Qed.

Context (content : list Z) (ino : nat).
Context (Hcontent : drop (Z.to_nat (hh_header_size ho)) content = to) (Hhs : 0 ≤ hh_header_size ho ≤ zlen content).

Lemma read_window fd j count buf o :
  readable o ino content → 0 ≤ j → 0 ≤ count → j + count ≤ cap → count * ss ≤ zlen buf →
  ∃ buf', read_all fd buf (count * ss) (at_off fd ino (hh_header_size ho + j * ss) o) =
      (Ok buf', at_off fd ino (hh_header_size ho + (j + count) * ss) o) ∧
    window buf' j count ∧ zlen buf' = zlen buf.
Proof.
  intros Ho Hj Hcount Hjc Hbuf. pose proof Hold as (Hh & [_ Htl] & _).
  destruct (slot_size_eq ho Hh) as [_ Hr].
  assert (Hlen : zlen to = zlen content - hh_header_size ho).
  { rewrite <- Hcontent, length_drop. lia. }
  destruct (read_all_run fd ino (hh_header_size ho + j * ss) (count * ss) content buf o Ho)
    as (buf' & Hrun & Htake & Hl); [nia|nia|nia|done|].
  exists buf'. split; [|split; [split|done]].
  - rewrite Hrun. do 2 f_equal. lia.
  - rewrite Htake, <- Hcontent, drop_drop. do 2 f_equal. nia.
  - lia.
Qed.

Lemma fill_hash_loop_spec fuel fd buf j st o :
  readable o ino content → 0 ≤ j ≤ cap → zlen buf = 1024 * ss → copied j st →
  (cap - j) / 1024 < Z.of_nat fuel →
  ∃ st', fill_hash_loop fuel fd buf (1024 * ss) ((cap - j) * ss) ho
      (at_off fd ino (hh_header_size ho + j * ss) o, st) =
      (Ok tt, (at_off fd ino (hh_header_size ho + cap * ss) o, st')) ∧
    copied cap st' ∧ t_iter st' = t_iter st ∧ t_ra_iter st' = t_ra_iter st.
Proof.
  intros Ho. pose proof Hold as (Hh & _). destruct (slot_size_eq ho Hh) as [_ Hr].
  revert buf j st. induction fuel as [|fuel IH]; intros buf j st Hj Hbuf Hc Hfuel; cbn [fill_hash_loop].
  { pose proof (Z.div_pos (cap - j) 1024). lia. }
  destruct (decide (1024 * ss ≤ (cap - j) * ss)) as [Hle|Hle].
  - assert (Hmore : 1024 ≤ cap - j) by nia.
    destruct (read_window fd j 1024 buf o Ho) as (buf' & Hread & Hw & Hl); [lia..|].
    erewrite bind_Ok; [|unfold on_os, zoom; cbn [fst snd]; by rewrite Hread].
    destruct (hash_copy_run buf' j 1024 st Hw) as (st1 & Hcopy & Hc1 & Hi1 & Hr1); [lia..|done|].
    erewrite bind_Ok; [|unfold on_table, zoom; cbn [fst snd]; by rewrite Hcopy].
    cbn [fst snd]. replace ((cap - j) * ss - 1024 * ss) with ((cap - (j + 1024)) * ss) by lia.
    destruct (IH buf' (j + 1024) st1) as (st' & Hl' & Hc' & Hi' & Hr'); [lia|lia|done| |].
    { replace (cap - (j + 1024)) with (cap - j + (-1) * 1024) by lia. rewrite Z.div_add by lia. lia. }
    exists st'. split; [done|]. split; [done|]. split; congruence.
  - destruct (read_window fd j (cap - j) buf o Ho) as (buf' & Hread & Hw & Hl); [lia|lia|lia|lia|].
    replace (j + (cap - j)) with cap in Hread by lia.
    erewrite bind_Ok; [|unfold on_os, zoom; cbn [fst snd]; by rewrite Hread].
    destruct (hash_copy_run buf' j (cap - j) st Hw) as (st1 & Hcopy & Hc1 & Hi1 & Hr1); [nia|lia|lia|done|].
    replace (j + (cap - j)) with cap in Hc1 by lia. exists st1. split; [|done].
    unfold on_table, zoom. cbn [fst snd]. by rewrite Hcopy.
Qed.

Lemma fill_hash_spec name o st :
  has_file o name content → os_inodes o !! ino = Some content → os_names o !! name = Some ino →
  copied 0 st →
  ∃ st', fill_hash name ho (o, st) = (Ok tt, (opened o, st')) ∧ copied cap st' ∧
    t_iter st' = t_iter st ∧ t_ra_iter st' = t_ra_iter st.
Proof.
  intros Hf Hino Hname Hc. pose proof Hold as (Hh & _). pose proof Hh as (Hcap & Hcap2 & _).
  destruct (slot_size_eq ho Hh) as [_ Hr].
  destruct (sys_open_run _ _ _ Hf) as (ino' & Hn & Hro & Hfresh & Hopen).
  assert (ino' = ino) as -> by congruence. set (fd := os_next_fd o) in *.
  unfold fill_hash. erewrite bind_Ok; [|unfold on_os, zoom; cbn [fst snd]; by rewrite Hopen].
  cbn [fst snd]. pose proof Hro as [Hci Hs].
  assert (Hfdo : fd_open (at_off fd ino 0 (opened o)) fd ino 0) by (by eapply at_off_open).
  erewrite bind_Ok; [|unfold on_os, zoom; cbn [fst snd];
    by rewrite (sys_lseek_set_run _ _ _ (hh_header_size ho) _ Hfdo)].
  cbn [fst snd]. rewrite at_off_at_off.
  assert (Hs1 : os_sched (at_off fd ino (hh_header_size ho) (opened o)) = []) by done.
  erewrite bind_Ok; [|unfold on_os, zoom; cbn [fst snd]; by rewrite (sys_malloc_run _ Hs1)].
  cbn [fst snd negb].
  assert (Hsz : u64 (s32 (ss * 1024)) = 1024 * ss).
  { rewrite s32_id, u64_id by lia. lia. }
  rewrite Hsz. rewrite (u64_id (cap * ss)) by nia. unfold close_checked.
  destruct (fill_hash_loop_spec (S (Z.to_nat (cap * ss / (1024 * ss)))) fd
    (replicate (Z.to_nat (1024 * ss)) 0) 0 st (opened o) Hro) as (st' & Hrun & Hc' & Hi & Hra).
  { lia. } { rewrite length_replicate. lia. } { done. }
  { rewrite Z.sub_0_r, Z.div_mul_cancel_r by lia. pose proof (Z.div_pos cap 1024). lia. }
  rewrite Z.sub_0_r, Z.mul_0_l, Z.add_0_r in Hrun. rewrite Hrun.
  exists st'. split; [|done]. unfold sys_close, at_off. cbn [fst snd set_fds os_fds].
  rewrite lookup_insert_eq. cbn. f_equal. f_equal. unfold set_fds, opened. cbn.
  by rewrite delete_insert_id.
Qed.

End Copy.

(** ** The table of an index of a prefix of the log *)

Lemma index_map_app es1 es2 n :
  (n ≤ length es1)%nat → index_map (es := es1 ++ es2) n = index_map (es := es1) n.
Proof.
  induction n as [|n IH]; intros Hn; [done|]. cbn [index_map]. by rewrite lookup_app_l, IH by lia.
Qed.

Lemma old_table_prefix {C : Codec} {log1 log es1 es2 es} {L1 : LogCursor log1 es1}
    {L : LogCursor log es} h tbl :
  es = es1 ++ es2 →
  (∀ n, (n < length es1)%nat → cur_block (LogCursor := L1) n = cur_block (LogCursor := L) n ∧
                               cur_index (LogCursor := L1) n = cur_index (LogCursor := L) n) →
  table_indexes (L := L1) h tbl → old_table (L := L) h tbl (length es1).
Proof.
  intros -> Hcur (Hh & Ha & Ht & _ & _ & H1 & H2 & H3).
  assert (Haddr : ∀ n, (n < length es1)%nat → addr_of (L := L1) h n = addr_of (L := L) h n).
  { intros n Hn. unfold addr_of. by destruct (Hcur n Hn) as [-> ->]. }
  assert (Hmap : ∀ k a, address_map (L := L1) h (length es1) !! k = Some a ↔
    ∃ n, index_map (es := es1 ++ es2) (length es1) !! k = Some n ∧ a = addr_of (L := L) h n).
  { intros k a. rewrite address_map_index, lookup_fmap, fmap_Some, index_map_app by lia.
    split; intros (n & Hn & ->); exists n; (split; [done|]);
      destruct (index_map_entry (es := es1) _ _ _ Hn) as [Hlt _]; [|symmetry]; by apply Haddr. }
  unfold old_table. split_and!; try done.
  - rewrite length_app. lia.
  - intros s Hs Ho. destruct (H1 s Hs Ho) as (k & _ & Hk & Hm). apply Hmap in Hm as (n & Hn & Hsl).
    exists k, n. split; [done|]. rewrite <- Hk, <- Hsl. by destruct (slots h tbl s).
  - intros k n Hn. destruct (H2 k (addr_of (L := L) h n)) as (s & Hs & Ho & Hsl & _).
    { apply Hmap. by exists n. } by exists s.
  - intros n e Hn He. rewrite lookup_app_l in He by done. destruct (Hcur n Hn) as [<- <-].
    rewrite <- (Haddr n Hn). by destruct (addr_split (L := L1) h Hh Ha n e He) as (? & ? & _).
Qed.

(** ** The whole function over an older index of the log *)

Section Update.
Context {C : Codec} {log : sparkey_logreader} {es : list entry} {L : LogCursor log es}.

(** The counters of the old index are those of the first [n0] entries. *)
Definition old_header (lh : sparkey_logheader) (ho : sparkey_hashheader) (n0 : nat) : Prop :=
  hashheader_typed ho ∧ hashheader_valid ho ∧
  hh_major_version ho = HASH_MAJOR_VERSION ∧ hh_minor_version ho = HASH_MINOR_VERSION ∧
  hh_file_identifier ho = lh_file_identifier lh ∧
  hh_num_puts ho = zlen (puts_of (take n0 es)) ∧
  hh_num_entries ho = Z.of_nat (size (replay (take n0 es))) ∧
  hh_garbage_size ho = u64 (zlen (log_body (take n0 es)) - live_size (replay (take n0 es))).

(** The size of the hashes stays as it is. *)
Definition keeps_size (ho : sparkey_hashheader) (hash_size : Z) : Prop :=
  hash_size = hh_hash_size ho ∨
  hash_size = 0 ∧ (hh_hash_size ho = 8 ∨ zlen (puts_of es) < 2 ^ 22).

Lemma plan_old name lh ho to n0 o :
  has_file o name (hashheader_bytes ho ++ to) → old_header lh ho n0 →
  plan_hash name lh o =
    (Ok (HashPlan (u64 (u64 (lh_num_puts lh - hh_num_puts ho) + hh_num_entries ho))
           (hh_data_end ho) (hh_hash_seed ho) (hh_garbage_size ho) (Some ho)), opened o).
Proof.
  intros Hf (Hty & Hval & Hmaj & Hmin & Hid & _).
  unfold plan_hash. erewrite bind_Ok; [|unfold attempt; by rewrite (load_index _ _ _ _ Hf)].
  cbn beta iota. by rewrite decide_True.
Qed.

Lemma replay_size h n :
  header_ok h → addresses_ok h → (n ≤ length es)%nat →
  size (replay (take n es)) = size (index_map (es := es) n).
Proof.
  intros Hh Ha Hn. rewrite <- (address_map_replay h n Hh Ha Hn), address_map_index.
  by rewrite !map_size_fmap.
Qed.

(** The number the capacity is computed from is the room the rest can take up. *)
Lemma plan_count lh ho n0 h :
  header_ok h → addresses_ok h → (n0 ≤ length es)%nat → old_header lh ho n0 →
  lh_num_puts lh = zlen (puts_of es) → zlen (puts_of es) < 2 ^ 56 →
  u64 (u64 (lh_num_puts lh - hh_num_puts ho) + hh_num_entries ho) = room_for (es := es) h n0 ∧
  0 ≤ room_for (es := es) h n0 ≤ zlen (puts_of es).
Proof.
  intros Hh Ha Hn (_ & _ & _ & _ & _ & Hnp & Hne & _) Hlh Hlt.
  pose proof (address_map_size h n0 Hn) as Hsz. rewrite address_map_index, map_size_fmap in Hsz.
  rewrite Hlh, Hnp, Hne, (replay_size h n0 Hh Ha Hn). unfold room_for.
  rewrite address_map_index, map_size_fmap.
  assert (length (puts_of es) = length (puts_of (take n0 es)) + length (puts_of (drop n0 es)))%nat as Hl.
  { rewrite <- (take_drop n0 es) at 1. by rewrite puts_of_app, length_app. }
  split; [|lia]. rewrite (u64_id (zlen _ - _)) by lia. rewrite u64_id by lia. lia.
Qed.

Lemma choose_same plan ho capacity hash_size :
  p_old plan = Some ho → valid_size (hh_hash_size ho) → keeps_size ho hash_size →
  capacity ≤ 2 * zlen (puts_of es) + 1 →
  choose_hash_size plan capacity hash_size = Some (hh_hash_size ho).
Proof.
  intros Hold Hv Hk Hcap. unfold choose_hash_size, old_hash_size. rewrite Hold.
  destruct Hk as [-> |[-> Hs]].
  - destruct Hv as [Hv|Hv]; rewrite Hv; cbn; by rewrite ?decide_True by auto.
  - rewrite decide_True by done. f_equal. destruct Hv as [Hv|Hv].
    + rewrite decide_False; [done|]. rewrite Hv in *. lia.
    + rewrite decide_True; [done|by left].
Qed.

Lemma loop_inv_copied ho to n0 h0 st :
  old_table (L := L) ho to n0 → copied (L := L) ho to n0 h0 (hh_hash_capacity ho) st →
  garbage_inv (es := es) h0 n0 → loop_inv n0 st ∧ ∃ c, t_header st = set_hh_counts (hh_garbage_size h0) c h0.
Proof.
  intros Hold Hc Hg. destruct (copied_end ho to n0 Hold h0 st Hc) as (Hinv & c & Heq).
  split; [|by exists c]. split; [done|]. by rewrite Heq.
Qed.

(** The plan over an older index, and the header it leads to. *)
Definition update_plan (lh : sparkey_logheader) (ho : sparkey_hashheader) : hash_plan :=
  HashPlan (u64 (u64 (lh_num_puts lh - hh_num_puts ho) + hh_num_entries ho))
    (hh_data_end ho) (hh_hash_seed ho) (hh_garbage_size ho) (Some ho).

Lemma update_header lh ho n0 hash_size o :
  indexable lh → old_header lh ho n0 → header_ok ho → (n0 ≤ length es)%nat → keeps_size ho hash_size →
  ∃ h, new_header (update_plan lh ho) lh hash_size o = (Ok h, o) ∧ header_ok h ∧ addresses_ok h ∧
    room_for (es := es) h n0 ≤ hh_hash_capacity h ∧ hh_hash_size h = hh_hash_size ho ∧
    hh_hash_seed h = hh_hash_seed ho ∧ hh_num_entries h = 0 ∧ hh_garbage_size h = hh_garbage_size ho ∧ header_for lh h.
Proof.
  intros Hidx Hoh Hho Hn0 Hkeep. pose proof Hidx as (_ & _ & _ & Hlnp & Hlnp2 & _). pose proof Hho as (_ & _ & _ & Hvs & _).
  pose proof Hoh as (Hty & _).
  assert (Hcount : ∀ h, header_ok h → addresses_ok h → p_count (update_plan lh ho) = room_for (es := es) h n0 ∧
    0 ≤ room_for (es := es) h n0 ≤ zlen (puts_of es)).
  { intros h Hh Ha. by apply (plan_count lh ho n0 h); [..|lia]. }
  assert (Hrange : 0 ≤ p_count (update_plan lh ho) ≤ zlen (puts_of es)).
  { destruct (new_header_spec (HashPlan 0 0 0 0 None) lh 0 o Hidx ltac:(done) ltac:(by left)) as (h & _ & Hh & Ha & _).
    destruct (Hcount h Hh Ha) as [-> ?]. done. }
  assert (Hsz : hash_size = 0 ∨ valid_size hash_size).
  { destruct Hkeep as [-> |[-> _]]; [by right|by left]. }
  destruct (new_header_spec (update_plan lh ho) lh hash_size o Hidx ltac:(lia) Hsz)
    as (h & Hnew & Hh & Ha & Hcap & Hsd & Hch & Hdeh & Hmk & Hmv & Hnput & Hneh & Hgs & _).
  rewrite (choose_same (update_plan lh ho) ho (hh_hash_capacity h) _ eq_refl Hvs Hkeep ltac:(lia)) in Hch. injection Hch as Hhs.
  destruct (Hcount h Hh Ha) as [Hpc _]. rewrite Hpc in Hcap. unfold hashheader_typed in Hty.
  exists h. unfold header_for. rewrite Hsd. cbn [p_hash_seed update_plan]. split_and!; try done; try tauto; lia.
Qed.

(** The entries since the old index are added to a copy of its table. *)
Lemma planned_update fuel name hash_size lh ho to n0 i o :
  has_file o name (hashheader_bytes ho ++ to) → os_wf o → cur_before 0 i → cur_ready i →
  old_header lh ho n0 → old_table (L := L) ho to n0 → keeps_size ho hash_size → hh_data_end ho ≠ lh_data_end lh →
  (∀ i, cur_ready i → ∃ i', sparkey_logiter_seek log (hh_data_end ho) i = (Ok tt, i') ∧ cur_before n0 i') →
  indexable lh → keys_short (es := es) → (length es < fuel)%nat →
  ∃ o', hash_write_planned fuel name lh log i i (update_plan lh ho) hash_size o = (Ok tt, o') ∧ indexed lh name (opened o) o'.
Proof.
  intros Hf Hwf Hb Hr Hoh Hold Hkeep Hde Hseek Hidx Hshort Hfuel.
  pose proof Hold as (Hho & _ & Hn0 & _). pose proof Hidx as (_ & _ & Hlde & _).
  pose proof Hoh as (Hty & _ & _ & _ & _ & _ & _ & Hgo).
  destruct (update_header lh ho n0 hash_size o Hidx Hoh Hho Hn0 Hkeep)
    as (h & Hnew & Hh & Ha & Hcap & Hhs & Hsd & Hneh & Hgs & Hfor).
  set (st := HState (replicate (Z.to_nat (u64 (slot_size h * hh_hash_capacity h))) 0) h i i).
  assert (Hc0 : copied (L := L) ho to n0 h 0 st) by (apply copied_start; [by apply empty_table_inv|done]).
  assert (Hlen : 0 ≤ hh_header_size ho ≤ zlen (hashheader_bytes ho ++ to) ∧
    drop (Z.to_nat (hh_header_size ho)) (hashheader_bytes ho ++ to) = to).
  { assert (hh_header_size ho = zlen (hashheader_bytes ho)) as -> by (unfold hashheader_typed in Hty; tauto).
    rewrite length_app, Nat2Z.id. split; [lia|apply drop_app_length]. }
  assert (Hroom : Z.of_nat (size (index_map (es := es) n0)) ≤ hh_hash_capacity h).
  { unfold room_for in Hcap. rewrite address_map_index, map_size_fmap in Hcap. lia. }
  pose proof Hf as (ino & Hn & Hi & Hs & _).
  destruct (fill_hash_spec ho to n0 Hold h Hsd Hhs Hroom _ ino (proj2 Hlen) (proj1 Hlen) name o st)
    as (st1 & Hfill & Hc & Hi1 & Hra); try done.
  destruct (loop_inv_copied ho to n0 h st1 Hold Hc) as (Hinv & c & Hhd).
  { unfold garbage_inv. rewrite Hgs. exact Hgo. }
  destruct (Hseek (t_iter st1)) as (i2 & Hsk & Hb2); [by rewrite Hi1|].
  set (st2 := HState (t_table st1) (t_header st1) i2 (t_ra_iter st1)).
  destruct (fill_and_write_spec fuel n0 name lh st
    (_ ← fill_hash name ho; on_table (on_iter (sparkey_logiter_seek log (hh_data_end ho)))) st2 o (opened o))
    as (o4 & Hrun & Hix); try done.
  { rewrite (bind_Ok _ _ _ _ _ Hfill). unfold on_table, on_iter, zoom. cbn [fst snd]. by rewrite Hsk. }
  { cbn [t_ra_iter st2]. by rewrite Hra. }
  { by apply opened_wf. }
  { cbn [t_header st2]. rewrite Hhd. unfold room_for in *. by rewrite address_map_counts. }
  { cbn [t_header st2]. by rewrite Hhd. }
  exists o4. split; [|done]. unfold hash_write_planned. rewrite (bind_Ok _ _ _ _ _ Hnew).
  rewrite (bind_Ok _ _ _ _ _ (sys_malloc_run o Hs)). cbn [negb].
  unfold copied_header. cbn [p_old update_plan mbind option_bind]. rewrite decide_True by done.
  by rewrite Hlde, decide_False by done.
Qed.

Lemma hash_write_update fuel name log_name hash_size lh ho to n0 o o1 o2 :
  sparkey_load_logheader log_name o = (Ok lh, o1) →
  sparkey_logreader_open log_name o1 = (Ok log, o2) → os_wf o2 →
  r_open_status log = MAGIC_VALUE_LOGREADER → is_Some (os_fds o2 !! r_fd log) →
  has_file o2 name (hashheader_bytes ho ++ to) → old_header lh ho n0 →
  old_table (L := L) ho to n0 → keeps_size ho hash_size →
  hh_data_end ho ≠ lh_data_end lh →
  (∀ i, cur_ready i → ∃ i', sparkey_logiter_seek log (hh_data_end ho) i = (Ok tt, i') ∧ cur_before n0 i') →
  indexable lh → keys_short (es := es) → (length es < fuel)%nat →
  ∃ o4, sparkey_hash_write fuel name log_name hash_size o =
      (Ok tt, set_fds (delete (r_fd log) (os_fds o4)) o4) ∧ indexed lh name (opened (opened o2)) o4.
Proof.
  intros Hload Hopen Hwf2 Hst Hfd Hf Hoh Hold Hkeep Hde Hseek Hidx Hshort Hfuel.
  assert (Hs2 : os_sched o2 = []) by (destruct Hf as (? & _ & _ & ? & _); done).
  destruct (cur_create o2 Hs2) as (i1 & Hc1 & Hb1 & Hr1).
  destruct (planned_update fuel name hash_size lh ho to n0 i1 (opened o2)) as (o4 & Hrun & Hix); try done;
    [by apply opened_file|by apply opened_wf|].
  exists o4. split; [|done].
  unfold sparkey_hash_write. rewrite (bind_Ok _ _ _ _ _ Hload), (bind_Ok _ _ _ _ _ Hopen).
  unfold finally. rewrite (bind_Ok _ _ _ _ _ Hc1), (bind_Ok _ _ _ _ _ Hc1).
  rewrite (bind_Ok _ _ _ _ _ (plan_old name lh ho to n0 o2 Hf Hoh)). fold (update_plan lh ho). rewrite Hrun.
  destruct Hix as (_ & _ & Hfds4 & _). by rewrite close_reader_run by (rewrite ?Hfds4; done).
Qed.

(** An index of the whole log is left as it is. *)
Lemma hash_write_current fuel name log_name hash_size lh ho to o o1 o2 :
  sparkey_load_logheader log_name o = (Ok lh, o1) →
  sparkey_logreader_open log_name o1 = (Ok log, o2) →
  r_open_status log = MAGIC_VALUE_LOGREADER → is_Some (os_fds o2 !! r_fd log) →
  has_file o2 name (hashheader_bytes ho ++ to) → old_header lh ho (length es) →
  header_ok ho → keeps_size ho hash_size → hh_data_end ho = lh_data_end lh → indexable lh →
  sparkey_hash_write fuel name log_name hash_size o =
    (Ok tt, set_fds (delete (r_fd log) (os_fds o2)) (opened o2)).
Proof.
  intros Hload Hopen Hst Hfd Hf Hoh Hho Hkeep Hde Hidx.
  assert (Hs2 : os_sched o2 = []) by (destruct Hf as (? & _ & _ & ? & _); done).
  destruct (cur_create o2 Hs2) as (i1 & Hc1 & Hb1 & Hr1). pose proof Hidx as (_ & _ & Hlde & _).
  destruct (update_header lh ho _ hash_size (opened o2) Hidx Hoh Hho (le_n _) Hkeep) as (h & Hnew & _ & _ & _ & Hhs & _).
  unfold sparkey_hash_write. rewrite (bind_Ok _ _ _ _ _ Hload), (bind_Ok _ _ _ _ _ Hopen).
  unfold finally. rewrite (bind_Ok _ _ _ _ _ Hc1), (bind_Ok _ _ _ _ _ Hc1).
  rewrite (bind_Ok _ _ _ _ _ (plan_old name lh ho to _ o2 Hf Hoh)). fold (update_plan lh ho).
  unfold hash_write_planned. rewrite (bind_Ok _ _ _ _ _ Hnew).
  rewrite (bind_Ok _ _ _ _ _ (sys_malloc_run (opened o2) Hs2)). cbn [negb].
  unfold copied_header. cbn [p_old update_plan mbind option_bind]. rewrite decide_True by done.
  rewrite Hlde, decide_True by done. unfold mret, M_ret. by rewrite close_reader_run.
Qed.

End Update.
