(* ===== verification/Faults.v ===== *)
(** * Failing calls

    What may go wrong in a function of the library when calls of the environment
    fail or are short: it stops early, with an error and the files as they were, or
    it goes on as if nothing had failed.  The rules follow the monad, so the functions that
    read logs and indexes follow by automation. *)

From stdpp Require Import base gmap list strings numbers.
From Stdlib Require Import ZArith Lia.
From S2P Require Import Prelude ReturnCodes Endian OS LogHeader HashHeader Buf Compress LogWriter Cooperation.
From S2P Require Import LogReader HashTable HashWriter.

Local Open Scope Z_scope.

(** ** States with an environment *)

Class Env (S : Type) : Type := {
  resched : list OS.outcome → S → S;
  files : S → gmap string nat * gmap nat (list Z);
  sane : S → Prop;
  resched_resched s1 s2 x : resched s1 (resched s2 x) = resched s1 x;
  files_resched sch x : files (resched sch x) = files x;
  sane_resched sch x : sane x → sane (resched sch x)
}.

#[export, refine] Instance env_os : Env os := {
  resched := set_sched;
  files := λ o, (os_names o, os_inodes o);
  sane := λ o, os_wf o ∧ bytes_ok (os_entropy o) ∧ os_fds o !! (-1) = None
}.
Proof. all: done. Defined.

#[export, refine] Instance env_with {T} : Env (os * T) := {
  resched := λ sch s, (set_sched sch s.1, s.2);
  files := λ s, files s.1;
  sane := λ s, sane s.1
}.
Proof. all: done. Defined.

(** ** Computations that stop or go on *)

Create HintDb survives discriminated.

Section Survives.
Context (K : OS.outcome → Prop).

Section Rules.
Context {S : Type} `{!Env S}.

(** An early end: an error, or a result that its caller takes for one. *)
Definition stopped {A} (bad : A → Prop) (s : S) (x : res returncode A * S) : Prop :=
  files x.2 = files s ∧ sane x.2 ∧ match x.1 with Ok a => bad a | Err _ => True | _ => False end.

(** Compared with the run in which every call succeeds. *)
Definition survives {A} (bad : A → Prop) (m : MC S A) : Prop :=
  ∀ s sch, sane s → Forall K sch →
  let '(r, s1) := m (resched [] s) in
  match r with
  | Ok a => resched [] s1 = s1 ∧ files s1 = files s ∧ sane s1 ∧
      (stopped bad s (m (resched sch s)) ∨
       ∃ sch', Forall K sch' ∧ m (resched sch s) = (Ok a, resched sch' s1))
  | Err _ => stopped bad s (m (resched sch s))
  | _ => True
  end.

Definition never {A} (a : A) : Prop := False.

Definition stops {A} (bad : A → Prop) (m : MC S A) : Prop := ∀ s, sane s → stopped bad s (m s).

Lemma stops_fail {A} (bad : A → Prop) e : stops bad (fail e).
Proof. by intros s Hs. Qed.

Lemma survives_fail {A} (bad : A → Prop) e : survives bad (fail e).
Proof.
  intros s sch Hs HK. cbn. split_and!; [apply files_resched|by apply sane_resched|done].
Qed.

Lemma survives_undefined {A} (bad : A → Prop) : survives bad undefined.
Proof. by intros s sch Hs HK. Qed.

Lemma survives_out_of_fuel {A} (bad : A → Prop) : survives bad out_of_fuel.
Proof. by intros s sch Hs HK. Qed.

Lemma survives_ret {A} (bad : A → Prop) a : survives bad (mret a).
Proof.
  intros s sch Hs HK. cbn. rewrite resched_resched, files_resched.
  split_and!; [done|done|by apply sane_resched|]. right. exists sch. by rewrite resched_resched.
Qed.

Lemma survives_of_opt {A} (bad : A → Prop) x : survives bad (of_opt x).
Proof. destruct x; [apply survives_ret|apply survives_undefined]. Qed.

Lemma stopped_bind {A B} (bad : A → Prop) (bad' : B → Prop) (m : MC S A) (k : A → MC S B) s s' :
  stopped bad s (m s') → (∀ a, bad a → stops bad' (k a)) → stopped bad' s ((m ≫= k) s').
Proof.
  intros Hm Hk. unfold mbind, M_bind, stopped in *. destruct (m s') as [[a|e| |] s1]; cbn in *; try tauto.
  destruct Hm as (Hf & Hs & Ha). destruct (Hk a Ha s1 Hs) as (Hf2 & Hs2 & Hr). by rewrite Hf2.
Qed.

Lemma survives_bind {A B} (bad : A → Prop) (bad' : B → Prop) (m : MC S A) (k : A → MC S B) :
  survives bad m → (∀ a, bad a → stops bad' (k a)) → (∀ a, survives bad' (k a)) → survives bad' (m ≫= k).
Proof.
  intros Hm Hstop Hk s sch Hs HK. specialize (Hm s sch Hs HK). unfold mbind at 1, M_bind at 1.
  destruct (m (resched [] s)) as [[a|e| |] s1]; [|by eapply stopped_bind|done|done].
  destruct Hm as (Hsame & Hfs & Hs1 & Hm). pose proof (Hk a s1) as Hka.
  rewrite Hsame in Hka. destruct Hm as [Hm|(sch' & HK' & Hm)].
  - assert (Hb : stopped bad' s ((m ≫= k) (resched sch s))) by by eapply stopped_bind.
    specialize (Hka sch Hs1 HK). destruct (k a s1) as [[b|e| |] s2]; try done.
    destruct Hka as (? & Hf2 & ? & _). rewrite Hf2. split_and!; try done. by left.
  - specialize (Hka sch' Hs1 HK'). rewrite (bind_Ok _ _ _ _ _ Hm). unfold stopped in *. rewrite Hfs in Hka.
    exact Hka.
Qed.

Lemma survives_bind_never {A B} (bad : B → Prop) (m : MC S A) (k : A → MC S B) :
  survives never m → (∀ a, survives bad (k a)) → survives bad (m ≫= k).
Proof. intros Hm Hk. by apply (survives_bind never). Qed.

(** What only looks at the state and never at the environment. *)
Lemma survives_quiet {A} (bad : A → Prop) (m : MC S A) :
  (∀ s sch, m (resched sch s) = ((m s).1, resched sch (m s).2)) →
  (∀ s, sane s → files (m s).2 = files s ∧ sane (m s).2) → survives bad m.
Proof.
  intros Hm Hs s sch Hsn HK. rewrite (Hm s []). destruct (Hs s Hsn) as [Hf Hsn'].
  assert (Hfs : files (resched [] (m s).2) = files s) by by rewrite files_resched.
  assert (Hss : sane (resched [] (m s).2)) by by apply sane_resched.
  rewrite (Hm s sch). destruct (m s) as [[a|e| |] s1]; cbn in *; [|unfold stopped; cbn|done|done].
  - rewrite resched_resched. split_and!; try done. right. exists sch. by rewrite resched_resched.
  - rewrite files_resched. split_and!; [done|by apply sane_resched|done].
Qed.

End Rules.

(** ** The environment under further state *)

Lemma survives_on_os {T A} (bad : A → Prop) (m : MC os A) :
  survives bad m → survives bad (on_os m : MC (os * T) A).
Proof.
  intros Hm [o t] sch Hs HK. specialize (Hm o sch Hs HK). unfold on_os, zoom. cbn [fst snd].
  change (resched [] (o, t)).1 with (resched [] o). change (resched sch (o, t)).1 with (resched sch o).
  destruct (m (resched [] o)) as [[a|e| |] o1]; try done.
  - destruct Hm as (Hsame & Hf & Hs1 & Hm). split_and!; [|done|done|].
    + exact (f_equal (λ o, (o, t)) Hsame).
    + destruct Hm as [Hm|(sch' & HK' & Hm)]; [left|right; exists sch'].
      * unfold stopped in *. by destruct (m (resched sch o)).
      * by rewrite Hm.
  - unfold stopped in *. by destruct (m (resched sch o)).
Qed.

(** ** The calls *)

Lemma moved_sane fd ino off off' o :
  os_fds o !! fd = Some (ino, off) → sane o → sane (set_fds (<[fd := (ino, off')]> (os_fds o)) o).
Proof.
  intros Hfd ((Hn & Hi & Hf & H0) & Hb & Hneg). split; [|split; [done|]].
  - split_and!; try done. intros fd' Hsome. apply Hf. cbn in *.
    destruct (decide (fd' = fd)) as [->|Hne]; [by eexists|by rewrite lookup_insert_ne in Hsome].
  - cbn. rewrite lookup_insert_ne; [done|]. intros ->. by rewrite Hfd in Hneg.
Qed.

Lemma new_fd_sane ino o : sane o → sane (new_fd ino o).2.
Proof.
  intros ((Hn & Hi & Hf & H0) & Hb & Hneg). split; [|split; [done|]].
  - split_and!; try done; [|cbn; lia]. intros fd [x Hx]. cbn in *.
    apply lookup_insert_Some in Hx as [[<- _]|[_ Hx]]; [lia|]. assert (fd < os_next_fd o) by (apply Hf; by eexists). lia.
  - cbn. rewrite lookup_insert_ne by lia. done.
Qed.

Lemma closed_sane fd o : sane o → sane (set_fds (delete fd (os_fds o)) o).
Proof.
  intros (Hwf & Hb & Hneg). split; [by apply closed_wf|]. split; [done|]. cbn. rewrite lookup_delete_None. by right.
Qed.

Definition is_inl {A B} (x : A + B) : Prop := match x with inl _ => True | inr _ => False end.

(** A call that asks for one decision, or for none. *)
Lemma survives_pop {A} (bad : A → Prop) (m : MC os A) (f : OS.outcome → MC os A) :
  (∀ o, (∀ sch, m (set_sched sch o) = f (pop (set_sched sch o)).1 (pop (set_sched sch o)).2) ∨
        ∀ sch, m (set_sched sch o) = f Normal (set_sched sch o)) →
  (∀ o sch, f Normal (set_sched sch o) = ((f Normal o).1, set_sched sch (f Normal o).2)) →
  (∀ o, sane o → files (f Normal o).2 = files o ∧ sane (f Normal o).2 ∧ ∃ a, (f Normal o).1 = Ok a) →
  (∀ o x, sane o → K x → f x o = f Normal o ∨ stopped bad o (f x o)) → survives bad m.
Proof.
  intros Hm Hf Hn Hx o sch Hs HK. destruct (Hn o Hs) as (Hfs & Hs1 & a & Ha).
  assert (Hideal : m (resched [] o) = (Ok a, set_sched [] (f Normal o).2)).
  { rewrite <- Ha, <- Hf. by destruct (Hm o) as [Hi|Hi]; rewrite Hi. }
  rewrite Hideal. split; [done|]. split; [done|]. split; [done|]. cbn [resched env_os].
  destruct (Hm o) as [Hp|Hp]; rewrite Hp; [|right; exists sch; by rewrite Hf, Ha].
  destruct sch as [|x sch]; cbn [pop os_sched set_sched fst snd].
  - right. exists []. by rewrite Hf, Ha.
  - change (set_sched sch (set_sched (x :: sch) o)) with (set_sched sch o).
    apply Forall_cons_1 in HK as [HKx HK].
    destruct (Hx (set_sched sch o) x Hs HKx) as [->|Hst]; [right|by left].
    exists sch. by rewrite Hf, Ha.
Qed.

Lemma survives_malloc : survives (λ ok, ok = false) sys_malloc.
Proof.
  apply (survives_pop _ _ (λ x o, match x with Fails _ => (Ok false, o) | _ => (Ok true, o) end)).
  - intros o. left. intros sch. unfold sys_malloc. by destruct (pop _) as [[] ?].
  - done.
  - intros o Hs. split; [done|]. split; [done|by eexists].
  - intros o [|e|m] Hs _; [by left|by right|by left].
Qed.

Lemma survives_open name : survives is_inl (sys_open name).
Proof.
  apply (survives_pop _ _ (λ x o, match x with Fails e => (Ok (inl e), o) | _ =>
    match os_names o !! name with
    | None => (Ok (inl ENOENT), o)
    | Some ino => let '(fd, o) := new_fd ino o in (Ok (inr fd), o)
    end end)).
  - intros o. left. intros sch. unfold sys_open. by destruct (pop _) as [[] ?].
  - intros o sch. cbn. by destruct (os_names o !! name).
  - intros o Hs. cbn. destruct (os_names o !! name) as [ino|]; (split; [done|]); (split; [|by eexists]); [|done].
    by apply (new_fd_sane ino).
  - intros o [|e|m] Hs _; [by left|by right|by left].
Qed.

Lemma survives_mmap fd len : survives (λ m, m = None) (sys_mmap fd len).
Proof.
  apply (survives_pop _ _ (λ x o, match x with Fails e => (Ok None, o) | _ =>
      match os_fds o !! fd with
      | None => (Ok None, o)
      | Some (ino, _) => (Ok (Some (take (Z.to_nat len) (default [] (os_inodes o !! ino)))), o)
      end end)).
  - intros o. left. intros sch. unfold sys_mmap. by destruct (pop _) as [[] ?].
  - intros o sch. cbn. by destruct (os_fds o !! fd) as [[]|].
  - intros o Hs. cbn. destruct (os_fds o !! fd) as [[]|]; (split; [done|]); (split; [done|by eexists]).
  - intros o [|e|m] Hs _; [by left|by right|by left].
Qed.

Lemma survives_stat name : survives never (sys_stat_size name).
Proof. by apply survives_quiet. Qed.

Lemma survives_close fd : survives never (sys_close fd).
Proof.
  apply survives_quiet; unfold sys_close.
  - intros o sch. cbn. by destruct (os_fds o !! fd).
  - intros o Hs. destruct (os_fds o !! fd); [|done]. split; [done|]. by apply closed_sane.
Qed.

Lemma survives_lseek fd off : survives never (sys_lseek_set fd off).
Proof.
  apply survives_quiet; unfold sys_lseek_set.
  - intros o sch. cbn. by destruct (os_fds o !! fd) as [[]|].
  - intros o Hs. destruct (os_fds o !! fd) as [[]|] eqn:E; [|done]. split; [done|].
    by eapply moved_sane.
Qed.

(** A stream that has not all the bytes, or a read that is cut short, is at its end. *)
Lemma survives_fread n fp : survives (λ bs, bs = None) (fread n fp).
Proof.
  set (avail := λ (o : os) ino off, take (Z.to_nat n) (drop (Z.to_nat off) (default [] (os_inodes o !! ino)))).
  apply (survives_pop _ _ (λ x o, match os_fds o !! fp with
    | None => (Ok None, o)
    | Some (ino, off) =>
        let deliver bs := (Ok (if decide (zlen bs = n) then Some bs else None),
                           set_fds (<[fp := (ino, off + zlen bs)]> (os_fds o)) o) in
        match x with
        | Fails _ => (Ok None, o)
        | Short k => deliver (take (Z.to_nat k) (avail o ino off))
        | Normal => deliver (avail o ino off)
        end
    end)).
  - intros o. unfold fread, sys_read. destruct (os_fds o !! fp) as [[ino off]|] eqn:E; [left|right]; intros sch;
      unfold mbind, M_bind; cbn [os_fds set_sched]; rewrite E; [|done].
    destruct sch as [|[|e|k] sch]; cbn [pop os_sched set_sched fst snd os_fds]; 
      rewrite ?E; unfold avail; cbn [os_inodes set_sched]; try done; by case_decide.
  - intros o sch. cbn. by destruct (os_fds o !! fp) as [[]|].
  - intros o Hs. destruct (os_fds o !! fp) as [[ino off]|] eqn:E; (split; [done|]); (split; [|by eexists]); [|done].
    by eapply moved_sane.
  - intros o x Hs _. destruct (os_fds o !! fp) as [[ino off]|] eqn:E; [|by left].
    destruct x as [|e|k]; [by left|by right|]. cbn zeta.
    destruct (decide (zlen (take (Z.to_nat k) (avail o ino off)) = n)) as [El|El].
    + left. assert (length (avail o ino off) ≤ Z.to_nat n)%nat by (unfold avail; rewrite length_take; lia).
      assert (take (Z.to_nat k) (avail o ino off) = avail o ino off) as -> by (apply take_ge; rewrite length_take in El; lia).
      done.
    + right. split; [done|]. split; [by eapply moved_sane|]. cbn. by rewrite decide_False.
Qed.

Lemma pop_sane o : sane o → Forall K (os_sched o) →
  files (pop o).2 = files o ∧ sane (pop o).2 ∧ Forall K (os_sched (pop o).2) ∧ os_entropy (pop o).2 = os_entropy o.
Proof. intros Hs HK. unfold pop. destruct (os_sched o) eqn:E; cbn [fst snd]; [by rewrite E|by inversion HK]. Qed.

(** [rand32] reads four bytes or fails. *)
Lemma rand32_any o : sane o → Forall K (os_sched o) →
  let '(r, o') := rand32 o in
  files o' = files o ∧ sane o' ∧ Forall K (os_sched o') ∧
  match r with Ok v => 0 ≤ v < 2 ^ 32 | Err _ => True | _ => False end.
Proof.
  intros Hs HK. unfold rand32. destruct (pop_sane o Hs HK) as (Hf1 & Hs1 & HK1 & He1).
  destruct (pop o) as [x o1]. cbn [fst snd] in *.
  destruct (pop_sane o1 Hs1 HK1) as (Hf2 & Hs2 & HK2 & He2). destruct (pop o1) as [y o2]. cbn [fst snd] in *.
  rewrite Hf1 in Hf2. 
  assert (Hdeliver : ∀ bs, bytes_ok bs → (length bs ≤ 4)%nat → let '(r, o') :=
    (if decide (zlen bs < 4) then (Err SPARKEY_INTERNAL_ERROR : res returncode Z, set_entropy (drop (length bs) (os_entropy o2)) o2)
     else (Ok (le_value bs), set_entropy (drop (length bs) (os_entropy o2)) o2)) in
    files o' = files o ∧ sane o' ∧ Forall K (os_sched o') ∧
    match r with Ok v => 0 ≤ v < 2 ^ 32 | Err _ => True | _ => False end : Prop).
  { intros bs Hb Hl. assert (sane (set_entropy (drop (length bs) (os_entropy o2)) o2)).
    { split; [by apply entropy_wf, Hs2|]. split; [by apply bytes_ok_drop, Hs2|by apply Hs2]. }
    case_decide; [done|]. do 3 (split; [done|]). pose proof (le_value_bound _ Hb) as Hv.
    assert (length bs = 4%nat) as Hlen by lia. by rewrite Hlen in Hv. }
  assert (Hb4 : bytes_ok (take 4 (os_entropy o2))) by apply bytes_ok_take, Hs2.
  assert (H4 : (length (take 4 (os_entropy o2)) ≤ 4)%nat) by (rewrite length_take; lia).
  destruct x, y; try done; try (by apply Hdeliver); apply Hdeliver; try (by apply bytes_ok_take); rewrite length_take; lia.
Qed.

(** *** Cleaning up *)

Lemma close_resched fd sch o : sys_close fd (set_sched sch o) = ((sys_close fd o).1, set_sched sch (sys_close fd o).2).
Proof. unfold sys_close. cbn. by destruct (os_fds o !! fd). Qed.

Lemma close_sane fd o : sane o → files (sys_close fd o).2 = files o ∧ sane (sys_close fd o).2.
Proof.
  intros Hs. unfold sys_close. destruct (os_fds o !! fd); [|done]. split; [done|]. by apply closed_sane.
Qed.

Lemma survives_closing {A} (bad : A → Prop) fp (m : MC os A) : survives bad m → survives bad (closing fp m).
Proof.
  intros Hm o sch Hs HK. specialize (Hm o sch Hs HK).
  assert (Hcl : ∀ o1, closing fp m o1 = ((m o1).1, (sys_close fp (m o1).2).2)).
  { intros o1. unfold closing. destruct (m o1) as [r o2]; cbn [fst snd]. by destruct (sys_close fp o2). }
  rewrite !Hcl. destruct (m (resched [] o)) as [[a|e| |] o1]; cbn [fst snd]; try done.
  - destruct Hm as (Hsame & Hf & Hs1 & Hm). destruct (close_sane fp o1 Hs1) as [Hfc Hsc].
    rewrite Hfc. split; [|split; [done|split; [done|]]].
    { rewrite <- Hsame at 2. cbn [resched env_os]. by rewrite close_resched. }
    destruct Hm as [(Hf2 & Hs2 & Hr)|(sch' & HK' & Hm)]; [left|right].
    + destruct (close_sane fp _ Hs2) as [Hf3 Hs3]. split; [by etrans|by split].
    + exists sch'. rewrite Hm. cbn [fst snd resched env_os]. by rewrite close_resched.
  - destruct Hm as (Hf2 & Hs2 & Hr). destruct (close_sane fp _ Hs2) as [Hf3 Hs3]. split; [by etrans|by split].
Qed.

Lemma survives_close_on_error {A} (bad : A → Prop) fd (m : MC os A) : survives bad m → survives bad (close_on_error fd m).
Proof.
  intros Hm o sch Hs HK. specialize (Hm o sch Hs HK).
  assert (Hst : stopped bad o (m (resched sch o)) → stopped bad o (close_on_error fd m (resched sch o))).
  { unfold close_on_error. intros (Hf & Hs' & Hr). destruct (m (resched sch o)) as [[a|e| |] o1]; try done.
    cbn [fst snd] in *. case_decide; [|by split]. destruct (close_sane fd o1 Hs') as [Hf2 Hs2].
    split; [by etrans|by split]. }
  unfold close_on_error at 1. destruct (m (resched [] o)) as [[a|e| |] o1]; try done; [|by apply Hst].
  destruct Hm as (Hsame & Hf & Hs1 & Hm). split; [done|]. split; [done|]. split; [done|].
  destruct Hm as [Hm|(sch' & HK' & Hm)]; [left; by apply Hst|right].
  exists sch'. split; [done|]. unfold close_on_error. by rewrite Hm.
Qed.

(** ** The functions *)

Lemma survives_call {A B} {S} `{!Env S} (bad : A → Prop) (bad' : B → Prop) (m : MC S A) (k : A → MC S B) :
  survives bad m → (∀ a, bad a → ∃ e, k a = fail e) → (∀ a, survives bad' (k a)) → survives bad' (m ≫= k).
Proof.
  intros Hm Hstop Hk. eapply survives_bind; [done| |done]. intros a Ha. destruct (Hstop a Ha) as [e ->]. apply stops_fail.
Qed.

Ltac bad_result :=
  let a := fresh "a" in let Ha := fresh "Ha" in
  intros a Ha; cbv beta in Ha; (first [subst a|destruct a as [?|?]; [|done]]); eexists; reflexivity.

Ltac survive_step :=
  first
    [ apply survives_ret | apply survives_fail | apply survives_undefined | apply survives_out_of_fuel
    | apply survives_of_opt
    | solve [eauto 2 with survives]
    | apply survives_bind_never; [first [apply survives_of_opt|solve [eauto 2 with survives]]|intros ?]
    | eapply survives_call; [solve [eauto 2 with survives]|bad_result|intros ?]
    | match goal with
      | |- survives _ (if ?b then _ else _) => destruct b
      | |- survives _ (match ?x with _ => _ end) => destruct x
      | |- survives _ (closing _ _) => apply survives_closing
      | |- survives _ (close_on_error _ _) => apply survives_close_on_error
      end ].
Ltac survive := repeat (cbv beta zeta; survive_step).

Hint Resolve survives_malloc survives_open survives_mmap survives_stat survives_close survives_lseek survives_fread : survives.

Lemma survives_le32 fp : survives never (fread_little_endian32 fp).
Proof. unfold fread_little_endian32. survive. Qed.

Lemma survives_le64 fp : survives never (fread_little_endian64 fp).
Proof. unfold fread_little_endian64. survive. Qed.

Hint Resolve survives_le32 survives_le64 : survives.

Lemma survives_load_logheader filename : survives never (sparkey_load_logheader filename).
Proof. unfold sparkey_load_logheader, logheader_version0. survive. Qed.

Lemma survives_load_hashheader filename : survives never (sparkey_load_hashheader filename).
Proof. unfold sparkey_load_hashheader, hashheader_version0. survive. Qed.

Hint Resolve survives_load_logheader survives_load_hashheader : survives.

Lemma survives_logreader_open filename : survives never (sparkey_logreader_open filename).
Proof. unfold sparkey_logreader_open, sparkey_logreader_open_noalloc. survive. Qed.

Lemma survives_assert_log_open {S} `{!Env S} log : survives never (assert_log_open log : MC S unit).
Proof. unfold assert_log_open. survive. Qed.

Hint Resolve survives_logreader_open survives_assert_log_open : survives.

Section Codec.
Context {C : Codec}.

Lemma survives_iter_create log : survives never (sparkey_logiter_create log).
Proof. unfold sparkey_logiter_create. survive. Qed.

Lemma survives_new_header plan lh hash_size : survives never (new_header plan lh hash_size).
Proof. unfold new_header. survive. Qed.

(** *** The table *)

Lemma survives_on_table {A} (m : MH A) : survives never (on_table m).
Proof.
  apply survives_quiet; unfold on_table, zoom.
  - intros [o st] sch. cbn [fst snd resched env_with]. by destruct (m st).
  - intros [o st] Hs. cbn [fst snd]. by destruct (m st).
Qed.

(** A read that is not short gets what there is. *)
Definition whole_reads : Prop := ∀ x, K x → match x with Short _ => False | _ => True end.

Section Whole.
Context (HK0 : whole_reads).

Lemma survives_read fd count : survives is_inl (sys_read fd count).
Proof.
  set (avail := λ (o : os) ino off, take (Z.to_nat count) (drop (Z.to_nat off) (default [] (os_inodes o !! ino)))).
  apply (survives_pop _ _ (λ x o, match os_fds o !! fd with
    | None => (Ok (inl EBADF), o)
    | Some (ino, off) =>
        let deliver bs := (Ok (inr bs), set_fds (<[fd := (ino, off + zlen bs)]> (os_fds o)) o) in
        match x with
        | Fails e => (Ok (inl e), o)
        | Short k => deliver (take (Z.to_nat k) (avail o ino off))
        | Normal => deliver (avail o ino off)
        end
    end)).
  - intros o. unfold sys_read. destruct (os_fds o !! fd) as [[ino off]|] eqn:E; [left|right]; intros sch;
      cbn [os_fds set_sched]; rewrite E; [|done].
    by destruct sch as [|[|e|k] sch]; cbn [pop os_sched set_sched fst snd os_fds]; rewrite ?E.
  - intros o sch. cbn. by destruct (os_fds o !! fd) as [[]|].
  - intros o Hs. destruct (os_fds o !! fd) as [[ino off]|] eqn:E; (split; [done|]); (split; [|by eexists]); [|done].
    by eapply moved_sane.
  - intros o x Hs Hx. destruct (os_fds o !! fd) as [[ino off]|] eqn:E; [|by left].
    specialize (HK0 x Hx). destruct x as [|e|k]; [by left|by right|done].
Qed.

Definition read_once (fd : Z) (buf : list Z) (count : Z) : MC os (list Z * Z) :=
  r ← sys_read fd count;
  match r with
  | inl _ => fail SPARKEY_INTERNAL_ERROR
  | inr bs => buf ← of_opt (mem_write buf 0 bs); mret (buf, count - zlen bs)
  end.

Lemma survives_read_once fd buf count : survives never (read_once fd buf count).
Proof. pose proof (survives_read fd count). unfold read_once. survive. Qed.

Lemma read_fully_once n fd buf count o : 0 < count →
  read_fully (S n) fd buf count o = (p ← read_once fd buf count; read_fully n fd p.1 p.2) o.
Proof.
  intros Hc. cbn [read_fully]. rewrite decide_True by done. unfold read_once.
  unfold mbind, M_bind. destruct (sys_read fd count o) as [[[e|bs]|e| |] o1]; try done.
  unfold of_opt. by destruct (mem_write buf 0 bs).
Qed.

Lemma read_fully_done n fd buf count o : ¬ 0 < count → read_fully (S n) fd buf count o = (Ok buf, o).
Proof. intros Hc. cbn [read_fully]. by rewrite decide_False. Qed.

Lemma read_again fd buf count o : is_Some (os_fds o !! fd) → os_sched o = [] → 0 < count →
  ∃ o', read_fully 1 fd buf count o = (UB, o') ∨ read_fully 1 fd buf count o = (NoFuel, o').
Proof.
  intros [[ino off] Hfd] Hs Hc. cbn [read_fully]. rewrite decide_True by done.
  unfold mbind, M_bind, sys_read, pop. rewrite Hfd, Hs. unfold of_opt.
  destruct (mem_write _ _ _); eexists; [by right|by left].
Qed.

Lemma read_once_open fd buf count o x o' : read_once fd buf count o = (Ok x, o') → is_Some (os_fds o' !! fd).
Proof.
  unfold read_once, mbind, M_bind, sys_read. destruct (os_fds o !! fd) as [[ino off]|]; [|done].
  unfold of_opt, mret, M_ret.
  destruct (pop o) as [[|e|k] o1]; [destruct (mem_write _ _ _)|done|destruct (mem_write _ _ _)]; try done;
    intros [= _ <-]; cbn; rewrite lookup_insert_eq; by eexists.
Qed.

Lemma survives_read_all fd buf count : survives never (read_all fd buf count).
Proof.
  destruct (decide (0 < count)) as [Hc|Hc].
  2:{ intros o sch Hs HK. unfold read_all. rewrite !read_fully_done by done.
      apply (survives_ret never buf o sch Hs HK). }
  intros o sch Hs HK. pose proof (survives_read_once fd buf count o sch Hs HK) as Hm. unfold read_all.
  rewrite !(read_fully_once _ _ _ _ _ Hc). cbn [resched env_os os_sched set_sched length].
  destruct (read_once fd buf count (set_sched [] o)) as [[[buf1 c1]|e| |] o1] eqn:E; cbn [resched env_os] in Hm.
  - rewrite E in Hm. rewrite (bind_Ok _ _ _ _ _ E). cbn [fst snd].
    destruct Hm as (Hsame & Hf & Hs1 & Hm).
    destruct (decide (0 < c1)) as [Hc1|Hc1].
    { destruct (read_again fd buf1 c1 o1 (read_once_open _ _ _ _ _ _ E)) as (o2 & [Hr|Hr]);
        [by rewrite <- Hsame|done|by rewrite Hr..]. }
    rewrite read_fully_done by done. split; [done|]. split; [done|]. split; [done|].
    destruct Hm as [Hm|(sch' & HK' & Hm)]; [left; by eapply stopped_bind|right].
    exists sch'. split; [done|]. rewrite (bind_Ok _ _ _ _ _ Hm). by apply read_fully_done.
  - rewrite E in Hm. rewrite (bind_Err _ _ _ _ _ E). by eapply stopped_bind.
  - unfold mbind at 1, M_bind at 1. by rewrite E.
  - unfold mbind at 1, M_bind at 1. by rewrite E.
Qed.

End Whole.

Lemma survives_close_checked fd (m : MOH unit) : survives never m → survives never (close_checked fd m).
Proof.
  intros Hm s sch Hs HK. specialize (Hm s sch Hs HK).
  assert (Hst : stopped never s (m (resched sch s)) → stopped never s (close_checked fd m (resched sch s))).
  { unfold close_checked. destruct (m (resched sch s)) as [r s1]. intros (Hf & Hs1 & Hr). cbn [fst snd] in *.
    destruct (close_sane fd s1.1 Hs1) as [Hf2 Hs2]. destruct (sys_close fd s1.1) as [c o]. cbn [fst snd] in *.
    split; [etrans; [exact Hf2|exact Hf]|]. split; [exact Hs2|]. by destruct r. }
  unfold close_checked at 1. destruct (m (resched [] s)) as [[[]|e| |] s1] eqn:Em;
    [|by destruct (sys_close fd s1.1); apply Hst|by destruct (sys_close fd s1.1)..].
  destruct Hm as (Hsame & Hf & Hs1 & Hm). destruct (close_sane fd s1.1 Hs1) as [Hf2 Hs2].
  assert (Hgo : ∀ sch', m (resched sch s) = (Ok tt, resched sch' s1) →
    close_checked fd m (resched sch s) =
      (match (sys_close fd s1.1).1 with Ok (inl _) => Err SPARKEY_INTERNAL_ERROR | _ => Ok tt end,
       resched sch' ((sys_close fd s1.1).2, s1.2))).
  { intros sch' E. unfold close_checked. rewrite E. cbn [resched env_with fst snd env_os]. by rewrite close_resched. }
  assert (Hsame2 : resched [] ((sys_close fd s1.1).2, s1.2) = ((sys_close fd s1.1).2, s1.2)).
  { pose proof (f_equal fst Hsame) as Hs11. pose proof (close_resched fd [] s1.1) as Hc.
    cbn [resched env_with env_os fst snd] in *. rewrite Hs11 in Hc. apply (f_equal snd) in Hc. cbn [snd] in Hc.
    by rewrite <- Hc. }
  assert (Hfiles : files ((sys_close fd s1.1).2, s1.2) = files s) by (etrans; [exact Hf2|exact Hf]).
  assert (Hend : ∀ e, (sys_close fd s1.1).1 = Ok (inl e) → stopped never s (close_checked fd m (resched sch s))).
  { intros e He. destruct Hm as [Hm|(sch' & HK' & Hm)]; [by apply Hst|]. rewrite (Hgo _ Hm), He.
    split; [exact Hfiles|]. split; [exact Hs2|done]. }
  destruct (sys_close fd s1.1) as [c o] eqn:Ec. cbn [fst snd] in *.
  destruct c as [[e|[]]|e| |]; [by apply (Hend e)| | | |];
    (split; [done|]; split; [done|]; split; [done|]; destruct Hm as [Hm|(sch' & HK' & Hm)];
     [left; by apply Hst|right; exists sch'; by rewrite (Hgo _ Hm)]).
Qed.

Lemma survives_with_table st (m : MOH unit) : survives never m → survives never (with_table st m).
Proof.
  intros Hm o sch Hs HK. specialize (Hm (o, st) sch Hs HK). unfold with_table. cbn [resched env_with env_os fst snd] in *.
  assert (Hst : stopped never (o, st) (m (set_sched sch o, st)) → stopped never o (with_table st m (set_sched sch o))).
  { unfold with_table. by destruct (m (set_sched sch o, st)) as [[[]|e| |] [o1 st1]]. }
  unfold with_table in Hst. destruct (m (set_sched [] o, st)) as [[[]|e| |] [o1 st1]]; try done; [|by apply Hst].
  destruct Hm as (Hsame & Hf & Hs1 & Hm). split; [by apply (f_equal fst) in Hsame|]. split; [done|]. split; [done|].
  destruct Hm as [Hm|(sch' & HK' & Hm)]; [left; by apply Hst|right]. exists sch'. by rewrite Hm.
Qed.

Hint Resolve survives_on_os survives_on_table survives_iter_create survives_new_header : survives.

Lemma survives_fill_hash name ho : whole_reads → survives never (fill_hash name ho).
Proof.
  intros HK0. assert (Hloop : ∀ n fd buf size rem, survives never (fill_hash_loop n fd buf size rem ho)).
  { induction n as [|n IH]; intros fd buf size rem; cbn [fill_hash_loop]; [apply survives_out_of_fuel|].
    pose proof (λ buf count, survives_read_all HK0 fd buf count). survive. }
  unfold fill_hash. survive. by apply survives_close_checked.
Qed.

(** *** The plan *)

Lemma load_hashheader_sched name o : Forall K (os_sched o) → Forall K (os_sched (sparkey_load_hashheader name o).2).
Proof.
  set (P := λ o, Forall K (os_sched o)).
  assert (Hpop : ∀ o, P o → P (pop o).2).
  { intros o1 H1. unfold P, pop in *. destruct (os_sched o1) eqn:E; cbn; [by rewrite E|by inversion H1]. }
  assert (Hopen : preserves P (sys_open name)).
  { intros o1 H1. pose proof (Hpop o1 H1). unfold sys_open. destruct (pop o1) as [[] o2]; cbn in *; by repeat case_match. }
  assert (Hread : ∀ fp n, preserves P (sys_read fp n)).
  { intros fp n o1 H1. pose proof (Hpop o1 H1). unfold sys_read. destruct (os_fds o1 !! fp) as [[]|]; [|done].
    by destruct (pop o1) as [[] o2]. }
  assert (Hclose : ∀ A fp (m : MC os A), preserves P m → preserves P (closing fp m)).
  { intros A fp m Hm o1 H1. unfold closing, sys_close. specialize (Hm o1 H1). destruct (m o1) as [r o2].
    by destruct (os_fds o2 !! fp). }
  assert (Hfread : ∀ n fp, preserves P (fread n fp)) by (intros n fp; unfold fread; preserve).
  assert (H32 : ∀ fp, preserves P (fread_little_endian32 fp)) by (intros fp; unfold fread_little_endian32; preserve).
  assert (H64 : ∀ fp, preserves P (fread_little_endian64 fp)) by (intros fp; unfold fread_little_endian64; preserve).
  revert o. change (preserves P (sparkey_load_hashheader name)). unfold sparkey_load_hashheader. preserve; apply Hclose; [preserve..|].
  unfold hashheader_version0. preserve.
Qed.

(** A plan that starts from nothing. *)
Definition fresh_plan (lh : sparkey_logheader) (plan : hash_plan) : Prop :=
  p_old plan = None ∧ p_count plan = lh_num_puts lh ∧ p_garbage_size plan = 0 ∧ 0 ≤ p_hash_seed plan < 2 ^ 32.

(** The plan [plan] that ends in [o1], a new one, or none. *)
Definition planned (lh : sparkey_logheader) (o : os) (plan : hash_plan) (o1 : os) (r : res returncode hash_plan) (o' : os) : Prop :=
  files o' = files o ∧ sane o' ∧ Forall K (os_sched o') ∧
  match r with
  | Ok plan' => fresh_plan lh plan' ∨ plan' = plan ∧ files o1 = files o ∧ sane o1 ∧
      set_sched [] o1 = o1 ∧ o' = set_sched (os_sched o') o1
  | Err _ => True
  | _ => False
  end.

(** When the older index cannot be read, a new one is made. *)
Lemma plan_any name lh o sch plan o1 :
  sane o → Forall K sch → plan_hash name lh (set_sched [] o) = (Ok plan, o1) →
  let '(r, o') := plan_hash name lh (set_sched sch o) in planned lh o plan o1 r o'.
Proof.
  intros Hs HK Hideal. pose proof (survives_load_hashheader name o sch Hs HK) as Hl.
  pose proof (load_hashheader_sched name (set_sched sch o) HK) as HKl. cbn [resched env_os] in Hl.
  unfold plan_hash in Hideal.
  assert (Hfresh : ∀ o', files o' = files o → sane o' → Forall K (os_sched o') →
    let '(r, o'') := (hash_seed ← rand32; mret (HashPlan (lh_num_puts lh) (lh_header_size lh) hash_seed 0 None) : MC os _) o' in
    planned lh o plan o1 r o'').
  { intros o' Hf' Hs' HK'. pose proof (rand32_any o' Hs' HK') as Hr. unfold mbind, M_bind.
    destruct (rand32 o') as [[seed|e| |] o'']; destruct Hr as (Hf2 & Hs2 & HK2 & Hr); try done;
      (split; [by etrans|]); (split; [done|]); (split; [done|]); [|done]. by left. }
  assert (Hstop : stopped never o (sparkey_load_hashheader name (set_sched sch o)) →
    ∃ e o', attempt (sparkey_load_hashheader name) (set_sched sch o) = (Ok (inl e), o') ∧ files o' = files o ∧ sane o' ∧
      Forall K (os_sched o')).
  { unfold attempt. destruct (sparkey_load_hashheader name (set_sched sch o)) as [[h|e| |] o'];
      intros (Hf & Hs' & Hr); try done. by exists e, o'. }
  assert (Hgone : stopped never o (sparkey_load_hashheader name (set_sched sch o)) →
    let '(r, o') := plan_hash name lh (set_sched sch o) in planned lh o plan o1 r o').
  { intros Hst. destruct (Hstop Hst) as (e & o' & Ha & Hf & Hs' & HK'). unfold plan_hash. rewrite (bind_Ok _ _ _ _ _ Ha). by apply Hfresh. }
  destruct (sparkey_load_hashheader name (set_sched [] o)) as [[ho|e| |] o0] eqn:E0; [|by apply Hgone| |].
  2,3: unfold attempt, mbind at 1, M_bind at 1 in Hideal; by rewrite E0 in Hideal.
  destruct Hl as (Hsame & Hf0 & Hs0 & [Hst|(sch' & HK' & Hl)]); [by apply Hgone|].
  assert (Ha : attempt (sparkey_load_hashheader name) (set_sched sch o) = (Ok (inr ho), set_sched sch' o0))
    by (unfold attempt; by rewrite Hl).
  assert (Ha0 : attempt (sparkey_load_hashheader name) (set_sched [] o) = (Ok (inr ho), o0))
    by (unfold attempt; by rewrite E0).
  unfold plan_hash. rewrite (bind_Ok _ _ _ _ _ Ha). rewrite (bind_Ok _ _ _ _ _ Ha0) in Hideal.
  case_decide; [|by apply Hfresh]. injection Hideal as <- <-. cbn. 
  do 3 (split; [done|]). right. by split_and!.
Qed.

End Codec.

End Survives.
