(* ===== verification/StoredLog.v ===== *)
(** * Stored logs

    What the index and its clients need of a log, however it is laid out in its
    file: a header that loads, and for every reader opened on the file an iterator
    that implements [LogCursor].  Uncompressed and compressed logs are such logs,
    and appending to either makes it grow. *)

From stdpp Require Import base gmap list strings numbers.
From Stdlib Require Import ZArith Lia.
From S2P Require Import Prelude ReturnCodes OS LogHeader Buf Compress LogFormat LogWriter LogReader.
From S2P Require Import LogCursor PlainLog BlockFormat BlockReader BlockCursor BlockWriter.
From S2P Require Import HashTable HashWriter IndexFile.

Local Open Scope Z_scope.

Section Stored.
Context {C : Codec}.

(** ** The interface *)

Record stored : Type := Stored {
  st_entries : list entry;
  st_header : sparkey_logheader;
  st_body : list Z;
  st_cursor log : opened_on st_header st_body log → LogCursor log st_entries;
  st_ok : log_ok st_entries;
  st_typed : logheader_typed st_header;
  st_valid : logheader_valid st_header;
  st_end : lh_data_end st_header = LOG_HEADER_SIZE + zlen st_body;
  st_puts : lh_num_puts st_header = zlen (puts_of st_entries);
  st_deletes : lh_num_deletes st_header = zlen (deletes_of st_entries);
  st_key_len : lh_max_key_len st_header = max_len entry_key (puts_of st_entries);
  st_value_len : lh_max_value_len st_header = max_len entry_value (puts_of st_entries);
  st_bits : int_log2 (lh_max_entries_per_block st_header) < 31;
  st_place log1 H1 log2 H2 n :
    cur_block (LogCursor := st_cursor log1 H1) n = cur_block (LogCursor := st_cursor log2 H2) n ∧
    cur_index (LogCursor := st_cursor log1 H1) n = cur_index (LogCursor := st_cursor log2 H2) n;
  st_index log Hlog n e : st_entries !! n = Some e →
    cur_index (LogCursor := st_cursor log Hlog) n < 2 ^ int_log2 (lh_max_entries_per_block st_header)
}.

Definition st_file (S : stored) : list Z := logheader_bytes (st_header S) ++ st_body S.
Definition st_id (S : stored) : Z := lh_file_identifier (st_header S).

(** A reader opened on the log, and one that is. *)
Definition opened_log (S : stored) : sparkey_logreader → Prop := opened_on (st_header S) (st_body S).

Definition some_reader (S : stored) : sparkey_logreader :=
  LogReader MAGIC_VALUE_LOGREADER (st_header S) 3 (lh_data_end (st_header S)) (Some (st_file S)).

Lemma some_reader_opened S : opened_log S (some_reader S).
Proof. by split_and!. Qed.

(** What the hash functions and the addresses of the table ask of the log. *)
Definition store_ok (S : stored) : Prop :=
  keys_short (es := st_entries S) ∧ zlen (puts_of (st_entries S)) < 2 ^ 56 ∧
  lh_data_end (st_header S) * 2 ^ int_log2 (lh_max_entries_per_block (st_header S)) ≤ 2 ^ 64.

Lemma stored_indexable S log (Hlog : opened_log S log) :
  store_ok S → indexable (L := st_cursor S log Hlog) (st_header S).
Proof.
  intros (_ & Hputs & Haddr). pose proof Hlog as (_ & Hh & _). unfold indexable. rewrite Hh.
  destruct (st_valid S) as (_ & _ & Hsz & _). split_and!; try done; [apply S|by rewrite Hsz|apply S| |apply S|].
  - by rewrite st_puts.
  - apply st_index.
Qed.

Lemma st_file_length S : zlen (st_file S) = lh_data_end (st_header S).
Proof. unfold st_file. by rewrite st_end, length_app, Nat2Z.inj_add, logheader_bytes_length. Qed.

Lemma st_id_range S : 0 ≤ st_id S < 2 ^ 32.
Proof. apply (st_typed S). Qed.

(** The header loads, and readers open. *)
Lemma load_stored S o filename rest :
  has_file o filename (st_file S ++ rest) → sparkey_load_logheader filename o = (Ok (st_header S), opened o).
Proof.
  intros Hf. unfold st_file in Hf. rewrite <- app_assoc in Hf.
  eapply load_header_file; [exact Hf|apply st_typed|apply st_valid].
Qed.

Lemma open_stored S o filename rest :
  has_file o filename (st_file S ++ rest) → os_wf o →
  ∃ log o', sparkey_logreader_open_noalloc filename o = (Ok log, o') ∧
    sparkey_logreader_open filename o = (Ok log, o') ∧
    reader_opened (st_header S) (st_body S) log o o'.
Proof.
  intros Hf Hwf. eapply open_reader_run; [exact Hf|done|apply st_typed|apply st_valid|apply st_end].
Qed.

(** A log that grew: the places of the old entries are the same, and the iterator
    can go to where the old log ended. *)
Record grows (S1 S2 : stored) (es : list entry) : Prop := {
  grows_entries : st_entries S2 = st_entries S1 ++ es;
  grows_id : st_id S2 = st_id S1;
  grows_same : es = [] → lh_data_end (st_header S1) = lh_data_end (st_header S2);
  grows_more : es ≠ [] → lh_data_end (st_header S1) < lh_data_end (st_header S2);
  grows_places log1 (H1 : opened_log S1 log1) log2 (H2 : opened_log S2 log2) n :
    (n < length (st_entries S1))%nat →
    cur_block (LogCursor := st_cursor S1 log1 H1) n = cur_block (LogCursor := st_cursor S2 log2 H2) n ∧
    cur_index (LogCursor := st_cursor S1 log1 H1) n = cur_index (LogCursor := st_cursor S2 log2 H2) n;
  grows_seek log (H : opened_log S2 log) i :
    es ≠ [] → cur_ready (LogCursor := st_cursor S2 log H) i →
    ∃ i', sparkey_logiter_seek log (lh_data_end (st_header S1)) i = (Ok tt, i') ∧
          cur_before (LogCursor := st_cursor S2 log H) (length (st_entries S1)) i'
}.

Lemma grows_ahead S1 S2 es : grows S1 S2 es →
  lh_data_end (st_header S1) ≤ lh_data_end (st_header S2) ∧
  lh_max_key_len (st_header S1) ≤ lh_max_key_len (st_header S2) ∧
  lh_max_value_len (st_header S1) ≤ lh_max_value_len (st_header S2).
Proof.
  intros Hg. rewrite !st_key_len, !st_value_len, (grows_entries _ _ _ Hg), puts_of_app, !max_len_app. split; [|lia].
  destruct es as [|e es]; [by rewrite (grows_same _ _ _ Hg)|]. by pose proof (grows_more _ _ _ Hg ltac:(done)); lia.
Qed.

(** ** Uncompressed logs *)

Definition plain_stored (fid : Z) (es : list entry) (Hfid : 0 ≤ fid < 2 ^ 32) (Hok : log_ok es) : stored.
Proof.
  refine {|
    st_entries := es; st_header := log_header fid es (log_end es) LOG_HEADER_SIZE; st_body := log_body es;
    st_cursor := λ log Hlog, plain_cursor _ es log (log_header_plain fid es) Hlog Hok |}; try done.
  - by apply log_header_typed.
  - by apply log_header_valid.
Defined.

Lemma plain_grows fid es1 es2 Hfid Hok1 Hok2 :
  grows (plain_stored fid es1 Hfid Hok1) (plain_stored fid (es1 ++ es2) Hfid Hok2) es2.
Proof.
  split; cbn [st_entries st_header plain_stored]; try done.
  - intros ->. by rewrite app_nil_r.
  - intros Hne. cbn [lh_data_end log_header]. rewrite log_end_app. pose proof (log_body_count es2).
    destruct es2; [done|cbn [length] in *; lia].
  - intros log1 H1 log2 H2 n Hn. split; [|done]. cbn. unfold entry_start. by rewrite take_app_le by lia.
  - intros log H i Hne Hr. destruct es2 as [|e es2]; [done|].
    assert (He : (es1 ++ e :: es2) !! length es1 = Some e) by (by apply list_lookup_middle).
    assert (Hstart : entry_start (es1 ++ e :: es2) (length es1) = log_end es1).
    { unfold entry_start, log_end. by rewrite take_app_length. }
    cbn [lh_data_end log_header]. rewrite <- Hstart. by eapply seek_run.
Qed.

(** ** Compressed logs *)

(** What the format asks of the entries of a log. *)
Definition comp_fits (P : block_params) (gs : groups) : Prop :=
  params_ok P ∧ comp_ok P gs ∧ counts_fit P gs.

Lemma comp_bits P gs : comp_fits P gs → int_log2 (max_group gs) < 31.
Proof.
  intros ((_ & Hbs & _) & (_ & Hgs & _) & _).
  pose proof (max_group_bound (bp_size P) gs ltac:(lia) Hgs).
  pose proof (int_log2_le (max_group gs) 30). lia.
Qed.

Lemma comp_index P gs n e :
  comp_fits P gs → concat gs !! n = Some e → Z.of_nat (index_of gs n) < 2 ^ int_log2 (max_group gs).
Proof.
  intros ((_ & Hbs & _) & (_ & Hgs & _) & _) He.
  pose proof (max_group_bound (bp_size P) gs ltac:(lia) Hgs).
  pose proof (index_of_group (bp_size P) ltac:(lia) gs Hgs n e He).
  destruct (int_log2_bounds (max_group gs) ltac:(lia)) as [_ Hlt]. lia.
Qed.

Definition comp_stored (P : block_params) (fid : Z) (gs : groups) (Hfid : 0 ≤ fid < 2 ^ 32)
    (Hfit : comp_fits P gs) : stored.
Proof.
  refine {|
    st_entries := concat gs; st_header := comp_header P fid gs (comp_end P gs) LOG_HEADER_SIZE;
    st_body := comp_body P gs;
    st_cursor := λ log Hlog, comp_cursor P (proj1 Hfit) fid gs log Hlog (proj1 (proj2 Hfit)) |}; try done.
  - apply Hfit.
  - apply comp_header_typed; [apply Hfit|done|apply Hfit].
  - apply comp_header_valid; apply Hfit.
  - by apply (comp_bits P).
  - intros log Hlog n e He. by apply (comp_index P gs n e).
Defined.

(** The last block of a log ends where the next group starts. *)
Lemma comp_end_pos P gs : block_pos P (blocks_of (bp_size P) gs) (length (blocks_of (bp_size P) gs)) = comp_end P gs.
Proof. unfold block_pos. by rewrite firstn_all. Qed.

Lemma comp_grows P fid gs1 gs2 Hfid Hfit1 Hfit2 :
  grows (comp_stored P fid gs1 Hfid Hfit1) (comp_stored P fid (gs1 ++ gs2) Hfid Hfit2) (concat gs2).
Proof.
  pose proof Hfit2 as ((_ & Hbs & _) & Hok2 & _). pose proof Hok2 as (_ & Hgs & _).
  assert (Hne : ∀ g, g ∈ gs2 → g ≠ []).
  { intros g Hg. apply Forall_app in Hgs as [_ Hgs]. rewrite list.Forall_forall in Hgs.
    destruct (Hgs g Hg) as (l & e & -> & _). by destruct l. }
  assert (Hnil : concat gs2 = [] → gs2 = []).
  { intros Hc. destruct gs2 as [|g gs2]; [done|]. cbn in Hc. apply app_eq_nil in Hc as [-> _].
    destruct (Hne []); [by left|done]. }
  assert (Hend : comp_end P gs1 =
    block_pos P (blocks_of (bp_size P) (gs1 ++ gs2)) (length (blocks_of (bp_size P) gs1))).
  { by rewrite blocks_app, block_pos_app, comp_end_pos by lia. }
  split; cbn [st_entries st_header comp_stored lh_data_end comp_header with_compression log_header].
  - apply concat_app.
  - done.
  - intros Hc%Hnil. rewrite Hc at 1. by rewrite app_nil_r.
  - intros Hc. destruct gs2 as [|g gs2]; [done|].
    assert (Hlt : (length (blocks_of (bp_size P) gs1) < length (blocks_of (bp_size P) (gs1 ++ g :: gs2)))%nat).
    { rewrite blocks_app, length_app. change (g :: gs2) with ([g] ++ gs2). rewrite blocks_app, blocks_of_one, length_app.
      destruct (chunks_head (bp_size P) (log_body g)) as [r ->]. cbn [length]. lia. }
    pose proof (pos_lt P (proj1 Hfit2) _ Hok2 _ _ Hlt (le_n _)) as Hp. rewrite comp_end_pos in Hp. lia.
  - intros log1 H1 log2 H2 n Hn. cbn. destruct (place_app (bp_size P) gs1 gs2 n Hn) as [-> ->]. split; [|done].
    rewrite blocks_app, block_pos_app; [done|]. apply lookup_lt_is_Some_2 in Hn as [e He].
    pose proof Hfit1 as (HP & Hok1 & _). destruct (entry_place P HP gs1 Hok1 n e He) as (_ & _ & Hk & _). lia.
  - intros log H i Hc Hr. destruct gs2 as [|g gs2]; [done|].
    destruct (place_end (bp_size P) gs1 g gs2 (Hne g ltac:(by left))) as [Hb Hi].
    assert (Hg : is_Some (concat (gs1 ++ g :: gs2) !! length (concat gs1))).
    { apply lookup_lt_is_Some. rewrite concat_app, length_app. specialize (Hne g ltac:(by left)).
      destruct g; [done|cbn; lia]. }
    destruct Hg as [e He]. rewrite Hend, <- Hb. exact (seek_comp P (proj1 Hfit2) fid _ log H (proj1 (proj2 Hfit2)) _ e i Hr He Hi).
Qed.

(** ** Writing and appending *)

(** The log that a session with these options and entries leaves. *)
Inductive written (t block_size fid : Z) (es : list entry) : stored → Prop :=
| written_plain Hfid Hok :
    t = SPARKEY_COMPRESSION_NONE → written t block_size fid es (plain_stored fid es Hfid Hok)
| written_comp P Hfid Hfit :
    t = bp_type P → block_size = bp_size P → Forall (λ e, zlen (entry_prefix e) ≤ block_size) es →
    written t block_size fid es (comp_stored P fid (groups_of block_size es) Hfid Hfit).

(** The log that a later session leaves that appends to it. *)
Inductive appended (es : list entry) : stored → stored → Prop :=
| appended_plain fid es1 Hfid Hok1 Hok2 :
    appended es (plain_stored fid es1 Hfid Hok1) (plain_stored fid (es1 ++ es) Hfid Hok2)
| appended_comp P fid gs Hfid Hfit1 Hfit2 :
    Forall (λ e, zlen (entry_prefix e) ≤ bp_size P) es →
    appended es (comp_stored P fid gs Hfid Hfit1)
      (comp_stored P fid (gs ++ groups_of (bp_size P) es) Hfid Hfit2).

Lemma written_entries t bs fid es S : written t bs fid es S → st_entries S = es ∧ st_id S = fid.
Proof. destruct 1; [done|]. split; [|done]. apply groups_of_entries. Qed.

Lemma appended_grows es S1 S2 : appended es S1 S2 → grows S1 S2 es.
Proof.
  destruct 1 as [fid es1 Hfid Hok1 Hok2|P fid gs Hfid Hfit1 Hfit2 _]; [by apply plain_grows|].
  pose proof (comp_grows P fid gs (groups_of (bp_size P) es) Hfid Hfit1 Hfit2) as H.
  by rewrite groups_of_entries in H.
Qed.

Lemma write_stored filename t bs es o S :
  os_sched o = [] → os_wf o → (4 ≤ length (os_entropy o))%nat → written t bs (seed_of o) es S →
  ∃ o', write_log filename t bs es o = (Ok tt, o') ∧ log_written filename (st_file S) o o'.
Proof.
  intros Hs Hwf He [Hfid Hok ->|P Hfid (HP & Hok & Hcnt) -> -> Hes].
  - by apply write_log_spec.
  - by apply (write_comp_spec P HP).
Qed.

Lemma append_stored filename es S1 S2 o :
  has_file o filename (st_file S1) → os_wf o → appended es S1 S2 →
  ∃ ino o', append_log filename es o = (Ok tt, o') ∧ os_names o !! filename = Some ino ∧
    log_appended ino (st_file S2) o o'.
Proof.
  intros Hf Hwf Ha. revert Hf. destruct Ha as [fid es1 Hfid Hok1 Hok2|P fid gs Hfid Hfit1 Hfit2 Hes]; intros Hf.
  - exact (append_log_spec filename fid es1 es o Hf Hwf Hfid Hok2).
  - destruct Hfit1 as (HP & Hok1 & Hcnt1), Hfit2 as (HP2 & Hok2 & Hcnt2). exact (append_comp_spec P HP filename fid gs es o Hf Hwf Hfid Hok2 Hcnt1 Hes).
Qed.

(** Reading a stored log delivers its entries. *)
Lemma read_stored S o filename rest fuel :
  has_file o filename (st_file S ++ rest) → os_wf o → (length (st_entries S) < fuel)%nat →
  (read_log fuel filename o).1 = Ok (st_entries S).
Proof.
  intros Hf Hwf Hfuel. eapply read_log_run; [exact Hf|done|apply st_typed|apply st_valid|apply st_end| |done].
  apply st_cursor.
Qed.

End Stored.

Arguments stored : clear implicits.
Arguments stored {C}.
