(* ===== verification/LogProps.v ===== *)
(** * The properties of stored logs

    What a session leaves in the file of a log, whatever its compression, and what a
    reader gets from it; and the logs that are written but cannot be read. *)

From stdpp Require Import base gmap list strings numbers.
From Stdlib Require Import ZArith Lia.
From S2P Require Import Prelude ReturnCodes Endian OS LogHeader Buf Compress LogFormat LogWriter.
From S2P Require Import LogReader LogCursor PlainLog BlockFormat BlockReader BlockCursor BlockWriter.
From S2P Require Import StoredLog.

Local Open Scope Z_scope.

(** ** Examples *)

(** The log of [es_example]. *)
Definition example_log : stored (C := identity_codec) :=
  plain_stored (C := identity_codec) 7 es_example ltac:(lia) es_example_ok.

(** Compressed logs for examples. *)
Definition snappy_params (C : Codec) (block_size : Z) : block_params :=
  BlockParams SPARKEY_COMPRESSION_SNAPPY block_size
    (Compressor sparkey_snappy_max_compressed_size sparkey_snappy_decompress sparkey_snappy_compress).

Lemma snappy_params_ok (C : Codec) (L : CodecLaws C) bs : 10 ≤ bs < 2 ^ 31 → params_ok (snappy_params C bs).
Proof.
  intros Hbs. split; [done|]. split; [done|].
  apply (compressors_ok SPARKEY_COMPRESSION_SNAPPY); [done|cbn; lia].
Qed.

Lemma snappy_fits bs es :
  10 ≤ bs < 2 ^ 31 → log_ok es → Forall (λ e, zlen (entry_prefix e) ≤ bs) es →
  comp_end (snappy_params identity_codec bs) (groups_of bs es) < 2 ^ 62 →
  counts_fit (snappy_params identity_codec bs) (groups_of bs es) →
  comp_fits (C := identity_codec) (snappy_params identity_codec bs) (groups_of bs es).
Proof.
  intros Hbs Hok Hes Hend Hcnt. split; [|split; [split|done]].
  - apply snappy_params_ok; [apply identity_codec_laws|done].
  - by rewrite groups_of_entries.
  - split; [|done]. apply groups_of_ok; [cbn; lia|done].
Qed.

(** The entries of [es_example] in blocks of ten bytes. *)
Lemma example_fits :
  comp_fits (C := identity_codec) (snappy_params identity_codec 10) (groups_of 10 es_example).
Proof. apply snappy_fits; [done|exact es_example_ok|by repeat constructor|done|by split; vm_compute]. Qed.

Definition example_blocks (fid : Z) (Hfid : 0 ≤ fid < 2 ^ 32) : stored (C := identity_codec) :=
  comp_stored (C := identity_codec) (snappy_params identity_codec 10) fid (groups_of 10 es_example) Hfid
    example_fits.

Lemma example_blocks_written fid Hfid :
  written (C := identity_codec) SPARKEY_COMPRESSION_SNAPPY 10 fid es_example (example_blocks fid Hfid).
Proof. apply (written_comp (C := identity_codec)); [done|done|by repeat constructor]. Qed.

Lemma seed_of_empty : 0 ≤ seed_of os_empty < 2 ^ 32.
Proof. done. Qed.

(** A file system with one file. *)
Example os_log (c : list Z) : os := OS {[ 0%nat := c ]} {[ "a.spl"%string := 0%nat ]} ∅ 1 3 [] [].

Lemma os_log_wf c : os_wf (os_log c).
Proof.
  split_and!; cbn; [| | |lia].
  - intros n i [<- <-]%lookup_singleton_Some. by eexists.
  - intros i [x [<- _]%lookup_singleton_Some]. lia.
  - intros fd [x Hx]. by rewrite lookup_empty in Hx.
Qed.

Lemma os_log_file c : has_file (os_log c) "a.spl" c.
Proof. by exists 0%nat. Qed.

(** ** Properties *)

(** C3. What a session writes is what a later reader gets: after creating a log, with or
    without compression, adding the entries and closing it, opening the file and iterating
    with fill_key and fill_value returns exactly the entries, in order, with their types.
    The log is below 2^62 bytes; with compression a block has at least ten bytes and the
    encoded lengths of every entry fit in one, and the log has at most as many puts, and as
    many deletes, as bytes (beyond that it is written but not opened:
    compressed_log_refused). *)
Theorem write_read_roundtrip {C : Codec} filename t block_size es S o fuel :
  os_sched o = [] → os_wf o → (4 ≤ length (os_entropy o))%nat →
  written t block_size (seed_of o) es S → (length es < fuel)%nat →
  let '(r, o') := write_log filename t block_size es o in
  r = Ok tt ∧ (read_log fuel filename o').1 = Ok es.
Proof.
  intros Hs Hwf He Hw Hfuel. destruct (written_entries _ _ _ _ _ Hw) as [<- _].
  destruct (write_stored filename t block_size _ o S Hs Hwf He Hw)
    as (o' & -> & Hwf' & Hs' & _ & (ino & Hn & Hc) & _). split; [done|].
  apply (read_stored S o' filename []); [|done|done].
  exists ino. rewrite app_nil_r. split_and!; try done. by apply wf_fresh_fd.
Qed.

Lemma write_read_roundtrip_witness :
  (read_log (C := identity_codec) 9 "a.spl"
     (write_log (C := identity_codec) "a.spl" 1 10 es_example os_empty).2).1 = Ok es_example.
Proof.
  pose proof (write_read_roundtrip (C := identity_codec) "a.spl" 1 10 es_example
    (example_blocks _ seed_of_empty) os_empty 9 eq_refl os_empty_wf ltac:(cbn; lia)
    (example_blocks_written _ _) ltac:(cbn; lia)) as H.
  destruct (write_log "a.spl" 1 10 es_example os_empty) as [r o']. apply H.
Defined.

(** C11. Appending to a log, in a later session: the file becomes the one of a log with all
    the entries, header included.  Without compression it is the file that a single
    session would have written; with compression the new entries start a block. *)
Theorem append_log_file {C : Codec} filename es S1 S2 o :
  has_file o filename (st_file S1) → os_wf o → appended es S1 S2 →
  let '(r, o') := append_log filename es o in
  r = Ok tt ∧ os_names o' = os_names o ∧ st_entries S2 = st_entries S1 ++ es ∧
  ∃ ino, os_names o' !! filename = Some ino ∧ os_inodes o' !! ino = Some (st_file S2).
Proof.
  intros Hf Hwf Ha. pose proof (grows_entries _ _ _ (appended_grows _ _ _ Ha)) as Hes.
  destruct (append_stored filename es S1 S2 o Hf Hwf Ha) as (ino & o' & -> & Hino & Hn & Hc & _).
  split; [done|]. split; [done|]. split; [done|]. exists ino. by rewrite Hn.
Qed.

(** A log in blocks of ten bytes, and a deletion in a block of its own. *)
Lemma example_longer_fits :
  comp_fits (C := identity_codec) (snappy_params identity_codec 10)
    (groups_of 10 es_example ++ groups_of 10 [Delete [1]]).
Proof.
  split; [apply example_fits|]. split; [|by split; vm_compute]. split; [|split; [|done]].
  - rewrite concat_app, !groups_of_entries. split; [repeat constructor; done|done].
  - apply Forall_app. split; (apply groups_of_ok; [done|by repeat constructor]).
Qed.

Lemma append_log_file_witness :
  (append_log (C := identity_codec) "a.spl" [Delete [1]]
    (os_log (st_file (C := identity_codec) (example_blocks 7 ltac:(lia))))).1 = Ok tt.
Proof.
  pose proof (append_log_file (C := identity_codec) "a.spl" [Delete [1]] (example_blocks 7 ltac:(lia))
    (comp_stored (C := identity_codec) _ 7 _ ltac:(lia) example_longer_fits) _ (os_log_file _) (os_log_wf _)) as H.
  destruct (append_log _ _ _) as [r o'].
  apply H. apply (appended_comp (C := identity_codec)). by repeat constructor.
Defined.

(** Bytes after the data end the header promises, such as those of a writer that
    has not rewritten the header yet, are not seen by a reader. *)
Theorem unflushed_tail_ignored {C : Codec} o filename S rest fuel :
  has_file o filename (st_file S ++ rest) → os_wf o → (length (st_entries S) < fuel)%nat →
  (read_log fuel filename o).1 = Ok (st_entries S).
Proof. apply read_stored. Qed.

Lemma unflushed_tail_ignored_witness :
  (read_log (C := identity_codec) 9 "a.spl" (os_log (st_file (C := identity_codec) example_log ++ [3; 2; 1]))).1
    = Ok es_example.
Proof.
  apply (unflushed_tail_ignored (C := identity_codec) _ "a.spl" example_log [3; 2; 1] 9);
    [by apply os_log_file|apply os_log_wf|cbn; lia].
Defined.

(** C30. A log shorter than its header says is refused, and the reader leaves no
    descriptor open. *)
Theorem truncated_log_refused {C : Codec} o filename S n :
  has_file o filename (take n (st_file S)) →
  LOG_HEADER_SIZE ≤ Z.of_nat n < lh_data_end (st_header S) →
  let '(r, o') := sparkey_logreader_open filename o in
  r = Err SPARKEY_LOG_TOO_SMALL ∧ os_fds o' = os_fds o.
Proof.
  intros Hf Hn. assert (Hs : os_sched o = []) by (destruct Hf as (? & _ & _ & ? & _); done).
  pose proof (st_file_length S) as Hlen. pose proof (logheader_bytes_length (st_header S)) as Hhl.
  assert (Hload : sparkey_load_logheader filename o = (Ok (st_header S), opened o)).
  { apply (load_header_file _ _ _ (take (n - length (logheader_bytes (st_header S))) (st_body S)));
      [|apply st_typed|apply st_valid].
    unfold st_file in Hf. rewrite take_app, (take_ge (logheader_bytes _)) in Hf by lia. exact Hf. }
  unfold sparkey_logreader_open. rewrite decide_False by (intros H; by apply H).
  rewrite (bind_Ok _ _ _ _ _ (sys_malloc_run o Hs)). cbn [negb].
  unfold sparkey_logreader_open_noalloc. rewrite (bind_Ok _ _ _ _ _ Hload).
  destruct Hf as (ino & Hname & Hc & _).
  erewrite bind_Ok; [|unfold sys_stat_size; cbn; by rewrite Hname, Hc]. cbn [from_option id].
  rewrite bind_of_opt. rewrite decide_True; [done|].
  rewrite length_take. lia.
Qed.

Lemma truncated_log_refused_witness :
  (sparkey_logreader_open "a.spl" (os_log (take 90 (st_file (C := identity_codec) example_log)))).1
    = Err SPARKEY_LOG_TOO_SMALL.
Proof.
  pose proof (truncated_log_refused (C := identity_codec) _ "a.spl" example_log 90 (os_log_file _)
    ltac:(vm_compute; split; congruence)) as H.
  destruct (sparkey_logreader_open _ _) as [r o']. apply H.
Defined.

(** ** The writer of a compressed log *)

(** C13. A put or a delete on an open writer of a compressed log, whatever the environment
    does: on success the entry is in the group that the format puts it in, and the
    blocks that are full went through the compressor to the file or its buffer;
    otherwise the environment made a write fail for good.  Other files are untouched. *)
Theorem compressed_put_delete {C : Codec} P fid st e ino s :
  params_ok P → comp_writer P fid st ino s → log_ok (grouped st ++ [e]) →
  zlen (entry_prefix e) ≤ bp_size P →
  let '(r, s') := match e with
                  | Put k v => sparkey_logwriter_put k v s
                  | Delete k => sparkey_logwriter_delete k s
                  end in
  (∀ i, i ≠ ino → os_inodes s'.1 !! i = os_inodes s.1 !! i) ∧
  ((r = Ok tt ∧ comp_writer P fid (add_group (bp_size P) st e) ino s') ∨
   ∃ c, r = Err c ∧ write_error c ∧ Exists fatal (os_sched s.1)).
Proof.
  intros HP Hw Hok Hpre. pose proof (add_entry_comp P HP fid st e ino s Hw Hok Hpre) as H.
  assert (match e with
          | Put k v => sparkey_logwriter_put k v s
          | Delete k => sparkey_logwriter_delete k s
          end = add_entry e s) as -> by by destruct e.
  destruct (add_entry e s) as [r s']. destruct H as ((_&_&_&_&_&Hi&_) & _ & Hr). split; [exact Hi|].
  destruct Hr as [([] & Hr & Hq)|Hr]; [by left|by right].
Qed.

(** A writer with blocks of ten bytes that has not written anything yet. *)
Example ws_compressed : WS :=
  (OS {[ 0%nat := replicate 84 0 ]} ∅ {[ 3 := (0%nat, 84) ]} 1 4 [Short 1; Fails EINTR] [],
   LogWriter MAGIC_VALUE_LOGWRITER (comp_header (snappy_params identity_codec 10) 7 [] 84 84) 3 (Buf 10 []) 10 true
     (Buf 2 []) false 0).

Lemma compressed_put_delete_witness :
  (sparkey_logwriter_put (C := identity_codec) [1; 2; 3] (replicate 20 4) ws_compressed).1 = Ok tt.
Proof.
  pose proof (compressed_put_delete (C := identity_codec) (snappy_params identity_codec 10) 7 ([], [])
    (Put [1; 2; 3] (replicate 20 4)) 0%nat ws_compressed
    (snappy_params_ok identity_codec identity_codec_laws 10 ltac:(lia))) as H. cbn beta iota in H.
  destruct (sparkey_logwriter_put _ _ ws_compressed) as [r s'].
  destruct H as [_ [[-> _]|(c & _ & _ & Hx)]]; [| | |done|].
  - split; [split; [constructor|cbn; lia]|]. exists 84, 84, false. split_and!; try done.
    split; [split; cbn; lia|]. exists (replicate 84 0). split_and!; [|done|done|done].
    split; [done|]. split; [by eexists|done].
  - split; [repeat constructor; done|done].
  - done.
  - exfalso. cbn in Hx. rewrite !Exists_cons, Exists_nil in Hx. cbn in Hx. tauto.
Defined.

(** ** Logs that cannot be read back *)

(** C31. The loader takes a header for corrupt that counts more puts, or more deletes, than
    the log has bytes.  For a compressed log that is wrong: small entries in blocks
    that compress well make such a log, the writer closes it without an error, and
    no reader opens it again. *)
Theorem compressed_log_refused {C : Codec} P filename es o :
  params_ok P → os_sched o = [] → os_wf o → (4 ≤ length (os_entropy o))%nat → bytes_ok (os_entropy o) →
  comp_ok P (groups_of (bp_size P) es) → Forall (λ e, zlen (entry_prefix e) ≤ bp_size P) es →
  comp_end P (groups_of (bp_size P) es) < zlen (puts_of es) ∨
    comp_end P (groups_of (bp_size P) es) < zlen (deletes_of es) →
  let '(r, o') := write_log filename (bp_type P) (bp_size P) es o in
  r = Ok tt ∧ (sparkey_logreader_open filename o').1 = Err SPARKEY_LOG_HEADER_CORRUPT.
Proof.
  intros HP Hs Hwf Hent Hb Hok Hes Hcnt.
  destruct (write_comp_spec P HP filename es o Hs Hwf Hent Hok Hes)
    as (o' & -> & Hwf' & Hs' & _ & (ino & Hn & Hc) & _). split; [done|].
  set (gs := groups_of (bp_size P) es) in *. set (h := comp_header P (seed_of o) gs (comp_end P gs) LOG_HEADER_SIZE).
  assert (Hf : has_file o' filename (logheader_bytes h ++ comp_body P gs)).
  { exists ino. split_and!; try done. by apply wf_fresh_fd. }
  assert (Ht : logheader_typed h) by (apply comp_header_typed; [done|by apply seed_range|done]).
  assert (Hload : sparkey_load_logheader filename o' = (Err SPARKEY_LOG_HEADER_CORRUPT, opened o')).
  { unfold logheader_bytes in Hf. rewrite <- !app_assoc in Hf.
    rewrite (load_logheader_run o' filename LOG_MAGIC_NUMBER h (comp_body P gs)); try done.
    unfold load_logheader_result. rewrite !decide_False by (done || tauto). f_equal.
    rewrite (proj2 (logheader_checks_valid h eq_refl eq_refl eq_refl)); [done|].
    intros (_ & _ & _ & _ & Hp & Hd & _). cbn [h comp_header with_compression lh_num_puts lh_num_deletes
      lh_data_end log_header] in Hp, Hd. unfold gs in Hp, Hd. rewrite groups_of_entries in Hp, Hd. fold gs in Hp, Hd. lia. }
  unfold sparkey_logreader_open. rewrite decide_False by (intros H; by apply H).
  rewrite (bind_Ok _ _ _ _ _ (sys_malloc_run o' Hs')). cbn [negb].
  unfold sparkey_logreader_open_noalloc. by rewrite (bind_Err _ _ _ _ _ Hload).
Qed.

(** A codec that makes five bytes of any block of zeros, and adds one byte to others. *)
Definition pack_zeros (input : list Z) (room : Z) : option (list Z) :=
  let out := if decide (Forall (λ b, b = 0) input) then 0 :: le_bytes 4 (zlen input) else 1 :: input in
  if decide (zlen out ≤ room) then Some out else None.
Definition unpack_zeros (input : list Z) (room : Z) : option (list Z) :=
  let out := match input with
             | 0 :: len => Some (replicate (Z.to_nat (le_value len)) 0)
             | _ :: out => Some out
             | [] => None
             end in
  out ← out; if decide (zlen out ≤ room) then Some out else None.

Definition zeros_codec : Codec := {|
  snappy_max_compressed_length n := n + 5;
  snappy_compress := pack_zeros; snappy_uncompress := unpack_zeros;
  ZSTD_compressBound n := n + 5;
  ZSTD_compress input room _ := pack_zeros input room; ZSTD_decompress := unpack_zeros
|}.

Lemma zeros_contract : codec_contract (λ n, n + 5) pack_zeros unpack_zeros.
Proof.
  split; [lia|]. intros input n Hok Hl Hn. cbv beta. unfold pack_zeros. destruct (decide (Forall _ input)) as [Hz|Hz].
  - exists (0 :: le_bytes 4 (zlen input)). rewrite decide_True by (cbn; lia). split; [done|].
    split; [constructor; [done|apply le_bytes_ok]|]. split; [cbn; lia|]. intros m Hm.
    unfold unpack_zeros. rewrite le_value_bytes, Z.mod_small by lia. rewrite Nat2Z.id.
    assert (replicate (length input) 0 = input) as ->.
    { apply replicate_as_Forall. split; [done|]. eapply Forall_impl; [|exact Hz]. by intros ? ->. }
    cbn [mbind option_bind]. by rewrite decide_True.
  - exists (1 :: input). rewrite decide_True by (cbn; lia). split; [done|].
    split; [by constructor|]. split; [cbn; lia|]. intros m Hm. cbn. by rewrite decide_True.
Qed.

#[export] Instance zeros_codec_laws : CodecLaws zeros_codec.
Proof. split; apply zeros_contract. Qed.

(** 500 deletions of the empty key are a block of 1000 zeros. *)
Lemma compressed_log_refused_witness :
  let '(r, o') := write_log (C := zeros_codec) "a.spl" SPARKEY_COMPRESSION_SNAPPY 1000
    (replicate 500 (Delete [])) os_empty in
  r = Ok tt ∧ (sparkey_logreader_open "a.spl" o').1 = Err SPARKEY_LOG_HEADER_CORRUPT.
Proof.
  assert (Hes : Forall (λ e, zlen (entry_prefix e) ≤ 1000) (replicate 500 (Delete [])))
    by (apply Forall_replicate; done).
  apply (compressed_log_refused (C := zeros_codec) (snappy_params zeros_codec 1000) "a.spl");
    [apply (snappy_params_ok zeros_codec); [apply zeros_codec_laws|lia]|done|apply os_empty_wf|cbn; lia|
     by repeat constructor| |exact Hes|right; by vm_compute].
  split; [rewrite groups_of_entries; split; [apply Forall_replicate; by repeat constructor|by vm_compute]|].
  split; [|by vm_compute]. by apply groups_of_ok.
Defined.
