(* ===== verification/Readers.v ===== *)
(** * Readers beside a writer

    Sparkey allows one writer of a log and any number of readers at the same time, with
    no locks: a writer only appends, and the header that says how far the log goes
    is written last.  Here the calls of a writer and of readers on one file system
    are interleaved in any order. *)

From stdpp Require Import base gmap list strings numbers relations.
From Stdlib Require Import ZArith Lia.
From S2P Require Import Prelude ReturnCodes OS LogHeader Buf Compress LogFormat LogWriter Cooperation.
From S2P Require Import LogReader LogCursor PlainLog BlockFormat BlockWriter StoredLog LogProps.

Local Open Scope Z_scope.

(** ** The interface of a writer *)

(** [I es ino s]: the writer of the state [s] has added [es] to the log in the file [ino];
    [fits es]: so many entries can be added. *)
Class WriterSession {C : Codec} (I : list entry → nat → WS → Prop) (fits : list entry → Prop) : Prop := {
  session_data es ino s : I es ino s → ∃ data, log_data ino s data;
  session_elsewhere es ino o w o' :
    I es ino (o, w) → os_fds o' !! w_fd w = os_fds o !! w_fd w → os_inodes o' !! ino = os_inodes o !! ino →
    I es ino (o', w);
  session_add es e ino s :
    I es ino s → fits (es ++ [e]) → outcome ino s (λ _, I (es ++ [e]) ino) (add_entry e s);
  session_flush es ino s :
    I es ino s → fits es →
    outcome ino s (λ _ s', I es ino s' ∧ ∃ S, st_entries S = es ∧ os_inodes s'.1 !! ino = Some (st_file S) ∧
      ∀ c, os_inodes s.1 !! ino = Some c → drop (Z.to_nat LOG_HEADER_SIZE) c `prefix_of` st_body S)
      (sparkey_logwriter_flush s)
}.

Lemma log_data_elsewhere ino o w o' data :
  log_data ino (o, w) data → os_fds o' !! w_fd w = os_fds o !! w_fd w → os_inodes o' !! ino = os_inodes o !! ino →
  log_data ino (o', w) data.
Proof.
  intros [Hb (c & (Hfd & Hi & Hoff) & Hc & Hl & Hd)] Hf Hn. split; [done|]. exists c. cbn [fst snd] in *.
  split_and!; try done; [|by rewrite Hn]. split_and!; [by rewrite Hf|by rewrite Hn|done].
Qed.

(** What is in the file is the first part of the data. *)
Lemma log_data_prefix ino s data c :
  log_data ino s data → os_inodes s.1 !! ino = Some c → drop (Z.to_nat LOG_HEADER_SIZE) c `prefix_of` data.
Proof. intros [_ (c' & _ & Hc' & _ & <-)] Hc. rewrite Hc' in Hc. injection Hc as ->. by eexists. Qed.

(** The writer of an uncompressed log. *)
#[export] Instance plain_writer_session {C : Codec} fid (Hfid : 0 ≤ fid < 2 ^ 32) :
  WriterSession (writer_inv fid) log_ok.
Proof.
  split.
  - intros es ino s (_ & _ & _ & Hd). by eexists.
  - intros es ino o w o' (H1 & H2 & H3 & Hd) Hf Hn. split_and!; try done. by eapply log_data_elsewhere.
  - intros es e ino s Hinv Hok. pose proof (add_entry_spec fid es e ino s Hinv Hok) as H.
    destruct (add_entry e s) as [r s']. destruct H as (Hfr & Hfd & H). split; [done|]. split; [done|].
    destruct H as [[-> Hi]|H]; [left|by right]. by exists tt.
  - intros es ino s Hinv Hok. pose proof (writer_flush_spec fid es ino s Hinv Hok) as H.
    destruct (sparkey_logwriter_flush s) as [r s']. destruct H as (Hfr & Hfd & H). split; [done|]. split; [done|].
    destruct H as [(-> & Hi & Hc & _)|H]; [left|by right]. exists tt. split; [done|]. split; [done|].
    exists (plain_stored fid es Hfid Hok). split_and!; [done|done|]. intros c Hc0.
    destruct Hinv as (_ & _ & _ & Hd). by eapply log_data_prefix.
Qed.

(** The writer of a compressed log: however the flushes group the entries, the log
    must fit. *)
Definition comp_inv {C : Codec} (P : block_params) (fid : Z) (es : list entry) (ino : nat) (s : WS) : Prop :=
  ∃ st, grouped st = es ∧ comp_writer P fid st ino s.
Definition comp_room {C : Codec} (P : block_params) (es : list entry) : Prop :=
  log_ok es ∧ Forall (λ e, zlen (entry_prefix e) ≤ bp_size P) es ∧
  ∀ gs, concat gs = es → Forall (group_ok (bp_size P)) gs → comp_end P gs < 2 ^ 62 ∧ counts_fit P gs.

#[export] Instance comp_writer_session {C : Codec} P fid (HP : params_ok P) (Hfid : 0 ≤ fid < 2 ^ 32) :
  WriterSession (comp_inv P fid) (comp_room P).
Proof.
  split.
  - intros es ino s (st & _ & _ & de & hs & fl & H). eexists. apply H.
  - intros es ino o w o' (st & Hst & Hfill & de & hs & fl & H) Hf Hn. exists st. split; [done|]. split; [done|].
    exists de, hs, fl. destruct H as (H1 & H2 & H3 & H4 & H5 & H6 & H7 & H8 & H9 & Hd).
    split_and!; try done. by eapply log_data_elsewhere.
  - intros es e ino s (st & <- & Hw) (Hok & Hpre & _). apply Forall_app in Hpre as [_ Hpre].
    inversion_clear Hpre.
    eapply outcome_weaken; [by apply (add_entry_comp P HP fid st e ino s Hw)|].
    intros [] s' Hw'. exists (add_group (bp_size P) st e). split; [apply add_group_entries|done].
  - intros es ino s (st & <- & Hw) (Hok & _ & Hroom).
    assert (Hgs : Forall (group_ok (bp_size P)) (close_group st)) by (by apply close_group_ok, Hw).
    destruct (Hroom _ (close_group_entries st) Hgs) as [Hend Hfit].
    eapply outcome_weaken; [by apply (flush_comp P HP fid st ino s Hw)|]. intros [] s' (Hw' & Hc & _).
    assert (Hfits : comp_fits P (close_group st)).
    { split; [done|]. split; [|done]. split_and!; [by rewrite close_group_entries|done|done]. }
    split. { exists (close_group st, []). split; [|done]. unfold grouped at 1. cbn [fst snd]. by rewrite app_nil_r, close_group_entries. }
    exists (comp_stored P fid (close_group st) Hfid Hfits). split_and!; [apply close_group_entries|done|].
    intros c Hc0. destruct Hw as (_ & de & hs & fl & _ & _ & _ & _ & _ & _ & _ & _ & _ & Hd).
    etrans; [by eapply log_data_prefix|]. cbn [st_body comp_stored]. unfold comp_body.
    destruct st as [gs [|e g]]; unfold close_group; cbn [fst snd]; [done|].
    rewrite blocks_app, packed_app. by eexists.
Qed.

(** ** Adding only appends *)

(** The descriptor is at the end of a file that starts with [c]. *)
Definition extends (fd : Z) (ino : nat) (c : list Z) (o : os) : Prop :=
  ∃ rest, os_fds o !! fd = Some (ino, zlen (c ++ rest)) ∧ os_inodes o !! ino = Some (c ++ rest).

Lemma extends_write fd ino c bs : preserves (extends fd ino c) (sys_write fd bs).
Proof.
  assert (Hput : ∀ o bs, extends fd ino c o → ∀ off, os_fds o !! fd = Some (ino, off) →
    extends fd ino c (put_bytes fd ino off bs o)).
  { intros o b (rest & Hf & Hi) off Hoff. rewrite Hf in Hoff. injection Hoff as <-. exists (rest ++ b).
    unfold put_bytes. cbn. rewrite Hi, !lookup_insert_eq. cbn. rewrite splice_end, <- app_assoc. split; [|done].
    rewrite !length_app. do 2 f_equal. lia. }
  intros o Ho. pose proof Ho as (rest & Hf & _). unfold sys_write. rewrite Hf. unfold pop.
  destruct (os_sched o) as [|[| |] l]; cbn [fst snd]; try by apply Hput. exact Ho.
Qed.

Lemma add_appends {C : Codec} e ino s data c :
  log_data ino s data → os_inodes s.1 !! ino = Some c →
  ∃ rest, os_inodes (add_entry e s).2.1 !! ino = Some (c ++ rest).
Proof.
  intros [_ (c' & (Hf & _) & Hc' & _)] Hc. rewrite Hc' in Hc. injection Hc as ->.
  pose proof (keep_add_entry (extends (w_fd s.2) ino c) (λ fd, fd = w_fd s.2)
    ltac:(intros ? ? ->; apply extends_write) e s) as H.
  destruct H as (_ & rest & _ & Hi); [|by exists rest]. split; [done|]. exists []. by rewrite app_nil_r.
Qed.

(** ** The system *)

(** A writer and readers of the same log: what the writer has added and what of that
    it had added at its last flush, and for every open reader what was flushed when it opened. *)
Record beside : Type := Beside {
  b_os : os;
  b_writer : sparkey_logwriter;
  b_added : list entry;
  b_flushed : list entry;
  b_readers : list (sparkey_logreader * list entry)
}.

Section Beside.
Context {C : Codec} (filename : string) (fits : list entry → Prop).

(** Every call happens at once; the calls come in any order. *)
Inductive beside_step : beside → beside → Prop :=
| step_add e o w o' w' added flushed readers :
    fits (added ++ [e]) → add_entry e (o, w) = (Ok tt, (o', w')) →
    beside_step (Beside o w added flushed readers) (Beside o' w' (added ++ [e]) flushed readers)
| step_flush o w o' w' added flushed readers :
    sparkey_logwriter_flush (o, w) = (Ok tt, (o', w')) →
    beside_step (Beside o w added flushed readers) (Beside o' w' added added readers)
| step_open o w o' log added flushed readers :
    sparkey_logreader_open filename o = (Ok log, o') →
    beside_step (Beside o w added flushed readers) (Beside o' w added flushed ((log, flushed) :: readers))
| step_close o w o' log es r ref added flushed readers1 readers2 :
    sparkey_logreader_close (o, Some log) = (r, (o', ref)) →
    beside_step (Beside o w added flushed (readers1 ++ (log, es) :: readers2))
      (Beside o' w added flushed (readers1 ++ readers2)).

Context (I : list entry → nat → WS → Prop) {WI : WriterSession I fits}.

(** What an open reader has mapped is still in the file. *)
Definition reader_current (c : list Z) (flushed : list entry) (fd : Z) (r : sparkey_logreader * list entry) : Prop :=
  ∃ S, opened_log S r.1 ∧ st_entries S = r.2 ∧ r.2 `prefix_of` flushed ∧
    st_body S `prefix_of` drop (Z.to_nat LOG_HEADER_SIZE) c ∧ r_fd r.1 ≠ fd.

Definition consistent (b : beside) : Prop :=
  ∃ ino S rest, os_wf (b_os b) ∧ os_sched (b_os b) = [] ∧ os_names (b_os b) !! filename = Some ino ∧
    I (b_added b) ino (b_os b, b_writer b) ∧ fits (b_added b) ∧ b_flushed b `prefix_of` b_added b ∧
    os_inodes (b_os b) !! ino = Some (st_file S ++ rest) ∧ st_entries S = b_flushed b ∧
    Forall (reader_current (st_file S ++ rest) (b_flushed b) (w_fd (b_writer b))) (b_readers b).

Lemma body_of_file S rest :
  drop (Z.to_nat LOG_HEADER_SIZE) (st_file S ++ rest) = st_body S ++ rest.
Proof. unfold st_file. rewrite <- app_assoc. by apply drop_app_length'. Qed.

Lemma readers_grow c c' flushed flushed' fd fd' readers :
  Forall (reader_current c flushed fd) readers → flushed `prefix_of` flushed' → fd' = fd →
  drop (Z.to_nat LOG_HEADER_SIZE) c `prefix_of` drop (Z.to_nat LOG_HEADER_SIZE) c' →
  Forall (reader_current c' flushed' fd') readers.
Proof.
  intros Hr Hf -> Hc. eapply list.Forall_impl; [exact Hr|]. intros [log es] (S & Hlog & Hes & Hp & Hb & Hne).
  exists S. split_and!; try done; by etrans.
Qed.

Lemma wf_kept ino o w o' w' data data' :
  os_frame (w_fd w) ino o o' → w_fd w' = w_fd w → os_wf o → log_data ino (o, w) data → log_data ino (o', w') data' →
  os_wf o'.
Proof.
  intros Hfr Hfd Hwf [_ (c & (Hf & Hi & _) & _)] [_ (c' & _ & Hc' & _)]. pose proof Hwf as (_ & Hwi & Hwfd & _).
  eapply (os_frame_wf _ _ _ _ Hfr Hwf); [by exists c'|by apply Hwi|apply Hwfd; by eexists].
Qed.

Lemma add_consistent e o w o' w' added flushed readers :
  consistent (Beside o w added flushed readers) → fits (added ++ [e]) → add_entry e (o, w) = (Ok tt, (o', w')) →
  consistent (Beside o' w' (added ++ [e]) flushed readers).
Proof.
  intros (ino & S & rest & Hwf & Hs & Hn & Hi & _ & Hpre & Hc & HS & Hr) Hfits Hadd. cbn [b_os b_writer b_added b_flushed b_readers fst snd] in *.
  pose proof (session_add added e ino (o, w) Hi Hfits) as (Hfr & Hfd & Hres). destruct (session_data _ _ _ Hi) as [data Hd].
  destruct (add_appends e ino (o, w) data _ Hd Hc) as [more Hmore]. rewrite Hadd in *. cbn [fst snd] in *.
  destruct Hres as [([] & _ & Hi')|(x & ? & _)]; [|done]. destruct (session_data _ _ _ Hi') as [data' Hd'].
  exists ino, S, (rest ++ more). cbn [b_os b_writer b_added b_flushed b_readers]. split_and!; try done.
  - by eapply wf_kept.
  - by eapply frame_cooperative.
  - destruct Hfr as (Hnames & _). by rewrite Hnames.
  - by apply prefix_app_r.
  - by rewrite app_assoc.
  - eapply readers_grow; [exact Hr|done|done|]. rewrite !body_of_file, app_assoc. by eexists.
Qed.

Lemma flush_consistent o w o' w' added flushed readers :
  consistent (Beside o w added flushed readers) → sparkey_logwriter_flush (o, w) = (Ok tt, (o', w')) →
  consistent (Beside o' w' added added readers).
Proof.
  intros (ino & S & rest & Hwf & Hs & Hn & Hi & Hfits & Hpre & Hc & HS & Hr) Hflush. cbn [b_os b_writer b_added b_flushed b_readers fst snd] in *.
  pose proof (session_flush added ino (o, w) Hi Hfits) as (Hfr & Hfd & Hres). destruct (session_data _ _ _ Hi) as [data Hd].
  rewrite Hflush in *. cbn [fst snd] in *.
  destruct Hres as [([] & _ & Hi' & S' & HS' & Hc' & Hb)|(x & ? & _)]; [|done]. destruct (session_data _ _ _ Hi') as [data' Hd'].
  exists ino, S', []. cbn [b_os b_writer b_added b_flushed b_readers]. rewrite app_nil_r. split_and!; try done.
  - by eapply wf_kept.
  - by eapply frame_cooperative.
  - destruct Hfr as (Hnames & _). by rewrite Hnames.
  - eapply readers_grow; [exact Hr|done|done|]. rewrite <- (app_nil_r (st_file S')), (body_of_file S'), app_nil_r. by apply Hb.
Qed.

Lemma open_consistent o w o' log added flushed readers :
  consistent (Beside o w added flushed readers) → sparkey_logreader_open filename o = (Ok log, o') →
  consistent (Beside o' w added flushed ((log, flushed) :: readers)).
Proof.
  intros (ino & S & rest & Hwf & Hs & Hn & Hi & Hfits & Hpre & Hc & HS & Hr) Hopen. cbn [b_os b_writer b_added b_flushed b_readers fst snd] in *.
  assert (Hf : has_file o filename (st_file S ++ rest)).
  { exists ino. split_and!; try done. by apply wf_fresh_fd. }
  destruct (open_stored S o filename rest Hf Hwf)
    as (log' & o1 & _ & Hopen' & Hlog & Hfd & Hn1 & Hi1 & Hs1 & _ & Hwf1 & _ & Hdel).
  rewrite Hopen in Hopen'. injection Hopen' as <- <-.
  destruct (session_data _ _ _ Hi) as [data [_ (c & (Hwfd & _) & _)]]. cbn [fst snd] in Hwfd.
  assert (Hne : r_fd log ≠ w_fd w).
  { destruct Hwf as (_ & _ & Hlt & _). specialize (Hlt (w_fd w) ltac:(by eexists)). lia. }
  exists ino, S, rest. cbn [b_os b_writer b_added b_flushed b_readers]. rewrite Hn1, Hi1. split_and!; try done.
  - eapply session_elsewhere; [exact Hi| |by rewrite Hi1]. by rewrite <- Hdel, lookup_delete_ne.
  - constructor; [|done]. exists S. split_and!; try done. rewrite body_of_file. by eexists.
Qed.

Lemma close_consistent o w o' log es r ref added flushed readers1 readers2 :
  consistent (Beside o w added flushed (readers1 ++ (log, es) :: readers2)) →
  sparkey_logreader_close (o, Some log) = (r, (o', ref)) →
  consistent (Beside o' w added flushed (readers1 ++ readers2)).
Proof.
  intros (ino & S & rest & Hwf & Hs & Hn & Hi & Hfits & Hpre & Hc & HS & Hr) Hclose. cbn [b_os b_writer b_added b_flushed b_readers fst snd] in *.
  apply Forall_app in Hr as [Hr1 [Hlog Hr2]%Forall_cons]. destruct Hlog as (S' & (Hst & _) & _ & _ & _ & Hne). cbn [b_os b_writer b_added b_flushed b_readers fst snd] in *.
  assert (Ho : o' = o ∨ o' = set_fds (delete (r_fd log) (os_fds o)) o).
  { unfold sparkey_logreader_close, sparkey_logreader_close_nodealloc in Hclose. rewrite bind_get_snd in Hclose.
    cbn [snd] in Hclose. rewrite decide_False in Hclose by tauto.
    unfold on_os, zoom, sys_close, mbind, M_bind in Hclose. cbn [fst snd] in Hclose.
    destruct (os_fds o !! r_fd log); cbn in Hclose; injection Hclose as <- <- <-; [by right|by left]. }
  exists ino, S, rest. cbn [b_os b_writer b_added b_flushed b_readers]. destruct Ho as [->| ->]; (split_and!; try done; [..|by apply Forall_app]).
  - by apply closed_wf.
  - eapply session_elsewhere; [exact Hi| |done]. cbn. by rewrite lookup_delete_ne.
Qed.

Lemma beside_consistent b b' : consistent b → rtc beside_step b b' → consistent b'.
Proof.
  intros Hb Hrun. induction Hrun as [|b b1 b' Hstep _ IH]; [done|]. apply IH. destruct Hstep.
  - by eapply add_consistent.
  - by eapply flush_consistent.
  - by eapply open_consistent.
  - by eapply close_consistent.
Qed.

End Beside.

(** ** The beginning *)

(** What fits into a log with these options. *)
Inductive room {C : Codec} (t bs : Z) : (list entry → Prop) → Prop :=
| room_plain : t = SPARKEY_COMPRESSION_NONE → room t bs log_ok
| room_comp P : t = bp_type P → bs = bp_size P → params_ok P → room t bs (comp_room P).

Lemma comp_room_nil {C : Codec} P : comp_room P [].
Proof.
  split; [by split; [constructor|]|]. split; [constructor|]. intros gs Hgs Hok.
  assert (gs = []) as ->.
  { destruct Hok as [|g gs (l & e & -> & _) _]; [done|]. cbn in Hgs. by destruct l. }
  by split.
Qed.

Lemma created_consistent {C : Codec} filename t bs fits o w o' :
  os_sched o = [] → os_wf o → (4 ≤ length (os_entropy o))%nat → bytes_ok (os_entropy o) →
  room t bs fits → sparkey_logwriter_create filename t bs o = (Ok w, o') →
  ∃ I, WriterSession I fits ∧ consistent filename fits I (Beside o' w [] [] []).
Proof.
  intros Hs Hwf He Hb Hroom Hcreate. pose proof (seed_range o Hb) as Hfid.
  assert (Hstart : ∀ I S, I [] (os_next_inode o) (o', w) → st_entries S = [] → fits [] →
    os_frame (os_next_fd o) (os_next_inode o) (set_entropy (drop 4 (os_entropy o)) (created filename (removed filename o))) o' →
    os_inodes o' !! os_next_inode o = Some (st_file S) → consistent filename fits I (Beside o' w [] [] [])).
  { intros I S HI HS Hfits Hfr Hc. exists (os_next_inode o), S, []. rewrite app_nil_r.
    cbn [b_os b_writer b_added b_flushed b_readers]. split_and!; try done.
    - eapply (os_frame_wf _ _ _ _ Hfr); [|by eexists|cbn; lia..]. apply entropy_wf, created_wf. by apply removed_wf.
    - by eapply frame_cooperative.
    - destruct Hfr as (-> & _). apply lookup_insert_eq. }
  destruct Hroom as [->|P -> -> HP].
  - destruct (writer_create_spec filename bs o Hs Hwf He) as (o1 & w1 & Hc & Hinv & _ & Hfr & Hfile).
    rewrite Hcreate in Hc. injection Hc as <- <-. assert (Hok : log_ok []) by (by split; [constructor|]).
    exists (writer_inv (seed_of o)). split; [by apply plain_writer_session|].
    by apply (Hstart _ (plain_stored (seed_of o) [] Hfid Hok)).
  - destruct (writer_create_comp P HP filename o Hs Hwf He) as (o1 & w1 & Hc & Hinv & _ & Hfr & Hfile).
    rewrite Hcreate in Hc. injection Hc as <- <-. pose proof (comp_room_nil P) as Hnil.
    assert (Hfits : comp_fits P []).
    { destruct Hnil as (Hok & _ & Hr). destruct (Hr [] eq_refl ltac:(constructor)) as [Hend Hcnt].
      split; [done|]. split; [|done]. by split_and!. }
    exists (comp_inv P (seed_of o)). split; [by apply comp_writer_session|].
    apply (Hstart _ (comp_stored P (seed_of o) [] Hfid Hfits)); try done. by exists ([], []).
Qed.

(** ** Property *)


