(* ===== verification/Crash.v ===== *)
(** * A flush that dies

    A flush appends the buffered entries and then writes the header over the old one, field by
    field, each with a write of its own.  What is in the file when the environment
    stops the flush at any of these writes, and what whoever opens the log then sees; a
    reader that opens while a flush is at work finds the same files. *)

From stdpp Require Import base gmap list strings numbers.
From Stdlib Require Import ZArith Lia.
From S2P Require Import Prelude ReturnCodes Endian OS LogHeader Buf Compress LogFormat LogWriter Cooperation.
From S2P Require Import LogReader LogCursor PlainLog StoredLog LogProps Readers.

Local Open Scope Z_scope.

(** ** Writes that happen whole or not at all *)

Definition whole (x : OS.outcome) : Prop := match x with Short _ => False | _ => True end.

(** Some of the pieces were written, each in one call. *)
Definition wrote_pieces (fd : Z) (ino : nat) (off : Z) (pieces : list (list Z)) (o : os)
    (r : res returncode unit) (o' : os) : Prop :=
  ∃ k s, (k ≤ length pieces)%nat ∧ suffix s (os_sched o) ∧
    o' = set_sched s (put_bytes fd ino off (concat (take k pieces)) o) ∧
    ((r = Ok tt ∧ k = length pieces) ∨ ∃ e, r = Err e).

Definition writes_pieces (fd : Z) (m : MC os unit) (pieces : list (list Z)) : Prop :=
  ∀ o ino off, fd_open o fd ino off → Forall whole (os_sched o) →
    let '(r, o') := m o in wrote_pieces fd ino off pieces o r o'.

Lemma whole_loop fuel fd ino off buf o :
  fd_open o fd ino off → Forall whole (os_sched o) → (S (length (os_sched o)) < fuel)%nat →
  let '(r, o') := _write_full_loop fuel fd buf o in wrote_pieces fd ino off [buf] o r o'.
Proof.
  revert o. induction fuel as [|fuel IH]; intros o Hopen Hw Hfuel; [lia|]. pose proof Hopen as (Hfd & _).
  assert (Hall : ∀ s, suffix s (os_sched o) →
    wrote_pieces fd ino off [buf] o (Ok tt) (set_sched s (put_bytes fd ino off buf o))).
  { intros s Hs. exists 1%nat, s. cbn [take concat]. rewrite app_nil_r. split_and!; [cbn; lia|done|done|by left]. }
  cbn [_write_full_loop]. case_decide as Hpos.
  2:{ destruct buf; [|cbn in Hpos; lia]. specialize (Hall (os_sched o) ltac:(done)).
      by rewrite put_bytes_nil, set_sched_same in Hall. }
  destruct fuel as [|fuel]; [lia|].
  unfold mbind, M_bind, sys_write, pop. rewrite Hfd. destruct (os_sched o) as [|x sch] eqn:Hs.
  { cbn [_write_full_loop]. rewrite Nat2Z.id, drop_all, decide_False by (cbn; lia). specialize (Hall [] (suffix_nil _)).
    by rewrite <- Hs, (set_sched_same (put_bytes _ _ _ _ o)) in Hall. }
  assert (Hsuf : suffix sch (x :: sch)) by by apply suffix_cons_r.
  assert (Hnone : ∀ e, wrote_pieces fd ino off [buf] o (Err e) (set_sched sch o)).
  { intros e. exists 0%nat, sch. cbn [take concat]. rewrite put_bytes_nil, Hs by done. split_and!; [lia|done|done|right; by exists e]. }
  assert (Hagain : let '(r, o') := _write_full_loop (S fuel) fd buf (set_sched sch o) in wrote_pieces fd ino off [buf] o r o').
  { specialize (IH (set_sched sch o) ltac:(by apply set_sched_open) ltac:(by inversion Hw) ltac:(cbn in *; lia)).
    destruct (_write_full_loop (S fuel) fd buf (set_sched sch o)) as [r o'].
    destruct IH as (k & s & Hk & Hss & -> & Hr). exists k, s. rewrite Hs. split_and!; [done| |done|done].
    etrans; [exact Hss|exact Hsuf]. }
  destruct x as [|e|n]; [| |by inversion Hw].
  - cbn [_write_full_loop]. rewrite Nat2Z.id, drop_all, decide_False by (cbn; lia). by apply Hall.
  - destruct e; first [exact Hagain|apply Hnone].
Qed.

Lemma pieces_full fd bs : zlen bs < block_size → writes_pieces fd (write_full fd bs) [bs].
Proof.
  intros Hl o ino off Hopen Hw. unfold write_full. rewrite Z.div_small by lia.
  change (Z.to_nat 0) with 0%nat. cbn [write_full_blocks]. rewrite Z.mod_small, take_ge by lia.
  unfold _write_full. apply whole_loop; [done|done|lia].
Qed.

Lemma pieces_bind fd (m : MC os unit) (k : unit → MC os unit) a rest :
  writes_pieces fd m [a] → writes_pieces fd (k tt) rest → writes_pieces fd (m ≫= k) (a :: rest).
Proof.
  intros Hm Hk o ino off Hopen Hw. specialize (Hm o ino off Hopen Hw). unfold mbind, M_bind.
  destruct (m o) as [r o1]. destruct Hm as (j & s & Hj & Hs & -> & [[-> ->]|[e ->]]); cbn [length] in Hj.
  - cbn [take concat length]. rewrite app_nil_r. set (o1 := set_sched s _).
    assert (Hopen1 : fd_open o1 fd ino (off + zlen a)) by by apply set_sched_open, put_bytes_open.
    assert (Hw1 : Forall whole (os_sched o1)) by (destruct Hs as [l Hl]; rewrite Hl in Hw; by apply Forall_app in Hw as [_ Hw]).
    specialize (Hk o1 ino _ Hopen1 Hw1). destruct (k tt o1) as [r2 o2].
    destruct Hk as (i & s2 & Hi & Hs2 & -> & Hr). exists (S i), s2. cbn [take concat length].
    split; [lia|]. split; [by etrans|]. split.
    + destruct Hopen as (_ & _ & Hoff). unfold o1. rewrite <- (put_bytes_app fd ino off) by done. done.
    + destruct Hr as [[-> ->]|Hr]; [by left|by right].
  - exists j, s. split; [cbn; lia|]. split; [done|]. split; [|right; by exists e].
    destruct j as [|[|j]]; [done|done|lia].
Qed.

Lemma pieces_ret fd : writes_pieces fd (mret tt) [].
Proof.
  intros o ino off Hopen Hw. exists 0%nat, (os_sched o). cbn [take concat].
  rewrite put_bytes_nil, set_sched_same by done. split_and!; [done|done|done|by left].
Qed.

(** ** Torn headers *)

(** What write_logheader writes, call by call. *)
Definition logheader_fields (h : sparkey_logheader) : list (list Z) := [
  write_little_endian32 LOG_MAGIC_NUMBER; write_little_endian32 LOG_MAJOR_VERSION;
  write_little_endian32 LOG_MINOR_VERSION; write_little_endian32 (lh_file_identifier h);
  write_little_endian64 (lh_num_puts h); write_little_endian64 (lh_num_deletes h);
  write_little_endian64 (lh_data_end h); write_little_endian64 (lh_max_key_len h);
  write_little_endian64 (lh_max_value_len h); write_little_endian64 (lh_delete_size h);
  write_little_endian32 (lh_compression_type h); write_little_endian32 (lh_compression_block_size h);
  write_little_endian64 (lh_put_size h); write_little_endian32 (lh_max_entries_per_block h) ].

Lemma pieces_logheader fd h : writes_pieces fd (write_logheader fd h) (logheader_fields h).
Proof.
  unfold write_logheader, logheader_fields, fwrite_little_endian32, fwrite_little_endian64.
  repeat (apply pieces_bind; [by apply pieces_full|]). apply pieces_ret.
Qed.

(** The first [k] fields are those of [h], the others those of the header that was there. *)
Definition torn (k : nat) (h old : sparkey_logheader) : sparkey_logheader :=
  let pick i (f : sparkey_logheader → Z) := if decide (i < k)%nat then f h else f old in
  LogHeader LOG_MAJOR_VERSION LOG_MINOR_VERSION (pick 3%nat lh_file_identifier) (pick 4%nat lh_num_puts)
    (pick 5%nat lh_num_deletes) (pick 6%nat lh_data_end) (pick 7%nat lh_max_key_len) (pick 8%nat lh_max_value_len)
    (pick 9%nat lh_delete_size) (pick 10%nat lh_compression_type) (pick 11%nat lh_compression_block_size)
    (pick 12%nat lh_put_size) LOG_HEADER_SIZE (pick 13%nat lh_max_entries_per_block).

Lemma torn_bytes k h old rest :
  (k ≤ 14)%nat →
  splice (logheader_bytes old ++ rest) 0 (concat (take k (logheader_fields h))) = logheader_bytes (torn k h old) ++ rest.
Proof. intros Hk. rewrite splice_start. do 15 (destruct k as [|k]; [reflexivity|]). lia. Qed.

(** Writing the header over the old one, whatever happens on the way. *)
Lemma rewrite_header_torn fd ino h old rest o off :
  fd_open o fd ino off → os_inodes o !! ino = Some (logheader_bytes old ++ rest) → Forall whole (os_sched o) →
  let '(r, o') := (_ ← sys_lseek_set fd 0; _ ← write_logheader fd h; _ ← sys_lseek_set fd off; mret tt) o in
  ∃ k, (k ≤ 14)%nat ∧ os_inodes o' !! ino = Some (logheader_bytes (torn k h old) ++ rest).
Proof.
  intros Hopen Hc Hw. rewrite (bind_Ok _ _ _ _ _ (sys_lseek_set_run fd ino off 0 o Hopen)).
  assert (Hopen0 : fd_open (at_off fd ino 0 o) fd ino 0) by (eapply at_off_open; [done|lia]).
  pose proof (pieces_logheader fd h _ _ _ Hopen0 Hw) as Hp. unfold mbind at 1, M_bind at 1.
  destruct (write_logheader fd h (at_off fd ino 0 o)) as [r o1]. destruct Hp as (k & sch & Hk & _ & -> & Hr).
  set (o1 := set_sched sch _). cbn [logheader_fields length] in Hk.
  assert (Hc1 : os_inodes o1 !! ino = Some (logheader_bytes (torn k h old) ++ rest)).
  { unfold o1. cbn [os_inodes set_sched put_bytes at_off set_fds set_inodes]. rewrite lookup_insert_eq, Hc.
    cbn [from_option id]. by rewrite torn_bytes. }
  destruct Hr as [[-> _]|[e ->]]; [|by exists k].
  unfold mbind, M_bind, sys_lseek_set. by destruct (os_fds o1 !! fd) as [[? ?]|]; exists k.
Qed.

(** ** The file after a flush *)

(** Either nothing happened to the header, and bytes were appended; or all data is in
    the file, and some of the fields of the header are new. *)
Definition flush_leaves (old h : sparkey_logheader) (rest data c : list Z) : Prop :=
  (∃ more, c = logheader_bytes old ++ rest ++ more) ∨
  ∃ k, (k ≤ 14)%nat ∧ c = logheader_bytes (torn k h old) ++ data.

Lemma flush_file_torn {C : Codec} ino s data old rest :
  log_data ino s data → LOG_HEADER_SIZE + zlen data < 2 ^ 62 → Forall whole (os_sched s.1) →
  os_inodes s.1 !! ino = Some (logheader_bytes old ++ rest) →
  ∃ c, os_inodes (flush_file s).2.1 !! ino = Some c ∧
    flush_leaves old (set_lh_data_end (LOG_HEADER_SIZE + zlen data) (w_header s.2)) rest data c.
Proof.
  intros Hd Hmax Hw Hc. unfold flush_file, get_writer. rewrite bind_get_snd.
  pose proof (flush_file_buf ino data s Hd) as Hf.
  assert (Hext : ∃ more, os_inodes ((if decide (buf_used (w_file_buf s.2) > 0)
    then on_file_buf (buf_flushfile (w_fd s.2)) else mret tt) s).2.1 !! ino = Some ((logheader_bytes old ++ rest) ++ more)).
  { pose proof Hd as [_ (c' & (Hfd & _) & Hc' & _)]. assert (c' = logheader_bytes old ++ rest) as -> by congruence.
    assert (Hs : extends (w_fd s.2) ino (logheader_bytes old ++ rest) s.1) by (exists []; by rewrite app_nil_r).
    case_decide; [|exists []; by rewrite app_nil_r].
    pose proof (keep_on_file_buf (extends (w_fd s.2) ino (logheader_bytes old ++ rest)) (λ fd, fd = w_fd s.2)
      (buf_flushfile (w_fd s.2))) as Hkeep.
    destruct (Hkeep ltac:(apply (keep_buf_flushfile _ (λ fd, fd = w_fd s.2)); [intros ? ? ->; apply extends_write|done]) s
      (conj eq_refl Hs)) as (_ & more & _ & Hi). by exists more. }
  set (first := if decide _ then _ else _) in *. unfold mbind at 1, M_bind at 1.
  destruct (first s) as [r s1]. destruct Hext as [more Hc1]. cbn [snd] in Hc1.
  destruct Hf as [[[b Hb] Hfr] [(-> & Hd1 & Hu)|(e & -> & _)]].
  2:{ eexists. split; [exact Hc1|]. left. exists more. by rewrite app_assoc. }
  destruct s1 as [o1 w1]. cbn [fst snd] in *. pose proof Hd1 as [_ (c & Hopen & Hcc & _ & Hdata)]. cbn [fst snd] in *.
  assert (c = (logheader_bytes old ++ rest) ++ more) as -> by congruence. rewrite Hu, app_nil_r, <- app_assoc, drop_app_length' in Hdata by done.
  rewrite bind_on_os, (sys_lseek_cur_run _ ino (zlen ((logheader_bytes old ++ rest) ++ more)))
    by (subst w1; exact Hopen).
  unfold upd_writer. rewrite bind_on_snd, bind_get_snd. cbn [fst snd].
  rewrite <- app_assoc, Hdata in *. set (c := logheader_bytes old ++ data) in *.
  assert (Hz : zlen c = LOG_HEADER_SIZE + zlen data)
    by (unfold c; rewrite length_app, Nat2Z.inj_add, logheader_bytes_length; done).
  rewrite Hz, u64_id by (unfold LOG_HEADER_SIZE in *; lia). rewrite on_os_run. cbn [w_fd w_header set_w_header].
  assert (Hw1 : Forall whole (os_sched o1)).
  { destruct Hfr as (_ & [l Hl] & _). rewrite Hl in Hw. by apply Forall_app in Hw as [_ Hw]. }
  pose proof (rewrite_header_torn (w_fd w1) ino (set_lh_data_end (LOG_HEADER_SIZE + zlen data) (w_header w1)) old data o1 _
    Hopen Hc1 Hw1) as Ht. rewrite Hz in Ht.
  destruct ((_ ← sys_lseek_set (w_fd w1) 0; _) o1) as [r o2]. cbn [fst snd]. destruct Ht as (k & Hk & Hck).
  eexists. split; [exact Hck|]. right. exists k. split; [done|]. by subst w1.
Qed.

(** ** Opening what a flush left *)

Lemma load_corrupt {C : Codec} o filename h rest fuel :
  has_file o filename (logheader_bytes h ++ rest) → logheader_typed h → lh_header_size h = LOG_HEADER_SIZE →
  lh_major_version h = LOG_MAJOR_VERSION → lh_minor_version h = LOG_MINOR_VERSION → ¬ logheader_valid h →
  (read_log fuel filename o).1 = Err SPARKEY_LOG_HEADER_CORRUPT.
Proof.
  intros Hf Ht Hs Hmaj Hmin Hv.
  assert (Hsched : os_sched o = []) by (destruct Hf as (? & _ & _ & ? & _); done).
  assert (Hload : sparkey_load_logheader filename o = (Err SPARKEY_LOG_HEADER_CORRUPT, opened o)).
  { unfold logheader_bytes in Hf. rewrite <- Hmaj, <- Hmin, <- !app_assoc in Hf.
    rewrite (load_logheader_run _ _ _ _ _ Hf); try done; [|by rewrite Hmaj|by rewrite Hmin].
    unfold load_logheader_result. rewrite Hmaj, Hmin, !decide_False by (tauto || done).
    by rewrite (proj2 (logheader_checks_valid h Hmaj Hmin Hs) Hv). }
  unfold read_log, mbind, M_bind, sparkey_logreader_open. rewrite decide_False by tauto.
  erewrite bind_Ok; [|by apply sys_malloc_run]. cbn [negb].
  unfold sparkey_logreader_open_noalloc, mbind, M_bind. by rewrite Hload.
Qed.

Section Torn.
Context {C : Codec} (fid : Z) (es es' : list entry) (Hfid : 0 ≤ fid < 2 ^ 32) (Hok : log_ok (es ++ es')).
Local Abbreviation header es := (log_header fid es (log_end es) LOG_HEADER_SIZE).

Lemma torn_typed k : logheader_typed (torn k (header (es ++ es')) (header es)).
Proof using Hfid Hok.
  pose proof (log_header_typed fid _ Hfid Hok) as H1.
  pose proof (log_header_typed fid es Hfid ltac:(by eapply log_ok_app)) as H2.
  unfold logheader_typed in *. unfold torn.
  cbn [lh_file_identifier lh_num_puts lh_num_deletes lh_data_end lh_max_key_len lh_max_value_len lh_delete_size
    lh_compression_type lh_compression_block_size lh_put_size lh_max_entries_per_block] in *.
  split_and!; case_decide; lia.
Qed.

(** Only the counters of puts and deletes can make a torn header inconsistent. *)
Lemma torn_valid k :
  (7 ≤ k)%nat ∨ (zlen (puts_of (es ++ es')) ≤ log_end es ∧ zlen (deletes_of (es ++ es')) ≤ log_end es) →
  logheader_valid (torn k (header (es ++ es')) (header es)).
Proof using Hok.
  intros Hk. pose proof (log_header_valid fid _ Hok) as H1.
  pose proof (log_header_valid fid es ltac:(by eapply log_ok_app)) as H2.
  unfold logheader_valid in *. unfold torn.
  cbn [lh_major_version lh_minor_version lh_header_size lh_num_puts lh_num_deletes lh_data_end lh_compression_type log_header] in *.
  split_and!; try done; repeat case_decide; lia.
Qed.

Lemma torn_plain k :
  plain_header (if decide (k ≤ 6)%nat then es else es ++ es') (torn k (header (es ++ es')) (header es)).
Proof. split; [done|]. split; [|unfold torn; cbn; by case_decide]. unfold torn. cbn. repeat case_decide; (done || lia). Qed.

(** What is read from a file with a torn header and all of the data. *)
Lemma read_torn k o filename fuel :
  has_file o filename (logheader_bytes (torn k (header (es ++ es')) (header es)) ++ log_body (es ++ es')) → os_wf o →
  (length (es ++ es') < fuel)%nat →
  (read_log fuel filename o).1 =
    if decide (logheader_valid (torn k (header (es ++ es')) (header es)))
    then Ok (if decide (k ≤ 6)%nat then es else es ++ es') else Err SPARKEY_LOG_HEADER_CORRUPT.
Proof using Hfid Hok.
  intros Hf Hwf Hfuel. pose proof (torn_typed k) as Ht. pose proof (torn_plain k) as Hplain.
  set (h := torn k _ _) in *. destruct (decide (logheader_valid h)) as [Hv|Hv]; [|by eapply load_corrupt].
  set (seen := if decide (k ≤ 6)%nat then es else es ++ es') in *.
  assert (Hseen : ∃ more, es ++ es' = seen ++ more).
  { unfold seen. case_decide; [by exists es'|exists []; by rewrite app_nil_r]. }
  destruct Hseen as [more Hseen]. rewrite Hseen, log_body_app in Hf.
  eapply read_log_run; [rewrite app_assoc in Hf; exact Hf|done|done|done|apply Hplain| |].
  - intros log Hlog. apply (plain_cursor h seen log Hplain Hlog). rewrite Hseen in Hok. by eapply log_ok_app.
  - rewrite Hseen, length_app in Hfuel. lia.
Qed.

End Torn.

(** ** Properties *)

(** C15. A flush of an uncompressed log that dies between two of its writes, each of which
    was done as a whole or not at all, loses nothing that was flushed before and shows
    nothing that was not added: whoever opens the log afterwards sees the entries of the
    last flush or all that were added, or is refused because of the header; it is refused
    only if more puts or deletes were added than the log had bytes at the last flush. A
    flush that succeeds shows all entries. (A write that is itself cut short can lose
    flushed entries: flush_cut_loses.) *)
Theorem flush_crash_safe {C : Codec} fid es es' ino o w filename rest fuel :
  0 ≤ fid < 2 ^ 32 → writer_inv fid (es ++ es') ino (o, w) → log_ok (es ++ es') → os_wf o →
  os_names o !! filename = Some ino → os_inodes o !! ino = Some (log_file fid es ++ rest) →
  Forall whole (os_sched o) → (length (es ++ es') < fuel)%nat →
  let '(r, (o', _)) := sparkey_logwriter_flush (o, w) in
  let seen := (read_log fuel filename (set_sched [] o')).1 in
  (seen = Ok es ∨ seen = Ok (es ++ es') ∨
   seen = Err SPARKEY_LOG_HEADER_CORRUPT ∧
     (log_end es < zlen (puts_of (es ++ es')) ∨ log_end es < zlen (deletes_of (es ++ es')))) ∧
  (r = Ok tt → seen = Ok (es ++ es')).
Proof.
  intros Hfid Hinv Hok Hwf Hn Hc Hw Hfuel. pose proof (log_ok_app _ _ Hok) as Hok1.
  pose proof (writer_flush_spec fid _ ino (o, w) Hinv Hok) as Hspec.
  pose proof Hinv as (Hop & Hbb & (de & hs & Hh) & Hd). cbn [fst snd] in *.
  assert (Hfile : ∃ c, os_inodes (sparkey_logwriter_flush (o, w)).2.1 !! ino = Some c ∧
    flush_leaves (log_header fid es (log_end es) LOG_HEADER_SIZE)
      (log_header fid (es ++ es') (log_end (es ++ es')) LOG_HEADER_SIZE) (log_body es ++ rest) (log_body (es ++ es')) c).
  { unfold sparkey_logwriter_flush, get_writer. rewrite bind_assert_writer_open, bind_get_snd by done.
    cbn [snd]. rewrite Hbb, decide_False, bind_ret by done. unfold log_file in Hc. rewrite <- app_assoc in Hc.
    destruct (flush_file_torn ino (o, w) _ _ _ Hd (proj2 Hok) Hw Hc) as (c & Hcc & Hl). exists c. split; [done|].
    cbn [snd] in Hl. rewrite Hh in Hl. exact Hl. }
  destruct (sparkey_logwriter_flush (o, w)) as [r [o' w']]. cbn [fst snd] in *.
  destruct Hfile as (c & Hcc & Hl), Hspec as (Hfr & _ & Hres).
  assert (Hwf' : os_wf (set_sched [] o')).
  { pose proof Hwf as (_ & Hwi & Hwfd & _). destruct Hd as [_ (c0 & (Hfd & _) & Hc0 & _)]. cbn [fst snd] in *.
    exact (os_frame_wf _ _ _ _ Hfr Hwf ltac:(by eexists) ltac:(apply Hwi; by eexists) ltac:(apply Hwfd; by eexists)). }
  assert (Hf : has_file (set_sched [] o') filename c).
  { exists ino. destruct Hfr as (Hnames & _). split_and!; [by cbn; rewrite Hnames|done|done|by apply wf_fresh_fd]. }
  split.
  - destruct Hl as [[more ->]|(k & _ & ->)].
    + left. rewrite !app_assoc in Hf. rewrite <- (app_assoc _ rest) in Hf. by apply (read_log_spec _ _ fid es (rest ++ more));
        [|done|done|done|rewrite length_app in Hfuel; lia].
    + rewrite (read_torn fid es es' Hfid Hok k _ _ _ Hf Hwf' Hfuel). case_decide as Hv; [case_decide; tauto|].
      do 2 right. split; [done|]. destruct (decide (log_end es < zlen (puts_of (es ++ es')))) as [Hp|Hp]; [by left|right].
      apply Z.nle_gt. intros Hq. apply Hv, torn_valid; [done|]. right. lia.
  - intros ->. destruct Hres as [(_ & _ & Hdisk & _)|(x & ? & _)]; [|done]. cbn [fst] in Hdisk.
    assert (c = log_file fid (es ++ es')) as -> by congruence.
    apply (read_log_spec _ _ fid (es ++ es') []); [by rewrite app_nil_r|done..].
Qed.

(** A writer that has added [es] to an empty log, and a disk that is full after some
    writes: one for the entries and the others for fields of the header. *)
Example os_filling (writes : nat) : os :=
  OS {[ 0%nat := log_file 7 [] ]} {[ "a.spl"%string := 0%nat ]} {[ 3 := (0%nat, 84) ]} 1 4
    (replicate writes Normal ++ [Fails ENOSPC]) [].
Example writer_filling (es : list entry) : sparkey_logwriter :=
  LogWriter MAGIC_VALUE_LOGWRITER (log_header 7 es 84 0) 3 (Buf 0 []) 0 false (Buf 1048576 (log_body es)) false 0.

Lemma os_filling_wf n : os_wf (os_filling n).
Proof.
  split_and!; cbn [os_filling os_names os_inodes os_fds os_next_inode os_next_fd]; [| | |lia].
  - intros m i [_ <-]%lookup_singleton_Some. rewrite lookup_singleton_eq. by eexists.
  - intros i [x [<- _]%lookup_singleton_Some]. lia.
  - intros fd [x [<- _]%lookup_singleton_Some]. lia.
Qed.

Lemma flush_crash_safe_witness :
  let '(_, (o', _)) := sparkey_logwriter_flush (C := identity_codec) (os_filling 7, writer_filling es_example) in
  (read_log (C := identity_codec) 9 "a.spl" (set_sched [] o')).1 = Ok [] ∨
  (read_log (C := identity_codec) 9 "a.spl" (set_sched [] o')).1 = Ok es_example.
Proof.
  pose proof (flush_crash_safe (C := identity_codec) 7 [] es_example 0%nat (os_filling 7) (writer_filling es_example) "a.spl" [] 9) as H.
  destruct (sparkey_logwriter_flush _) as [r [o' w']].
  destruct H as [[H|[H|[_ H]]] _].
  - lia.
  - split_and!; [done|done|by exists 84, 0|]. split; [by split|].
    exists (log_file 7 []). split_and!; [|done|done|done]. split_and!; [done|by eexists|done].
  - apply es_example_ok.
  - apply os_filling_wf.
  - done.
  - done.
  - by repeat constructor.
  - cbn; lia.
  - by left.
  - by right.
  - by destruct H.
Defined.

(** Such a disk can make the log unreadable: here the new number of deletes was
    written and the new end of the data was not. *)
Lemma flush_crash_refused :
  let '(r, (o', _)) := sparkey_logwriter_flush (C := identity_codec) (os_filling 7, writer_filling (replicate 85 (Delete []))) in
  r = Err SPARKEY_OUT_OF_DISK ∧
  (read_log (C := identity_codec) 99 "a.spl" (set_sched [] o')).1 = Err SPARKEY_LOG_HEADER_CORRUPT.
Proof. vm_compute. done. Qed.

(** A write that is cut short can lose entries of the last flush: the end of the data goes
    from 258 to 512, and only the low byte was written, so the log seems to end at 256. *)
Example os_cut (es : list entry) : os :=
  OS {[ 0%nat := log_file 7 es ]} {[ "a.spl"%string := 0%nat ]} {[ 3 := (0%nat, log_end es) ]} 1 4
    (replicate 7 Normal ++ [Short 1; Fails ENOSPC]) [].
Example writer_adding (es es' : list entry) : sparkey_logwriter :=
  LogWriter MAGIC_VALUE_LOGWRITER (log_header 7 (es ++ es') (log_end es) 0) 3 (Buf 0 []) 0 false
    (Buf 1048576 (log_body es')) false 0.

Lemma flush_cut_loses :
  let es := [Put [] (replicate 169 0); Put [] []] in
  let '(r, (o', _)) :=
    sparkey_logwriter_flush (C := identity_codec) (os_cut es, writer_adding es [Put [] (replicate 251 0)]) in
  (read_log (C := identity_codec) 9 "a.spl" (set_sched [] (os_cut es))).1 = Ok es ∧
  r = Err SPARKEY_OUT_OF_DISK ∧
  (read_log (C := identity_codec) 9 "a.spl" (set_sched [] o')).1 = Ok [Put [] (replicate 169 0)].
Proof. vm_compute. done. Qed.

(** Or it leaves a log with all its entries and the old lengths of the longest key and value, which
    clients take for the sizes of their buffers. *)
Lemma flush_crash_maxima :
  let '(_, (o', _)) := sparkey_logwriter_flush (C := identity_codec) (os_filling 8, writer_filling es_example) in
  (read_log (C := identity_codec) 9 "a.spl" (set_sched [] o')).1 = Ok es_example ∧
  ∃ log, (sparkey_logreader_open "a.spl" (set_sched [] o')).1 = Ok log ∧
    sparkey_logreader_maxkeylen log = 0 ∧ sparkey_logreader_maxvaluelen log = 0.
Proof. vm_compute. split; [done|]. by eexists. Qed.
