(* ===== verification/HashReader.v ===== *)
(** * Reading the index (hashreader.c)

    Opening an index with its log, looking up a key, iterating over the live
    entries, closing.  A lookup and an iteration are proved against the
    specification of an index and the interface of log iterators. *)

From stdpp Require Import base gmap list strings numbers.
From Stdlib Require Import ZArith Lia.
From S2P Require Import Prelude ReturnCodes Endian OS LogHeader HashAlg HashHeader Buf.
From S2P Require Import Compress LogFormat LogWriter LogReader LogCursor RobinHood HashTable.
From S2P Require Import TableBytes TableRefine HashWriter IndexFile.

Local Open Scope Z_scope.

(** ** Definitions *)

Definition MAGIC_VALUE_HASHREADER : Z := 0x75103df9.

(** [data] is [None] when the pointer is NULL. *)
Record sparkey_hashreader : Type := HashReader {
  hr_open_status : Z;
  hr_header : sparkey_hashheader;
  hr_log : sparkey_logreader;
  hr_fd : Z;
  hr_data_len : Z;
  hr_data : option (list Z)
}.

(** The label [close_reader]: the log is closed; the reader was never marked open,
    so a descriptor of the index stays open. *)
Definition closing_log {A} (log : sparkey_logreader) (m : MC os A) : MC os A := λ o,
  match m o with
  | (Err e, o) => (Err e, (sparkey_logreader_close_nodealloc (o, log)).2.1)
  | r => r
  end.

(** The checks of the header of the index against that of the log, and the mapping. *)
Definition open_index (hash_filename : string) (header : sparkey_hashheader)
    (log : sparkey_logreader) : MC os sparkey_hashreader :=
  closing_log log
    (if decide (hh_file_identifier header ≠ lh_file_identifier (r_header log))
     then fail SPARKEY_FILE_IDENTIFIER_MISMATCH else
     if decide (hh_data_end header > lh_data_end (r_header log))
     then fail SPARKEY_HASH_HEADER_CORRUPT else
     if decide (hh_max_key_len header > lh_max_key_len (r_header log))
     then fail SPARKEY_HASH_HEADER_CORRUPT else
     if decide (hh_max_value_len header > lh_max_value_len (r_header log))
     then fail SPARKEY_HASH_HEADER_CORRUPT else
     r ← sys_open hash_filename;
     match r with
     | inl e => fail (sparkey_open_returncode e)
     | inr fd =>
         let data_len := u64 (hh_header_size header +
           u64 (hh_hash_capacity header * u32 (hh_hash_size header + hh_address_size header))) in
         st ← sys_stat_size hash_filename;
         st_size ← of_opt st;
         if decide (data_len > st_size) then fail SPARKEY_HASH_TOO_SMALL else
         m ← sys_mmap fd data_len;
         match m with
         | None => fail SPARKEY_MMAP_FAILED
         | Some data => mret (HashReader MAGIC_VALUE_HASHREADER header log fd data_len (Some data))
         end
     end).

Definition sparkey_hash_open (hash_filename log_filename : string) : MC os sparkey_hashreader :=
  if decide (correct_endian_platform ≠ SPARKEY_SUCCESS) then fail correct_endian_platform else
  ok ← sys_malloc;
  if negb ok then fail SPARKEY_INTERNAL_ERROR else
  header ← sparkey_load_hashheader hash_filename;
  log ← sparkey_logreader_open_noalloc log_filename;
  open_index hash_filename header log.

(** The pointer is NULL afterwards. *)
Definition sparkey_hash_close : MC (os * option sparkey_hashreader) unit := λ s,
  match s with
  | (o, None) => (Ok tt, s)
  | (o, Some reader) =>
      let o := (sparkey_logreader_close_nodealloc (o, hr_log reader)).2.1 in
      if decide (hr_open_status reader = MAGIC_VALUE_HASHREADER)
      then (Ok tt, ((sys_close (hr_fd reader) o).2, None))
      else (Ok tt, (o, None))
  end.

Definition assert_reader_open {S} (reader : sparkey_hashreader) : MC S unit :=
  if decide (hr_open_status reader ≠ MAGIC_VALUE_HASHREADER) then fail SPARKEY_HASH_CLOSED
  else mret tt.

(** [reader->data + reader->header.header_size]. *)
Definition hashtable_of (reader : sparkey_hashreader) : option (list Z) :=
  drop (Z.to_nat (hh_header_size (hr_header reader))) <$> hr_data reader.

Section HashReader.
Context {C : Codec}.

(** The comparison of the wanted key with the key of the iterator, chunk by
    chunk; every chunk has at least one byte. *)
Fixpoint key_equals (fuel : nat) (log : sparkey_logreader) (key : list Z) (pos2 : Z) : MI bool :=
  match fuel with
  | O => out_of_fuel
  | S fuel =>
      if decide (pos2 < zlen key) then
        buf2 ← sparkey_logiter_keychunk log (zlen key);
        part ← of_opt (mem_read key pos2 (zlen buf2));
        if decide (memcmp part buf2 ≠ 0) then mret false
        else key_equals fuel log key (pos2 + zlen buf2)
      else mret true
  end.

(** The entry at a position against the wanted key. *)
Definition match_entry (log : sparkey_logreader) (key : list Z) (position entry_index : Z)
    : MI bool :=
  _ ← fetch_entry log position entry_index;
  iter ← getS;
  if decide (i_type iter ≠ SPARKEY_ENTRY_PUT) then
    _ ← upd (set_state SPARKEY_ITER_INVALID); fail SPARKEY_INTERNAL_ERROR
  else if decide (zlen key = i_keylen iter) then key_equals (S (length key)) log key 0
  else mret false.

(** After one round trip the displacement is more than that of any entry. *)
Fixpoint hash_get_loop (fuel : nat) (reader : sparkey_hashreader) (hashtable key : list Z)
    (hash pos slot displacement : Z) : MI unit :=
  match fuel with
  | O => out_of_fuel
  | S fuel =>
      let h := hr_header reader in
      e2 ← of_opt (read_slot h hashtable pos);
      let '(hash2, position2) := e2 in
      if decide (position2 = 0) then upd (set_state SPARKEY_ITER_INVALID) else
      let entry_index2 := entry_index_of h position2 in
      let position2 := block_position_of h position2 in
      equals ← (if decide (hash = hash2)
                then match_entry (hr_log reader) key position2 entry_index2 else mret false);
      if equals : bool then mret tt else
      let other_displacement := get_displacement (hh_hash_capacity h) slot hash2 in
      if decide (displacement > other_displacement) then upd (set_state SPARKEY_ITER_INVALID) else
      let '(pos, slot) := next_slot h pos slot in
      hash_get_loop fuel reader hashtable key hash pos slot (u64 (displacement + 1))
  end.

Definition sparkey_hash_get (reader : sparkey_hashreader) (key : list Z) : MI unit :=
  _ ← assert_reader_open reader;
  let h := hr_header reader in
  hash ← of_opt (f ← ha_hash (hh_hash_algorithm h); f key (zlen key) (hh_hash_seed h));
  wanted_slot ← of_opt (c_remainder hash (hh_hash_capacity h));
  hashtable ← of_opt (hashtable_of reader);
  hash_get_loop (S (S (Z.to_nat (hh_hash_capacity h)))) reader hashtable key hash
    (u64 (wanted_slot * slot_size h)) wanted_slot 0.

(** Is a position in the table, on the way of its key? *)
Fixpoint find_position (fuel : nat) (h : sparkey_hashheader) (hashtable : list Z)
    (position pos slot displacement : Z) : MI bool :=
  match fuel with
  | O => out_of_fuel
  | S fuel =>
      e2 ← of_opt (read_slot h hashtable pos);
      let '(hash2, position2) := e2 in
      if decide (position2 = 0) then mret false else
      if decide (position = position2) then mret true else
      let other_displacement := get_displacement (hh_hash_capacity h) slot hash2 in
      if decide (displacement > other_displacement) then mret false else
      let '(pos, slot) := next_slot h pos slot in
      find_position fuel h hashtable position pos slot (u64 (displacement + 1))
  end.

(** One round per entry that is not live. *)
Fixpoint hashnext_loop (fuel : nat) (reader : sparkey_hashreader) : MI unit :=
  match fuel with
  | O => out_of_fuel
  | S fuel =>
      let h := hr_header reader in
      let log := hr_log reader in
      _ ← sparkey_logiter_next log;
      iter ← getS;
      if decide (i_state iter ≠ SPARKEY_ITER_ACTIVE) then mret tt else
      if decide (i_type iter ≠ SPARKEY_ENTRY_PUT) then hashnext_loop fuel reader else
      let position := Z.lor (u64 (Z.shiftl (i_entry_block_position iter) (hh_entry_block_bits h)))
                        (u64 (i_entry_count iter)) in
      key_hash ← sparkey_iter_hash h log;
      wanted_slot ← of_opt (c_remainder key_hash (hh_hash_capacity h));
      hashtable ← of_opt (hashtable_of reader);
      found ← find_position (S (S (Z.to_nat (hh_hash_capacity h)))) h hashtable position
                (u64 (wanted_slot * slot_size h)) wanted_slot 0;
      if found : bool then sparkey_logiter_reset log else hashnext_loop fuel reader
  end.

Definition sparkey_logiter_hashnext (fuel : nat) (reader : sparkey_hashreader) : MI unit :=
  _ ← assert_reader_open reader;
  hashnext_loop fuel reader.

End HashReader.

Definition sparkey_hash_getreader (reader : sparkey_hashreader) : sparkey_logreader := hr_log reader.
Definition sparkey_hash_numentries (reader : sparkey_hashreader) : Z :=
  hh_num_entries (hr_header reader).
Definition sparkey_hash_numcollisions (reader : sparkey_hashreader) : Z :=
  hh_hash_collisions (hr_header reader).

(** ** Lookup *)

Lemma memcmp_eq a b : length a = length b → memcmp a b = 0 ↔ a = b.
Proof.
  revert b. induction a as [|x a IH]; intros [|y b] Hlen; cbn [length] in *; try done. cbn [memcmp].
  repeat case_decide; try (split; [done|intros [=]; lia]).
  rewrite IH by lia. split; [intros ->; f_equal; lia|by intros [=]].
Qed.

Section Reading.
Context {C : Codec} {log : sparkey_logreader} {es : list entry} {L : LogCursor log es}.

Lemma key_equals_spec fuel n e key off i :
  es !! n = Some e → length key = length (entry_key e) → cur_key n off i →
  (length key - off < fuel)%nat →
  ∃ i' off', key_equals fuel log key (Z.of_nat off) i =
      (Ok (bool_decide (drop off key = drop off (entry_key e))), i') ∧ cur_key n off' i'.
Proof.
  intros He Hlen. revert off i. induction fuel as [|fuel IH]; intros off i Hk Hfuel; [lia|].
  destruct (cur_key_entry _ _ _ Hk) as (x & Hx & _ & Hoff & _). simplify_eq.
  cbn [key_equals]. case_decide as Hlt.
  2:{ exists i, off. rewrite !drop_ge by lia. by rewrite bool_decide_true. }
  destruct (cur_keychunk n off e i (zlen key) Hk He ltac:(lia)) as (m & i1 & Hc & Hm & _ & Hz & Hk1).
  rewrite (bind_Ok _ _ _ _ _ Hc).
  assert (Hlm : length (take m (drop off (entry_key e))) = m) by (rewrite length_take, length_drop; lia).
  assert (m ≠ 0)%nat by lia.
  rewrite Hlm, mem_read_some, bind_of_opt, !Nat2Z.id by lia.
  assert (Hcmp := memcmp_eq (take m (drop off key)) (take m (drop off (entry_key e)))
    ltac:(rewrite !length_take, !length_drop; lia)).
  assert (Hsplit : drop off key = drop off (entry_key e) ↔
    take m (drop off key) = take m (drop off (entry_key e)) ∧
    drop (off + m) key = drop (off + m) (entry_key e)).
  { rewrite <- !drop_drop. split; [by intros ->|]. intros [H1 H2].
    rewrite <- (take_drop m (drop off key)), H1, H2. by rewrite take_drop. }
  case_decide as Hne.
  - exists i1, (off + m)%nat. split; [|done]. rewrite bool_decide_false; [done|].
    rewrite Hsplit. intros [Heq _]. by apply Hne, Hcmp.
  - apply Hcmp in Hne.
    destruct (IH (off + m)%nat i1 Hk1 ltac:(lia)) as (i2 & off2 & Hrun & Hk2).
    exists i2, off2. split; [|done]. rewrite <- Nat2Z.inj_add, Hrun. do 2 f_equal.
    apply bool_decide_ext. rewrite Hsplit. tauto.
Qed.

Lemma match_entry_spec n k2 v2 key i :
  cur_ready i → es !! n = Some (Put k2 v2) →
  ∃ i' off, match_entry log key (cur_block n) (cur_index n) i =
      (Ok (bool_decide (key = k2)), i') ∧ cur_key n off i'.
Proof.
  intros Hr He. unfold match_entry. destruct (cur_fetch n _ i Hr He) as (i1 & Hf & Hk).
  rewrite (bind_Ok _ _ _ _ _ Hf), bind_getS.
  destruct (cur_key_entry _ _ _ Hk) as (x & Hx & (_ & Hty & Hkl & _) & _). simplify_eq.
  rewrite Hty, Hkl. cbn [is_put entry_key]. rewrite decide_False by (intros E; by apply E).
  case_decide as Hlen.
  - destruct (key_equals_spec (S (length key)) n (Put k2 v2) key 0 i1 He) as (i2 & off & Hrun & Hk2);
      [cbn; lia|done|lia|]. exists i2, off. split; [|done].
    rewrite !drop_0 in Hrun. exact Hrun.
  - exists i1, 0%nat. split; [|done]. rewrite bool_decide_false; [done|]. by intros ->.
Qed.

(** The index may be older than the log: it has the first [n0] entries. *)
Section Upto.
Context (n0 : nat) (Hn0 : (n0 ≤ length es)%nat).

(** What a lookup finds: an iterator on the live put of the key, or an invalid one. *)
Definition found (h : sparkey_hashheader) (k : list Z) (i : sparkey_logiter) : Prop :=
  match address_map h n0 !! k with
  | Some a => ∃ n v off, es !! n = Some (Put k v) ∧ a = addr_of h n ∧ cur_key n off i
  | None => i_state i = SPARKEY_ITER_INVALID
  end.

(** An open reader over the log of the interface, with the table [tbl]. *)
Definition reader_upto (reader : sparkey_hashreader) (tbl : list Z) : Prop :=
  hr_open_status reader = MAGIC_VALUE_HASHREADER ∧ hr_log reader = log ∧
  hashtable_of reader = Some tbl ∧ indexes_upto n0 (hr_header reader) tbl.

Lemma get_search reader tbl k fuel i s d :
  let h := hr_header reader in
  reader_upto reader tbl → cur_ready i →
  walked h (λ a, key_of h a = Some k) k (slots h tbl) s d →
  hh_hash_capacity h < d + Z.of_nat fuel →
  ∃ i', hash_get_loop fuel reader tbl k (hash_key h k) (s * slot_size h) s d i = (Ok tt, i') ∧
    cur_ready i' ∧ found h k i'.
Proof.
  intros h (_ & Hlog & _ & Hh & Ha & Ht & Hord & Hanch & Hcont) Hr Hw. fold h in Hh, Ha, Ht, Hord, Hanch, Hcont.
  pose proof Hh as (Hcap & Hcap2 & _).
  assert (Hmiss : ∀ j, cur_ready j → address_map h n0 !! k = None →
    ∃ i', upd (set_state SPARKEY_ITER_INVALID) j = (Ok tt, i') ∧ cur_ready i' ∧ found h k i').
  { intros j Hj Hk. eexists. split; [reflexivity|]. split; [by apply cur_ready_state|].
    unfold found. by rewrite Hk. }
  revert i s d Hr Hw. induction fuel as [|fuel IH]; intros i s d Hr Hw Hfuel;
    pose proof Hw as (Hs & Hdr & _); [lia|].
  destruct (read_slot_run h Hh tbl s Ht Hs) as [Hread _].
  cbn [hash_get_loop]. fold h. rewrite Hread, bind_of_opt.
  destruct (decide (occ (slots h tbl) s)) as [Hos|Hos].
  2:{ assert (Hk : address_map h n0 !! k = None)
        by (by apply (walked_absent_key h _ k (slots h tbl) s d); try done; left).
      unfold occ in Hos. destruct (slots h tbl s) as [hash2 position2].
      rewrite decide_True by (by apply dec_stable). by apply Hmiss. }
  pose proof Hcont as (H1 & _ & _). destruct (H1 s Hs Hos) as (k2 & Hk2 & Hh2 & Hm2).
  destruct (key_of_inv h _ _ Hk2) as (n2 & v2 & He2 & Haddr).
  destruct (addr_split h Hh Ha n2 _ He2) as (Hb & Hi & _).
  assert (Hdisp : dist (hh_hash_capacity h) s (hash_key h k2) = disp (hh_hash_capacity h) (slots h tbl) s)
    by (unfold disp; by rewrite Hh2).
  unfold occ in Hos. pose proof (walked_step h _ k (slots h tbl) s d Hh Hw) as Hstep.
  pose proof (walked_absent_key h _ k (slots h tbl) s d Hcap Hord Hcont Hw) as Habs.
  set (dsp := disp (hh_hash_capacity h) (slots h tbl) s) in *. clearbody dsp.
  destruct (slots h tbl s) as [hash2 position2]. cbn [fst snd] in *. subst hash2 position2.
  rewrite decide_False by done. rewrite Hb, Hi.
  assert (Hmatch : ∃ i1, (if decide (hash_key h k = hash_key h k2)
      then match_entry (hr_log reader) k (cur_block n2) (cur_index n2) else mret false) i =
      (Ok (bool_decide (k = k2)), i1) ∧ cur_ready i1 ∧ (k = k2 → ∃ off, cur_key n2 off i1)).
  { rewrite Hlog. case_decide as Hhash.
    - destruct (match_entry_spec n2 k2 v2 k i Hr He2) as (i1 & off & Hrun & Hk1).
      exists i1. split; [done|]. split; [by eapply cur_key_ready|]. intros _. by exists off.
    - exists i. rewrite bool_decide_false by congruence. split; [done|]. split; [done|congruence]. }
  destruct Hmatch as (i1 & Hmatch & Hr1 & Hkey). rewrite (bind_Ok _ _ _ _ _ Hmatch).
  case_bool_decide as Heq.
  { subst k2. destruct (Hkey eq_refl) as [off Hk1]. exists i1. split; [done|]. split; [done|].
    unfold found. rewrite Hm2. by exists n2, v2, off. }
  rewrite get_displacement_run, next_slot_run, Hdisp by done. cbv beta iota zeta.
  destruct (decide (d > dsp)) as [Hstop|Hstop].
  { apply Hmiss; [done|]. apply Habs. right. lia. }
  destruct Hstep as [Hw1 Hu]; [lia|congruence|].
  rewrite Hu. apply IH; [done|done|lia].
Qed.

(** A lookup on an index finds the live put of the key, and nothing if there is none. *)
Lemma hash_get_spec reader tbl k i :
  reader_upto reader tbl → cur_ready i → bytes_ok k → zlen k < 2 ^ 31 →
  ∃ i', sparkey_hash_get reader k i = (Ok tt, i') ∧ cur_ready i' ∧ found (hr_header reader) k i'.
Proof.
  intros Hon Hr Hok Hlen. pose proof Hon as (Hst & _ & Htbl & Hh & _).
  destruct (key_hash_run _ k Hh Hok Hlen) as (f & Hf & Hrun). pose proof Hh as (Hcap & _).
  unfold sparkey_hash_get, assert_reader_open. rewrite decide_False by tauto.
  rewrite bind_ret, Hf. cbn [mbind option_bind]. rewrite Hrun, Htbl.
  rewrite bind_of_opt, c_remainder_pos by done. rewrite !bind_of_opt.
  set (w := hash_key (hr_header reader) k mod hh_hash_capacity (hr_header reader)).
  assert (Hw : slot_ok (hh_hash_capacity (hr_header reader)) w) by (by apply Z.mod_pos_bound).
  destruct (slot_bounds _ Hh w Hw) as (_ & _ & _ & -> & _).
  apply get_search; [done|done|by apply walked_start|lia].
Qed.

(** In terms of the map that replaying gives. *)
Lemma hash_get_upto reader tbl k i :
  reader_upto reader tbl → cur_ready i → bytes_ok k → zlen k < 2 ^ 31 →
  ∃ i', sparkey_hash_get reader k i = (Ok tt, i') ∧ cur_ready i' ∧
    match replay (take n0 es) !! k with
    | Some v => ∃ n off, es !! n = Some (Put k v) ∧ cur_key n off i'
    | None => i_state i' = SPARKEY_ITER_INVALID
    end.
Proof.
  intros Hon Hr Hok Hlen. pose proof Hon as (_ & _ & _ & Hh & Ha & _).
  destruct (hash_get_spec reader tbl k i Hon Hr Hok Hlen) as (i' & Hget & Hr' & Hf).
  exists i'. split; [done|]. split; [done|]. unfold found in Hf.
  rewrite (replaced_value (hr_header reader) n0 k Hh Ha Hn0).
  destruct (address_map (hr_header reader) n0 !! k) as [a|]; [|done].
  destruct Hf as (n & v & off & He & -> & Hk). cbn. rewrite (value_at_addr _ Hh Ha n _ He). by exists n, off.
Qed.

(** ** Iteration over the live entries *)

Lemma find_position_spec reader tbl n k v fuel i s d :
  let h := hr_header reader in
  reader_upto reader tbl → es !! n = Some (Put k v) →
  walked h (λ a, a = addr_of h n) k (slots h tbl) s d →
  hh_hash_capacity h < d + Z.of_nat fuel →
  find_position fuel h tbl (addr_of h n) (s * slot_size h) s d i =
    (Ok (bool_decide (address_map h n0 !! k = Some (addr_of h n))), i).
Proof.
  intros h (_ & _ & _ & Hh & Ha & Ht & Hord & _ & Hcont) He. fold h in Hh, Ha, Ht, Hord, Hcont.
  pose proof Hh as (Hcap & Hcap2 & _).
  revert s d. induction fuel as [|fuel IH]; intros s d Hw Hfuel; pose proof Hw as (Hs & Hdr & _); [lia|].
  destruct (read_slot_run h Hh tbl s Ht Hs) as [Hread _].
  cbn [find_position]. rewrite Hread, bind_of_opt.
  pose proof (λ Hstop Hk, walked_absent h _ _ k (slots h tbl) s d (addr_of h n) Hcap Hord Hcont Hw Hstop Hk eq_refl)
    as Habs.
  assert (Hoc : occ (slots h tbl) s ↔ (slots h tbl s).2 ≠ 0) by done.
  assert (Hdisp : dist (hh_hash_capacity h) s (slots h tbl s).1 = disp (hh_hash_capacity h) (slots h tbl) s) by done.
  pose proof (walked_step h _ k (slots h tbl) s d Hh Hw) as Hstep.
  pose proof Hcont as (H1 & _ & _). specialize (H1 s Hs).
  set (dsp := disp (hh_hash_capacity h) (slots h tbl) s) in *. clearbody dsp.
  destruct (slots h tbl s) as [hash2 position2]. cbn [fst snd] in *.
  destruct (decide (position2 = 0)) as [Hz|Hz].
  { rewrite bool_decide_false; [done|]. intros Hk. apply Habs; [left; rewrite Hoc; tauto|done]. }
  destruct (decide (addr_of h n = position2)) as [Heq|Hne].
  { destruct H1 as (k2 & Hk2 & _ & Hm2); [by apply Hoc|]. rewrite <- Heq in *.
    rewrite (key_of_addr h Hh Ha n k v He) in Hk2. simplify_eq. by rewrite bool_decide_true. }
  rewrite get_displacement_run, next_slot_run, Hdisp by done. cbv beta iota zeta.
  destruct (decide (d > dsp)) as [Hstop|Hstop].
  { rewrite bool_decide_false; [done|]. intros Hk. apply Habs; [right; lia|done]. }
  destruct Hstep as [Hw1 Hu]; [lia|congruence|]. rewrite Hu. apply IH; [done|lia].
Qed.

(** Entry [n] is live: the table has it for its key. *)
Definition live (h : sparkey_hashheader) (n : nat) (e : entry) : Prop :=
  match e with
  | Put k _ => address_map h n0 !! k = Some (addr_of h n)
  | Delete _ => False
  end.

#[local] Instance live_dec h n e : Decision (live h n e).
Proof. destruct e; unfold live; apply _. Defined.

(** The live entries from entry [n] on. *)
Definition live_from (h : sparkey_hashheader) (n : nat) : list entry :=
  omap (λ m, e ← es !! m; if decide (live h m e) then Some e else None) (seq n (length es - n)).

Lemma live_from_step h n e :
  es !! n = Some e →
  live_from h n = (if decide (live h n e) then [e] else []) ++ live_from h (S n).
Proof.
  intros He. pose proof (lookup_lt_Some _ _ _ He). unfold live_from.
  replace (length es - n)%nat with (S (length es - S n)) by lia. cbn [seq].
  cbn. rewrite He. cbn. by case_decide.
Qed.

Lemma live_from_end h : live_from h (length es) = [].
Proof. unfold live_from. by rewrite Nat.sub_diag. Qed.

(** What [hashnext] leaves when [l] are the live entries from entry [n] on: an
    iterator on the first of them, or at the end of the log. *)
Definition moved_to (h : sparkey_hashheader) (n : nat) (l : list entry) (i : sparkey_logiter) : Prop :=
  match l with
  | [] => i_state i = SPARKEY_ITER_CLOSED ∧ cur_ready i
  | e :: rest => ∃ m, (n ≤ m)%nat ∧ es !! m = Some e ∧ cur_key m 0 i ∧ rest = live_from h (S m)
  end.

Lemma moved_to_mono h n n' l i : (n ≤ n')%nat → moved_to h n' l i → moved_to h n l i.
Proof. intros Hn. destruct l; [done|]. intros (m & ? & ?). exists m. split; [lia|done]. Qed.

Lemma hashnext_spec reader tbl fuel n i :
  reader_upto reader tbl → keys_short (es := es) → cur_before n i → (n ≤ length es)%nat →
  (length es - n < fuel)%nat →
  ∃ i', hashnext_loop fuel reader i = (Ok tt, i') ∧
    moved_to (hr_header reader) n (live_from (hr_header reader) n) i'.
Proof.
  intros Hon Hshort. pose proof Hon as (_ & Hlog & Htbl & Hh & Ha & _).
  set (h := hr_header reader) in *. pose proof Hh as (Hcap & _).
  revert n i. induction fuel as [|fuel IH]; intros n i Hb Hn Hfuel; [lia|].
  cbn [hashnext_loop]. fold h. rewrite Hlog.
  destruct (decide (n = length es)) as [->|Hne].
  { destruct (cur_next_end i Hb) as (i1 & Hnext & Hst & Hr). rewrite (bind_Ok _ _ _ _ _ Hnext), bind_getS.
    rewrite Hst, decide_True by done. exists i1. by rewrite live_from_end. }
  destruct (lookup_lt_is_Some_2 es n) as [e He]; [lia|].
  destruct (cur_next n e i Hb He) as (i1 & Hnext & Hk & _ & Hec).
  destruct (cur_key_entry _ _ _ Hk) as (x & Hx & (Hst & Hty & _) & _ & Hbp & _). simplify_eq.
  rewrite (bind_Ok _ _ _ _ _ Hnext), bind_getS, Hst, Hty, Hbp, Hec.
  rewrite decide_False by (intros E; by apply E). rewrite (live_from_step h n e He).
  destruct e as [k v|k]; cbn [is_put live].
  2:{ rewrite decide_True by done. rewrite (decide_False (P := False)) by tauto.
      destruct (IH (S n) i1) as (i' & Hrun & Hm); [by eapply cur_key_before|lia|lia|].
      exists i'. split; [done|]. apply (moved_to_mono h n (S n)); [lia|done]. }
  rewrite decide_False by (intros E; by apply E). fold (addr_of h n).
  destruct (iter_hash_spec h n _ i1 Hh Hk He (Hshort n _ He)) as (i2 & off & Hhash & Hk2).
  rewrite (bind_Ok _ _ _ _ _ Hhash), Htbl, c_remainder_pos, !bind_of_opt by done. cbn [entry_key].
  assert (Hw : slot_ok (hh_hash_capacity h) (hash_key h k mod hh_hash_capacity h))
    by (by apply Z.mod_pos_bound).
  destruct (slot_bounds h Hh _ Hw) as (_ & _ & _ & -> & _).
  assert (Hfind := find_position_spec reader tbl n k v (S (S (Z.to_nat (hh_hash_capacity h)))) i2 _ 0
    Hon He (walked_start h _ k _ Hcap)). cbv zeta in Hfind. fold h in Hfind.
  rewrite (bind_Ok _ _ _ _ _ (Hfind ltac:(lia))).
  case_bool_decide as Hlive.
  - destruct (cur_key_reset n off i2 Hk2) as (i3 & Hr & Hk3). exists i3. split; [done|].
    rewrite decide_True by done. by exists n.
  - rewrite decide_False by done.
    destruct (IH (S n) i2) as (i' & Hrun & Hm); [by eapply cur_key_before|lia|lia|].
    exists i'. split; [done|]. apply (moved_to_mono h n (S n)); [lia|done].
Qed.

(** *** The live entries are those of the log *)

(** The live entries are those without a later entry of the same key. *)
Lemma live_iff h n e :
  header_ok h → addresses_ok h → es !! n = Some e →
  live h n e ↔ (n < n0)%nat ∧ is_put e = true ∧ entry_key e ∉ entry_key <$> drop (S n) (take n0 es).
Proof.
  intros Hh Ha He. destruct e as [k v|k]; cbn [live is_put entry_key]; [|naive_solver].
  destruct (decide (n < n0)%nat) as [Hlt|Hge].
  - pose proof (address_map_since h n n0 k Hh Ha ltac:(lia)) as H1. rewrite take_drop_commute in H1.
    replace (S n + (n0 - S n))%nat with n0 in H1 by lia.
    assert (Hn : address_map h (S n) !! k = Some (addr_of h n)) by (cbn [address_map]; by rewrite He, lookup_insert_eq).
    case_decide; [tauto|]. rewrite H1. tauto.
  - split; [|lia]. intros Hk. destruct (address_map_key h n0 k _ Hh Ha Hn0 Hk) as (m & v' & Hm & He' & Heq & _).
    assert (n = m) by (by eapply (addr_inj h Hh Ha)). lia.
Qed.

Lemma live_from_entries h n :
  header_ok h → addresses_ok h → (n ≤ length es)%nat → live_from h n = live_entries (drop n (take n0 es)).
Proof.
  intros Hh Ha Hn. remember (length es - n)%nat as l eqn:Hl. revert n Hn Hl.
  induction l as [|l IH]; intros n Hn Hl.
  { assert (n = length es) as -> by lia. by rewrite live_from_end, drop_ge by (rewrite length_take; lia). }
  destruct (lookup_lt_is_Some_2 es n) as [e He]; [lia|].
  rewrite (live_from_step h n e He), (IH (S n)) by lia. pose proof (live_iff h n e Hh Ha He) as Hlive.
  destruct (decide (n < n0)%nat) as [Hlt|Hge].
  - rewrite (drop_S (take n0 es) e n) by (by rewrite lookup_take_lt by done). cbn [live_entries]. f_equal. apply decide_ext.
    rewrite Hlive. tauto.
  - rewrite !drop_ge by (rewrite length_take; lia). rewrite decide_False by (rewrite Hlive; lia). done.
Qed.

End Upto.

(** The index of the whole log. *)
Definition reader_on : sparkey_hashreader → list Z → Prop := reader_upto (length es).

Lemma hash_get_replay reader tbl k i :
  reader_on reader tbl → cur_ready i → bytes_ok k → zlen k < 2 ^ 31 →
  ∃ i', sparkey_hash_get reader k i = (Ok tt, i') ∧ cur_ready i' ∧
    match replay es !! k with
    | Some v => ∃ n off, es !! n = Some (Put k v) ∧ cur_key n off i'
    | None => i_state i' = SPARKEY_ITER_INVALID
    end.
Proof.
  intros Hon Hr Hok Hlen. pose proof (hash_get_upto (length es) (le_n _) reader tbl k i Hon Hr Hok Hlen) as H.
  by rewrite firstn_all in H.
Qed.

End Reading.
