(* ===== verification/Store.v ===== *)
(** * The store as a whole

    A log, its index, and what clients of the library get out of them: the
    functions of the earlier files composed over one file system, for
    every stored log. *)

From stdpp Require Import base gmap list strings numbers.
From Stdlib Require Import ZArith Lia.
From S2P Require Import Prelude ReturnCodes Endian OS LogHeader HashAlg HashHeader Buf.
From S2P Require Import Compress LogFormat LogWriter LogReader LogCursor PlainLog RobinHood StoredLog.
From S2P Require Import HashTable TableBytes TableRefine HashWriter IndexFile IndexCopy HashReader.

Local Open Scope Z_scope.

(** ** Clients *)

(** Looking up the value of a key, as the documentation of the library shows it. *)
Definition get_value {C : Codec} (reader : sparkey_hashreader) (key : list Z)
    : MI (option (list Z)) :=
  _ ← sparkey_hash_get reader key;
  iter ← getS;
  if decide (sparkey_logiter_state iter = SPARKEY_ITER_ACTIVE) then
    value ← sparkey_logiter_fill_value (sparkey_hash_getreader reader) (sparkey_logiter_valuelen iter);
    mret (Some value)
  else mret None.

(** Opening both files, and a sequence of lookups with one iterator. *)
Fixpoint get_values {C : Codec} (reader : sparkey_hashreader) (keys : list (list Z))
    : MI (list (option (list Z))) :=
  match keys with
  | [] => mret []
  | key :: keys => v ← get_value reader key; vs ← get_values reader keys; mret (v :: vs)
  end.

Definition lookup_all {C : Codec} (hash_filename log_filename : string) (keys : list (list Z))
    : MC os (list (option (list Z))) :=
  reader ← sparkey_hash_open hash_filename log_filename;
  iter ← sparkey_logiter_create (sparkey_hash_getreader reader);
  of_res (get_values reader keys iter).1.

(** All live entries, in the order of the log. *)
Fixpoint read_live {C : Codec} (fuel : nat) (reader : sparkey_hashreader) : MI (list entry) :=
  match fuel with
  | O => out_of_fuel
  | S n =>
      _ ← sparkey_logiter_hashnext fuel reader;
      iter ← getS;
      if decide (sparkey_logiter_state iter ≠ SPARKEY_ITER_ACTIVE) then mret [] else
      e ← read_entry (sparkey_hash_getreader reader);
      es ← read_live n reader;
      mret (e :: es)
  end.

Definition scan_live {C : Codec} (fuel : nat) (hash_filename log_filename : string)
    : MC os (list entry) :=
  reader ← sparkey_hash_open hash_filename log_filename;
  iter ← sparkey_logiter_create (sparkey_hash_getreader reader);
  of_res (read_live fuel reader iter).1.

(** ** Clients of an open index *)

Section Clients.
Context {C : Codec} {log : sparkey_logreader} {es : list entry} {L : LogCursor log es}.
Context (n0 : nat) (Hn0 : (n0 ≤ length es)%nat).

Lemma get_value_spec reader tbl k i :
  reader_upto n0 reader tbl → cur_ready i → bytes_ok k → zlen k < 2 ^ 31 →
  ∃ i', get_value reader k i = (Ok (replay (take n0 es) !! k), i') ∧ cur_ready i'.
Proof.
  intros Hon Hr Hok Hlen. pose proof Hon as (_ & Hlog & _).
  destruct (hash_get_upto n0 Hn0 reader tbl k i Hon Hr Hok Hlen) as (i1 & Hget & Hr1 & Hf).
  unfold get_value. rewrite (bind_Ok _ _ _ _ _ Hget), bind_getS. destruct (replay (take n0 es) !! k) as [v|].
  - destruct Hf as (n & off & He & Hk).
    destruct (cur_key_describes _ _ _ _ Hk He) as (Hst & _ & _ & Hvl).
    unfold sparkey_logiter_state, sparkey_logiter_valuelen, sparkey_hash_getreader.
    rewrite Hst, decide_True, Hlog, Hvl by done.
    destruct (fill_value_spec n off _ i1 (zlen (entry_value (Put k v))) Hk He ltac:(lia))
      as (i2 & Hv & _ & Hr2 & _).
    rewrite (bind_Ok _ _ _ _ _ Hv). by exists i2.
  - unfold sparkey_logiter_state. rewrite Hf, decide_False by done. by exists i1.
Qed.

Lemma get_values_spec reader tbl ks i :
  reader_upto n0 reader tbl → cur_ready i → Forall (λ k, bytes_ok k ∧ zlen k < 2 ^ 31) ks →
  (get_values reader ks i).1 = Ok ((λ k, replay (take n0 es) !! k) <$> ks).
Proof.
  intros Hon Hr Hks. revert i Hr. induction Hks as [|k ks [Hok Hlen] _ IH]; intros i Hr; [done|].
  cbn [get_values]. destruct (get_value_spec reader tbl k i Hon Hr Hok Hlen) as (i1 & Hg & Hr1).
  rewrite (bind_Ok _ _ _ _ _ Hg). specialize (IH i1 Hr1).
  destruct (get_values reader ks i1) as [r i2] eqn:E. cbn [fst] in IH. subst r.
  by rewrite (bind_Ok _ _ _ _ _ E).
Qed.

Lemma read_live_spec reader tbl fuel n i :
  reader_upto n0 reader tbl → keys_short (es := es) → cur_before n i → (n ≤ length es)%nat →
  (length es - n < fuel)%nat →
  (read_live fuel reader i).1 = Ok (live_from n0 (hr_header reader) n).
Proof.
  intros Hon Hshort. pose proof Hon as (Hst & Hlog & _).
  revert n i. induction fuel as [|fuel IH]; intros n i Hb Hn Hfuel; [lia|].
  cbn [read_live]. unfold sparkey_logiter_hashnext, assert_reader_open.
  rewrite decide_False by tauto. rewrite bind_assoc, bind_ret.
  destruct (hashnext_spec n0 Hn0 reader tbl (S fuel) n i Hon Hshort Hb Hn Hfuel) as (i1 & Hnext & Hl).
  rewrite (bind_Ok _ _ _ _ _ Hnext), bind_getS. unfold sparkey_logiter_state.
  destruct (live_from n0 (hr_header reader) n) as [|e rest] eqn:E.
  - destruct Hl as [Hl _]. by rewrite Hl, decide_True.
  - destruct Hl as (m & Hnm & He & Hk & ->).
    destruct (cur_key_entry _ _ _ Hk) as (? & _ & (Hact & _) & _). rewrite Hact.
    rewrite decide_False by tauto. unfold sparkey_hash_getreader. rewrite Hlog.
    destruct (read_entry_spec m e i1 Hk He) as (i2 & Hr & Hb2 & _).
    rewrite (bind_Ok _ _ _ _ _ Hr). pose proof (lookup_lt_Some _ _ _ He).
    specialize (IH (S m) i2 Hb2 ltac:(lia) ltac:(lia)).
    destruct (read_live fuel reader i2) as [r i3] eqn:E3. cbn [fst] in IH. subst r.
    by rewrite (bind_Ok _ _ _ _ _ E3).
Qed.

End Clients.

(** ** Indexing a stored log *)

(** An index of the log: the specification does not depend on the reader through
    which the log is read. *)
Definition stored_index {C : Codec} (S : stored) (h : sparkey_hashheader) (tbl : list Z) : Prop :=
  ∀ log (Hlog : opened_log S log), index_ok (L := st_cursor S log Hlog) (st_header S) h tbl.

(** A file whose header does not load, or is not that of an index of the log with this
    identifier.  (A file shorter than three words does not load either, but stays open.) *)
Definition foreign (id : Z) (c : list Z) : Prop :=
  12 ≤ zlen c ∧ ∀ name o, has_file o name c →
    match (sparkey_load_hashheader name o).1 with
    | Ok ho => ¬ (hh_file_identifier ho = id ∧ hh_major_version ho = HASH_MAJOR_VERSION ∧
                  hh_minor_version ho = HASH_MINOR_VERSION)
    | Err _ => True
    | _ => False
    end.

Lemma header_foreign id h rest :
  hashheader_typed h → hashheader_valid h → hh_major_version h = HASH_MAJOR_VERSION →
  hh_minor_version h = HASH_MINOR_VERSION → hh_file_identifier h ≠ id → foreign id (hashheader_bytes h ++ rest).
Proof.
  intros Hty Hval Hmaj Hmin Hid. pose proof (hashheader_bytes_length h) as Hl. unfold HASH_HEADER_SIZE in Hl. split.
  - rewrite length_app. lia.
  - intros name o Hf. rewrite (load_index o name h rest Hf Hty Hval Hmaj Hmin). cbn. tauto.
Qed.

(** What may be at the name of the index before: nothing; a file that is no index of this
    log; or an index of a prefix of the log, whose hash size is to be kept.  Without an
    index to extend, a seed is read. *)
Inductive index_before {C : Codec} (o : os) (name : string) (S : stored) (hash_size : Z) : Prop :=
| no_index :
    os_names o !! name = None → (4 ≤ length (os_entropy o))%nat → bytes_ok (os_entropy o) →
    index_before o name S hash_size
| unrelated_file c :
    (4 ≤ length (os_entropy o))%nat → bytes_ok (os_entropy o) →
    has_file o name c → foreign (st_id S) c → index_before o name S hash_size
| older_index S1 es2 ho to :
    grows S1 S es2 → has_file o name (hashheader_bytes ho ++ to) → stored_index S1 ho to →
    keeps_size (es := st_entries S) ho hash_size → index_before o name S hash_size.

(** Only descriptors and entropy differ. *)
Definition same_files (o o' : os) : Prop :=
  os_names o' = os_names o ∧ os_inodes o' = os_inodes o ∧ os_fds o' = os_fds o ∧
  os_sched o' = [] ∧ os_wf o'.

Lemma same_files_opened o : os_wf o → os_sched o = [] → same_files o (opened o).
Proof. intros Hwf Hs. split_and!; try done. by apply opened_wf. Qed.

Lemma has_file_same o o' name c :
  os_names o' = os_names o → os_inodes o' = os_inodes o → os_sched o' = [] → os_wf o' →
  has_file o name c → has_file o' name c.
Proof.
  intros Hn Hi Hs Hwf (ino & Hnm & Hc & _). exists ino. rewrite Hn, Hi.
  split_and!; try done. by apply wf_fresh_fd.
Qed.

(** With nothing to build on, the plan starts from an empty table. *)
Lemma plan_fresh name lh o :
  os_sched o = [] → os_wf o → (4 ≤ length (os_entropy o))%nat → bytes_ok (os_entropy o) →
  (os_names o !! name = None ∨ ∃ c, has_file o name c ∧ foreign (lh_file_identifier lh) c) →
  ∃ o', plan_hash name lh o =
      (Ok (HashPlan (lh_num_puts lh) (lh_header_size lh) (seed_of o) 0 None), o') ∧ same_files o o' ∧
    os_entropy o' = drop 4 (os_entropy o).
Proof.
  intros Hs Hwf He Hb [Hn|(c & Hf & Hlen & Hno)].
  { eexists. rewrite plan_missing by done. split; [done|]. split; [|done]. by split_and!. }
  pose proof (same_files_opened o Hwf Hs) as Hsame. specialize (Hno name o Hf).
  pose proof (load_hashheader_closes o name c Hf Hlen) as Hcl.
  exists (set_entropy (drop 4 (os_entropy o)) (opened o)). split; [|by split].
  assert (Hrand : rand32 (opened o) = (Ok (seed_of o), set_entropy (drop 4 (os_entropy o)) (opened o)))
    by (by apply (rand32_run (opened o))).
  unfold plan_hash, attempt, mbind at 1, M_bind.
  destruct (sparkey_load_hashheader name o) as [[ho|e| |] o1]; cbn [fst snd] in *; try done; subst o1;
    [rewrite decide_False by done|]; unfold mbind, M_bind; by rewrite Hrand.
Qed.

(** The parts of an older index that the writer relies on. *)
Lemma stored_old_header {C : Codec} S1 S es2 h tbl :
  grows S1 S es2 → stored_index S1 h tbl →
  old_header (es := st_entries S) (st_header S) h (length (st_entries S1)) ∧
  hh_data_end h = lh_data_end (st_header S1) ∧ header_ok h.
Proof.
  intros Hg Hidx. destruct (Hidx _ (some_reader_opened S1))
    as ((Hh & _) & Hty & Hval & Hmaj & Hmin & Hid & Hde & _ & _ & Hnp & Hne & Hgb).
  pose proof (grows_id _ _ _ Hg) as Hgid. unfold st_id in Hgid.
  unfold old_header. rewrite (grows_entries _ _ _ Hg), take_app_length, Hgid.
  rewrite st_puts in Hnp. by split_and!.
Qed.

Lemma stored_old_table {C : Codec} S1 S es2 h tbl log (Hlog : opened_log S log) :
  grows S1 S es2 → stored_index S1 h tbl →
  old_table (L := st_cursor S log Hlog) h tbl (length (st_entries S1)).
Proof.
  intros Hg Hidx. apply (old_table_prefix (L1 := st_cursor S1 _ (some_reader_opened S1)) (es2 := es2)).
  - apply Hg.
  - intros n Hn. by apply (grows_places _ _ _ Hg).
  - apply Hidx.
Qed.

Lemma grows_refl {C : Codec} S : grows S S [].
Proof.
  split; try done; [by rewrite app_nil_r|]. intros log1 H1 log2 H2 n Hn.
  split; apply st_place.
Qed.

(** An index of the log is one for every reader, also of a log that did not grow. *)
Lemma stored_index_same {C : Codec} S1 S h tbl log1 (H1 : opened_log S1 log1) :
  grows S1 S [] → index_ok (L := st_cursor S1 log1 H1) (st_header S1) h tbl → stored_index S h tbl.
Proof.
  intros Hg (Htbl & Hty & Hval & Hmaj & Hmin & Hid & Hde & Hmk & Hmv & Hnp & Hne & Hgb) log H2.
  pose proof (grows_entries _ _ _ Hg) as Hes. rewrite app_nil_r in Hes.
  pose proof (grows_id _ _ _ Hg) as Hgid. unfold st_id in Hgid.
  pose proof (grows_places _ _ _ Hg log1 H1 log H2) as Hcur.
  split; [|split_and!; try done].
  - revert Htbl Hcur. generalize (st_cursor S log H2). rewrite Hes. intros L2 Htbl Hcur.
    by apply (table_indexes_agree (L1 := st_cursor S1 log1 H1) (es2 := [])); [rewrite app_nil_r|..].
  - by rewrite Hgid.
  - by rewrite <- (grows_same _ _ _ Hg eq_refl).
  - by rewrite Hmk, !st_key_len, Hes.
  - by rewrite Hmv, !st_value_len, Hes.
  - by rewrite Hnp, !st_puts, Hes.
  - by rewrite Hes.
  - by rewrite Hes.
Qed.

(** At most one word of the entropy is used up. *)
Definition one_word (o o' : os) : Prop :=
  os_entropy o' = os_entropy o ∨ os_entropy o' = drop 4 (os_entropy o).

(** What [sparkey_hash_write] promises: the file is an index of the log; no other
    name changes, no file that existed is modified, no descriptor stays open. *)
Definition index_after {C : Codec} (o o' : os) (name : string) (S : stored) : Prop :=
  os_wf o' ∧ os_sched o' = [] ∧ os_fds o' = os_fds o ∧ one_word o o' ∧
  (∀ n, n ≠ name → os_names o' !! n = os_names o !! n) ∧
  (∀ i c, os_inodes o !! i = Some c → os_inodes o' !! i = Some c) ∧
  ∃ h tbl, has_file o' name (hashheader_bytes h ++ tbl) ∧ stored_index S h tbl.

Lemma indexed_after {C : Codec} S log (Hlog : opened_log S log) name o o2 o3 o4 :
  indexed (L := st_cursor S log Hlog) (st_header S) name o3 o4 →
  same_files o2 o3 → one_word o o3 → os_names o2 = os_names o → os_inodes o2 = os_inodes o →
  delete (r_fd log) (os_fds o2) = os_fds o →
  index_after o (set_fds (delete (r_fd log) (os_fds o4)) o4) name S.
Proof.
  intros (Hwf4 & Hs4 & Hfds4 & He4 & Hnames4 & Hinodes4 & ino & h & tbl & Hnm & Hc & Hidx)
    (Hn3 & Hi3 & Hf3 & _) He3 Hn2 Hi2 Hdel.
  assert (Hwf5 := closed_wf (r_fd log) o4 Hwf4). unfold index_after.
  split_and!; [done|done| | | | |].
  - cbn. by rewrite Hfds4, Hf3.
  - unfold one_word. cbn. by rewrite He4.
  - intros n Hn. cbn. by rewrite Hnames4, Hn3, Hn2.
  - intros i c Hi. cbn. apply Hinodes4. by rewrite Hi3, Hi2.
  - exists h, tbl. split.
    + exists ino. split_and!; [exact Hnm|exact Hc|exact Hs4|by apply wf_fresh_fd].
    + eapply stored_index_same; [apply grows_refl|exact Hidx].
Qed.

(** A file with the header of an index of the whole log is left as it is. *)
Lemma stored_hash_current {C : Codec} fuel name log_name hash_size S1 S rest h to tbl o :
  has_file o log_name (st_file S ++ rest) → has_file o name (hashheader_bytes h ++ to) →
  os_wf o → store_ok S → grows S1 S [] → stored_index S1 h tbl →
  keeps_size (es := st_entries S) h hash_size →
  ∃ o', sparkey_hash_write fuel name log_name hash_size o = (Ok tt, o') ∧
    os_names o' = os_names o ∧ os_inodes o' = os_inodes o ∧ os_fds o' = os_fds o ∧
    os_entropy o' = os_entropy o ∧ os_sched o' = [] ∧ os_wf o'.
Proof.
  intros Hf Hof Hwf Hst Hg Hpi Hkeep. pose proof (load_stored S o log_name rest Hf) as Hload.
  destruct (open_stored S (opened o) log_name rest (opened_file o _ _ Hf Hwf) (opened_wf o Hwf))
    as (log & o2 & _ & Hopen & Hlog & _ & Hn2 & Hi2 & Hs2 & He2 & Hwf2 & Hfd2 & Hdel2).
  destruct (stored_old_header S1 S [] h tbl Hg Hpi) as (Hoh & Hde & Hho).
  rewrite (grows_same _ _ _ Hg eq_refl) in Hde. pose proof (grows_entries _ _ _ Hg) as Hes.
  rewrite app_nil_r in Hes. rewrite <- Hes in Hoh. eexists. split.
  { apply (hash_write_current (L := st_cursor S log Hlog) fuel name log_name hash_size
      _ h to o (opened o) o2 Hload Hopen (proj1 Hlog) Hfd2
      (has_file_same o o2 name _ Hn2 Hi2 Hs2 Hwf2 Hof)); try done. by apply stored_indexable. }
  cbn [os_names os_inodes os_fds os_entropy os_sched set_fds opened].
  split_and!; try done. apply (closed_wf _ (opened o2)). by apply opened_wf.
Qed.

(** The function as a whole, on the file of a log. *)
Lemma stored_hash_write {C : Codec} fuel name log_name hash_size S rest o :
  has_file o log_name (st_file S ++ rest) → os_wf o → index_before o name S hash_size →
  store_ok S → hash_size = 0 ∨ valid_size hash_size → (length (st_entries S) < fuel)%nat →
  ∃ o', sparkey_hash_write fuel name log_name hash_size o = (Ok tt, o') ∧ index_after o o' name S.
Proof.
  intros Hf Hwf Hbefore Hst Hsize Hfuel. pose proof (load_stored S o log_name rest Hf) as Hload.
  destruct (open_stored S (opened o) log_name rest (opened_file o _ _ Hf Hwf) (opened_wf o Hwf))
    as (log & o2 & _ & Hopen & Hlog & _ & Hn2 & Hi2 & Hs2 & He2 & Hwf2 & Hfd2 & Hdel2).
  assert (Hidx := stored_indexable S log Hlog Hst). pose proof Hst as (Hshort & Hputs & _).
  assert (Hsame := λ c, has_file_same o o2 name c Hn2 Hi2 Hs2 Hwf2).
  change (os_entropy (opened o)) with (os_entropy o) in He2.
  set (lh := st_header S) in *.
  assert (Hfresh : bytes_ok (os_entropy o2) → (∃ o3, plan_hash name lh o2 =
      (Ok (HashPlan (lh_num_puts lh) (lh_header_size lh) (seed_of o2) 0 None), o3) ∧ same_files o2 o3 ∧
      os_entropy o3 = drop 4 (os_entropy o2)) →
    ∃ o', sparkey_hash_write fuel name log_name hash_size o = (Ok tt, o') ∧ index_after o o' name S).
  { intros Hentok (o3 & Hplan & Hsf & He3). pose proof Hsf as (_ & _ & Hfds3 & Hs3 & Hwf3).
    destruct (hash_write_fresh (L := st_cursor S log Hlog) fuel name log_name hash_size
      _ _ o (opened o) o2 o3 Hload Hopen Hs2 (proj1 Hlog) Hfd2 Hplan) as (o4 & Hrun & Hix); try done.
    { cbn. by apply seed_range. }
    eexists. split; [exact Hrun|]. eapply indexed_after; [done|done| |done..]. right. by rewrite He3, He2. }
  destruct Hbefore as [Hname Hent Hentok|c Hent Hentok Hof Hno|S1 es2 ho to Hg Hof Hpi Hkeep].
  - rewrite <- He2 in Hent, Hentok. apply Hfresh, plan_fresh; try done. left. by rewrite Hn2.
  - rewrite <- He2 in Hent, Hentok. apply Hfresh, plan_fresh; try done. right. exists c. split; [by apply Hsame|done].
  - destruct (decide (es2 = [])) as [->|Hne].
    + destruct (stored_hash_current fuel name log_name hash_size S1 S rest ho to to o)
        as (o' & Hrun & Hn' & Hi' & Hfd' & He' & Hs' & Hwf'); try done.
      exists o'. split; [done|]. split_and!; try done; [by left|by rewrite Hn'|by rewrite Hi'|].
      exists ho, to. split; [by apply (has_file_same o)|]. by eapply (stored_index_same S1), (Hpi _ (some_reader_opened S1)).
    + destruct (stored_old_header S1 S es2 ho to Hg Hpi) as (Hoh & Hde & Hho).
      destruct (hash_write_update (L := st_cursor S log Hlog) fuel name log_name hash_size
        _ ho to (length (st_entries S1)) o (opened o) o2 Hload Hopen Hwf2 (proj1 Hlog) Hfd2 (Hsame _ Hof) Hoh)
        as (o4 & Hrun & Hix); try done.
      * by apply (stored_old_table S1 S es2).
      * rewrite Hde. by apply Z.lt_neq, (grows_more _ _ _ Hg).
      * intros i Hi. rewrite Hde. by apply (grows_seek _ _ _ Hg).
      * eexists. split; [exact Hrun|]. eapply indexed_after; [exact Hix|..]; try done.
        -- split_and!; try done. by apply opened_wf, opened_wf.
        -- left. by rewrite <- He2.
Qed.

(** ** Opening an index with its log *)

(** The index of a header is as long as the header says. *)
Lemma index_length h :
  header_ok h → hh_header_size h = HASH_HEADER_SIZE →
  u64 (hh_header_size h + u64 (hh_hash_capacity h * u32 (hh_hash_size h + hh_address_size h))) =
    HASH_HEADER_SIZE + hh_hash_capacity h * slot_size h.
Proof.
  intros Hh Hsz. pose proof Hh as (Hcap & Hcap2 & _).
  destruct (slot_size_eq h Hh) as [Hss Hr].
  rewrite Hsz, u32_id by lia. rewrite <- Hss. unfold HASH_HEADER_SIZE.
  assert (0 ≤ hh_hash_capacity h * slot_size h < 2 ^ 62) by nia.
  by rewrite (u64_id (hh_hash_capacity h * slot_size h)), u64_id by lia.
Qed.

Lemma close_nodealloc_run log o :
  r_open_status log = MAGIC_VALUE_LOGREADER → is_Some (os_fds o !! r_fd log) →
  (sparkey_logreader_close_nodealloc (o, log)).2.1 = set_fds (delete (r_fd log) (os_fds o)) o.
Proof.
  intros Hst Hfd. pose proof (close_reader_run log o Hst Hfd) as H. unfold close_reader in H.
  unfold sparkey_logreader_close_nodealloc. rewrite bind_get_snd. cbn [snd].
  rewrite decide_False by tauto. destruct Hfd as [x Hx].
  unfold on_os, zoom, sys_close, mbind, M_bind. cbn [fst snd]. by rewrite Hx.
Qed.

(** Only descriptors differ. *)
Definition same_data (o o' : os) : Prop :=
  os_names o' = os_names o ∧ os_inodes o' = os_inodes o ∧ os_entropy o' = os_entropy o ∧
  os_sched o' = [] ∧ os_wf o'.

(** Both files load; what is left are the checks of one against the other. *)
Lemma hash_open_start {C : Codec} name log_name S rest h tbl o :
  has_file o name (hashheader_bytes h ++ tbl) → hashheader_typed h → hashheader_valid h →
  hh_major_version h = HASH_MAJOR_VERSION → hh_minor_version h = HASH_MINOR_VERSION →
  has_file o log_name (st_file S ++ rest) → os_wf o →
  ∃ log o2, sparkey_hash_open name log_name o = open_index name h log o2 ∧ opened_log S log ∧
    has_file o2 name (hashheader_bytes h ++ tbl) ∧ same_data o o2 ∧
    is_Some (os_fds o2 !! r_fd log) ∧ delete (r_fd log) (os_fds o2) = os_fds o.
Proof.
  intros Hf Hty Hval Hmaj Hmin Hlf Hwf.
  assert (Hs : os_sched o = []) by (destruct Hf as (? & _ & _ & ? & _); done).
  destruct (open_stored S (opened o) log_name rest (opened_file o _ _ Hlf Hwf) (opened_wf o Hwf))
    as (log & o2 & Hopen & _ & Hlog & _ & Hn2 & Hi2 & Hs2 & He2 & Hwf2 & Hfd2 & Hdel2).
  change (os_entropy (opened o)) with (os_entropy o) in He2.
  exists log, o2. split; [|split_and!; try done; by apply (has_file_same o)].
  unfold sparkey_hash_open. rewrite decide_False by (intros E; by apply E).
  rewrite (bind_Ok _ _ _ _ _ (sys_malloc_run o Hs)). cbn [negb].
  rewrite (bind_Ok _ _ _ _ _ (load_index o name h tbl Hf Hty Hval Hmaj Hmin)).
  by rewrite (bind_Ok _ _ _ _ _ Hopen).
Qed.

(** The two descriptors of a reader are new. *)
Definition reader_fds (o o' : os) (reader : sparkey_hashreader) : Prop :=
  is_Some (os_fds o' !! r_fd (hr_log reader)) ∧
  delete (hr_fd reader) (delete (r_fd (hr_log reader)) (os_fds o')) = os_fds o ∧
  ∀ fd, is_Some (os_fds o !! fd) → fd ≠ r_fd (hr_log reader) ∧ fd ≠ hr_fd reader.

Lemma opened_reader_fds o o2 ino reader :
  delete (r_fd (hr_log reader)) (os_fds o2) = os_fds o → is_Some (os_fds o2 !! r_fd (hr_log reader)) →
  hr_fd reader = os_next_fd o2 → os_fds o2 !! os_next_fd o2 = None →
  reader_fds o (at_off (os_next_fd o2) ino 0 (opened o2)) reader.
Proof.
  intros Hdel [x Hx] Hfd Hfresh. rewrite <- Hfd in *.
  assert (Hne : hr_fd reader ≠ r_fd (hr_log reader)) by (intros E; by rewrite E, Hx in Hfresh).
  assert (Hf : os_fds (at_off (hr_fd reader) ino 0 (opened o2)) =
    <[hr_fd reader := (ino, 0)]> (os_fds o2)) by done.
  unfold reader_fds. rewrite Hf. split_and!.
  - exists x. by rewrite lookup_insert_ne.
  - rewrite delete_insert_ne, Hdel by done. apply delete_insert_id.
    rewrite <- Hdel. by rewrite lookup_delete_ne.
  - intros fd [y Hy]. rewrite <- Hdel in Hy. apply lookup_delete_Some in Hy as [Hn Hy].
    split; [done|]. intros ->. by rewrite Hy in Hfresh.
Qed.

Lemma at_off_wf ino off o : os_wf o → os_wf (at_off (os_next_fd o) ino off (opened o)).
Proof.
  intros (H1 & H2 & H3 & H4). split_and!; [exact H1|exact H2| |cbn; lia].
  intros fd. cbn. destruct (decide (fd = os_next_fd o)) as [->|Hne]; [lia|].
  rewrite lookup_insert_ne by done. intros Hx. pose proof (H3 fd Hx). lia.
Qed.

(** An index answers for the log as it was when the index was written.  The log may have
    grown since, as far as the fields of the index can address. *)
Definition addressable {C : Codec} (S : stored) (h : sparkey_hashheader) : Prop :=
  ∀ log (Hlog : opened_log S log), addresses_ok (L := st_cursor S log Hlog) h.

(** This is so if the bits for the place in a block are enough for its blocks, and the field
    for its length. *)
Definition fields_reach {C : Codec} (S : stored) (h : sparkey_hashheader) : Prop :=
  int_log2 (lh_max_entries_per_block (st_header S)) ≤ hh_entry_block_bits h ∧
  lh_data_end (st_header S) * 2 ^ hh_entry_block_bits h ≤ field_limit (hh_address_size h).

Lemma fields_addressable {C : Codec} S h : header_ok h → fields_reach S h → addressable S h.
Proof.
  intros (_ & _ & _ & _ & _ & Hbits & _) (Hle & Hreach) log Hlog n e He. pose proof Hlog as (_ & Hhd & _).
  destruct (cur_block_range (LogCursor := st_cursor S log Hlog) n e He) as [Hr Hi0]. rewrite Hhd in Hr.
  destruct (st_valid S) as (_ & _ & Hsz & _). rewrite Hsz in Hr. unfold LOG_HEADER_SIZE in Hr.
  pose proof (st_index S log Hlog n e He) as Hi.
  assert (Hpow : 2 ^ int_log2 (lh_max_entries_per_block (st_header S)) ≤ 2 ^ hh_entry_block_bits h)
    by (apply Z.pow_le_mono_r; lia).
  split; [lia|]. split; [lia|]. nia.
Qed.

Lemma older_hash_open {C : Codec} name log_name S1 S es2 rest h tbl o :
  has_file o name (hashheader_bytes h ++ tbl) → has_file o log_name (st_file S ++ rest) →
  os_wf o → stored_index S1 h tbl → grows S1 S es2 → addressable S h →
  ∃ reader o' (Hlog : opened_log S (hr_log reader)),
    sparkey_hash_open name log_name o = (Ok reader, o') ∧ same_data o o' ∧ reader_fds o o' reader ∧
    hr_header reader = h ∧
    reader_upto (L := st_cursor S (hr_log reader) Hlog) (length (st_entries S1)) reader tbl.
Proof.
  intros Hf Hlf Hwf Hidx Hg Haddr. destruct (grows_ahead _ _ _ Hg) as (Hde2 & Hmk2 & Hmv2).
  pose proof (grows_id _ _ _ Hg) as Hgid. unfold st_id in Hgid.
  destruct (Hidx _ (some_reader_opened S1)) as (Htable & Hty & Hval & Hmaj & Hmin &
    Hid & Hde & Hmk & Hmv & _). pose proof Htable as (Hh & _ & Htbl & _).
  destruct (hash_open_start name log_name S rest h tbl o Hf Hty Hval Hmaj Hmin Hlf Hwf)
    as (log & o2 & Hstart & Hlog & Hf2 & (Hn2 & Hi2 & He2 & Hs2 & Hwf2) & Hfd2 & Hdel2). rewrite Hstart.
  assert (Hhd : r_header log = st_header S) by apply Hlog.
  unfold open_index, closing_log. rewrite Hhd, Hid, Hgid, Hde, Hmk, Hmv.
  rewrite decide_False by (intros E; by apply E). rewrite !(decide_False (P := _ > _)) by lia.
  destruct (sys_open_run _ _ _ Hf2) as (ino & Hn & [Hc Hs3] & Hfresh & Hso).
  rewrite (bind_Ok _ _ _ _ _ Hso). set (o3 := at_off (os_next_fd o2) ino 0 (opened o2)).
  assert (Hsz : hh_header_size h = HASH_HEADER_SIZE) by (unfold hashheader_typed in Hty; tauto).
  set (content := hashheader_bytes h ++ tbl) in *.
  assert (Hlen : HASH_HEADER_SIZE + hh_hash_capacity h * slot_size h = zlen content).
  { destruct Htbl as [_ <-]. unfold content. rewrite length_app, Nat2Z.inj_add, hashheader_bytes_length. done. }
  rewrite (index_length h Hh Hsz), Hlen.
  assert (Hstat : sys_stat_size name o3 = (Ok (Some (zlen content)), o3)).
  { unfold sys_stat_size, o3. cbn [os_names os_inodes at_off set_fds opened] in *. by rewrite Hn, Hc. }
  rewrite (bind_Ok _ _ _ _ _ Hstat), bind_of_opt, decide_False by lia.
  assert (Hm : sys_mmap (os_next_fd o2) (zlen content) o3 = (Ok (Some content), o3)).
  { unfold sys_mmap, pop, o3. cbn [os_sched os_fds os_inodes at_off set_fds opened] in *.
    rewrite Hs3. cbn [os_sched os_fds os_inodes at_off set_fds opened] in *.
    rewrite lookup_insert_eq, Hc. cbn [from_option id]. by rewrite Nat2Z.id, firstn_all. }
  rewrite (bind_Ok _ _ _ _ _ Hm).
  eexists (HashReader MAGIC_VALUE_HASHREADER h log (os_next_fd o2) (zlen content) (Some content)), o3, Hlog.
  change (os_fds (opened o2)) with (os_fds o2) in Hfresh.
  assert (Hwf3 : os_wf o3) by by apply at_off_wf.
  split; [reflexivity|]. split; [by split_and!|]. split; [by apply opened_reader_fds|]. split; [done|].
  split; [done|]. split; [done|]. split.
  - unfold hashtable_of. cbn [hr_data hr_header fmap option_fmap option_map]. rewrite Hsz. unfold content.
    rewrite drop_app_length'; [done|]. pose proof (hashheader_bytes_length h). lia.
  - apply (table_indexes_prefix (L1 := st_cursor S1 _ (some_reader_opened S1)) (es2 := es2)).
    + apply Hg.
    + intros p Hp. by apply (grows_places _ _ _ Hg).
    + done.
    + apply Haddr.
Qed.

Lemma stored_hash_open {C : Codec} name log_name S rest h tbl o :
  has_file o name (hashheader_bytes h ++ tbl) → has_file o log_name (st_file S ++ rest) →
  os_wf o → stored_index S h tbl →
  ∃ reader o' (Hlog : opened_log S (hr_log reader)),
    sparkey_hash_open name log_name o = (Ok reader, o') ∧ same_data o o' ∧ reader_fds o o' reader ∧
    hr_header reader = h ∧ reader_on (L := st_cursor S (hr_log reader) Hlog) reader tbl.
Proof.
  intros Hf Hlf Hwf Hidx. apply (older_hash_open _ _ S S [] rest); try done; [apply grows_refl|].
  intros log Hlog. by destruct (Hidx log Hlog) as ((_ & Ha & _) & _).
Qed.

(** ** What a store delivers *)

Lemma older_clients {C : Codec} name log_name S1 S es2 rest h tbl o :
  has_file o name (hashheader_bytes h ++ tbl) → has_file o log_name (st_file S ++ rest) →
  os_wf o → keys_short (es := st_entries S) → stored_index S1 h tbl → grows S1 S es2 → addressable S h →
  (∀ keys, Forall (λ k, bytes_ok k ∧ zlen k < 2 ^ 31) keys →
     (lookup_all name log_name keys o).1 = Ok ((λ k, replay (st_entries S1) !! k) <$> keys)) ∧
  (∀ fuel, (length (st_entries S) < fuel)%nat →
     (scan_live fuel name log_name o).1 = Ok (live_entries (st_entries S1))).
Proof.
  intros Hf Hlf Hwf Hshort Hidx Hg Haddr. set (n0 := length (st_entries S1)).
  assert (Hes : take n0 (st_entries S) = st_entries S1).
  { unfold n0. by rewrite (grows_entries _ _ _ Hg), take_app_length. }
  assert (Hn0 : (n0 ≤ length (st_entries S))%nat).
  { rewrite (grows_entries _ _ _ Hg), length_app. unfold n0. lia. }
  destruct (older_hash_open name log_name S1 S es2 rest h tbl o Hf Hlf Hwf Hidx Hg Haddr)
    as (reader & o1 & Hlog & Hopen & (_ & _ & _ & Hs & _) & _ & Hhd & Hon).
  set (L := st_cursor S (hr_log reader) Hlog) in *. rewrite <- Hes.
  destruct (cur_create (LogCursor := L) o1 Hs) as (i & Hc & Hb & Hr). split.
  - intros keys Hkeys. unfold lookup_all. rewrite (bind_Ok _ _ _ _ _ Hopen).
    unfold sparkey_hash_getreader. rewrite (bind_Ok _ _ _ _ _ Hc).
    by rewrite (get_values_spec (L := L) n0 Hn0 reader tbl keys i Hon Hr Hkeys).
  - intros fuel Hfuel. pose proof Hon as (_ & _ & _ & Hh & Ha & _).
    unfold scan_live. rewrite (bind_Ok _ _ _ _ _ Hopen).
    unfold sparkey_hash_getreader. rewrite (bind_Ok _ _ _ _ _ Hc).
    rewrite (read_live_spec (L := L) n0 Hn0 reader tbl fuel 0 i Hon Hshort Hb) by lia.
    by rewrite (live_from_entries (L := L) n0 Hn0) by (done || lia).
Qed.

Lemma indexed_clients {C : Codec} name log_name S rest h tbl o :
  has_file o name (hashheader_bytes h ++ tbl) → has_file o log_name (st_file S ++ rest) →
  os_wf o → store_ok S → stored_index S h tbl →
  (∀ keys, Forall (λ k, bytes_ok k ∧ zlen k < 2 ^ 31) keys →
     (lookup_all name log_name keys o).1 = Ok ((λ k, replay (st_entries S) !! k) <$> keys)) ∧
  (∀ fuel, (length (st_entries S) < fuel)%nat →
     (scan_live fuel name log_name o).1 = Ok (live_entries (st_entries S))).
Proof.
  intros Hf Hlf Hwf (Hshort & _) Hidx. apply (older_clients name log_name S S [] rest h tbl o); try done.
  - apply grows_refl.
  - intros log Hlog. by destruct (Hidx log Hlog) as ((_ & Ha & _) & _).
Qed.
