(* ===== verification/TableProps.v ===== *)
(** * The properties of the hash table

    Insertion and deletion refine the operations of a finite map; the statistics
    are those of the table; the capacity is enough; and what insertion does to a
    table that is full. *)

From stdpp Require Import base gmap list strings numbers.
From Stdlib Require Import ZArith Lia.
From S2P Require Import Prelude ReturnCodes Endian OS LogHeader HashAlg HashHeader Compress.
From S2P Require Import LogFormat LogWriter LogReader LogCursor PlainLog RobinHood HashTable.
From S2P Require Import TableBytes TableRefine TableStats HashWriter IndexFile.

Local Open Scope Z_scope.

(** ** An example *)

(** Tables of a few slots for the log of [es_example]. *)
Definition header_of (cap : Z) : sparkey_hashheader :=
  HashHeader 1 1 7 42 112 (log_end es_example) 2 1 0 0 4 4 cap 0 2 0 0 0 0
    (sparkey_get_hash_algorithm 4).

Definition state_of (cap : Z) (n : nat) : hstate :=
  HState (replicate (Z.to_nat (cap * 8)) 0) (header_of cap) (iter_on n) iter_example.

Lemma header_of_ok cap : 0 < cap < 2 ^ 50 → header_ok (header_of cap).
Proof. intros Hc. split_and!; try done; cbn; try lia; by left. Qed.

Lemma header_of_addresses cap : addresses_ok (L := cursor_example) (header_of cap).
Proof.
  intros n e He. pose proof (entry_start_range es_example es_example_ok n e He) as Hr.
  change (log_end es_example) with 95 in Hr. unfold LOG_HEADER_SIZE in Hr.
  split; [cbn; lia|]. split; [done|]. change (field_limit (hh_address_size (header_of cap))) with (2 ^ 32).
  change (hh_entry_block_bits (header_of cap)) with 0. change (cur_index n) with 0.
  change (cur_block n) with (entry_start es_example n). lia.
Qed.

Lemma state_of_inv cap n : 0 < cap < 2 ^ 50 → table_inv (L := cursor_example) (state_of cap n) ∅.
Proof.
  intros Hc. apply (empty_table_inv (L := cursor_example));
    [by apply header_of_ok|apply header_of_addresses|done|].
  change (slot_size (header_of cap)) with 8. change (hh_hash_capacity (header_of cap)) with cap.
  rewrite u64_id by lia. f_equal. lia.
Qed.

Lemma example_iters n tb h : (n < 3)%nat →
  iters_ok (L := cursor_example) n (HState tb h (iter_on n) iter_example).
Proof.
  intros Hn. split; [exists 0%nat; by apply iter_on_key|]. split; [done|by left].
Qed.

(** The table with one entry, ready for entry [n]. *)
Lemma one_entry cap n : 0 < cap < 2 ^ 50 → (n < 3)%nat →
  ∃ st, table_inv (L := cursor_example) st {[ [7] := addr_of (L := cursor_example) (header_of cap) 1 ]} ∧
    iters_ok (L := cursor_example) n st ∧ t_header st = added_entry (header_of cap).
Proof.
  intros Hc Hn. destruct (hash_put_spec (L := cursor_example) (state_of cap 1) ∅ 1 [7] [] (state_of_inv cap 1 Hc)
    (example_iters 1 _ _ ltac:(lia)) eq_refl) as (st1 & _ & Hinv & _ & Hhd).
  { change (hh_hash_capacity (t_header (state_of cap 1))) with cap. rewrite map_size_empty. lia. }
  rewrite insert_empty in Hinv.
  exists (HState (t_table st1) (t_header st1) (iter_on n) iter_example).
  split; [by apply (table_inv_same st1)|]. split; [by apply example_iters|exact Hhd].
Qed.

(** ** Properties *)

(** C6. Inserting the entry under the iterator into a table with a free slot binds its
    key to its address, whatever the collisions and displacements: the table stays
    well formed and ordered, no other binding changes, a key that was there before
    keeps one slot, and the iterator stays on its entry. *)
Theorem hash_put_refines {C : Codec} {log es} {L : LogCursor log es} st m n k v :
  let h := t_header st in
  table_inv st m → iters_ok n st → es !! n = Some (Put k v) →
  Z.of_nat (size m) < hh_hash_capacity h →
  let '(r, st') :=
    hash_put (hash_key h k mod hh_hash_capacity h) (hash_key h k) (Some log) (addr_of h n) st in
  r = Ok tt ∧ table_inv st' (<[k := addr_of h n]> m) ∧ iters_ok n st' ∧
  hh_num_entries (t_header st') =
    hh_num_entries h + (if decide (is_Some (m !! k)) then 0 else 1).
Proof.
  intros h Hinv Hit He Hroom.
  destruct (hash_put_spec st m n k v Hinv Hit He Hroom) as (st' & Hrun & Hinv' & Hit' & Hhd).
  unfold h. rewrite Hrun. split; [done|]. split; [done|]. split; [done|].
  destruct Hinv as (_ & _ & _ & _ & _ & _ & ->), Hinv' as (_ & _ & _ & _ & _ & _ & ->).
  rewrite map_size_insert. destruct (m !! k) as [a|].
  - rewrite decide_True by by eexists. cbn. lia.
  - rewrite decide_False by (by intros [? ?]). lia.
Qed.

Lemma hash_put_refines_witness :
  ∃ st', hash_put (C := identity_codec) (hash_key (header_of 3) [1; 2] mod 3) (hash_key (header_of 3) [1; 2])
    (Some reader_example) (addr_of (L := cursor_example) (header_of 3) 0) (state_of 3 0) = (Ok tt, st') ∧
    hh_num_entries (t_header st') = 1.
Proof.
  pose proof (hash_put_refines (L := cursor_example) (state_of 3 0) ∅ 0 [1; 2] [3]
    (state_of_inv 3 0 ltac:(lia)) (example_iters 0 _ _ ltac:(lia)) eq_refl ltac:(done)) as H.
  change (t_header (state_of 3 0)) with (header_of 3) in H. change (hh_hash_capacity (header_of 3)) with 3 in H.
  destruct (hash_put _ _ _ _ _) as [r st']. destruct H as (-> & _ & _ & Hn). by exists st'.
Defined.

(** C7. Deleting the key under the iterator removes its binding, if there is one, by
    shifting the entries behind it back: every other key stays reachable, and the
    order that ends searches early is restored. *)
Theorem hash_delete_refines {C : Codec} {log es} {L : LogCursor log es} st m n e :
  let h := t_header st in
  let k := entry_key e in
  table_inv st m → iters_ok n st → es !! n = Some e →
  let '(r, st') := hash_delete (hash_key h k mod hh_hash_capacity h) (hash_key h k) log st in
  r = Ok tt ∧ table_inv st' (delete k m) ∧ iters_ok n st' ∧
  hh_num_entries (t_header st') =
    hh_num_entries h - (if decide (is_Some (m !! k)) then 1 else 0).
Proof.
  intros h k Hinv Hit He.
  destruct (hash_delete_spec st m n e Hinv Hit He) as (st' & Hrun & Hinv' & Hit' & Hhd).
  unfold h, k. rewrite Hrun. split; [done|]. split; [done|]. split; [done|].
  destruct Hinv as (_ & _ & _ & _ & _ & _ & ->), Hinv' as (_ & _ & _ & _ & _ & _ & ->).
  rewrite map_size_delete. destruct (m !! entry_key e) as [a|] eqn:Hk.
  - rewrite decide_True by by eexists.
    assert (size m ≠ 0%nat) by (intros E; apply map_size_empty_iff in E; by rewrite E in Hk). lia.
  - rewrite decide_False by (by intros [? ?]). cbn. lia.
Qed.

Lemma hash_delete_refines_witness :
  ∃ st st', table_inv (L := cursor_example) st
      {[ [7] := addr_of (L := cursor_example) (header_of 3) 1 ]} ∧
    hash_delete (C := identity_codec) (hash_key (t_header st) [7] mod hh_hash_capacity (t_header st))
      (hash_key (t_header st) [7]) reader_example st = (Ok tt, st') ∧
    table_inv (L := cursor_example) st' ∅.
Proof.
  destruct (one_entry 3 2 ltac:(lia) ltac:(lia)) as (st & Hinv & Hit & _).
  assert (He : es_example !! 2%nat = Some (Delete [7])) by done.
  pose proof (hash_delete_refines (L := cursor_example) st _ 2 _ Hinv Hit He) as H.
  cbn [entry_key] in H.
  exists st. destruct (hash_delete _ _ _ st) as [r st'] eqn:E. destruct H as (-> & H & _).
  exists st'. split; [exact Hinv|]. split; [done|]. by rewrite delete_singleton_eq in H.
Defined.

(** ** A full table *)

Section Full.
Context {C : Codec} {log : sparkey_logreader} {es : list entry} {L : LogCursor log es}.

Definition full (h : sparkey_hashheader) (tbl : list Z) : Prop :=
  ∀ s, slot_ok (hh_hash_capacity h) s → occ (slots h tbl) s.

(** As many entries as slots leave no slot empty. *)
Lemma contents_full h tbl m :
  header_ok h →
  contents (key_of h) (hash_key h) (slot_ok (hh_hash_capacity h)) (slots h tbl) m →
  Z.of_nat (size m) = hh_hash_capacity h → full h tbl.
Proof.
  intros (Hcap & _) Hc Hsize s Hs. apply dec_stable. intros Hno.
  pose proof (size_occupied _ _ _ _ _ Hc) as Hocc.
  assert (Hlt : (length (occupied (hh_hash_capacity h) (slots h tbl)) < length (seqZ 0 (hh_hash_capacity h)))%nat).
  { apply (length_filter_lt _ _ s); [|done]. unfold slot_ok in Hs. apply elem_of_seqZ. lia. }
  rewrite length_seqZ in Hlt. lia.
Qed.

(** Carrying an entry through a full table never ends: whatever is exchanged, no
    slot becomes free. *)
Lemma carry_full lg fuel st s hash position d :
  let h := t_header st in
  header_ok h → table_ok h (t_table st) → full h (t_table st) →
  slot_ok (hh_hash_capacity h) s → pair_ok h (hash, position) → position ≠ 0 →
  (hash_put_loop fuel lg hash (s * slot_size h) s d position false st).1 = NoFuel.
Proof.
  revert st s hash position d. induction fuel as [|fuel IH]; intros st s hash position d h Hh Ht Hfull Hs Hp Hz;
    cbn [hash_put_loop]; [done|]. fold h.
  destruct (read_slot_run h Hh (t_table st) s Ht Hs) as [Hread Hpair2].
  pose proof (Hfull s Hs) as Hos. unfold occ in Hos.
  rewrite bind_getS. fold h. rewrite Hread, bind_of_opt.
  destruct (slots h (t_table st) s) as [hash2 position2]. cbn [snd] in Hos. rewrite decide_False by done.
  assert (Hno : (match lg with
                 | Some log => if false && bool_decide (hash = hash2)
                               then same_key log (block_position_of h position2)
                                      (entry_index_of h position2) else mret None
                 | None => mret None
                 end : MH (option (Z * Z))) st = (Ok None, st)) by by destruct lg.
  rewrite (bind_Ok _ _ _ _ _ Hno), next_slot_run by done. cbv beta iota zeta.
  assert (Hns : slot_ok (hh_hash_capacity h) (nxt (hh_hash_capacity h) s)) by (apply nxt_ok; [apply Hh|done]).
  destruct (decide (d > _)); [|by apply IH].
  destruct (put_slot_run h st s (hash, position) eq_refl Hh Ht Hs Hp) as (tbl & Hput & Ht1 & Hsl).
  rewrite (bind_Ok _ _ _ _ _ Hput). apply (IH (set_t_table tbl st)); try done.
  intros t Htk. cbn [t_table t_header set_t_table] in *. fold h. rewrite Hsl.
  destruct (decide (t = s)) as [->|Hne]; [by apply occ_upd_eq|]. rewrite occ_upd_ne by done. by apply Hfull.
Qed.

Lemma search_full st m n k v fuel s d :
  let h := t_header st in
  table_inv st m → iters_ok n st → es !! n = Some (Put k v) → m !! k = None → full h (t_table st) →
  slot_ok (hh_hash_capacity h) s →
  (hash_put_loop fuel (Some log) (hash_key h k) (s * slot_size h) s d (addr_of h n) true st).1 = NoFuel.
Proof.
  revert st s d. induction fuel as [|fuel IH]; intros st s d h Hinv Hit He Hk Hfull Hs;
    cbn [hash_put_loop]; [done|]. fold h.
  pose proof Hinv as (Hh & Ha & Ht & _ & _ & Hcont & _). fold h in Hh, Ha, Ht.
  destruct (read_slot_run h Hh (t_table st) s Ht Hs) as [Hread Hpair2].
  pose proof (Hfull s Hs) as Hos.
  destruct (compare_slot h st m n (Put k v) s eq_refl Hh Ha Hcont Hit He Hs Hos)
    as (n2 & k2 & v2 & st1 & He2 & Hf & Hm2 & _ & _ & Hcmp & Hit1 & Hsame).
  cbn [entry_key] in Hcmp. assert (Hne : k ≠ k2) by congruence.
  rewrite bind_getS. fold h. rewrite Hread, bind_of_opt. unfold occ in Hos. rewrite Hf in *. cbn [fst snd] in *.
  rewrite decide_False by done.
  assert (Hcmp' : (if true && bool_decide (hash_key h k = hash_key h k2)
     then same_key log (block_position_of h (addr_of h n2)) (entry_index_of h (addr_of h n2))
     else mret None) st = (Ok None, st1)).
  { rewrite (decide_False (P := k = k2)) in Hcmp by done. rewrite <- Hcmp. cbn [andb].
    by case_bool_decide; case_decide. }
  rewrite (bind_Ok _ _ _ _ _ Hcmp'), next_slot_run by done. cbv beta iota zeta.
  assert (Hns : slot_ok (hh_hash_capacity h) (nxt (hh_hash_capacity h) s)) by (apply nxt_ok; [apply Hh|done]).
  pose proof Hsame as [Htab1 Hhd1]. pose proof (key_pair_ok h n k v Hh Ha He) as Hp.
  destruct (addr_split h Hh Ha n _ He) as (_ & _ & Hpos).
  assert (Hh1 : t_header st1 = h) by done. destruct (decide (d > _)).
  - destruct (put_slot_run h st1 s (hash_key h k, addr_of h n) Hh1 Hh ltac:(by rewrite Htab1) Hs Hp)
      as (tbl & Hput & Ht1 & Hsl). cbn [fst snd] in Hput.
    rewrite (bind_Ok _ _ _ _ _ Hput), <- Hh1.
    apply (carry_full _ fuel (set_t_table tbl st1)); cbn [t_header t_table set_t_table]; rewrite ?Hh1; try done.
    intros t Htk. rewrite Hsl. destruct (decide (t = s)) as [->|Hts]; [apply occ_upd_eq; cbn; lia|].
    rewrite occ_upd_ne, Htab1 by done. by apply Hfull.
  - rewrite <- Hh1. apply (IH st1); rewrite ?Hh1, ?Htab1; try done. by apply (table_inv_same st).
Qed.

End Full.

(** C38. Inserting a key that is not there into a table without a free slot never
    returns: the loop goes round and round for any number of steps.  The capacity
    that sparkey_hash_write computes is what keeps it from this. *)
Theorem hash_put_full_diverges {C : Codec} {log es} {L : LogCursor log es} st m n k v fuel :
  let h := t_header st in
  let w := hash_key h k mod hh_hash_capacity h in
  table_inv st m → iters_ok n st → es !! n = Some (Put k v) → m !! k = None →
  Z.of_nat (size m) = hh_hash_capacity h →
  (hash_put_loop fuel (Some log) (hash_key h k) (u64 (w * slot_size h)) w 0 (addr_of h n) true st).1
    = NoFuel.
Proof.
  intros h w Hinv Hit He Hk Hsize. pose proof Hinv as (Hh & _ & _ & _ & _ & Hc & _). fold h in Hh.
  pose proof (contents_full _ _ m Hh Hc Hsize) as Hfull. pose proof Hh as (Hcap & _).
  assert (Hw : slot_ok (hh_hash_capacity h) w) by (by apply Z.mod_pos_bound).
  destruct (slot_bounds h Hh w Hw) as (_ & _ & _ & -> & _). by apply (search_full st m n k v).
Qed.

Lemma hash_put_full_diverges_witness :
  ∃ st, table_inv (L := cursor_example) st
      {[ [7] := addr_of (L := cursor_example) (header_of 1) 1 ]} ∧
    ∀ fuel, (hash_put_loop (C := identity_codec) fuel (Some reader_example) (hash_key (t_header st) [1; 2])
      (u64 (hash_key (t_header st) [1; 2] mod hh_hash_capacity (t_header st) * slot_size (t_header st)))
      (hash_key (t_header st) [1; 2] mod hh_hash_capacity (t_header st)) 0
      (addr_of (L := cursor_example) (t_header st) 0) true st).1 = NoFuel.
Proof.
  destruct (one_entry 1 0 ltac:(lia) ltac:(lia)) as (st & Hinv & Hit & Hhd).
  exists st. split; [exact Hinv|]. intros fuel.
  apply (hash_put_full_diverges (L := cursor_example) st _ 0 [1; 2] [3] fuel Hinv Hit); [done| |].
  - by rewrite lookup_singleton_ne.
  - by rewrite map_size_singleton, Hhd.
Defined.

(** C35. The capacity for [n] entries: it is odd, at least [n] and at most twice as
    large and one, although it is computed with a rounded product of doubles. *)
Theorem capacity_enough n :
  0 ≤ n < 2 ^ 60 →
  ∃ c, hash_capacity_of n = Some c ∧ n ≤ c ≤ 2 * n + 1 ∧ 0 < c ∧ Z.odd c = true.
Proof.
  intros Hn. destruct (hash_capacity_bounds n Hn) as (c & Hc & Hge & Hpos).
  exists c. split_and!; try done; try lia. unfold hash_capacity_of in Hc.
  destruct (double_to_u64 _) as [v|]; [|done]. injection Hc as <-.
  by rewrite <- Z.bit0_odd, Z.lor_spec.
Qed.

Lemma capacity_enough_witness : hash_capacity_of 10 = Some 13 ∧ ∃ c, hash_capacity_of 10 = Some c ∧ 10 ≤ c ≤ 21.
Proof.
  split; [done|]. destruct (capacity_enough 10 ltac:(lia)) as (c & Hc & Hr & _). by exists c.
Defined.

(** C36. The statistics of a table: max_displacement is the largest displacement of an entry,
    total_displacement the sum of all on 64 bits, and hash_collisions the number of
    entries whose hash is also in the next slot.  When the table is in robin-hood order
    and the header counts its entries, no more than the puts, the loader's checks of the
    header pass. *)
Theorem statistics_exact h tbl :
  let cap := hh_hash_capacity h in
  let f := slots h tbl in
  header_ok h → table_ok h tbl →
  ∃ max h',
    calculate_max_displacement h tbl = Some h' ∧
    h' = set_hh_displacement (u64 (total_disp cap f cap)) max (collisions cap f cap) h ∧
    (∀ s, slot_ok cap s → occ f s → disp cap f s ≤ max) ∧
    (max = 0 ∨ ∃ s, slot_ok cap s ∧ occ f s ∧ disp cap f s = max) ∧
    collisions cap f cap ≤ zlen (occupied cap f) ∧
    (ordered cap f → hh_num_entries h = zlen (occupied cap f) → hh_num_entries h ≤ hh_num_puts h →
     hashheader_checks h' = None).
Proof.
  intros cap f Hh Ht. destruct (calculate_max_displacement_spec h Hh tbl Ht) as (max & Hrun & Hmax & Hatt).
  eexists max, _. split; [exact Hrun|]. split_and!; try done; [apply collisions_occupied|].
  intros Hord Hn Hputs. by apply statistics_accepted.
Qed.

(** Three slots; the entries have the hash 3, and the second is not in its place. *)
Example crowded_table : list Z :=
  [3; 0; 0; 0; 84; 0; 0; 0; 3; 0; 0; 0; 90; 0; 0; 0; 0; 0; 0; 0; 0; 0; 0; 0].

Lemma statistics_exact_witness :
  let h := added_entry (added_entry (header_of 3)) in
  ∃ h', calculate_max_displacement h crowded_table = Some h' ∧ hashheader_checks h' = None ∧
    hh_total_displacement h' = 1 ∧ hh_max_displacement h' = 1 ∧ hh_hash_collisions h' = 1.
Proof.
  intros h. assert (Hh : header_ok h) by (apply (header_of_ok 3); lia).
  assert (Ht : table_ok h crowded_table) by (split; [by repeat constructor|done]).
  destruct (statistics_exact h crowded_table Hh Ht) as (mx & h' & Hrun & _ & _ & _ & _ & Hload).
  exists h'. split; [exact Hrun|]. split.
  - apply Hload; [|vm_compute; reflexivity|vm_compute; discriminate].
    intros s Hs. change (hh_hash_capacity h) with 3 in *. unfold slot_ok in Hs.
    assert (s = 0 ∨ s = 1 ∨ s = 2) as [->|[->| ->]] by lia.
    + intros _. right. split; [by vm_compute|]. vm_compute. discriminate.
    + intros Ho. vm_compute in Ho. done.
    + intros _. left. by vm_compute.
  - assert (E : (λ h, (hh_total_displacement h, hh_max_displacement h, hh_hash_collisions h)) <$>
      calculate_max_displacement h crowded_table = Some (1, 1, 1)) by (vm_compute; reflexivity).
    rewrite Hrun in E. by injection E as -> -> ->.
Defined.

(** The only entry has the hash 0, like the empty slots: one collision is counted. *)
Theorem zero_hash_collides :
  hh_hash_collisions <$> calculate_max_displacement (added_entry (header_of 3)) ([0; 0; 0; 0; 84] ++ replicate 19 0)
    = Some 1.
Proof. vm_compute. reflexivity. Qed.

(** A table of one slot: the code compares the hash of the last slot with that of
    the first, which is the same entry, and counts a collision. *)
Theorem lone_entry_collides h tbl :
  header_ok h → table_ok h tbl → hh_hash_capacity h = 1 → occ (slots h tbl) 0 →
  ∃ total max, calculate_max_displacement h tbl = Some (set_hh_displacement total max 1 h).
Proof.
  intros Hh Ht Hcap Hocc. assert (Hs : slot_ok (hh_hash_capacity h) 0) by (unfold slot_ok; lia).
  destruct (read_slot_run h Hh tbl 0 Ht Hs) as [Hread _].
  destruct (slot_bounds h Hh 0 Hs) as (_ & _ & _ & Hu & _).
  unfold calculate_max_displacement. rewrite Hcap. change (Z.to_nat 1) with 1%nat. cbn [stats_loop].
  unfold stats_step. rewrite Hu, Hread.
  unfold occ in Hocc. destruct (slots h tbl 0) as [hash position]. cbn [mbind option_bind st_prev snd] in *.
  rewrite (decide_True (P := position ≠ 0)) by done. rewrite Hcap, (decide_False (P := None = Some hash)) by done.
  rewrite !(decide_True (P := 0 = _)) by done.
  cbn [st_first st_last st_num_hash_collisions st_total_displacement st_max_displacement mbind option_bind].
  rewrite (decide_True (P := hash = hash)) by done. by eexists _, _.
Qed.

Lemma lone_entry_collides_witness :
  ∃ st total max, calculate_max_displacement (added_entry (header_of 1)) (t_table st) =
    Some (set_hh_displacement total max 1 (added_entry (header_of 1))).
Proof.
  destruct (one_entry 1 0 ltac:(lia) ltac:(lia)) as (st & Hinv & _ & Hhd).
  pose proof Hinv as (Hh & _ & Ht & _ & _ & (_ & Hin & _) & _).
  destruct (Hin [7] _ (lookup_singleton_eq _ _)) as (s & Hs & Hocc & _).
  unfold slot_ok in Hs. unfold st_slots in Hocc. rewrite Hhd in Hh, Ht, Hs, Hocc.
  change (hh_hash_capacity (added_entry (header_of 1))) with 1 in Hs. assert (s = 0) as -> by lia.
  exists st. by apply (lone_entry_collides _ _ Hh Ht eq_refl Hocc).
Defined.
