(* ===== verification/StoreProps.v ===== *)
(** * The properties of a log with its index

    What the index writer leaves behind, and what lookups and scans through the
    index return, in terms of the entries of the log. *)

From stdpp Require Import base gmap list strings numbers.
From Stdlib Require Import ZArith Lia.
From S2P Require Import Prelude ReturnCodes Endian OS LogHeader HashAlg HashHeader Buf Compress.
From S2P Require Import LogFormat LogWriter LogReader LogCursor PlainLog BlockFormat StoredLog LogProps RobinHood.
From S2P Require Import HashTable TableBytes TableRefine HashWriter IndexFile IndexCopy HashReader Store.

Local Open Scope Z_scope.

(** Writing a log and its index, and looking keys up in them. *)
Definition store_and_look_up {C : Codec} (fuel : nat) (hash_filename log_filename : string)
    (t block_size hash_size : Z) (es : list entry) (keys : list (list Z))
    : MC os (list (option (list Z))) :=
  _ ← write_log log_filename t block_size es;
  _ ← sparkey_hash_write fuel hash_filename log_filename hash_size;
  lookup_all hash_filename log_filename keys.

Definition short_keys (keys : list (list Z)) : Prop :=
  Forall (λ k, bytes_ok k ∧ zlen k < 2 ^ 31) keys.

(** ** Helper *)

Lemma written_log {C : Codec} filename t bs es S o :
  os_sched o = [] → os_wf o → (4 ≤ length (os_entropy o))%nat → bytes_ok (os_entropy o) →
  written t bs (seed_of o) es S →
  ∃ o', write_log filename t bs es o = (Ok tt, o') ∧ has_file o' filename (st_file S) ∧ os_wf o' ∧
    os_entropy o' = drop 4 (os_entropy o) ∧ (∀ n, n ≠ filename → os_names o' !! n = os_names o !! n).
Proof.
  intros Hs Hwf He Hb Hw.
  destruct (write_stored filename t bs es o S Hs Hwf He Hw)
    as (o' & Hrun & Hwf' & Hs' & He' & (ino & Hn & Hc) & _ & Hnames & _).
  exists o'. split_and!; try done. exists ino. split_and!; try done. by apply wf_fresh_fd.
Qed.

(** Indexing a log leaves the log as it was. *)
Lemma written_index {C : Codec} fuel name log_name hash_size S o :
  has_file o log_name (st_file S) → os_wf o → name ≠ log_name → index_before o name S hash_size →
  store_ok S → hash_size = 0 ∨ valid_size hash_size → (length (st_entries S) < fuel)%nat →
  ∃ o' h tbl, sparkey_hash_write fuel name log_name hash_size o = (Ok tt, o') ∧ os_wf o' ∧
    has_file o' log_name (st_file S) ∧ has_file o' name (hashheader_bytes h ++ tbl) ∧
    stored_index S h tbl.
Proof.
  intros Hf Hwf Hne Hb Hst Hsize Hfuel. pose proof Hf as Hf0. rewrite <- (app_nil_r (st_file S)) in Hf0.
  destruct (stored_hash_write fuel name log_name hash_size S [] o Hf0 Hwf Hb Hst Hsize Hfuel)
    as (o' & Hrun & Hwf' & Hs' & _ & _ & Hn' & Hi' & h & tbl & Hf' & Hidx).
  exists o', h, tbl. split_and!; try done. destruct Hf as (ino & Hn & Hc & _). exists ino.
  rewrite (Hn' log_name) by done. split_and!; [done|by apply Hi'|done|by apply wf_fresh_fd].
Qed.

(** A log is not an index: the magic numbers differ. *)
Lemma log_not_index {C : Codec} S h tbl : st_file S ≠ hashheader_bytes h ++ tbl.
Proof. intros E. apply (f_equal (take 4)) in E. vm_compute in E. discriminate. Qed.

(** Appending to the log leaves the index as it was. *)
Lemma appended_log {C : Codec} name log_name es S1 S2 h tbl o :
  has_file o log_name (st_file S1) → has_file o name (hashheader_bytes h ++ tbl) → os_wf o →
  appended es S1 S2 →
  ∃ o', append_log log_name es o = (Ok tt, o') ∧ os_wf o' ∧ os_entropy o' = os_entropy o ∧
    has_file o' log_name (st_file S2) ∧ has_file o' name (hashheader_bytes h ++ tbl).
Proof.
  intros Hf Hi Hwf Ha.
  destruct (append_stored log_name es S1 S2 o Hf Hwf Ha)
    as (ino & o' & Hrun & Hino & Hn & Hc & Hother & Hwf' & Hs' & He' & _).
  exists o'. split_and!; try done.
  - exists ino. rewrite Hn. split_and!; try done. by apply wf_fresh_fd.
  - destruct Hi as (i & Hni & Hci & _). exists i. rewrite Hn.
    split_and!; [done| |done|by apply wf_fresh_fd]. rewrite Hother; [done|]. intros ->.
    destruct Hf as (ino' & Hn' & Hc' & _). assert (ino' = ino) as -> by congruence.
    rewrite Hci in Hc'. apply (inj Some) in Hc'. by apply (log_not_index S1 h tbl).
Qed.

(** A store for examples: the log of [es_example], without and with its index. *)
Lemma es_example_short : keys_short (es := es_example).
Proof. intros n e He. do 3 (destruct n as [|n]; [by simplify_eq/=|]). done. Qed.

Lemma example_log_ok : store_ok (C := identity_codec) example_log.
Proof. split; [exact es_example_short|done]. Qed.

Lemma example_blocks_ok fid Hfid : store_ok (C := identity_codec) (example_blocks fid Hfid).
Proof. split; [exact es_example_short|done]. Qed.

(** An environment with a log and another file in place of its index. *)
Example os_pair (log index : list Z) : os :=
  OS {[ 0%nat := log; 1%nat := index ]}
     {[ "a.spl"%string := 0%nat; "a.spi"%string := 1%nat ]} ∅ 2 3 [] [1; 2; 3; 4].

Lemma os_pair_wf log index : os_wf (os_pair log index).
Proof.
  split_and!; cbn [os_pair os_names os_inodes os_fds os_next_inode os_next_fd]; [| | |lia].
  - intros n i. rewrite lookup_insert_Some, lookup_singleton_Some.
    intros [[_ <-]|[_ [_ <-]]]; by eexists.
  - intros i. destruct i as [|[|i]]; [lia|lia|]. intros [x Hx].
    by rewrite lookup_insert_ne, lookup_singleton_ne in Hx by done.
  - intros fd [x Hx]. by rewrite lookup_empty in Hx.
Qed.

Lemma os_pair_log log index : has_file (os_pair log index) "a.spl" log.
Proof. by exists 0%nat. Qed.

Lemma os_pair_index log index : has_file (os_pair log index) "a.spi" index.
Proof. by exists 1%nat. Qed.

(** Every log has an index: the writer makes one. *)
Lemma some_index {C : Codec} S : store_ok S → ∃ h tbl, stored_index S h tbl.
Proof.
  intros Hst. destruct (stored_hash_write (1 + length (st_entries S)) "b.spi" "a.spl" 0 S [] (os_pair (st_file S ++ []) []))
    as (o' & _ & _ & _ & _ & _ & _ & _ & h & tbl & _ & Hidx); [apply os_pair_log|apply os_pair_wf| |done|by left|lia|].
  - apply no_index; [done|cbn; lia|by repeat constructor].
  - by exists h, tbl.
Qed.

Example os_store (index : list Z) : os := os_pair (log_file 7 es_example) index.

Lemma os_store_wf index : os_wf (os_store index).
Proof. apply os_pair_wf. Qed.

Lemma os_store_log index : has_file (os_store index) "a.spl" (log_file 7 es_example ++ []).
Proof. rewrite app_nil_r. by exists 0%nat. Qed.

Lemma os_store_index index : has_file (os_store index) "a.spi" index.
Proof. by exists 1%nat. Qed.

(** It has an index. *)
Lemma index_of_example : ∃ h tbl, stored_index (C := identity_codec) example_log h tbl.
Proof. apply some_index, example_log_ok. Qed.

(** In it, the place in a block takes no bits, and an address four bytes. *)
Definition loaded_fields (r : res returncode sparkey_hashheader) : option (Z * Z) :=
  match r with Ok h => Some (hh_entry_block_bits h, hh_address_size h) | _ => None end.

Lemma index_of_example_fields :
  ∃ h tbl, stored_index (C := identity_codec) example_log h tbl ∧
    hh_entry_block_bits h = 0 ∧ hh_address_size h = 4.
Proof.
  assert (Hfields : loaded_fields ((_ ← sparkey_hash_write (C := identity_codec) 9 "b.spi" "a.spl" 0;
    sparkey_load_hashheader "b.spi") (os_store [])).1 = Some (0, 4)) by (vm_compute; reflexivity).
  destruct (written_index (C := identity_codec) 9 "b.spi" "a.spl" 0 example_log (os_store []))
    as (o1 & h & tbl & Hrun & _ & _ & Hf & Hidx).
  - rewrite <- (app_nil_r (st_file _)). apply os_store_log.
  - apply os_store_wf.
  - done.
  - apply no_index; [done|cbn; lia|by repeat constructor].
  - exact example_log_ok.
  - by left.
  - cbn; lia.
  - exists h, tbl. split; [done|].
    destruct (Hidx _ (some_reader_opened example_log)) as (_ & Hty & Hval & Hmaj & Hmin & _).
    rewrite (bind_Ok _ _ _ _ _ Hrun), (load_index _ _ _ _ Hf Hty Hval Hmaj Hmin) in Hfields.
    cbn [fst loaded_fields] in Hfields. injection Hfields as -> ->. by split.
Qed.

(** The second session: more entries, and an index brought up to date. *)
Definition store_grow_and_look_up {C : Codec} (fuel : nat) (hash_filename log_filename : string)
    (t block_size : Z) (es1 es2 : list entry) (keys : list (list Z))
    : MC os (list (option (list Z))) :=
  _ ← write_log log_filename t block_size es1;
  _ ← sparkey_hash_write fuel hash_filename log_filename 0;
  _ ← append_log log_filename es2;
  _ ← sparkey_hash_write fuel hash_filename log_filename 0;
  lookup_all hash_filename log_filename keys.

(** ** Properties *)

(** C1. Storing and looking up: after a log is written, with or without compression, and
    indexed, a lookup of any key returns the value of its last put, unless a deletion came
    later: the index answers as the map that replaying the entries gives. Keys are shorter
    than 2^31 bytes; with compression a block has at least ten bytes, the encoded lengths of
    every entry fit in one, and the log has no more puts, and no more deletes, than bytes,
    so that it opens. *)
Theorem store_roundtrip {C : Codec} fuel name log_name t block_size hash_size es S keys o :
  os_sched o = [] → os_wf o → (8 ≤ length (os_entropy o))%nat → bytes_ok (os_entropy o) →
  name ≠ log_name → os_names o !! name = None →
  written t block_size (seed_of o) es S → store_ok S →
  hash_size = 0 ∨ valid_size hash_size → (length es < fuel)%nat → short_keys keys →
  (store_and_look_up fuel name log_name t block_size hash_size es keys o).1 =
    Ok ((λ k, replay es !! k) <$> keys).
Proof.
  intros Hs Hwf He Hb Hne Hn Hw Hst Hsize Hfuel Hkeys. destruct (written_entries _ _ _ _ _ Hw) as [<- _].
  destruct (written_log log_name t block_size _ S o Hs Hwf ltac:(lia) Hb Hw)
    as (o1 & Hrun1 & Hf1 & Hwf1 & He1 & Hn1).
  unfold store_and_look_up. rewrite (bind_Ok _ _ _ _ _ Hrun1).
  assert (Hbefore : index_before o1 name S hash_size).
  { apply no_index; [by rewrite Hn1|rewrite He1, length_drop; lia|rewrite He1; by apply bytes_ok_drop]. }
  destruct (written_index fuel name log_name hash_size S o1 Hf1 Hwf1 Hne Hbefore Hst Hsize Hfuel)
    as (o2 & h & tbl & Hrun & Hwf2 & Hlf2 & Hf2 & Hidx).
  rewrite (bind_Ok _ _ _ _ _ Hrun). rewrite <- (app_nil_r (st_file S)) in Hlf2.
  by apply (indexed_clients name log_name S [] h tbl o2 Hf2 Hlf2 Hwf2 Hst Hidx).
Qed.

Lemma store_roundtrip_witness :
  (store_and_look_up (C := identity_codec) 9 "a.spi" "a.spl" SPARKEY_COMPRESSION_SNAPPY 10 0 es_example
     [[1; 2]; [7]; [5]] os_empty).1 = Ok [Some [3]; None; None].
Proof.
  rewrite (store_roundtrip (C := identity_codec) 9 "a.spi" "a.spl" SPARKEY_COMPRESSION_SNAPPY 10 0 es_example
    (example_blocks (seed_of os_empty) seed_of_empty) [[1; 2]; [7]; [5]] os_empty eq_refl os_empty_wf);
    [done|cbn; lia|by repeat constructor|done|done|by apply example_blocks_written|
    exact (example_blocks_ok _ _)|by left|cbn; lia|by repeat constructor].
Defined.

(** C2. A store that grows, while it has fewer than 2^22 puts, below which the hash size
    that the library chooses is kept: entries appended after the log was indexed, and a
    second call of sparkey_hash_write, which copies the table of the old index and adds the
    new entries to it, give the answers of the whole sequence of entries. In a compressed
    log the appended entries start a new block; its blocks have at least ten bytes, the
    encoded lengths of every entry fit in one, and it has no more puts, and no more deletes,
    than bytes, so that it opens. Keys are shorter than 2^31 bytes. *)
Theorem store_grows {C : Codec} fuel name log_name t block_size es1 es2 S1 S2 keys o :
  os_sched o = [] → os_wf o → (8 ≤ length (os_entropy o))%nat → bytes_ok (os_entropy o) →
  name ≠ log_name → os_names o !! name = None →
  written t block_size (seed_of o) es1 S1 → appended es2 S1 S2 → store_ok S1 → store_ok S2 →
  zlen (puts_of (es1 ++ es2)) < 2 ^ 22 → (length (es1 ++ es2) < fuel)%nat → short_keys keys →
  (store_grow_and_look_up fuel name log_name t block_size es1 es2 keys o).1 =
    Ok ((λ k, replay (es1 ++ es2) !! k) <$> keys).
Proof.
  intros Hs Hwf He Hb Hne Hn Hw Ha Hst1 Hst Hfew Hfuel Hkeys. destruct (written_entries _ _ _ _ _ Hw) as [<- _].
  pose proof (appended_grows _ _ _ Ha) as Hg. pose proof (grows_entries _ _ _ Hg) as Hes.
  rewrite length_app in Hfuel.
  destruct (written_log log_name t block_size _ S1 o Hs Hwf ltac:(lia) Hb Hw)
    as (o1 & Hrun1 & Hf1 & Hwf1 & He1 & Hn1).
  unfold store_grow_and_look_up. rewrite (bind_Ok _ _ _ _ _ Hrun1).
  assert (Hbefore : index_before o1 name S1 0).
  { apply no_index; [by rewrite Hn1|rewrite He1, length_drop; lia|rewrite He1; by apply bytes_ok_drop]. }
  destruct (written_index fuel name log_name 0 S1 o1 Hf1 Hwf1 Hne Hbefore Hst1
    ltac:(by left) ltac:(lia)) as (o2 & h & tbl & Hrun & Hwf2 & Hlf2 & Hf2 & Hidx).
  rewrite (bind_Ok _ _ _ _ _ Hrun).
  destruct (appended_log name log_name es2 S1 S2 h tbl o2 Hlf2 Hf2 Hwf2 Ha)
    as (o3 & Happ & Hwf3 & He3 & Hlf3 & Hf3). rewrite (bind_Ok _ _ _ _ _ Happ).
  assert (Hbefore3 : index_before o3 name S2 0).
  { apply (older_index _ _ _ _ S1 es2 h tbl); try done. right. rewrite Hes. split; [done|by right]. }
  destruct (written_index fuel name log_name 0 S2 o3 Hlf3 Hwf3 Hne Hbefore3 Hst
    ltac:(by left)) as (o4 & h4 & tbl4 & Hrun4 & Hwf4 & Hlf4 & Hf4 & Hidx4); [rewrite Hes, length_app; lia|].
  rewrite (bind_Ok _ _ _ _ _ Hrun4), <- Hes. rewrite <- (app_nil_r (st_file S2)) in Hlf4.
  by apply (indexed_clients name log_name S2 [] h4 tbl4 o4 Hf4 Hlf4 Hwf4 Hst Hidx4).
Qed.

Lemma store_grows_witness :
  (store_grow_and_look_up (C := identity_codec) 9 "a.spi" "a.spl" SPARKEY_COMPRESSION_NONE 0 es_example
     [Put [7] [9]; Delete [1; 2]] [[1; 2]; [7]; [5]] os_empty).1 = Ok [None; Some [9]; None].
Proof.
  assert (Hok : log_ok (es_example ++ [Put [7] [9]; Delete [1; 2]])) by (split; [repeat constructor; done|done]).
  rewrite (store_grows (C := identity_codec) 9 "a.spi" "a.spl" SPARKEY_COMPRESSION_NONE 0 es_example
    [Put [7] [9]; Delete [1; 2]]
    (plain_stored (C := identity_codec) (seed_of os_empty) es_example seed_of_empty es_example_ok)
    (plain_stored (C := identity_codec) (seed_of os_empty) _ seed_of_empty Hok)
    [[1; 2]; [7]; [5]] os_empty eq_refl os_empty_wf);
    [done|cbn; lia|by repeat constructor|done|done|by constructor|constructor| | |done|cbn; lia|
     by repeat constructor]; (split; [|done]); intros n e He;
    do 5 (destruct n as [|n]; [by simplify_eq/=|]); done.
Defined.

(** C8. Writing an index of a log with keys shorter than 2^31 bytes, whatever of these has
    its name before: nothing; a file of at least three words whose header does not load or
    is that of another log; or an index of this log or of a prefix of it, if the hash size
    is kept -- the caller asks for the old one, or for none and the old one is 8 or the log
    has fewer than 2^22 puts. (Where the size changes the call can hang: rebuild_hangs.) The
    new file is an index whose header counts the live keys and the garbage and records where
    the log ends, and which answers every lookup; the log and all other files stay as they
    are, even the old index for those who have it open; no descriptor stays open. *)
Theorem hash_write_indexes {C : Codec} fuel name log_name hash_size S rest o :
  has_file o log_name (st_file S ++ rest) → os_wf o → name ≠ log_name →
  index_before o name S hash_size → store_ok S →
  hash_size = 0 ∨ valid_size hash_size → (length (st_entries S) < fuel)%nat →
  let es := st_entries S in
  let '(r, o') := sparkey_hash_write fuel name log_name hash_size o in
  r = Ok tt ∧ os_fds o' = os_fds o ∧
  (∀ n, n ≠ name → os_names o' !! n = os_names o !! n) ∧
  (∀ i c, os_inodes o !! i = Some c → os_inodes o' !! i = Some c) ∧
  (∃ h tbl, has_file o' name (hashheader_bytes h ++ tbl) ∧
     hh_file_identifier h = st_id S ∧ hh_data_end h = lh_data_end (st_header S) ∧
     hh_num_puts h = zlen (puts_of es) ∧ hh_num_entries h = Z.of_nat (size (replay es)) ∧
     hh_garbage_size h = u64 (zlen (log_body es) - live_size (replay es))) ∧
  (∀ keys, short_keys keys →
     (lookup_all name log_name keys o').1 = Ok ((λ k, replay es !! k) <$> keys)).
Proof.
  intros Hf Hwf Hne Hb Hst Hsize Hfuel.
  destruct (stored_hash_write fuel name log_name hash_size S rest o Hf Hwf Hb Hst Hsize Hfuel)
    as (o' & -> & Hwf' & Hs' & Hfds' & _ & Hn' & Hi' & h & tbl & Hf' & Hidx).
  assert (Hlf : has_file o' log_name (st_file S ++ rest)).
  { destruct Hf as (ino & Hn & Hc & _). exists ino. rewrite (Hn' log_name) by done.
    split_and!; [done|by apply Hi'|done|by apply wf_fresh_fd]. }
  destruct (Hidx _ (some_reader_opened S)) as (_ & _ & _ & _ & _ & Hid & Hde & _ & _ & Hnp & Hent & Hg).
  split_and!; try done.
  - exists h, tbl. rewrite <- st_puts. by split_and!.
  - by apply (indexed_clients name log_name S rest h tbl o' Hf' Hlf Hwf' Hst Hidx).
Qed.

Lemma hash_write_indexes_witness :
  let o := os_store (hashheader_bytes hashheader_example) in
  (sparkey_hash_write (C := identity_codec) 9 "a.spi" "a.spl" 8 o).1 = Ok tt.
Proof.
  intros o.
  pose proof (hash_write_indexes (C := identity_codec) 9 "a.spi" "a.spl" 8 example_log [] o) as H.
  destruct (sparkey_hash_write 9 "a.spi" "a.spl" 8 o) as [r o']. apply H; try done; try (cbn; lia).
  - apply os_store_log.
  - apply os_store_wf.
  - apply (unrelated_file _ _ _ _ (hashheader_bytes hashheader_example ++ [])); [cbn; lia|by repeat constructor| |].
    + rewrite app_nil_r. apply os_store_index.
    + apply header_foreign; try done. by repeat split; try left.
  - exact example_log_ok.
  - right. by right.
Defined.

(** C9. A scan with hashnext over a log and its index delivers, in the order of the log,
    the puts that no later entry replaces or deletes: every live key once, with its
    last value, and nothing else. *)
Theorem scan_live_entries {C : Codec} name log_name S rest h tbl o fuel :
  has_file o name (hashheader_bytes h ++ tbl) → has_file o log_name (st_file S ++ rest) →
  os_wf o → store_ok S → stored_index S h tbl → (length (st_entries S) < fuel)%nat →
  let live := live_entries (st_entries S) in
  (scan_live fuel name log_name o).1 = Ok live ∧ NoDup (entry_key <$> live) ∧
  ∀ e, e ∈ live ↔ ∃ k v, e = Put k v ∧ replay (st_entries S) !! k = Some v.
Proof.
  intros Hf Hlf Hwf Hst Hidx Hfuel live. split_and!.
  - by apply (indexed_clients name log_name S rest h tbl o Hf Hlf Hwf Hst Hidx).
  - apply live_entries_nodup.
  - intros e. split.
    + intros He. destruct (live_entries_in _ _ He) as [_ Hp]. destruct e as [k v|k]; [|done].
      exists k, v. split; [done|]. by apply replay_live.
    + intros (k & v & -> & Hk). by apply replay_live.
Qed.

Lemma scan_live_entries_witness :
  ∃ h tbl live, (scan_live (C := identity_codec) 9 "a.spi" "a.spl"
      (os_store (hashheader_bytes h ++ tbl))).1 = Ok live ∧ Put [1; 2] [3] ∈ live.
Proof.
  destruct index_of_example as (h & tbl & Hidx).
  destruct (scan_live_entries (C := identity_codec) "a.spi" "a.spl" example_log [] h tbl
    (os_store (hashheader_bytes h ++ tbl)) 9 (os_store_index _) (os_store_log _) (os_store_wf _)
    example_log_ok Hidx ltac:(cbn; lia)) as (Hrun & _ & Hiff).
  exists h, tbl, (live_entries es_example). split; [exact Hrun|]. apply Hiff.
  exists [1; 2], [3]. split; vm_compute; reflexivity.
Defined.

(** C10. An index that is older than its log answers for the log as it was: when entries
    were appended and the index was not written again, lookups return the values of then,
    and a scan visits the entries that were live then, while reading the log delivers the
    new entries too. (The bits and the size of the addresses in the index must still reach
    the end of the log.) *)
Theorem older_index_answers {C : Codec} fuel name log_name S1 S2 es rest h tbl keys o :
  has_file o name (hashheader_bytes h ++ tbl) → has_file o log_name (st_file S2 ++ rest) → os_wf o →
  stored_index S1 h tbl → appended es S1 S2 → keys_short (es := st_entries S2) → fields_reach S2 h →
  (length (st_entries S2) < fuel)%nat → short_keys keys →
  (lookup_all name log_name keys o).1 = Ok ((λ k, replay (st_entries S1) !! k) <$> keys) ∧
  (scan_live fuel name log_name o).1 = Ok (live_entries (st_entries S1)) ∧
  (read_log fuel log_name o).1 = Ok (st_entries S1 ++ es).
Proof.
  intros Hf Hlf Hwf Hidx Happ Hshort Hreach Hfuel Hkeys. pose proof (appended_grows _ _ _ Happ) as Hg.
  destruct (Hidx _ (some_reader_opened S1)) as ((Hh & _) & _).
  destruct (older_clients name log_name S1 S2 es rest h tbl o Hf Hlf Hwf Hshort Hidx Hg
    (fields_addressable _ _ Hh Hreach)) as [Hlook Hscan].
  split; [by apply Hlook|]. split; [by apply Hscan|].
  rewrite <- (grows_entries _ _ _ Hg). by apply (read_stored S2 o log_name rest).
Qed.

Lemma older_index_answers_witness :
  ∃ o, (lookup_all (C := identity_codec) "a.spi" "a.spl" [[1; 2]; [7]] o).1 = Ok [Some [3]; None] ∧
    (scan_live (C := identity_codec) 9 "a.spi" "a.spl" o).1 = Ok (live_entries es_example) ∧
    (read_log (C := identity_codec) 9 "a.spl" o).1 = Ok (es_example ++ [Put [7] [9]; Delete [1; 2]]).
Proof.
  assert (Hok : log_ok (es_example ++ [Put [7] [9]; Delete [1; 2]])) by (split; [repeat constructor; done|done]).
  destruct index_of_example_fields as (h & tbl & Hidx & Hbits & Hsize).
  assert (Happ : ∃ Hfid, appended [Put [7] [9]; Delete [1; 2]] example_log
    (plain_stored (C := identity_codec) 7 _ Hfid Hok)) by (eexists; constructor).
  destruct Happ as [Hfid Happ].
  pose proof (os_store_log (hashheader_bytes h ++ tbl)) as Hlf. rewrite app_nil_r in Hlf.
  destruct (appended_log "a.spi" "a.spl" _ example_log _ h tbl _ Hlf (os_store_index _) (os_store_wf _) Happ)
    as (o & _ & Hwf & _ & Hlog & Hind). exists o. rewrite <- (app_nil_r (st_file _)) in Hlog.
  destruct (older_index_answers 9 "a.spi" "a.spl" _ _ _ _ h tbl [[1; 2]; [7]] o Hind Hlog Hwf Hidx Happ)
    as (Hlook & Hscan & Hread).
  - intros n e He. do 5 (destruct n as [|n]; [by simplify_eq/=|]). done.
  - split; rewrite Hbits; [done|]. by rewrite Hsize.
  - cbn; lia.
  - by repeat constructor.
  - rewrite Hlook, Hscan, Hread. split; [vm_compute; reflexivity|done].
Defined.

(** C32. Indexing twice: on an index of the whole log, whose hash size is not to change,
    sparkey_hash_write succeeds without touching any file or name. *)
Theorem hash_write_idempotent {C : Codec} fuel name log_name hash_size S rest h tbl o :
  has_file o log_name (st_file S ++ rest) → has_file o name (hashheader_bytes h ++ tbl) →
  os_wf o → store_ok S → stored_index S h tbl → keeps_size (es := st_entries S) h hash_size →
  let '(r, o') := sparkey_hash_write fuel name log_name hash_size o in
  r = Ok tt ∧ os_names o' = os_names o ∧ os_inodes o' = os_inodes o ∧ os_fds o' = os_fds o ∧
  os_entropy o' = os_entropy o.
Proof.
  intros Hf Hi Hwf Hst Hidx Hkeep.
  by destruct (stored_hash_current fuel name log_name hash_size S S rest h tbl tbl o Hf Hi Hwf Hst (grows_refl S)
    Hidx Hkeep) as (o' & -> & ? & ? & ? & ? & _).
Qed.

(** C37. An index of another log, or one that is ahead of the log or has longer keys or
    values than it, is refused when it is opened; nothing stays open. *)
Theorem hash_open_refuses {C : Codec} name log_name S rest h tbl o :
  has_file o name (hashheader_bytes h ++ tbl) → hashheader_typed h → hashheader_valid h →
  hh_major_version h = HASH_MAJOR_VERSION → hh_minor_version h = HASH_MINOR_VERSION →
  has_file o log_name (st_file S ++ rest) → os_wf o →
  hh_file_identifier h ≠ st_id S ∨ lh_data_end (st_header S) < hh_data_end h ∨
    max_len entry_key (puts_of (st_entries S)) < hh_max_key_len h ∨
    max_len entry_value (puts_of (st_entries S)) < hh_max_value_len h →
  let '(r, o') := sparkey_hash_open name log_name o in
  r = Err (if decide (hh_file_identifier h ≠ st_id S) then SPARKEY_FILE_IDENTIFIER_MISMATCH
           else SPARKEY_HASH_HEADER_CORRUPT) ∧
  os_fds o' = os_fds o.
Proof.
  intros Hi Hty Hval Hmaj Hmin Hf Hwf Hbad.
  destruct (hash_open_start name log_name S rest h tbl o Hi Hty Hval Hmaj Hmin Hf Hwf)
    as (log & o2 & Hstart & Hlog & _ & _ & Hfd2 & Hdel2). rewrite Hstart.
  assert (Hhd : r_header log = st_header S) by apply Hlog.
  assert (Hfail : ∀ e, closing_log log (fail e : MC os sparkey_hashreader) o2 =
    (Err e, set_fds (delete (r_fd log) (os_fds o2)) o2)).
  { intros e. unfold closing_log, fail. by rewrite (close_nodealloc_run log o2 (proj1 Hlog) Hfd2). }
  unfold open_index. rewrite Hhd. fold (st_id S). rewrite st_key_len, st_value_len.
  destruct (decide (hh_file_identifier h ≠ st_id S)); [by rewrite Hfail|].
  destruct (decide (hh_data_end h > _)); [by rewrite Hfail|].
  destruct (decide (hh_max_key_len h > _)); [by rewrite Hfail|].
  destruct (decide (hh_max_value_len h > _)); [by rewrite Hfail|]. exfalso. tauto || lia.
Qed.

Lemma hash_open_refuses_witness :
  (sparkey_hash_open "a.spi" "a.spl" (os_store (hashheader_bytes hashheader_example))).1 =
    Err SPARKEY_FILE_IDENTIFIER_MISMATCH.
Proof.
  pose proof (hash_open_refuses (C := identity_codec) "a.spi" "a.spl" example_log [] hashheader_example []
    (os_store (hashheader_bytes hashheader_example))) as H.
  destruct (sparkey_hash_open _ _ _) as [r o']. apply H; clear H.
  - rewrite app_nil_r. by exists 1%nat.
  - by repeat split.
  - repeat split; try done. by left.
  - done.
  - done.
  - apply os_store_log.
  - apply os_store_wf.
  - by left.
Defined.

(** An index that is shorter than its header says is refused too, but the
    descriptor on which it was opened stays open. *)
Theorem hash_open_leaks {C : Codec} name log_name S rest h tbl o :
  has_file o name (hashheader_bytes h ++ tbl) → hashheader_typed h → hashheader_valid h →
  hh_major_version h = HASH_MAJOR_VERSION → hh_minor_version h = HASH_MINOR_VERSION →
  has_file o log_name (st_file S ++ rest) → os_wf o →
  hh_file_identifier h = st_id S → hh_data_end h ≤ lh_data_end (st_header S) →
  hh_max_key_len h ≤ max_len entry_key (puts_of (st_entries S)) →
  hh_max_value_len h ≤ max_len entry_value (puts_of (st_entries S)) → header_ok h →
  zlen tbl < hh_hash_capacity h * slot_size h →
  let '(r, o') := sparkey_hash_open name log_name o in
  r = Err SPARKEY_HASH_TOO_SMALL ∧ size (os_fds o') = (1 + size (os_fds o))%nat.
Proof.
  intros Hi Hty Hval Hmaj Hmin Hf Hwf Hid Hde Hmk Hmv Hh Hshort.
  destruct (hash_open_start name log_name S rest h tbl o Hi Hty Hval Hmaj Hmin Hf Hwf)
    as (log & o2 & Hstart & Hlog & Hf2 & (_ & _ & _ & Hs2 & Hwf2) & Hfd2 & Hdel2). rewrite Hstart.
  assert (Hhd : r_header log = st_header S) by apply Hlog.
  rewrite <- st_key_len in Hmk. rewrite <- st_value_len in Hmv. fold (st_id S) in Hid.
  unfold open_index. rewrite Hhd.
  destruct (sys_open_run _ _ _ Hf2) as (ino & Hn & [Hc _] & Hfresh & Hopen).
  change (os_fds (opened o2)) with (os_fds o2) in Hfresh.
  rewrite !(decide_False (P := _ > _)) by lia. rewrite decide_False by (rewrite Hid; tauto).
  unfold closing_log. rewrite (bind_Ok _ _ _ _ _ Hopen).
  set (o3 := at_off (os_next_fd o2) ino 0 (opened o2)).
  assert (Hstat : sys_stat_size name o3 = (Ok (Some (zlen (hashheader_bytes h ++ tbl))), o3)).
  { unfold sys_stat_size, o3. cbn [os_names os_inodes at_off set_fds opened] in *. by rewrite Hn, Hc. }
  rewrite (bind_Ok _ _ _ _ _ Hstat), bind_of_opt.
  assert (Hsz : hh_header_size h = HASH_HEADER_SIZE) by (unfold hashheader_typed in Hty; tauto).
  rewrite (index_length h Hh Hsz), decide_True.
  2:{ rewrite length_app, Nat2Z.inj_add, hashheader_bytes_length. unfold HASH_HEADER_SIZE. lia. }
  unfold fail. rewrite (close_nodealloc_run log o3 (proj1 Hlog)).
  - split; [done|]. cbn [snd fst os_fds set_fds o3 at_off opened].
    assert (Hne : r_fd log ≠ os_next_fd o2) by (intros E; rewrite E, Hfresh in Hfd2; by destruct Hfd2).
    rewrite delete_insert_ne by done. rewrite Hdel2, map_size_insert_None; [done|].
    rewrite <- Hdel2, lookup_delete_ne by done. exact Hfresh.
  - destruct Hfd2 as [x Hx]. exists x. cbn. rewrite lookup_insert_ne; [done|]. intros E.
    by rewrite <- E, Hfresh in Hx.
Qed.

(** The header of an index of [es_example] whose table is missing. *)
Example header_short : sparkey_hashheader :=
  HashHeader 1 1 7 42 112 (log_end es_example) 2 1 0 1 4 4 3 0 2 0 0 0 0 (sparkey_get_hash_algorithm 4).

Lemma hash_open_leaks_witness :
  (sparkey_hash_open "a.spi" "a.spl" (os_store (hashheader_bytes header_short))).1 =
    Err SPARKEY_HASH_TOO_SMALL.
Proof.
  pose proof (hash_open_leaks (C := identity_codec) "a.spi" "a.spl" example_log [] header_short []
    (os_store (hashheader_bytes header_short))) as H.
  destruct (sparkey_hash_open _ _ _) as [r o']. apply H; clear H.
  - rewrite app_nil_r. by exists 1%nat.
  - by repeat split.
  - repeat split; try done. by left.
  - done.
  - done.
  - apply os_store_log.
  - apply os_store_wf.
  - done.
  - done.
  - done.
  - done.
  - split_and!; try done; by left.
  - done.
Defined.

Lemma hash_write_idempotent_witness :
  ∃ h tbl, (sparkey_hash_write (C := identity_codec) 9 "a.spi" "a.spl" 0
    (os_store (hashheader_bytes h ++ tbl))).1 = Ok tt.
Proof.
  destruct index_of_example as (h & tbl & Hidx). exists h, tbl.
  pose proof (hash_write_idempotent (C := identity_codec) 9 "a.spi" "a.spl" 0 example_log [] h tbl
    (os_store (hashheader_bytes h ++ tbl)) (os_store_log _) (os_store_index _) (os_store_wf _)
    example_log_ok Hidx) as H.
  destruct (sparkey_hash_write _ _ _ _ _) as [r o']. apply H. right. split; [done|by right].
Defined.

(** ** Indexes that are not checked enough *)

(** A header that says that the table has no slots. *)
Example header_no_slots : sparkey_hashheader :=
  HashHeader 1 1 7 42 112 (log_end es_example) 2 1 0 0 4 4 0 0 2 0 0 0 0 (sparkey_get_hash_algorithm 4).

(** Such an index opens, and the first lookup divides by its capacity, which is zero. *)
Theorem no_slots_undefined :
  (lookup_all (C := identity_codec) "a.spi" "a.spl" [] (os_store (hashheader_bytes header_no_slots))).1 = Ok [] ∧
  (lookup_all (C := identity_codec) "a.spi" "a.spl" [[1; 2]] (os_store (hashheader_bytes header_no_slots))).1 = UB.
Proof. split; vm_compute; reflexivity. Qed.
