(* ===== verification/Rebuild.v ===== *)
(** * Rebuilding an index with another hash size

    When the size of the hashes changes, sparkey_hash_write discards the old table and
    reads the whole log again, but computes the capacity from what the old index
    counts.  The section follows the loop over the log until the table is full, for
    any bound on the rounds of an insertion. *)

From stdpp Require Import base gmap list strings numbers.
From Stdlib Require Import ZArith Lia.
From S2P Require Import Prelude ReturnCodes Endian OS LogHeader HashAlg HashHeader Buf Compress.
From S2P Require Import LogFormat LogWriter LogReader LogCursor PlainLog BlockFormat StoredLog LogProps RobinHood.
From S2P Require Import HashTable TableBytes TableRefine HashWriter IndexFile IndexCopy HashReader Store.
From S2P Require Import TableProps StoreProps.

Local Open Scope Z_scope.

Section Overfull.
Context {C : Codec} {R : PutRounds} {log : sparkey_logreader} {es : list entry} {L : LogCursor log es}.

(** A table holds no more entries than it has slots. *)
Lemma table_size st m : table_inv st m → Z.of_nat (size m) ≤ hh_hash_capacity (t_header st).
Proof.
  intros (Hh & _ & _ & _ & _ & Hc & _). destruct Hh as (Hcap & _).
  by apply (contents_size _ Hcap _ _ _ _ Hc).
Qed.

(** With another bound an entry that is added takes the same steps, or runs out. *)
Lemma hash_entry_rounds st st' :
  hash_entry (R := enough_rounds) log st = (Ok tt, st') →
  (hash_entry (R := R) log st).1 = NoFuel ∨ hash_entry (R := R) log st = (Ok tt, st').
Proof.
  unfold hash_entry. rewrite !bind_getS. unfold mbind, M_bind.
  destruct (on_iter _ st) as [[kh|e| |] s1]; try by right. cbn [getS].
  destruct (i_type (t_iter s1)); [|by right]. intros Hput. by apply hash_put_rounds.
Qed.

(** A put of a new key, when no slot is free. *)
Lemma hash_entry_hangs n k v st :
  table_inv st (address_map (t_header st) n) → keys_short (es := es) → es !! n = Some (Put k v) →
  cur_key n 0 (t_iter st) → i_block_position (t_iter st) = cur_block n →
  i_entry_count (t_iter st) = cur_index n → cur_ready (t_ra_iter st) →
  Z.of_nat (size (address_map (t_header st) n)) = hh_hash_capacity (t_header st) →
  address_map (t_header st) n !! k = None →
  (hash_entry (R := R) log st).1 = NoFuel.
Proof.
  intros Hinv Hshort He Hk Hbp Hec Hra Hsize Hnone. set (h := t_header st) in *.
  pose proof Hinv as (Hh & _ & _ & _ & _ & Hc & _). fold h in Hh, Hc.
  destruct (iter_hash_spec h n (Put k v) (t_iter st) Hh Hk He (Hshort n _ He)) as (i1 & off & Hhash & Hk1).
  destruct (cur_key_entry _ _ _ Hk1) as (x & Hx & (_ & Hty & _) & _). simplify_eq.
  set (st1 := HState (t_table st) h i1 (t_ra_iter st)).
  assert (Hon : on_iter (sparkey_iter_hash h log) st = (Ok (hash_key h k), st1)).
  { unfold on_iter, zoom. by rewrite Hhash. }
  unfold hash_entry. rewrite bind_getS. fold h. rewrite (bind_Ok _ _ _ _ _ Hon), bind_getS.
  cbn [t_iter st1]. rewrite Hty. unfold entry_address. rewrite Hbp, Hec. fold (addr_of h n).
  cbn [is_put]. unfold hash_put. rewrite bind_getS. cbn [t_header st1].
  pose proof Hh as (Hcap & _).
  assert (Hw : slot_ok (hh_hash_capacity h) (hash_key h k mod hh_hash_capacity h)) by (by apply Z.mod_pos_bound).
  destruct (slot_bounds h Hh _ Hw) as (_ & _ & _ & -> & _).
  apply (search_full st1 (address_map h n) n k v); try done; [split; [by eexists|done]|].
  by apply (contents_full h _ (address_map h n)).
Qed.

(** The loop over the log does not get past a prefix with more live keys than slots. *)
Lemma hash_write_loop_hangs fuel n m st :
  table_inv st (address_map (t_header st) n) → keys_short (es := es) → (n ≤ m ≤ length es)%nat →
  cur_before n (t_iter st) → cur_ready (t_ra_iter st) →
  hh_hash_capacity (t_header st) < Z.of_nat (size (address_map (t_header st) m)) →
  (hash_write_loop (R := R) fuel log st).1 = NoFuel.
Proof.
  revert n st. induction fuel as [|fuel IH]; intros n st Hinv Hshort Hm Hb Hr Hfull; [done|].
  pose proof (table_size _ _ Hinv) as Hsize.
  assert (n ≠ m) by (intros ->; lia).
  destruct (lookup_lt_is_Some_2 es n) as [e He]; [lia|].
  destruct (cur_next n e _ Hb He) as (i1 & Hnext & Hk & Hbp & Hec).
  cbn [hash_write_loop]. erewrite bind_Ok; [|unfold on_iter, zoom; by rewrite Hnext]. rewrite bind_getS.
  destruct (cur_key_entry _ _ _ Hk) as (? & _ & (Hst & _) & _). cbn [t_iter]. rewrite Hst.
  set (st1 := HState (t_table st) (t_header st) i1 (t_ra_iter st)).
  assert (Hgo : (is_put e = true → Z.of_nat (size (address_map (t_header st) n)) < hh_hash_capacity (t_header st) ∨
      is_Some (address_map (t_header st) n !! entry_key e)) →
    ((_ ← hash_entry (R := R) log; hash_write_loop (R := R) fuel log) st1).1 = NoFuel).
  { intros Hroom.
    destruct (hash_entry_table n e st1) as (st2 & Hrun & Hinv2 & Hb2 & Hr2 & Hhd); try done.
    destruct (hash_entry_rounds st1 st2 Hrun) as [Hno|Hrun']; [by apply bind_NoFuel|].
    rewrite (bind_Ok _ _ _ _ _ Hrun'). apply (IH (S n)); try done; [lia|]. rewrite Hhd.
    destruct (entry_header_counts (t_header st1) n e) as (g & c & ->). by rewrite address_map_counts. }
  destruct e as [k v|k]; [|by apply Hgo].
  destruct (address_map (t_header st) n !! k) as [a|] eqn:Hnone; [apply Hgo; right; by eexists|].
  destruct (decide (Z.of_nat (size (address_map (t_header st) n)) < hh_hash_capacity (t_header st)));
    [apply Hgo; by left|].
  apply bind_NoFuel, (hash_entry_hangs n k v); try done. cbn [t_header st1]. lia.
Qed.

(** So neither does the rest of the call, when the old table is not copied. *)
Lemma planned_hangs fuel m name lh plan h hash_size i o :
  new_header plan lh hash_size o = (Ok h, o) → header_ok h → addresses_ok h →
  hh_num_entries h = 0 → copied_header plan h = None → os_sched o = [] → keys_short (es := es) → cur_before 0 i → cur_ready i → (m ≤ length es)%nat →
  hh_hash_capacity h < Z.of_nat (size (address_map h m)) →
  (hash_write_planned (R := R) fuel name lh log i i plan hash_size o).1 = NoFuel.
Proof.
  intros Hnew Hh Ha Hne Hcp Hs Hshort Hb Hr Hm Hfull. unfold hash_write_planned.
  rewrite (bind_Ok _ _ _ _ _ Hnew), (bind_Ok _ _ _ _ _ (sys_malloc_run o Hs)). cbn [negb]. rewrite Hcp.
  set (st := HState (replicate (Z.to_nat (u64 (slot_size h * hh_hash_capacity h))) 0) h i i).
  pose proof (hash_write_loop_hangs fuel 0 m st) as Hloop. unfold fill_and_write. apply bind_NoFuel.
  unfold with_table. rewrite bind_ret. unfold on_table, zoom. cbn [snd fst].
  destruct (hash_write_loop fuel log st) as [r st']. cbn [fst] in Hloop.
  rewrite Hloop; [done|by apply empty_table_inv|done|lia|done|done|done].
Qed.

End Overfull.

(** ** The whole call *)

(** The size of the hashes changes: by the caller's wish, or because the table gets at
    least 2^23 slots and the old index has hashes of 4 bytes. *)
Definition changes_size (ho : sparkey_hashheader) (hash_size cap : Z) : Prop :=
  valid_size hash_size ∧ hash_size ≠ hh_hash_size ho ∨
  hash_size = 0 ∧ hh_hash_size ho = 4 ∧ 2 ^ 23 ≤ cap.

Lemma new_header_capacity plan lh hash_size h o o' :
  new_header plan lh hash_size o = (Ok h, o') →
  hash_capacity_of (p_count plan) = Some (hh_hash_capacity h).
Proof.
  unfold new_header. destruct (hash_capacity_of (p_count plan)) as [cap|]; rewrite ?bind_of_opt; [|done].
  destruct (block_bitmask _); rewrite ?bind_of_opt; [|done].
  case_match; [|done]. by intros [= <- _].
Qed.

Lemma changed_size plan ho hash_size cap :
  p_old plan = Some ho → changes_size ho hash_size cap →
  ∀ h, choose_hash_size plan cap hash_size = Some (hh_hash_size h) → copied_header plan h = None.
Proof.
  intros Hold Hch h Hsz. unfold copied_header. rewrite Hold. cbn. rewrite decide_False; [done|].
  unfold choose_hash_size, old_hash_size in Hsz. rewrite Hold in Hsz. intros E. rewrite E in Hsz.
  destruct Hch as [[Hv Hne]|(-> & H4 & Hc)].
  - rewrite decide_False in Hsz by (destruct Hv; lia). rewrite decide_True in Hsz by done. congruence.
  - rewrite H4, !decide_True in Hsz by lia. done.
Qed.

(** What the capacity is computed from: the puts since the old index, and the keys that
    it counts. *)
Lemma update_count {C : Codec} {log es} {L : LogCursor log es} lh ho n0 :
  indexable lh → old_header (es := es) lh ho n0 → (n0 ≤ length es)%nat →
  p_count (update_plan lh ho) = zlen (puts_of (drop n0 es)) + Z.of_nat (size (replay (take n0 es))) ∧
  0 ≤ p_count (update_plan lh ho) < 2 ^ 56.
Proof.
  intros Hidx Hoh Hn0. pose proof Hidx as (_ & _ & _ & Hlnp & Hlnp2 & _).
  destruct (new_header_spec (HashPlan 0 0 0 0 None) lh 0 os_empty Hidx ltac:(done) ltac:(by left)) as (h & _ & Hh & Ha & _).
  destruct (plan_count lh ho n0 h Hh Ha Hn0 Hoh Hlnp ltac:(lia)) as [Hc Hr]. cbn [p_count update_plan].
  rewrite Hc. split; [|lia]. unfold room_for.
  rewrite (replay_size h n0 Hh Ha Hn0), address_map_index, map_size_fmap. lia.
Qed.

(** C39. Changing the hash size of an index discards its table and reads the whole log
    again, but the number of slots is still computed from the keys that the old index
    counts and the puts since.  When some prefix of the log has more live keys than
    that (keys that were deleted later), the call never returns: the table gets full and
    the insertion of the next key goes round for ever.  However large the bounds on
    the rounds of an insertion (R) and on the entries that are read (fuel), they are
    not enough. *)
Theorem rebuild_hangs {C : Codec} {R : PutRounds} fuel name log_name hash_size S1 S es2 rest ho to cap n o :
  has_file o log_name (st_file S ++ rest) → has_file o name (hashheader_bytes ho ++ to) → os_wf o →
  store_ok S → grows S1 S es2 → stored_index S1 ho to →
  hash_capacity_of (zlen (puts_of es2) + Z.of_nat (size (replay (st_entries S1)))) = Some cap →
  changes_size ho hash_size cap →
  cap < Z.of_nat (size (replay (take n (st_entries S)))) →
  (sparkey_hash_write fuel name log_name hash_size o).1 = NoFuel.
Proof.
  intros Hf Hof Hwf Hst Hg Hpi Hcap Hch Hfull. pose proof (load_stored S o log_name rest Hf) as Hload.
  destruct (open_stored S (opened o) log_name rest (opened_file o _ _ Hf Hwf) (opened_wf o Hwf))
    as (log & o2 & _ & Hopen & Hlog & _ & Hn2 & Hi2 & Hs2 & _ & Hwf2 & _).
  pose proof (has_file_same o o2 name _ Hn2 Hi2 Hs2 Hwf2 Hof) as Hof2.
  destruct (stored_old_header S1 S es2 ho to Hg Hpi) as (Hoh & _).
  pose proof (stored_indexable S log Hlog Hst) as Hidx. pose proof Hst as (Hshort & _).
  set (L := st_cursor S log Hlog) in *. set (lh := st_header S) in *.
  pose proof (grows_entries _ _ _ Hg) as Hes.
  assert (Hn0 : (length (st_entries S1) ≤ length (st_entries S))%nat) by (rewrite Hes, length_app; lia).
  destruct (update_count lh ho _ Hidx Hoh Hn0) as [Hcount Hrange].
  rewrite Hes, drop_app_length, take_app_length in Hcount.
  destruct (new_header_spec (update_plan lh ho) lh hash_size (opened o2) Hidx Hrange)
    as (h & Hnew & Hh & Ha & _ & _ & Hsz & _ & _ & _ & _ & Hne & _); [destruct Hch as [[? _]|[? _]]; [by right|by left]|].
  pose proof (new_header_capacity _ _ _ _ _ _ Hnew) as Hcaph. rewrite Hcount, Hcap in Hcaph.
  injection Hcaph as Hcaph. rewrite <- Hcaph in Hsz.
  destruct (cur_create o2 Hs2) as (i1 & Hc1 & Hb1 & Hr1).
  unfold sparkey_hash_write. rewrite (bind_Ok _ _ _ _ _ Hload), (bind_Ok _ _ _ _ _ Hopen).
  unfold finally. rewrite (bind_Ok _ _ _ _ _ Hc1), (bind_Ok _ _ _ _ _ Hc1).
  rewrite (bind_Ok _ _ _ _ _ (plan_old name lh ho to _ o2 Hof2 Hoh)). fold (update_plan lh ho).
  assert (Hmin : (n `min` length (st_entries S) ≤ length (st_entries S))%nat) by lia.
  assert (Hlive : hh_hash_capacity h < Z.of_nat (size (address_map h (n `min` length (st_entries S))))).
  { rewrite <- Hcaph. rewrite <- (map_size_fmap (value_at h)), address_map_replay by done.
    destruct (decide (n ≤ length (st_entries S))%nat); [by rewrite Nat.min_l by lia|].
    rewrite Nat.min_r, take_ge by lia. by rewrite take_ge in Hfull by lia. }
  pose proof (planned_hangs fuel _ name lh (update_plan lh ho) h hash_size i1 (opened o2) Hnew Hh Ha Hne
    (changed_size (update_plan lh ho) ho _ _ eq_refl Hch h Hsz) Hs2 Hshort Hb1 Hr1 Hmin Hlive) as Hno.
  by destruct (hash_write_planned _ _ _ _ _ _ _ _ _) as [r o3].
Qed.

(** Two keys, put and deleted again. *)
Example es_emptied : list entry := [Put [97] [1]; Put [98] [2]; Delete [97]; Delete [98]].

Lemma es_emptied_ok : log_ok es_emptied.
Proof. split; [repeat constructor; done|done]. Qed.

Example emptied_log : stored (C := identity_codec) := plain_stored (C := identity_codec) 7 es_emptied ltac:(done) es_emptied_ok.

(** The log with its index, which counts no key: for hashes of the other size there is
    one slot, for two keys. *)
Lemma rebuild_hangs_witness :
  ∃ h tbl, stored_index (C := identity_codec) emptied_log h tbl ∧
    ∀ (R : PutRounds) fuel, (sparkey_hash_write (C := identity_codec) fuel "a.spi" "a.spl" (12 - hh_hash_size h)
      (os_pair (st_file (C := identity_codec) emptied_log ++ []) (hashheader_bytes h ++ tbl))).1 = NoFuel.
Proof.
  assert (Hok : store_ok (C := identity_codec) emptied_log).
  { split; [|done]. intros n e He. do 4 (destruct n as [|n]; [by simplify_eq/=|]). done. }
  destruct (some_index (C := identity_codec) emptied_log Hok) as (h & tbl & Hidx). exists h, tbl.
  split; [done|]. intros R fuel.
  destruct (stored_old_header (C := identity_codec) emptied_log emptied_log [] h tbl (grows_refl _) Hidx)
    as (_ & _ & _ & _ & _ & Hv & _).
  apply (rebuild_hangs (C := identity_codec) fuel "a.spi" "a.spl" _ emptied_log emptied_log [] [] h tbl 1 2);
    [apply os_pair_log|apply os_pair_index|apply os_pair_wf|exact Hok|apply grows_refl|exact Hidx|by vm_compute| |by vm_compute].
  left. unfold valid_size in *. destruct Hv as [-> | ->]; [split; [by right|done]|split; [by left|done]].
Defined.

(** Two sessions: a log and an index with hashes of 4 bytes, then the same log
    indexed with hashes of 8 bytes. *)
Definition rebuild {C : Codec} (fuel : nat) (es : list entry) (hash_size : Z)
    : MC os (Z * Z) :=
  _ ← write_log "a.spl" SPARKEY_COMPRESSION_NONE 0 es;
  _ ← sparkey_hash_write fuel "a.spi" "a.spl" 4;
  _ ← sparkey_hash_write fuel "a.spi" "a.spl" hash_size;
  h ← sparkey_load_hashheader "a.spi";
  mret (hh_num_entries h, hh_garbage_size h).

(** With hashes of 8 bytes the second call hangs, with 4 bytes as before it returns. *)
Example rebuild_emptied fuel :
  (rebuild (C := identity_codec) (9 + fuel) es_emptied 8 os_empty).1 = NoFuel ∧
  (rebuild (C := identity_codec) (9 + fuel) es_emptied 4 os_empty).1 = Ok (0, 14).
Proof. split; vm_compute; reflexivity. Qed.

(** The same rebuild starts from the garbage of the old index and counts it again:
    the key written twice leaves 4 bytes of garbage, the rebuilt index says 8. *)
Theorem rebuild_counts_garbage_twice fuel :
  (rebuild (C := identity_codec) (9 + fuel) [Put [97] [1]; Put [97] [2]] 4 os_empty).1 = Ok (1, 4) ∧
  (rebuild (C := identity_codec) (9 + fuel) [Put [97] [1]; Put [97] [2]] 8 os_empty).1 = Ok (1, 8).
Proof. split; vm_compute; reflexivity. Qed.
