(* ===== verification/IndexCrash.v ===== *)
(** * Writing an index while calls fail

    What sparkey_hash_write leaves when the environment makes any of its calls fail: the files as they
    were, no index, a prefix of the new index, or all of it.  A prefix is refused
    when it is opened; but one with a whole header is never replaced. *)

From stdpp Require Import base gmap list strings numbers.
From Stdlib Require Import ZArith Lia.
From S2P Require Import Prelude ReturnCodes Endian OS LogHeader HashAlg HashHeader Buf Compress LogFormat LogWriter.
From S2P Require Import LogReader LogCursor StoredLog LogProps Crash HashTable TableRefine HashWriter IndexFile IndexCopy.
From S2P Require Import Faults HashReader Store StoreProps.

Local Open Scope Z_scope.

(** ** What a run leaves that wanted to leave [o1] *)

Definition failed {A} (r : res returncode A) : Prop := ∃ e, r = Err e.

Inductive torn (name : string) (o o1 : os) (r : res returncode unit) (o' : os) : Prop :=
| torn_none : failed r → files o' = files o → torn name o o1 r o'
| torn_gone : failed r → files o' = (delete name (os_names o), os_inodes o) → torn name o o1 r o'
| torn_prefix ino c n : failed r → os_inodes o !! ino = None → os_names o1 !! name = Some ino → os_inodes o1 !! ino = Some c →
    files o' = (os_names o1, <[ino := take n c]> (os_inodes o1)) → torn name o o1 r o'
| torn_all : r = Ok tt → files o' = files o1 → torn name o o1 r o'.

(** An environment that tells the truth about missing files. *)
Definition honest (x : OS.outcome) : Prop := x ≠ Fails ENOENT.

Section Crash.
Context (K : OS.outcome → Prop) (HK : ∀ x, K x → honest x) (name : string).

Definition leaves (m : MC os unit) : Prop :=
  ∀ o sch o1, sane o → Forall K sch → m (set_sched [] o) = (Ok tt, o1) →
  let '(r, o') := m (set_sched sch o) in sane o' ∧ torn name o o1 r o'.

Lemma torn_files o2 o o1 r o' : files o2 = files o → torn name o2 o1 r o' → torn name o o1 r o'.
Proof.
  intros Hf [Hr Hx|Hr Hx|ino c n Hr Hi Hn Hc Hx|Hr Hx]; injection Hf as Hfn Hfi.
  - apply torn_none; [done|]. rewrite Hx. cbn. congruence.
  - apply torn_gone; [done|]. congruence.
  - eapply torn_prefix; [done| |done..]. congruence.
  - by apply torn_all.
Qed.

Lemma leaves_survives m : survives K never m → leaves m.
Proof.
  intros Hm o sch o1 Hs HKs Hideal. specialize (Hm o sch Hs HKs). cbn [resched env_os] in Hm. rewrite Hideal in Hm.
  destruct Hm as (_ & Hf & Hs1 & [(Hf' & Hs' & Hr)|(sch' & _ & Hm)]).
  - destruct (m (set_sched sch o)) as [[a|e| |] o']; try done. split; [done|]. apply torn_none; [by eexists|done].
  - rewrite Hm. split; [exact Hs1|]. by apply torn_all.
Qed.

Lemma leaves_bind {A} (bad : A → Prop) (m : MC os A) k :
  survives K bad m → (∀ a, bad a → ∃ e, k a = fail e) → (∀ a, leaves (k a)) → leaves (m ≫= k).
Proof.
  intros Hm Hbad Hk o sch o2 Hs HKs Hideal. specialize (Hm o sch Hs HKs). cbn [resched env_os] in Hm.
  unfold mbind, M_bind in *. destruct (m (set_sched [] o)) as [[a|e| |] o1]; try done.
  destruct Hm as (Hsame & Hf & Hs1 & Hm).
  assert (Hstop : ∀ e o', files o' = files o → sane o' → sane o' ∧ torn name o o2 (Err e) o').
  { intros e o' Hf' Hs'. split; [done|]. apply torn_none; [by eexists|done]. }
  destruct Hm as [(Hf' & Hs' & Hr)|(sch' & HKs' & Hm)].
  - destruct (m (set_sched sch o)) as [[a'|e| |] o']; try done; [|by apply Hstop].
    destruct (Hbad a' Hr) as [e ->]. by apply Hstop.
  - rewrite Hm. specialize (Hk a o1 sch' o2 Hs1 HKs'). rewrite Hsame in Hk. specialize (Hk Hideal).
    destruct (k a (set_sched sch' o1)) as [r o']. destruct Hk as [Hs' Ht]. split; [done|]. by eapply torn_files.
Qed.

Lemma leaves_bind_never {A} (m : MC os A) k : survives K never m → (∀ a, leaves (k a)) → leaves (m ≫= k).
Proof. intros Hm Hk. by eapply leaves_bind. Qed.

(** Closing the log does not change files. *)
Lemma close_reader_sane log o : files (close_reader log o).2 = files o ∧ (sane o → sane (close_reader log o).2).
Proof.
  unfold close_reader, sparkey_logreader_close, sparkey_logreader_close_nodealloc.
  rewrite bind_get_snd. cbn [snd]. case_decide; [done|]. unfold on_os, zoom, on_snd, modS, mbind, M_bind. cbn [fst snd].
  destruct (sys_close (r_fd log) o) as [r o1] eqn:E.
  pose proof (f_equal snd E) as Eo. cbn [snd] in Eo. subst o1. destruct r; cbn [fst snd];
    (split; [|apply close_sane]); unfold sys_close; by destruct (os_fds o !! _).
Qed.

(** *** The file *)

(** Nothing can be written to a descriptor that is not there. *)
Lemma write_header_closed h fd o : os_fds o !! fd = None → write_hashheader fd h o = (Err SPARKEY_FILE_CLOSED, o).
Proof.
  intros Hfd. unfold write_hashheader. apply bind_Err. unfold fwrite_little_endian32, write_full.
  rewrite Z.div_small by done. change (Z.to_nat 0) with 0%nat. cbn [write_full_blocks].
  unfold _write_full. cbn [_write_full_loop]. rewrite decide_True by done. unfold mbind, M_bind, sys_write. by rewrite Hfd.
Qed.

(** The file once it is created: a prefix, or all of it. *)
Lemma write_created h tbl o : sane o → os_names o !! name = None →
  let o2 := created name o in let fd := os_next_fd o in
  let '(r, o') := closing fd (_ ← write_hashheader fd h; write_full fd tbl) o2 in
  sane o' ∧ ∃ n, files o' = (<[name := os_next_inode o]> (os_names o),
    <[os_next_inode o := take n (hashheader_bytes h ++ tbl)]> (os_inodes o)) ∧
  (r = Ok tt ∧ take n (hashheader_bytes h ++ tbl) = hashheader_bytes h ++ tbl ∨ failed r).
Proof.
  intros (Hwf & Hb & Hneg) Hn o2 fd. pose proof (created_wf name o Hwf) as Hwf2. fold o2 in Hwf2.
  assert (Hopen : fd_open o2 fd (os_next_inode o) 0) by apply (created_open name o).
  assert (Hw : writes fd (_ ← write_hashheader fd h; write_full fd tbl) (hashheader_bytes h ++ tbl))
    by (apply writes_bind; [apply writes_hashheader|apply writes_full]).
  specialize (Hw o2 _ _ Hopen). unfold closing.
  destruct ((_ ← write_hashheader fd h; write_full fd tbl) o2) as [r o3].
  destruct Hw as (n & s & Hsuf & -> & Hr).
  pose proof (put_bytes_open _ _ _ (take n (hashheader_bytes h ++ tbl)) _ Hopen) as (Hfd & Hino & _).
  unfold sys_close. cbn [os_fds set_sched]. rewrite Hfd. destruct Hwf as (_ & _ & _ & H0).
  assert (Hput : os_wf (set_sched s (put_bytes fd (os_next_inode o) 0 (take n (hashheader_bytes h ++ tbl)) o2))).
  { eapply os_frame_wf; [by apply os_frame_put|done|done| |]; cbn; unfold fd; lia. }
  assert (Hsane : sane (set_sched s (put_bytes fd (os_next_inode o) 0 (take n (hashheader_bytes h ++ tbl)) o2))).
  { split; [done|]. split; [done|]. cbn. rewrite !lookup_insert_ne by (unfold fd; lia). done. }
  split; [by apply (closed_sane fd) in Hsane|]. exists n. split; [|destruct Hr as [?|(e & -> & _)]; [by left|right; by eexists]].
  unfold files, env_os, put_bytes. cbn. rewrite insert_insert_eq, lookup_insert_eq. cbn [from_option id].
  by rewrite splice_start, drop_nil, app_nil_r.
Qed.

Lemma remove_any o sch : Forall K sch →
  ∃ s, Forall K s ∧
    ((∃ x, sys_remove name (set_sched sch o) = (Ok x, set_sched s (removed name o)) ∧
           match x with inl e => e = ENOENT | inr _ => True end) ∨
     ∃ e, e ≠ ENOENT ∧ sys_remove name (set_sched sch o) = (Ok (inl e), set_sched s o)).
Proof.
  intros HKs. assert (Hgo : ∀ s, ∃ x, match os_names (set_sched s o) !! name with
      | None => (Ok (inl ENOENT), set_sched s o)
      | Some _ => (Ok (inr tt), set_names (delete name (os_names (set_sched s o))) (set_sched s o))
      end = (Ok x : res returncode (errno + unit), set_sched s (removed name o)) ∧
      match x with inl e => e = ENOENT | inr _ => True end).
  { intros s. cbn. destruct (os_names o !! name) eqn:E; [by exists (inr tt)|]. exists (inl ENOENT). split; [|done].
    unfold removed, set_names, set_sched. cbn. by rewrite delete_id. }
  destruct sch as [|x sch]; [exists []; split; [done|]; left; apply (Hgo [])|].
  apply Forall_cons_1 in HKs as [Hx HKs]. exists sch. split; [done|].
  unfold sys_remove. cbn [pop os_sched set_sched]. destruct x as [|e|n]; [left; apply (Hgo sch)| |left; apply (Hgo sch)].
  right. exists e. split; [|done]. intros ->. by apply (HK _ Hx).
Qed.

Lemma create_any o sch : Forall K sch → os_names o !! name = None →
  ∃ s, Forall K s ∧
    (sys_create name (set_sched sch o) = (Ok (inr (os_next_fd o)), created name (set_sched s o)) ∨
     ∃ e, sys_create name (set_sched sch o) = (Ok (inl e), set_sched s o)).
Proof.
  intros HKs Hn. destruct sch as [|x sch].
  { exists []. split; [done|left]. unfold sys_create. cbn. by rewrite Hn. }
  apply Forall_cons_1 in HKs as [Hx HKs]. exists sch. split; [done|].
  unfold sys_create. cbn [pop os_sched set_sched]. destruct x as [|e|n]; [left|right; by exists e|left]; cbn; by rewrite Hn.
Qed.

Lemma wf_fresh_ino o : os_wf o → os_inodes o !! os_next_inode o = None.
Proof.
  intros (_ & Hi & _). destruct (os_inodes o !! os_next_inode o) eqn:E; [|done].
  assert (os_next_inode o < os_next_inode o)%nat by (apply Hi; by eexists). lia.
Qed.

Lemma leaves_write_index h tbl : leaves (write_index name h tbl).
Proof.
  intros o sch o1 Hs HKs Hideal. pose proof Hs as (Hwf & Hb & Hneg).
  destruct (write_index_run name h tbl (set_sched [] o) eq_refl Hwf) as (o1' & Hrun & _ & _ & _ & _ & Hnames & Hinodes).
  rewrite Hrun in Hideal. injection Hideal as <-.
  cbn [os_names os_inodes os_next_inode set_sched] in Hnames, Hinodes. unfold write_index.
  destruct (remove_any o sch HKs) as (s & HKs1 & [(x & Hx & Hxe)|(e & He & Hx)]).
  2:{ rewrite (bind_Ok _ _ _ _ _ Hx), decide_False by done. split; [exact Hs|]. apply torn_none; [by eexists|done]. }
  rewrite (bind_Ok _ _ _ _ _ Hx). set (o2 := removed name o) in *.
  erewrite (bind_Ok _ _ (set_sched s o2) tt); [|destruct x as [e|]; [by rewrite decide_True|done]].
  assert (Hs2 : sane o2). { split; [by apply removed_wf|done]. }
  assert (Hn2 : os_names o2 !! name = None) by apply lookup_delete_eq.
  destruct (create_any o2 s HKs1 Hn2) as (s' & HKs2 & [Hc|[e Hc]]); rewrite (bind_Ok _ _ _ _ _ Hc).
  2:{ unfold closing. rewrite (bind_Err _ _ _ _ _ (write_header_closed h (-1) (set_sched s' o2) Hneg)).
      unfold sys_close. cbn [os_fds set_sched o2 removed set_names]. rewrite Hneg. split; [exact Hs2|].
      apply torn_gone; [by eexists|done]. }
  pose proof (write_created h tbl (set_sched s' o2) Hs2 Hn2) as Hw. cbv zeta in Hw.
  change (os_next_fd (set_sched s' o2)) with (os_next_fd o2) in Hw.
  destruct (closing (os_next_fd o2) _ (created name (set_sched s' o2))) as [r o'].
  destruct Hw as (Hs' & n & Hf & Hr). split; [done|].
  cbn [os_names os_inodes os_next_inode set_sched o2 removed set_names] in Hf. rewrite insert_delete_eq in Hf.
  destruct Hr as [[-> Hall]|Hr].
  - apply torn_all; [done|]. rewrite Hf, Hall. unfold files. cbn. by rewrite Hnames, Hinodes.
  - apply (torn_prefix _ _ _ _ _ (os_next_inode o) (hashheader_bytes h ++ tbl) n);
      [done|by apply wf_fresh_ino|by rewrite Hnames, lookup_insert_eq|
      by rewrite Hinodes, lookup_insert_eq|]. rewrite Hf, Hnames, Hinodes. by rewrite insert_insert_eq.
Qed.

(** *** The function *)

Lemma leaves_fill_and_write {C : Codec} fuel lh log st prepare :
  survives K never prepare → leaves (fill_and_write fuel name lh log st prepare).
Proof.
  intros Hp. unfold fill_and_write. apply leaves_bind_never.
  { apply survives_with_table, survives_bind_never; [done|]. intros _. apply survives_on_table. }
  intros st'. apply leaves_bind_never; [apply survives_of_opt|]. intros h. apply leaves_write_index.
Qed.

(** An older index is copied only where reads are whole. *)
Lemma leaves_planned {C : Codec} fuel lh log i1 i2 plan hash_size :
  p_old plan = None ∨ whole_reads K →
  leaves (hash_write_planned fuel name lh log i1 i2 plan hash_size).
Proof.
  intros Hold. unfold hash_write_planned. apply leaves_bind_never; [apply survives_new_header|]. intros h.
  eapply leaves_bind; [apply survives_malloc|intros ? ->; by eexists|]. intros ok. cbv zeta.
  destruct (negb ok); [apply leaves_survives, survives_fail|].
  destruct (copied_header plan h) as [ho|] eqn:E; [|apply leaves_fill_and_write, survives_ret].
  destruct Hold as [Hold|Hold]; [unfold copied_header in E; by rewrite Hold in E|].
  case_decide; [apply leaves_survives, survives_ret|]. apply leaves_fill_and_write.
  apply survives_bind_never; [by apply survives_fill_hash|]. intros _. apply survives_on_table.
Qed.

(** What the whole function wants to leave, as far as files go. *)
Definition new_index {C : Codec} (S : stored) (o o1 : os) : Prop :=
  (∀ n, n ≠ name → os_names o1 !! n = os_names o !! n) ∧
  (∀ i c, os_inodes o !! i = Some c → os_inodes o1 !! i = Some c) ∧
  ∃ ino h tbl, os_names o1 !! name = Some ino ∧ os_inodes o1 !! ino = Some (hashheader_bytes h ++ tbl) ∧
    stored_index S h tbl.

Definition crashes {C : Codec} (S : stored) (o : os) (r : res returncode unit) (o' : os) : Prop :=
  sane o' ∧ ∃ o1, new_index S o o1 ∧ torn name o o1 r o'.

Section Function.
Context {C : Codec} (S : stored).

Lemma new_index_files o2 o o1 : files o2 = files o → new_index S o2 o1 → new_index S o o1.
Proof. intros Hf. injection Hf as Hfn Hfi. unfold new_index. by rewrite Hfn, Hfi. Qed.

Lemma crashes_files o2 o r o' : files o2 = files o → crashes S o2 r o' → crashes S o r o'.
Proof.
  intros Hf (Hs & o1 & Hn & Ht). split; [done|]. exists o1. split; [by eapply new_index_files|by eapply torn_files].
Qed.

Lemma crashes_none o e o' : (∃ o1, new_index S o o1) → files o' = files o → sane o' → crashes S o (Err e) o'.
Proof. intros [o1 Hn] Hf Hs. split; [done|]. exists o1. split; [done|]. apply torn_none; [by eexists|done]. Qed.

Lemma crashes_bind {A} (m : MC os A) k o sch a o1 :
  survives K never m → sane o → Forall K sch → m (set_sched [] o) = (Ok a, o1) → (∃ oF, new_index S o oF) →
  (sane o1 → files o1 = files o → set_sched [] o1 = o1 → (∃ oF, new_index S o1 oF) → ∀ sch', Forall K sch' →
    let '(r, o') := k a (set_sched sch' o1) in crashes S o1 r o') →
  let '(r, o') := (m ≫= k) (set_sched sch o) in crashes S o r o'.
Proof.
  intros Hm Hs HKs Hideal HoF Hk. specialize (Hm o sch Hs HKs). cbn [resched env_os] in Hm. rewrite Hideal in Hm.
  destruct Hm as (Hsame & Hf & Hs1 & [(Hf' & Hs' & Hr)|(sch' & HKs' & Hm)]); unfold mbind, M_bind.
  - destruct (m (set_sched sch o)) as [[x|e| |] o']; try done. by apply crashes_none.
  - rewrite Hm. assert (HoF1 : ∃ oF, new_index S o1 oF).
    { destruct HoF as [oF HoF]. exists oF. by eapply new_index_files. }
    specialize (Hk Hs1 Hf Hsame HoF1 sch' HKs').
    destruct (k a (set_sched sch' o1)) as [r o']. by eapply crashes_files.
Qed.

Lemma crashes_leaves m o sch o1 :
  leaves m → sane o → Forall K sch → m (set_sched [] o) = (Ok tt, o1) → new_index S o o1 →
  let '(r, o') := m (set_sched sch o) in crashes S o r o'.
Proof.
  intros Hm Hs HKs Hideal Hn. specialize (Hm o sch o1 Hs HKs Hideal).
  destruct (m (set_sched sch o)) as [r o']. destruct Hm as [Hs' Ht]. split; [done|]. by exists o1.
Qed.

Lemma crashes_finally log m o s :
  (let '(r, o') := m s in crashes S o r o') →
  let '(r, o') := finally (close_reader log) m s in crashes S o r o'.
Proof.
  unfold finally. destruct (m s) as [r o']. intros (Hs' & o1 & Hn & Ht).
  destruct (close_reader_sane log o') as [Hf Hsn]. split; [by apply Hsn|]. exists o1. split; [done|].
  destruct Ht as [Hr Hx|Hr Hx|ino c n Hr Hi Hno Hc Hx|Hr Hx]; rewrite <- Hf in Hx.
  - by apply torn_none.
  - by apply torn_gone.
  - by eapply torn_prefix.
  - by apply torn_all.
Qed.

Lemma after_new_index o o1 : index_after o o1 name S → new_index S o o1.
Proof.
  intros (_ & _ & _ & _ & Hn & Hi & h & tbl & (ino & Hnm & Hc & _) & Hidx). split_and!; try done. by exists ino, h, tbl.
Qed.

Lemma indexed_new_index log (Hlog : opened_log S log) o o1 :
  indexed (L := st_cursor S log Hlog) (st_header S) name o o1 → new_index S o o1.
Proof.
  intros (_ & _ & _ & _ & Hn & Hi & ino & h & tbl & Hnm & Hc & Hidx). split_and!; try done.
  exists ino, h, tbl. split_and!; try done. eapply stored_index_same; [apply grows_refl|exact Hidx].
Qed.

(** A new plan leads to a new index. *)
Lemma crashes_fresh log (Hlog : opened_log S log) fuel hash_size plan i o :
  sane o → Forall K (os_sched o) → store_ok S → hash_size = 0 ∨ valid_size hash_size →
  (length (st_entries S) < fuel)%nat → fresh_plan (st_header S) plan →
  cur_before (LogCursor := st_cursor S log Hlog) 0 i → cur_ready (LogCursor := st_cursor S log Hlog) i →
  let '(r, o') := hash_write_planned fuel name (st_header S) log i i plan hash_size o in crashes S o r o'.
Proof.
  intros Hs HKs Hst Hsize Hfuel (Hold & Hcount & Hg & Hseed) Hb Hr.
  destruct (planned_fresh (L := st_cursor S log Hlog) fuel name hash_size (st_header S) plan i (set_sched [] o))
    as (o1 & Hrun & Hix); try done; [apply Hs|by apply stored_indexable|apply Hst|].
  pose proof (crashes_leaves _ o (os_sched o) o1
    (leaves_planned fuel (st_header S) log i i plan hash_size (or_introl Hold)) Hs HKs Hrun) as H.
  rewrite set_sched_same in H. apply H.
  by apply (new_index_files (set_sched [] o)); [|apply (indexed_new_index log Hlog)].
Qed.

Lemma plan_without lh o plan o1 : os_names o !! name = None → plan_hash name lh o = (Ok plan, o1) → p_old plan = None.
Proof.
  intros Hn. unfold plan_hash.
  assert (Ha : ∃ e o2, attempt (sparkey_load_hashheader name) o = (Ok (inl e), o2)).
  { unfold attempt, sparkey_load_hashheader, sys_open, mbind, M_bind.
    destruct (pop o) as [x o2] eqn:E. assert (os_names o2 = os_names o) as Hn2.
    { unfold pop in E. destruct (os_sched o); by injection E as <- <-. }
    rewrite Hn2, Hn. destruct x; by eexists _, _. }
  destruct Ha as (e & o2 & Ha). rewrite (bind_Ok _ _ _ _ _ Ha). unfold mbind, M_bind.
  destruct (rand32 o2) as [[seed|e2| |] o3]; try done. by intros [= <- _].
Qed.

Lemma hash_write_crashes fuel log_name hash_size rest o sch :
  sane o → has_file o log_name (st_file S ++ rest) → index_before o name S hash_size → store_ok S →
  hash_size = 0 ∨ valid_size hash_size → (length (st_entries S) < fuel)%nat →
  Forall K sch → os_names o !! name = None ∨ whole_reads K →
  let '(r, o') := sparkey_hash_write fuel name log_name hash_size (set_sched sch o) in crashes S o r o'.
Proof.
  intros Hs Hf Hbefore Hst Hsize Hfuel HKs Hwhole. pose proof Hs as (Hwf & _).
  destruct (stored_hash_write fuel name log_name hash_size S rest o Hf Hwf Hbefore Hst Hsize Hfuel) as (oF & Hrun & Hafter).
  pose proof (after_new_index o oF Hafter) as HnF. pose proof (load_stored S o log_name rest Hf) as Hload.
  destruct (open_stored S (opened o) log_name rest (opened_file o _ _ Hf Hwf) (opened_wf o Hwf))
    as (log & o2 & _ & Hopen & Hlog & _ & _ & _ & Hs2 & _). set (L := st_cursor S log Hlog) in *.
  destruct (cur_create (LogCursor := L) o2 Hs2) as (i & Hc & Hb & Hr).
  assert (Hso : set_sched [] o = o).
  { destruct Hf as (? & _ & _ & Hs0 & _). rewrite <- Hs0. apply set_sched_same. }
  unfold sparkey_hash_write in Hrun |- *. rewrite (bind_Ok _ _ _ _ _ Hload), (bind_Ok _ _ _ _ _ Hopen) in Hrun.
  unfold finally in Hrun. rewrite (bind_Ok _ _ _ _ _ Hc), (bind_Ok _ _ _ _ _ Hc) in Hrun.
  destruct ((plan ← plan_hash name (st_header S); hash_write_planned fuel name (st_header S) log i i plan hash_size) o2)
    as [r4 o4] eqn:Hin. injection Hrun as -> HoF.
  eapply (crashes_bind _ _ o sch (st_header S) (opened o)); [apply survives_load_logheader|done|done|by rewrite Hso|by exists oF|].
  intros Hs1 Hf1 Hso1 Hn1 sch1 HK1.
  eapply crashes_bind; [apply survives_logreader_open|done|done|by rewrite Hso1|done|].
  intros Hs2' Hf2 Hso2 Hn2 sch2 HK2. apply crashes_finally.
  eapply crashes_bind; [apply survives_iter_create|done|done|by rewrite Hso2|done|].
  intros _ _ _ _ sch3 HK3.
  eapply crashes_bind; [apply survives_iter_create|done|done|by rewrite Hso2|done|].
  intros _ _ _ _ sch4 HK4.
  unfold mbind, M_bind in Hin |- *.
  destruct (plan_hash name (st_header S) o2) as [[plan|e| |] o3] eqn:Hplan; try done.
  rewrite <- Hso2 in Hplan. pose proof (plan_any K name (st_header S) o2 sch4 plan o3 Hs2' HK4 Hplan) as Hp.
  destruct (plan_hash name (st_header S) (set_sched sch4 o2)) as [[plan'|e| |] o3'];
    destruct Hp as (Hf3 & Hs3 & HK3' & Hp); [|by apply crashes_none|done|done].
  assert (Hgoal : let '(r, o') := hash_write_planned fuel name (st_header S) log i i plan' hash_size o3' in crashes S o3' r o').
  { destruct Hp as [Hp|(-> & Hf3' & Hs3' & Hso3 & Ho3)]; [by apply (crashes_fresh log Hlog)|].
    assert (Hnames : os_names o !! name = None → os_names (set_sched [] o2) !! name = None).
    { intros Hn. injection Hf2 as Hf2 _. cbn in *. congruence. }
    assert (H : let '(r, o') := hash_write_planned fuel name (st_header S) log i i plan hash_size
        (set_sched (os_sched o3') o3) in crashes S o3 r o'); [|rewrite <- Ho3 in H;
      destruct (hash_write_planned fuel name (st_header S) log i i plan hash_size o3') as [r o'];
      eapply crashes_files; [|exact H]; congruence].
    apply (crashes_leaves _ o3 (os_sched o3') o4); try done.
    - apply leaves_planned. destruct Hwhole as [Hn|Hw]; [left|by right].
      apply (plan_without _ _ _ _ (Hnames Hn) Hplan).
    - by rewrite Hso3.
    - destruct (close_reader_sane log o4) as [Hf4 _]. rewrite HoF in Hf4.
      apply (new_index_files o); [congruence|]. destruct HnF as (H1 & H2 & H3).
      injection Hf4 as Hf4n Hf4i. unfold new_index. by rewrite <- Hf4n, <- Hf4i. }
  destruct (hash_write_planned fuel name (st_header S) log i i plan' hash_size o3') as [r o']. eapply crashes_files; [|done]. congruence.
Qed.

End Function.

End Crash.

(** ** A prefix of an index is refused *)

(** A parse that wants more bytes than there are. *)
Definition starves {A} (fd : Z) (m : MC os A) (bs : list Z) : Prop :=
  ∀ o ino off c, readable o ino c → 0 ≤ off ≤ zlen c → drop (Z.to_nat off) c `prefix_of` bs →
    zlen c - off < zlen bs → ∃ e o', m (at_off fd ino off o) = (Err e, o').

Lemma starves_bind {A B} fd (m : MC os B) (k : B → MC os A) w v y :
  parses fd m w (Ok v) → (∀ o ino off c, readable o ino c → 0 ≤ off → zlen c < off + zlen w →
    ∃ e o', m (at_off fd ino off o) = (Err e, o')) →
  starves fd (k v) y → starves fd (m ≫= k) (w ++ y).
Proof.
  intros Hm Heof Hk o ino off c Hr Hoff Hp Hlt. rewrite length_app in Hlt.
  destruct (decide (zlen c < off + zlen w)) as [Hs|Hs].
  { destruct (Heof o ino off c Hr ltac:(lia) Hs) as (e & o' & E). rewrite (bind_Err _ _ _ _ _ E). by eexists _, _. }
  assert (Hl : (length w ≤ length (drop (Z.to_nat off) c))%nat) by (rewrite length_drop; lia).
  assert (Hw : w `prefix_of` drop (Z.to_nat off) c).
  { destruct (prefix_weak_total _ w _ Hp ltac:(by eexists)) as [Hq|Hq]; [|done].
    by rewrite (prefix_length_eq _ _ Hq Hl). }
  rewrite (bind_Ok _ _ _ _ _ (Hm o ino off c Hr ltac:(lia) Hw)). apply (Hk o ino (off + zlen w) c Hr); [lia| |lia].
  rewrite Z2Nat.inj_add, Nat2Z.id, <- drop_drop by lia. destruct Hw as [z Hz]. rewrite Hz, drop_app_length.
  rewrite Hz in Hp. by apply prefix_app_inv in Hp.
Qed.

Lemma starves_u32 {A} fd v (k : Z → MC os A) y :
  0 ≤ v < 2 ^ 32 → starves fd (k v) y → starves fd (fread_little_endian32 fd ≫= k) (write_little_endian32 v ++ y).
Proof.
  intros Hv Hk. eapply starves_bind; [|intros o ino off c [Hc Hs] Hoff Hl|exact Hk].
  - rewrite <- (u32_id v) at 2 by done. rewrite <- le_value_write32. by apply parses_le32.
  - destruct (fread32_eof fd ino off c o Hc Hs Hoff Hl) as [off' E]. by eexists _, _.
Qed.

Lemma starves_u64 {A} fd v (k : Z → MC os A) y :
  0 ≤ v < 2 ^ 64 → starves fd (k v) y → starves fd (fread_little_endian64 fd ≫= k) (write_little_endian64 v ++ y).
Proof.
  intros Hv Hk. eapply starves_bind; [|intros o ino off c [Hc Hs] Hoff Hl|exact Hk].
  - rewrite <- (u64_id v) at 2 by done. rewrite <- le_value_write64. by apply parses_le64.
  - unfold fread_little_endian64. change (zlen (write_little_endian64 v)) with 8 in Hl. eexists _, _.
    erewrite bind_Ok; [|rewrite (fread_step _ _ _ c) by (done || lia); by rewrite decide_False by lia]. done.
Qed.

Lemma starves_end {A} fd (m : MC os A) : starves fd m [].
Proof. intros o ino off c _ Hoff _ Hlt. cbn in Hlt. lia. Qed.

Lemma starves_closing {A} fd fp (m : MC os A) bs : starves fd m bs → starves fd (closing fp m) bs.
Proof.
  intros Hm o ino off c Hr Hoff Hp Hlt. destruct (Hm o ino off c Hr Hoff Hp Hlt) as (e & o' & E).
  unfold closing. rewrite E. destruct (sys_close fp o'). by eexists _, _.
Qed.

Lemma starves_of_opt {A B} fd (v : A) (k : A → MC os B) bs : starves fd (k v) bs → starves fd (of_opt (Some v) ≫= k) bs.
Proof. done. Qed.

Lemma load_hashheader_starves h fp : hashheader_typed h →
  starves fp (hashheader_version0 1 1 fp) (hashheader_body h).
Proof.
  unfold hashheader_typed. intros (?&?&?&?&?&?&?&?&?&?&?&?&?&?&?&_&_&Hmask).
  unfold hashheader_version0, hashheader_body.
  do 13 (first [apply starves_u32; [lia|] | apply starves_u64; [lia|]]).
  rewrite Hmask. apply starves_of_opt. do 2 (apply starves_u64; [lia|]). apply starves_end.
Qed.

Lemma load_torn_header o name h p :
  has_file o name p → hashheader_typed h → p `prefix_of` hashheader_bytes h → zlen p < HASH_HEADER_SIZE →
  ∃ e o', sparkey_load_hashheader name o = (Err e, o').
Proof.
  intros Hf Hty Hp Hlt. destruct (sys_open_run _ _ _ Hf) as (ino & _ & Hr & _ & Hopen).
  unfold sparkey_load_hashheader. rewrite (bind_Ok _ _ _ _ _ Hopen). set (fp := os_next_fd o).
  assert (Hst : ∀ A (m : MC os A), starves fp m (hashheader_bytes h) → ∃ e o', m (at_off fp ino 0 (opened o)) = (Err e, o')).
  { intros A m Hm. apply (Hm _ _ _ p Hr); [lia|done|]. rewrite hashheader_bytes_length. lia. }
  apply Hst. unfold hashheader_bytes.
  apply starves_u32; [done|]. rewrite decide_False by tauto.
  apply starves_u32; [done|]. rewrite decide_False by tauto.
  apply starves_u32; [done|]. rewrite decide_False by done.
  by apply starves_closing, load_hashheader_starves.
Qed.

Lemma torn_index_refused {C : Codec} name log_name S rest h tbl n o :
  stored_index S h tbl → has_file o name (take n (hashheader_bytes h ++ tbl)) →
  has_file o log_name (st_file S ++ rest) → os_wf o → (n < length (hashheader_bytes h ++ tbl))%nat →
  ∃ e o', sparkey_hash_open name log_name o = (Err e, o').
Proof.
  intros Hidx Hf Hlf Hwf Hlt. pose proof (hashheader_bytes_length h) as Hhl. unfold HASH_HEADER_SIZE in Hhl.
  destruct (Hidx _ (some_reader_opened S)) as ((Hh & _ & [_ Htl] & _) & Hty & Hval & Hmaj & Hmin & Hid & Hde & Hmk & Hmv & _).
  assert (Hs : os_sched o = []) by (destruct Hf as (? & _ & _ & ? & _); done).
  destruct (decide (n < length (hashheader_bytes h))%nat) as [Hn|Hn].
  - rewrite take_app_le in Hf by lia.
    destruct (load_torn_header o name h _ Hf Hty) as (e & o' & E).
    { exists (drop n (hashheader_bytes h)). by rewrite take_drop. } { rewrite length_take. unfold HASH_HEADER_SIZE. lia. }
    exists e, o'. unfold sparkey_hash_open. rewrite decide_False by tauto.
    rewrite (bind_Ok _ _ _ _ _ (sys_malloc_run o Hs)). cbn [negb]. by rewrite (bind_Err _ _ _ _ _ E).
  - rewrite take_app_ge in Hf by lia. rewrite length_app in Hlt.
    pose proof (hash_open_leaks name log_name S rest h _ o Hf Hty Hval Hmaj Hmin Hlf Hwf Hid) as Hl.
    destruct (sparkey_hash_open name log_name o) as [r o'].
    destruct Hl as [-> _]; [by rewrite Hde|by rewrite Hmk, st_key_len|by rewrite Hmv, st_value_len|done| |by eexists _, _].
    rewrite length_take. lia.
Qed.

Lemma lookup_refused {C : Codec} name log_name keys o :
  (∃ e o', sparkey_hash_open name log_name o = (Err e, o')) → ∃ e, (lookup_all name log_name keys o).1 = Err e.
Proof. intros (e & o' & E). exists e. unfold lookup_all. by rewrite (bind_Err _ _ _ _ _ E). Qed.

Lemma open_missing_index name log_name o :
  os_sched o = [] → os_names o !! name = None → ∃ e o', sparkey_hash_open name log_name o = (Err e, o').
Proof.
  intros Hs Hn. unfold sparkey_hash_open. rewrite decide_False by tauto.
  rewrite (bind_Ok _ _ _ _ _ (sys_malloc_run o Hs)). cbn [negb]. eexists _, _. apply bind_Err.
  unfold sparkey_load_hashheader, sys_open, mbind, M_bind, pop. by rewrite Hs, Hn.
Qed.

(** What the next client sees after a run that was to leave an index. *)
Lemma torn_seen {C : Codec} name log_name S rest o o1 r o' keys :
  has_file o log_name (st_file S ++ rest) → os_wf o' → name ≠ log_name → store_ok S → short_keys keys →
  new_index name S o o1 → torn name o o1 r o' →
  let seen := (lookup_all name log_name keys (set_sched [] o')).1 in
  let right := Ok ((λ k, replay (st_entries S) !! k) <$> keys) in
  (r = Ok tt ∧ seen = right ∨ ∃ e, r = Err e ∧ (files o' = files o ∨ seen = right ∨ ∃ e', seen = Err e')) ∧
  (∀ n, n ≠ name → os_names o' !! n = os_names o !! n) ∧
  (∀ i c, os_inodes o !! i = Some c → os_inodes o' !! i = Some c).
Proof.
  intros Hf Hwf' Hne Hst Hkeys (Hn1 & Hi1 & ino & h & tbl & Hnm & Hc & Hidx) Ht.
  assert (Hframe : (∀ n, n ≠ name → os_names o' !! n = os_names o !! n) ∧
    (∀ i c, os_inodes o !! i = Some c → os_inodes o' !! i = Some c)).
  { destruct Ht as [_ Hx|_ Hx|i c n _ Hi _ _ Hx|_ Hx]; injection Hx as -> ->; split; try done.
    - intros n Hn. by apply lookup_delete_ne.
    - intros j c' Hj. rewrite lookup_insert_ne by congruence. by apply Hi1. }
  destruct Hframe as [Hfn Hfi]. split; [|done].
  assert (Hlf : has_file (set_sched [] o') log_name (st_file S ++ rest)).
  { destruct Hf as (i & Hn & Hci & _). exists i. cbn. rewrite Hfn by done.
    split_and!; [done|by apply Hfi|done|by apply wf_fresh_fd]. }
  assert (Hright : os_names o' !! name = Some ino → os_inodes o' !! ino = Some (hashheader_bytes h ++ tbl) →
    (lookup_all name log_name keys (set_sched [] o')).1 = Ok ((λ k, replay (st_entries S) !! k) <$> keys)).
  { intros Hn Hci. assert (Hif : has_file (set_sched [] o') name (hashheader_bytes h ++ tbl)).
    { exists ino. split_and!; try done. by apply wf_fresh_fd. }
    by apply (indexed_clients name log_name S rest h tbl _ Hif Hlf Hwf' Hst Hidx). }
  destruct Ht as [[e Hr] Hx|[e Hr] Hx|i c n [e Hr] Hi Hn Hci Hx|Hr Hx]; subst r.
  - right. exists e. split; [done|by left].
  - right. exists e. split; [done|]. right; right. apply lookup_refused, open_missing_index; [done|].
    injection Hx as Hx _. cbn. by rewrite Hx, lookup_delete_eq.
  - right. exists e. split; [done|right]. assert (i = ino) as -> by congruence.
    assert (c = hashheader_bytes h ++ tbl) as -> by congruence. injection Hx as Hxn Hxi.
    destruct (decide (n < length (hashheader_bytes h ++ tbl))%nat) as [Hl|Hl].
    + right. apply lookup_refused, (torn_index_refused name log_name S rest h tbl n); try done.
      exists ino. cbn. rewrite Hxn, Hxi, lookup_insert_eq. split_and!; try done. by apply (wf_fresh_fd o').
    + left. apply Hright; [congruence|]. rewrite Hxi, lookup_insert_eq. by rewrite (take_ge (hashheader_bytes h ++ tbl)) by lia.
  - left. split; [done|]. injection Hx as Hxn Hxi. apply Hright; congruence.
Qed.

(** ** Properties *)

(** C16. Writing an index of a log with keys shorter than 2^31 bytes while calls fail: where
    no file has the name of the index, calls of sparkey_hash_write may fail or be short;
    where a file has it -- one of at least three words that is no index of this log, or an
    intact index of a prefix of it whose hash size is to be kept -- calls may fail but not
    be short. No failure is ENOENT, which the function takes for a file that is not there.
    Then the log, all other files, and the old index for those who have it open stay as they
    are; and who opens the store next finds the file that was there before, is refused, or
    gets the answers of the whole log, as always when success is returned. *)
Theorem hash_write_crash_safe {C : Codec} fuel name log_name hash_size S rest o sch keys :
  has_file o log_name (st_file S ++ rest) → os_wf o → bytes_ok (os_entropy o) → os_fds o !! (-1) = None →
  name ≠ log_name → index_before o name S hash_size → store_ok S → hash_size = 0 ∨ valid_size hash_size →
  (length (st_entries S) < fuel)%nat → short_keys keys →
  Forall honest sch → os_names o !! name = None ∨ Forall whole sch →
  let '(r, o') := sparkey_hash_write fuel name log_name hash_size (set_sched sch o) in
  let seen := (lookup_all name log_name keys (set_sched [] o')).1 in
  let right := Ok ((λ k, replay (st_entries S) !! k) <$> keys) in
  (r = Ok tt ∧ seen = right ∨
   ∃ e, r = Err e ∧ (files o' = files o ∨ seen = right ∨ ∃ e', seen = Err e')) ∧
  (∀ n, n ≠ name → os_names o' !! n = os_names o !! n) ∧
  (∀ i c, os_inodes o !! i = Some c → os_inodes o' !! i = Some c).
Proof.
  intros Hf Hwf Hb Hneg Hne Hbefore Hst Hsize Hfuel Hkeys Hhonest Hwhole.
  set (K := λ x, honest x ∧ (os_names o !! name = None ∨ whole x)).
  assert (HKs : Forall K sch).
  { apply Forall_forall. intros x Hx. rewrite Forall_forall in Hhonest. split; [by apply Hhonest|].
    destruct Hwhole as [Hn|Hw]; [by left|right]. rewrite Forall_forall in Hw. by apply Hw. }
  assert (HK0 : os_names o !! name = None ∨ whole_reads K).
  { destruct (os_names o !! name) eqn:E; [right|by left]. by intros x [_ [?|?]]. }
  pose proof (hash_write_crashes K (λ x Hx, proj1 Hx) name S fuel log_name hash_size rest o sch
    (conj Hwf (conj Hb Hneg)) Hf Hbefore Hst Hsize Hfuel HKs HK0) as Hc.
  destruct (sparkey_hash_write fuel name log_name hash_size (set_sched sch o)) as [r o'].
  destruct Hc as ((Hwf' & _) & o1 & Hn & Ht). by eapply torn_seen.
Qed.

(** The disk is full after 63 bytes of the header. *)
Example full_disk : list OS.outcome := replicate 51 Normal ++ [Short 3; Fails ENOSPC].

Lemma hash_write_crash_safe_witness :
  let '(r, o') := sparkey_hash_write (C := identity_codec) 9 "b.spi" "a.spl" 0 (set_sched full_disk (os_store [])) in
  r = Err SPARKEY_OUT_OF_DISK ∧ os_inodes o' !! 0%nat = Some (log_file 7 es_example).
Proof.
  pose proof (hash_write_crash_safe (C := identity_codec) 9 "b.spi" "a.spl" 0 example_log [] (os_store []) full_disk
    [[1; 2]] (os_store_log _) (os_store_wf _)) as H.
  assert (Hr : (sparkey_hash_write (C := identity_codec) 9 "b.spi" "a.spl" 0 (set_sched full_disk (os_store []))).1 =
    Err SPARKEY_OUT_OF_DISK) by (vm_compute; reflexivity).
  destruct (sparkey_hash_write 9 "b.spi" "a.spl" 0 (set_sched full_disk (os_store []))) as [r o'].
  split; [exact Hr|]. apply H; clear H Hr r o'; try done.
  - by repeat constructor.
  - apply no_index; [done|cbn; lia|by repeat constructor].
  - exact example_log_ok.
  - by left.
  - cbn; lia.
  - by repeat constructor.
  - unfold full_disk. rewrite Forall_app. split; [by apply Forall_replicate|by repeat constructor].
  - by left.
Defined.

(** C33. An index that was cut after its header stays: sparkey_hash_write takes the header for that of a
    current index, reports success and leaves the file, which cannot be opened. *)
Theorem torn_index_stays {C : Codec} fuel name log_name hash_size S rest h t1 t2 o :
  has_file o log_name (st_file S ++ rest) → has_file o name (hashheader_bytes h ++ t1) → os_wf o →
  store_ok S → stored_index S h (t1 ++ t2) → t2 ≠ [] → keeps_size (es := st_entries S) h hash_size →
  let '(r, o') := sparkey_hash_write fuel name log_name hash_size o in
  r = Ok tt ∧ files o' = files o ∧ (sparkey_hash_open name log_name o').1 = Err SPARKEY_HASH_TOO_SMALL.
Proof.
  intros Hlf Hf Hwf Hst Hidx Hne Hkeep.
  destruct (stored_hash_current fuel name log_name hash_size S S rest h t1 (t1 ++ t2) o Hlf Hf Hwf Hst (grows_refl S)
    Hidx Hkeep) as (o' & -> & Hn & Hi & _ & _ & Hs' & Hwf').
  split; [done|]. split; [by unfold files; cbn; rewrite Hn, Hi|].
  destruct (Hidx _ (some_reader_opened S)) as ((Hh & _ & [_ Htl] & _) & Hty & Hval & Hmaj & Hmin & Hid & Hde & Hmk & Hmv & _).
  pose proof (hash_open_leaks name log_name S rest h t1 o' (has_file_same o o' _ _ Hn Hi Hs' Hwf' Hf) Hty Hval Hmaj Hmin
    (has_file_same o o' _ _ Hn Hi Hs' Hwf' Hlf) Hwf' Hid) as Hl.
  destruct (sparkey_hash_open name log_name o') as [r' o2].
  destruct Hl as [-> _]; [by rewrite Hde|by rewrite Hmk, st_key_len|by rewrite Hmv, st_value_len|done| |done].
  rewrite <- Htl, length_app. destruct t2; [done|cbn [length]; lia].
Qed.

Lemma torn_index_stays_witness :
  ∃ h, let '(r, o') := sparkey_hash_write (C := identity_codec) 9 "a.spi" "a.spl" 0 (os_store (hashheader_bytes h)) in
    r = Ok tt ∧ (sparkey_hash_open "a.spi" "a.spl" o').1 = Err SPARKEY_HASH_TOO_SMALL.
Proof.
  destruct index_of_example as (h & tbl & Hidx). exists h.
  pose proof (torn_index_stays (C := identity_codec) 9 "a.spi" "a.spl" 0 example_log [] h [] tbl
    (os_store (hashheader_bytes h))) as H.
  destruct (sparkey_hash_write 9 "a.spi" "a.spl" 0 (os_store (hashheader_bytes h))) as [r o'].
  destruct (Hidx _ (some_reader_opened example_log)) as ((Hh & _ & [_ Htl] & _) & _).
  destruct H as (? & _ & ?); try done.
  - apply os_store_log.
  - rewrite app_nil_r. apply os_store_index.
  - apply os_store_wf.
  - exact example_log_ok.
  - intros ->. destruct (TableBytes.slot_size_eq h Hh) as [_ ?]. destruct Hh as (? & _). cbn in Htl. lia.
  - right. split; [done|]. right. done.
Defined.

(** Both together: the disk is full while the table is written; there is room again, the index
    is written once more, with success, and still cannot be opened. *)
Example full_disk_spoils_index :
  let sch := replicate 59 Normal ++ [Short 5; Fails ENOSPC] in
  let '(r1, o1) := sparkey_hash_write (C := identity_codec) 9 "b.spi" "a.spl" 0 (set_sched sch (os_store [])) in
  let '(r2, o2) := sparkey_hash_write (C := identity_codec) 9 "b.spi" "a.spl" 0 (set_sched [] o1) in
  r1 = Err SPARKEY_OUT_OF_DISK ∧ r2 = Ok tt ∧ (sparkey_hash_open "b.spi" "a.spl" o2).1 = Err SPARKEY_HASH_TOO_SMALL.
Proof. vm_compute. done. Qed.
