(* ===== verification/Cli.v ===== *)
(** * The command line tool (main.c)

    The commands get, writehash, createlog, appendlog, rewrite and info as the
    program runs them: options, file names, standard input, the calls of the
    library and the exit status, with what they print and the texts of the messages. *)

From stdpp Require Import base gmap list strings numbers pretty.
From Stdlib Require Import ZArith Lia Ascii.
From S2P Require Import Prelude ReturnCodes OS LogHeader HashHeader Printing Compress LogFormat.
From S2P Require Import LogWriter LogReader HashTable HashWriter HashReader.

Local Open Scope Z_scope.

(** ** Definitions *)

Definition MINIMUM_CAPACITY : Z := Z.shiftl 1 8.
Definition MAXIMUM_CAPACITY : Z := Z.shiftl 1 28.
Definition COMP_DEFAULT_BLOCKSIZE : Z := Z.shiftl 1 12.
Definition COMP_MAX_BLOCKSIZE : Z := Z.shiftl 1 30.
Definition COMP_MIN_BLOCKSIZE : Z := Z.shiftl 1 4.

(** *** The process *)

(** The environment, what is left of standard input, the lines that [printf] showed,
    and the messages on standard error.  [write] on the descriptor 1 is part of the
    environment. *)
Record process : Type := Process {
  c_os : os;
  c_stdin : list Z;
  c_stdout : list string;
  c_stderr : list string
}.

Definition set_c_os (o : os) (p : process) : process :=
  Process o (c_stdin p) (c_stdout p) (c_stderr p).
Definition set_c_stdin (i : list Z) (p : process) : process :=
  Process (c_os p) i (c_stdout p) (c_stderr p).

(** [Err n] is the end of the process with status [n], by [exit] or by [return]
    from [main]. *)
Abbreviation MX A := (M Z process A).

Definition printf (lines : list string) : MX unit :=
  modS (λ p, Process (c_os p) (c_stdin p) (c_stdout p ++ lines) (c_stderr p)).
Definition eprintf (s : string) : MX unit :=
  modS (λ p, Process (c_os p) (c_stdin p) (c_stdout p) (c_stderr p ++ [s])).

(** A call of the library, with its return code as a value. *)
Definition call {A} (m : MC os A) : MX (returncode + A) := λ p,
  let '(r, o) := m (c_os p) in
  (match r with Ok a => Ok (inr a) | Err rc => Ok (inl rc) | UB => UB | NoFuel => NoFuel end,
   set_c_os o p).

(** The same for calls on a writer and on an iterator, which come back changed. *)
Definition call_writer {A} (w : sparkey_logwriter) (m : MC WS A)
    : MX ((returncode + A) * sparkey_logwriter) := λ p,
  let '(r, (o, w)) := m (c_os p, w) in
  (match r with Ok a => Ok (inr a, w) | Err rc => Ok (inl rc, w) | UB => UB | NoFuel => NoFuel end,
   set_c_os o p).
Definition call_iter {A} (i : sparkey_logiter) (m : MI A)
    : MX ((returncode + A) * sparkey_logiter) := λ p,
  let '(r, i) := m i in
  (match r with Ok a => Ok (inr a, i) | Err rc => Ok (inl rc, i) | UB => UB | NoFuel => NoFuel end, p).

Definition assert {A} (rc : returncode + A) : MX A :=
  match rc with
  | inr a => mret a
  | inl rc => _ ← eprintf (sparkey_errstring rc); fail 1
  end.

(** A C string as bytes, without the terminating NUL. *)
Definition string_bytes (s : string) : list Z :=
  (λ c, Z.of_nat (nat_of_ascii c)) <$> String.list_ascii_of_string s.

(** *** info *)

Definition info_file (filename : string) : MX Z :=
  res ← call (sparkey_load_logheader filename);
  match res with
  | inr logheader =>
      lines ← of_opt (print_logheader logheader);
      _ ← printf (("Filename: " +:+ filename)%string :: lines ++ [""]); mret 0
  | inl res =>
      if decide (res ≠ SPARKEY_WRONG_LOG_MAGIC_NUMBER)
      then _ ← eprintf (filename +:+ ": " +:+ sparkey_errstring res); mret 1 else
      res ← call (sparkey_load_hashheader filename);
      match res with
      | inr hashheader =>
          _ ← printf (("Filename: " +:+ filename)%string :: print_hashheader hashheader ++ [""]); mret 0
      | inl res =>
          if decide (res ≠ SPARKEY_WRONG_HASH_MAGIC_NUMBER)
          then _ ← eprintf (filename +:+ ": " +:+ sparkey_errstring res); mret 1
          else _ ← eprintf (filename +:+ ": Not a sparkey file."); mret 1
      end
  end.

Fixpoint info (argv : list string) (retval : Z) : MX Z :=
  match argv with
  | [] => mret retval
  | f :: argv => r ← info_file f; info argv (Z.lor retval r)
  end.

(** *** Lines of standard input *)

(** Functions of the C library on a buffer, given as the bytes that have been
    written so far: [None] is a read of memory that never was. *)

(** The number of characters with [p] before the first one without, or NUL. *)
Fixpoint str_span (p : Z → bool) (s : list Z) : option nat :=
  match s with
  | [] => None
  | c :: s => if decide (c = 0) then Some 0%nat
              else if p c then S <$> str_span p s else Some 0%nat
  end.

Definition strlen (s : list Z) : option nat := str_span (λ _, true) s.
Definition newline : Z := 10.

(** [fgets(buf, n, input)]: the characters before the NUL it stores, and the rest of
    the input; [None] at its end. *)
Fixpoint take_line (n : nat) (input : list Z) : list Z * list Z :=
  match n, input with
  | O, _ => ([], input)
  | _, [] => ([], [])
  | S n, c :: input => if decide (c = newline) then ([c], input)
                       else let '(l, rest) := take_line n input in (c :: l, rest)
  end.

Definition fgets (n : Z) (input : list Z) : option (list Z * list Z) :=
  match input with
  | [] => None
  | _ => Some (take_line (Z.to_nat (n - 1)) input)
  end.

(** [strtok(s + pos, delim)] with one delimiter: where the token starts, the string
    with the delimiter after it overwritten, and where the next call goes on. *)
Definition strtok (delim : Z) (s : list Z) (pos : nat) : option (option nat * (list Z * nat)) :=
  skipped ← str_span (λ c, bool_decide (c = delim)) (drop pos s);
  let start := (pos + skipped)%nat in
  c ← s !! start;
  if decide (c = 0) then Some (None, (s, start)) else
  n ← str_span (λ c, negb (bool_decide (c = delim))) (drop start s);
  let last := (start + n)%nat in
  c ← s !! last;
  if decide (c = 0) then Some (Some start, (s, last))
  else Some (Some start, (<[last := 0]> s, S last)).

(** [*buffer] and [*capacity]; [None] is NULL. *)
Record line_buffer : Type := LineBuffer { l_buffer : option (list Z); l_capacity : Z }.

(** Every round but the last takes a character from the input. *)
Fixpoint read_line_loop (fuel : nat) (b : line_buffer) (cap : Z) (pos : nat)
    : MX (nat * line_buffer) :=
  match fuel with
  | O => out_of_fuel
  | S fuel =>
      ok ← call sys_malloc;
      match ok with
      | inr true =>
          let buf := default [] (l_buffer b) in
          p ← getS;
          match fgets (s32 (cap - Z.of_nat pos)) (c_stdin p) with
          | None => mret (pos, LineBuffer (Some buf) cap)
          | Some (chars, rest) =>
              _ ← modS (set_c_stdin rest);
              let buf := take pos buf ++ chars ++ [0] ++ drop (pos + length chars + 1) buf in
              n ← of_opt (str_span (λ c, negb (bool_decide (c = newline))) (drop pos buf));
              let pos := (pos + n)%nat in
              c ← of_opt (buf !! pos);
              if decide (c = newline) then mret (pos, LineBuffer (Some buf) cap)
              else read_line_loop fuel (LineBuffer (Some buf) cap) (u64 (cap * 2)) pos
          end
      | _ => mret (pos, b)
      end
  end.

Definition read_line (b : line_buffer) : MX (nat * line_buffer) :=
  p ← getS;
  let fuel := S (S (length (c_stdin p))) in
  if decide (l_capacity b < MINIMUM_CAPACITY) then read_line_loop fuel b MINIMUM_CAPACITY 0
  else if decide (l_capacity b > MAXIMUM_CAPACITY) then mret (0%nat, b)
  else read_line_loop fuel b (l_capacity b) 0.

(** The C string at a place of the buffer. *)
Definition cstring (s : list Z) (pos : nat) : option (list Z) :=
  n ← strlen (drop pos s); Some (take n (drop pos s)).

Section Cli.
Context {C : Codec}.

(** *** get *)

Definition STDOUT_FILENO : Z := 1.

(** The chunks of the value; every one but the last has at least one byte. *)
Fixpoint print_value (fuel : nat) (logreader : sparkey_logreader) (iter : sparkey_logiter)
    : MX sparkey_logiter :=
  match fuel with
  | O => out_of_fuel
  | S fuel =>
      ri ← call_iter iter (sparkey_logiter_valuechunk logreader max_chunk);
      res ← assert ri.1;
      rc ← call (write_full STDOUT_FILENO res);
      _ ← assert rc;
      if decide (zlen res > 0) then print_value fuel logreader ri.2 else mret ri.2
  end.

Definition get (hashfile logfile key : string) : MX Z :=
  rc ← call (sparkey_hash_open hashfile logfile);
  reader ← assert rc;
  let logreader := sparkey_hash_getreader reader in
  rc ← call (sparkey_logiter_create logreader);
  iter ← assert rc;
  ri ← call_iter iter (sparkey_hash_get reader (string_bytes key));
  _ ← assert ri.1;
  let iter := ri.2 in
  exitcode ← (if decide (sparkey_logiter_state iter = SPARKEY_ITER_ACTIVE)
              then _ ← print_value (S (S (Z.to_nat (i_value_remaining iter)))) logreader iter; mret 0
              else mret 2);
  _ ← call (λ o, let '(r, (o, _)) := sparkey_hash_close (o, Some reader) in (r, o));
  mret exitcode.

(** *** writehash *)

Definition writehash (fuel : nat) (indexfile logfile : string) : MX Z :=
  rc ← call (sparkey_hash_write fuel indexfile logfile 0);
  _ ← assert rc;
  mret 0.

(** *** appendlog *)

(** One round for every line; a line takes at least one character. *)
Fixpoint append_loop (fuel : nat) (delimiter : Z) (b : line_buffer) (writer : sparkey_logwriter)
    : MX (Z * sparkey_logwriter) :=
  match fuel with
  | O => out_of_fuel
  | S fuel =>
      eb ← read_line b;
      let b := eb.2 in
      line ← of_opt (l_buffer b);
      c ← of_opt (line !! eb.1);
      if decide (c = newline) then
        k ← of_opt (strtok delimiter line 0);
        v ← of_opt (strtok newline k.2.1 k.2.2);
        let line := v.2.1 in
        match v.1 with
        | Some value =>
            key ← of_opt (start ← k.1; cstring line start);
            value ← of_opt (cstring line value);
            rw ← call_writer writer (sparkey_logwriter_put key value);
            match rw.1 with
            | inr _ => append_loop fuel delimiter (LineBuffer (Some line) (l_capacity b)) rw.2
            | inl returncode =>
                _ ← eprintf ("Cannot append line to log file, aborting early: " +:+
                             sparkey_errstring returncode);
                mret (1, rw.2)
            end
        | None => _ ← eprintf "Cannot split input line, aborting early."; mret (1, writer)
        end
      else mret (0, writer)
  end.

Definition append (writer : sparkey_logwriter) (delimiter : Z) : MX (Z * sparkey_logwriter) :=
  p ← getS;
  append_loop (S (length (c_stdin p))) delimiter (LineBuffer None 0) writer.

(** [sparkey_logwriter_close(&writer)]; the process does not use the writer again. *)
Definition close_writer (writer : sparkey_logwriter) : MX unit :=
  rc ← call (λ o, let '(r, (o, _)) := sparkey_logwriter_close (o, Some writer) in (r, o));
  assert rc.

Definition appendlog (delimiter : Z) (log_filename : string) : MX Z :=
  rc ← call (sparkey_logwriter_append log_filename);
  writer ← assert rc;
  rw ← append writer delimiter;
  _ ← close_writer rw.2;
  mret rw.1.

(** *** createlog *)

Definition createlog (compression_type block_size : Z) (log_filename : string) : MX Z :=
  rc ← call (sparkey_logwriter_create log_filename compression_type block_size);
  writer ← assert rc;
  _ ← close_writer writer;
  mret 0.

(** *** rewrite *)

(** The buffer [buf] of [size] bytes after the library has filled it with [bs], and
    its first [len] bytes; a write behind its end or a read of bytes that were
    never written is undefined. *)
Definition fill_buffer (size : Z) (buf bs : list Z) (len : Z) : option (list Z * list Z) :=
  if decide (zlen bs > size) then None else
  let buf := bs ++ drop (length bs) buf in
  out ← mem_read buf 0 len; Some (buf, out).

Fixpoint rewrite_loop (fuel : nat) (logreader : sparkey_logreader) (keysize valuesize : Z)
    (iter : sparkey_logiter) (writer : sparkey_logwriter) (keybuf valuebuf : list Z)
    : MX sparkey_logwriter :=
  match fuel with
  | O => out_of_fuel
  | S fuel =>
      ri ← call_iter iter (sparkey_logiter_next logreader);
      _ ← assert ri.1;
      let iter := ri.2 in
      if decide (sparkey_logiter_state iter ≠ SPARKEY_ITER_ACTIVE) then mret writer else
      let wanted_keylen := sparkey_logiter_keylen iter in
      ri ← call_iter iter (sparkey_logiter_fill_key logreader wanted_keylen);
      bs ← assert ri.1;
      key ← of_opt (fill_buffer keysize keybuf bs wanted_keylen);
      let iter := ri.2 in
      let wanted_valuelen := sparkey_logiter_valuelen iter in
      ri ← call_iter iter (sparkey_logiter_fill_value logreader wanted_valuelen);
      bs ← assert ri.1;
      value ← of_opt (fill_buffer valuesize valuebuf bs wanted_valuelen);
      rw ← call_writer writer (sparkey_logwriter_put key.2 value.2);
      _ ← assert rw.1;
      rewrite_loop fuel logreader keysize valuesize ri.2 rw.2 key.1 value.1
  end.

(** [malloc(size)]: a NULL pointer has no room. *)
Definition malloc_buffer (size : Z) : MX Z :=
  ok ← call sys_malloc;
  mret (if decide (ok = inr true) then size else 0).

(** The entries of an open log, written to a new one. *)
Definition copy_log (fuel : nat) (logreader : sparkey_logreader) (compression_type block_size : Z)
    (output_log : string) : MX unit :=
  rc ← call (sparkey_logwriter_create output_log compression_type block_size);
  writer ← assert rc;
  rc ← call (sparkey_logiter_create logreader);
  iter ← assert rc;
  keysize ← malloc_buffer (sparkey_logreader_maxkeylen logreader);
  valuesize ← malloc_buffer (sparkey_logreader_maxvaluelen logreader);
  writer ← rewrite_loop fuel logreader keysize valuesize iter writer [] [];
  close_writer writer.

(** [compression] and [block_size] are [None] when the option was not given. *)
Definition rewrite_log (fuel : nat) (compression : option Z) (block_size : option Z)
    (input_index input_log output_index output_log : string) : MX Z :=
  rc ← call (sparkey_hash_open input_index input_log);
  reader ← assert rc;
  let logreader := sparkey_hash_getreader reader in
  let compression_type := default (sparkey_logreader_get_compression_type logreader) compression in
  let block_size := default (sparkey_logreader_get_compression_blocksize logreader) block_size in
  _ ← copy_log fuel logreader compression_type block_size output_log;
  _ ← call (λ o, let '(r, (o, _)) := sparkey_hash_close (o, Some reader) in (r, o));
  _ ← writehash fuel output_index output_log;
  mret 0.

(** *** Options *)

(** What [getopt] reports: an option with its argument, or [?] with [optopt]. *)
Inductive optevent : Type :=
| OptArg (opt_char : ascii) (optarg : string)
| OptError (optopt : ascii).

(** The options of an argument list and what is left from [optind] on.  [getopt] is
    part of the system's C library. *)
Class Getopt : Type := getopt : string → list string → list optevent * list string.
Context {G : Getopt}.

(** [sscanf(s, "%d", ...)]: an optional sign and digits after white space; [Some None]
    is no match.  A number that no [int] can hold is undefined. *)
Definition is_space (c : ascii) : bool :=
  let n := nat_of_ascii c in bool_decide (n = 32 ∨ 9 ≤ n ≤ 13)%nat.
Definition digit (c : ascii) : option Z :=
  let n := Z.of_nat (nat_of_ascii c) in if decide (48 ≤ n ≤ 57) then Some (n - 48) else None.

Fixpoint scan_digits (cs : list ascii) (acc : Z) : Z :=
  match cs with
  | c :: cs => match digit c with Some d => scan_digits cs (acc * 10 + d) | None => acc end
  | [] => acc
  end.

Fixpoint skip_spaces (cs : list ascii) : list ascii :=
  match cs with c :: cs' => if is_space c then skip_spaces cs' else cs | [] => [] end.

Definition scan_int (s : string) : option (option Z) :=
  let cs := skip_spaces (String.list_ascii_of_string s) in
  let '(sign, cs) := match cs with
                     | c :: cs' => if decide (c = "-"%char) then (-1, cs')
                                   else if decide (c = "+"%char) then (1, cs') else (1, cs)
                     | [] => (1, [])
                     end in
  match cs with
  | c :: _ => match digit c with
              | None => Some None
              | Some _ => let n := sign * scan_digits cs 0 in
                          if decide (- 2 ^ 31 ≤ n < 2 ^ 31) then Some (Some n) else None
              end
  | [] => Some None
  end.

(** The message about an option: one that lacks its argument, or is unknown. *)
Definition hex (n : Z) : string :=
  if decide (n < 16) then String (hex_digit n) ""
  else String (hex_digit (n / 16)) (String (hex_digit (n mod 16)) "").

Definition option_message (optstring : list ascii) (optopt : ascii) : string :=
  let n := Z.of_nat (nat_of_ascii optopt) in
  if bool_decide (optopt ∈ optstring)
  then "Option -" +:+ String optopt "" +:+ " requires an argument."
  else if decide (32 ≤ n < 127) then "Unknown option '-" +:+ String optopt "" +:+ "'."
  else "Unknown option character '\x" +:+ hex n +:+ "'.".

Definition exit_with {A} (s : string) : MX A := _ ← eprintf s; fail 1.

Definition parse_block_size (optarg : string) : MX Z :=
  n ← of_opt (scan_int optarg);
  match n with
  | None => exit_with ("Block size must be an integer, but was '" +:+ optarg +:+ "'")
  | Some block_size =>
      if decide (block_size > COMP_MAX_BLOCKSIZE ∨ block_size < COMP_MIN_BLOCKSIZE)
      then exit_with ("Block size " +:+ pretty block_size +:+ ", not in range. Max is " +:+
                      pretty COMP_MAX_BLOCKSIZE +:+ ", min is " +:+ pretty COMP_MIN_BLOCKSIZE)
      else mret block_size
  end.

Definition parse_compression (optarg : string) : MX Z :=
  if decide (optarg = "none") then mret SPARKEY_COMPRESSION_NONE else
  if decide (optarg = "snappy") then mret SPARKEY_COMPRESSION_SNAPPY else
  if decide (optarg = "zstd") then mret SPARKEY_COMPRESSION_ZSTD else
  exit_with ("Invalid compression type: '" +:+ optarg +:+ "'").

(** The options of createlog and rewrite: the block size and the compression type,
    if they were given. *)
Fixpoint block_options (events : list optevent) (block_size compression : option Z)
    : MX (option Z * option Z) :=
  match events with
  | [] => mret (block_size, compression)
  | OptArg c optarg :: events =>
      if decide (c = "b"%char) then
        n ← parse_block_size optarg; block_options events (Some n) compression
      else if decide (c = "c"%char) then
        n ← parse_compression optarg; block_options events block_size (Some n)
      else exit_with "Unknown option parsing failure"
  | OptError optopt :: _ => exit_with (option_message ["b"%char; "c"%char] optopt)
  end.

(** The option of appendlog. *)
Fixpoint delimiter_options (events : list optevent) (delimiter : Z) : MX Z :=
  match events with
  | [] => mret delimiter
  | OptArg c optarg :: events =>
      if decide (c = "d"%char) then
        match string_bytes optarg with
        | [d] => delimiter_options events d
        | _ => exit_with ("delimiter must be one character, but was '" +:+ optarg +:+ "'")
        end
      else exit_with "Unknown option parsing failure"
  | OptError optopt :: _ => exit_with (option_message ["d"%char] optopt)
  end.

(** *** main *)

(** Several lines on standard error. *)
Definition eprint_lines (lines : list string) : MX unit :=
  modS (λ p, Process (c_os p) (c_stdin p) (c_stdout p) (c_stderr p ++ lines)).

Definition usage : MX unit := eprint_lines
  ["Usage: sparkey <command> [<args>]";
   "Commands:";
   "  info      - Show information about sparkey files.";
   "  get       - Get the value associated with a key.";
   "  writehash - Generate a hash file from a log file.";
   "  createlog - Create an empty log file.";
   "  appendlog - Append key-value pairs to an existing log file.";
   "  rewrite   - Rewrite an existing log/index file pair, trimming away all replaced entries and possibly changing the compression format.";
   "  help      - Show this help text."].

Definition usage_info : MX unit := eprint_lines
  ["Usage: sparkey info file1 [file2, ...]";
   "  Show information about files. Files can be either index or log files."].

Definition usage_get : MX unit := eprint_lines
  ["Usage: sparkey get <index file> <key>";
   "  Get the value for a specific key.";
   "  Returns 0 if found,";
   "          1 on error,";
   "          2 on not-found."].

Definition usage_writehash : MX unit := eprint_lines
  ["Usage: sparkey writehash <file.spl>";
   "  Write a new index file for a log file.";
   "  Creates and possibly overwrites a new file with file ending .spi"].

Definition usage_createlog : MX unit := eprint_lines
  ["Usage: sparkey createlog [-c <none|snappy|zstd> | -b <n>] <file.spl>";
   "  Create a new empty log file.";
   "Options:";
   "  -c <none|snappy|zstd>  Compression algorithm [default: none]";
   "  -b <n>                 Compression blocksize [default: " +:+ pretty COMP_DEFAULT_BLOCKSIZE +:+ "]";
   "                    [min: " +:+ pretty COMP_MIN_BLOCKSIZE +:+ ", max: " +:+ pretty COMP_MAX_BLOCKSIZE +:+ "]"].

Definition usage_appendlog : MX unit := eprint_lines
  ["Usage: sparkey appendlog [-d <char>] <file.spl>";
   "  Append data from STDIN to a log file with settings.";
   "  data must be formatted as a sequence of";
   "  <key> <delimiter> <value> <newline>";
   "Options:";
   "  -d <char>  Delimiter char to split input records on [default: TAB]"].

Definition usage_rewrite : MX unit := eprint_lines
  ["Usage: sparkey rewrite [-c <none|snappy|zstd> | -b <n>] <input.spi> <output.spi>";
   "  Iterate over all entries in <file.spi> and create a new index and log pair";
   "Options:";
   "  -c <none|snappy|zstd>  Compression algorithm [default: same as before]";
   "  -b <n>                 Compression blocksize [default: same as before]";
   "                    [min: " +:+ pretty COMP_MIN_BLOCKSIZE +:+ ", max: " +:+ pretty COMP_MAX_BLOCKSIZE +:+ "]"].

Definition main_get (args : list string) : MX Z :=
  match args with
  | index_filename :: key :: _ =>
      match sparkey_create_log_filename (Some index_filename) with
      | None => exit_with "index filename must end with .spi"
      | Some log_filename => get index_filename log_filename key
      end
  | _ => _ ← usage_get; mret 1
  end.

Definition main_writehash (fuel : nat) (args : list string) : MX Z :=
  match args with
  | log_filename :: _ =>
      match sparkey_create_index_filename (Some log_filename) with
      | None => exit_with "log filename must end with .spl"
      | Some index_filename => writehash fuel index_filename log_filename
      end
  | _ => _ ← usage_writehash; mret 1
  end.

Definition main_createlog (args : list string) : MX Z :=
  let '(events, operands) := getopt "b:c:" args in
  opts ← block_options events (Some COMP_DEFAULT_BLOCKSIZE) (Some SPARKEY_COMPRESSION_NONE);
  match operands with
  | log_filename :: _ =>
      createlog (default SPARKEY_COMPRESSION_NONE opts.2) (default COMP_DEFAULT_BLOCKSIZE opts.1)
        log_filename
  | [] => _ ← usage_createlog; mret 1
  end.

Definition main_appendlog (args : list string) : MX Z :=
  let '(events, operands) := getopt "d:" args in
  delimiter ← delimiter_options events 9;
  match operands with
  | log_filename :: _ => appendlog delimiter log_filename
  | [] => _ ← usage_appendlog; mret 1
  end.

Definition main_rewrite (fuel : nat) (args : list string) : MX Z :=
  let '(events, operands) := getopt "b:c:" args in
  opts ← block_options events None None;
  match operands with
  | input_index_filename :: output_index_filename :: _ =>
      if decide (input_index_filename = output_index_filename)
      then exit_with "input and output must be different." else
      match sparkey_create_log_filename (Some input_index_filename) with
      | None => exit_with ("input filename must end with .spi but was '" +:+ input_index_filename +:+ "'")
      | Some input_log_filename =>
          match sparkey_create_log_filename (Some output_index_filename) with
          | None => exit_with ("output filename must end with .spi but was '" +:+
                               output_index_filename +:+ "'")
          | Some output_log_filename =>
              rewrite_log fuel opts.2 opts.1 input_index_filename input_log_filename
                output_index_filename output_log_filename
          end
      end
  | _ => _ ← usage_rewrite; mret 1
  end.

(** The arguments after the name of the program. *)
Definition main (fuel : nat) (argv : list string) : MX Z :=
  match argv with
  | [] => _ ← usage; mret 0
  | command :: args =>
      if decide (command = "info") then
        match args with [] => _ ← usage_info; mret 1 | _ => info args 0 end
      else if decide (command = "get") then main_get args
      else if decide (command = "writehash") then main_writehash fuel args
      else if decide (command = "createlog") then main_createlog args
      else if decide (command = "appendlog") then main_appendlog args
      else if decide (command = "rewrite") then main_rewrite fuel args
      else if decide (command = "help" ∨ command = "--help" ∨ command = "-h") then _ ← usage; mret 0
      else exit_with ("Unknown command: " +:+ command)
  end.

End Cli.
