(* ===== verification/CliLines.v ===== *)
(** * Lines of standard input

    What [read_line] leaves in its buffer, how [strtok] splits a line, and the
    loop of appendlog over a text of lines. *)

From stdpp Require Import base gmap list strings numbers.
From Stdlib Require Import ZArith Lia.
From S2P Require Import Prelude ReturnCodes OS LogHeader Compress LogFormat LogWriter.
From S2P Require Import Cooperation LogReader HashWriter HashReader Cli.

Local Open Scope Z_scope.

(** ** C strings *)

Lemma str_span_app p l x r :
  Forall (λ c, c ≠ 0 ∧ p c = true) l → x = 0 ∨ p x = false →
  str_span p (l ++ x :: r) = Some (length l).
Proof.
  intros Hl Hx. induction Hl as [|c l [Hc Hp] _ IH]; cbn.
  - case_decide; [done|]. destruct Hx as [?| ->]; done.
  - by rewrite decide_False, Hp, IH.
Qed.

(** A character of a line: not the newline and not NUL. *)
Definition plain_char (c : Z) : Prop := c ≠ 0 ∧ c ≠ newline.

Lemma span_line l x r :
  Forall plain_char l → x = 0 ∨ x = newline →
  str_span (λ c, negb (bool_decide (c = newline))) (l ++ x :: r) = Some (length l).
Proof.
  intros Hl Hx. apply str_span_app.
  - eapply Forall_impl; [|exact Hl]. intros c [? ?]. by rewrite bool_decide_false.
  - destruct Hx as [->| ->]; [by left|right]. by rewrite bool_decide_true.
Qed.

Lemma take_line_whole n l r :
  Forall plain_char l → (length l < n)%nat → take_line n (l ++ newline :: r) = (l ++ [newline], r).
Proof.
  intros Hl. revert n. induction Hl as [|c l [_ Hc] _ IH]; intros [|n] Hn; cbn in *; try lia.
  - done.
  - rewrite decide_False, IH by (done || lia). done.
Qed.

(** A line that does not fit, or that the input ends. *)
Lemma take_line_part n l r :
  Forall plain_char l → (n ≤ length l)%nat → take_line n (l ++ r) = (take n l, drop n l ++ r).
Proof.
  intros Hl. revert n. induction Hl as [|c l [_ Hc] _ IH]; intros [|n] Hn; cbn in *; try lia; try done.
  by rewrite decide_False, IH by (done || lia).
Qed.

Lemma take_line_end n l : Forall plain_char l → (length l ≤ n)%nat → take_line n l = (l, []).
Proof.
  intros Hl. revert n. induction Hl as [|c l [_ Hc] _ IH]; intros [|n] Hn; cbn in *; try lia; try done.
  by rewrite decide_False, IH by (done || lia).
Qed.

(** ** Reading a line *)

(** The capacities the buffer goes through. *)
Definition capacity_ok (k : Z) : Prop := 8 ≤ k ≤ 28.

Lemma malloc_call p : os_sched (c_os p) = [] → call sys_malloc p = (Ok (inr true), p).
Proof. intros Hs. unfold call. rewrite (sys_malloc_run _ Hs). by destruct p. Qed.

Lemma pow_cap k : capacity_ok k → 2 ^ 8 ≤ 2 ^ k ≤ 2 ^ 28.
Proof. intros [? ?]. split; apply Z.pow_le_mono_r; lia. Qed.

Lemma double_cap k : capacity_ok k → u64 (2 ^ k * 2) = 2 ^ (k + 1).
Proof.
  intros Hk. pose proof (pow_cap k Hk). rewrite Z.pow_add_r by (unfold capacity_ok in Hk; lia).
  apply u64_id. lia.
Qed.

(** One round of the loop, when the environment grants the memory. *)
Lemma read_line_round fuel b cap pos p :
  os_sched (c_os p) = [] →
  read_line_loop (S fuel) b cap pos p =
    let buf := default [] (l_buffer b) in
    match fgets (s32 (cap - Z.of_nat pos)) (c_stdin p) with
    | None => (Ok (pos, LineBuffer (Some buf) cap), p)
    | Some (chars, rest) =>
        let buf := take pos buf ++ chars ++ [0] ++ drop (pos + length chars + 1) buf in
        match (n ← str_span (λ c, negb (bool_decide (c = newline))) (drop pos buf);
               c ← buf !! (pos + n)%nat; Some ((pos + n)%nat, c)) with
        | None => (UB, set_c_stdin rest p)
        | Some (pos, c) =>
            if decide (c = newline) then (Ok (pos, LineBuffer (Some buf) cap), set_c_stdin rest p)
            else read_line_loop fuel (LineBuffer (Some buf) cap) (u64 (cap * 2)) pos (set_c_stdin rest p)
        end
    end.
Proof.
  intros Hs. cbn [read_line_loop]. rewrite (bind_Ok _ _ _ _ _ (malloc_call p Hs)), bind_getS.
  destruct (fgets _ _) as [[chars rest]|]; [|done]. rewrite bind_modS.
  destruct (str_span _ _) as [n|]; [|done]. rewrite bind_of_opt. cbn [mbind option_bind].
  destruct (_ !! _) as [c|]; [|done]. rewrite bind_of_opt. cbn [mbind option_bind]. by destruct (decide (c = newline)).
Qed.

(** What a round leaves after [pos] characters were there and [chars] came. *)
Lemma round_buffer (buf pre chars : list Z) :
  take (length pre) buf = pre →
  ∃ junk, take (length pre) buf ++ chars ++ [0] ++ drop (length pre + length chars + 1) buf =
    pre ++ chars ++ 0 :: junk.
Proof. intros ->. by eexists. Qed.

Lemma read_line_whole fuel k pre l rest b p :
  os_sched (c_os p) = [] → capacity_ok k → take (length pre) (default [] (l_buffer b)) = pre →
  zlen pre + 1 < 2 ^ k → Forall plain_char l → zlen pre + zlen l + 2 ≤ 2 ^ 28 →
  c_stdin p = l ++ newline :: rest → (length l < fuel)%nat →
  ∃ k' junk, capacity_ok k' ∧ read_line_loop fuel b (2 ^ k) (length pre) p =
    (Ok ((length pre + length l)%nat,
         LineBuffer (Some ((pre ++ l) ++ newline :: 0 :: junk)) (2 ^ k')), set_c_stdin rest p).
Proof.
  revert k pre l b p. induction fuel as [|fuel IH]; intros k pre l b p Hs Hk Hpre Hpos Hl Hlen Hin Hfuel;
    [lia|].
  pose proof (pow_cap k Hk) as Hpow. rewrite read_line_round by done. cbv zeta.
  rewrite s32_id by lia. unfold fgets. rewrite Hin.
  destruct (l ++ newline :: rest) as [|c0 input0] eqn:E; [by destruct l|]. rewrite <- E.
  destruct (decide (zlen l + 1 ≤ 2 ^ k - zlen pre - 1)) as [Hfit|Hfit].
  - rewrite take_line_whole by (done || lia).
    destruct (round_buffer _ _ (l ++ [newline]) Hpre) as [junk Hbuf]. rewrite Hbuf.
    rewrite drop_app_length. rewrite <- app_assoc. cbn [app].
    rewrite (span_line l newline) by (done || by right). cbn [mbind option_bind].
    rewrite lookup_app_r, lookup_app_r by lia.
    replace (length pre + length l - length pre - length l)%nat with 0%nat by lia. cbn.
    rewrite decide_True by done. exists k, junk. split; [done|]. by rewrite <- app_assoc.
  - set (n := Z.to_nat (2 ^ k - zlen pre - 1)). assert (Hn : (0 < n ≤ length l)%nat) by lia.
    rewrite take_line_part by (done || lia).
    destruct (round_buffer _ _ (take n l) Hpre) as [junk Hbuf]. rewrite Hbuf.
    rewrite drop_app_length. rewrite (span_line (take n l) 0) by (by apply Forall_take || by left).
    cbn [mbind option_bind]. rewrite length_take_le by lia.
    rewrite lookup_app_r, lookup_app_r by (rewrite ?length_take; lia).
    replace (length pre + n - length pre - length (take n l))%nat with 0%nat by (rewrite length_take; lia).
    cbn. rewrite decide_False by done.
    assert (k < 28) by (destruct (decide (k = 28)) as [->|]; unfold capacity_ok in Hk; lia).
    rewrite double_cap by done. assert (Hpl : length (pre ++ take n l) = (length pre + n)%nat)
      by (rewrite length_app, length_take_le; lia).
    rewrite <- Hpl.
    destruct (IH (k + 1) (pre ++ take n l) (drop n l)
      (LineBuffer (Some (pre ++ take n l ++ 0 :: junk)) (2 ^ k)) (set_c_stdin (drop n l ++ newline :: rest) p))
      as (k' & junk' & Hk' & Hrun).
    + done.
    + unfold capacity_ok in *. lia.
    + cbn. rewrite app_assoc. by rewrite take_app_length.
    + rewrite Hpl, Z.pow_add_r by (unfold capacity_ok in Hk; lia). lia.
    + by apply Forall_drop.
    + rewrite Hpl, length_drop. lia.
    + done.
    + rewrite length_drop. lia.
    + exists k', junk'. split; [done|]. rewrite Hrun. rewrite Hpl, length_drop.
      rewrite <- (app_assoc pre), take_drop. do 3 f_equal. lia.
Qed.

Lemma fgets_some n l : l ≠ [] → fgets n l = Some (take_line (Z.to_nat (n - 1)) l).
Proof. by destruct l. Qed.

(** What the loop leaves at the end of the input: the character at the returned
    place is not a newline. *)
Definition no_line (n : nat) (b : line_buffer) : Prop :=
  ∃ line c, l_buffer b = Some line ∧ line !! n = Some c ∧ c ≠ newline.

Lemma read_line_eof fuel b cap pos p :
  os_sched (c_os p) = [] → c_stdin p = [] →
  read_line_loop (S fuel) b cap pos p = (Ok (pos, LineBuffer (Some (default [] (l_buffer b))) cap), p).
Proof. intros Hs Hin. rewrite read_line_round by done. by rewrite Hin. Qed.

Lemma read_line_end fuel k pre l b p :
  os_sched (c_os p) = [] → capacity_ok k → take (length pre) (default [] (l_buffer b)) = pre →
  zlen pre + 1 < 2 ^ k → Forall plain_char l → zlen pre + zlen l + 2 ≤ 2 ^ 28 →
  c_stdin p = l → (length l < fuel)%nat → (l = [] → no_line (length pre) b) →
  ∃ n b', read_line_loop (S fuel) b (2 ^ k) (length pre) p = (Ok (n, b'), set_c_stdin [] p) ∧ no_line n b'.
Proof.
  revert k pre l b p. induction fuel as [|fuel IH]; intros k pre l b p Hs Hk Hpre Hpos Hl Hlen Hin Hfuel Hnil;
    [lia|].
  assert (Heof : ∀ b' pos cap p', os_sched (c_os p') = [] → c_stdin p' = [] → no_line pos b' →
    ∃ n b2, read_line_loop (S fuel) b' cap pos p' = (Ok (n, b2), p') ∧ no_line n b2).
  { intros b' pos cap p' Hs' Hin' (line & c & Hb & Hc). rewrite read_line_eof by done.
    eexists _, _. split; [done|]. rewrite Hb. by exists line, c. }
  destruct (decide (l = [])) as [->|Hne].
  { rewrite read_line_eof by done. destruct (Hnil eq_refl) as (line & c & Hb & Hc). rewrite Hb.
    eexists _, _. split; [by rewrite <- Hin; destruct p|by exists line, c]. }
  clear Hnil. pose proof (pow_cap k Hk) as Hpow.
  rewrite read_line_round by done. cbv zeta. rewrite s32_id by lia. rewrite Hin, fgets_some by done.
  destruct (decide (zlen l ≤ 2 ^ k - zlen pre - 1)) as [Hfit|Hfit].
  - rewrite take_line_end by (done || lia).
    destruct (round_buffer _ _ l Hpre) as [junk Hbuf]. rewrite Hbuf, drop_app_length.
    rewrite (span_line l 0) by (done || by left). cbn [mbind option_bind].
    rewrite lookup_app_r, lookup_app_r by lia.
    replace (length pre + length l - length pre - length l)%nat with 0%nat by lia. cbn -[read_line_loop].
    rewrite decide_False by done. apply Heof; try done. exists (pre ++ l ++ 0 :: junk), 0.
    split_and!; try done. rewrite lookup_app_r, lookup_app_r by lia.
    by replace (length pre + length l - length pre - length l)%nat with 0%nat by lia.
  - set (n := Z.to_nat (2 ^ k - zlen pre - 1)). assert (Hn : (0 < n < length l)%nat) by lia.
    pose proof (take_line_part n l [] Hl ltac:(lia)) as Htl. rewrite !app_nil_r in Htl. rewrite Htl.
    destruct (round_buffer _ _ (take n l) Hpre) as [junk Hbuf]. rewrite Hbuf, drop_app_length.
    rewrite (span_line (take n l) 0) by (by apply Forall_take || by left).
    cbn [mbind option_bind]. rewrite length_take_le by lia.
    rewrite lookup_app_r, lookup_app_r by (rewrite ?length_take; lia).
    replace (length pre + n - length pre - length (take n l))%nat with 0%nat by (rewrite length_take; lia).
    cbn -[read_line_loop]. rewrite decide_False by done.
    assert (k < 28) by (destruct (decide (k = 28)) as [->|]; unfold capacity_ok in Hk; lia).
    rewrite double_cap by done. assert (Hpl : length (pre ++ take n l) = (length pre + n)%nat)
      by (rewrite length_app, length_take_le; lia).
    rewrite <- Hpl.
    destruct (IH (k + 1) (pre ++ take n l) (drop n l)
      (LineBuffer (Some (pre ++ take n l ++ 0 :: junk)) (2 ^ k)) (set_c_stdin (drop n l) p))
      as (m & b' & Hrun & Hno); try done.
    + unfold capacity_ok in *. lia.
    + cbn. rewrite app_assoc. by rewrite take_app_length.
    + rewrite Hpl, Z.pow_add_r by (unfold capacity_ok in Hk; lia). lia.
    + by apply Forall_drop.
    + rewrite Hpl, length_drop. lia.
    + rewrite length_drop. lia.
    + intros E. apply (f_equal length) in E. rewrite length_drop in E. cbn in E. lia.
    + exists m, b'. by rewrite Hrun.
Qed.

(** ** Splitting a line *)

Lemma strtok_token d pre l r :
  d ≠ 0 → l ≠ [] → Forall (λ c, c ≠ 0 ∧ c ≠ d) l →
  strtok d (pre ++ l ++ d :: r) (length pre) =
    Some (Some (length pre), (pre ++ l ++ 0 :: r, S (length pre + length l))).
Proof.
  intros Hd Hne Hl. unfold strtok. rewrite drop_app_length.
  assert (Hskip : str_span (λ c, bool_decide (c = d)) (l ++ d :: r) = Some 0%nat).
  { destruct Hl as [|x l [Hx0 Hxd] _]; [done|]. cbn. rewrite decide_False by done.
    by rewrite bool_decide_false. }
  rewrite Hskip. cbn [mbind option_bind]. rewrite Nat.add_0_r.
  assert (Hhead : ∃ x, (pre ++ l ++ d :: r) !! length pre = Some x ∧ x ≠ 0).
  { destruct Hl as [|x l [Hx0 _] _]; [done|]. exists x. cbn [app]. by rewrite list_lookup_middle. }
  destruct Hhead as (x & -> & Hx). cbn [mbind option_bind]. rewrite decide_False by done. rewrite drop_app_length.
  rewrite str_span_app.
  2:{ eapply Forall_impl; [|exact Hl]. intros c [? ?]. by rewrite bool_decide_false. }
  2:{ right. by rewrite bool_decide_true. }
  assert (Happ : pre ++ l ++ d :: r = (pre ++ l) ++ d :: r) by by rewrite app_assoc.
  cbn [mbind option_bind]. rewrite Happ.
  assert (Hlen : (length pre + length l)%nat = length (pre ++ l)) by by rewrite length_app.
  rewrite Hlen, list_lookup_middle by done. cbn [mbind option_bind]. rewrite decide_False by done. do 3 f_equal.
  rewrite insert_app_r_alt, Nat.sub_diag by lia. cbn. by rewrite <- app_assoc.
Qed.

Lemma cstring_app pre s r :
  Forall (λ c, c ≠ 0) s → cstring (pre ++ s ++ 0 :: r) (length pre) = Some s.
Proof.
  intros Hs. unfold cstring, strlen. rewrite drop_app_length.
  rewrite str_span_app; [|eapply Forall_impl; [|exact Hs]; done|by left]. cbn.
  by rewrite take_app_length.
Qed.

(** A line of the input: a key, the delimiter and a value.  Neither may be empty, the
    key has no delimiter, and the line fits into the largest buffer. *)
Definition line_of (delimiter : Z) (kv : list Z * list Z) : list Z := kv.1 ++ delimiter :: kv.2.
Definition line_ok (delimiter : Z) (kv : list Z * list Z) : Prop :=
  kv.1 ≠ [] ∧ kv.2 ≠ [] ∧ Forall (λ c, plain_char c ∧ c ≠ delimiter) kv.1 ∧
  Forall plain_char kv.2 ∧ zlen (line_of delimiter kv) + 2 ≤ 2 ^ 28.
Definition text_of (delimiter : Z) (kvs : list (list Z * list Z)) : list Z :=
  concat ((λ kv, line_of delimiter kv ++ [newline]) <$> kvs).

Lemma text_length d kvs : (length kvs ≤ length (text_of d kvs))%nat.
Proof.
  induction kvs as [|kv kvs IH]; [cbn; lia|]. change (text_of d (kv :: kvs)) with
    ((line_of d kv ++ [newline]) ++ text_of d kvs). rewrite !length_app. cbn. lia.
Qed.

Lemma split_line d kv junk :
  d ≠ 0 → line_ok d kv →
  let line := kv.1 ++ 0 :: kv.2 ++ newline :: 0 :: junk in
  let last := kv.1 ++ 0 :: kv.2 ++ 0 :: 0 :: junk in
  strtok d (line_of d kv ++ newline :: 0 :: junk) 0 = Some (Some 0%nat, (line, S (length kv.1))) ∧
  strtok newline line (S (length kv.1)) =
    Some (Some (S (length kv.1)), (last, S (S (length kv.1) + length kv.2))) ∧
  cstring last 0 = Some kv.1 ∧ cstring last (S (length kv.1)) = Some kv.2.
Proof.
  destruct kv as [k v]. intros Hd (Hk & Hv & Hkok & Hvok & _) line last. cbn [fst snd] in *.
  assert (Hpre : ∀ r : list Z, k ++ 0 :: r = (k ++ [0]) ++ r) by (intros r; by rewrite <- app_assoc).
  assert (Hlen : S (length k) = length (k ++ [0])) by (rewrite length_app; cbn; lia).
  assert (Hk0 : Forall (λ c, c ≠ 0) k) by (eapply Forall_impl; [|exact Hkok]; by intros c [[]]).
  assert (Hv0 : Forall (λ c, c ≠ 0) v) by (eapply Forall_impl; [|exact Hvok]; by intros c []).
  unfold line_of, line, last. cbn [fst snd]. split_and!.
  - rewrite <- app_assoc. apply (strtok_token d [] k); try done.
    eapply Forall_impl; [|exact Hkok]. by intros c [[? _] ?].
  - rewrite (Hpre (v ++ newline :: 0 :: junk)), (Hpre (v ++ 0 :: 0 :: junk)), Hlen.
    by apply strtok_token.
  - by apply (cstring_app [] k).
  - rewrite (Hpre (v ++ 0 :: 0 :: junk)), Hlen. by apply cstring_app.
Qed.

(** ** The loop of appendlog *)

(** The buffer before a line, and that what it holds is not taken for a line at the
    end of the input. *)
Definition buffer_ok (b : line_buffer) : Prop :=
  l_capacity b = 0 ∨ ∃ k, capacity_ok k ∧ l_capacity b = 2 ^ k.

Lemma read_line_start b p :
  buffer_ok b → ∃ k, capacity_ok k ∧ read_line b p = read_line_loop (S (S (length (c_stdin p)))) b (2 ^ k) 0 p.
Proof.
  unfold read_line. rewrite bind_getS. intros [->|(k & Hk & ->)].
  - exists 8. split; [unfold capacity_ok; lia|]. by rewrite decide_True.
  - exists k. split; [done|]. pose proof (pow_cap k Hk). unfold MINIMUM_CAPACITY, MAXIMUM_CAPACITY.
    change (Z.shiftl 1 8) with (2 ^ 8). change (Z.shiftl 1 28) with (2 ^ 28).
    by rewrite !decide_False by lia.
Qed.

Lemma line_plain d kv : d ≠ 0 → d ≠ newline → line_ok d kv → Forall plain_char (line_of d kv).
Proof.
  intros H0 Hn (_ & _ & Hk & Hv & _). apply Forall_app. split.
  - eapply Forall_impl; [|exact Hk]. by intros c [].
  - by apply Forall_cons.
Qed.

(** The entries of a text. *)
Definition puts_of_lines (kvs : list (list Z * list Z)) : list entry := (λ kv, Put kv.1 kv.2) <$> kvs.

Section AppendLoop.
Context {C : Codec} (d : Z) (Hd0 : d ≠ 0) (Hdn : d ≠ newline).

(** The end of the input: what is left has no newline, and is dropped. *)
Lemma append_loop_end fuel b w p :
  os_sched (c_os p) = [] → buffer_ok b → Forall plain_char (c_stdin p) →
  zlen (c_stdin p) + 2 ≤ 2 ^ 28 → (c_stdin p = [] → no_line 0 b) →
  append_loop (S fuel) d b w p = (Ok (0, w), set_c_stdin [] p).
Proof.
  intros Hs Hb Hpl Hlen Hnil. destruct (read_line_start b p Hb) as (k & Hk & Hread).
  pose proof (pow_cap k Hk). cbn [append_loop].
  destruct (read_line_end (S (length (c_stdin p))) k [] (c_stdin p) b p) as (n & b' & Hrun & line & c & Hl & Hc & Hne);
    try done; try (cbn; lia).
  cbn [length] in Hrun. rewrite <- Hread in Hrun. rewrite (bind_Ok _ _ _ _ _ Hrun). cbn [fst snd].
  rewrite Hl, bind_of_opt, Hc, bind_of_opt. by rewrite decide_False.
Qed.

(** One line of the input. *)
Lemma append_loop_line fuel b w p kv rest :
  os_sched (c_os p) = [] → buffer_ok b → line_ok d kv →
  c_stdin p = line_of d kv ++ newline :: rest →
  ∃ b', buffer_ok b' ∧ no_line 0 b' ∧ append_loop (S fuel) d b w p =
    (rw ← call_writer w (sparkey_logwriter_put kv.1 kv.2);
     match rw.1 with
     | inr _ => append_loop fuel d b' rw.2
     | inl returncode =>
         _ ← eprintf ("Cannot append line to log file, aborting early: " +:+ sparkey_errstring returncode);
         mret (1, rw.2)
     end) (set_c_stdin rest p).
Proof.
  intros Hs Hb Hok Hin. destruct (read_line_start b p Hb) as (k & Hk & Hread).
  pose proof (pow_cap k Hk). pose proof (line_plain d kv Hd0 Hdn Hok) as Hpl.
  pose proof Hok as (Hk0 & _ & Hkc & _ & Hlen).
  destruct (read_line_whole (S (S (length (c_stdin p)))) k [] (line_of d kv) rest b p)
    as (k' & junk & Hk' & Hrun); try done; try (cbn; lia).
  { rewrite Hin, length_app. cbn. lia. }
  cbn [length Nat.add app] in Hrun. rewrite <- Hread in Hrun.
  destruct (split_line d kv junk Hd0 Hok) as (Ht1 & Ht2 & Hc1 & Hc2).
  exists (LineBuffer (Some (kv.1 ++ 0 :: kv.2 ++ 0 :: 0 :: junk)) (2 ^ k')). split; [|split].
  - right. by exists k'.
  - destruct Hkc as [|x l [[_ Hx] _] _]; [done|]. by eexists _, x.
  - cbn [append_loop]. rewrite (bind_Ok _ _ _ _ _ Hrun). cbn [fst snd l_buffer l_capacity].
    rewrite bind_of_opt, list_lookup_middle by done. rewrite bind_of_opt, decide_True by done.
    rewrite Ht1, bind_of_opt. cbn [fst snd]. rewrite Ht2, bind_of_opt. cbn [fst snd mbind option_bind].
    by rewrite Hc1, bind_of_opt, Hc2, bind_of_opt.
Qed.

Lemma append_loop_lines kvs tail fuel b w p o' w' :
  Forall (line_ok d) kvs → Forall plain_char tail → zlen tail + 2 ≤ 2 ^ 28 →
  os_sched (c_os p) = [] → buffer_ok b → (kvs = [] → tail = [] → no_line 0 b) →
  add_entries (puts_of_lines kvs) (c_os p, w) = (Ok tt, (o', w')) →
  c_stdin p = text_of d kvs ++ tail → (length kvs < fuel)%nat →
  append_loop fuel d b w p = (Ok (0, w'), set_c_stdin [] (set_c_os o' p)).
Proof.
  intros Hkvs Htail Htlen. revert fuel b w p.
  induction Hkvs as [|kv kvs Hkv _ IH]; intros [|fuel] b w p Hs Hb Hno Hadd Hin Hfuel;
    cbn [length] in Hfuel; try lia.
  - injection Hadd as <- <-. change (text_of d [] ++ tail) with tail in Hin.
    rewrite append_loop_end; try done; rewrite Hin; auto.
  - assert (Hin2 : c_stdin p = line_of d kv ++ newline :: text_of d kvs ++ tail).
    { rewrite Hin. unfold text_of. cbn. by rewrite <- !app_assoc. }
    destruct (append_loop_line fuel b w p kv _ Hs Hb Hkv Hin2) as (b' & Hb' & Hno' & ->).
    change (puts_of_lines (kv :: kvs)) with (Put kv.1 kv.2 :: puts_of_lines kvs) in Hadd.
    pose proof (calm_add_entry (Put kv.1 kv.2) (c_os p, w) Hs) as Hs1.
    cbn [add_entries] in Hadd. unfold mbind, M_bind in Hadd.
    destruct (add_entry (Put kv.1 kv.2) (c_os p, w)) as [[[]|e| |] [o1 w1]] eqn:Eput; try done.
    erewrite bind_Ok.
    2:{ unfold call_writer. cbn [c_os set_c_stdin]. cbn [add_entry] in Eput. rewrite Eput. reflexivity. }
    cbn [fst snd]. rewrite (IH fuel b' w1 (set_c_os o1 (set_c_stdin (text_of d kvs ++ tail) p))); try done. lia.
Qed.

End AppendLoop.
