(* ===== verification/CliProps.v ===== *)
(** * The properties of the command line tool

    What the commands print, leave in the files and return as the exit status, in
    terms of the entries of the log; the promises of the usage texts that the code
    keeps, and those it does not. *)

From stdpp Require Import base gmap list strings numbers pretty.
From Stdlib Require Import ZArith Lia Ascii.
From S2P Require Import Prelude ReturnCodes Endian OS LogHeader HashAlg HashHeader Printing Buf Compress.
From S2P Require Import LogFormat LogWriter Cooperation LogReader LogCursor PlainLog BlockFormat StoredLog LogProps.
From S2P Require Import RobinHood HashTable TableBytes TableRefine HashWriter IndexFile IndexCopy.
From S2P Require Import HashReader Store StoreProps Cli CliLines.

Local Open Scope Z_scope.

(** ** Calls *)

Lemma call_Ok {A} (m : MC os A) a o p :
  m (c_os p) = (Ok a, o) → call m p = (Ok (inr a), set_c_os o p).
Proof. intros H. unfold call. by rewrite H. Qed.

Lemma call_iter_Ok {A} i (m : MI A) a i' p : m i = (Ok a, i') → call_iter i m p = (Ok (inr a, i'), p).
Proof. intros H. unfold call_iter. by rewrite H. Qed.

Lemma string_bytes_ok s : bytes_ok (string_bytes s).
Proof.
  unfold string_bytes, bytes_ok. apply Forall_fmap, Forall_true. intros c.
  unfold byte_ok. cbn. pose proof (nat_ascii_bounded c). lia.
Qed.

(** Closing a reader takes its descriptors away again. *)
Lemma hash_close_run o reader :
  is_Some (os_fds o !! r_fd (hr_log reader)) → r_open_status (hr_log reader) = MAGIC_VALUE_LOGREADER →
  hr_open_status reader = MAGIC_VALUE_HASHREADER →
  sparkey_hash_close (o, Some reader) =
    (Ok tt, (set_fds (delete (hr_fd reader) (delete (r_fd (hr_log reader)) (os_fds o))) o, None)).
Proof.
  intros Hfd Hlog Hst. unfold sparkey_hash_close.
  rewrite (close_nodealloc_run _ _ Hlog Hfd), decide_True by done. cbn [fst snd].
  unfold sys_close. cbn [os_fds set_fds].
  destruct (delete _ (os_fds o) !! hr_fd reader) eqn:E; [done|]. by rewrite (delete_id _ _ E).
Qed.

(** The steps of the two sessions with a writer. *)
Lemma append_log_steps {C : Codec} filename es o o' :
  append_log filename es o = (Ok tt, o') →
  ∃ w o1 o2 w2 p, sparkey_logwriter_append filename o = (Ok w, o1) ∧
    add_entries es (o1, w) = (Ok tt, (o2, w2)) ∧ sparkey_logwriter_close (o2, Some w2) = (Ok tt, (o', p)).
Proof.
  unfold append_log. destruct (sparkey_logwriter_append filename o) as [[w|e| |] o1]; try done.
  destruct (add_entries es (o1, w)) as [r [o2 w2]] eqn:Ha. destruct r as [[]|e| |]; try done.
  destruct (sparkey_logwriter_close (o2, Some w2)) as [r [o3 p]] eqn:Hc. intros [= -> ->].
  by exists w, o1, o2, w2, p.
Qed.

Lemma write_log_steps {C : Codec} filename ct bs es o o' :
  write_log filename ct bs es o = (Ok tt, o') →
  ∃ w o1 o2 w2 p, sparkey_logwriter_create filename ct bs o = (Ok w, o1) ∧
    add_entries es (o1, w) = (Ok tt, (o2, w2)) ∧ sparkey_logwriter_close (o2, Some w2) = (Ok tt, (o', p)).
Proof.
  unfold write_log. destruct (sparkey_logwriter_create filename ct bs o) as [[w|e| |] o1]; try done.
  destruct (add_entries es (o1, w)) as [r [o2 w2]] eqn:Ha. destruct r as [[]|e| |]; try done.
  destruct (sparkey_logwriter_close (o2, Some w2)) as [r [o3 p]] eqn:Hc. intros [= -> ->].
  by exists w, o1, o2, w2, p.
Qed.

Lemma close_writer_run {C : Codec} w o' p q :
  sparkey_logwriter_close (c_os p, Some w) = (Ok tt, (o', q)) →
  close_writer w p = (Ok tt, set_c_os o' p).
Proof. intros H. unfold close_writer, mbind, M_bind, call. by rewrite H. Qed.

(** ** appendlog *)

(** What the loop does is what a client does that has the lines as entries. *)
Lemma appendlog_run {C : Codec} d log_name kvs tail o' p :
  os_sched (c_os p) = [] → append_log log_name (puts_of_lines kvs) (c_os p) = (Ok tt, o') →
  d ≠ 0 → d ≠ newline → Forall (line_ok d) kvs → Forall plain_char tail → zlen tail + 2 ≤ 2 ^ 28 →
  kvs ≠ [] ∨ tail ≠ [] → c_stdin p = text_of d kvs ++ tail →
  appendlog d log_name p = (Ok 0, set_c_stdin [] (set_c_os o' p)).
Proof.
  intros Hs Happ Hd0 Hdn Hkvs Htail Htlen Hne Hin.
  destruct (append_log_steps _ _ _ _ Happ) as (w & o1 & o2 & w2 & q & Hopen & Hadd & Hclose).
  pose proof (calm_append_writer log_name (c_os p) Hs) as Hs1. rewrite Hopen in Hs1.
  unfold appendlog. rewrite (bind_Ok _ _ _ _ _ (call_Ok _ _ _ _ Hopen)). cbn [assert].
  rewrite bind_ret. unfold append. rewrite bind_assoc, bind_getS. cbn [c_stdin set_c_os].
  erewrite bind_Ok; [|eapply (append_loop_lines d Hd0 Hdn kvs tail _ (LineBuffer None 0) w (set_c_os o1 p) o2 w2);
    try done].
  - cbn [fst snd]. by erewrite bind_Ok; [|by apply (close_writer_run w2 o' _ q)].
  - by left.
  - intros -> ->. by destruct Hne.
  - rewrite Hin, length_app. pose proof (text_length d kvs). lia.
Qed.

(** ** get *)

Section PrintValue.
Context {C : Codec} {log : sparkey_logreader} {es : list entry} {L : LogCursor log es}.

(** Writing one chunk. *)
Lemma print_chunk fuel i chunk i' ino off p :
  sparkey_logiter_valuechunk log max_chunk i = (Ok chunk, i') →
  fd_open (c_os p) STDOUT_FILENO ino off → os_sched (c_os p) = [] →
  print_value (S fuel) log i p =
    (if decide (zlen chunk > 0) then print_value fuel log i' else mret i')
      (set_c_os (put_bytes STDOUT_FILENO ino off chunk (c_os p)) p).
Proof.
  intros Hc Hopen Hs. cbn [print_value]. rewrite (bind_Ok _ _ _ _ _ (call_iter_Ok _ _ _ _ _ Hc)).
  cbn [fst snd assert]. rewrite bind_ret.
  rewrite (bind_Ok _ _ _ _ _ (call_Ok _ _ _ _
    (writes_ok _ _ _ _ _ _ (λ o ino off, write_full_wrote _ ino off chunk o) Hopen Hs))).
  cbn [assert]. by rewrite bind_ret.
Qed.

Lemma print_value_rest fuel n e i voff ino off p :
  cur_value n voff i → es !! n = Some e → fd_open (c_os p) STDOUT_FILENO ino off →
  os_sched (c_os p) = [] → (length (entry_value e) - voff < fuel)%nat →
  ∃ i', print_value fuel log i p = (Ok i',
    set_c_os (put_bytes STDOUT_FILENO ino off (drop voff (entry_value e)) (c_os p)) p).
Proof.
  intros Hk He. revert i voff off p Hk. induction fuel as [|fuel IH]; intros i voff off p Hk Hopen Hs Hf;
    [lia|].
  destruct (cur_valuechunk n voff e i max_chunk Hk He ltac:(done)) as (m & i1 & Hc & Hm & _ & Hz & Hk1).
  rewrite (print_chunk fuel i _ i1 ino off p Hc Hopen Hs).
  assert (Hlen : length (take m (drop voff (entry_value e))) = m) by (rewrite length_take, length_drop; lia).
  rewrite Hlen. destruct (decide (m = 0%nat)) as [->|Hm0].
  - rewrite (Hz eq_refl). rewrite drop_ge, decide_False by lia. by eexists.
  - rewrite decide_True by lia.
    destruct (IH i1 (voff + m)%nat (off + zlen (take m (drop voff (entry_value e))))
      (set_c_os (put_bytes STDOUT_FILENO ino off (take m (drop voff (entry_value e))) (c_os p)) p))
      as (i' & Hrun); [done|by apply put_bytes_open|done|lia|].
    exists i'. rewrite Hrun. cbn [c_os set_c_os]. rewrite put_bytes_app by apply Hopen.
    rewrite <- drop_drop. by rewrite take_drop.
Qed.

(** From anywhere in the key. *)
Lemma print_value_key fuel n e i koff ino off p :
  cur_key n koff i → es !! n = Some e → fd_open (c_os p) STDOUT_FILENO ino off →
  os_sched (c_os p) = [] → (length (entry_value e) < fuel)%nat →
  ∃ i', print_value (S fuel) log i p = (Ok i',
    set_c_os (put_bytes STDOUT_FILENO ino off (entry_value e) (c_os p)) p).
Proof.
  intros Hk He Hopen Hs Hf.
  destruct (cur_key_valuechunk n koff e i max_chunk Hk He ltac:(done)) as (m & i1 & Hc & Hm & _ & Hz & Hk1).
  rewrite (print_chunk fuel i _ i1 ino off p Hc Hopen Hs).
  assert (Hlen : length (take m (entry_value e)) = m) by (rewrite length_take; lia).
  rewrite Hlen. destruct (decide (m = 0%nat)) as [->|Hm0].
  - rewrite (Hz eq_refl), decide_False by lia. by eexists.
  - rewrite decide_True by lia.
    destruct (print_value_rest fuel n e i1 m ino (off + zlen (take m (entry_value e)))
      (set_c_os (put_bytes STDOUT_FILENO ino off (take m (entry_value e)) (c_os p)) p))
      as (i' & Hrun); [done|done|by apply put_bytes_open|done|lia|].
    exists i'. rewrite Hrun. cbn [c_os set_c_os]. rewrite put_bytes_app by apply Hopen.
    by rewrite take_drop.
Qed.

End PrintValue.

(** What is left open and written after [get]. *)
Definition got (p p' : process) (ino : nat) (off : Z) (value : list Z) : Prop :=
  c_stdin p' = c_stdin p ∧ c_stdout p' = c_stdout p ∧ c_stderr p' = c_stderr p ∧
  os_names (c_os p') = os_names (c_os p) ∧
  os_inodes (c_os p') = <[ino := splice (default [] (os_inodes (c_os p) !! ino)) off value]> (os_inodes (c_os p)) ∧
  os_fds (c_os p') = <[STDOUT_FILENO := (ino, off + zlen value)]> (os_fds (c_os p)).

Lemma get_run {C : Codec} name log_name key S rest h tbl ino off p :
  let o := c_os p in
  let es := st_entries S in
  has_file o name (hashheader_bytes h ++ tbl) → has_file o log_name (st_file S ++ rest) →
  os_wf o → stored_index S h tbl → fd_open o STDOUT_FILENO ino off → zlen (string_bytes key) < 2 ^ 31 →
  ∃ p', get name log_name key p =
      (Ok (match replay es !! string_bytes key with Some _ => 0 | None => 2 end), p') ∧
    got p p' ino off (default [] (replay es !! string_bytes key)).
Proof.
  intros o es Hf Hlf Hwf Hidx Hopen Hlen. subst es.
  destruct (stored_hash_open name log_name S rest h tbl o Hf Hlf Hwf Hidx)
    as (reader & o1 & Hlog & Hrun & (Hn1 & Hi1 & _ & Hs1 & _) & Hfds & Hhd & Hon).
  set (L := st_cursor S (hr_log reader) Hlog) in *.
  destruct (cur_create (LogCursor := L) o1 Hs1) as (i & Hc & _ & Hr).
  destruct (hash_get_replay (L := L) reader tbl _ i Hon Hr (string_bytes_ok key) Hlen) as (i1 & Hget & _ & Hfound).
  unfold get. rewrite (bind_Ok _ _ _ _ _ (call_Ok _ _ _ _ Hrun)). cbn [assert]. rewrite bind_ret.
  unfold sparkey_hash_getreader.
  rewrite (bind_Ok _ _ _ _ _ (call_Ok _ _ _ (set_c_os o1 p) Hc)). cbn [assert]. rewrite bind_ret.
  rewrite (bind_Ok _ _ _ _ _ (call_iter_Ok _ _ _ _ _ Hget)). cbn [fst snd assert]. rewrite bind_ret.
  pose proof Hon as (Hst & _). set (k := string_bytes key) in *.
  destruct Hfds as (Hlfd & Hdel & Hne). destruct (Hne STDOUT_FILENO) as [Hne1 Hne2]; [exists (ino, off); apply Hopen|].
  assert (Hopen1 : fd_open o1 STDOUT_FILENO ino off).
  { destruct Hopen as (Hfd & Hi & Hoff). split_and!; [|by rewrite Hi1|done].
    rewrite <- Hfd, <- Hdel. symmetry. rewrite lookup_delete_ne, lookup_delete_ne by (apply not_eq_sym; done).
    done. }
  assert (Hclose : ∀ v i2 x, (x : M Z process Z) = (_ ← call (λ o, let '(r, (o, _)) := sparkey_hash_close (o, Some reader) in (r, o)); mret i2) →
    ∃ p', x (set_c_os (put_bytes STDOUT_FILENO ino off v o1) p) = (Ok i2, p') ∧ got p p' ino off v).
  { intros v i2 x ->. eexists. erewrite bind_Ok.
    2:{ apply call_Ok. cbn [c_os set_c_os]. rewrite hash_close_run by
        (apply Hlog || done || (destruct Hlfd as [y Hy]; exists y; cbn; by rewrite lookup_insert_ne)).
        reflexivity. }
    split; [reflexivity|]. unfold got. cbn [c_os set_c_os c_stdin c_stdout c_stderr os_names os_inodes
      os_fds set_fds put_bytes set_inodes]. split_and!; try done; [by rewrite Hi1|].
    rewrite !delete_insert_ne by done. by rewrite Hdel. }
  destruct (replay (st_entries S) !! k) as [v|].
  - destruct Hfound as (n & koff & He & Hk).
    destruct (cur_key_entry (LogCursor := L) _ _ _ Hk) as (x & Hx & (Hact & _) & _ & _ & _ & Hvr).
    assert (x = Put k v) as -> by congruence. unfold sparkey_logiter_state. rewrite Hact, decide_True, Hvr by done.
    destruct (print_value_key (L := L) (1 + length v) n (Put k v) i1 koff ino off (set_c_os o1 p)) as (i2 & Hp);
      try done; [cbn; lia|].
    rewrite Nat2Z.id, bind_assoc. cbn [entry_value] in Hp |- *. rewrite (bind_Ok _ _ _ _ _ Hp), bind_ret.
    by apply Hclose.
  - unfold sparkey_logiter_state. rewrite Hfound, decide_False, bind_ret by done. cbn.
    destruct (Hclose [] 2 _ eq_refl) as (p' & Hp' & Hgot). rewrite put_bytes_nil in Hp' by done.
    by exists p'.
Qed.

(** ** info *)

(** What is shown of a log and of an index: facts of the entries. *)
Definition shown_log {C : Codec} (name compression : string) (S : stored) : list string :=
  let es := st_entries S in
  [ "Filename: " +:+ name; "Log file version 1.0"; "Identifier: " +:+ percent_08x (st_id S);
    "Puts: " +:+ pretty (zlen (puts_of es)) +:+ ", Deletes: " +:+ pretty (zlen (deletes_of es));
    "Max key size: " +:+ pretty (max_len entry_key (puts_of es)) +:+ ", Max value size: " +:+
      pretty (max_len entry_value (puts_of es));
    "Compression: " +:+ compression +:+ ", block size: " +:+
      percent_d (lh_compression_block_size (st_header S)); "" ]%string.

Definition shown_index {C : Codec} (name : string) (S : stored) (h : sparkey_hashheader) : list string :=
  let es := st_entries S in
  [ "Filename: " +:+ name; "Hash file version 1.1"; "Identifier: " +:+ percent_08x (st_id S);
    "Max key size: " +:+ pretty (max_len entry_key (puts_of es)) +:+ ", Max value size: " +:+
      pretty (max_len entry_value (puts_of es));
    "Hash size: " +:+ (if decide (hh_hash_size h = 4) then "32" else "64") +:+ " bit Murmurhash3";
    "Num entries: " +:+ pretty (Z.of_nat (size (replay es))) +:+ ", Capacity: " +:+
      pretty (hh_hash_capacity h);
    "Num collisions: " +:+ pretty (hh_hash_collisions h) +:+ ", Max displacement: " +:+
      pretty (hh_max_displacement h) +:+ ", Average displacement: " +:+
      percent_2f (average (hh_total_displacement h) (Z.of_nat (size (replay es))));
    "Data size: " +:+ pretty (lh_data_end (st_header S)) +:+ ", Garbage size: " +:+
      pretty (u64 (zlen (log_body es) - live_size (replay es))); "" ]%string.

(** The loader of logs gives up at the magic number of an index. *)
Lemma load_logheader_of_index name h tbl o :
  has_file o name (hashheader_bytes h ++ tbl) →
  sparkey_load_logheader name o = (Err SPARKEY_WRONG_LOG_MAGIC_NUMBER, opened o).
Proof.
  intros Hf. destruct (sys_open_run _ _ _ Hf) as (ino & _ & Hr & Hfd & Hopen).
  unfold sparkey_load_logheader. rewrite (bind_Ok _ _ _ _ _ Hopen). cbn beta iota.
  erewrite bind_Ok; [|eapply (read_word_run _ _ ino _ Hr [] HASH_MAGIC_NUMBER);
    [done|unfold hashheader_bytes; by rewrite <- app_assoc]].
  rewrite decide_True by done. by eapply closing_run.
Qed.

Lemma info_log_run {C : Codec} name c S rest p :
  has_file (c_os p) name (st_file S ++ rest) → compression_types (lh_compression_type (st_header S)) = Some c →
  info_file name p = (Ok 0, Process (opened (c_os p)) (c_stdin p) (c_stdout p ++ shown_log name c S) (c_stderr p)).
Proof.
  intros Hf Hc. unfold info_file. rewrite (bind_Ok _ _ _ _ _ (call_Ok _ _ _ _ (load_stored S _ _ _ Hf))).
  unfold print_logheader. rewrite Hc. cbn [mbind option_bind]. rewrite bind_of_opt.
  rewrite st_puts, st_deletes, st_key_len, st_value_len. destruct (st_valid S) as (-> & -> & _). done.
Qed.

Lemma info_index_run {C : Codec} name S h tbl p :
  has_file (c_os p) name (hashheader_bytes h ++ tbl) → os_wf (c_os p) → stored_index S h tbl →
  info_file name p =
    (Ok 0, Process (opened (opened (c_os p))) (c_stdin p) (c_stdout p ++ shown_index name S h) (c_stderr p)).
Proof.
  intros Hf Hwf Hidx. unfold info_file.
  assert (Hcall : call (sparkey_load_logheader name) p =
    (Ok (inl SPARKEY_WRONG_LOG_MAGIC_NUMBER), set_c_os (opened (c_os p)) p)).
  { unfold call. by rewrite (load_logheader_of_index name h tbl _ Hf). }
  rewrite (bind_Ok _ _ _ _ _ Hcall), decide_False by tauto.
  destruct (Hidx _ (some_reader_opened S)) as ((Hh & _) & Ht & Hv & Hmaj & Hmin & Hid & Hde & Hmk & Hmv & _ & Hn & Hg).
  erewrite bind_Ok.
  2:{ apply call_Ok. cbn [c_os set_c_os]. apply (load_index _ name h tbl); try done. by apply opened_file. }
  unfold print_hashheader. rewrite Hmaj, Hmin, Hid, Hde, Hmk, Hmv, Hn, Hg, st_key_len, st_value_len.
  unfold shown_index. assert (Hsz : percent_d (u32 (8 * hh_hash_size h)) =
    (if decide (hh_hash_size h = 4) then "32" else "64")%string) by (by destruct Hv as [[-> | ->] _]).
  rewrite Hsz. done.
Qed.

(** ** rewrite *)

(** What the loop makes of an entry: a put, also of a deletion. *)
Definition as_put (e : entry) : entry := Put (entry_key e) (entry_value e).

Lemma fill_buffer_exact size buf bs :
  zlen bs ≤ size → fill_buffer size buf bs (zlen bs) = Some (bs ++ drop (length bs) buf, bs).
Proof.
  intros Hs. unfold fill_buffer. rewrite decide_False by lia. unfold mem_read.
  rewrite decide_True by (rewrite length_app; lia). cbn. by rewrite Nat2Z.id, drop_0, take_app_length.
Qed.

Lemma malloc_buffer_run size p : os_sched (c_os p) = [] → malloc_buffer size p = (Ok size, p).
Proof. intros Hs. unfold malloc_buffer. by rewrite (bind_Ok _ _ _ _ _ (malloc_call p Hs)). Qed.

Section RewriteLoop.
Context {C : Codec} {log : sparkey_logreader} {es : list entry} {L : LogCursor log es}.

(** One round: the entry is put into the new log. *)
Lemma rewrite_round fuel n e i w ks vs kb vb p o' w' :
  zlen (entry_key e) ≤ ks → zlen (entry_value e) ≤ vs → es !! n = Some e → cur_before n i →
  add_entry (as_put e) (c_os p, w) = (Ok tt, (o', w')) →
  ∃ i' kb' vb', cur_before (S n) i' ∧
    rewrite_loop (S fuel) log ks vs i w kb vb p = rewrite_loop fuel log ks vs i' w' kb' vb' (set_c_os o' p).
Proof.
  intros Hks Hvs He Hb Hput. cbn [as_put add_entry] in Hput. cbn [rewrite_loop]. unfold sparkey_logiter_state.
  destruct (cur_next n e i Hb He) as (i1 & Hnext & Hk & _).
  rewrite (bind_Ok _ _ _ _ _ (call_iter_Ok _ _ _ _ _ Hnext)). cbn [fst snd assert]. rewrite bind_ret.
  destruct (cur_key_entry _ _ _ Hk) as (x & Hx & (Hst & _ & Hkl & Hvl) & _).
  assert (x = e) as -> by congruence. rewrite Hst, decide_False by tauto.
  destruct (fill_key_spec n e i1 (i_keylen i1) Hk He ltac:(by rewrite Hkl)) as (i2 & Hfk & Hk2).
  unfold sparkey_logiter_keylen. rewrite (bind_Ok _ _ _ _ _ (call_iter_Ok _ _ _ _ _ Hfk)).
  cbn [fst snd assert]. rewrite bind_ret, Hkl, fill_buffer_exact, bind_of_opt by done.
  destruct (cur_key_entry _ _ _ Hk2) as (x & Hx2 & (_ & _ & _ & Hvl2) & _).
  assert (x = e) as -> by congruence.
  destruct (fill_value_spec n _ e i2 (i_valuelen i2) Hk2 He ltac:(by rewrite Hvl2)) as (i3 & Hfv & Hb3 & _).
  unfold sparkey_logiter_valuelen. rewrite (bind_Ok _ _ _ _ _ (call_iter_Ok _ _ _ _ _ Hfv)).
  cbn [fst snd assert]. rewrite bind_ret, Hvl2, fill_buffer_exact, bind_of_opt by done. cbn [fst snd].
  erewrite bind_Ok; [|unfold call_writer; rewrite Hput; reflexivity].
  cbn [fst snd assert]. rewrite bind_ret. eexists i3, _, _. by split.
Qed.

(** The rounds over entries that fit the buffers. *)
Lemma rewrite_rounds l fuel n i w ks vs kb vb p o' w' :
  Forall (λ e, zlen (entry_key e) ≤ ks ∧ zlen (entry_value e) ≤ vs) l →
  l `prefix_of` drop n es → cur_before n i → add_entries (as_put <$> l) (c_os p, w) = (Ok tt, (o', w')) →
  ∃ i' kb' vb', cur_before (n + length l)%nat i' ∧
    rewrite_loop (length l + fuel) log ks vs i w kb vb p = rewrite_loop fuel log ks vs i' w' kb' vb' (set_c_os o' p).
Proof.
  intros Hall. revert n i w kb vb p. induction Hall as [|e l [Hks Hvs] _ IH]; intros n i w kb vb p [r Hl] Hb Hadd.
  { injection Hadd as <- <-. exists i, kb, vb. rewrite Nat.add_0_r. split; [done|]. by destruct p. }
  assert (He : es !! n = Some e) by (rewrite <- (Nat.add_0_r n), <- lookup_drop; by rewrite Hl).
  rewrite fmap_cons in Hadd. cbn [add_entries] in Hadd.
  destruct (add_entry (as_put e) (c_os p, w)) as [r1 [o1 w1]] eqn:Hput.
  destruct r1 as [[]|rc| |]; try by unfold mbind, M_bind in Hadd; rewrite Hput in Hadd.
  rewrite (bind_Ok _ _ _ _ _ Hput) in Hadd.
  destruct (rewrite_round (length l + fuel) n e i w ks vs kb vb p o1 w1 Hks Hvs He Hb Hput)
    as (i1 & kb1 & vb1 & Hb1 & Hround). cbn [length Nat.add]. rewrite Hround.
  destruct (IH (S n) i1 w1 kb1 vb1 (set_c_os o1 p)) as (i2 & kb2 & vb2 & Hb2 & Hrounds); [|done|exact Hadd|].
  { exists r. rewrite (drop_S _ _ _ He) in Hl. by injection Hl. }
  exists i2, kb2, vb2. rewrite Hrounds. split; [|done]. by replace (n + S (length l))%nat with (S n + length l)%nat by lia.
Qed.

Lemma rewrite_loop_spec fuel i w ks vs p o' w' :
  Forall (λ e, zlen (entry_key e) ≤ ks ∧ zlen (entry_value e) ≤ vs) es →
  cur_before 0 i → (length es < fuel)%nat → add_entries (as_put <$> es) (c_os p, w) = (Ok tt, (o', w')) →
  rewrite_loop fuel log ks vs i w [] [] p = (Ok w', set_c_os o' p).
Proof.
  intros Hall Hb Hf Hadd. replace fuel with (length es + S (fuel - length es - 1))%nat by lia.
  destruct (rewrite_rounds es (S (fuel - length es - 1)) 0 i w ks vs [] [] p o' w' Hall) as (i1 & kb & vb & Hb1 & ->);
    [by rewrite drop_0|done|done|].
  cbn [rewrite_loop]. unfold sparkey_logiter_state. destruct (cur_next_end i1 Hb1) as (i2 & Hnext & Hst & _).
  rewrite (bind_Ok _ _ _ _ _ (call_iter_Ok _ _ _ _ _ Hnext)). cbn [fst snd assert]. rewrite bind_ret.
  by rewrite Hst, decide_True.
Qed.

(** The round of a key that does not fit. *)
Lemma rewrite_loop_overflows fuel n e i w ks vs kb vb p :
  es !! n = Some e → ks < zlen (entry_key e) → cur_before n i →
  (rewrite_loop (S fuel) log ks vs i w kb vb p).1 = UB.
Proof.
  intros He Hks Hb. cbn [rewrite_loop]. unfold sparkey_logiter_state.
  destruct (cur_next n e i Hb He) as (i1 & Hnext & Hk & _).
  rewrite (bind_Ok _ _ _ _ _ (call_iter_Ok _ _ _ _ _ Hnext)). cbn [fst snd assert]. rewrite bind_ret.
  destruct (cur_key_entry _ _ _ Hk) as (x & Hx & (Hst & _ & Hkl & Hvl) & _).
  assert (x = e) as -> by congruence. rewrite Hst, decide_False by tauto.
  destruct (fill_key_spec n e i1 (i_keylen i1) Hk He ltac:(by rewrite Hkl)) as (i2 & Hfk & Hk2).
  unfold sparkey_logiter_keylen. rewrite (bind_Ok _ _ _ _ _ (call_iter_Ok _ _ _ _ _ Hfk)).
  cbn [fst snd assert]. rewrite bind_ret. unfold fill_buffer. by rewrite decide_True by lia.
Qed.

End RewriteLoop.

(** A log that [rewrite] can copy: its buffers are as large as the longest key and
    value that was put, and the keys of deletions go through them too. *)
Definition rewritable (es : list entry) : Prop :=
  Forall (λ e, zlen (entry_key e) ≤ max_len entry_key (puts_of es)) es.

Lemma value_sizes es : Forall (λ e, zlen (entry_value e) ≤ max_len entry_value (puts_of es)) es.
Proof.
  apply list.Forall_forall. intros e He. destruct (is_put e) eqn:Ep; [|by destruct e; [|apply max_len_nonneg]].
  apply max_len_elem. unfold puts_of. by apply list_elem_of_filter.
Qed.

Lemma rewritable_sizes es :
  rewritable es → Forall (λ e, zlen (entry_key e) ≤ max_len entry_key (puts_of es) ∧
                               zlen (entry_value e) ≤ max_len entry_value (puts_of es)) es.
Proof. intros Hr. apply Forall_and. split; [exact Hr|apply value_sizes]. Qed.

(** The loop and what is around it do what a writer does that is given the puts. *)
Lemma copy_log_run {C : Codec} {log es} {L : LogCursor log es} fuel t bs out_log o' p :
  let o := c_os p in
  let header := r_header log in
  os_sched o = [] → write_log out_log t bs (as_put <$> es) o = (Ok tt, o') →
  Forall (λ e, zlen (entry_key e) ≤ lh_max_key_len header ∧ zlen (entry_value e) ≤ lh_max_value_len header) es →
  (length es < fuel)%nat →
  copy_log fuel log t bs out_log p = (Ok tt, set_c_os o' p).
Proof.
  intros o header Hs Hwrite Hsizes Hfuel.
  destruct (write_log_steps _ _ _ _ _ _ Hwrite) as (w & o2 & o3 & w3 & q & Hcreate & Hadd & Hclose).
  pose proof (calm_create_writer out_log t bs o Hs) as Hs2. rewrite Hcreate in Hs2. unfold copy_log.
  rewrite (bind_Ok _ _ _ _ _ (call_Ok _ _ _ p Hcreate)). cbn [assert]. rewrite bind_ret.
  destruct (cur_create o2 Hs2) as (i & Hc & Hb & _).
  rewrite (bind_Ok _ _ _ _ _ (call_Ok _ _ _ (set_c_os o2 p) Hc)). cbn [assert]. rewrite bind_ret.
  do 2 (erewrite bind_Ok; [|by apply malloc_buffer_run]).
  erewrite bind_Ok; [|by apply (rewrite_loop_spec fuel i w _ _ (set_c_os o2 p) o3 w3 Hsizes Hb Hfuel Hadd)].
  by apply (close_writer_run w3 o' (set_c_os o3 (set_c_os o2 p)) q).
Qed.

(** The entries before one whose key is too long are copied; then the buffer is too small. *)
Lemma copy_log_overflows {C : Codec} {log es} {L : LogCursor log es} fuel t bs out_log o' p es1 e es2 :
  let o := c_os p in
  let header := r_header log in
  os_sched o = [] → es = es1 ++ e :: es2 → write_log out_log t bs (as_put <$> es1) o = (Ok tt, o') →
  Forall (λ e, zlen (entry_key e) ≤ lh_max_key_len header ∧ zlen (entry_value e) ≤ lh_max_value_len header) es1 →
  lh_max_key_len header < zlen (entry_key e) → (length es < fuel)%nat →
  (copy_log fuel log t bs out_log p).1 = UB.
Proof.
  intros o header Hs Hes Hwrite Hsizes Hlong Hfuel. subst header. assert (Hlen := f_equal length Hes). rewrite length_app in Hlen. cbn in Hlen.
  destruct (write_log_steps _ _ _ _ _ _ Hwrite) as (w & o2 & o3 & w3 & q & Hcreate & Hadd & _).
  pose proof (calm_create_writer out_log t bs o Hs) as Hs2. rewrite Hcreate in Hs2. unfold copy_log.
  rewrite (bind_Ok _ _ _ _ _ (call_Ok _ _ _ p Hcreate)). cbn [assert]. rewrite bind_ret.
  destruct (cur_create o2 Hs2) as (i & Hc & Hb & _).
  rewrite (bind_Ok _ _ _ _ _ (call_Ok _ _ _ (set_c_os o2 p) Hc)). cbn [assert]. rewrite bind_ret.
  do 2 (erewrite bind_Ok; [|by apply malloc_buffer_run]).
  replace fuel with (length es1 + S (fuel - length es1 - 1))%nat by lia.
  destruct (rewrite_rounds es1 (S (fuel - length es1 - 1)) 0 i w _ _ [] [] (set_c_os o2 p) o3 w3 Hsizes)
    as (i1 & kb & vb & Hb1 & Hrounds); [rewrite drop_0, Hes; by eexists|done|exact Hadd|].
  apply bind_UB. unfold sparkey_logreader_maxkeylen, sparkey_logreader_maxvaluelen.
  change (set_c_os o2 (set_c_os o2 p)) with (set_c_os o2 p). rewrite Hrounds.
  apply (rewrite_loop_overflows _ (length es1) e); [|done|done]. by rewrite Hes, list_lookup_middle.
Qed.

(** The files and descriptors after [rewrite]. *)
Definition rewritten {C : Codec} (p p' : process) (output_index output_log : string)
    (S : stored) : Prop :=
  let o := c_os p in
  let o' := c_os p' in
  p' = set_c_os o' p ∧ os_wf o' ∧ os_sched o' = [] ∧ (∀ fd, os_fds o' !! fd = os_fds o !! fd) ∧
  (∀ n, n ≠ output_index → n ≠ output_log → os_names o' !! n = os_names o !! n) ∧
  (∀ i c, os_inodes o !! i = Some c → os_inodes o' !! i = Some c) ∧
  ∃ h tbl, has_file o' output_log (st_file S) ∧
    has_file o' output_index (hashheader_bytes h ++ tbl) ∧ stored_index S h tbl.

(** The compression of the copy: as asked for, or as in the old log. *)
Definition copy_options {C : Codec} (S : stored) (compression block_size : option Z) : Z * Z :=
  (default (lh_compression_type (st_header S)) compression,
   default (s32 (lh_compression_block_size (st_header S))) block_size).

Lemma rewrite_run {C : Codec} fuel compression block_size in_index in_log out_index out_log
    S S' rest h tbl p :
  let o := c_os p in
  let es := st_entries S in
  has_file o in_index (hashheader_bytes h ++ tbl) → has_file o in_log (st_file S ++ rest) →
  os_wf o → stored_index S h tbl → out_index ≠ out_log → os_names o !! out_index = None →
  (8 ≤ length (os_entropy o))%nat → bytes_ok (os_entropy o) → rewritable es →
  written (copy_options S compression block_size).1 (copy_options S compression block_size).2
    (seed_of o) (as_put <$> es) S' →
  store_ok S' → (length es < fuel)%nat →
  ∃ p', rewrite_log fuel compression block_size in_index in_log out_index out_log p = (Ok 0, p') ∧
    rewritten p p' out_index out_log S'.
Proof.
  intros o es Hf Hlf Hwf Hidx Hne Hname Hent Hentok Hrw Hw Hst' Hfuel.
  destruct (stored_hash_open in_index in_log S rest h tbl o Hf Hlf Hwf Hidx)
    as (reader & o1 & Hlog & Hrun & (Hn1 & Hi1 & He1 & Hs1 & Hwf1) & Hfds & Hhd & Hon).
  set (L := st_cursor S (hr_log reader) Hlog) in *.
  assert (Hhdr : r_header (hr_log reader) = st_header S) by apply Hlog.
  unfold rewrite_log. rewrite (bind_Ok _ _ _ _ _ (call_Ok _ _ _ _ Hrun)). cbn [assert]. rewrite bind_ret.
  unfold sparkey_hash_getreader, sparkey_logreader_get_compression_type,
    sparkey_logreader_get_compression_blocksize. rewrite Hhdr.
  change (default (lh_compression_type (st_header S)) compression) with (copy_options S compression block_size).1.
  change (default (s32 (lh_compression_block_size (st_header S))) block_size) with (copy_options S compression block_size).2.
  destruct (copy_options S compression block_size) as [t bs]. cbn [fst snd] in *.
  assert (Hseed : seed_of o1 = seed_of o) by (unfold seed_of; by rewrite He1). rewrite <- Hseed in Hw.
  destruct (write_stored out_log t bs _ o1 S' Hs1 Hwf1 ltac:(rewrite He1; lia) Hw)
    as (o4 & Hwrite & Hwf4 & Hs4 & He4 & (ino & Hn4 & Hc4) & Hi4 & Hnames4 & Hfds4).
  pose proof (rewritable_sizes es Hrw) as Hsizes.
  assert (Hcopy := copy_log_run (L := L) fuel t bs out_log o4 (set_c_os o1 p) Hs1 Hwrite).
  rewrite Hhdr, st_key_len, st_value_len in Hcopy. rewrite (bind_Ok _ _ _ _ _ (Hcopy Hsizes Hfuel)).
  destruct Hfds as (Hlfd & Hdel & _). rewrite <- Hfds4 in Hlfd.
  set (o5 := set_fds (delete (hr_fd reader) (delete (r_fd (hr_log reader)) (os_fds o4))) o4).
  erewrite bind_Ok.
  2:{ apply call_Ok. cbn [c_os set_c_os]. rewrite (hash_close_run o4 reader Hlfd (proj1 Hlog) (proj1 Hon)). reflexivity. }
  fold o5. assert (Hwf5 : os_wf o5).
  { exact (closed_wf (hr_fd reader) _ (closed_wf (r_fd (hr_log reader)) o4 Hwf4)). }
  assert (Hfds5 : ∀ fd, os_fds o5 !! fd = os_fds o !! fd).
  { intros fd. rewrite <- Hdel. cbn. rewrite !lookup_delete. by rewrite Hfds4. }
  pose proof (written_entries _ _ _ _ _ Hw) as [Hes' _].
  destruct (stored_hash_write fuel out_index out_log 0 S' [] o5)
    as (o6 & Hhw & Hwf6 & Hs6 & Hfds6 & _ & Hn6 & Hi6 & h6 & tbl6 & Hf6 & Hidx6).
  { rewrite app_nil_r. exists ino. split_and!; try done. by apply wf_fresh_fd. }
  { done. }
  { apply no_index.
    - cbn. by rewrite Hnames4, Hn1.
    - cbn. rewrite He4, He1, length_drop. lia.
    - cbn. rewrite He4, He1. by apply bytes_ok_drop. }
  { done. }
  { by left. }
  { by rewrite Hes', length_fmap. }
  unfold writehash. erewrite bind_Ok.
  2:{ erewrite bind_Ok; [|by apply call_Ok]. reflexivity. }
  eexists. split; [reflexivity|]. unfold rewritten. cbn [c_os set_c_os].
  split_and!; try done.
  - intros fd. by rewrite Hfds6.
  - intros n Hni Hnl. rewrite Hn6 by done. cbn. by rewrite Hnames4, Hn1.
  - intros j c Hj. apply Hi6. cbn. apply Hi4. by rewrite Hi1.
  - exists h6, tbl6. split_and!; try done.
    exists ino. split_and!; [|by apply Hi6|done|by apply wf_fresh_fd].
    by rewrite Hn6.
Qed.

(** What replaying the copy gives: the keys that were deleted are back, with the
    empty value. *)
Lemma replay_as_put es k :
  replay (as_put <$> es) !! k =
    match replay es !! k with
    | Some v => Some v
    | None => if decide (k ∈ entry_key <$> es) then Some [] else None
    end.
Proof.
  induction es as [|e es IH] using rev_ind; [done|].
  rewrite fmap_app. unfold replay in *. rewrite !fold_left_app. cbn [fold_left fmap list_fmap].
  rewrite fmap_app. cbn [fmap list_fmap]. destruct (decide (k = entry_key e)) as [->|Hne].
  - rewrite (decide_True (P := _ ∈ _)) by (apply elem_of_app; right; by left).
    destruct e as [k' v'|k']; cbn [as_put apply_entry entry_key entry_value].
    + by rewrite !lookup_insert_eq.
    + by rewrite lookup_insert_eq, lookup_delete_eq.
  - assert (Hin : k ∈ (entry_key <$> es) ++ [entry_key e] ↔ k ∈ entry_key <$> es).
    { rewrite elem_of_app, list_elem_of_singleton. tauto. }
    destruct e as [k' v'|k']; cbn [as_put apply_entry entry_key entry_value] in *;
      rewrite lookup_insert_ne, IH, ?lookup_insert_ne, ?lookup_delete_ne by done;
      destruct (_ !! k); try done; destruct (decide (k ∈ entry_key <$> es)), (decide (k ∈ _ ++ _)); tauto.
Qed.

(** ** The commands in sequence *)

Lemma createlog_run {C : Codec} t bs log_name o' p :
  write_log log_name t bs [] (c_os p) = (Ok tt, o') → createlog t bs log_name p = (Ok 0, set_c_os o' p).
Proof.
  intros Hw. destruct (write_log_steps _ _ _ _ _ _ Hw) as (w & o1 & o2 & w2 & q & Hc & Ha & Hcl).
  injection Ha as <- <-. unfold createlog. rewrite (bind_Ok _ _ _ _ _ (call_Ok _ _ _ p Hc)).
  cbn [assert]. rewrite bind_ret.
  by rewrite (bind_Ok _ _ _ _ _ (close_writer_run w o' (set_c_os o1 p) q Hcl)).
Qed.

Lemma writehash_run {C : Codec} fuel name log_name o' p :
  sparkey_hash_write fuel name log_name 0 (c_os p) = (Ok tt, o') →
  writehash fuel name log_name p = (Ok 0, set_c_os o' p).
Proof. intros H. unfold writehash. by rewrite (bind_Ok _ _ _ _ _ (call_Ok _ _ _ p H)). Qed.

(** Making a log, filling it from standard input, indexing it and asking for a key:
    four runs of the program over one file system. *)
Definition prepare {C : Codec} {G : Getopt} (fuel : nat) (options : list string) (log_name : string) : MX Z :=
  _ ← main fuel ("createlog"%string :: options);
  _ ← main fuel ["appendlog"; log_name];
  main fuel ["writehash"; log_name].

Definition session {C : Codec} {G : Getopt} (fuel : nat) (options : list string)
    (log_name name key : string) : MX Z :=
  _ ← prepare fuel options log_name;
  main fuel ["get"; name; key].

(** What [getopt] makes of the arguments of createlog, which end in the name of the
    log, and of the name alone. *)
Definition createlog_options {G : Getopt} (options : list string) (log_name : string) (t bs : Z) : Prop :=
  (∃ events, getopt "b:c:" options = (events, [log_name]) ∧
     ∀ p, block_options events (Some COMP_DEFAULT_BLOCKSIZE) (Some SPARKEY_COMPRESSION_NONE) p =
       (Ok (Some bs, Some t), p)) ∧
  getopt "d:" [log_name] = ([], [log_name]).

Lemma prepare_run {C : Codec} {G : Getopt} fuel options log_name name t bs kvs S0 S ino p :
  let o := c_os p in
  createlog_options options log_name t bs → sparkey_create_index_filename (Some log_name) = Some name →
  name ≠ log_name → os_sched o = [] → os_wf o → (8 ≤ length (os_entropy o))%nat → bytes_ok (os_entropy o) →
  os_names o !! name = None → os_fds o !! STDOUT_FILENO = Some (ino, 0) → os_inodes o !! ino = Some [] →
  c_stdin p = text_of 9 kvs → kvs ≠ [] → Forall (line_ok 9) kvs →
  written t bs (seed_of o) [] S0 → appended (puts_of_lines kvs) S0 S → store_ok S →
  (length kvs < fuel)%nat →
  ∃ p' h tbl, prepare fuel options log_name p = (Ok 0, p') ∧ c_stderr p' = c_stderr p ∧ os_wf (c_os p') ∧
    has_file (c_os p') log_name (st_file S ++ []) ∧
    has_file (c_os p') name (hashheader_bytes h ++ tbl) ∧ stored_index S h tbl ∧
    os_fds (c_os p') !! STDOUT_FILENO = Some (ino, 0) ∧ os_inodes (c_os p') !! ino = Some [].
Proof.
  intros o [(events & Hgo1 & Hopts) Hgo2] Hiname Hne Hs Hwf Hent Hentok Hname Hout Hino Hin Hkne Hkvs
    Hw Ha Hst Hfuel. subst o. set (es := puts_of_lines kvs) in *.
  destruct (written_entries _ _ _ _ _ Hw) as [Hes0 _].
  pose proof (grows_entries _ _ _ (appended_grows _ _ _ Ha)) as Hes. rewrite Hes0 in Hes. cbn [app] in Hes.
  destruct (write_stored log_name t bs [] (c_os p) S0 Hs Hwf ltac:(lia) Hw)
    as (o1 & Hw1 & Hwf1 & Hs1 & He1 & (i1 & Hn1 & Hc1) & Hi1 & Hnm1 & Hfd1).
  pose proof (createlog_run t bs log_name o1 p Hw1) as Hrun1.
  assert (Hf1 : has_file o1 log_name (st_file S0)).
  { exists i1. split_and!; try done. by apply wf_fresh_fd. }
  destruct (append_stored log_name es S0 S o1 Hf1 Hwf1 Ha)
    as (i2 & o2 & Happ & Hi2 & Hn2 & Hc2 & Hother & Hwf2 & Hs2 & He2 & Hfd2).
  assert (Hrun2 : appendlog 9 log_name (set_c_os o1 p) = (Ok 0, set_c_stdin [] (set_c_os o2 (set_c_os o1 p)))).
  { apply (appendlog_run 9 log_name kvs []); try done; [by left|by rewrite app_nil_r]. }
  assert (i2 = i1) as -> by congruence.
  assert (Hf2 : has_file o2 log_name (st_file S ++ [])).
  { rewrite app_nil_r. exists i1. rewrite Hn2. split_and!; try done. by apply wf_fresh_fd. }
  destruct (stored_hash_write fuel name log_name 0 S [] o2 Hf2 Hwf2) as
    (o3 & Hhw & Hwf3 & Hs3 & Hfd3 & _ & Hn3 & Hi3 & h & tbl & Hf3 & Hidx); try done; [|by left| |].
  { apply no_index; [by rewrite Hn2, Hnm1|rewrite He2, He1, length_drop; lia|].
    rewrite He2, He1. by apply bytes_ok_drop. }
  { rewrite Hes. unfold es, puts_of_lines. by rewrite length_fmap. }
  assert (Hi4 : os_inodes o2 !! ino = Some []).
  { rewrite Hother; [by apply Hi1|]. intros ->. apply Hi1 in Hino. rewrite Hino in Hc1.
    apply (inj Some) in Hc1. by apply (f_equal length) in Hc1. }
  exists (set_c_os o3 (set_c_stdin [] (set_c_os o2 (set_c_os o1 p)))), h, tbl. split.
  - unfold prepare.
    assert (Hm1 : main fuel ("createlog"%string :: options) p = (Ok 0, set_c_os o1 p)).
    { change (main fuel ("createlog"%string :: options)) with (main_createlog options).
      unfold main_createlog. rewrite Hgo1. by rewrite (bind_Ok _ _ _ _ _ (Hopts p)). }
    rewrite (bind_Ok _ _ _ _ _ Hm1).
    assert (Hm2 : main fuel ["appendlog"%string; log_name] (set_c_os o1 p) =
      (Ok 0, set_c_stdin [] (set_c_os o2 (set_c_os o1 p)))).
    { change (main fuel ["appendlog"%string; log_name]) with (main_appendlog [log_name]).
      unfold main_appendlog. by rewrite Hgo2. }
    rewrite (bind_Ok _ _ _ _ _ Hm2).
    change (main fuel ["writehash"%string; log_name]) with (main_writehash fuel [log_name]).
    unfold main_writehash. rewrite Hiname. by apply writehash_run.
  - cbn [c_os c_stderr set_c_os set_c_stdin]. split_and!; try done.
    + destruct Hf2 as (i & Hn & Hc & _). exists i. rewrite Hn3 by done.
      split_and!; [done|by apply Hi3|done|by apply wf_fresh_fd].
    + by rewrite Hfd3, Hfd2, Hfd1.
    + by apply Hi3.
Qed.

(** ** Properties *)

(** C20. The get command: the value goes to standard output and the status is 0 when the
    key is live, and nothing is written and the status is 2 when it is not; there is
    no message, no file changes but standard output, and nothing stays open. *)
Theorem get_prints {C : Codec} {G : Getopt} fuel name log_name key S rest h tbl ino off p :
  let o := c_os p in
  sparkey_create_log_filename (Some name) = Some log_name →
  has_file o name (hashheader_bytes h ++ tbl) → has_file o log_name (st_file S ++ rest) →
  os_wf o → stored_index S h tbl →
  fd_open o STDOUT_FILENO ino off → zlen (string_bytes key) < 2 ^ 31 →
  let '(r, p') := main fuel ["get"%string; name; key] p in
  match replay (st_entries S) !! string_bytes key with
  | Some v => r = Ok 0 ∧ got p p' ino off v
  | None => r = Ok 2 ∧ got p p' ino off []
  end.
Proof.
  intros o Hname Hf Hlf Hwf Hidx Hopen Hlen.
  destruct (get_run name log_name key S rest h tbl ino off p Hf Hlf Hwf Hidx Hopen Hlen)
    as (p' & Hrun & Hgot).
  assert (Hmain : main fuel ["get"%string; name; key] p = get name log_name key p).
  { change (main fuel ["get"%string; name; key]) with (main_get [name; key]). unfold main_get. by rewrite Hname. }
  rewrite Hmain, Hrun. by destruct (replay (st_entries S) !! string_bytes key).
Qed.

(** C19. The appendlog command adds one put for every line of standard input, key and value
    separated by the delimiter, in order, and answers 0.  A last line without a
    newline is dropped, and the answer is still 0. *)
Theorem appendlog_adds_lines {C : Codec} {G : Getopt} fuel args events log_name operands d S1 S2 kvs tail p :
  let o := c_os p in
  getopt "d:" args = (events, log_name :: operands) → delimiter_options events 9 p = (Ok d, p) →
  has_file o log_name (st_file S1) → os_wf o →
  d ≠ 0 → d ≠ newline → Forall (line_ok d) kvs → Forall plain_char tail → zlen tail + 2 ≤ 2 ^ 28 →
  kvs ≠ [] ∨ tail ≠ [] → appended (puts_of_lines kvs) S1 S2 → c_stdin p = text_of d kvs ++ tail →
  let '(r, p') := main fuel ("appendlog"%string :: args) p in
  r = Ok 0 ∧ c_stdin p' = [] ∧ c_stderr p' = c_stderr p ∧
  has_file (c_os p') log_name (st_file S2) ∧
  (∀ n, os_names (c_os p') !! n = os_names o !! n) ∧
  (∀ fd, os_fds (c_os p') !! fd = os_fds o !! fd).
Proof.
  intros o Hgo Hdel Hf Hwf Hd0 Hdn Hkvs Htail Htlen Hne Ha Hin.
  assert (Hs : os_sched o = []) by (destruct Hf as (? & _ & _ & ? & _); done).
  change (main fuel ("appendlog"%string :: args) p) with (main_appendlog args p).
  unfold main_appendlog. rewrite Hgo, (bind_Ok _ _ _ _ _ Hdel).
  destruct (append_stored log_name _ S1 S2 o Hf Hwf Ha)
    as (ino & o' & Happ & Hino & Hn & Hc & _ & Hwf' & Hs' & _ & Hfds').
  rewrite (appendlog_run d log_name kvs tail o' p) by done. cbn [c_stdin c_stderr c_os set_c_stdin set_c_os].
  split_and!; try done; [|by rewrite Hn].
  exists ino. rewrite Hn. split_and!; try done. by apply wf_fresh_fd.
Qed.

(** The appendlog command on an empty standard input tests a character of memory
    that was never written. *)
Theorem appendlog_reads_garbage {C : Codec} d log_name fid es p :
  has_file (c_os p) log_name (log_file fid es) → os_wf (c_os p) → 0 ≤ fid < 2 ^ 32 → log_ok es →
  c_stdin p = [] → (appendlog d log_name p).1 = UB.
Proof.
  intros Hf Hwf Hfid Hok Hin.
  assert (Hs : os_sched (c_os p) = []) by (destruct Hf as (? & _ & _ & ? & _); done).
  destruct (writer_append_spec log_name fid es _ Hf Hwf Hfid Hok) as (ino & o1 & w & Hopen & _ & _ & _ & Hfr).
  pose proof (frame_cooperative _ _ _ _ Hfr Hs) as Hs1.
  unfold appendlog. rewrite (bind_Ok _ _ _ _ _ (call_Ok _ _ _ _ Hopen)). cbn [assert].
  rewrite bind_ret. unfold append. rewrite bind_assoc, bind_getS. cbn [c_stdin set_c_os]. rewrite Hin.
  destruct (read_line_start (LineBuffer None 0) (set_c_os o1 p)) as (k & Hk & Hread); [by left|].
  rewrite read_line_eof in Hread by done. cbn [length append_loop].
  rewrite bind_assoc, (bind_Ok _ _ _ _ _ Hread). done.
Qed.

(** C21. The info command on a log and its index shows, for the log, how many puts and
    deletes it has, the longest key and value and its compression, and for the index
    how many keys are live and how many bytes are garbage; the status is 0 and
    nothing is written. *)
Theorem info_shows {C : Codec} {G : Getopt} fuel log_name name c S rest h tbl p :
  let o := c_os p in
  has_file o log_name (st_file S ++ rest) → has_file o name (hashheader_bytes h ++ tbl) → os_wf o →
  stored_index S h tbl → compression_types (lh_compression_type (st_header S)) = Some c →
  let '(r, p') := main fuel ["info"%string; log_name; name] p in
  r = Ok 0 ∧ c_stdout p' = c_stdout p ++ shown_log log_name c S ++ shown_index name S h ∧
  c_stderr p' = c_stderr p ∧ same_data o (c_os p') ∧ os_fds (c_os p') = os_fds o.
Proof.
  intros o Hlf Hf Hwf Hidx Hc.
  change (main fuel ["info"%string; log_name; name]) with (info [log_name; name] 0). cbn [info].
  rewrite (bind_Ok _ _ _ _ _ (info_log_run log_name c S rest p Hlf Hc)). cbn [c_os c_stdin c_stdout c_stderr].
  erewrite bind_Ok; [|apply (info_index_run name S h tbl); [by apply opened_file|by apply opened_wf|done]].
  cbn [c_os c_stdin c_stdout c_stderr]. split; [done|]. rewrite <- app_assoc. split_and!; try done.
  assert (Hs : os_sched o = []) by (by destruct Hf as (? & _ & _ & ? & _)).
  split_and!; try done. by apply opened_wf, opened_wf, opened_wf.
Qed.

(** C18. The rewrite command, on a log in which no deleted key is longer than the longest
    key that was put (rewrite_overflows is the other case), where no file has the name of
    the new index, and if the new log has a block size of at least ten bytes when it is
    compressed and no more puts than bytes, so that it can be opened, answers 0 and leaves a
    new log, compressed as the options say or as the old one, with its index. The new log
    has a put for every entry of the old one, so nothing that was replaced is trimmed away,
    and deletions become puts: a lookup answers as before for live keys, and a deleted key
    is back with the empty value. *)
Theorem rewrite_copies {C : Codec} fuel compression block_size in_index in_log out_index out_log
    S S' rest h tbl p :
  let o := c_os p in
  let es := st_entries S in
  has_file o in_index (hashheader_bytes h ++ tbl) → has_file o in_log (st_file S ++ rest) →
  os_wf o → stored_index S h tbl → out_index ≠ out_log → os_names o !! out_index = None →
  (8 ≤ length (os_entropy o))%nat → bytes_ok (os_entropy o) → rewritable es →
  written (copy_options S compression block_size).1 (copy_options S compression block_size).2
    (seed_of o) (as_put <$> es) S' →
  store_ok S' → (length es < fuel)%nat →
  let '(r, p') := rewrite_log fuel compression block_size in_index in_log out_index out_log p in
  r = Ok 0 ∧ c_stderr p' = c_stderr p ∧ (∀ fd, os_fds (c_os p') !! fd = os_fds o !! fd) ∧
  (∀ i c, os_inodes o !! i = Some c → os_inodes (c_os p') !! i = Some c) ∧
  has_file (c_os p') out_log (st_file S') ∧
  ∀ keys, short_keys keys → (lookup_all out_index out_log keys (c_os p')).1 =
    Ok ((λ k, match replay es !! k with
              | Some v => Some v
              | None => if decide (k ∈ entry_key <$> es) then Some [] else None
              end) <$> keys).
Proof.
  intros o es Hf Hlf Hwf Hidx Hne Hname Hent Hentok Hrw Hw Hst' Hfuel.
  destruct (rewrite_run fuel compression block_size in_index in_log out_index out_log S S' rest h tbl p
    Hf Hlf Hwf Hidx Hne Hname Hent Hentok Hrw Hw Hst' Hfuel)
    as (p' & -> & Hp & Hwf' & Hs' & Hfds & _ & Hi & h' & tbl' & Hlf' & Hf' & Hidx').
  split_and!; try done; [by rewrite Hp|]. intros keys Hkeys.
  rewrite <- (app_nil_r (st_file S')) in Hlf'.
  destruct (indexed_clients out_index out_log S' [] h' tbl' _ Hf' Hlf' Hwf' Hst' Hidx') as [Hlook _].
  rewrite Hlook by done. destruct (written_entries _ _ _ _ _ Hw) as [-> _].
  f_equal. apply list_fmap_ext. intros i k _. by rewrite replay_as_put.
Qed.

(** C17. A session of four runs: createlog without compression or with any compression and a
    block size of at least ten bytes, appendlog with one or more tab-separated lines on
    standard input, the encoded lengths of each of which fit in a block, writehash where no
    index was, and get. If the log has no more puts than bytes, as always without
    compression, so that it can be opened again, the last run prints the value of the last
    line with the key and answers 0, or prints nothing and answers 2; no run writes a
    message. *)
Theorem session_answers {C : Codec} {G : Getopt} fuel options log_name name key t bs kvs S0 S ino p :
  let o := c_os p in
  createlog_options options log_name t bs → sparkey_create_index_filename (Some log_name) = Some name →
  sparkey_create_log_filename (Some name) = Some log_name → name ≠ log_name →
  os_sched o = [] → os_wf o → (8 ≤ length (os_entropy o))%nat → bytes_ok (os_entropy o) →
  os_names o !! name = None → os_fds o !! STDOUT_FILENO = Some (ino, 0) → os_inodes o !! ino = Some [] →
  c_stdin p = text_of 9 kvs → kvs ≠ [] → Forall (line_ok 9) kvs →
  written t bs (seed_of o) [] S0 → appended (puts_of_lines kvs) S0 S → store_ok S →
  (length kvs < fuel)%nat → zlen (string_bytes key) < 2 ^ 31 →
  let '(r, p') := session fuel options log_name name key p in
  let value := replay (puts_of_lines kvs) !! string_bytes key in
  r = Ok (match value with Some _ => 0 | None => 2 end) ∧
  os_inodes (c_os p') !! ino = Some (default [] value) ∧ c_stderr p' = c_stderr p.
Proof.
  intros o Hgo Hiname Hlname Hne Hs Hwf Hent Hentok Hname Hout Hino Hin Hkne Hkvs Hw Ha Hst Hfuel Hklen.
  destruct (prepare_run fuel options log_name name t bs kvs S0 S ino p Hgo Hiname Hne Hs Hwf Hent Hentok Hname
    Hout Hino Hin Hkne Hkvs Hw Ha Hst Hfuel) as (p1 & h & tbl & Hrun & He1 & Hwf1 & Hlf & Hf & Hidx & Hfd & Hino1).
  assert (Hopen : fd_open (c_os p1) STDOUT_FILENO ino 0) by (split_and!; [done|by eexists|done]).
  destruct (get_run name log_name key S [] h tbl ino 0 p1 Hf Hlf Hwf1 Hidx Hopen Hklen)
    as (p2 & Hget & _ & _ & He2 & _ & Hi2 & _).
  rewrite (grows_entries _ _ _ (appended_grows _ _ _ Ha)), (proj1 (written_entries _ _ _ _ _ Hw)) in Hget, Hi2.
  unfold session. rewrite (bind_Ok _ _ _ _ _ Hrun).
  change (main fuel ["get"%string; name; key]) with (main_get [name; key]). unfold main_get.
  rewrite Hlname, Hget. split; [done|]. split; [|by rewrite He2].
  rewrite Hi2, lookup_insert_eq, Hino1. cbn [from_option id app]. f_equal. apply (splice_end []).
Qed.

(** ** Examples *)

(** A [getopt] for argument lists with at most one option. *)
#[local] Instance one_option : Getopt := λ _ args,
  match args with
  | "-c"%string :: optarg :: args => ([OptArg "c" optarg], args)
  | _ => ([], args)
  end.

(** A process with a log, its index, and an empty file as standard output. *)
Example process_example (index input : list Z) : process :=
  Process (OS {[ 0%nat := log_file 7 es_example; 1%nat := index; 2%nat := [] ]}
     {[ "a.spl"%string := 0%nat; "a.spi"%string := 1%nat ]} {[ 1 := (2%nat, 0) ]} 3 3 []
     [1; 2; 3; 4; 5; 6; 7; 8]) input [] [].

Lemma process_example_wf index input : os_wf (c_os (process_example index input)).
Proof.
  split_and!; cbn [process_example c_os os_names os_inodes os_fds os_next_inode os_next_fd]; [| | |lia].
  - intros n i. rewrite lookup_insert_Some, lookup_singleton_Some.
    intros [[_ <-]|[_ [_ <-]]]; by eexists.
  - intros i. destruct i as [|[|[|i]]]; [lia..|]. intros [x Hx].
    by rewrite !lookup_insert_ne, lookup_singleton_ne in Hx by done.
  - intros fd [x [<- _]%lookup_singleton_Some]. lia.
Qed.

(** A process that has nothing but an empty file as standard output. *)
Example process_empty (input : list Z) : process :=
  Process (OS {[ 0%nat := [] ]} ∅ {[ 1 := (0%nat, 0) ]} 1 3 [] (replicate 16 5)) input [] [].

Lemma process_empty_wf input : os_wf (c_os (process_empty input)).
Proof.
  split_and!; cbn [process_empty c_os os_names os_inodes os_fds os_next_inode os_next_fd]; [| | |lia].
  - intros n i. by rewrite lookup_empty.
  - intros i [x [<- _]%lookup_singleton_Some]. lia.
  - intros fd [x [<- _]%lookup_singleton_Some]. lia.
Qed.

Lemma get_prints_witness :
  ∃ h tbl p', main (C := identity_codec) 9 ["get"; "a.spi"; "k"] (process_example (hashheader_bytes h ++ tbl) [])
    = (Ok 2, p').
Proof.
  destruct index_of_example as (h & tbl & Hidx). exists h, tbl.
  pose proof (get_prints (C := identity_codec) 9 "a.spi" "a.spl" "k" example_log [] h tbl 2 0
    (process_example (hashheader_bytes h ++ tbl) []) eq_refl) as H.
  destruct (main _ _ _) as [r p']. exists p'. destruct H as [-> _]; [..|done].
  - by exists 1%nat.
  - rewrite app_nil_r. by exists 0%nat.
  - apply process_example_wf.
  - exact Hidx.
  - split_and!; [done|by eexists|done].
  - done.
Defined.

Lemma info_shows_witness :
  ∃ h tbl, (main (C := identity_codec) 9 ["info"; "a.spl"; "a.spi"]
    (process_example (hashheader_bytes h ++ tbl) [])).1 = Ok 0.
Proof.
  destruct index_of_example as (h & tbl & Hidx). exists h, tbl.
  pose proof (info_shows (C := identity_codec) 9 "a.spl" "a.spi" "Uncompressed" example_log [] h tbl
    (process_example (hashheader_bytes h ++ tbl) [])) as H.
  destruct (main _ _ _) as [r p']. apply H; clear H.
  - rewrite app_nil_r. by exists 0%nat.
  - by exists 1%nat.
  - apply process_example_wf.
  - exact Hidx.
  - done.
Defined.

Lemma appendlog_adds_lines_witness :
  (main (C := identity_codec) 9 ["appendlog"; "a.spl"]
     (process_example [] [97; 9; 98; 10; 99])).1 = Ok 0.
Proof.
  assert (Hok : log_ok (es_example ++ [Put [97] [98]])) by (split; [repeat constructor; done|done]).
  pose proof (appendlog_adds_lines (C := identity_codec) 9 ["a.spl"] [] "a.spl" [] 9 example_log
    (plain_stored (C := identity_codec) 7 _ ltac:(lia) Hok) [([97], [98])]
    [99] (process_example [] [97; 9; 98; 10; 99]) eq_refl eq_refl) as H.
  destruct (main _ _ _) as [r p']. apply H; clear H.
  - by exists 0%nat.
  - apply process_example_wf.
  - done.
  - done.
  - repeat constructor; done.
  - repeat constructor; done.
  - done.
  - by left.
  - constructor.
  - done.
Defined.

Lemma appendlog_reads_garbage_witness :
  (appendlog (C := identity_codec) 9 "a.spl" (process_example [] [])).1 = UB.
Proof.
  apply (appendlog_reads_garbage (C := identity_codec) 9 "a.spl" 7 es_example);
    [by exists 0%nat|apply process_example_wf|lia|exact es_example_ok|done].
Defined.

(** The log of [rewrite_copies_witness], compressed on the way. *)
Lemma example_copy_fits : comp_fits (C := identity_codec) (snappy_params identity_codec 10) (groups_of 10 (as_put <$> es_example)).
Proof. apply snappy_fits; [done| |by repeat constructor|done|by split; vm_compute]. split; [repeat constructor; done|done]. Qed.

Lemma rewrite_copies_witness :
  ∃ h tbl, (rewrite_log (C := identity_codec) 9 (Some SPARKEY_COMPRESSION_SNAPPY) (Some 10)
    "a.spi" "a.spl" "b.spi" "b.spl" (process_example (hashheader_bytes h ++ tbl) [])).1 = Ok 0.
Proof.
  destruct index_of_example as (h & tbl & Hidx). exists h, tbl.
  assert (Hfid : 0 ≤ seed_of (c_os (process_example (hashheader_bytes h ++ tbl) [])) < 2 ^ 32) by done.
  pose proof (rewrite_copies (C := identity_codec) 9 (Some SPARKEY_COMPRESSION_SNAPPY) (Some 10)
    "a.spi" "a.spl" "b.spi" "b.spl" example_log
    (comp_stored (C := identity_codec) (snappy_params identity_codec 10) _ (groups_of 10 (as_put <$> es_example)) Hfid example_copy_fits)
    [] h tbl (process_example (hashheader_bytes h ++ tbl) [])) as H.
  destruct (rewrite_log _ _ _ _ _ _ _ _) as [r p']. apply H; clear H.
  - by exists 1%nat.
  - rewrite app_nil_r. by exists 0%nat.
  - apply process_example_wf.
  - exact Hidx.
  - done.
  - done.
  - cbn; lia.
  - by repeat constructor.
  - do 3 (constructor; [by vm_compute|]). constructor.
  - apply (written_comp (C := identity_codec)); [done|done|by repeat constructor].
  - split; [|done]. intros n e He. do 3 (destruct n as [|n]; [by simplify_eq/=|]). done.
  - cbn; lia.
Defined.

(** A session with a compressed log of one line. *)
Example line_example : list (list Z * list Z) := [(string_bytes "k", string_bytes "v1")].

Lemma empty_fits : comp_fits (C := identity_codec) (snappy_params identity_codec COMP_DEFAULT_BLOCKSIZE) (groups_of COMP_DEFAULT_BLOCKSIZE []).
Proof. apply snappy_fits; [done|by split|by constructor|done|by split; vm_compute]. Qed.

Lemma line_fits : comp_fits (C := identity_codec) (snappy_params identity_codec COMP_DEFAULT_BLOCKSIZE)
  (groups_of COMP_DEFAULT_BLOCKSIZE [] ++ groups_of COMP_DEFAULT_BLOCKSIZE (puts_of_lines line_example)).
Proof.
  change (groups_of COMP_DEFAULT_BLOCKSIZE []) with (@nil (list entry)). cbn [app].
  apply snappy_fits; [done| |by repeat constructor|done|by split; vm_compute].
  split; [repeat constructor; done|done].
Qed.

Lemma session_answers_witness :
  let '(r, p') := session (C := identity_codec) 9 ["-c"; "snappy"; "a.spl"] "a.spl" "a.spi" "k"
    (process_empty (text_of 9 line_example)) in
  r = Ok 0 ∧ os_inodes (c_os p') !! 0%nat = Some (string_bytes "v1").
Proof.
  assert (Hfid : 0 ≤ seed_of (c_os (process_empty (text_of 9 line_example))) < 2 ^ 32) by done.
  pose proof (session_answers (C := identity_codec) 9 ["-c"; "snappy"; "a.spl"] "a.spl" "a.spi" "k"
    SPARKEY_COMPRESSION_SNAPPY COMP_DEFAULT_BLOCKSIZE line_example
    (comp_stored (C := identity_codec) _ _ _ Hfid empty_fits) (comp_stored (C := identity_codec) _ _ _ Hfid line_fits)
    0 (process_empty (text_of 9 line_example))) as H.
  destruct (session _ _ _ _ _ _) as [r p'].
  destruct H as (Hr & Hi & _); [|done|done|done|done|apply process_empty_wf|cbn; lia|
    by repeat constructor|done|done|done|done|done| | | | |cbn; lia|done|].
  - split; [by eexists|done].
  - repeat constructor; done.
  - apply (written_comp (C := identity_codec)); [done|done|by constructor].
  - apply (appended_comp (C := identity_codec)). by repeat constructor.
  - split; [|done]. intros n e He. destruct n as [|n]; [by simplify_eq/=|]. done.
  - by split.
Defined.

(** ** Where rewrite and appendlog go wrong *)

(** C40. The key buffer of rewrite has the length of the longest key that was put.  In a log
    with a deletion whose key is longer -- and the entries before it as rewrite_copies wants
    them -- the command writes the key over the end of its heap buffer, which is undefined
    behaviour, for any compression of the copy. *)
Theorem rewrite_overflows {C : Codec} fuel compression block_size in_index in_log out_index out_log
    S S' rest h tbl es1 k es2 p :
  let o := c_os p in
  let es := st_entries S in
  let longest := max_len entry_key (puts_of es) in
  has_file o in_index (hashheader_bytes h ++ tbl) → has_file o in_log (st_file S ++ rest) →
  os_wf o → stored_index S h tbl → (4 ≤ length (os_entropy o))%nat →
  es = es1 ++ Delete k :: es2 → longest < zlen k → Forall (λ e, zlen (entry_key e) ≤ longest) es1 →
  written (copy_options S compression block_size).1 (copy_options S compression block_size).2
    (seed_of o) (as_put <$> es1) S' → (length es < fuel)%nat →
  (rewrite_log fuel compression block_size in_index in_log out_index out_log p).1 = UB.
Proof.
  intros o es longest Hf Hlf Hwf Hidx Hent Hes Hlong Hshort Hw Hfuel.
  destruct (stored_hash_open in_index in_log S rest h tbl o Hf Hlf Hwf Hidx)
    as (reader & o1 & Hlog & Hrun & (Hn1 & Hi1 & He1 & Hs1 & Hwf1) & _).
  set (L := st_cursor S (hr_log reader) Hlog) in *.
  assert (Hhdr : r_header (hr_log reader) = st_header S) by apply Hlog.
  unfold rewrite_log. rewrite (bind_Ok _ _ _ _ _ (call_Ok _ _ _ _ Hrun)). cbn [assert]. rewrite bind_ret.
  unfold sparkey_hash_getreader, sparkey_logreader_get_compression_type,
    sparkey_logreader_get_compression_blocksize. rewrite Hhdr.
  change (default (lh_compression_type (st_header S)) compression) with (copy_options S compression block_size).1.
  change (default (s32 (lh_compression_block_size (st_header S))) block_size) with (copy_options S compression block_size).2.
  destruct (copy_options S compression block_size) as [t bs]. cbn [fst snd] in *.
  assert (Hseed : seed_of o1 = seed_of o) by (unfold seed_of; by rewrite He1). rewrite <- Hseed in Hw.
  destruct (write_stored out_log t bs _ o1 S' Hs1 Hwf1 ltac:(by rewrite He1) Hw) as (o4 & Hwrite & _).
  pose proof (copy_log_overflows (L := L) fuel t bs out_log o4 (set_c_os o1 p) es1 (Delete k) es2 Hs1 Hes Hwrite) as Hub.
  rewrite Hhdr, st_key_len, st_value_len in Hub. apply bind_UB, Hub; [|done|done].
  apply Forall_and. split; [done|]. pose proof (value_sizes es) as Hv. rewrite list.Forall_forall in Hv.
  apply list.Forall_forall. intros x Hx. apply Hv. rewrite Hes. by apply elem_of_app; left.
Qed.

(** A deletion of two bytes after a put of one. *)
Lemma rewrite_overflows_witness :
  ∃ p, (read_log (C := identity_codec) 9 "a.spl" (c_os p)).1 = Ok [Put [1] [2]; Delete [1; 1]] ∧
    (rewrite_log (C := identity_codec) 9 None None "a.spi" "a.spl" "b.spi" "b.spl" p).1 = UB.
Proof.
  assert (Hok : log_ok [Put [1] [2]; Delete [1; 1]]) by (split; [repeat constructor; done|done]).
  assert (Hok1 : log_ok [Put [1] [2]]) by (split; [repeat constructor; done|done]).
  assert (H7 : 0 ≤ 7 < 2 ^ 32) by done. set (S := plain_stored (C := identity_codec) 7 _ H7 Hok).
  destruct (some_index (C := identity_codec) S) as (h & tbl & Hidx).
  { split; [|done]. intros n e He. do 2 (destruct n as [|n]; [by simplify_eq/=|]). done. }
  set (p := Process (os_pair (st_file S ++ []) (hashheader_bytes h ++ tbl)) [] [] []).
  assert (Hid : 0 ≤ seed_of (c_os p) < 2 ^ 32) by done. exists p. split.
  { apply (read_stored S _ "a.spl" []); [apply os_pair_log|apply os_pair_wf|cbn; lia]. }
  apply (rewrite_overflows (C := identity_codec) 9 None None "a.spi" "a.spl" "b.spi" "b.spl" S
    (plain_stored (C := identity_codec) (seed_of (c_os p)) _ Hid Hok1) [] h tbl
    [Put [1] [2]] [1; 1] [] p);
    [apply os_pair_index|apply os_pair_log|apply os_pair_wf|done|cbn; lia|done|done|by repeat constructor|
     by constructor|cbn; lia].
Defined.

