(* ===== verification/SystemTest.v ===== *)
(** * The system test (testsystem.c)

    The test program that writes a log, reads it back, indexes it, scans it and asks
    for every key: a client of the whole library.  Its checks hold for all numbers
    of entries, not only for those it is run with. *)

From stdpp Require Import base gmap list strings numbers pretty.
From Stdlib Require Import ZArith Lia Ascii.
From S2P Require Import Prelude ReturnCodes Endian OS LogHeader HashAlg HashHeader Printing Buf Compress.
From S2P Require Import LogFormat LogWriter Cooperation LogReader LogCursor PlainLog BlockFormat StoredLog LogProps.
From S2P Require Import RobinHood HashTable TableBytes TableRefine HashWriter IndexFile IndexCopy.
From S2P Require Import HashReader Store StoreProps Cli CliLines CliProps.

Local Open Scope Z_scope.

(** ** Definitions *)

Definition max (a b : Z) : Z := if decide (a > b) then a else b.

(** An [int] that arithmetic has made; one that does not fit is undefined. *)
Definition int_of (n : Z) : MX Z := if decide (- 2 ^ 31 ≤ n < 2 ^ 31) then mret n else undefined.

(** A [char] array that [sprintf] has filled; the rest of it is not read. *)
Definition c_string (s : string) : list Z := string_bytes s ++ [0].
Definition string_of_bytes (bs : list Z) : string :=
  String.string_of_list_ascii ((λ b, ascii_of_nat (Z.to_nat b)) <$> bs).

(** The numeric values of the enums. *)
Definition entry_type_value (t : sparkey_entry_type) : Z :=
  match t with SPARKEY_ENTRY_PUT => 0 | SPARKEY_ENTRY_DELETE => 1 end.
Definition iter_state_value (s : sparkey_iter_state) : Z :=
  match s with
  | SPARKEY_ITER_NEW => 0
  | SPARKEY_ITER_ACTIVE => 1
  | SPARKEY_ITER_CLOSED => 2
  | SPARKEY_ITER_INVALID => 3
  end.

(** [calloc(n, 1)]: [None] is NULL. *)
Definition calloc (n : Z) : MX (option (list Z)) :=
  ok ← call sys_malloc;
  mret (if decide (ok = inr true) then Some (replicate (Z.to_nat n) 0) else None).

(** What the library writes to the start of a buffer. *)
Definition fill_zeroed (buf : option (list Z)) (bs : list Z) : option (option (list Z)) :=
  match buf with
  | Some buf => if decide (zlen bs ≤ zlen buf) then Some (Some (bs ++ drop (length bs) buf)) else None
  | None => if decide (bs = []) then Some None else None
  end.

(** [sparkey_logwriter_close(&writer)], with what the pointer is afterwards. *)
Definition close_ref {C : Codec} (writer : sparkey_logwriter)
    : MX ((returncode + unit) * option sparkey_logwriter) := λ p,
  let '(r, (o, ref)) := sparkey_logwriter_close (c_os p, Some writer) in
  (match r with Ok a => Ok (inr a, ref) | Err rc => Ok (inl rc, ref) | UB => UB | NoFuel => NoFuel end,
   set_c_os o p).

Section SystemTest.
Context {C : Codec} (file : string).

(** [file] is what the compiler makes of [__FILE__]; the line is that of the call. *)
Definition _assert_equals (line expected actual : Z) : MX unit :=
  let expected := s32 expected in
  let actual := s32 actual in
  if decide (expected ≠ actual) then
    _ ← printf [file +:+ ":" +:+ percent_d line +:+ ": Expected " +:+ percent_d expected +:+
                " but got " +:+ percent_d actual]%string;
    fail 1
  else mret tt.

Definition _assert_str_equals (line : Z) (expected actual : option (list Z)) : MX unit :=
  let place := (file +:+ ":" +:+ percent_d line)%string in
  match expected, actual with
  | None, Some a =>
      a ← of_opt (cstring a 0);
      _ ← printf [place +:+ ": Expected NULL but got '" +:+ string_of_bytes a +:+ "'"]%string; fail 1
  | Some e, None =>
      e ← of_opt (cstring e 0);
      _ ← printf [place +:+ ": Expected '" +:+ string_of_bytes e +:+ "' but got NULL"]%string; fail 1
  | Some e, Some a =>
      e ← of_opt (cstring e 0);
      a ← of_opt (cstring a 0);
      if decide (e ≠ a) then
        _ ← printf [place +:+ ": Expected '" +:+ string_of_bytes e +:+ "' but got '" +:+
                    string_of_bytes a +:+ "'"]%string; fail 1
      else mret tt
  | None, None => mret tt
  end.

(** [assert_equals(SPARKEY_SUCCESS, ...)] on a call, and what the call returned. *)
Definition success {A} (line : Z) (rc : returncode + A) : MX A :=
  _ ← _assert_equals line (returncode_value SPARKEY_SUCCESS)
        (match rc with inr _ => returncode_value SPARKEY_SUCCESS | inl rc => returncode_value rc end);
  of_opt (match rc with inr a => Some a | inl _ => None end).

(** *** Writing *)

(** [char key[100]], after [sprintf(key, "key_%d", i)], without the NUL. *)
Definition numbered (prefix : string) (i : Z) : string := (prefix +:+ "_" +:+ percent_d i)%string.
Definition key_bytes (i : Z) : list Z := string_bytes (numbered "key" i).

(** The loops over [i]; [todo] is the number of rounds that are left. *)
Fixpoint put_loop (line : Z) (prefix : string) (todo : nat) (i : Z) (writer : sparkey_logwriter)
    : MX sparkey_logwriter :=
  match todo with
  | O => mret writer
  | S todo =>
      rw ← call_writer writer (sparkey_logwriter_put (key_bytes i) (string_bytes (numbered prefix i)));
      _ ← success line rw.1;
      put_loop line prefix todo (i + 1) rw.2
  end.

Fixpoint delete_loop (line : Z) (todo : nat) (i : Z) (writer : sparkey_logwriter)
    : MX sparkey_logwriter :=
  match todo with
  | O => mret writer
  | S todo =>
      rw ← call_writer writer (sparkey_logwriter_delete (key_bytes i));
      _ ← success line rw.1;
      delete_loop line todo (i + 1) rw.2
  end.

Definition write_test_log (compression blocksize num_puts num_deletes num_puts2 : Z) : MX unit :=
  rc ← call (sparkey_logwriter_create "test.spl" compression blocksize);
  mywriter ← success 59 rc;
  mywriter ← put_loop 66 "value" (Z.to_nat num_puts) 0 mywriter;
  mywriter ← delete_loop 72 (Z.to_nat num_deletes) 0 mywriter;
  mywriter ← put_loop 80 "newvalue" (Z.to_nat num_puts2) 0 mywriter;
  rr ← close_ref mywriter;
  success 83 rr.1.

(** *** Reading *)

(** A buffer for the key or the value and a zero behind it, the call that fills it,
    and the check of the length on the next line. *)
Definition fill_checked (line : Z) (fill : Z → MI (list Z)) (wanted : Z) (iter : sparkey_logiter)
    : MX (option (list Z) * sparkey_logiter) :=
  buf ← calloc (u64 (1 + wanted));
  ri ← call_iter iter (fill wanted);
  bs ← success line ri.1;
  buf ← of_opt (fill_zeroed buf bs);
  _ ← _assert_equals (line + 1) wanted (zlen bs);
  mret (buf, ri.2).

(** Type, number and prefix that are expected of an entry of the log. *)
Definition expected_entry (num_puts num_deletes visited : Z) : MX (sparkey_entry_type * Z * string) :=
  if decide (visited ≤ num_puts) then mret (SPARKEY_ENTRY_PUT, visited - 1, "value"%string) else
  puts_deletes ← int_of (num_puts + num_deletes);
  if decide (visited ≤ puts_deletes)
  then mret (SPARKEY_ENTRY_DELETE, visited - num_puts - 1, "UNUSED"%string)
  else mret (SPARKEY_ENTRY_PUT, visited - num_puts - num_deletes - 1, "newvalue"%string).

(** One round for every entry, and the last. *)
Fixpoint log_loop (fuel : nat) (num_puts num_deletes : Z) (myreader : sparkey_logreader)
    (myiter : sparkey_logiter) (visited : Z) : MX (Z * sparkey_logiter) :=
  match fuel with
  | O => out_of_fuel
  | S fuel =>
      ri ← call_iter myiter (sparkey_logiter_next myreader);
      _ ← success 93 ri.1;
      let myiter := ri.2 in
      if decide (sparkey_logiter_state myiter ≠ SPARKEY_ITER_ACTIVE) then mret (visited, myiter) else
      visited ← int_of (visited + 1);
      ki ← fill_checked 105 (sparkey_logiter_fill_key myreader) (sparkey_logiter_keylen myiter) myiter;
      let myiter := ki.2 in
      vi ← fill_checked 111 (sparkey_logiter_fill_value myreader) (sparkey_logiter_valuelen myiter) myiter;
      let myiter := vi.2 in
      ex ← expected_entry num_puts num_deletes visited;
      let '(expected_type, expected_id, expected_value_prefix) := ex in
      _ ← _assert_equals 130 (entry_type_value expected_type) (entry_type_value (sparkey_logiter_type myiter));
      _ ← _assert_str_equals 136 (Some (c_string (numbered "key" expected_id))) ki.1;
      _ ← (if decide (expected_type = SPARKEY_ENTRY_PUT)
           then _assert_str_equals 138 (Some (c_string (numbered expected_value_prefix expected_id))) vi.1
           else mret tt);
      log_loop fuel num_puts num_deletes myreader myiter visited
  end.

Definition check_log (fuel : nat) (num_puts num_deletes num_puts2 : Z) : MX unit :=
  rc ← call (sparkey_logreader_open "test.spl");
  myreader ← success 87 rc;
  rc ← call (sparkey_logiter_create myreader);
  myiter ← success 89 rc;
  vi ← log_loop fuel num_puts num_deletes myreader myiter 0;
  total ← int_of (num_puts + num_deletes + num_puts2);
  _ ← _assert_equals 144 total vi.1;
  _ ← call (λ o, let '(r, (o, _)) := sparkey_logreader_close (o, Some myreader) in (r, o));
  mret tt.

(** *** The scan *)

(** Number and prefix that are expected of a live entry. *)
Definition expected_live (num_deletes num_puts2 expected_puts visited : Z) : MX (Z * string) :=
  if decide (visited ≤ expected_puts)
  then id ← int_of (max num_deletes num_puts2 + visited); mret (id - 1, "value"%string)
  else mret (visited - expected_puts - 1, "newvalue"%string).

Fixpoint scan_loop (fuel : nat) (num_deletes num_puts2 expected_puts : Z)
    (myhashreader : sparkey_hashreader) (myiter : sparkey_logiter) (visited : Z)
    : MX (Z * sparkey_logiter) :=
  match fuel with
  | O => out_of_fuel
  | S n =>
      let myreader := sparkey_hash_getreader myhashreader in
      ri ← call_iter myiter (sparkey_logiter_hashnext fuel myhashreader);
      _ ← success 159 ri.1;
      let myiter := ri.2 in
      if decide (sparkey_logiter_state myiter ≠ SPARKEY_ITER_ACTIVE) then mret (visited, myiter) else
      visited ← int_of (visited + 1);
      ki ← fill_checked 167 (sparkey_logiter_fill_key myreader) (sparkey_logiter_keylen myiter) myiter;
      let myiter := ki.2 in
      vi ← fill_checked 173 (sparkey_logiter_fill_value myreader) (sparkey_logiter_valuelen myiter) myiter;
      let myiter := vi.2 in
      _ ← _assert_equals 176 (entry_type_value SPARKEY_ENTRY_PUT)
            (entry_type_value (sparkey_logiter_type myiter));
      ex ← expected_live num_deletes num_puts2 expected_puts visited;
      let '(expected_id, expected_value_prefix) := ex in
      _ ← _assert_str_equals 193 (Some (c_string (numbered "key" expected_id))) ki.1;
      _ ← _assert_str_equals 194 (Some (c_string (numbered expected_value_prefix expected_id))) vi.1;
      scan_loop n num_deletes num_puts2 expected_puts myhashreader myiter visited
  end.

(** *** Lookups *)

Fixpoint get_loop (num_puts num_deletes num_puts2 : Z) (myhashreader : sparkey_hashreader)
    (todo : nat) (i : Z) (myiter : sparkey_logiter) : MX sparkey_logiter :=
  match todo with
  | O => mret myiter
  | S todo =>
      ri ← call_iter myiter (sparkey_hash_get myhashreader (key_bytes i));
      _ ← success 206 ri.1;
      let myiter := ri.2 in
      let state_is line s := _assert_equals line (iter_state_value s) (iter_state_value (sparkey_logiter_state myiter)) in
      expected_value ←
        (if decide (i < num_puts2) then
           _ ← state_is 208 SPARKEY_ITER_ACTIVE; mret (Some (numbered "newvalue" i))
         else if decide (i >= num_deletes ∧ i < num_puts) then
           _ ← state_is 211 SPARKEY_ITER_ACTIVE; mret (Some (numbered "value" i))
         else _ ← state_is 214 SPARKEY_ITER_INVALID; mret None);
      myiter ←
        (if decide (sparkey_logiter_state myiter = SPARKEY_ITER_ACTIVE) then
           vi ← fill_checked 221 (sparkey_logiter_fill_value (sparkey_hash_getreader myhashreader))
                  (sparkey_logiter_valuelen myiter) myiter;
           expected_value ← of_opt expected_value;
           _ ← _assert_str_equals 224 (Some (c_string expected_value)) vi.1;
           mret vi.2
         else mret myiter);
      get_loop num_puts num_deletes num_puts2 myhashreader todo (i + 1) myiter
  end.

Definition check_hash (fuel : nat) (hashsize num_puts num_deletes num_puts2 : Z) : MX unit :=
  let expected_puts := max 0 (num_puts - max num_deletes num_puts2) in
  expected_total ← int_of (expected_puts + num_puts2);
  rc ← call (sparkey_hash_write fuel "test.spi" "test.spl" hashsize);
  _ ← success 149 rc;
  rc ← call (sparkey_hash_open "test.spi" "test.spl");
  myhashreader ← success 153 rc;
  rc ← call (sparkey_logiter_create (sparkey_hash_getreader myhashreader));
  myiter ← success 155 rc;
  vi ← scan_loop fuel num_deletes num_puts2 expected_puts myhashreader myiter 0;
  _ ← _assert_equals 199 expected_total vi.1;
  last ← int_of (max num_puts num_puts2 + 100);
  _ ← get_loop num_puts num_deletes num_puts2 myhashreader (Z.to_nat last) 0 vi.2;
  _ ← call (λ o, let '(r, (o, _)) := sparkey_hash_close (o, Some myhashreader) in (r, o));
  mret tt.

(** *** The whole test *)

(** Closing an iterator frees memory and does nothing else. *)
Definition verify (fuel : nat) (compression blocksize hashsize num_puts num_deletes num_puts2 : Z) : MX unit :=
  _ ← write_test_log compression blocksize num_puts num_deletes num_puts2;
  _ ← check_log fuel num_puts num_deletes num_puts2;
  check_hash fuel hashsize num_puts num_deletes num_puts2.

Definition empty_log (line : Z) (filename : string) : MX unit :=
  rc ← call (sparkey_logwriter_create filename SPARKEY_COMPRESSION_NONE 4096);
  writer ← success line rc;
  rr ← close_ref writer;
  _ ← success (line + 2) rr.1;
  _assert_equals (line + 3) 1 (if decide (rr.2 = None) then 1 else 0).

Definition verify_files_closed (fuel : nat) : MX unit :=
  _ ← empty_log 235 "test1.spl";
  _ ← empty_log 240 "test2.spl";
  rc ← call (sparkey_hash_write fuel "test1.spi" "test1.spl" 0);
  _ ← success 246 rc;
  rc ← call (sparkey_hash_open "test1.spi" "test2.spl");
  _assert_equals 256 (returncode_value SPARKEY_FILE_IDENTIFIER_MISMATCH)
    (match rc with inr _ => returncode_value SPARKEY_SUCCESS | inl rc => returncode_value rc end).

(** The arguments of the calls of [verify] in [main]. *)
Record test_run : Type := Run {
  t_compression : Z; t_blocksize : Z; t_hashsize : Z;
  t_num_puts : Z; t_num_deletes : Z; t_num_puts2 : Z
}.

Fixpoint run_all (fuel : nat) (runs : list test_run) : MX unit :=
  match runs with
  | [] => mret tt
  | Run compression blocksize hashsize num_puts num_deletes num_puts2 :: runs =>
      _ ← verify fuel compression blocksize hashsize num_puts num_deletes num_puts2; run_all fuel runs
  end.

Definition plain_runs : list test_run := [
  Run SPARKEY_COMPRESSION_NONE 0 0 0 0 0; Run SPARKEY_COMPRESSION_NONE 0 0 1 0 0;
  Run SPARKEY_COMPRESSION_NONE 0 0 100 0 0; Run SPARKEY_COMPRESSION_NONE 0 0 0 100 0;
  Run SPARKEY_COMPRESSION_NONE 0 0 0 0 100; Run SPARKEY_COMPRESSION_NONE 0 0 100 10 5 ].

Definition codec_runs (t : Z) : list test_run := [
  Run t 10 0 100 0 0; Run t 20 0 100 0 0; Run t 100 0 100 0 0; Run t 100 0 1000 0 0;
  Run t 1000 0 1000 0 0; Run t 100 0 1000 100 0; Run t 100 0 1000 100 50;
  Run t 100 4 1000 0 0; Run t 100 8 1000 0 0 ].

(** The loop over the types of compression. *)
Fixpoint codec_loop (fuel todo : nat) (t : Z) : MX unit :=
  match todo with
  | O => mret tt
  | S todo => _ ← run_all fuel (codec_runs t); codec_loop fuel todo (t + 1)
  end.

Definition main (fuel : nat) : MX Z :=
  _ ← run_all fuel plain_runs;
  _ ← codec_loop fuel (Z.to_nat (SPARKEY_COMPRESSION_ZSTD - SPARKEY_COMPRESSION_SNAPPY + 1))
        SPARKEY_COMPRESSION_SNAPPY;
  _ ← verify_files_closed fuel;
  _ ← printf ["Success!"%string];
  mret 0.

End SystemTest.

(** ** The checks *)

Section Checks.
Context {C : Codec} (file : string).

Lemma equals_same line n p : _assert_equals file line n n p = (Ok tt, p).
Proof. unfold _assert_equals. by rewrite decide_False by tauto. Qed.

Lemma success_run {A} line (a : A) p : success file line (inr a) p = (Ok a, p).
Proof. unfold success. by rewrite (bind_Ok _ _ _ _ _ (equals_same line _ p)). Qed.

Lemma int_of_run n p : - 2 ^ 31 ≤ n < 2 ^ 31 → int_of n p = (Ok n, p).
Proof. intros Hn. unfold int_of. by rewrite decide_True. Qed.

(** A string that ends can be read. *)
Lemma strlen_ends l : is_Some (strlen (l ++ [0])).
Proof.
  induction l as [|c l [n IH]]; [by eexists|]. cbn. case_decide; [by eexists|].
  unfold strlen in IH. rewrite IH. by eexists.
Qed.

Lemma str_equals_same line s p :
  _assert_str_equals file line (Some (c_string s)) (Some (string_bytes s ++ [0])) p = (Ok tt, p).
Proof.
  unfold _assert_str_equals, c_string, cstring. rewrite drop_0.
  destruct (strlen_ends (string_bytes s)) as [n ->]. cbn [mbind option_bind]. rewrite !bind_of_opt.
  by rewrite decide_False by tauto.
Qed.

Lemma fill_checked_run line fill bs i i' p :
  os_sched (c_os p) = [] → fill (zlen bs) i = (Ok bs, i') → zlen bs < 2 ^ 63 →
  fill_checked file line fill (zlen bs) i p = (Ok (Some (bs ++ [0]), i'), p).
Proof.
  intros Hs Hfill Hlen. unfold fill_checked, calloc. rewrite bind_assoc.
  rewrite (bind_Ok _ _ _ _ _ (malloc_call p Hs)), bind_ret, decide_True by done.
  rewrite (bind_Ok _ _ _ _ _ (call_iter_Ok _ _ _ _ _ Hfill)). cbn [fst snd].
  rewrite (bind_Ok _ _ _ _ _ (success_run _ _ _)), u64_id by lia. unfold fill_zeroed.
  rewrite decide_True by (rewrite length_replicate; lia).
  rewrite bind_of_opt, (bind_Ok _ _ _ _ _ (equals_same _ _ _)). do 4 f_equal.
  rewrite drop_replicate. by replace (_ - _)%nat with 1%nat by lia.
Qed.

(** ** What is written *)

Definition put_of (prefix : string) (i : Z) : entry := Put (key_bytes i) (string_bytes (numbered prefix i)).
Definition delete_of (i : Z) : entry := Delete (key_bytes i).

Definition test_entries (num_puts num_deletes num_puts2 : Z) : list entry :=
  (put_of "value" <$> seqZ 0 num_puts) ++ (delete_of <$> seqZ 0 num_deletes) ++
  (put_of "newvalue" <$> seqZ 0 num_puts2).

Lemma add_entries_app a b s s' :
  add_entries (a ++ b) s = (Ok tt, s') →
  ∃ s1, add_entries a s = (Ok tt, s1) ∧ add_entries b s1 = (Ok tt, s').
Proof.
  revert s. induction a as [|e a IH]; intros s Hrun; [by exists s|]. cbn [app add_entries] in Hrun |- *.
  destruct (add_entry e s) as [[[]|rc| |] s1] eqn:E; try (unfold mbind, M_bind in Hrun; by rewrite E in Hrun).
  rewrite (bind_Ok _ _ _ _ _ E) in Hrun. rewrite (bind_Ok _ _ _ _ _ E). by apply IH.
Qed.

Lemma add_entries_cons e es s s' :
  add_entries (e :: es) s = (Ok tt, s') →
  ∃ s1, add_entry e s = (Ok tt, s1) ∧ add_entries es s1 = (Ok tt, s').
Proof.
  intros (s1 & Ha & Hb)%(add_entries_app [e]). exists s1. split; [|done]. cbn [add_entries] in Ha.
  destruct (add_entry e s) as [[[]|rc| |] s2] eqn:E; unfold mbind, M_bind in Ha; rewrite E in Ha; by simplify_eq.
Qed.

Lemma call_writer_Ok {A} (m : MC WS A) w a o' w' p :
  m (c_os p, w) = (Ok a, (o', w')) → call_writer w m p = (Ok (inr a, w'), set_c_os o' p).
Proof. intros H. unfold call_writer. by rewrite H. Qed.

Lemma put_loop_run line prefix todo i w p o' w' :
  add_entries (put_of prefix <$> seqZ i (Z.of_nat todo)) (c_os p, w) = (Ok tt, (o', w')) →
  put_loop file line prefix todo i w p = (Ok w', set_c_os o' p).
Proof.
  revert i w p. induction todo as [|todo IH]; intros i w p Hadd; [injection Hadd as <- <-; by destruct p|].
  rewrite seqZ_cons in Hadd by lia. replace (Z.pred _) with (Z.of_nat todo) in Hadd by lia.
  apply add_entries_cons in Hadd as ([o1 w1] & He & Hrest). cbn [put_loop].
  rewrite (bind_Ok _ _ _ _ _ (call_writer_Ok _ _ _ _ _ _ He)). cbn [fst snd].
  rewrite (bind_Ok _ _ _ _ _ (success_run _ _ _)). by apply (IH (i + 1) w1 (set_c_os o1 p)).
Qed.

Lemma delete_loop_run line todo i w p o' w' :
  add_entries (delete_of <$> seqZ i (Z.of_nat todo)) (c_os p, w) = (Ok tt, (o', w')) →
  delete_loop file line todo i w p = (Ok w', set_c_os o' p).
Proof.
  revert i w p. induction todo as [|todo IH]; intros i w p Hadd; [injection Hadd as <- <-; by destruct p|].
  rewrite seqZ_cons in Hadd by lia. replace (Z.pred _) with (Z.of_nat todo) in Hadd by lia.
  apply add_entries_cons in Hadd as ([o1 w1] & He & Hrest). cbn [delete_loop].
  rewrite (bind_Ok _ _ _ _ _ (call_writer_Ok _ _ _ _ _ _ He)). cbn [fst snd].
  rewrite (bind_Ok _ _ _ _ _ (success_run _ _ _)). by apply (IH (i + 1) w1 (set_c_os o1 p)).
Qed.

Lemma close_ref_run w o' q p :
  sparkey_logwriter_close (c_os p, Some w) = (Ok tt, (o', q)) → close_ref w p = (Ok (inr tt, q), set_c_os o' p).
Proof. intros H. unfold close_ref. by rewrite H. Qed.

Lemma write_test_log_run t bs np nd np2 o' p :
  0 ≤ np → 0 ≤ nd → 0 ≤ np2 →
  write_log "test.spl" t bs (test_entries np nd np2) (c_os p) = (Ok tt, o') →
  write_test_log file t bs np nd np2 p = (Ok tt, set_c_os o' p).
Proof.
  intros Hnp Hnd Hnp2 (w & o1 & o2 & w2 & q & Hc & Ha & Hcl)%write_log_steps.
  apply add_entries_app in Ha as ([o3 w3] & Hputs & Ha).
  apply add_entries_app in Ha as ([o4 w4] & Hdels & Hputs2). unfold write_test_log.
  rewrite (bind_Ok _ _ _ _ _ (call_Ok _ _ _ p Hc)), (bind_Ok _ _ _ _ _ (success_run _ _ _)).
  erewrite bind_Ok; [|eapply (put_loop_run _ _ _ _ _ (set_c_os o1 p)); rewrite Z2Nat.id by done; exact Hputs].
  erewrite bind_Ok; [|eapply (delete_loop_run _ _ _ _ (set_c_os o3 _)); rewrite Z2Nat.id by done; exact Hdels].
  erewrite bind_Ok; [|eapply (put_loop_run _ _ _ _ _ (set_c_os o4 _)); rewrite Z2Nat.id by done; exact Hputs2].
  erewrite bind_Ok; [|by apply (close_ref_run w2 o' q)]. apply success_run.
Qed.

End Checks.

(** ** Reading the log *)

(** The numbers of entries do not overflow an [int]. *)
Definition sizes_ok (np nd np2 : Z) : Prop := 0 ≤ np ∧ 0 ≤ nd ∧ 0 ≤ np2 ∧ np + nd + np2 + 100 < 2 ^ 31.

Lemma fmap_seqZ_lookup {A} (f : Z → A) m k n :
  (f <$> seqZ m k) !! n = if decide (Z.of_nat n < k) then Some (f (m + Z.of_nat n)) else None.
Proof.
  rewrite list_lookup_fmap. case_decide as Hn; [by rewrite lookup_seqZ_lt|by rewrite lookup_seqZ_ge by lia].
Qed.

Lemma fmap_seqZ_length {A} (f : Z → A) m k : length (f <$> seqZ m k) = Z.to_nat k.
Proof. by rewrite length_fmap, length_seqZ. Qed.

Lemma test_entries_length np nd np2 :
  sizes_ok np nd np2 → zlen (test_entries np nd np2) = np + nd + np2.
Proof. intros (? & ? & ? & _). unfold test_entries. rewrite !length_app, !fmap_seqZ_length. lia. Qed.

Section LogLoop.
Context {C : Codec} (file : string) (np nd np2 : Z) (Hsz : sizes_ok np nd np2).

(** What the test expects of an entry is what was written. *)
Lemma expected_entry_run n e p :
  test_entries np nd np2 !! n = Some e →
  ∃ id prefix, expected_entry np nd (Z.of_nat n + 1) p =
      (Ok (if is_put e then SPARKEY_ENTRY_PUT else SPARKEY_ENTRY_DELETE, id, prefix), p) ∧
    entry_key e = string_bytes (numbered "key" id) ∧ (is_put e = true → entry_value e = string_bytes (numbered prefix id)).
Proof.
  intros He. pose proof Hsz as (? & ? & ? & ?). unfold expected_entry. revert He. unfold test_entries.
  rewrite lookup_app, fmap_seqZ_lookup, fmap_seqZ_length. case_decide as Hn1.
  { intros [= <-]. rewrite decide_True by lia. eexists _, _. split; [reflexivity|].
    by replace (0 + Z.of_nat n) with (Z.of_nat n + 1 - 1) by lia. }
  rewrite decide_False by lia. rewrite (bind_Ok _ _ _ _ _ (int_of_run (np + nd) p ltac:(lia))).
  rewrite lookup_app, fmap_seqZ_lookup, fmap_seqZ_length. case_decide as Hn2.
  { intros [= <-]. rewrite decide_True by lia. eexists _, _. split; [reflexivity|]. cbn [entry_key delete_of is_put]; unfold key_bytes.
    by replace (0 + Z.of_nat (n - Z.to_nat np)) with (Z.of_nat n + 1 - np - 1) by lia. }
  rewrite decide_False by lia. rewrite fmap_seqZ_lookup. case_decide as Hn3; [|done]. intros [= <-].
  eexists _, _. split; [reflexivity|].
  by replace (0 + Z.of_nat (n - Z.to_nat np - Z.to_nat nd)) with (Z.of_nat n + 1 - np - nd - 1) by lia.
Qed.

Context {log : sparkey_logreader} {es : list entry} {L : LogCursor log es}.

(** Key and value of the current entry, as the test reads them. *)
Lemma fill_entry_run kline vline n e i p :
  cur_key n 0 i → es !! n = Some e → os_sched (c_os p) = [] →
  ∃ i1 i2,
    fill_checked file kline (sparkey_logiter_fill_key log) (i_keylen i) i p =
      (Ok (Some (entry_key e ++ [0]), i1), p) ∧
    fill_checked file vline (sparkey_logiter_fill_value log) (i_valuelen i1) i1 p =
      (Ok (Some (entry_value e ++ [0]), i2), p) ∧
    cur_before (S n) i2 ∧ cur_ready i2 ∧ describes e i2.
Proof.
  intros Hk He Hs. destruct (cur_key_describes _ _ _ _ Hk He) as (_ & _ & Hkl & _).
  destruct (cur_entries_ok n e He) as [_ Hlen].
  destruct (fill_key_spec n e i (zlen (entry_key e)) Hk He ltac:(lia)) as (i1 & Hf & Hk1).
  destruct (cur_key_describes _ _ _ _ Hk1 He) as (_ & _ & _ & Hvl).
  destruct (fill_value_spec n _ e i1 (zlen (entry_value e)) Hk1 He ltac:(lia)) as (i2 & Hv & Hrest).
  exists i1, i2. rewrite Hkl, Hvl. split; [|split; [|done]]; apply fill_checked_run; (done || lia).
Qed.

Lemma log_loop_run fuel n i p :
  es = test_entries np nd np2 → cur_before n i → (n ≤ length es)%nat → (length es - n < fuel)%nat →
  os_sched (c_os p) = [] →
  ∃ i', log_loop file fuel np nd log i (Z.of_nat n) p = (Ok (zlen es, i'), p).
Proof.
  intros Hes. revert n i. induction fuel as [|fuel IH]; intros n i Hb Hn Hf Hs; [lia|].
  cbn [log_loop]. unfold sparkey_logiter_state. destruct (decide (n = length es)) as [->|Hne].
  - destruct (cur_next_end i Hb) as (i1 & Hnext & Hst & _).
    rewrite (bind_Ok _ _ _ _ _ (call_iter_Ok _ _ _ _ _ Hnext)). cbn [fst snd].
    rewrite (bind_Ok _ _ _ _ _ (success_run _ _ _ _)), Hst, decide_True by done. by eexists.
  - destruct (lookup_lt_is_Some_2 es n) as [e He]; [lia|].
    destruct (cur_next n e i Hb He) as (i1 & Hnext & Hk & _).
    rewrite (bind_Ok _ _ _ _ _ (call_iter_Ok _ _ _ _ _ Hnext)). cbn [fst snd].
    destruct (cur_key_describes _ _ _ _ Hk He) as (Hst & _).
    rewrite (bind_Ok _ _ _ _ _ (success_run _ _ _ _)), Hst, decide_False by tauto.
    pose proof Hsz as (? & ? & ? & ?). pose proof (test_entries_length np nd np2 Hsz) as Hlen. rewrite <- Hes in Hlen.
    rewrite (bind_Ok _ _ _ _ _ (int_of_run (Z.of_nat n + 1) p ltac:(lia))).
    destruct (fill_entry_run 105 111 n e i1 p Hk He Hs) as (i2 & i3 & Hfk & Hfv & Hb3 & _ & _ & Hty & _).
    unfold sparkey_logiter_keylen, sparkey_logiter_valuelen, sparkey_logiter_type.
    rewrite (bind_Ok _ _ _ _ _ Hfk). cbn [fst snd]. rewrite (bind_Ok _ _ _ _ _ Hfv). cbn [fst snd].
    destruct (expected_entry_run n e p ltac:(by rewrite <- Hes)) as (id & prefix & Hex & Hkey & Hval).
    rewrite (bind_Ok _ _ _ _ _ Hex), Hty, (bind_Ok _ _ _ _ _ (equals_same _ _ _ _)).
    rewrite Hkey, (bind_Ok _ _ _ _ _ (str_equals_same _ _ _ _)).
    destruct (IH (S n) i3 Hb3 ltac:(lia) ltac:(lia) Hs) as (i' & Hrun).
    replace (Z.of_nat (S n)) with (Z.of_nat n + 1) in Hrun by lia. exists i'.
    destruct (is_put e); [rewrite decide_True by done|rewrite decide_False by done]; [|by rewrite bind_ret].
    rewrite (Hval eq_refl), (bind_Ok _ _ _ _ _ (str_equals_same _ _ _ _)). exact Hrun.
Qed.

End LogLoop.

(** ** The live entries *)

Lemma max_is a b : max a b = Z.max a b.
Proof. unfold max. case_decide; lia. Qed.

#[local] Instance string_bytes_inj : Inj (=) (=) string_bytes.
Proof.
  intros a b H. rewrite <- (String.string_of_list_ascii_of_string a), <- (String.string_of_list_ascii_of_string b).
  f_equal. unfold string_bytes in H. apply list_fmap_eq_inj in H; [done|].
  intros x y Hxy%Nat2Z.inj. rewrite <- (ascii_nat_embedding x), <- (ascii_nat_embedding y). by rewrite Hxy.
Qed.

Lemma key_bytes_inj i j : 0 ≤ i < 2 ^ 31 → 0 ≤ j < 2 ^ 31 → key_bytes i = key_bytes j → i = j.
Proof.
  intros Hi Hj H. assert (Hn : numbered "key" i = numbered "key" j) by by apply (inj string_bytes).
  unfold numbered in Hn. cbn in Hn. injection Hn as Hn.
  assert (Hs : s32 i = s32 j) by by apply (inj pretty). by rewrite !s32_id in Hs by lia.
Qed.

Lemma keys_of_puts prefix m n : entry_key <$> (put_of prefix <$> seqZ m n) = key_bytes <$> seqZ m n.
Proof. by rewrite <- list_fmap_compose. Qed.

Lemma keys_of_deletes m n : entry_key <$> (delete_of <$> seqZ m n) = key_bytes <$> seqZ m n.
Proof. by rewrite <- list_fmap_compose. Qed.

Lemma key_in i n : 0 ≤ i < 2 ^ 31 → n ≤ 2 ^ 31 → key_bytes i ∈ key_bytes <$> seqZ 0 n ↔ i < n.
Proof.
  intros Hi Hn. rewrite list_elem_of_fmap. setoid_rewrite elem_of_seqZ. split.
  - intros (j & Hij & Hj). apply key_bytes_inj in Hij; lia.
  - intros Hin. exists i. split; [done|lia].
Qed.

Lemma live_puts prefix m n :
  0 ≤ m → m + n ≤ 2 ^ 31 → live_entries (put_of prefix <$> seqZ m n) = put_of prefix <$> seqZ m n.
Proof.
  intros Hm Hn. apply live_entries_puts; [by apply Forall_fmap, Forall_true|]. rewrite keys_of_puts.
  apply NoDup_fmap_2_strong; [|apply NoDup_seqZ]. intros i j [Hi1 Hi2]%elem_of_seqZ [Hj1 Hj2]%elem_of_seqZ.
  apply key_bytes_inj; lia.
Qed.

(** What the test expects of the scan, and what the log has. *)
Definition test_live (np nd np2 : Z) : list entry :=
  (put_of "value" <$> seqZ (Z.max nd np2) (np - Z.max nd np2)) ++ (put_of "newvalue" <$> seqZ 0 np2).

Lemma filter_seqZ (P : entry → Prop) `{∀ e, Decision (P e)} prefix n m :
  (∀ i, 0 ≤ i < n → P (put_of prefix i) ↔ m ≤ i) → 0 ≤ m → 0 ≤ n →
  base.filter P (put_of prefix <$> seqZ 0 n) = put_of prefix <$> seqZ m (n - m).
Proof.
  intros HP Hm Hn. replace n with (Z.min m n + Z.max 0 (n - m)) at 1 by lia.
  rewrite seqZ_app, fmap_app, list.filter_app by lia.
  rewrite (filter_none P (put_of prefix <$> seqZ 0 _)).
  2:{ apply Forall_fmap, list.Forall_forall. intros i [? ?]%elem_of_seqZ. cbn. rewrite HP; lia. }
  rewrite filter_all.
  2:{ apply Forall_fmap, list.Forall_forall. intros i [? ?]%elem_of_seqZ. cbn. apply HP; lia. }
  cbn [app]. destruct (decide (m ≤ n)).
  - by replace (0 + Z.min m n) with m by lia; replace (Z.max 0 (n - m)) with (n - m) by lia.
  - by rewrite !seqZ_nil by lia.
Qed.

Lemma test_live_entries np nd np2 :
  sizes_ok np nd np2 → live_entries (test_entries np nd np2) = test_live np nd np2.
Proof.
  intros (? & ? & ? & ?). unfold test_entries, test_live. rewrite !live_entries_app, !live_puts by lia.
  rewrite (live_entries_deletes (delete_of <$> _)) by (by apply Forall_fmap, Forall_true). f_equal.
  apply filter_seqZ; [|lia..]. intros i Hi. rewrite fmap_app, keys_of_puts, keys_of_deletes, elem_of_app.
  cbn [entry_key put_of]. rewrite !key_in by lia. lia.
Qed.

Lemma test_live_length np nd np2 :
  sizes_ok np nd np2 → zlen (test_live np nd np2) = max 0 (np - max nd np2) + np2.
Proof. intros (? & ? & ? & _). unfold test_live. rewrite !length_app, !fmap_seqZ_length, !max_is. lia. Qed.

Lemma test_replay np nd np2 i :
  sizes_ok np nd np2 → 0 ≤ i < 2 ^ 31 →
  replay (test_entries np nd np2) !! key_bytes i =
    if decide (i < np2) then Some (string_bytes (numbered "newvalue" i))
    else if decide (i >= nd ∧ i < np) then Some (string_bytes (numbered "value" i)) else None.
Proof.
  intros Hsz Hi. pose proof Hsz as (? & ? & ? & ?).
  assert (Hin : ∀ prefix m n v, 0 ≤ m → m + n ≤ 2 ^ 31 → Put (key_bytes i) v ∈ put_of prefix <$> seqZ m n ↔
    m ≤ i < m + n ∧ v = string_bytes (numbered prefix i)).
  { intros prefix m n v Hm Hn. rewrite list_elem_of_fmap. setoid_rewrite elem_of_seqZ. split.
    - intros (j & Heq & Hj). pose proof (f_equal entry_key Heq) as Hk. pose proof (f_equal entry_value Heq) as Hv.
      cbn [entry_key entry_value put_of] in Hk, Hv. apply key_bytes_inj in Hk; [|lia..]. by subst j v.
    - intros [Hr ->]. by exists i. }
  apply option_eq. intros v. rewrite replay_live, test_live_entries by done. unfold test_live.
  rewrite elem_of_app, !Hin by lia. repeat case_decide; split; (intros [[? ->]|[? ->]] || intros [= <-] || done);
    (done || lia || (left; split; [lia|done]) || (right; split; [lia|done])).
Qed.

(** ** The scan and the lookups *)

(** Ten digits are enough for a number. *)
Lemma pretty_N_length k x s :
  (x < 10 ^ N.of_nat k)%N → (String.length (pretty_N_go x s) ≤ k + String.length s)%nat.
Proof.
  revert x s. induction k as [|k IH]; intros x s Hx.
  { change (x < 1)%N in Hx. assert (x = 0%N) as -> by lia. by rewrite pretty_N_go_0. }
  destruct (decide (x = 0%N)) as [->|Hne].
  { rewrite pretty_N_go_0. lia. }
  rewrite pretty_N_go_step by lia. etrans; [apply IH|cbn; lia].
  apply N.Div0.div_lt_upper_bound. by rewrite Nat2N.inj_succ, N.pow_succ_r' in Hx.
Qed.

Lemma numbered_length prefix i :
  0 ≤ i < 2 ^ 31 → zlen (string_bytes (numbered prefix i)) ≤ Z.of_nat (String.length prefix) + 11.
Proof.
  intros Hi. unfold string_bytes. rewrite length_fmap.
  assert (Hlen : ∀ s, length (String.list_ascii_of_string s) = String.length s)
    by (induction s as [|c s IH]; cbn; [done|by rewrite IH]).
  rewrite Hlen. unfold numbered, percent_d. rewrite s32_id, !string_app_length by lia. change (String.length "_") with 1%nat.
  destruct i as [|x|x]; [change (String.length (pretty 0)) with 1%nat; lia| |lia].
  change (pretty (Zpos x)) with (if decide (Npos x = 0%N) then "0"%string else pretty_N_go (Npos x) "").
  rewrite decide_False by done.
  pose proof (pretty_N_length 10 (Npos x) "" ltac:(change (Npos x < 10000000000)%N; lia)) as Hd.
  cbn [String.length] in Hd. lia.
Qed.

Lemma key_length i : 0 ≤ i < 2 ^ 31 → zlen (key_bytes i) ≤ 14.
Proof. intros Hi. exact (numbered_length "key" i Hi). Qed.

Section IndexLoops.
Context {C : Codec} (file : string) (np nd np2 : Z) (Hsz : sizes_ok np nd np2).

Lemma expected_live_run k e p :
  test_live np nd np2 !! k = Some e →
  ∃ id prefix, expected_live nd np2 (max 0 (np - max nd np2)) (Z.of_nat k + 1) p = (Ok (id, prefix), p) ∧
    e = put_of prefix id.
Proof.
  intros He. pose proof Hsz as (? & ? & ? & ?). unfold expected_live. rewrite !max_is. revert He. unfold test_live.
  rewrite lookup_app, fmap_seqZ_lookup, fmap_seqZ_length. case_decide as Hk.
  - intros [= <-]. rewrite decide_True by lia. rewrite (bind_Ok _ _ _ _ _ (int_of_run (Z.max nd np2 + (Z.of_nat k + 1)) p ltac:(lia))).
    eexists _, _. split; [reflexivity|]. f_equal. lia.
  - rewrite fmap_seqZ_lookup. case_decide as Hk2; [|done]. intros [= <-]. rewrite decide_False by lia.
    eexists _, _. split; [reflexivity|]. f_equal. lia.
Qed.

Context {log : sparkey_logreader} {es : list entry} {L : LogCursor log es}.

Lemma scan_loop_run reader tbl fuel n k i p :
  reader_on reader tbl → keys_short (es := es) → es = test_entries np nd np2 →
  cur_before n i → (n ≤ length es)%nat → (length es - n < fuel)%nat →
  live_entries (drop n es) = drop k (test_live np nd np2) → (k ≤ length (test_live np nd np2))%nat →
  os_sched (c_os p) = [] →
  ∃ i', scan_loop file fuel nd np2 (max 0 (np - max nd np2)) reader i (Z.of_nat k) p =
      (Ok (zlen (test_live np nd np2), i'), p) ∧ cur_ready i'.
Proof.
  intros Hon Hshort Hes. pose proof Hon as (Hst & Hlog & _ & Hh & Ha & _).
  revert n k i. induction fuel as [|fuel IH]; intros n k i Hb Hn Hf Hlive Hk Hs; [lia|].
  destruct (hashnext_spec (length es) (le_n _) reader tbl (S fuel) n i Hon Hshort Hb Hn Hf) as (i1 & Hnext & Hm).
  assert (Hcall : sparkey_logiter_hashnext (S fuel) reader i = (Ok tt, i1)).
  { unfold sparkey_logiter_hashnext, assert_reader_open. rewrite decide_False by tauto. by rewrite bind_ret. }
  cbn [scan_loop]. rewrite (bind_Ok _ _ _ _ _ (call_iter_Ok _ _ _ _ _ Hcall)). cbn [fst snd].
  rewrite (bind_Ok _ _ _ _ _ (success_run _ _ _ _)). unfold sparkey_logiter_state.
  rewrite (live_from_entries _ (le_n _)), firstn_all, Hlive in Hm by done.
  destruct (decide (k = length (test_live np nd np2))) as [->|Hne].
  - rewrite drop_all in Hm. destruct Hm as [Hcl Hr]. rewrite Hcl, decide_True by done. by exists i1.
  - destruct (lookup_lt_is_Some_2 (test_live np nd np2) k) as [e He]; [lia|].
    rewrite (drop_S _ _ _ He) in Hm. destruct Hm as (m & Hnm & Hem & Hkey & Hrest).
    rewrite (live_from_entries _ (le_n _)), firstn_all in Hrest by (done || (apply lookup_lt_Some in Hem; lia)).
    destruct (cur_key_describes _ _ _ _ Hkey Hem) as (Hact & _). rewrite Hact, decide_False by tauto.
    pose proof Hsz as (? & ? & ? & ?). pose proof (test_live_length np nd np2 Hsz) as Hlen. rewrite !max_is in Hlen.
    rewrite (bind_Ok _ _ _ _ _ (int_of_run (Z.of_nat k + 1) p ltac:(lia))).
    destruct (fill_entry_run file 167 173 m e i1 p Hkey Hem Hs) as (i2 & i3 & Hfk & Hfv & Hb3 & _ & _ & Hty & _).
    unfold sparkey_logiter_keylen, sparkey_logiter_valuelen, sparkey_logiter_type, sparkey_hash_getreader.
    rewrite Hlog, (bind_Ok _ _ _ _ _ Hfk). cbn [fst snd]. rewrite (bind_Ok _ _ _ _ _ Hfv). cbn [fst snd].
    destruct (expected_live_run k e p He) as (id & prefix & Hex & ->).
    rewrite Hty, (bind_Ok _ _ _ _ _ (equals_same _ _ _ _)), (bind_Ok _ _ _ _ _ Hex).
    cbn [entry_key entry_value put_of]. unfold key_bytes.
    rewrite !(bind_Ok _ _ _ _ _ (str_equals_same _ _ _ _)).
    replace (Z.of_nat k + 1) with (Z.of_nat (S k)) by lia. pose proof (lookup_lt_Some _ _ _ Hem).
    by apply (IH (S m) (S k) i3 Hb3); (done || lia).
Qed.

Lemma get_loop_run reader tbl todo i iter p :
  reader_on reader tbl → es = test_entries np nd np2 → cur_ready iter → 0 ≤ i →
  i + Z.of_nat todo < 2 ^ 31 → os_sched (c_os p) = [] →
  ∃ iter', get_loop file np nd np2 reader todo i iter p = (Ok iter', p).
Proof.
  intros Hon Hes. pose proof Hon as (_ & Hlog & _). revert i iter.
  induction todo as [|todo IH]; intros i iter Hr Hi Htodo Hs; [by exists iter|].
  destruct (hash_get_replay reader tbl (key_bytes i) iter Hon Hr (string_bytes_ok _)
    ltac:(pose proof (key_length i ltac:(lia)); lia))
    as (i1 & Hget & Hr1 & Hf).
  cbn [get_loop]. rewrite (bind_Ok _ _ _ _ _ (call_iter_Ok _ _ _ _ _ Hget)). cbn [fst snd].
  rewrite (bind_Ok _ _ _ _ _ (success_run _ _ _ _)). unfold sparkey_logiter_state, sparkey_logiter_valuelen.
  assert (Hrep := test_replay np nd np2 i Hsz ltac:(lia)). rewrite <- Hes in Hrep. rewrite Hrep in Hf.
  assert (Hfound : ∀ value, (∃ n off, es !! n = Some (Put (key_bytes i) (string_bytes value)) ∧
      cur_key n off i1) → i_state i1 = SPARKEY_ITER_ACTIVE ∧ ∃ i2,
    fill_checked file 221 (sparkey_logiter_fill_value log) (i_valuelen i1) i1 p =
      (Ok (Some (string_bytes value ++ [0]), i2), p) ∧ cur_ready i2).
  { intros value (n & off & He & Hk).
    destruct (cur_key_describes _ _ _ _ Hk He) as (Hact & _ & _ & ->). split; [done|].
    destruct (cur_entries_ok n _ He) as [_ Hlen].
    destruct (fill_value_spec n off _ i1 (zlen (string_bytes value)) Hk He ltac:(cbn; lia)) as (i2 & Hv & _ & Hr2 & _).
    exists i2. split; [|done]. apply fill_checked_run; [done|done|cbn in Hlen; lia]. }
  unfold sparkey_hash_getreader. rewrite Hlog.
  destruct (decide (i < np2)) as [Hnew|Hnew]; [|destruct (decide (i >= nd ∧ i < np)) as [Hold|Hold]].
  1, 2: destruct (Hfound _ Hf) as (Hact & i2 & Hfill & Hr2); rewrite Hact, bind_assoc,
    (bind_Ok _ _ _ _ _ (equals_same _ _ _ _)), bind_ret, decide_True by done;
    rewrite bind_assoc, (bind_Ok _ _ _ _ _ Hfill), bind_assoc, bind_of_opt, bind_assoc; cbn [fst snd];
    rewrite (bind_Ok _ _ _ _ _ (str_equals_same _ _ _ _)), bind_ret; apply IH; (done || lia).
  rewrite Hf, bind_assoc, (bind_Ok _ _ _ _ _ (equals_same _ _ _ _)), bind_ret, decide_False, bind_ret by done.
  apply IH; (done || lia).
Qed.

End IndexLoops.

(** ** The whole test *)

(** What is at the name of the index before: nothing, or the index of another log,
    which is what an earlier test leaves. *)
Definition no_index_of {C : Codec} (o : os) (name : string) (id : Z) : Prop :=
  os_names o !! name = None ∨
  ∃ S h tbl, has_file o name (hashheader_bytes h ++ tbl) ∧ stored_index S h tbl ∧ st_id S ≠ id.

Lemma no_index_before {C : Codec} o name S hash_size :
  no_index_of o name (st_id S) → (4 ≤ length (os_entropy o))%nat → bytes_ok (os_entropy o) →
  index_before o name S hash_size.
Proof.
  intros [Hn|(S0 & h & tbl & Hf & Hidx & Hid)] He Hb; [by apply no_index|].
  destruct (Hidx _ (some_reader_opened S0)) as (_ & Hty & Hval & Hmaj & Hmin & Heq & _).
  apply (unrelated_file _ _ _ _ (hashheader_bytes h ++ tbl)); try done. apply header_foreign; try done.
  unfold st_id in *. congruence.
Qed.

Lemma logreader_close_run o log :
  r_open_status log = MAGIC_VALUE_LOGREADER → is_Some (os_fds o !! r_fd log) →
  sparkey_logreader_close (o, Some log) = (Ok tt, (set_fds (delete (r_fd log) (os_fds o)) o, None)).
Proof.
  intros Hst [x Hx]. unfold sparkey_logreader_close, sparkey_logreader_close_nodealloc.
  rewrite bind_get_snd. cbn [snd]. rewrite decide_False by tauto.
  unfold on_os, zoom, sys_close, mbind, M_bind. cbn [fst snd]. by rewrite Hx.
Qed.

Section Verify.
Context {C : Codec} (file : string) (np nd np2 : Z) (Hsz : sizes_ok np nd np2).
Context (S : stored) (HS : st_entries S = test_entries np nd np2).

Lemma check_log_run fuel rest p :
  has_file (c_os p) "test.spl" (st_file S ++ rest) → os_wf (c_os p) → (length (st_entries S) < fuel)%nat →
  ∃ o', check_log file fuel np nd np2 p = (Ok tt, set_c_os o' p) ∧ same_data (c_os p) o' ∧
    os_fds o' = os_fds (c_os p).
Proof.
  intros Hf Hwf Hfuel. pose proof Hsz as (? & ? & ? & ?).
  destruct (open_stored S _ "test.spl" rest Hf Hwf)
    as (log & o1 & _ & Hopen & Hlog & _ & Hn & Hi & Hs & He & Hwf1 & Hfd & Hdel).
  set (L := st_cursor S log Hlog). destruct (cur_create (LogCursor := L) o1 Hs) as (i & Hc & Hb & _).
  unfold check_log. rewrite (bind_Ok _ _ _ _ _ (call_Ok _ _ _ p Hopen)), (bind_Ok _ _ _ _ _ (success_run _ _ _ _)).
  rewrite (bind_Ok _ _ _ _ _ (call_Ok _ _ _ (set_c_os o1 p) Hc)), (bind_Ok _ _ _ _ _ (success_run _ _ _ _)).
  destruct (log_loop_run file np nd np2 Hsz (L := L) fuel 0 i (set_c_os o1 (set_c_os o1 p)) HS Hb) as (i' & Hrun);
    [lia|lia|done|].
  rewrite (bind_Ok _ _ _ _ _ Hrun), (bind_Ok _ _ _ _ _ (int_of_run (np + nd + np2) _ ltac:(lia))). cbn [fst snd].
  rewrite HS, test_entries_length, (bind_Ok _ _ _ _ _ (equals_same _ _ _ _)) by done.
  erewrite bind_Ok; [|apply call_Ok; cbn [c_os set_c_os]; rewrite (logreader_close_run o1 log (proj1 Hlog) Hfd); reflexivity].
  eexists. split; [reflexivity|]. split; [|done]. split_and!; try done. by apply closed_wf.
Qed.

Lemma check_hash_run fuel hashsize rest p :
  has_file (c_os p) "test.spl" (st_file S ++ rest) → os_wf (c_os p) →
  index_before (c_os p) "test.spi" S hashsize → store_ok S → hashsize = 0 ∨ valid_size hashsize →
  (length (st_entries S) < fuel)%nat →
  ∃ o', check_hash file fuel hashsize np nd np2 p = (Ok tt, set_c_os o' p) ∧ index_after (c_os p) o' "test.spi" S.
Proof.
  intros Hf Hwf Hbefore Hok Hsize Hfuel. pose proof Hsz as (? & ? & ? & ?). pose proof Hok as (Hshort & _).
  destruct (stored_hash_write fuel "test.spi" "test.spl" hashsize S rest _ Hf Hwf Hbefore Hok Hsize Hfuel)
    as (o1 & Hwrite & Hwf1 & Hs1 & Hfds1 & Hent1 & Hn1 & Hi1 & h & tbl & Hf1 & Hidx).
  assert (Hlf1 : has_file o1 "test.spl" (st_file S ++ rest)).
  { destruct Hf as (ino & Hn & Hc & _). exists ino. rewrite (Hn1 "test.spl"%string) by done.
    split_and!; [done|by apply Hi1|done|by apply wf_fresh_fd]. }
  destruct (stored_hash_open _ _ S rest h tbl o1 Hf1 Hlf1 Hwf1 Hidx)
    as (reader & o2 & Hlog & Hopen & (Hn2 & Hi2 & He2 & Hs2 & Hwf2) & (Hfd & Hdel & _) & Hhd & Hon).
  set (L := st_cursor S (hr_log reader) Hlog) in *.
  destruct (cur_create (LogCursor := L) o2 Hs2) as (i & Hc & Hb & _).
  pose proof (test_live_length np nd np2 Hsz) as Hlive. unfold check_hash. cbv zeta. rewrite <- Hlive.
  rewrite (bind_Ok _ _ _ _ _ (int_of_run (zlen (test_live np nd np2)) p ltac:(rewrite Hlive, !max_is; lia))).
  rewrite (bind_Ok _ _ _ _ _ (call_Ok _ _ _ p Hwrite)), (bind_Ok _ _ _ _ _ (success_run _ _ _ _)).
  rewrite (bind_Ok _ _ _ _ _ (call_Ok _ _ _ (set_c_os o1 p) Hopen)), (bind_Ok _ _ _ _ _ (success_run _ _ _ _)).
  rewrite (bind_Ok _ _ _ _ _ (call_Ok _ _ _ (set_c_os o2 (set_c_os o1 p)) Hc)), (bind_Ok _ _ _ _ _ (success_run _ _ _ _)).
  set (q := set_c_os o2 (set_c_os o2 (set_c_os o1 p))).
  destruct (scan_loop_run file np nd np2 Hsz (L := L) reader tbl fuel 0 0 i q Hon Hshort HS Hb) as (i1 & Hscan & Hr1);
    [lia|lia|by rewrite !drop_0, HS, test_live_entries|lia|done|].
  rewrite (bind_Ok _ _ _ _ _ Hscan), (bind_Ok _ _ _ _ _ (equals_same _ _ _ _)).
  rewrite (bind_Ok _ _ _ _ _ (int_of_run (max np np2 + 100) q ltac:(rewrite max_is; lia))). cbn [fst snd].
  destruct (get_loop_run file np nd np2 Hsz (L := L) reader tbl (Z.to_nat (max np np2 + 100)) 0 i1 q Hon HS Hr1)
    as (i2 & Hgets); [done|rewrite max_is; lia|done|].
  rewrite (bind_Ok _ _ _ _ _ Hgets). erewrite bind_Ok.
  2:{ apply call_Ok. cbn [c_os set_c_os q]. rewrite (hash_close_run o2 reader Hfd (proj1 Hlog) (proj1 Hon)). reflexivity. }
  set (o3 := set_fds _ _). exists o3. split; [reflexivity|].
  assert (Hwf3 : os_wf o3) by exact (closed_wf (hr_fd reader) _ (closed_wf (r_fd (hr_log reader)) o2 Hwf2)).
  unfold index_after. split_and!; [done|done| | | | |].
  - cbn. by rewrite Hdel.
  - unfold one_word. cbn. by rewrite He2.
  - intros n Hn. cbn. by rewrite Hn2, Hn1.
  - intros j c Hj. cbn. rewrite Hi2. by apply Hi1.
  - exists h, tbl. split; [|done]. by apply (has_file_same o1).
Qed.

End Verify.

(** The log stays where it is while other files are written. *)
Lemma has_file_kept o o' name c :
  has_file o name c → os_names o' !! name = os_names o !! name →
  (∀ i c, os_inodes o !! i = Some c → os_inodes o' !! i = Some c) → os_sched o' = [] → os_wf o' →
  has_file o' name c.
Proof.
  intros (ino & Hn & Hc & _) Hnames Hi Hs Hwf. exists ino. rewrite Hnames.
  split_and!; [done|by apply Hi|done|by apply wf_fresh_fd].
Qed.

Lemma no_index_kept {C : Codec} o o' name id :
  no_index_of o name id → os_names o' !! name = os_names o !! name →
  (∀ i c, os_inodes o !! i = Some c → os_inodes o' !! i = Some c) → os_sched o' = [] → os_wf o' →
  no_index_of o' name id.
Proof.
  intros [Hn|(S & h & tbl & Hf & Hidx)] Hnames Hi Hs Hwf; [left; by rewrite Hnames|].
  right. exists S, h, tbl. split; [|done]. by apply (has_file_kept o).
Qed.

(** A run of the test on any stored log, and what it leaves. *)
Lemma verify_run {C : Codec} file fuel compression blocksize hashsize np nd np2 S p :
  let o := c_os p in
  sizes_ok np nd np2 → os_sched o = [] → os_wf o → (8 ≤ length (os_entropy o))%nat → bytes_ok (os_entropy o) →
  no_index_of o "test.spi" (seed_of o) →
  written compression blocksize (seed_of o) (test_entries np nd np2) S → store_ok S →
  hashsize = 0 ∨ valid_size hashsize → np + nd + np2 < Z.of_nat fuel →
  ∃ o', verify file fuel compression blocksize hashsize np nd np2 p = (Ok tt, set_c_os o' p) ∧
    os_wf o' ∧ os_sched o' = [] ∧
    (os_entropy o' = drop 4 (os_entropy o) ∨ os_entropy o' = drop 8 (os_entropy o)) ∧
    (∀ fd, os_fds o' !! fd = os_fds o !! fd) ∧
    (∀ n, n ≠ "test.spl"%string → n ≠ "test.spi"%string → os_names o' !! n = os_names o !! n) ∧
    has_file o' "test.spl" (st_file S) ∧
    ∃ h tbl, has_file o' "test.spi" (hashheader_bytes h ++ tbl) ∧ stored_index S h tbl.
Proof.
  intros o Hsz Hs Hwf He Hb Hno Hw Hok Hsize Hfuel. destruct (written_entries _ _ _ _ _ Hw) as [HS Hid].
  pose proof (test_entries_length np nd np2 Hsz) as Hlen. pose proof Hsz as (? & ? & ? & ?).
  destruct (write_stored "test.spl" compression blocksize _ o S Hs Hwf ltac:(lia) Hw)
    as (o1 & Hwrite & Hwf1 & Hs1 & He1 & (ino & Hn1 & Hc1) & Hi1 & Hnames1 & Hfds1).
  assert (Hf1 : has_file o1 "test.spl" (st_file S ++ [])).
  { rewrite app_nil_r. exists ino. split_and!; try done. by apply wf_fresh_fd. }
  unfold verify. rewrite (bind_Ok _ _ _ _ _ (write_test_log_run file _ _ np nd np2 o1 p ltac:(lia) ltac:(lia) ltac:(lia) Hwrite)).
  destruct (check_log_run file np nd np2 Hsz S HS fuel [] (set_c_os o1 p) Hf1 Hwf1 ltac:(rewrite HS; lia))
    as (o2 & Hlog & (Hn2 & Hi2 & He2 & Hs2 & Hwf2) & Hfds2).
  rewrite (bind_Ok _ _ _ _ _ Hlog). cbn [c_os set_c_os] in *.
  assert (Hf2 : has_file o2 "test.spl" (st_file S ++ [])) by (by apply (has_file_same o1)).
  assert (Hbefore : index_before o2 "test.spi" S hashsize).
  { apply no_index_before; rewrite ?He2, ?He1, ?length_drop; [|lia|by apply bytes_ok_drop].
    rewrite Hid. apply (no_index_kept o); try done; [by rewrite Hn2, Hnames1|]. intros j c Hj. rewrite Hi2. by apply Hi1. }
  destruct (check_hash_run file np nd np2 Hsz S HS fuel hashsize [] (set_c_os o2 p) Hf2 Hwf2 Hbefore Hok Hsize
    ltac:(rewrite HS; lia)) as (o3 & Hhash & Hwf3 & Hs3 & Hfds3 & He3 & Hn3 & Hi3 & Hidx).
  change (set_c_os o2 (set_c_os o1 p)) with (set_c_os o2 p). exists o3.
  cbn [c_os set_c_os] in *. split_and!; try done.
  - unfold one_word in He3. rewrite He2, He1, drop_drop in He3. tauto.
  - intros fd. by rewrite Hfds3, Hfds2, Hfds1.
  - intros n Hnl Hni. by rewrite Hn3, Hn2, Hnames1.
  - rewrite app_nil_r in Hf2. apply (has_file_kept o2); try done. by apply Hn3.
Qed.

(** An empty log, and what [empty_log] leaves. *)
Lemma empty_log_ok : log_ok [].
Proof. by split; [constructor|]. Qed.

Lemma empty_log_run {C : Codec} file line filename p :
  let o := c_os p in
  os_sched o = [] → os_wf o → (4 ≤ length (os_entropy o))%nat → bytes_ok (os_entropy o) →
  ∃ o', empty_log file line filename p = (Ok tt, set_c_os o' p) ∧ log_written filename (log_file (seed_of o) []) o o'.
Proof.
  intros o Hs Hwf He Hb.
  destruct (write_log_spec filename 4096 [] o Hs Hwf He empty_log_ok) as (o' & Hrun & Hw). exists o'. split; [|done].
  apply write_log_steps in Hrun as (w & o1 & o2 & w2 & q & Hc & Ha & Hcl). injection Ha as <- <-.
  unfold empty_log. rewrite (bind_Ok _ _ _ _ _ (call_Ok _ _ _ p Hc)), (bind_Ok _ _ _ _ _ (success_run _ _ _ _)).
  rewrite (bind_Ok _ _ _ _ _ (close_ref_run w o' q (set_c_os o1 p) Hcl)). cbn [fst snd].
  rewrite (bind_Ok _ _ _ _ _ (success_run _ _ _ _)).
  assert (q = None) as ->; [|by rewrite decide_True, equals_same].
  destruct (writer_create_spec filename 4096 o Hs Hwf He) as (o2 & w2 & Hc2 & (Hst & _) & _).
  rewrite Hc2 in Hc. injection Hc as <- <-. cbn [snd] in Hst. unfold sparkey_logwriter_close in Hcl.
  rewrite decide_False in Hcl by tauto. by destruct (sparkey_logwriter_flush _) as [[| | |] [? ?]]; simplify_eq.
Qed.

Lemma mismatched_open {C : Codec} name log_name S rest h tbl o :
  has_file o name (hashheader_bytes h ++ tbl) → hashheader_typed h → hashheader_valid h →
  hh_major_version h = HASH_MAJOR_VERSION → hh_minor_version h = HASH_MINOR_VERSION →
  has_file o log_name (st_file S ++ rest) → os_wf o → hh_file_identifier h ≠ st_id S →
  ∃ o', sparkey_hash_open name log_name o = (Err SPARKEY_FILE_IDENTIFIER_MISMATCH, o').
Proof.
  intros Hi Hty Hval Hmaj Hmin Hf Hwf Hid.
  destruct (hash_open_start name log_name S rest h tbl o Hi Hty Hval Hmaj Hmin Hf Hwf)
    as (log & o2 & -> & (_ & Hhd & _) & _). unfold open_index. rewrite Hhd. fold (st_id S).
  rewrite decide_True by done. by eexists.
Qed.

(** The test of mismatched files. *)
Lemma verify_files_closed_run {C : Codec} file fuel p :
  let o := c_os p in
  let id1 := seed_of o in
  let id2 := le_value (take 4 (drop 4 (os_entropy o))) in
  os_sched o = [] → os_wf o → (12 ≤ length (os_entropy o))%nat → bytes_ok (os_entropy o) →
  no_index_of o "test1.spi" id1 → (0 < fuel)%nat →
  let '(r, p') := verify_files_closed file fuel p in
  if decide (id1 = id2)
  then r = Err 1 ∧ c_stdout p' = c_stdout p ++ [(file +:+ ":256: Expected -305 but got 0")%string]
  else r = Ok tt ∧ c_stdout p' = c_stdout p.
Proof.
  intros o id1 id2 Hs Hwf He Hb Hno Hfuel.
  destruct (empty_log_run file 235 "test1.spl" p Hs Hwf ltac:(fold o; lia) Hb)
    as (o1 & Hrun1 & Hwf1 & Hs1 & He1 & (i1 & Hn1 & Hc1) & Hi1 & Hnames1 & _).
  fold o in He1, Hc1, Hi1, Hnames1. fold id1 in Hc1.
  assert (Hb1 : bytes_ok (os_entropy o1)) by (rewrite He1; by apply bytes_ok_drop).
  destruct (empty_log_run file 240 "test2.spl" (set_c_os o1 p) Hs1 Hwf1 ltac:(cbn; rewrite He1, length_drop; lia) Hb1)
    as (o2 & Hrun2 & Hwf2 & Hs2 & He2 & (i2 & Hn2 & Hc2) & Hi2 & Hnames2 & _). cbn [c_os set_c_os] in *.
  assert (Hid2 : seed_of o1 = id2) by (unfold seed_of; by rewrite He1). rewrite Hid2 in Hc2.
  assert (Hr1 : 0 ≤ id1 < 2 ^ 32) by by apply seed_range.
  assert (Hr2 : 0 ≤ id2 < 2 ^ 32) by (rewrite <- Hid2; by apply seed_range).
  set (S1 := plain_stored id1 [] Hr1 empty_log_ok). set (S2 := plain_stored id2 [] Hr2 empty_log_ok).
  assert (Hf1 : has_file o2 "test1.spl" (st_file S1 ++ [])).
  { rewrite app_nil_r. exists i1. rewrite Hnames2 by done. split_and!; [done|by apply Hi2|done|by apply wf_fresh_fd]. }
  assert (Hno2 : no_index_of o2 "test1.spi" (st_id S1)).
  { apply (no_index_kept o); try done; [by rewrite Hnames2, Hnames1|]. intros j c Hj. by apply Hi2, Hi1. }
  destruct (stored_hash_write fuel "test1.spi" "test1.spl" 0 S1 [] o2 Hf1 Hwf2)
    as (o3 & Hhw & Hwf3 & Hs3 & _ & _ & Hn3 & Hi3 & h & tbl & Hf3 & Hidx); [|by split; [intros n e|]|by left|done|].
  { apply no_index_before; rewrite ?He2, ?He1, ?length_drop; [done|lia|by apply bytes_ok_drop, bytes_ok_drop]. }
  assert (Hf2 : has_file o3 "test2.spl" (st_file S2 ++ [])).
  { rewrite app_nil_r. exists i2. rewrite Hn3 by done. split_and!; [done|by apply Hi3|done|by apply wf_fresh_fd]. }
  unfold verify_files_closed.
  rewrite (bind_Ok _ _ _ _ _ Hrun1), (bind_Ok _ _ _ _ _ Hrun2).
  rewrite (bind_Ok _ _ _ _ _ (call_Ok _ _ _ (set_c_os o2 (set_c_os o1 p)) Hhw)), (bind_Ok _ _ _ _ _ (success_run _ _ _ _)).
  set (q := set_c_os o3 _).
  destruct (Hidx _ (some_reader_opened S1)) as (_ & Hty & Hval & Hmaj & Hmin & Hid & _).
  case_decide as Heq.
  - assert (Hsame : st_file S2 = st_file S1) by (change (log_file id2 [] = log_file id1 []); by rewrite Heq).
    rewrite Hsame in Hf2. destruct (stored_hash_open "test1.spi" "test2.spl" S1 [] h tbl o3 Hf3 Hf2 Hwf3 Hidx)
      as (reader & o4 & _ & Hopen & _).
    rewrite (bind_Ok _ _ _ _ _ (call_Ok _ _ _ q Hopen)). unfold _assert_equals. by rewrite decide_True.
  - destruct (mismatched_open "test1.spi" "test2.spl" S2 [] h tbl o3) as (o4 & Hopen); try done; [by rewrite Hid|].
    erewrite bind_Ok; [|unfold call; cbn [c_os set_c_os q]; by rewrite Hopen]. by rewrite equals_same.
Qed.

(** ** Properties *)

(** C5. The system test of the program passes for all numbers of puts, deletes and second
    puts whose sum is an int with a hundred to spare, without compression or with any
    compression and block size from ten bytes on for which the log can be opened again (it
    has no more puts, and no more deletes, than bytes), for the hash sizes 0, 4 and 8, and
    whether or not an index of another log is there from an earlier test: reading the log
    back, scanning the index and looking up every key find what the test expects. Nothing is
    printed, every descriptor is closed, and the index of the log is there. *)
Theorem verify_passes {C : Codec} file fuel compression blocksize hashsize np nd np2 S p :
  let o := c_os p in
  sizes_ok np nd np2 → os_sched o = [] → os_wf o → (8 ≤ length (os_entropy o))%nat → bytes_ok (os_entropy o) →
  no_index_of o "test.spi" (seed_of o) →
  written compression blocksize (seed_of o) (test_entries np nd np2) S → store_ok S →
  hashsize = 0 ∨ valid_size hashsize → np + nd + np2 < Z.of_nat fuel →
  let '(r, p') := verify file fuel compression blocksize hashsize np nd np2 p in
  r = Ok tt ∧ c_stdout p' = c_stdout p ∧ (∀ fd, os_fds (c_os p') !! fd = os_fds o !! fd) ∧
  has_file (c_os p') "test.spl" (st_file S) ∧
  ∃ h tbl, has_file (c_os p') "test.spi" (hashheader_bytes h ++ tbl) ∧ stored_index S h tbl.
Proof.
  intros o Hsz Hs Hwf He Hb Hno Hw Hok Hsize Hfuel.
  destruct (verify_run file fuel compression blocksize hashsize np nd np2 S p Hsz Hs Hwf He Hb Hno Hw Hok Hsize Hfuel)
    as (o' & -> & _ & _ & _ & Hfds & _ & Hf & Hidx). done.
Qed.

Lemma verify_passes_witness :
  (verify (C := identity_codec) "testsystem.c" 9 SPARKEY_COMPRESSION_NONE 0 0 3 1 2 (process_empty [])).1 = Ok tt.
Proof.
  assert (Hok : log_ok (test_entries 3 1 2)) by (split; [repeat constructor; done|done]).
  pose proof (verify_passes (C := identity_codec) "testsystem.c" 9 SPARKEY_COMPRESSION_NONE 0 0 3 1 2
    (plain_stored (C := identity_codec) (seed_of (c_os (process_empty []))) _ ltac:(done) Hok) (process_empty [])) as H.
  destruct (verify _ _ _ _ _ _ _ _ _) as [r p']. apply H; clear H; try done.
  - apply process_empty_wf.
  - cbn; lia.
  - by repeat constructor.
  - by left.
  - by constructor.
  - split; [|done]. intros n e He. do 6 (destruct n as [|n]; [by simplify_eq/=|]). done.
  - by left.
Defined.

(** The test of mismatched files: opening the index of one log with another log is
    refused, and the test passes, unless both logs drew the same random identifier;
    then the library takes the files for a pair, and the test fails. *)
Theorem verify_files_closed_checks {C : Codec} file fuel p :
  let o := c_os p in
  let id1 := seed_of o in
  let id2 := le_value (take 4 (drop 4 (os_entropy o))) in
  os_sched o = [] → os_wf o → (12 ≤ length (os_entropy o))%nat → bytes_ok (os_entropy o) →
  no_index_of o "test1.spi" id1 → (0 < fuel)%nat →
  let '(r, p') := verify_files_closed file fuel p in
  if decide (id1 = id2)
  then r = Err 1 ∧ c_stdout p' = c_stdout p ++ [(file +:+ ":256: Expected -305 but got 0")%string]
  else r = Ok tt ∧ c_stdout p' = c_stdout p.
Proof. apply verify_files_closed_run. Qed.

Lemma verify_files_closed_checks_witness :
  let p := process_empty [] in
  (verify_files_closed (C := identity_codec) "testsystem.c" 9 p).1 = Err 1.
Proof.
  intros p. pose proof (verify_files_closed_checks (C := identity_codec) "testsystem.c" 9 p eq_refl
    (process_empty_wf []) ltac:(cbn; lia) ltac:(by repeat constructor) ltac:(by left) ltac:(lia)) as H.
  destruct (verify_files_closed _ _ _) as [r p']. rewrite decide_True in H by done. apply H.
Defined.
