(* ===== verification/SystemRuns.v ===== *)
(** * The system test as a whole

    main of testsystem.c: all runs of the test one after the other over one file
    system, each with the files of the one before. *)

From stdpp Require Import base gmap list strings numbers.
From Stdlib Require Import ZArith Lia.
From S2P Require Import Prelude ReturnCodes Endian OS Vlq LogHeader HashAlg HashHeader Compress LogFormat LogWriter.
From S2P Require Import BlockFormat StoredLog LogProps HashTable TableRefine HashWriter IndexFile Store StoreProps Cli CliProps SystemTest.

Local Open Scope Z_scope.

(** ** The logs of the runs *)

(** Entries as the test makes them. *)
Definition small (e : entry) : Prop := entry_ok e ∧ zlen (entry_key e) ≤ 14 ∧ zlen (entry_value e) ≤ 19.

Lemma small_entries np nd np2 : sizes_ok np nd np2 → Forall small (test_entries np nd np2).
Proof.
  intros (? & ? & ? & ?). unfold test_entries. rewrite !Forall_app, !Forall_fmap, !list.Forall_forall.
  split_and!; intros i [Hi1 Hi2]%elem_of_seqZ; 
    unfold compose, small, entry_ok, put_of, delete_of; cbn [entry_key entry_value];
    pose proof (key_length i ltac:(lia)); split_and!; try apply string_bytes_ok; try done; try lia; try constructor.
  - pose proof (numbered_length "value" i ltac:(lia)) as Hv.
    change (String.length "value") with 5%nat in Hv. lia.
  - pose proof (numbered_length "newvalue" i ltac:(lia)) as Hv. change (String.length "newvalue") with 8%nat in Hv. lia.
Qed.

Lemma small_vlq v : 0 ≤ v < 128 → zlen (write_vlq v) = 1.
Proof. intros Hv. rewrite unsigned_vlq_size_spec by lia. unfold unsigned_vlq_size. by rewrite decide_True by (change (Z.shiftl 1 7) with 128; lia). Qed.

Lemma small_prefix e : small e → zlen (entry_prefix e) = 2.
Proof.
  intros (_ & Hk & Hv). destruct e as [k v|k]; cbn [entry_prefix entry_key entry_value] in *;
    rewrite length_app, Nat2Z.inj_add, !small_vlq by lia; lia.
Qed.

Lemma small_body es : Forall small es → zlen (log_body es) ≤ 35 * zlen es.
Proof.
  induction 1 as [|e es He _ IH]; [done|]. change (e :: es) with ([e] ++ es).
  rewrite log_body_app, log_body_one, !length_app. unfold encode_entry. rewrite !length_app.
  pose proof (small_prefix e He). destruct He as (_ & ? & ?). cbn [length]. lia.
Qed.

Lemma small_log_ok es : Forall small es → zlen es < 2 ^ 31 → log_ok es.
Proof.
  intros Hes Hlen. split; [eapply Forall_impl; [|exact Hes]; by intros e (? & _)|].
  unfold log_end, LOG_HEADER_SIZE. pose proof (small_body es Hes). lia.
Qed.

Lemma puts_length es : zlen (puts_of es) ≤ zlen es.
Proof. unfold puts_of. pose proof (length_filter (λ e, is_put e = true) es). lia. Qed.

(** What a run needs is a log with its entries, whatever the identifier. *)
Definition run_entries (r : test_run) : list entry :=
  test_entries (t_num_puts r) (t_num_deletes r) (t_num_puts2 r).
Definition writable {C : Codec} (r : test_run) : Prop :=
  ∀ id, 0 ≤ id < 2 ^ 32 →
    ∃ S, written (t_compression r) (t_blocksize r) id (run_entries r) S ∧ store_ok S.

Lemma small_keys {C : Codec} S : Forall small (st_entries S) → keys_short (es := st_entries S).
Proof. intros Hes n e He. rewrite Forall_lookup in Hes. destruct (Hes n e He) as (_ & ? & _). lia. Qed.

Lemma plain_writable {C : Codec} r :
  t_compression r = SPARKEY_COMPRESSION_NONE → sizes_ok (t_num_puts r) (t_num_deletes r) (t_num_puts2 r) →
  writable r.
Proof.
  intros Ht Hsz id Hid. pose proof (small_entries _ _ _ Hsz) as Hes. fold (run_entries r) in Hes.
  pose proof (test_entries_length _ _ _ Hsz) as Hlen. fold (run_entries r) in Hlen.
  pose proof Hsz as (? & ? & ? & ?).
  assert (Hok : log_ok (run_entries r)) by (apply small_log_ok; [done|lia]).
  exists (plain_stored id _ Hid Hok). split; [by constructor|]. split; [by apply small_keys|]. cbn [st_entries st_header plain_stored].
  split; [pose proof (puts_length (run_entries r)); lia|]. destruct Hok as [_ Hend]. cbn [lh_data_end lh_max_entries_per_block log_header].
  change (2 ^ int_log2 0) with 1. lia.
Qed.

(** Compression adds at most so much to a block. *)
Lemma pack_length {C : Codec} P b :
  params_ok P → bytes_ok b → zlen b ≤ bp_size P → zlen (pack P b) < 2 ^ 33.
Proof.
  intros HP Hb Hl. destruct (pack_spec P b HP Hb Hl) as (out & _ & -> & Hlt & _).
  rewrite length_app. pose proof (write_vlq_bounds (zlen out) ltac:(lia)). lia.
Qed.

Definition block_ok (P : block_params) (b : list Z) : Prop := bytes_ok b ∧ b ≠ [] ∧ zlen b ≤ bp_size P.

Lemma blocks_ok {C : Codec} P gs :
  params_ok P → Forall (group_ok (bp_size P)) gs → log_ok (concat gs) → Forall (block_ok P) (blocks_of (bp_size P) gs).
Proof.
  intros (_ & Hbs & _) Hgs Hok.
  assert (Hall : bytes_ok (concat (blocks_of (bp_size P) gs))) by (rewrite blocks_concat; by apply log_body_ok, Hok).
  pose proof (blocks_sizes (bp_size P) gs ltac:(lia) Hgs) as Hsz. clear -Hall Hsz.
  induction Hsz as [|b bl [Hne Hl] _ IH]; [constructor|]. cbn [concat] in Hall. apply bytes_ok_app in Hall as [Hb Hrest].
  constructor; [done|by apply IH].
Qed.

Lemma packed_length {C : Codec} P blocks :
  params_ok P → Forall (block_ok P) blocks → zlen (packed P blocks) ≤ 2 ^ 33 * zlen (concat blocks).
Proof.
  intros HP. induction 1 as [|b blocks (Hb & Hne & Hl) _ IH]; [done|]. unfold packed in *. cbn [fmap list_fmap concat].
  rewrite !length_app. pose proof (pack_length P b HP Hb Hl). destruct b; [done|]. cbn [length] in *. lia.
Qed.

Lemma comp_end_length {C : Codec} P gs :
  params_ok P → Forall (group_ok (bp_size P)) gs → log_ok (concat gs) →
  comp_end P gs ≤ LOG_HEADER_SIZE + 2 ^ 33 * zlen (log_body (concat gs)).
Proof.
  intros HP Hgs Hok. unfold comp_end, comp_body. rewrite <- (blocks_concat (bp_size P) gs).
  by apply Z.add_le_mono_l, packed_length, blocks_ok.
Qed.

(** A compressed run can be written when its counters fit, see [counts_fit]. *)
Definition run_params (r : test_run) (c : sparkey_compressor) : block_params :=
  BlockParams (t_compression r) (t_blocksize r) c.
Definition run_groups (r : test_run) : groups := groups_of (t_blocksize r) (run_entries r).

Definition comp_run {C : Codec} (r : test_run) (c : sparkey_compressor) : Prop :=
  sparkey_compressors (t_compression r) = Some c ∧ sizes_ok (t_num_puts r) (t_num_deletes r) (t_num_puts2 r) ∧
  10 ≤ t_blocksize r ≤ 1000 ∧ t_num_puts r + t_num_deletes r + t_num_puts2 r ≤ 2000.

Lemma comp_run_facts {C : Codec} {Laws : CodecLaws C} r c :
  comp_run r c →
  Forall small (run_entries r) ∧ zlen (run_entries r) ≤ 2000 ∧ concat (run_groups r) = run_entries r ∧
  params_ok (run_params r c) ∧ log_ok (run_entries r) ∧ Forall (group_ok (t_blocksize r)) (run_groups r) ∧
  Forall (λ e, zlen (entry_prefix e) ≤ t_blocksize r) (run_entries r).
Proof.
  intros (Hc & Hsz & Hbs & Hcount). pose proof (small_entries _ _ _ Hsz) as Hes. fold (run_entries r) in Hes.
  pose proof (test_entries_length _ _ _ Hsz) as Hlen. fold (run_entries r) in Hlen.
  split; [done|]. split; [lia|]. split; [apply groups_of_entries|].
  split; [split; [done|split; [cbn; lia|by apply (compressors_ok (t_compression r)); [|cbn; lia]]]|].
  split; [apply small_log_ok; [done|lia]|].
  assert (Hpre : Forall (λ e, zlen (entry_prefix e) ≤ t_blocksize r) (run_entries r)).
  { eapply Forall_impl; [|exact Hes]. intros e He. rewrite small_prefix by done. lia. }
  split; [apply groups_of_ok; [lia|done]|done].
Qed.

Lemma comp_writable {C : Codec} {Laws : CodecLaws C} r c :
  comp_run r c → counts_fit (run_params r c) (run_groups r) → writable r.
Proof.
  intros Hrun Hfit id Hid. destruct (comp_run_facts r c Hrun) as (Hes & Hlen & Hcat & HP & Hok & Hgs & Hpre).
  destruct Hrun as (Hc & _ & Hbs & _). set (P := run_params r c) in *.
  assert (Hend : comp_end P (run_groups r) ≤ 2 ^ 50).
  { pose proof (comp_end_length P (run_groups r) HP Hgs ltac:(rewrite Hcat; exact Hok)) as Hle.
    rewrite Hcat in Hle. pose proof (small_body _ Hes). unfold LOG_HEADER_SIZE in *. lia. }
  assert (Hfits : comp_fits P (run_groups r)).
  { split; [done|]. split; [|done]. split; [by rewrite Hcat|]. split; [done|lia]. }
  exists (comp_stored P id (run_groups r) Hid Hfits). split; [by apply (written_comp _ _ _ _ P)|].
  split; [apply small_keys; cbn [st_entries comp_stored]; by rewrite Hcat|]. cbn [st_entries st_header comp_stored]. rewrite Hcat.
  split; [pose proof (puts_length (run_entries r)); lia|].
  destruct (max_group_bound (bp_size P) (run_groups r) ltac:(cbn; lia) Hgs) as [Hm1 Hm2]. cbn in Hm2.
  cbn [lh_data_end lh_max_entries_per_block comp_header with_compression log_header].
  pose proof (int_log2_le (max_group (run_groups r)) 9 ltac:(cbn; lia)) as Hlog.
  assert (Hpow : 2 ^ int_log2 (max_group (run_groups r)) ≤ 2 ^ 9) by (apply Z.pow_le_mono_r; lia).
  assert (0 ≤ 2 ^ int_log2 (max_group (run_groups r))) by (apply Z.pow_nonneg; lia).
  assert (0 ≤ comp_end P (run_groups r)) by (unfold comp_end, LOG_HEADER_SIZE; lia). nia.
Qed.

(** ** One run after the other *)

(** The words of the entropy; identifiers and seeds are drawn from it in order. *)
Definition word (E : list Z) (j : nat) : Z := le_value (take 4 (drop (4 * j) E)).
Definition words_distinct (n : nat) (E : list Z) : Prop :=
  (4 * n ≤ length E)%nat ∧ bytes_ok E ∧ NoDup (word E <$> seq 0 n).

Lemma word_inj n E i j : words_distinct n E → (i < n)%nat → (j < n)%nat → word E i = word E j → i = j.
Proof.
  intros (_ & _ & Hnd) Hi Hj Heq. apply (NoDup_lookup (word E <$> seq 0 n) i j (word E j)); [done|..];
    rewrite list_lookup_fmap, lookup_seq_lt by done; cbn [fmap option_fmap option_map Nat.add]; congruence.
Qed.

(** After [n] runs: at most two words a run are used up, and the index, if there is
    one, is that of a log with an earlier identifier. *)
Definition ready {C : Codec} (E : list Z) (n : nat) (o : os) : Prop :=
  os_wf o ∧ os_sched o = [] ∧ os_names o !! "test1.spi"%string = None ∧
  ∃ j, (j ≤ 2 * n)%nat ∧ os_entropy o = drop (4 * j) E ∧
    (os_names o !! "test.spi"%string = None ∨
     ∃ S h tbl i, (i < j)%nat ∧ st_id S = word E i ∧ has_file o "test.spi" (hashheader_bytes h ++ tbl) ∧ stored_index S h tbl).

Definition run_ok {C : Codec} (fuel : nat) (r : test_run) : Prop :=
  sizes_ok (t_num_puts r) (t_num_deletes r) (t_num_puts2 r) ∧
  (t_hashsize r = 0 ∨ valid_size (t_hashsize r)) ∧
  t_num_puts r + t_num_deletes r + t_num_puts2 r < Z.of_nat fuel ∧ writable r.

(** The runs draw from 51 words. *)
Definition num_words : nat := 51.

Section Runs.
Context {C : Codec} (file : string) (fuel : nat) (E : list Z) (HE : words_distinct num_words E).

Lemma run_step n r rs o p :
  ready E n o → (n < 24)%nat → run_ok fuel r →
  ∃ o', run_all file fuel (r :: rs) (set_c_os o p) = run_all file fuel rs (set_c_os o' p) ∧ ready E (1 + n) o'.
Proof.
  intros (Hwf & Hs & Ht1 & j & Hj & He & Hspi) Hn (Hsz & Hhash & Hfuel & Hwr). pose proof HE as (HlE & HbE & _).
  unfold num_words in HlE.
  assert (Hseed : seed_of o = word E j) by (unfold seed_of; by rewrite He).
  assert (Hb : bytes_ok (os_entropy o)) by (rewrite He; by apply bytes_ok_drop).
  destruct (Hwr (seed_of o) (seed_range o Hb)) as (S & Hw & Hok).
  destruct (written_entries _ _ _ _ _ Hw) as [_ Hid].
  assert (Hno : no_index_of o "test.spi" (seed_of o)).
  { destruct Hspi as [Hnone|(S0 & h & tbl & i & Hi & Hid0 & Hf & Hix)]; [by left|].
    right. exists S0, h, tbl. split; [done|]. split; [done|]. rewrite Hid0, Hseed. intros Heq.
    apply (word_inj num_words E i j HE) in Heq; unfold num_words; lia. }
  destruct r as [t bs hs np nd np2]. cbn in Hsz, Hhash, Hfuel, Hw.
  destruct (verify_run file fuel t bs hs np nd np2 S (set_c_os o p) Hsz Hs Hwf
    ltac:(cbn; rewrite He, length_drop; lia) Hb Hno Hw Hok Hhash Hfuel)
    as (o' & Hrun & Hwf' & Hs' & He' & _ & Hn' & _ & h & tbl & Hf & Hix). cbn [c_os set_c_os] in *.
  exists o'. cbn [run_all]. rewrite (bind_Ok _ _ _ _ _ Hrun). split; [done|].
  split; [done|]. split; [done|]. split; [by rewrite Hn'|].
  assert (Hfrom : ∀ j', (j < j')%nat → os_names o' !! "test.spi"%string = None ∨
    ∃ S h tbl i, (i < j')%nat ∧ st_id S = word E i ∧ has_file o' "test.spi" (hashheader_bytes h ++ tbl) ∧ stored_index S h tbl).
  { intros j' Hjj. right. exists S, h, tbl, j. by rewrite Hid. }
  rewrite He, !drop_drop in He'.
  destruct He' as [He'|He']; [exists (j + 1)%nat|exists (j + 2)%nat];
    (split; [lia|]; split; [rewrite He'; f_equal; lia|apply Hfrom; lia]).
Qed.

Lemma run_all_run rs n o p :
  ready E n o → (n + length rs ≤ 24)%nat → Forall (run_ok fuel) rs →
  ∃ o', run_all file fuel rs (set_c_os o p) = (Ok tt, set_c_os o' p) ∧ ready E (n + length rs) o'.
Proof.
  intros Hr Hn Hrs. revert n o Hr Hn. induction Hrs as [|r rs Hok _ IH]; intros n o Hr Hn; cbn [length] in *.
  { exists o. by rewrite Nat.add_0_r. }
  destruct (run_step n r rs o p Hr ltac:(lia) Hok) as (o1 & -> & Hr1).
  destruct (IH (1 + n)%nat o1 Hr1 ltac:(lia)) as (o2 & Hrun & Hr2). exists o2. split; [done|].
  by replace (n + Datatypes.S (length rs))%nat with (1 + n + length rs)%nat by lia.
Qed.

End Runs.

Lemma plain_runs_ok {C : Codec} fuel : (100 + 10 + 5 < fuel)%nat → Forall (run_ok fuel) plain_runs.
Proof.
  intros Hf. repeat constructor; cbn; try lia; (by left) || (apply plain_writable; [done|by repeat constructor]).
Qed.

Lemma codec_runs_comp {C : Codec} t c :
  sparkey_compressors t = Some c →
  Forall (λ r, comp_run r c ∧ (t_hashsize r = 0 ∨ valid_size (t_hashsize r)) ∧
    t_num_puts r + t_num_deletes r + t_num_puts2 r ≤ 1150) (codec_runs t).
Proof. intros Hc. repeat constructor; cbn; (done || lia || by left || by right; (by left) || by right). Qed.

Lemma codec_runs_ok {C : Codec} {Laws : CodecLaws C} fuel t c :
  (1150 < fuel)%nat → sparkey_compressors t = Some c →
  Forall (λ r, counts_fit (run_params r c) (run_groups r)) (codec_runs t) → Forall (run_ok fuel) (codec_runs t).
Proof.
  intros Hf Hc Hfit. pose proof (codec_runs_comp t c Hc) as Hruns.
  rewrite list.Forall_forall in *. intros r Hr. destruct (Hruns r Hr) as (Hcr & Hh & Hn). pose proof Hcr as (_ & Hsz & _).
  split; [done|]. split; [done|]. split; [lia|]. by apply (comp_writable r c), Hfit.
Qed.

(** A codec that never shortens its input cannot pack a log too well. *)
Lemma counts_fit_long {C : Codec} P gs :
  params_ok P → Forall (group_ok (bp_size P)) gs → log_ok (concat gs) →
  (∀ b, block_ok P b → zlen b ≤ zlen (pack P b)) → counts_fit P gs.
Proof.
  intros HP Hgs Hok Hlong. pose proof (log_body_count (concat gs)) as Hcount.
  assert (Hend : zlen (log_body (concat gs)) ≤ comp_end P gs).
  { unfold comp_end, comp_body, packed, LOG_HEADER_SIZE. rewrite <- (blocks_concat (bp_size P) gs).
    induction (blocks_ok P gs HP Hgs Hok) as [|b bl Hb _ IH]; [done|].
    cbn [concat fmap list_fmap]. rewrite !length_app. pose proof (Hlong b Hb). lia. }
  pose proof (length_filter (λ e, is_put e = true) (concat gs)). pose proof (length_filter (λ e, is_put e = false) (concat gs)).
  unfold counts_fit, puts_of, deletes_of. lia.
Qed.

(** ** Property *)

(** C23. The program testsystem as a whole, all of its 24 runs of the test and the test of
    mismatched files over one file system, prints Success! and returns 0, when the
    random words that it draws are distinct and no compressor packs a log so well
    that its counters exceed the length of the file. *)
Theorem main_passes {C : Codec} {Laws : CodecLaws C} file fuel p :
  let o := c_os p in
  os_sched o = [] → os_wf o → words_distinct num_words (os_entropy o) →
  os_names o !! "test.spi"%string = None → os_names o !! "test1.spi"%string = None → (1150 < fuel)%nat →
  (∀ t c, sparkey_compressors t = Some c → Forall (λ r, counts_fit (run_params r c) (run_groups r)) (codec_runs t)) →
  let '(r, p') := SystemTest.main file fuel p in
  r = Ok 0 ∧ c_stdout p' = c_stdout p ++ ["Success!"%string].
Proof.
  intros o Hs Hwf HE Hn Hn1 Hf Hfit. set (E := os_entropy o) in *.
  assert (H0 : ready E 0 o).
  { split; [done|]. split; [done|]. split; [done|]. exists 0%nat. split; [lia|]. split; [done|by left]. }
  assert (Hp : p = set_c_os o p) by by destruct p. rewrite Hp. unfold SystemTest.main.
  destruct (run_all_run file fuel E HE plain_runs 0 o p H0) as (o1 & Hrun1 & H1); [cbn; lia|apply plain_runs_ok; lia|].
  rewrite (bind_Ok _ _ _ _ _ Hrun1). change (Z.to_nat _) with 2%nat. cbn [codec_loop].
  destruct (run_all_run file fuel E HE (codec_runs SPARKEY_COMPRESSION_SNAPPY) _ o1 p H1) as (o2 & Hrun2 & H2);
    [cbn; lia|by eapply codec_runs_ok; [lia|done|apply Hfit]|].
  destruct (run_all_run file fuel E HE (codec_runs (SPARKEY_COMPRESSION_SNAPPY + 1)) _ o2 p H2) as (o3 & Hrun3 & H3);
    [cbn; lia|by eapply codec_runs_ok; [lia|done|apply Hfit]|].
  rewrite bind_assoc, (bind_Ok _ _ _ _ _ Hrun2), bind_assoc, (bind_Ok _ _ _ _ _ Hrun3), bind_ret.
  destruct H3 as (Hwf3 & Hs3 & Hn3 & j & Hj & He3 & _). cbn in Hj. pose proof HE as (HlE & HbE & _). unfold num_words in HlE.
  pose proof (verify_files_closed_run file fuel (set_c_os o3 p) Hs3 Hwf3) as Hlast. cbn [c_os set_c_os] in Hlast.
  rewrite He3 in Hlast. specialize (Hlast ltac:(rewrite length_drop; lia) ltac:(by apply bytes_ok_drop) ltac:(by left) ltac:(lia)).
  assert (Hne : seed_of o3 ≠ le_value (take 4 (drop 4 (drop (4 * j) E)))).
  { unfold seed_of. rewrite He3, drop_drop. replace (4 * j + 4)%nat with (4 * (j + 1))%nat by lia.
    intros Heq. apply (word_inj num_words E j (j + 1) HE) in Heq; [lia|unfold num_words; lia..]. }
  unfold mbind, M_bind. destruct (verify_files_closed file fuel (set_c_os o3 p)) as [r q].
  rewrite decide_False in Hlast by done. destruct Hlast as [-> Hout]. cbn. by rewrite Hout.
Qed.

(** ** The witness *)

(** A process without files whose random words are their own numbers. *)
Example process_fresh : process :=
  Process (OS {[ 0%nat := [] ]} ∅ {[ 1 := (0%nat, 0) ]} 1 3 []
    (concat ((λ k, [Z.of_nat k; 0; 0; 0]) <$> seq 0 num_words))) [] [] [].

Lemma process_fresh_wf : os_wf (c_os process_fresh).
Proof.
  split_and!; cbn [process_fresh c_os os_names os_inodes os_fds os_next_inode os_next_fd]; [| | |lia].
  - intros n i. by rewrite lookup_empty.
  - intros i [x [<- _]%lookup_singleton_Some]. lia.
  - intros fd [x [<- _]%lookup_singleton_Some]. lia.
Qed.

Lemma identity_counts t c :
  sparkey_compressors (C := identity_codec) t = Some c →
  Forall (λ r, counts_fit (run_params r c) (run_groups r)) (codec_runs t).
Proof.
  intros Hc. eapply Forall_impl; [|exact (codec_runs_comp (C := identity_codec) t c Hc)]. intros r (Hr & _).
  destruct (comp_run_facts (C := identity_codec) r c Hr) as (_ & _ & Hcat & HP & Hok & Hgs & _).
  apply (counts_fit_long (C := identity_codec)); [done|done|by rewrite Hcat|]. intros b (Hb & _ & Hl).
  destruct (pack_spec (C := identity_codec) _ b HP Hb Hl) as (out & _ & -> & _ & _ & Hd).
  assert (Hout : out = b).
  { cbn [bp_compressor run_params] in Hd. clear -Hc Hd. unfold sparkey_compressors in Hc.
    repeat case_decide; simplify_eq/=; unfold sparkey_snappy_decompress, sparkey_zstd_decompress in Hd; cbn in Hd;
      case_decide; by simplify_eq/=. }
  subst out. rewrite length_app. lia.
Qed.

Lemma main_passes_witness :
  (SystemTest.main (C := identity_codec) "testsystem.c" 1151 process_fresh).1 = Ok 0.
Proof.
  pose proof (main_passes (C := identity_codec) "testsystem.c" 1151 process_fresh eq_refl process_fresh_wf) as H.
  destruct (SystemTest.main _ _ _) as [r p']. apply H; [|done|done|lia|intros; by apply identity_counts].
  split; [cbn; lia|]. split; [|by apply (bool_decide_unpack _); vm_compute].
  repeat constructor; done.
Defined.
