(* ===== verification/Bench.v ===== *)
(** * The benchmark (bench.c)

    What the benchmark does with the library: it writes numbered puts, indexes them and
    looks up random keys.  The clock, the sizes of the files and their removal, which
    the benchmark measures and prints around that, are not modelled. *)

From stdpp Require Import base gmap list strings numbers pretty.
From Stdlib Require Import ZArith Lia.
From S2P Require Import Prelude ReturnCodes OS LogHeader HashAlg HashHeader Printing Compress LogFormat LogWriter LogReader LogCursor.
From S2P Require Import StoredLog LogProps HashTable TableRefine HashWriter IndexFile.
From S2P Require Import HashReader Store Cli CliProps SystemTest.

Local Open Scope Z_scope.

(** ** Definitions *)

(** The functions of a candidate; [randomaccess] takes what [rand] answers, one number for each
    lookup. *)
Record candidate : Type := Candidate {
  c_name : string;
  c_create : Z → MX unit;
  c_randomaccess : Z → list Z → MX unit;
  c_files : list string
}.

Section Bench.
Context {C : Codec} (file : string) (fuel : nat).

Definition _sparkey_assert (line : Z) (i : returncode) : MX unit :=
  if decide (i ≠ SPARKEY_SUCCESS) then
    _ ← printf [file +:+ ":" +:+ percent_d line +:+ ": assertion failed: " +:+ sparkey_errstring i]%string;
    fail (returncode_value i)
  else mret tt.

(** [sparkey_assert(...)] on a call, and what the call returned. *)
Definition sparkey_assert {A} (line : Z) (rc : returncode + A) : MX A :=
  _ ← _sparkey_assert line (match rc with inr _ => SPARKEY_SUCCESS | inl rc => rc end);
  of_opt (match rc with inr a => Some a | inl _ => None end).

(** The loop over [i]; [todo] is the number of rounds that are left. *)
Fixpoint create_loop (todo : nat) (i : Z) (mywriter : sparkey_logwriter) : MX sparkey_logwriter :=
  match todo with
  | O => mret mywriter
  | S todo =>
      rw ← call_writer mywriter (sparkey_logwriter_put (key_bytes i) (string_bytes (numbered "value" i)));
      _ ← sparkey_assert 174 rw.1;
      create_loop todo (i + 1) rw.2
  end.

Definition sparkey_create (n compression_type block_size : Z) : MX unit :=
  rc ← call (sparkey_logwriter_create "test.spl" compression_type block_size);
  mywriter ← sparkey_assert 168 rc;
  mywriter ← create_loop (Z.to_nat n) 0 mywriter;
  rr ← close_ref mywriter;
  _ ← sparkey_assert 176 rr.1;
  rc ← call (sparkey_hash_write fuel "test.spi" "test.spl" 0);
  sparkey_assert 177 rc.

Fixpoint lookup_loop (n : Z) (myreader : sparkey_hashreader) (valuesize : Z) (rands : list Z)
    (myiter : sparkey_logiter) (valuebuf : list Z) : MX unit :=
  match rands with
  | [] => mret tt
  | x :: rands =>
      if decide (n = 0) then undefined else
      let r := Z.rem x n in
      let myvalue := string_bytes (numbered "value" r) in
      ri ← call_iter myiter (sparkey_hash_get myreader (key_bytes r));
      _ ← sparkey_assert 198 ri.1;
      let myiter := ri.2 in
      if decide (sparkey_logiter_state myiter ≠ SPARKEY_ITER_ACTIVE) then
        _ ← printf [("Failed to lookup key: " +:+ numbered "key" r)%string]; fail 1
      else
      let wanted_valuelen := sparkey_logiter_valuelen myiter in
      vi ← call_iter myiter (sparkey_logiter_fill_value (sparkey_hash_getreader myreader) wanted_valuelen);
      bs ← sparkey_assert 206 vi.1;
      let actual_valuelen := zlen bs in
      value ← of_opt (fill_buffer valuesize valuebuf bs actual_valuelen);
      if decide (actual_valuelen ≠ zlen myvalue ∨ value.2 ≠ myvalue) then
        _ ← printf [("Did not get the expected value for key: " +:+ numbered "key" r)%string]; fail 1
      else lookup_loop n myreader valuesize rands vi.2 value.1
  end.

Definition sparkey_randomaccess (n : Z) (rands : list Z) : MX unit :=
  rc ← call (sparkey_hash_open "test.spi" "test.spl");
  myreader ← sparkey_assert 183 rc;
  _ ← printf [("    Number of hash collisions: " +:+ pretty (sparkey_hash_numcollisions myreader))%string];
  let logreader := sparkey_hash_getreader myreader in
  rc ← call (sparkey_logiter_create logreader);
  myiter ← sparkey_assert 188 rc;
  valuesize ← malloc_buffer (sparkey_logreader_maxvaluelen logreader);
  _ ← lookup_loop n myreader valuesize rands myiter [];
  _ ← call (λ o, let '(r, (o, _)) := sparkey_hash_close (o, Some myreader) in (r, o));
  mret tt.

Definition sparkey_create_uncompressed (n : Z) : MX unit := sparkey_create n SPARKEY_COMPRESSION_NONE 0.
Definition sparkey_create_snappy (n : Z) : MX unit := sparkey_create n SPARKEY_COMPRESSION_SNAPPY (4 * 1024).
Definition sparkey_create_zstd (n : Z) : MX unit := sparkey_create n SPARKEY_COMPRESSION_ZSTD (4 * 1024).

Definition sparkey_list : list string := ["test.spi"; "test.spl"]%string.
Definition sparkey_files : list string := sparkey_list.

Definition sparkey_candidate_uncompressed : candidate :=
  Candidate "Sparkey uncompressed" sparkey_create_uncompressed sparkey_randomaccess sparkey_files.
Definition sparkey_candidate_snappy : candidate :=
  Candidate "Sparkey snappy(4K)" sparkey_create_snappy sparkey_randomaccess sparkey_files.
Definition sparkey_candidate_zstd : candidate :=
  Candidate "Sparkey zstd(4K)" sparkey_create_zstd sparkey_randomaccess sparkey_files.

End Bench.

(** ** Lemmas *)

Section Runs.
Context {C : Codec} (file : string).

Lemma assert_success {A} line (a : A) p : sparkey_assert file line (inr a) p = (Ok a, p).
Proof. done. Qed.

Lemma create_loop_run todo i w p o' w' :
  add_entries (put_of "value" <$> seqZ i (Z.of_nat todo)) (c_os p, w) = (Ok tt, (o', w')) →
  create_loop file todo i w p = (Ok w', set_c_os o' p).
Proof.
  revert i w p. induction todo as [|todo IH]; intros i w p Hadd; [injection Hadd as <- <-; by destruct p|].
  rewrite seqZ_cons in Hadd by lia. replace (Z.pred _) with (Z.of_nat todo) in Hadd by lia.
  apply add_entries_cons in Hadd as ([o1 w1] & He & Hrest). cbn [create_loop].
  rewrite (bind_Ok _ _ _ _ _ (call_writer_Ok _ _ _ _ _ _ He)). cbn [fst snd].
  rewrite (bind_Ok _ _ _ _ _ (assert_success _ _ _)). by apply (IH (i + 1) w1 (set_c_os o1 p)).
Qed.

(** The entries of the benchmark are those of the system test without deletes. *)
Lemma bench_entries n : test_entries n 0 0 = put_of "value" <$> seqZ 0 n.
Proof. unfold test_entries. by rewrite !app_nil_r. Qed.

Lemma sparkey_create_run fuel n t bs S p :
  let o := c_os p in
  sizes_ok n 0 0 → os_sched o = [] → os_wf o → (8 ≤ length (os_entropy o))%nat → bytes_ok (os_entropy o) →
  no_index_of o "test.spi" (seed_of o) →
  written t bs (seed_of o) (test_entries n 0 0) S → store_ok S → n < Z.of_nat fuel →
  ∃ o', sparkey_create file fuel n t bs p = (Ok tt, set_c_os o' p) ∧
    os_wf o' ∧ (∀ fd, os_fds o' !! fd = os_fds o !! fd) ∧ has_file o' "test.spl" (st_file S ++ []) ∧
    ∃ h tbl, has_file o' "test.spi" (hashheader_bytes h ++ tbl) ∧ stored_index S h tbl.
Proof.
  intros o Hsz Hs Hwf He Hb Hno Hw Hok Hfuel. destruct (written_entries _ _ _ _ _ Hw) as [HS Hid].
  pose proof (test_entries_length n 0 0 Hsz) as Hlen. pose proof Hsz as (? & _).
  destruct (write_stored "test.spl" t bs _ o S Hs Hwf ltac:(lia) Hw)
    as (o1 & Hwrite & Hwf1 & Hs1 & He1 & (ino & Hn1 & Hc1) & Hi1 & Hnames1 & Hfds1).
  apply write_log_steps in Hwrite as (w & o2 & o3 & w3 & q & Hc & Ha & Hcl).
  assert (Hf1 : has_file o1 "test.spl" (st_file S ++ [])).
  { rewrite app_nil_r. exists ino. split_and!; try done. by apply wf_fresh_fd. }
  assert (Hbefore : index_before o1 "test.spi" S 0).
  { apply no_index_before; rewrite ?He1, ?length_drop; [|lia|by apply bytes_ok_drop].
    rewrite Hid. apply (no_index_kept o); try done. by rewrite Hnames1. }
  destruct (stored_hash_write fuel "test.spi" "test.spl" 0 S [] o1 Hf1 Hwf1 Hbefore Hok ltac:(by left) ltac:(rewrite HS; lia))
    as (o4 & Hindex & Hwf4 & Hs4 & Hfds4 & _ & Hn4 & Hi4 & Hidx).
  exists o4. unfold sparkey_create.
  rewrite (bind_Ok _ _ _ _ _ (call_Ok _ _ _ p Hc)), (bind_Ok _ _ _ _ _ (assert_success _ _ _)).
  rewrite bench_entries in Ha.
  erewrite bind_Ok; [|eapply (create_loop_run _ _ _ (set_c_os o2 p)); rewrite Z2Nat.id by done; exact Ha].
  erewrite bind_Ok; [|by apply (close_ref_run w3 o1 q)]. cbn [fst snd].
  rewrite (bind_Ok _ _ _ _ _ (assert_success _ _ _)).
  erewrite bind_Ok; [|by apply (call_Ok _ _ _ (set_c_os o1 _) Hindex)].
  split; [done|]. split; [done|]. split; [intros fd; by rewrite Hfds4, Hfds1|].
  split; [by apply (has_file_kept o1); [|apply Hn4| | |]|done].
Qed.

Section Lookups.
Context {log : sparkey_logreader} {es : list entry} {L : LogCursor log es}.

Lemma lookup_loop_run n reader tbl valuesize rands iter valuebuf p :
  reader_on reader tbl → es = test_entries n 0 0 → sizes_ok n 0 0 → 0 < n → Forall (λ x, 0 ≤ x) rands →
  Forall (λ e, zlen (entry_value e) ≤ valuesize) es → cur_ready iter →
  lookup_loop file n reader valuesize rands iter valuebuf p = (Ok tt, p).
Proof.
  intros Hon Hes Hsz Hn Hrands Hvals. pose proof Hon as (_ & Hlog & _). pose proof Hsz as (_ & _ & _ & ?).
  revert iter valuebuf. induction Hrands as [|x rands Hx _ IH]; intros iter valuebuf Hr; [done|].
  cbn [lookup_loop]. rewrite decide_False by lia. cbv zeta. set (r := Z.rem x n).
  assert (Hrn : 0 ≤ r < n) by by apply Z.rem_bound_pos.
  destruct (hash_get_replay reader tbl (key_bytes r) iter Hon Hr (string_bytes_ok _)
    ltac:(pose proof (key_length r ltac:(lia)); lia)) as (i1 & Hget & _ & Hf).
  rewrite (bind_Ok _ _ _ _ _ (call_iter_Ok _ _ _ _ _ Hget)). cbn [fst snd].
  rewrite (bind_Ok _ _ _ _ _ (assert_success _ _ _)).
  assert (Hrep := test_replay n 0 0 r Hsz ltac:(lia)). rewrite <- Hes in Hrep. rewrite Hrep in Hf.
  rewrite decide_False, decide_True in Hf by lia. destruct Hf as (m & off & He & Hk).
  destruct (cur_key_describes _ _ _ _ Hk He) as (Hact & _ & _ & Hvl).
  unfold sparkey_logiter_state, sparkey_logiter_valuelen, sparkey_hash_getreader. rewrite Hact, Hvl, Hlog, decide_False by tauto.
  destruct (fill_value_spec m off _ i1 (zlen (string_bytes (numbered "value" r))) Hk He ltac:(cbn; lia)) as (i2 & Hv & _ & Hr2 & _).
  rewrite (bind_Ok _ _ _ _ _ (call_iter_Ok _ _ _ _ _ Hv)). cbn [fst snd entry_value].
  rewrite (bind_Ok _ _ _ _ _ (assert_success _ _ _)).
  rewrite Forall_lookup in Hvals. specialize (Hvals m _ He). cbn [entry_value] in Hvals.
  rewrite fill_buffer_exact by done. rewrite bind_of_opt. cbn [fst snd].
  rewrite decide_False by tauto. by apply IH.
Qed.

End Lookups.

(** What the lookups print is the number of collisions. *)
Lemma randomaccess_run n rands S h tbl p :
  has_file (c_os p) "test.spl" (st_file S ++ []) → has_file (c_os p) "test.spi" (hashheader_bytes h ++ tbl) →
  stored_index S h tbl → os_wf (c_os p) → st_entries S = test_entries n 0 0 → sizes_ok n 0 0 → 0 < n →
  Forall (λ x, 0 ≤ x) rands →
  ∃ o', sparkey_randomaccess file n rands p = (Ok tt, Process o' (c_stdin p)
      (c_stdout p ++ [("    Number of hash collisions: " +:+ pretty (hh_hash_collisions h))%string]) (c_stderr p)) ∧
    same_data (c_os p) o' ∧ os_fds o' = os_fds (c_os p).
Proof.
  intros Hlf Hf Hidx Hwf HS Hsz Hn Hrands.
  destruct (stored_hash_open _ _ S [] h tbl _ Hf Hlf Hwf Hidx)
    as (reader & o2 & Hlog & Hopen & (Hn2 & Hi2 & He2 & Hs2 & Hwf2) & (Hfd & Hdel & _) & Hhd & Hon).
  set (L := st_cursor S (hr_log reader) Hlog) in *.
  destruct (cur_create (LogCursor := L) o2 Hs2) as (i & Hc & _ & Hr).
  unfold sparkey_randomaccess.
  rewrite (bind_Ok _ _ _ _ _ (call_Ok _ _ _ p Hopen)), (bind_Ok _ _ _ _ _ (assert_success _ _ _)).
  unfold sparkey_hash_numcollisions. rewrite Hhd. 
  set (q := Process o2 (c_stdin p) (c_stdout p ++ [("    Number of hash collisions: " +:+ pretty (hh_hash_collisions h))%string])
    (c_stderr p)).
  erewrite (bind_Ok (printf _) _ _ tt q) by done.
  rewrite (bind_Ok _ _ _ _ _ (call_Ok _ _ _ q Hc)), (bind_Ok _ _ _ _ _ (assert_success _ _ _)).
  change (set_c_os o2 q) with q. rewrite (bind_Ok _ _ _ _ _ (malloc_buffer_run _ q Hs2)).
  erewrite bind_Ok; [|apply (lookup_loop_run (L := L) n reader tbl); try done].
  2:{ unfold sparkey_logreader_maxvaluelen, sparkey_hash_getreader.
      replace (r_header (hr_log reader)) with (st_header S) by (symmetry; apply Hlog).
      rewrite st_value_len. apply value_sizes. }
  erewrite bind_Ok.
  2:{ apply call_Ok. cbn [c_os q]. rewrite (hash_close_run o2 reader Hfd (proj1 Hlog) (proj1 Hon)). reflexivity. }
  set (o3 := set_fds _ _). exists o3. split; [done|]. split; [|done].
  split_and!; try done. exact (closed_wf (hr_fd reader) _ (closed_wf (r_fd (hr_log reader)) o2 Hwf2)).
Qed.

End Runs.

(** ** Property *)

(** C25. Every candidate of the benchmark works for any positive number of elements, a
    hundred below 2^31, and any random numbers, if the compressed log has no more elements
    than bytes, so that it opens: all elements are written and indexed, every lookup finds
    the value that was written, only the number of collisions is printed, which is the one
    in the header of the index, and every descriptor is closed. *)
Theorem bench_finds_values {C : Codec} file fuel n rands c t bs S p :
  let o := c_os p in
  (c, t, bs) ∈ [(sparkey_candidate_uncompressed file fuel, SPARKEY_COMPRESSION_NONE, 0);
                (sparkey_candidate_snappy file fuel, SPARKEY_COMPRESSION_SNAPPY, 4096);
                (sparkey_candidate_zstd file fuel, SPARKEY_COMPRESSION_ZSTD, 4096)] →
  sizes_ok n 0 0 → 0 < n → Forall (λ x, 0 ≤ x) rands → os_sched o = [] → os_wf o →
  (8 ≤ length (os_entropy o))%nat → bytes_ok (os_entropy o) → no_index_of o "test.spi" (seed_of o) →
  written t bs (seed_of o) (test_entries n 0 0) S → store_ok S → n < Z.of_nat fuel →
  let '(r, p') := (_ ← c_create c n; c_randomaccess c n rands) p in
  r = Ok tt ∧ (∀ fd, os_fds (c_os p') !! fd = os_fds o !! fd) ∧
  ∃ h tbl, has_file (c_os p') "test.spi" (hashheader_bytes h ++ tbl) ∧ stored_index S h tbl ∧
    c_stdout p' = c_stdout p ++ [("    Number of hash collisions: " +:+ pretty (hh_hash_collisions h))%string].
Proof.
  intros o Hcand Hsz Hn Hrands Hs Hwf He Hb Hno Hw Hok Hfuel. destruct (written_entries _ _ _ _ _ Hw) as [HS _].
  destruct (sparkey_create_run file fuel n t bs S p Hsz Hs Hwf He Hb Hno Hw Hok Hfuel)
    as (o1 & Hcreate & Hwf1 & Hfds1 & Hlf & h & tbl & Hf & Hidx).
  destruct (randomaccess_run file n rands S h tbl (set_c_os o1 p) Hlf Hf Hidx Hwf1 HS Hsz Hn Hrands)
    as (o2 & Hrun & Hsame & Hfds2).
  assert (Hc : c_create c n = sparkey_create file fuel n t bs ∧ c_randomaccess c n rands = sparkey_randomaccess file n rands)
    by (rewrite !elem_of_cons, elem_of_nil in Hcand; by destruct Hcand as [[= -> -> ->]|[[= -> -> ->]|[[= -> -> ->]|[]]]]).
  destruct Hc as [-> ->]. rewrite (bind_Ok _ _ _ _ _ Hcreate), Hrun. cbn [c_os c_stdout set_c_os] in *.
  split; [done|]. split; [intros fd; by rewrite Hfds2|]. exists h, tbl. split; [|done]. apply (has_file_same o1); (done || apply Hsame).
Qed.

Lemma bench_finds_values_witness :
  let c := sparkey_candidate_uncompressed (C := identity_codec) "bench.c" 9 in
  ((_ ← c_create c 3; c_randomaccess c 3 [4; 2; 0]) (process_empty [])).1 = Ok tt.
Proof.
  intros c. assert (Hok : log_ok (test_entries 3 0 0)) by (split; [repeat constructor; done|done]).
  pose proof (bench_finds_values (C := identity_codec) "bench.c" 9 3 [4; 2; 0] c SPARKEY_COMPRESSION_NONE 0
    (plain_stored (C := identity_codec) (seed_of (c_os (process_empty []))) _ ltac:(done) Hok) (process_empty [])) as H.
  destruct ((_ ← c_create c 3; c_randomaccess c 3 [4; 2; 0]) (process_empty [])) as [r p']. apply H; clear H; try done.
  - by left.
  - by repeat constructor.
  - apply process_empty_wf.
  - cbn; lia.
  - by repeat constructor.
  - by left.
  - by constructor.
  - split; [|done]. intros n e He. do 3 (destruct n as [|n]; [by simplify_eq/=|]). done.
Defined.
