(* ===== verification/TestHash.v ===== *)
(** * The test of the hash functions (testhash.c)

    The program with all its vectors, run on Murmur.v.  In the test programs a string
    of [c_stdout] is what one call of [printf] shows, without the newline at its end. *)

From stdpp Require Import base gmap list strings numbers pretty.
From Stdlib Require Import ZArith Lia Ascii.
From S2P Require Import Prelude Murmur Cli.

Local Open Scope string_scope.
Local Open Scope list_scope.
Local Open Scope Z_scope.

Definition assert_murmurhash3_x86_32 (expected : Z) (s : list Z) (seed : Z) : MX unit :=
  len ← of_opt (strlen s);
  actual ← of_opt (murmurhash32_hash s (Z.of_nat len) seed);
  if decide (expected ≠ actual) then
    _ ← printf [" failed!"];
    _ ← printf ["Expected " +:+ pretty expected +:+ " but got " +:+ pretty actual];
    fail 1
  else mret tt.

Definition assert_murmurhash3_x64_64 (expected : Z) (s : list Z) (seed : Z) : MX unit :=
  len ← of_opt (strlen s);
  actual ← of_opt (murmurhash64_hash s (Z.of_nat len) seed);
  if decide (expected ≠ actual) then
    _ ← printf [" failed!"];
    _ ← printf ["Expected " +:+ pretty expected +:+ " but got " +:+ pretty actual];
    fail 1
  else mret tt.

Definition parsehex (c : Z) : MX Z :=
  if decide (48 ≤ c ∧ c ≤ 57) then mret (c - 48) else
  if decide (97 ≤ c ∧ c ≤ 102) then mret (10 + (c - 97)) else
  _ ← printf ["illegal char " +:+ String (ascii_of_nat (Z.to_nat c)) ""];
  fail 1.

(** [i] is [2 * j]; the string is overwritten while it is read. *)
Fixpoint hex_loop (todo j : nat) (s : list Z) : MX (list Z) :=
  match todo with
  | O => mret (<[j := 0]> s)
  | S todo =>
      c ← of_opt (s !! (2 * j)%nat);
      high ← parsehex c;
      c ← of_opt (s !! (2 * j + 1)%nat);
      low ← parsehex c;
      hex_loop todo (S j) (<[j := Z.land (high * 16 + low) 0xFF]> s)
  end.

Definition hex (s : list Z) : MX (list Z) :=
  n ← of_opt (strlen s);
  hex_loop (Nat.div (n + 1) 2) 0 s.

(** The arguments of the calls in [main]. *)
Definition vectors_32 : list (Z * string * Z) := [
  (0x5af6cd1b, "z", 0x5942ad3d);
  (0xa9489813, "2", 0x71905ea7);
  (0x77f4f434, "d", 0x64ee4d11);
  (0x60fe8162, "L", 0x29fc249d);
  (0xaaf896b2, "K", 0x14aae517);
  (0xab2cb048, "N", 0x7ce81cf5);
  (0x768beec5, "C", 0x743d7979);
  (0xf15a77be, "G", 0x29bc6a00);
  (0xeec4866a, "h", 0x53dd72a4);
  (0x8426f89d, "u", 0x74fd834f);
  (0x680b80bc, "87", 0x500dc5a2);
  (0x7b18c4e1, "Nx", 0x10d5412e);
  (0x48e0a968, "cI", 0x142f8840);
  (0xc520f6b6, "hW", 0x6a059ad5);
  (0xd63c105f, "EZ", 0x5b95f97d);
  (0x758c1adb, "RE", 0x64d5803e);
  (0x6c3d90a4, "Jo", 0x79806555);
  (0xbf55dfa4, "wp", 0x673e5532);
  (0x845dfd0e, "X5", 0x10fabf32);
  (0xd0fd9be9, "eX", 0x3e3f0006);
  (0x1a5fd660, "t5g", 0x696736c5);
  (0x4d7530a2, "RLH", 0x20132ae9);
  (0x5d35be0a, "tVk", 0x282bd870);
  (0x28d2607c, "LYn", 0x54079486);
  (0x10215d71, "O1k", 0x46d645a5);
  (0x52eaf10d, "n43", 0x26abfa0c);
  (0x2ac6ce75, "oZR", 0x2a968e7e);
  (0xe72558bd, "dPb", 0x3dbae557);
  (0x4d6cccf7, "Spe", 0x54657cad);
  (0x7c745209, "8UM", 0x3e48db7c);
  (0x8bf5674b, "P4Yy", 0x1eaef7eb);
  (0x85f4a325, "jIPi", 0x3520d897);
  (0x7aa5be50, "kF5l", 0x6afc31e1);
  (0x52b0eaa5, "rkgt", 0x2e97cd16);
  (0xe98b1bc8, "3CfW", 0x79e981e1);
  (0x94e69772, "rD8l", 0x4525aef4);
  (0xa56544ba, "GbqE", 0x0cda2629);
  (0xdb4bcc63, "rVoe", 0x5f826d97);
  (0xc5c013ab, "pyQs", 0x2dc2c7d0);
  (0x9597719c, "fTev", 0x5287e7bc);
  (0xb686d4ac, "MxZZr", 0x60f7a89e);
  (0xa4a5df0d, "r44Kq", 0x25c6baae);
  (0x064d9dc2, "VRmBi", 0x37b23d99);
  (0x066b6073, "Zxso5", 0x3b07509c);
  (0x112dfc59, "QXxHc", 0x21626c57);
  (0x57912558, "3Wy0U", 0x2fa53851);
  (0xdd28cf06, "Xl113", 0x20af4caa);
  (0xc4debd5a, "KXj6y", 0x136fd981);
  (0xd9e85fa5, "ox6QT", 0x57c7dc38);
  (0x95bf2145, "7H7Eo", 0x5330848d);
  (0xfc2267da, "Dpcbq6", 0x62179576);
  (0x6b79bc0c, "lpcksC", 0x12185758);
  (0xcc289239, "pVbXuz", 0x212382bc);
  (0xf4821c5c, "znlHu2", 0x16a5a1f8);
  (0xe77ffaed, "7q4KQg", 0x0f82524e);
  (0xba2c718b, "ek4xJe", 0x1b09ee75);
  (0x7c7a1ae5, "bQWzJ7", 0x2c3267c8);
  (0x1ad4b45d, "cEXLZi", 0x73d20e88);
  (0xd82230a5, "sjczJg", 0x33971a37);
  (0x985ab014, "xubJMe", 0x5c48c98c);
  (0xeb404e51, "vq8Fh2c", 0x1f66134c);
  (0x36338e61, "9GaLBTK", 0x06e59da6);
  (0x4e9a1213, "lcbwJSM", 0x57465553);
  (0x5e52230d, "ofa7Zom", 0x5a7118db);
  (0x47b027d7, "Ps84uk2", 0x5b0a53bf);
  (0xa6ceb252, "YbkA44s", 0x1f5eee28);
  (0x4ed59cbd, "fDUYvEX", 0x14c22e1f);
  (0x78b8c94f, "R8XRujm", 0x6dab91f5);
  (0xe0dc1077, "JsldMmM", 0x540d2fa0);
  (0x5f039b2f, "x6kB8MX", 0x67e8ea83);
  (0xa76df046, "nRkRwhIn", 0x207e8cf7);
  (0x36450e8b, "FeSWy9F0", 0x5924b4c3);
  (0x77534a7e, "QKRCtmGN", 0x2a50bd07);
  (0xc1aeb318, "PyTaTKsK", 0x27d1cc44);
  (0xa9a238c4, "KrC56OX3", 0x25307b55);
  (0x5f0cbf3c, "7GlAx4p9", 0x2c6329e5);
  (0x104b3222, "LOiEBQxL", 0x03cc6c96);
  (0x0f5585c3, "gesuWT41", 0x493952a8);
  (0x38c2e077, "RXZc2FvC", 0x712c0c42);
  (0x559c4fae, "x1k4K6nm", 0x21252bd5);
  (0xc647453d, "bUqT8CmCy", 0x679bf501);
  (0x250fbe16, "Fy9wt8GvM", 0x2a8c58d5);
  (0x2cac3c9d, "7WH6eLOk6", 0x4c1c6c2c);
  (0x83423803, "1i2sba4vL", 0x3aeb8b07);
  (0x61c28378, "Hq7OUAXy5", 0x3ee5d761);
  (0x43a253e4, "HcDmgQ62a", 0x1dc3649c);
  (0xeed79977, "ccudCEnE7", 0x025dfa90);
  (0x6d328322, "fMwmBoUwU", 0x2b5b80d5);
  (0xec7c731b, "dA9OWpE2r", 0x23cbd625);
  (0xc6461907, "fCXHPzjad", 0x0813cf01);
  (0x44016c59, "hrbLLM8Gg2", 0x60061445);
  (0xe62f751c, "rCNexcQxCD", 0x1d31c96c);
  (0x9ba3b339, "cAs17J9j8q", 0x6c7b6c7a);
  (0x03d95171, "kct4k9jkNK", 0x05d4ab2d);
  (0x7be2bea3, "AYsKPXkqIw", 0x601c1b35);
  (0xa9ba5109, "8v6RFp037i", 0x4d084779);
  (0xd7ac229c, "BkxIDSvmN5", 0x7335fb60);
  (0x438af124, "fO7c8ySDx0", 0x37f2a5ae);
  (0xccc7967c, "DSJ3QN860J", 0x14b012c8);
  (0x1d0fcdae, "ys2qVmdZGq", 0x49d63415);
  (0x4c775fad, "MATituNtBqj", 0x6b5dc0f4);
  (0x17d4e9d5, "r75Ab6hAEHA", 0x133fadea);
  (0xc4c7ed03, "DWfCADpkdgC", 0x1f054942);
  (0x5c27acf1, "Lp6mOpEdvIL", 0x6be5f8a6);
  (0x2858694c, "O3eqIOslKFX", 0x1882c9f7);
  (0xc0fa3d3f, "ikDtzg8kDeE", 0x0bbf7d11);
  (0x2d373d9a, "BgD4YoJMpXa", 0x73745d2c);
  (0x5ae23c24, "MCrufnNxHp1", 0x6b2df5de);
  (0x35942600, "F7ygjcGUtjZ", 0x27d7afaf);
  (0x3615e0ae, "FIa3Dk9nVAS", 0x6c05663c);
  (0xa5b3a4d7, "XDGD2FRFKqW3", 0x4a8e0f3c);
  (0xe6d34f5d, "AX1RUrwAzxeT", 0x1963c5de);
  (0xdd0415c1, "BMdrVa3BL5eD", 0x14ecaabb);
  (0x19e00c1c, "Y1F1zdWB4P0y", 0x65f40099);
  (0x35273cf7, "z6BqIbbVA66D", 0x21ff80d3);
  (0xad457e84, "PHTqqPr3OZgK", 0x658ce6ce);
  (0x1cacbbbb, "kzySX5WwvFHE", 0x4595c4e4);
  (0xaf2ea51c, "gKETpuAgU05k", 0x6acce2b7);
  (0x493b2673, "TjhCRB9ns6so", 0x1e29369f);
  (0xff3d954a, "V1gACwkeqIG0", 0x796c1370);
  (0x6cfdb1fb, "zZ2T0TaitZRDm", 0x27d44dd7);
  (0x8978de82, "HOGgJHxhh3Awt", 0x409bb938);
  (0xd0d8bf39, "cseLreCp6MHzL", 0x6cc32945);
  (0x16c69bd0, "a5QQTw6BeDSvH", 0x7238e3b6);
  (0x509e85d5, "ZaIcAXXZ9ypfk", 0x42e1c174);
  (0x16a4cf34, "P4BX9sN1YUAax", 0x0c043706);
  (0xdcb3aba7, "GeTFnzPVuLVEj", 0x201dc2fc);
  (0x543191bb, "TBmGFWENorMkl", 0x4a750e68);
  (0x4935e8ee, "vRM95DMqbAmFl", 0x1970e23f);
  (0x113cd28c, "jExbfRRTNvE9V", 0x4259aaa0);
  (0x984cd50c, "ugKX7w6b8QzjqV", 0x617caf92);
  (0x0a25ae7e, "JagnFrBxgukM8s", 0x04a5cbc1);
  (0x922f28b4, "wWVgT1KXaSLJ9c", 0x73be353f);
  (0xa73e1a95, "8VNmhrNSY1kgNq", 0x6cd0c52c);
  (0xf46d4e0c, "sWCmatlUqvLceU", 0x71116526);
  (0xc9406d50, "R0fDmu47k09EeU", 0x7b028cc6);
  (0xdf922105, "VlYxF6101ptMzH", 0x2e1098a4);
  (0x53017bf2, "TxF9aZBc5WccAq", 0x0c852728);
  (0xd874ca90, "DjpzR2GQ0FftpP", 0x5ac63851);
  (0x4d5a5b39, "3IEGPOGrYJlaVT", 0x7874e0f4);
  (0x58c88556, "ZuSn4HnIxonMPMz", 0x039f6a92);
  (0xb24c9a68, "NiAu5m8ukRPsKJZ", 0x06adf34b);
  (0x679f4ac0, "dP4fwsX1OiLD4lA", 0x093208b2);
  (0x532c6433, "BakGxs9PhYiZFhG", 0x7bb93d13);
  (0x2a7819c0, "6L6Ab4BZkmApF8f", 0x3cb78b3a);
  (0x74c59cae, "hxVOX4Bc0TbG8Rx", 0x1d8110d8);
  (0xba356ecc, "ADMLFlI0GhnlpAA", 0x4332771a);
  (0xc69a4b08, "5vs2z4exVnd4eIg", 0x5f5cfda7);
  (0xc1de77d7, "k1yZkfX0wkkVSUA", 0x4d2576a5);
  (0xc0005f6d, "p2XW49t0wF2Lngy", 0x5acc225d)
].

Definition vectors_64 : list (Z * string * Z) := [
  (0xa6fca4d63e0eb97e, "z", 0x5942ad3d);
  (0xe0f5dbd0eda15dca, "z", 0xd942ad3d);
  (0xf9b1243c1294ad79, "2", 0x71905ea7);
  (0x2db3aa2944cf7005, "2", 0xf1905ea7);
  (0xf621d456b28f4de5, "d", 0x64ee4d11);
  (0x3d2b3a5d19c9c3e8, "d", 0xe4ee4d11);
  (0x70a655b76fee736a, "L", 0x29fc249d);
  (0x4696cfcba0e6b671, "L", 0xa9fc249d);
  (0x7f9f62611e52dc35, "K", 0x14aae517);
  (0x3b02b688e1a50d2c, "K", 0x94aae517);
  (0x936de9d1ed11cbb4, "N", 0x7ce81cf5);
  (0x1319696ad094b1f2, "N", 0xfce81cf5);
  (0x1e407e07821067ab, "C", 0x743d7979);
  (0xe78c8b0cbacee127, "C", 0xf43d7979);
  (0xb24065097ec5b7e3, "G", 0x29bc6a00);
  (0x7b69fd3800d69a81, "G", 0xa9bc6a00);
  (0xd33b3d98a1749a67, "h", 0x53dd72a4);
  (0x3c6fc6135d0dd21f, "h", 0xd3dd72a4);
  (0xd52442dbe5e0fe10, "u", 0x74fd834f);
  (0x3a9553995d0912b9, "u", 0xf4fd834f);
  (0xe1b85aed290b7fc3, "87", 0x500dc5a2);
  (0x76df971d54e2ef9f, "87", 0xd00dc5a2);
  (0xa31e32bd5bba6652, "Nx", 0x10d5412e);
  (0xe0f8e90fcdc280ca, "Nx", 0x90d5412e);
  (0xae61ed4bdc278b13, "cI", 0x142f8840);
  (0x6e2109f4053b7f0e, "cI", 0x942f8840);
  (0xca6c3a9f91bd1741, "hW", 0x6a059ad5);
  (0xbf7ead591645e979, "hW", 0xea059ad5);
  (0x1df8a2648ad52718, "EZ", 0x5b95f97d);
  (0xbc91749523f6e674, "EZ", 0xdb95f97d);
  (0x81ceb1f55acb717c, "RE", 0x64d5803e);
  (0xa909328fe4649b9d, "RE", 0xe4d5803e);
  (0x86c1d8de579f327c, "Jo", 0x79806555);
  (0x87fff1e71e202c6b, "Jo", 0xf9806555);
  (0x32a2d468afca0343, "wp", 0x673e5532);
  (0xe8885c5e0b829c6d, "wp", 0xe73e5532);
  (0x85fb2007b85b6499, "X5", 0x10fabf32);
  (0xb3305b8e92599504, "X5", 0x90fabf32);
  (0x80810e50c192fa49, "eX", 0x3e3f0006);
  (0x02826fdc5218c1b7, "eX", 0xbe3f0006);
  (0xe5eba93b34ba7a71, "t5g", 0x696736c5);
  (0x9ddf2efcbd53ffc5, "t5g", 0xe96736c5);
  (0x05a626d6bbab60f1, "RLH", 0x20132ae9);
  (0x8c262ba98d20cf67, "RLH", 0xa0132ae9);
  (0xfc7e2dc47f835549, "tVk", 0x282bd870);
  (0xa25622c830b03c08, "tVk", 0xa82bd870);
  (0xafc167ef6438e24c, "LYn", 0x54079486);
  (0x619238dde5708ee0, "LYn", 0xd4079486);
  (0x12e2fb07c3b06731, "O1k", 0x46d645a5);
  (0xaeb8272b127922c4, "O1k", 0xc6d645a5);
  (0xfab82b0fe61905d9, "n43", 0x26abfa0c);
  (0x7453001b4a81f9ec, "n43", 0xa6abfa0c);
  (0x293c940111f90711, "oZR", 0x2a968e7e);
  (0xd3fecbecab749d3c, "oZR", 0xaa968e7e);
  (0xbd76c681714bf8be, "dPb", 0x3dbae557);
  (0xa87db71cabb91ba9, "dPb", 0xbdbae557);
  (0x84d4b82090f419d3, "Spe", 0x54657cad);
  (0x8466e5a48b22a8f9, "Spe", 0xd4657cad);
  (0xd14e92954ec8c017, "8UM", 0x3e48db7c);
  (0x9aea37faf4edfce1, "8UM", 0xbe48db7c);
  (0xd82220a684d5575c, "P4Yy", 0x1eaef7eb);
  (0xea6c917d161a7a63, "P4Yy", 0x9eaef7eb);
  (0xc34e712999784f82, "jIPi", 0x3520d897);
  (0x146fde98c7a3294a, "jIPi", 0xb520d897);
  (0x1a5fc0f13e792a06, "kF5l", 0x6afc31e1);
  (0x0204837951fbc519, "kF5l", 0xeafc31e1);
  (0x3539ddb891c78c08, "rkgt", 0x2e97cd16);
  (0xbe43ba6f025b3478, "rkgt", 0xae97cd16);
  (0x08ad0a28633be94f, "3CfW", 0x79e981e1);
  (0xad1de795a1df1c42, "3CfW", 0xf9e981e1);
  (0x7bd0ff697ae22885, "rD8l", 0x4525aef4);
  (0xeac5efaaaefd4828, "rD8l", 0xc525aef4);
  (0xa3257abe0c0885d9, "GbqE", 0x0cda2629);
  (0x1ed402ed5b2b0815, "GbqE", 0x8cda2629);
  (0xbdf698c6823e81ff, "rVoe", 0x5f826d97);
  (0xc44c9cf9489fcf78, "rVoe", 0xdf826d97);
  (0xea82324d005f0c6f, "pyQs", 0x2dc2c7d0);
  (0xd132db91c4c1e580, "pyQs", 0xadc2c7d0);
  (0x441b0eb457158bf5, "fTev", 0x5287e7bc);
  (0x8f5e336a7f70b2ed, "fTev", 0xd287e7bc);
  (0xa53e4231fed0bdd9, "MxZZr", 0x60f7a89e);
  (0x573c2c9f8ab82ab7, "MxZZr", 0xe0f7a89e);
  (0xe9b910b63470660c, "r44Kq", 0x25c6baae);
  (0x9c846c3f5e33cf60, "r44Kq", 0xa5c6baae);
  (0xf172670df26e8562, "VRmBi", 0x37b23d99);
  (0xcda4f1a71751933f, "VRmBi", 0xb7b23d99);
  (0x3924aa3337159204, "Zxso5", 0x3b07509c);
  (0xa43ed8c0b8f1364f, "Zxso5", 0xbb07509c);
  (0x937ddd28efa02344, "QXxHc", 0x21626c57);
  (0x957f4e5098f3e3f3, "QXxHc", 0xa1626c57);
  (0x8b3298b69045640d, "3Wy0U", 0x2fa53851);
  (0xe557ada9e2523294, "3Wy0U", 0xafa53851);
  (0x84f7bf31ee8cfadb, "Xl113", 0x20af4caa);
  (0x1d092bd7649cf56f, "Xl113", 0xa0af4caa);
  (0xd297767b6638ca69, "KXj6y", 0x136fd981);
  (0xf43aa25e5c126aa1, "KXj6y", 0x936fd981);
  (0x9d41e07d41827a06, "ox6QT", 0x57c7dc38);
  (0xa1d32016b95c58ce, "ox6QT", 0xd7c7dc38);
  (0xd9b7810b8498b5fc, "7H7Eo", 0x5330848d);
  (0x5c1b9f873f27ff33, "7H7Eo", 0xd330848d);
  (0x6f0a2a4380dbf274, "Dpcbq6", 0x62179576);
  (0xdd0ea1f8da26f2e9, "Dpcbq6", 0xe2179576);
  (0xe54d8f8ab88b7171, "lpcksC", 0x12185758);
  (0xd0b1045daed16381, "lpcksC", 0x92185758);
  (0xc72b9c75b10c9963, "pVbXuz", 0x212382bc);
  (0x6e250815ba726fa8, "pVbXuz", 0xa12382bc);
  (0xc990fd7ef463f19d, "znlHu2", 0x16a5a1f8);
  (0x81cea4f63297028d, "znlHu2", 0x96a5a1f8);
  (0x97d15eadb4c92183, "7q4KQg", 0x0f82524e);
  (0xa89be99538633821, "7q4KQg", 0x8f82524e);
  (0xdd553de0a93acb70, "ek4xJe", 0x1b09ee75);
  (0x707807340f350e42, "ek4xJe", 0x9b09ee75);
  (0xde378b5af10b4ac1, "bQWzJ7", 0x2c3267c8);
  (0x2d098433d609f857, "bQWzJ7", 0xac3267c8);
  (0xa712cd195611cd35, "cEXLZi", 0x73d20e88);
  (0x2cc031739638870e, "cEXLZi", 0xf3d20e88);
  (0x16c6e0bc6db1acef, "sjczJg", 0x33971a37);
  (0xcdf52c033c7564c4, "sjczJg", 0xb3971a37);
  (0x0a7f710bc18e083e, "xubJMe", 0x5c48c98c);
  (0x973f12fcec9bb11d, "xubJMe", 0xdc48c98c);
  (0x5e97a97a5868665d, "vq8Fh2c", 0x1f66134c);
  (0x01d299986f35c3ad, "vq8Fh2c", 0x9f66134c);
  (0x0d42a63dd5b55c31, "9GaLBTK", 0x06e59da6);
  (0x1a7a4c790e6e16c4, "9GaLBTK", 0x86e59da6);
  (0x7c2fbd63ffd0bd54, "lcbwJSM", 0x57465553);
  (0xf2628d6cc4c53034, "lcbwJSM", 0xd7465553);
  (0x934d4166dd44587c, "ofa7Zom", 0x5a7118db);
  (0xf0d52864cfe7d01f, "ofa7Zom", 0xda7118db);
  (0x1a1dd5b72e593f4a, "Ps84uk2", 0x5b0a53bf);
  (0xfbdbcad39912360f, "Ps84uk2", 0xdb0a53bf);
  (0x8d4b8e4f0a514088, "YbkA44s", 0x1f5eee28);
  (0x5d91a1769f945163, "YbkA44s", 0x9f5eee28);
  (0x798754262fcd2ba3, "fDUYvEX", 0x14c22e1f);
  (0x3ec159b798555b2f, "fDUYvEX", 0x94c22e1f);
  (0x3b85a4e7149aee3c, "R8XRujm", 0x6dab91f5);
  (0xacacc0adb2264e0b, "R8XRujm", 0xedab91f5);
  (0xa8e4f6f60020b4df, "JsldMmM", 0x540d2fa0);
  (0x9f35ac7e0197fb32, "JsldMmM", 0xd40d2fa0);
  (0x3a0a8ba6bdbb8a0e, "x6kB8MX", 0x67e8ea83);
  (0x8f898f2976331671, "x6kB8MX", 0xe7e8ea83);
  (0x93247c2b01725d60, "nRkRwhIn", 0x207e8cf7);
  (0x10418c5a4d8d128b, "nRkRwhIn", 0xa07e8cf7);
  (0xcba7635172d8c7dd, "FeSWy9F0", 0x5924b4c3);
  (0x17498cb7a9ca60bd, "FeSWy9F0", 0xd924b4c3);
  (0xc90245457a8885a7, "QKRCtmGN", 0x2a50bd07);
  (0xbf0e2d7e93f5586f, "QKRCtmGN", 0xaa50bd07);
  (0x7165b165c8360211, "PyTaTKsK", 0x27d1cc44);
  (0xe5e87aed270f9ce3, "PyTaTKsK", 0xa7d1cc44);
  (0x7ddf3fa5ab52cec0, "KrC56OX3", 0x25307b55);
  (0xd7f8ff97735deb59, "KrC56OX3", 0xa5307b55)
].

Definition more_vectors_64 : list (Z * string * Z) := [
  (0xb5a9279e82aac1b3, "7GlAx4p9", 0x2c6329e5);
  (0xac7590a8d766cc42, "7GlAx4p9", 0xac6329e5);
  (0xd9ea08745dd2d53f, "LOiEBQxL", 0x03cc6c96);
  (0x93983e4806963ae4, "LOiEBQxL", 0x83cc6c96);
  (0x4d186387e5d8b881, "gesuWT41", 0x493952a8);
  (0x4d85476289fdecb8, "gesuWT41", 0xc93952a8);
  (0x658f5950973e3f81, "RXZc2FvC", 0x712c0c42);
  (0x7be2648eac3384f5, "RXZc2FvC", 0xf12c0c42);
  (0xb5243b0035e097c1, "x1k4K6nm", 0x21252bd5);
  (0x913dde647a98c973, "x1k4K6nm", 0xa1252bd5);
  (0xf856f841e957285d, "bUqT8CmCy", 0x679bf501);
  (0x618e3d1f4308c7a2, "bUqT8CmCy", 0xe79bf501);
  (0xa8e29343f374cb67, "Fy9wt8GvM", 0x2a8c58d5);
  (0xbb86409aff0c6537, "Fy9wt8GvM", 0xaa8c58d5);
  (0xfdb02a7f0874b643, "7WH6eLOk6", 0x4c1c6c2c);
  (0xf494040e5bbc2257, "7WH6eLOk6", 0xcc1c6c2c);
  (0xa2af5b940b5b3d0f, "1i2sba4vL", 0x3aeb8b07);
  (0x1cdb89f381589944, "1i2sba4vL", 0xbaeb8b07);
  (0x398a2392bb4acfcc, "Hq7OUAXy5", 0x3ee5d761);
  (0xd4e06f80c1450d28, "Hq7OUAXy5", 0xbee5d761);
  (0x91bb48ca86628216, "HcDmgQ62a", 0x1dc3649c);
  (0x7d47f53189777091, "HcDmgQ62a", 0x9dc3649c);
  (0x58927263c2de3207, "ccudCEnE7", 0x025dfa90);
  (0x8f178d4c8e5b3323, "ccudCEnE7", 0x825dfa90);
  (0x426d002e5784c30a, "fMwmBoUwU", 0x2b5b80d5);
  (0x9d0fcc51347742bc, "fMwmBoUwU", 0xab5b80d5);
  (0x6b15280a9bd9cb8b, "dA9OWpE2r", 0x23cbd625);
  (0x798af9ce6a756070, "dA9OWpE2r", 0xa3cbd625);
  (0xeb385ccc7eb7eb6a, "fCXHPzjad", 0x0813cf01);
  (0xce4e81da118b8a50, "fCXHPzjad", 0x8813cf01);
  (0xe27e904a557952d9, "hrbLLM8Gg2", 0x60061445);
  (0x8ce1b6b858f45d44, "hrbLLM8Gg2", 0xe0061445);
  (0x8d58cff892b329ac, "rCNexcQxCD", 0x1d31c96c);
  (0x0cc0bb7c3a7d8d22, "rCNexcQxCD", 0x9d31c96c);
  (0x7d4323af83bec0d2, "cAs17J9j8q", 0x6c7b6c7a);
  (0x3d002ef23d0a4273, "cAs17J9j8q", 0xec7b6c7a);
  (0x040faa0771b49b03, "kct4k9jkNK", 0x05d4ab2d);
  (0x9c61df2b7417c21b, "kct4k9jkNK", 0x85d4ab2d);
  (0x969e15e57d384309, "AYsKPXkqIw", 0x601c1b35);
  (0x4db267abe2fdcfa8, "AYsKPXkqIw", 0xe01c1b35);
  (0x054ab6fd1bc43751, "8v6RFp037i", 0x4d084779);
  (0xead5447b57226b4b, "8v6RFp037i", 0xcd084779);
  (0x55a92a79fe8ee484, "BkxIDSvmN5", 0x7335fb60);
  (0x6525ed107f720c5c, "BkxIDSvmN5", 0xf335fb60);
  (0x32254dc61e3b3d4b, "fO7c8ySDx0", 0x37f2a5ae);
  (0xe5d799d77b18b5a3, "fO7c8ySDx0", 0xb7f2a5ae);
  (0xa145f08ec7eb16c6, "DSJ3QN860J", 0x14b012c8);
  (0x47b5b44970828481, "DSJ3QN860J", 0x94b012c8);
  (0x42d89a2c08ac44a4, "ys2qVmdZGq", 0x49d63415);
  (0xf1c31424a57037dd, "ys2qVmdZGq", 0xc9d63415);
  (0x27bffa3e20d9cc88, "MATituNtBqj", 0x6b5dc0f4);
  (0x1a48ee09c9f4cc06, "MATituNtBqj", 0xeb5dc0f4);
  (0x5691f7473736f3fb, "r75Ab6hAEHA", 0x133fadea);
  (0xe0b487a8fd596fc2, "r75Ab6hAEHA", 0x933fadea);
  (0xfc48349bfd6b56e1, "DWfCADpkdgC", 0x1f054942);
  (0x483bf6382101e279, "DWfCADpkdgC", 0x9f054942);
  (0xdb31bdb2b45ff351, "Lp6mOpEdvIL", 0x6be5f8a6);
  (0x6b35dcd7aa11ecbb, "Lp6mOpEdvIL", 0xebe5f8a6);
  (0xe9bc3761d239f10b, "O3eqIOslKFX", 0x1882c9f7);
  (0x0431b34d64a49d52, "O3eqIOslKFX", 0x9882c9f7);
  (0x989908e6994fc13b, "ikDtzg8kDeE", 0x0bbf7d11);
  (0x3552567355a13f6b, "ikDtzg8kDeE", 0x8bbf7d11);
  (0x3d1784d85d024eef, "BgD4YoJMpXa", 0x73745d2c);
  (0xd0c627dade12c706, "BgD4YoJMpXa", 0xf3745d2c);
  (0xa31353064e8e5581, "MCrufnNxHp1", 0x6b2df5de);
  (0x1bcd40da7dbab150, "MCrufnNxHp1", 0xeb2df5de);
  (0x5c14dd1fa0c27931, "F7ygjcGUtjZ", 0x27d7afaf);
  (0xc29b543577d847f3, "F7ygjcGUtjZ", 0xa7d7afaf);
  (0xad6a60ebc626f696, "FIa3Dk9nVAS", 0x6c05663c);
  (0x980f15f3ff2828d3, "FIa3Dk9nVAS", 0xec05663c);
  (0xe5a30dc9f2da30f9, "XDGD2FRFKqW3", 0x4a8e0f3c);
  (0x5cd8e71f8af5003f, "XDGD2FRFKqW3", 0xca8e0f3c);
  (0x28bc443294717831, "AX1RUrwAzxeT", 0x1963c5de);
  (0xfa7764a42c55a0ec, "AX1RUrwAzxeT", 0x9963c5de);
  (0x4a65b3241838e348, "BMdrVa3BL5eD", 0x14ecaabb);
  (0x164c8004603b4af3, "BMdrVa3BL5eD", 0x94ecaabb);
  (0x7ecb780f5d634a43, "Y1F1zdWB4P0y", 0x65f40099);
  (0x7339ac6e5f56670e, "Y1F1zdWB4P0y", 0xe5f40099);
  (0x7143a45da501791b, "z6BqIbbVA66D", 0x21ff80d3);
  (0xf4f2ce640d890109, "z6BqIbbVA66D", 0xa1ff80d3);
  (0xa4fe7b81c2e25675, "PHTqqPr3OZgK", 0x658ce6ce);
  (0x1c4daf0d87bf08ad, "PHTqqPr3OZgK", 0xe58ce6ce);
  (0x0e988bc61802bfcb, "kzySX5WwvFHE", 0x4595c4e4);
  (0x4f70a6c01b14fc24, "kzySX5WwvFHE", 0xc595c4e4);
  (0x84313ce5fc15d1cc, "gKETpuAgU05k", 0x6acce2b7);
  (0xbe9bf4d2a6f37d63, "gKETpuAgU05k", 0xeacce2b7);
  (0x669b5b4d6f6f11be, "TjhCRB9ns6so", 0x1e29369f);
  (0x6d1d2c43022f29d1, "TjhCRB9ns6so", 0x9e29369f);
  (0xc455102e0ad07346, "V1gACwkeqIG0", 0x796c1370);
  (0xfe3c12c8ce846f66, "V1gACwkeqIG0", 0xf96c1370);
  (0x00c4a5d789d3f23f, "zZ2T0TaitZRDm", 0x27d44dd7);
  (0x40fac12de28a3a96, "zZ2T0TaitZRDm", 0xa7d44dd7);
  (0xd90008a6c547750b, "HOGgJHxhh3Awt", 0x409bb938);
  (0x7c4a36878e848577, "HOGgJHxhh3Awt", 0xc09bb938);
  (0x6796bd87956bae76, "cseLreCp6MHzL", 0x6cc32945);
  (0xeb231c6435da66c1, "cseLreCp6MHzL", 0xecc32945);
  (0x50772f03b5967e80, "a5QQTw6BeDSvH", 0x7238e3b6);
  (0xf08313506907c922, "a5QQTw6BeDSvH", 0xf238e3b6);
  (0x58780f031b56728c, "ZaIcAXXZ9ypfk", 0x42e1c174);
  (0xf2d17b059be60f6d, "ZaIcAXXZ9ypfk", 0xc2e1c174);
  (0xa21ca79e36a00547, "P4BX9sN1YUAax", 0x0c043706);
  (0x4bd55054f3af2305, "P4BX9sN1YUAax", 0x8c043706);
  (0x45a7eb0c5ea3c357, "GeTFnzPVuLVEj", 0x201dc2fc);
  (0x889c693e2c15394b, "GeTFnzPVuLVEj", 0xa01dc2fc);
  (0xb01828a6fe78a106, "TBmGFWENorMkl", 0x4a750e68);
  (0x5376a244eb63c0ba, "TBmGFWENorMkl", 0xca750e68);
  (0xc4d53d2457664ac1, "vRM95DMqbAmFl", 0x1970e23f);
  (0x38ed69c36c656058, "vRM95DMqbAmFl", 0x9970e23f);
  (0xbc7af5ea01f6c73f, "jExbfRRTNvE9V", 0x4259aaa0);
  (0xaa2f4ab8eae105a2, "jExbfRRTNvE9V", 0xc259aaa0);
  (0x81aa0c10ccfc51ee, "ugKX7w6b8QzjqV", 0x617caf92);
  (0xca18ce46bb02557c, "ugKX7w6b8QzjqV", 0xe17caf92);
  (0x333582819e748166, "JagnFrBxgukM8s", 0x04a5cbc1);
  (0xef9a69a82f80173e, "JagnFrBxgukM8s", 0x84a5cbc1);
  (0xbd3af10da4a6115b, "wWVgT1KXaSLJ9c", 0x73be353f);
  (0xf335f23f01ee5d82, "wWVgT1KXaSLJ9c", 0xf3be353f);
  (0x1007b9a7485fd7e1, "8VNmhrNSY1kgNq", 0x6cd0c52c);
  (0xe1fed56825abafdd, "8VNmhrNSY1kgNq", 0xecd0c52c);
  (0xf253fe6bfc592334, "sWCmatlUqvLceU", 0x71116526);
  (0x76bd34604bb515ab, "sWCmatlUqvLceU", 0xf1116526);
  (0x6f9f8c055effbdc6, "R0fDmu47k09EeU", 0x7b028cc6);
  (0x696f3aa83e91287c, "R0fDmu47k09EeU", 0xfb028cc6);
  (0x6479a8bc4d651a44, "VlYxF6101ptMzH", 0x2e1098a4);
  (0x3f2914bdef0ec144, "VlYxF6101ptMzH", 0xae1098a4);
  (0x157c82fc2819e16f, "TxF9aZBc5WccAq", 0x0c852728);
  (0xaa5ab7803bbd6694, "TxF9aZBc5WccAq", 0x8c852728);
  (0x02bd1a031be179cc, "DjpzR2GQ0FftpP", 0x5ac63851);
  (0x0766eb88c44e6350, "DjpzR2GQ0FftpP", 0xdac63851);
  (0xad90c1bf00873010, "3IEGPOGrYJlaVT", 0x7874e0f4);
  (0xab5b7c94d99dcffb, "3IEGPOGrYJlaVT", 0xf874e0f4);
  (0x6e0f0ccd77412f93, "ZuSn4HnIxonMPMz", 0x039f6a92);
  (0x7fcbad3919158bf5, "ZuSn4HnIxonMPMz", 0x839f6a92);
  (0x4b279e7cd792bd97, "NiAu5m8ukRPsKJZ", 0x06adf34b);
  (0x4d083a391fe0eeb6, "NiAu5m8ukRPsKJZ", 0x86adf34b);
  (0x695430997a2111d5, "dP4fwsX1OiLD4lA", 0x093208b2);
  (0x922a8e6aa1b122f3, "dP4fwsX1OiLD4lA", 0x893208b2);
  (0x5685705d159d03e5, "BakGxs9PhYiZFhG", 0x7bb93d13);
  (0x3d7b838461f5aa9b, "BakGxs9PhYiZFhG", 0xfbb93d13);
  (0x67bb062df1ccd97f, "6L6Ab4BZkmApF8f", 0x3cb78b3a);
  (0x5650d71bd6ca83dd, "6L6Ab4BZkmApF8f", 0xbcb78b3a);
  (0x512c7aac3a980e48, "hxVOX4Bc0TbG8Rx", 0x1d8110d8);
  (0xcfcfc91f28fa5a5e, "hxVOX4Bc0TbG8Rx", 0x9d8110d8);
  (0x4d609092cedd0e54, "ADMLFlI0GhnlpAA", 0x4332771a);
  (0x0ffc0a4d2b43a073, "ADMLFlI0GhnlpAA", 0xc332771a);
  (0x0f5765db241c49fe, "5vs2z4exVnd4eIg", 0x5f5cfda7);
  (0x8e4b377b9c5d4ac8, "5vs2z4exVnd4eIg", 0xdf5cfda7);
  (0x3fe66ab1872e26af, "k1yZkfX0wkkVSUA", 0x4d2576a5);
  (0xdd6e9eb0f80beed3, "k1yZkfX0wkkVSUA", 0xcd2576a5);
  (0x2bf925b511dc279a, "p2XW49t0wF2Lngy", 0x5acc225d);
  (0x23ea58fd357bd3dc, "p2XW49t0wF2Lngy", 0xdacc225d)
].

(** A string literal in memory. *)
Definition literal (s : string) : list Z := (string_bytes s ++ [0])%list.

Fixpoint run_vectors (f : Z → list Z → Z → MX unit) (vs : list (Z * string * Z)) : MX unit :=
  match vs with
  | [] => mret tt
  | (expected, s, seed) :: vs => _ ← f expected (literal s) seed; run_vectors f vs
  end.

Definition main : MX Z :=
  _ ← printf ["Running hash test... "];
  _ ← run_vectors assert_murmurhash3_x86_32 vectors_32;
  _ ← run_vectors assert_murmurhash3_x64_64 vectors_64;
  _ ← run_vectors assert_murmurhash3_x64_64 more_vectors_64;
  test ← hex (literal "cf0a875f177d4977b7b9119d7e4ee4ec");
  _ ← assert_murmurhash3_x64_64 7646390503503309584 test 88057744;
  _ ← printf ["Success!"];
  mret 0.
