(* ===== verification/TestUtil.v ===== *)
(** * The test of the file names (testutil.c) *)

From stdpp Require Import base gmap list strings numbers pretty.
From Stdlib Require Import ZArith Lia Ascii.
From S2P Require Import Prelude ReturnCodes Cli.

Local Open Scope string_scope.
Local Open Scope list_scope.
Local Open Scope Z_scope.

(** Both pointers are NULL or strings. *)
Definition assert_equals (expected actual : option string) : MX unit :=
  match expected, actual with
  | None, Some a => _ ← printf ["Expected NULL but got '" +:+ a +:+ "'"]; fail 1
  | Some e, None => _ ← printf ["Expected '" +:+ e +:+ "' but got NULL"]; fail 1
  | Some e, Some a =>
      if decide (e ≠ a) then _ ← printf ["Expected '" +:+ e +:+ "' but got '" +:+ a +:+ "'"]; fail 1
      else mret tt
  | None, None => mret tt
  end.

Definition main : MX Z :=
  _ ← assert_equals None (sparkey_create_log_filename None);
  _ ← assert_equals None (sparkey_create_log_filename (Some ""));
  _ ← assert_equals None (sparkey_create_log_filename (Some "spi"));
  _ ← assert_equals (Some ".spl") (sparkey_create_log_filename (Some ".spi"));
  _ ← assert_equals None (sparkey_create_log_filename (Some ".spx"));
  _ ← assert_equals (Some "foo.spl") (sparkey_create_log_filename (Some "foo.spi"));
  _ ← printf ["Success!"];
  mret 0.
