(* ===== verification/TestVlq.v ===== *)
(** * The test of numbers of variable length (testvlq.c) *)

From stdpp Require Import base gmap list strings numbers pretty.
From Stdlib Require Import ZArith Lia Ascii.
From S2P Require Import Prelude Vlq Cli.

Local Open Scope string_scope.
Local Open Scope list_scope.
Local Open Scope Z_scope.

Definition assert_equals (expected actual : Z) : MX unit :=
  if decide (expected ≠ actual) then
    _ ← printf ["Expected " +:+ pretty (u64 expected) +:+ " but got " +:+ pretty (u64 actual)];
    fail 1
  else mret tt.

(** [1 << i], which is an [int] whatever the type of [i]. *)
Definition shift_one (i : Z) : option Z :=
  let r := Z.shiftl 1 i in
  if decide (0 ≤ i < 32 ∧ r < 2 ^ 31) then Some r else None.

(** [write_vlq(buf, value)]: the array of 20 bytes, as far as it has been written, and
    the number of bytes. *)
Definition write_buf (buf : list Z) (value : Z) : MX (list Z * Z) :=
  let bs := write_vlq (u64 value) in
  if decide (zlen bs > 20) then undefined else mret ((bs ++ drop (length bs) buf)%list, zlen bs).

Definition check_value (buf : list Z) (val : Z) : MX (list Z) :=
  bw ← write_buf buf val;
  vp ← of_opt (read_vlq bw.1 0);
  _ ← assert_equals bw.2 vp.2;
  _ ← assert_equals val (s64 vp.1);
  mret bw.1.

(** The loop over [j]. *)
Fixpoint inner_loop (todo : nat) (i j : Z) (buf : list Z) : MX (list Z) :=
  match todo with
  | O => mret buf
  | S todo =>
      shifted ← of_opt (shift_one i);
      let val := shifted + j in
      buf ← (if decide (val >= 0) then check_value buf val else mret buf);
      inner_loop todo i (j + 1) buf
  end.

(** The loop over [i]. *)
Fixpoint outer_loop (todo : nat) (i : Z) (buf : list Z) : MX (list Z) :=
  match todo with
  | O => mret buf
  | S todo => buf ← inner_loop 20 i (-10) buf; outer_loop todo (i + 1) buf
  end.

Definition check_size (size value : Z) (buf : list Z) : MX (list Z) :=
  bw ← write_buf buf value; _ ← assert_equals size bw.2; mret bw.1.

Definition main : MX Z :=
  buf ← outer_loop 60 0 [];
  buf ← check_size 1 0 buf;
  buf ← check_size 1 127 buf;
  buf ← check_size 2 128 buf;
  buf ← check_size 2 16383 buf;
  buf ← check_size 3 16384 buf;
  buf ← check_size 3 2097151 buf;
  buf ← check_size 4 2097152 buf;
  _ ← printf ["Success!"];
  mret 0.
