(* ===== verification/UnitTests.v ===== *)
(** * What the unit tests do

    testhash.c and testutil.c pass, and testvlq.c passes until a shift of its own is
    undefined. *)

From stdpp Require Import base gmap list strings numbers pretty.
From Stdlib Require Import ZArith Lia Ascii.
From S2P Require Import Prelude ReturnCodes OS Murmur Vlq Cli TestHash TestUtil TestVlq.

Local Open Scope string_scope.
Local Open Scope list_scope.
Local Open Scope Z_scope.

(** The process after [printf] has shown [lines]. *)
Definition printed (lines : list string) (p : process) : process :=
  Process (c_os p) (c_stdin p) (c_stdout p ++ lines) (c_stderr p).

Lemma printed_printed a b p : printed b (printed a p) = printed (a ++ b) p.
Proof. unfold printed. cbn. by rewrite <- app_assoc. Qed.

(** The hashes are computed. *)
Lemma testhash_run p :
  TestHash.main p = (Ok 0, printed ["Success!"] (printed ["Running hash test... "] p)).
Proof. vm_compute. reflexivity. Qed.

Lemma vlq_equal n p : TestVlq.assert_equals n n p = (Ok tt, p).
Proof. unfold TestVlq.assert_equals. by rewrite decide_False by tauto. Qed.

Lemma write_buf_run buf value p :
  0 ≤ value < 2 ^ 64 →
  TestVlq.write_buf buf value p =
    (Ok (write_vlq value ++ drop (length (write_vlq value)) buf, zlen (write_vlq value)), p).
Proof.
  intros Hv. unfold TestVlq.write_buf. rewrite u64_id by done. pose proof (write_vlq_bounds value Hv).
  by rewrite decide_False by lia.
Qed.

Lemma check_value_run buf val p :
  0 ≤ val < 2 ^ 63 →
  TestVlq.check_value buf val p = (Ok (write_vlq val ++ drop (length (write_vlq val)) buf), p).
Proof.
  intros Hv. unfold TestVlq.check_value. rewrite (bind_Ok _ _ _ _ _ (write_buf_run buf val p ltac:(lia))).
  cbn [fst snd]. pose proof (read_vlq_app [] val (drop (length (write_vlq val)) buf) ltac:(lia)) as Hr.
  cbn [app] in Hr. change (zlen (@nil Z)) with 0 in Hr. rewrite Hr, bind_of_opt. cbn [fst snd].
  rewrite Z.add_0_l, (bind_Ok _ _ _ _ _ (vlq_equal _ _)), s64_id by lia.
  by rewrite (bind_Ok _ _ _ _ _ (vlq_equal _ _)).
Qed.

(** A round whose numbers fit passes; one whose shift does not fit is undefined. *)
Lemma inner_loop_run todo i j buf p :
  0 ≤ i < 31 → - 10 ≤ j → j + Z.of_nat todo ≤ 10 →
  ∃ buf', TestVlq.inner_loop todo i j buf p = (Ok buf', p).
Proof.
  intros Hi. revert j buf. induction todo as [|todo IH]; intros j buf Hj Htodo; [by exists buf|].
  cbn [TestVlq.inner_loop]. assert (Hs : TestVlq.shift_one i = Some (2 ^ i)).
  { unfold TestVlq.shift_one. rewrite Z.shiftl_1_l. apply decide_True. split; [lia|].
    apply Z.pow_lt_mono_r; lia. }
  assert (Hp : 2 ^ i ≤ 2 ^ 30) by (apply Z.pow_le_mono_r; lia).
  rewrite Hs, bind_of_opt. case_decide as Hval.
  - rewrite (bind_Ok _ _ _ _ _ (check_value_run buf (2 ^ i + j) p ltac:(lia))). apply IH; lia.
  - rewrite bind_ret. apply IH; lia.
Qed.

Lemma outer_loop_run todo i buf p :
  0 ≤ i → i + Z.of_nat todo ≤ 31 → ∃ buf', TestVlq.outer_loop todo i buf p = (Ok buf', p).
Proof.
  revert i buf. induction todo as [|todo IH]; intros i buf Hi Htodo; [by exists buf|]. cbn [TestVlq.outer_loop].
  destruct (inner_loop_run 20 i (-10) buf p) as [buf1 H1]; [lia..|]. rewrite (bind_Ok _ _ _ _ _ H1). apply IH; lia.
Qed.

Lemma outer_loop_app a b i buf p :
  TestVlq.outer_loop (a + b) i buf p =
    (buf ← TestVlq.outer_loop a i buf; TestVlq.outer_loop b (i + Z.of_nat a) buf) p.
Proof.
  revert i buf p. induction a as [|a IH]; intros i buf p.
  { cbn [Nat.add TestVlq.outer_loop]. by rewrite bind_ret, Z.add_0_r. }
  cbn [Nat.add TestVlq.outer_loop]. rewrite bind_assoc.
  destruct (TestVlq.inner_loop 20 i (-10) buf p) as [[buf1|e| |] p1] eqn:E;
    [|by unfold mbind, M_bind; rewrite E..].
  rewrite !(bind_Ok _ _ _ _ _ E), IH. by replace (i + 1 + Z.of_nat a) with (i + Z.of_nat (S a)) by lia.
Qed.

(** ** Properties *)

(** C24. The unit tests: all 451 hashes of testhash.c and all file names of testutil.c are as
    expected.  testvlq.c computes [1 << i] as an int for [i] up to 59: its first 31
    rounds pass, the next one is undefined; every 63-bit number would pass. *)
Theorem unit_tests_run p :
  TestHash.main p = (Ok 0, printed ["Running hash test... "; "Success!"] p) ∧
  TestUtil.main p = (Ok 0, printed ["Success!"] p) ∧
  (∃ buf, TestVlq.outer_loop 31 0 [] p = (Ok buf, p)) ∧ TestVlq.main p = (UB, p) ∧
  ∀ buf val, 0 ≤ val < 2 ^ 63 → ∃ buf', TestVlq.check_value buf val p = (Ok buf', p).
Proof.
  split; [by rewrite testhash_run, printed_printed|]. split; [done|].
  destruct (outer_loop_run 31 0 [] p) as [buf Hbuf]; [done..|]. split; [by exists buf|]. split.
  - unfold TestVlq.main. change 60%nat with (31 + 29)%nat. unfold mbind, M_bind. rewrite outer_loop_app.
    by rewrite (bind_Ok _ _ _ _ _ Hbuf).
  - intros b val Hval. eexists. by apply check_value_run.
Qed.

Lemma unit_tests_run_witness :
  let p := Process (OS ∅ ∅ ∅ 0 0 [] []) [] [] [] in
  (TestHash.main p).1 = Ok 0 ∧ ∃ buf, TestVlq.check_value [1] (2 ^ 62) p = (Ok buf, p).
Proof.
  intros p. destruct (unit_tests_run p) as (-> & _ & _ & _ & H). split; [done|]. apply H. lia.
Defined.
